(* ===== verification/_CoqProject ===== *)
-Q . S2P
Prelude.v
GoStrings.v
Limits.v
Sha256.v
Regex.v
Utf8.v
Base64.v
Json.v
Text.v
Cursor.v
GoTime.v
Snapshot.v
SnapshotService.v
Records.v
Registry.v
RegistrySteps.v
Search.v
Describe.v
Catalog.v
Read.v
ReadSteps.v
Yaml.v
Manifest.v
Skill.v
Loader.v
LoaderSteps.v
JsonScan.v
ResponseLimit.v
ProviderEvents.v
ProviderRegistry.v
JsonStruct.v
JsonRound.v
Hierarchy.v
Generator.v
Generated.v
Candidates.v
Config.v
Protocol.v
Inventory.v
Regenerate.v
Publish.v
Pipeline.v
Backend.v
ProviderCall.v
Stdio.v
Client.v
CatalogClient.v
Conformance.v
Server.v
Migration.v
Serving.v
Commands.v
