(* ===== verification/Prelude.v ===== *)
(** * Tappet: a verification development

    Tappet sits between agents and the MCP servers ("providers") that run
    tools. It loads capability packages (a [tappet.yaml] manifest, agent skills
    and context files), or a directory of tool descriptions called a hierarchy,
    lets an agent browse, search, describe and read what is installed, and
    executes a tool on the provider it belongs to, which it starts, bounds and
    validates. A generator writes hierarchies and packages from what providers
    offer. This library models the program as executable definitions that
    follow the Go functions one by one, and proves what makes each part correct
    and what the parts promise each other.

    ** Parts, files and sources

    Shared ground: [Prelude.v] (results, guards, result specifications,
    lists, runs of steps, integers at their width), [GoStrings.v], [Utf8.v],
    [Base64.v], [Sha256.v], [Json.v], [JsonStruct.v] and [JsonRound.v]
    (decoding into structs; texts that are read back), [Regex.v], [GoTime.v]
    (what the sources use of Go's standard library, computed and not assumed),
    [Text.v] (the interface to [golang.org/x/text] and Go's Unicode tables) and
    [Cursor.v] (the sealed tokens of two services).

    The capability core, [src/internal/capability/]:
    - Limits, errors: [Limits.v] is [limits.go], [service_limits.go] and
      [errors.go].
    - Packages in: [Yaml.v] is [yaml.go], [Manifest.v] is [manifest.go],
      [Skill.v] is [skill.go], and [Loader.v] is [source.go],
      [source_unix.go] and [loader.go]. A load stages every file of a package
      in one transaction of the snapshot store, parses it, and commits a
      [CapRecord]; [LoaderSteps.v] says what that does to the store and to
      the registry.
    - The snapshot store: [Snapshot.v] is [snapshot.go]. Its state is
      [SnapshotStore], the heap of its objects is [World], and a step is one
      method call by any client. [SnapshotService.v] is the interface
      ([SnapshotOps], [SnapshotLaws]) the registry and the read service are
      proved against, with the store as its instance.
    - The registry: [Records.v] is [types.go] and [record.go], [Registry.v] is
      [registry.go]. Generations and leases live at addresses of [RState];
      [RegistrySteps.v] interleaves the calls of any number of clients.
    - The services over it: [Search.v] is [search.go], [Catalog.v] is
      [catalog.go], [Describe.v] is [describe.go], and [Read.v] with
      [ReadSteps.v] is [read.go].

    The providers, [src/internal/client/] and half of
    [src/internal/hierarchy/hierarchy.go]:
    - What they send: [JsonScan.v] is [json_validation.go], [ResponseLimit.v]
      the readers of [response_limit.go], [ProviderEvents.v]
      [provider_events.go] and [response_validation_transport.go]. Events
      reach the queue only through the readers and the scan.
    - How they run: [Stdio.v] is [limitedStdioTransport], a child process and
      the calls that start, kill and reap it; [Client.v] is [client.go].
    - Who calls them: [ProviderRegistry.v] is the [ServerRegistry], at most
      one client for each configured server; [ProviderCall.v] is the mutex of
      a client, the start context, [newProviderClient] and
      [ExecuteMappedTool].

    The broker, [src/internal/server/], [src/internal/config/], [src/cmd/]:
    [Hierarchy.v] is the hierarchy of [hierarchy.go], [Backend.v] the
    capability backend of [backend.go], [Protocol.v] is
    [protocol_validation.go], [Config.v] is [config.go],
    [config_deprecated.go] and the overrides of [cmd/tappet/main.go],
    [Server.v] is [server.go] up to loading: a backend is the class
    [brokerBackend], whose instances are the capability registry and the
    hierarchy, and [Serving.v] the rest of it: what is registered with mcp-go,
    starting, and closing when a server stops.

    The generator, [src/structure_generator/]: [Inventory.v] takes the tools
    of providers with the client of [CatalogClient.v] ([cmd/main.go]),
    [Generator.v] validates and writes them
    ([generator.go], [types.go]), [Generated.v] shows that the broker's
    [Hierarchy.v] loads what was written, [Regenerate.v] rewrites overviews,
    [Candidates.v] turns a hierarchy into packages
    ([capability_candidates.go]) that [Manifest.v] accepts, [Publish.v]
    moves what was written into place, and [Pipeline.v] follows a tool from
    what a provider sends to the hierarchy the broker loads.

    [Commands.v] is the [main] functions of both commands over all of this,
    [Migration.v] follows a tool of a hierarchy through a package to the server
    that loads it, and [Conformance.v] is the program that drives [Client.v]
    through MCP's conformance suite ([conformance/client/main.go]).

    ** State and steps

    A Go value guarded by a mutex is a record, a method that holds the mutex
    throughout is a function from the record to the new record and the
    method's results, and a method that takes the mutex twice is one function
    per critical section. Goroutines are steps: an action type, a function
    that says where an action is possible and what it does, and the states
    reachable by any interleaving. Pointers that are shared are addresses of a
    finite map. Errors are values: [result error A], where an [error] keeps
    what [errors.Is] and [errors.As] can see of it. Integers are [Z]; where
    Go's arithmetic could leave an [int64] or [uint64], [wrap64] and [wrapU64]
    are written out and the theorems show when they do nothing. Clocks, random
    sources and what the operating system answers are arguments. The order in
    which [range] visits a map is an argument that the theorems quantify over.

    ** What is proved

    - Snapshot store: exact accounting and reference counts in every reachable
      state, immutability of committed bytes, nothing left when all is
      released, exact windows without overflow, independence of map order.
    - Registry: the generation invariant under every interleaving, leased
      records stay readable, each generation is reclaimed exactly once and
      exactly when it should be, installed capabilities are discoverable, the
      hierarchy is the declarative one, operations and legacy paths resolve.
    - Search: the ranked, limited result list against its specification, the
      tokenizer against the words of a text, score bounds without overflow,
      exact identifiers.
    - Describe, Catalog, Read: pages and chunks that enumerate or reassemble
      exactly, cursors that only the service can make, deadlines, quotas,
      retries that repeat an answer, and reservations that suffice.
    - Packages: an accepted manifest satisfies every rule and a well-formed
      one is accepted (soundness, completeness and round trip through its
      tree), the parser fails only with its own errors, the YAML walk is
      exactly its declarative reading, the files opened stay below the
      package, a load is all or nothing in the store, a loaded record reads
      back its files' bytes, and it can be installed.
    - Providers: a message passes the scan exactly when it is JSON within the
      bounds without repeated members; the readers release exactly the valid
      frames; the event queue is bounded and loses nothing it accepted; there
      is one client for each server and one call at a time; a start that fails is
      cleaned up once; no child outlives a close.
    - Hierarchies: after a successful run of the generator's command the
      broker tells an agent of every tool of every configured provider, under
      a path that executes it;
      browsing is exact; inventories are complete and bounded, each page the
      answer to a request of its own;
      regenerating keeps edits and is idempotent; publishing never loses the
      previous structure; a server that is given the packages of a migrated
      hierarchy starts and executes each of its tools, under names in NFC.
    - Broker: every malformed modern request and no other is refused; browsing
      the capability backend is exact, and a tool that an agent is told can be
      executed; configurations have their declared meaning; the middleware
      admits exactly the configured tokens; a server starts exactly when its
      packages load, and one that stops leaves nothing in the store.

    ** Fuel and bounds

    Most loops of the sources are structural recursions on a list or on a
    number the code itself bounds (the attempts at a fresh random identifier,
    the items of a page). The others take fuel, and the fuel their callers give
    is enough: [frontmatter_loop] and the decoders of UTF-8 recurse on the
    bytes that are left; [Json.parse_value] and [scanJSONValue] get twice the
    input's bytes and a little more, as every call consumes a token
    (theorem [JsonScan.json_scan_terminates]); [raw_members] and
    [raw_elements] one unit for each byte; [read_line] and [next_line] one
    more than what is left of the stream; and [list_pages] gets the limit on
    pages and one more (theorem [Inventory.inventory_terminates]).

    ** Parameters

    Code outside the repository is an interface with the laws its
    documentation gives and an instance for concrete runs: normalisation and
    case folding ([TextOps], [TextLaws], [LowerCase], [UpperCase],
    [RuneLower]), Unicode categories ([UnicodeTables]), the table of MIME types
    ([MimeTable]), the YAML library ([YamlDecoder], and [yaml.Marshal] in
    [Candidates.v], whose output decodes as [Migration.v] says), the operating system's files ([UnixFiles]) and mcp-go's
    messages ([Mcp], [McpTools], [McpProtocol]) and clients ([CatalogClient],
    [McpClient], [TestServer]). What mcp-go's clients and
    transports, contexts, processes and renames do in one call is an argument
    of the step or function that makes the call. SHA-256 is defined; theorems
    that need two digests to differ say so with [no_collision] on the byte
    strings at hand. A number in JSON keeps its literal: Go's [float64] is not
    computed.

    ** Not modelled

    mcp-go and what only configures it: the constructors of HTTP clients, the
    listeners and signals. A listener is what it does to the runtime, and the
    filter on standard input ([Protocol.v]) is not composed with mcp-go's loop
    over the lines it passes on. The fetching and decoding of a configuration
    (confstore) and [flag]. Half
    of [structure_generator/types.go] are types and tables that nothing uses. The
    closing of files whose errors the code drops, Go's finalizers and
    garbage, log messages other than those of the HTTP middleware and the keepalive, and the
    text of errors beyond their format and arguments. [source_unsupported.go],
    which refuses every package on platforms other than Unix, and the case
    folding of Windows paths. *)
From stdpp Require Export base decidable option list gmap strings sorting fin_maps fin_map_dom.
From stdpp Require Import relations.
From Stdlib Require Export ZArith Lia.

(** ** Notations of the development *)

Declare Scope tappet_scope.
Delimit Scope tappet_scope with tappet.

(** A byte of a Go string or slice is an [ascii]; a [[]byte] is a list of
    them and a Go [string] is a Rocq [string]. *)
Abbreviation bytes := (list Ascii.ascii).

(** ** Results: Go's [(T, error)] pairs *)

Inductive result (E A : Type) : Type :=
| Ok (x : A)
| Err (e : E).
Arguments Ok {E A} x.
Arguments Err {E A} e.

Definition rbind {E A B} (r : result E A) (f : A → result E B) : result E B :=
  match r with Ok x => f x | Err e => Err e end.

Definition rmap {E A B} (f : A → B) (r : result E A) : result E B :=
  match r with Ok x => Ok (f x) | Err e => Err e end.

(** [if err := check; err != nil { return err }] *)
Definition guardE {E A} (b : bool) (e : E) (k : result E A) : result E A :=
  if b then Err e else k.

Definition is_Ok {E A} (r : result E A) : Prop := ∃ x, r = Ok x.

Notation "'let!' x ':=' e 'in' k" := (rbind e (λ x, k))
  (at level 10, x name, e at level 100, k at level 200) : tappet_scope.
Notation "'let!' ' p ':=' e 'in' k" := (rbind e (λ p, k))
  (at level 10, p strict pattern, e at level 100, k at level 200) : tappet_scope.
Notation "'fail_if' b 'with' e 'else' k" := (guardE b e k)
  (at level 10, b at level 100, e at level 100, k at level 200) : tappet_scope.
Open Scope tappet_scope.

(** A loop over a slice whose body may fail, with an accumulator. *)
Fixpoint rfold {E A S} (f : S → A → result E S) (s : S) (l : list A) : result E S :=
  match l with
  | [] => Ok s
  | x :: l => let! s' := f s x in rfold f s' l
  end.

(** [for i, item := range items] with a body that may fail. *)
Fixpoint rfoldi {E A S} (f : Z → S → A → result E S) (i : Z) (s : S) (l : list A) : result E S :=
  match l with
  | [] => Ok s
  | x :: l => let! s' := f i s x in rfoldi f (i + 1)%Z s' l
  end.

(** What a result satisfies: [P] if it is an error, [Q] if it is a value. *)
Definition rspec {E A} (P : E → Prop) (Q : A → Prop) (r : result E A) : Prop :=
  match r with Ok x => Q x | Err e => P e end.

Global Instance result_eq_dec {E A} `{EqDecision E, EqDecision A} : EqDecision (result E A).
Proof. solve_decision. Defined.

(** ** Go's 64-bit integers *)

Definition MaxInt64 : Z := 2 ^ 63 - 1.
Definition MinInt64 : Z := - 2 ^ 63.

(** Two's complement wrap-around of [int64] (and of [int] on 64-bit
    platforms), and of [uint64]. *)
Definition wrap64 (z : Z) : Z := (z + 2 ^ 63) mod 2 ^ 64 - 2 ^ 63.
Definition wrapU64 (z : Z) : Z := z mod 2 ^ 64.

Definition int64_ok (z : Z) : Prop := (MinInt64 ≤ z ≤ MaxInt64)%Z.

(** [len(x)] of a slice or a string is an [int]. *)
Definition zlen {A} (l : list A) : Z := Z.of_nat (length l).
Definition slen (s : string) : Z := Z.of_nat (String.length s).

(** Sum of a measure over a map's values. *)
Definition map_sum {K A} `{Countable K} (f : A → Z) (m : gmap K A) : Z :=
  map_fold (λ _ x acc, (f x + acc)%Z) 0%Z m.

(** Number of entries of a list satisfying a decidable predicate. *)
Definition count_if {A} (p : A → bool) (l : list A) : Z :=
  Z.of_nat (length (filter (λ x, Is_true (p x)) l)).

(** ** Tactics *)

(** Invert a successful [rbind]. *)
Ltac inv_bind H :=
  match type of H with
  | rbind ?r ?f = Ok ?v =>
      let x := fresh "r" in let Hx := fresh "H" x in
      destruct r as [x|] eqn:Hx; simpl in H; [|discriminate H]
  | guardE ?b ?e ?k = Ok ?v =>
      let Hb := fresh "Hg" in
      destruct b eqn:Hb; simpl in H; [discriminate H|]
  end.

Ltac inv_binds H := repeat inv_bind H.

(** Turn boolean comparisons in the context into propositions. *)
Ltac bool_hyps :=
  repeat match goal with
  | H : (_ && _) = true |- _ => apply andb_true_iff in H as [? ?]
  | H : (_ || _) = false |- _ => apply orb_false_iff in H as [? ?]
  | H : negb _ = true |- _ => apply negb_true_iff in H
  | H : negb _ = false |- _ => apply negb_false_iff in H
  | H : (_ <? _)%Z = true |- _ => apply Z.ltb_lt in H
  | H : (_ <? _)%Z = false |- _ => apply Z.ltb_ge in H
  | H : (_ <=? _)%Z = true |- _ => apply Z.leb_le in H
  | H : (_ <=? _)%Z = false |- _ => apply Z.leb_gt in H
  | H : (_ >? _)%Z = true |- _ => apply Z.gtb_lt in H
  | H : (_ >? _)%Z = false |- _ => rewrite Z.gtb_ltb in H; apply Z.ltb_ge in H
  | H : (_ >=? _)%Z = true |- _ => apply Z.geb_le in H
  | H : (_ >=? _)%Z = false |- _ => rewrite Z.geb_leb in H; apply Z.leb_gt in H
  | H : (_ =? _)%Z = true |- _ => apply Z.eqb_eq in H
  | H : (_ =? _)%Z = false |- _ => apply Z.eqb_neq in H
  | H : bool_decide _ = true |- _ => apply bool_decide_eq_true in H
  | H : bool_decide _ = false |- _ => apply bool_decide_eq_false in H
  end.

(** ** Results: lemmas *)

Lemma rbind_Ok {E A B} (r : result E A) (f : A → result E B) y :
  rbind r f = Ok y ↔ ∃ x, r = Ok x ∧ f x = Ok y.
Proof.
  destruct r as [x|e]; simpl; split.
  - intros Hf. by exists x.
  - by intros (x' & [= ->] & Hf).
  - done.
  - by intros (x' & [=] & _).
Qed.

Lemma guardE_Ok {E A} b (e : E) (k : result E A) y :
  guardE b e k = Ok y ↔ b = false ∧ k = Ok y.
Proof. destruct b; simpl; [split; [done|by intros []]|tauto]. Qed.

Lemma rfold_app {E A S} (f : S → A → result E S) s l1 l2 :
  rfold f s (l1 ++ l2) = rbind (rfold f s l1) (λ s', rfold f s' l2).
Proof. revert s. induction l1 as [|x l1 IH]; intros s; simpl; [done|].
  destruct (f s x); simpl; auto. Qed.

(** Invariant rule for a fallible loop. *)
Lemma rfold_ind {E A S} (P : S → Prop) (f : S → A → result E S) l s s' :
  P s → (∀ s x s', x ∈ l → P s → f s x = Ok s' → P s') → rfold f s l = Ok s' → P s'.
Proof.
  revert s. induction l as [|x l IH]; intros s Hs Hstep Hf; simpl in Hf.
  { by simplify_eq. }
  inv_bind Hf. eapply IH; [|intros; eapply Hstep; set_solver|done].
  eapply Hstep; [|done..]. set_solver.
Qed.

(** A fallible loop that adds one result for each element. *)
Lemma rfold_collect {E A B} (R : A → B → Prop) (f : list B → A → result E (list B)) l :
  (∀ ys x r, f ys x = Ok r ↔ ∃ y, r = ys ++ [y] ∧ R x y) → ∀ ys all,
  rfold f ys l = Ok all ↔ ∃ new, all = ys ++ new ∧ Forall2 R l new.
Proof.
  intros Hf. induction l as [|x l IH]; intros ys all; cbn [rfold].
  { split; [intros [= <-]; exists []; by rewrite app_nil_r|]. intros (new & -> & ->%Forall2_nil_inv_l). by rewrite app_nil_r. }
  rewrite rbind_Ok. split.
  - intros (r & (y & -> & Hy)%Hf & (new & -> & Hall)%IH). exists (y :: new). rewrite <- app_assoc. split; [done|by constructor].
  - intros (new & -> & (y & new' & Hy & Hall & ->)%Forall2_cons_inv_l). exists (ys ++ [y]). split; [apply Hf; by exists y|].
    apply IH. exists new'. by rewrite <- app_assoc.
Qed.

Lemma rspec_bind {E A B} (P : E → Prop) Q (R : B → Prop) (r : result E A) f :
  rspec P Q r → (∀ x, r = Ok x → Q x → rspec P R (f x)) → rspec P R (rbind r f).
Proof. destruct r; simpl; auto. Qed.

Lemma rspec_guard {E A} (P : E → Prop) (Q : A → Prop) b e k :
  P e → (b = false → rspec P Q k) → rspec P Q (guardE b e k).
Proof. destruct b; simpl; auto. Qed.

Lemma rspec_mono {E A} (P : E → Prop) (Q R : A → Prop) r :
  rspec P Q r → (∀ x, Q x → R x) → rspec P R r.
Proof. destruct r; simpl; auto. Qed.

Lemma rspec_rmap {E A B} (P : E → Prop) (Q : B → Prop) (f : A → B) r :
  rspec P (λ x, Q (f x)) r → rspec P Q (rmap f r).
Proof. by destruct r. Qed.

Lemma rspec_Ok {E A} (P : E → Prop) (Q : A → Prop) r x : rspec P Q r → r = Ok x → Q x.
Proof. by intros ? ->. Qed.

Lemma rspec_Err {E A} (P : E → Prop) (Q : A → Prop) r e : rspec P Q r → r = Err e → P e.
Proof. by intros ? ->. Qed.

(** Invariant rule for an indexed loop. *)
Lemma rspec_rfoldi {E A S} (P : E → Prop) (I : Z → S → Prop) (f : Z → S → A → result E S) l i s :
  I i s → (∀ i s x, x ∈ l → I i s → rspec P (I (i + 1)%Z) (f i s x)) →
  rspec P (I (i + Z.of_nat (length l))%Z) (rfoldi f i s l).
Proof.
  revert i s. induction l as [|x l IH]; intros i s Hs Hf; cbn [rfoldi]; [simpl; by rewrite Z.add_0_r|].
  replace (i + Z.of_nat (length (x :: l)))%Z with (i + 1 + Z.of_nat (length l))%Z by (cbn [length]; lia).
  pose proof (Hf i s x ltac:(left) Hs) as Hx. destruct (f i s x) as [s'|e]; cbn [rbind rspec] in *; [|done].
  apply IH; [done|]. intros. apply Hf; [by right|done].
Qed.

(** A loop that turns rendered items back into the items. *)
Lemma rfoldi_complete {E A B S} (f : Z → S → A → result E S) (render : B → A) (st : list B → S) l :
  (∀ pre x post, l = pre ++ x :: post →
     f (Z.of_nat (length pre)) (st pre) (render x) = Ok (st (pre ++ [x]))) →
  rfoldi f 0%Z (st []) (map render l) = Ok (st l).
Proof.
  intros Hf. assert (∀ post pre, l = pre ++ post →
    rfoldi f (Z.of_nat (length pre)) (st pre) (map render post) = Ok (st l)) as Hg.
  { induction post as [|x post IH]; intros pre Hl; simpl; [by rewrite Hl, app_nil_r|].
    rewrite (Hf pre x post Hl). simpl. specialize (IH (pre ++ [x])). rewrite length_app in IH. simpl in IH.
    rewrite Nat2Z.inj_add in IH. apply IH. by rewrite Hl, <-app_assoc. }
  by apply (Hg l []).
Qed.

(** ** Integers: lemmas *)

Lemma wrap64_id z : int64_ok z → wrap64 z = z.
Proof. unfold int64_ok, MinInt64, MaxInt64, wrap64. intros.
  rewrite Z.mod_small; lia. Qed.

Lemma wrap64_range z : int64_ok (wrap64 z).
Proof. unfold int64_ok, MinInt64, MaxInt64, wrap64.
  pose proof (Z.mod_pos_bound (z + 2 ^ 63) (2 ^ 64)). lia. Qed.

Lemma wrap64_over z : (2 ^ 63 ≤ z < 2 ^ 63 + 2 ^ 64)%Z → wrap64 z = (z - 2 ^ 64)%Z.
Proof. unfold wrap64. intros.
  replace (z + 2 ^ 63)%Z with (z - 2 ^ 63 + 1 * 2 ^ 64)%Z by lia.
  rewrite Z.mod_add by lia. rewrite Z.mod_small; lia. Qed.

Lemma zlen_app {A} (l1 l2 : list A) : zlen (l1 ++ l2) = (zlen l1 + zlen l2)%Z.
Proof. unfold zlen. rewrite length_app. lia. Qed.
Lemma zlen_nonneg {A} (l : list A) : (0 ≤ zlen l)%Z.
Proof. unfold zlen. lia. Qed.
Lemma slen_nonneg (s : string) : (0 ≤ slen s)%Z.
Proof. unfold slen. lia. Qed.
Lemma zlen_take {A} (n : nat) (l : list A) : zlen (take n l) = Z.min (Z.of_nat n) (zlen l).
Proof. unfold zlen. rewrite length_take. lia. Qed.
Lemma zlen_drop {A} (n : nat) (l : list A) : zlen (drop n l) = Z.max 0 (zlen l - Z.of_nat n)%Z.
Proof. unfold zlen. rewrite length_drop. lia. Qed.

(** ** Runs *)

(** Doing a list of actions, the impossible ones left out, is a run of the
    step relation. *)
Lemma exec_reaches {S A} (exec : S → A → option S) (actions : list A) : ∀ s0 s,
  rtc (λ x y, ∃ a, exec x a = Some y) s0 s →
  rtc (λ x y, ∃ a, exec x a = Some y) s0 (foldl (λ s a, default s (exec s a)) s actions).
Proof.
  induction actions as [|a l IH]; intros s0 s Hs; [done|]. cbn [foldl]. apply IH. destruct (exec s a) as [s'|] eqn:E; [|done].
  eapply rtc_r; [exact Hs|]. by exists a.
Qed.

(** ** Map sums *)

Section map_sum.
Context {K A : Type} `{Countable K}.
Implicit Types (m : gmap K A) (f : A → Z).

Lemma map_sum_empty f : map_sum f (∅ : gmap K A) = 0%Z.
Proof. unfold map_sum. by rewrite map_fold_empty. Qed.

Lemma map_sum_insert f m k x :
  m !! k = None → map_sum f (<[k:=x]> m) = (f x + map_sum f m)%Z.
Proof. intros Hk. unfold map_sum. rewrite map_fold_insert_L; [done| |done].
  intros; lia. Qed.

Lemma map_sum_delete f m k x :
  m !! k = Some x → map_sum f (delete k m) = (map_sum f m - f x)%Z.
Proof. intros Hk. rewrite <-(insert_delete_id m k x Hk) at 2.
  rewrite map_sum_insert by apply lookup_delete_eq. lia. Qed.

Lemma map_sum_update f m k x y :
  m !! k = Some x → map_sum f (<[k:=y]> m) = (map_sum f m - f x + f y)%Z.
Proof. intros Hk. rewrite <-insert_delete_eq.
  rewrite map_sum_insert by apply lookup_delete_eq.
  rewrite (map_sum_delete f m k x Hk). lia. Qed.

Lemma map_sum_nonneg f m :
  (∀ k x, m !! k = Some x → (0 ≤ f x)%Z) → (0 ≤ map_sum f m)%Z.
Proof.
  induction m as [|k x m Hk IH] using map_ind; intros Hf.
  { by rewrite map_sum_empty. }
  rewrite map_sum_insert by done.
  assert (0 ≤ f x)%Z by (apply (Hf k); apply lookup_insert_eq).
  assert (0 ≤ map_sum f m)%Z; [|lia].
  apply IH. intros k' x' Hk'. apply (Hf k'). rewrite lookup_insert_ne; [done|].
  intros ->. congruence.
Qed.

Lemma map_sum_lookup_le f m k x :
  (∀ k x, m !! k = Some x → (0 ≤ f x)%Z) → m !! k = Some x → (f x ≤ map_sum f m)%Z.
Proof.
  intros Hf Hk. pose proof (map_sum_delete f m k x Hk) as Hd.
  assert (0 ≤ map_sum f (delete k m))%Z; [|lia].
  apply map_sum_nonneg. intros k' x' [_ ?]%lookup_delete_Some. eauto.
Qed.

Lemma map_sum_ext f g m :
  (∀ k x, m !! k = Some x → f x = g x) → map_sum f m = map_sum g m.
Proof.
  induction m as [|k x m Hk IH] using map_ind; intros Hf.
  { by rewrite !map_sum_empty. }
  rewrite !map_sum_insert by done. rewrite (Hf k x) by apply lookup_insert_eq.
  rewrite IH; [done|]. intros k' x' Hk'. apply (Hf k').
  rewrite lookup_insert_ne; [done|]. congruence.
Qed.

Lemma map_sum_const c m :
  map_sum (λ _, c) m = (c * Z.of_nat (size m))%Z.
Proof.
  induction m as [|k x m Hk IH] using map_ind.
  { rewrite map_sum_empty, map_size_empty. lia. }
  rewrite map_sum_insert, map_size_insert_None by done. lia.
Qed.

Lemma map_sum_plus f g m :
  map_sum (λ x, f x + g x)%Z m = (map_sum f m + map_sum g m)%Z.
Proof.
  induction m as [|k x m Hk IH] using map_ind.
  { by rewrite !map_sum_empty. }
  rewrite !map_sum_insert by done. lia.
Qed.

Lemma map_sum_zero_inv f m k x :
  (∀ k x, m !! k = Some x → (0 ≤ f x)%Z) → map_sum f m = 0%Z → m !! k = Some x → f x = 0%Z.
Proof. intros Hf Hs Hk. pose proof (map_sum_lookup_le f m k x Hf Hk).
  specialize (Hf _ _ Hk). lia. Qed.

(** The sum is the same whatever order the entries are visited in. *)
Lemma map_sum_list f m (l : list (K * A)) :
  l ≡ₚ map_to_list m → map_sum f m = foldr (λ p acc, (f p.2 + acc)%Z) 0%Z l.
Proof.
  intros Hl.
  assert (∀ l1 l2 : list (K * A), l1 ≡ₚ l2 →
    foldr (λ p acc, (f p.2 + acc)%Z) 0%Z l1 = foldr (λ p acc, (f p.2 + acc)%Z) 0%Z l2) as Hp.
  { induction 1; simpl; lia. }
  rewrite (Hp _ _ Hl). unfold map_sum. rewrite map_fold_foldr.
  clear Hl. generalize (map_to_list m). intros ml.
  induction ml as [|[i x] ml IH]; simpl; [done|]. by rewrite IH.
Qed.
End map_sum.

(** A fresh address is free. *)
Lemma lookup_fresh {A} (m : gmap nat A) : m !! fresh (dom m) = None.
Proof. apply not_elem_of_dom, is_fresh. Qed.

(** ** Counting *)

Lemma count_if_nil {A} (p : A → bool) : count_if p [] = 0%Z.
Proof. done. Qed.
Lemma count_if_cons {A} (p : A → bool) x l :
  count_if p (x :: l) = ((if p x then 1 else 0) + count_if p l)%Z.
Proof. unfold count_if. rewrite filter_cons.
  destruct (p x); case_decide; simpl in *; try done; lia. Qed.
Lemma count_if_nonneg {A} (p : A → bool) l : (0 ≤ count_if p l)%Z.
Proof. unfold count_if. lia. Qed.

(** ** Lists *)

Lemma take_drop_slice {A} (l : list A) (i n m : nat) :
  take n (drop i l) ++ take m (drop (i + n) l) = take (n + m) (drop i l).
Proof.
  rewrite <-drop_drop. generalize (drop i l) as l'. clear.
  induction n as [|n IH]; intros l'; simpl; [by rewrite drop_0|].
  destruct l' as [|x l']; simpl; [by rewrite take_nil|]. by rewrite IH.
Qed.

Lemma NoDup_fst_lookup {A B} (l : list (A * B)) a b1 b2 :
  NoDup l.*1 → (a, b1) ∈ l → (a, b2) ∈ l → b1 = b2.
Proof.
  induction l as [|[a' b'] l IH]; simpl; intros Hnd H1 H2; [set_solver|].
  apply NoDup_cons in Hnd as [Hn Hnd].
  rewrite elem_of_cons in H1. rewrite elem_of_cons in H2.
  destruct H1 as [H1|H1], H2 as [H2|H2]; simplify_eq; auto.
  - destruct Hn. apply list_elem_of_fmap. by exists (a', b2).
  - destruct Hn. apply list_elem_of_fmap. by exists (a', b1).
Qed.

(** A list is empty or has a last element. *)
Lemma exists_last_or_nil {A} (l : list A) : l = [] ∨ ∃ l' x, l = l' ++ [x].
Proof. induction l as [|x l _] using rev_ind; eauto. Qed.

(** ** Hint databases *)

Create HintDb tappet.
Create Rewrite HintDb tappet_simp.
#[export] Hint Resolve zlen_nonneg slen_nonneg count_if_nonneg wrap64_range : tappet.
#[export] Hint Rewrite @zlen_app @zlen_take @zlen_drop @count_if_nil @count_if_cons : tappet_simp.
#[export] Hint Rewrite @map_sum_empty : tappet_simp.
