(* ===== verification/GoStrings.v ===== *)
(** * The parts of Go's [strings], [bytes] and [path] packages the sources use

    A Go string is a byte sequence: Rocq's [string], whose characters are
    8-bit. Each function follows the documented behaviour of the standard
    library function of the same name. *)
From S2P Require Import Prelude.
From Stdlib Require Import Ascii String.
Local Open Scope string_scope.
Local Open Scope list_scope.

(** ** Definitions *)

(** Conversions between [string] and [[]byte]. *)
Definition to_bytes : string → bytes := list_ascii_of_string.
Definition of_bytes : bytes → string := string_of_list_ascii.

Definition HasPrefix (s p : string) : bool := String.prefix p s.

Fixpoint TrimPrefix (s p : string) : string :=
  match p, s with
  | EmptyString, _ => s
  | String a p', String b s' =>
      if Ascii.eqb a b then
        if String.prefix p' s' then TrimPrefix s' p' else s
      else s
  | _, _ => s
  end.

Definition str_rev (s : string) : string := of_bytes (rev (to_bytes s)).
Definition HasSuffix (s p : string) : bool := HasPrefix (str_rev s) (str_rev p).

Fixpoint Contains (s sub : string) : bool :=
  String.prefix sub s ||
  match s with EmptyString => false | String _ s' => Contains s' sub end.

Fixpoint ContainsByte (s : string) (c : ascii) : bool :=
  match s with
  | EmptyString => false
  | String a s' => Ascii.eqb a c || ContainsByte s' c
  end.

(** [strings.ContainsAny(s, chars)] for an ASCII [chars]. *)
Fixpoint ContainsAny (s chars : string) : bool :=
  match s with
  | EmptyString => false
  | String a s' => ContainsByte chars a || ContainsAny s' chars
  end.

(** [strings.Split(s, sep)] for a one-byte separator: never empty. *)
Fixpoint Split (s : string) (sep : ascii) : list string :=
  match s with
  | EmptyString => [EmptyString]
  | String c s' =>
      if Ascii.eqb c sep then EmptyString :: Split s' sep
      else match Split s' sep with
           | p :: ps => String c p :: ps
           | [] => [String c EmptyString]
           end
  end.

Fixpoint Join (l : list string) (sep : string) : string :=
  match l with
  | [] => EmptyString
  | [x] => x
  | x :: l' => x +:+ sep +:+ Join l' sep
  end.

(** [strings.LastIndexByte(s, c)]: -1 when absent. *)
Fixpoint LastIndexByte (s : string) (c : ascii) : Z :=
  match s with
  | EmptyString => -1
  | String a s' =>
      let i := LastIndexByte s' c in
      if (0 <=? i)%Z then (i + 1)%Z else if Ascii.eqb a c then 0%Z else (-1)%Z
  end.

(** The slice expressions [s[:i]] and [s[i:]] (for [0 <= i <= len(s)]). *)
Definition slice_to (s : string) (i : Z) : string := String.substring 0 (Z.to_nat i) s.
Definition slice_from (s : string) (i : Z) : string :=
  String.substring (Z.to_nat i) (String.length s - Z.to_nat i) s.

(** [strings.Trim(s, c)] for a one-byte cutset. *)
Fixpoint trim_left (s : string) (c : ascii) : string :=
  match s with
  | EmptyString => EmptyString
  | String a s' => if Ascii.eqb a c then trim_left s' c else s
  end.
Definition Trim (s : string) (c : ascii) : string :=
  str_rev (trim_left (str_rev (trim_left s c)) c).

(** Byte-wise lexicographic [<=] and [<] on strings. *)
Definition str_le (a b : string) : Prop := String.le a b.
Definition str_lt (a b : string) : bool := String.ltb a b.

(** ** [path] *)

(** One step of [path.Clean] over the path's elements; [stack] holds the
    elements kept so far, last first. *)
Definition clean_step (rooted : bool) (stack : list string) (part : string) : list string :=
  if String.eqb part "" || String.eqb part "." then stack
  else if String.eqb part ".." then
    match stack with
    | top :: rest => if String.eqb top ".." then ".." :: stack else rest
    | [] => if rooted then [] else [".."]
    end
  else part :: stack.

(** [path.Clean] *)
Definition path_Clean (p : string) : string :=
  if String.eqb p "" then "." else
  let rooted := HasPrefix p "/" in
  let out := Join (rev (fold_left (clean_step rooted) (Split p "/") [])) "/" in
  if rooted then "/" +:+ out else if String.eqb out "" then "." else out.

(** [path.Join] *)
Definition path_Join (elems : list string) : string :=
  match List.filter (λ e, negb (String.eqb e "")) elems with
  | [] => ""
  | l => path_Clean (Join l "/")
  end.

(** [path.Base] *)
Fixpoint trim_slashes_rev (s : string) : string :=
  match s with
  | String "/" s' => trim_slashes_rev s'
  | _ => s
  end.
Definition path_Base (p : string) : string :=
  if String.eqb p "" then "." else
  let q := str_rev (trim_slashes_rev (str_rev p)) in
  let q := slice_from q (LastIndexByte q "/" + 1) in
  if String.eqb q "" then "/" else q.

(** ** Lemmas: strings and bytes *)

Lemma of_to_bytes s : of_bytes (to_bytes s) = s.
Proof. apply string_of_list_ascii_of_string. Qed.
Lemma to_of_bytes l : to_bytes (of_bytes l) = l.
Proof. apply list_ascii_of_string_of_list_ascii. Qed.

Global Instance to_bytes_inj : Inj (=) (=) to_bytes.
Proof. intros s1 s2 H. by rewrite <-(of_to_bytes s1), H, of_to_bytes. Qed.

Lemma to_bytes_app s1 s2 : to_bytes (s1 +:+ s2) = to_bytes s1 ++ to_bytes s2.
Proof. induction s1; simpl; [done|]. unfold to_bytes in *. simpl. by f_equal. Qed.

Lemma str_app_assoc s1 s2 s3 : (s1 +:+ s2) +:+ s3 = s1 +:+ s2 +:+ s3.
Proof. apply (inj to_bytes). by rewrite !to_bytes_app, app_assoc. Qed.
Lemma str_app_nil_r s : s +:+ "" = s.
Proof. apply (inj to_bytes). rewrite to_bytes_app. apply app_nil_r. Qed.
Lemma str_app_nil_l s : "" +:+ s = s.
Proof. done. Qed.
Lemma str_app_cons c s1 s2 : String c s1 +:+ s2 = String c (s1 +:+ s2).
Proof. done. Qed.
Lemma str_length_app s1 s2 :
  String.length (s1 +:+ s2) = (String.length s1 + String.length s2)%nat.
Proof. induction s1; simpl; [done|]. by rewrite IHs1. Qed.
Lemma slen_app s1 s2 : slen (s1 +:+ s2) = (slen s1 + slen s2)%Z.
Proof. unfold slen. rewrite str_length_app. lia. Qed.
Lemma str_app_inv_l s1 s2 s3 : s1 +:+ s2 = s1 +:+ s3 → s2 = s3.
Proof. apply (inj (String.append s1)). Qed.
Lemma slen_to_bytes s : zlen (to_bytes s) = slen s.
Proof. unfold zlen, slen, to_bytes. f_equal. induction s; simpl; auto. Qed.

Lemma HasPrefix_spec s p : HasPrefix s p = true ↔ ∃ r, s = p +:+ r.
Proof.
  unfold HasPrefix. revert s. induction p as [|a p IH]; intros s; simpl.
  - split; [|by destruct s]. intros _. by exists s.
  - destruct s as [|b s]; simpl.
    + split; [done|]. by intros [r Hr].
    + destruct (ascii_dec a b) as [->|Hab].
      * rewrite IH. setoid_rewrite str_app_cons.
        split; intros [r Hr]; exists r; congruence.
      * split; [done|]. intros [r Hr]. rewrite str_app_cons in Hr. congruence.
Qed.

Lemma TrimPrefix_app p r : TrimPrefix (p +:+ r) p = r.
Proof.
  induction p as [|a p IH]; simpl; [by destruct r|].
  rewrite Ascii.eqb_refl.
  assert (String.prefix p (p +:+ r) = true) as Hp
    by (apply (HasPrefix_spec (p +:+ r) p); by exists r).
  change ((fix app s1 s2 := match s1 with
    | EmptyString => s2 | String c s1' => String c (app s1' s2) end) p r) with (p +:+ r) in *.
  by rewrite Hp.
Qed.

(** ** Lemmas: [Split] and [Join] *)

Lemma ContainsByte_app s1 s2 c :
  ContainsByte (s1 +:+ s2) c = ContainsByte s1 c || ContainsByte s2 c.
Proof. induction s1; simpl; [done|]. by rewrite IHs1, orb_assoc. Qed.

Lemma Split_ne_nil s sep : Split s sep ≠ [].
Proof. destruct s as [|c s]; simpl; [done|].
  destruct (Ascii.eqb c sep); [done|]. by destruct (Split s sep). Qed.

Lemma Join_cons x l sep : l ≠ [] → Join (x :: l) sep = x +:+ sep +:+ Join l sep.
Proof. by destruct l. Qed.

Lemma Join_Split s sep : Join (Split s sep) (String sep "") = s.
Proof.
  induction s as [|c s IH]; [done|]. cbn [Split].
  pose proof (Split_ne_nil s sep) as Hne.
  destruct (Ascii.eqb_spec c sep) as [->|Hc].
  - rewrite Join_cons by done. by rewrite IH.
  - destruct (Split s sep) as [|p [|q ps]]; [done|..].
    + cbn in *. by subst.
    + rewrite Join_cons by done. rewrite Join_cons in IH by done.
      rewrite <-IH. by rewrite str_app_cons.
Qed.

(** No element produced by [Split] contains the separator. *)
Lemma Split_no_sep s sep p : p ∈ Split s sep → ContainsByte p sep = false.
Proof.
  revert p. induction s as [|c s IH]; intros p; simpl.
  - intros ->%list_elem_of_singleton. done.
  - pose proof (Split_ne_nil s sep). destruct (Ascii.eqb_spec c sep) as [->|Hc].
    + intros [->|Hp]%elem_of_cons; [done|auto].
    + destruct (Split s sep) as [|q qs]; [done|].
      intros [->|Hp]%elem_of_cons; simpl; [|apply IH; set_solver].
      rewrite (IH q) by set_solver. apply orb_false_iff. split; [|done].
      by apply Ascii.eqb_neq.
Qed.

Lemma ContainsByte_elem x c : ContainsByte x c = true ↔ c ∈ to_bytes x.
Proof.
  induction x as [|a x IH]; simpl; [by rewrite elem_of_nil|].
  rewrite elem_of_cons, orb_true_iff, IH, Ascii.eqb_eq. split; intros [?|?]; auto.
Qed.

Lemma Split_no_byte s sep : ContainsByte s sep = false → Split s sep = [s].
Proof.
  induction s as [|c s IH]; simpl; [done|]. intros [Hc Hs]%orb_false_iff.
  rewrite Hc, IH by done. done.
Qed.

Lemma Split_app_sep s1 s2 sep :
  ContainsByte s1 sep = false →
  Split (s1 +:+ String sep s2) sep = s1 :: Split s2 sep.
Proof.
  induction s1 as [|c s1 IH]; intros Hs1.
  - rewrite str_app_nil_l. cbn [Split]. by rewrite Ascii.eqb_refl.
  - apply orb_false_iff in Hs1 as [Hc Hs1]. rewrite str_app_cons. cbn [Split].
    rewrite Hc, IH by done. done.
Qed.

Lemma Split_Join l sep :
  l ≠ [] → Forall (λ p, ContainsByte p sep = false) l →
  Split (Join l (String sep "")) sep = l.
Proof.
  intros Hne Hl. induction Hl as [|p l Hp Hl IH]; [done|].
  destruct l as [|q l].
  - simpl. by apply Split_no_byte.
  - rewrite Join_cons by done. rewrite str_app_cons, str_app_nil_l.
    rewrite Split_app_sep by done. by rewrite IH.
Qed.

Lemma Join_app l1 l2 sep :
  l1 ≠ [] → l2 ≠ [] → Join (l1 ++ l2) sep = Join l1 sep +:+ sep +:+ Join l2 sep.
Proof.
  intros H1 H2. induction l1 as [|x l1 IH]; [done|].
  destruct l1 as [|y l1].
  - simpl app. by rewrite Join_cons.
  - rewrite (Join_cons x (y :: l1)) by done.
    change ((x :: y :: l1) ++ l2) with (x :: (y :: l1) ++ l2).
    rewrite Join_cons by done. rewrite IH by done. by rewrite !str_app_assoc.
Qed.

(** ** Lemmas: [LastIndexByte] *)

Lemma LastIndexByte_range s c : (-1 ≤ LastIndexByte s c < slen s)%Z.
Proof.
  unfold slen. induction s as [|a s IH]; simpl; [lia|].
  destruct (0 <=? _)%Z eqn:E; bool_hyps; [lia|]. destruct (Ascii.eqb a c); lia.
Qed.

Lemma LastIndexByte_absent s c : ContainsByte s c = false → LastIndexByte s c = (-1)%Z.
Proof.
  induction s as [|a s IH]; simpl; [done|]. intros [Ha Hs]%orb_false_iff.
  rewrite IH by done. by rewrite Ha.
Qed.

Lemma LastIndexByte_app a b c :
  ContainsByte b c = false → LastIndexByte (a +:+ String c b) c = slen a.
Proof.
  intros Hb. induction a as [|x a IH].
  - rewrite str_app_nil_l. simpl. rewrite LastIndexByte_absent by done.
    simpl. by rewrite Ascii.eqb_refl.
  - rewrite str_app_cons. cbn [LastIndexByte]. rewrite IH.
    destruct (0 <=? slen a)%Z eqn:E; bool_hyps; unfold slen in *; simpl in *; lia.
Qed.

Lemma substring_full s : String.substring 0 (String.length s) s = s.
Proof. induction s; simpl; by f_equal. Qed.

Lemma slice_to_app a b : slice_to (a +:+ b) (slen a) = a.
Proof.
  unfold slice_to, slen. rewrite Nat2Z.id.
  induction a as [|x a IH]; simpl; [by destruct b|].
  by f_equal.
Qed.

Lemma substring_skip a b n :
  String.substring (String.length a) n (a +:+ b) = String.substring 0 n b.
Proof. induction a; simpl; [done|]. done. Qed.

Lemma slice_from_app a b : slice_from (a +:+ b) (slen a) = b.
Proof.
  unfold slice_from, slen. rewrite Nat2Z.id, str_length_app, substring_skip.
  replace (String.length a + String.length b - String.length a)%nat with (String.length b) by lia.
  apply substring_full.
Qed.

(** Every string with a [c] in it splits around its last [c]. *)
Lemma last_split s c :
  ContainsByte s c = true → ∃ a b, s = a +:+ String c b ∧ ContainsByte b c = false.
Proof.
  induction s as [|x s IH]; simpl; [done|]. intros Hs.
  destruct (ContainsByte s c) eqn:Hc.
  - destruct IH as (a & b & -> & Hb); [done|]. exists (String x a), b.
    by rewrite str_app_cons.
  - rewrite orb_false_r in Hs. apply Ascii.eqb_eq in Hs as ->. by exists "", s.
Qed.

(** The two slices around the last separator put the string back together. *)
Lemma cut_last_spec s c :
  (0 ≤ LastIndexByte s c)%Z →
  s = slice_to s (LastIndexByte s c) +:+ String c (slice_from s (LastIndexByte s c + 1)) ∧
  ContainsByte (slice_from s (LastIndexByte s c + 1)) c = false.
Proof.
  intros Hi. destruct (ContainsByte s c) eqn:Hs.
  2: { rewrite LastIndexByte_absent in Hi by done. lia. }
  destruct (last_split s c Hs) as (a & b & -> & Hb).
  rewrite LastIndexByte_app by done. rewrite slice_to_app.
  replace (slen a + 1)%Z with (slen (a +:+ String c "")).
  2: { rewrite slen_app. unfold slen. simpl. lia. }
  replace (a +:+ String c b) with ((a +:+ String c "") +:+ b).
  2: { rewrite str_app_assoc. by rewrite str_app_cons, str_app_nil_l. }
  rewrite slice_from_app. split; [|done].
  rewrite str_app_assoc. by rewrite str_app_cons, str_app_nil_l.
Qed.

#[export] Hint Rewrite slen_app str_app_assoc str_app_nil_r : tappet_simp.
