(* ===== verification/Limits.v ===== *)
(** * Limits, errors and lifetimes

    Models [internal/capability/limits.go], [service_limits.go] and
    [errors.go]: the bounds every component enforces, the error values they
    return, and the validation of configurable service limits. A
    [time.Duration] and a [time.Time] are integers of nanoseconds; the clock
    is read through an argument of the operations that use it. *)
From S2P Require Import Prelude.
Local Open Scope Z_scope.

(** ** [limits.go] *)

Definition ManifestMaxBytes : Z := Z.shiftl 1 20.
Definition ManifestMaxDepth : Z := 64.
Definition ManifestMaxNodes : Z := 16384.
Definition SkillMaxBytes : Z := Z.shiftl 1 20.
Definition SkillFrontmatterMax : Z := Z.shiftl 64 10.
Definition ArtifactMaxBytes : Z := Z.shiftl 4 20.
Definition PackageArtifactMax : Z := Z.shiftl 64 20.
Definition MaxSkills : Z := 32.
Definition MaxSkillResources : Z := 128.
Definition MaxResourcesPerSkill : Z := 32.
Definition MaxOperations : Z := 128.
Definition MaxContextReferences : Z := 128.
Definition MaxProviders : Z := 32.
Definition MaxStructureItemBytes : Z := 4096.
Definition MaxStructureBytes : Z := Z.shiftl 512 10.
Definition MaxCapabilityIDBytes : Z := 128.
Definition MaxNameBytes : Z := 128.
Definition MaxVersionBytes : Z := 64.
Definition MaxDescriptionBytes : Z := 1024.
Definition MaxHierarchyPathBytes : Z := 256.
Definition MaxTags : Z := 16.
Definition MaxTagBytes : Z := 64.
Definition MaxAllTagsBytes : Z := 512.
Definition MaxBaseCardBytes : Z := 4096.
Definition MaxSkillPathBytes : Z := 512.
Definition MaxSkillNameBytes : Z := 128.
Definition MaxSkillDescription : Z := 1024.
Definition MaxResourceIDBytes : Z := 128.
Definition MaxResourceKindBytes : Z := 32.
Definition MaxResourcePathBytes : Z := 512.
Definition MaxOperationIDBytes : Z := 128.
Definition MaxOperationDescription : Z := 1024.
Definition MaxProviderAliasBytes : Z := 128.
Definition MaxOperationTargetBytes : Z := 256.
Definition MaxContextIDBytes : Z := 128.
Definition MaxContextPathBytes : Z := 512.
Definition MaxProviderIDBytes : Z := 128.
Definition MaxProviderTypeBytes : Z := 32.
Definition MaxServerRefBytes : Z := 256.

(** ** [service_limits.go]: constants *)

Definition DescribeLimitMax : Z := 100.
Definition DescribeIncludeMaxBytes : Z := 64.
Definition ReadChunkMax : Z := Z.shiftl 64 10.
Definition BrokerResponseMaxBytes : Z := Z.shiftl 1 20.
Definition OpaqueReferenceMaxBytes : Z := 2048.
Definition ReadAttemptMaxBytes : Z := 128.
Definition ReadReplayReservation : Z := Z.shiftl 128 10.
Definition ProjectionCountMax : Z := 128.
Definition ProjectionBytesMax : Z := Z.shiftl 64 20.
Definition ReadLeaseCountMax : Z := 256.
Definition PinnedArtifactBytesMax : Z := Z.shiftl 512 20.
Definition ReplayBytesMax : Z := Z.shiftl 32 20.

(** ** Errors

    A sentinel ([var ErrX = errors.New(...)]) is compared by identity; a
    formatted error keeps its format and arguments, and, when the format has a
    [%w] verb, the error that verb wraps ([Wrapf], the wrapped error being
    left out of the arguments); [PkgError] is [errors.go]'s [*Error]. *)
Inductive fmt_arg : Type :=
| FStr (s : string)
| FInt (z : Z).

Inductive error : Type :=
| Sentinel (text : string)
| ErrorNew (text : string)
| Errorf (format : string) (args : list fmt_arg)
| Wrapf (format : string) (args : list fmt_arg) (wrapped : error)
| PkgError (code path : string) (cause : error).

(** [packageError(code, path, err)] *)
Definition packageError (code path : string) (err : error) : error := PkgError code path err.

(** [(e *Error) Unwrap()], and the [%w] verb of [fmt.Errorf] *)
Definition Unwrap (e : error) : option error :=
  match e with
  | Wrapf _ _ w => Some w
  | PkgError _ _ c => Some c
  | _ => None
  end.

Global Instance fmt_arg_eq_dec : EqDecision fmt_arg.
Proof. solve_decision. Defined.

(** [errors.Is(err, target)] for a sentinel target. *)
Fixpoint errors_Is (e : error) (target : string) : bool :=
  match e with
  | Sentinel t => String.eqb t target
  | ErrorNew _ | Errorf _ _ => false
  | Wrapf _ _ w => errors_Is w target
  | PkgError _ _ c => errors_Is c target
  end.

(** The panic of a method or field of a nil pointer. *)
Definition nil_pointer : error := Sentinel "runtime error: nil pointer dereference".

(** [service_limits.go]'s sentinels *)
Definition ErrCatalogCursorInvalid := Sentinel "catalog cursor is invalid".
Definition ErrCatalogCursorStale := Sentinel "catalog cursor is stale".
Definition ErrDescribeRequestInvalid := Sentinel "describe request is invalid".
Definition ErrDescribeCursorInvalid := Sentinel "describe cursor is invalid".
Definition ErrDescribeCursorStale := Sentinel "describe cursor is stale".
Definition ErrServiceQuota := Sentinel "capability service quota exceeded".
Definition ErrServiceClosed := Sentinel "capability service is closed".
Definition ErrReadRequestInvalid := Sentinel "read request is invalid".
Definition ErrArtifactReferenceStale := Sentinel "artifact reference is stale".
Definition ErrContinuationInvalid := Sentinel "continuation reference is invalid".
Definition ErrContinuationStale := Sentinel "continuation reference is stale".
Definition ErrContinuationConflict := Sentinel "continuation request conflicts with the committed chunk".
Definition ErrHandleGeneration := Sentinel "opaque handle generation failed".

(** ** Lifetimes and configurable limits *)

Definition Duration : Type := Z.
Definition Time : Type := Z.
Definition Second : Z := 1000000000.
Definition Minute : Z := 60 * Second.
Definition Hour : Z := 60 * Minute.

(** [t.Before(u)] and [t.Add(d)] *)
Definition Before (t u : Time) : bool := t <? u.
Definition Add (t : Time) (d : Duration) : Time := t + d.

Record ProjectionLimits := mkProjectionLimits {
  pl_MaxCount : Z;
  pl_MaxBytes : Z;
  pl_Idle : Duration;
  pl_Absolute : Duration;
}.

Definition DefaultProjectionLimits : ProjectionLimits :=
  {| pl_MaxCount := ProjectionCountMax; pl_MaxBytes := ProjectionBytesMax;
     pl_Idle := 5 * Minute; pl_Absolute := Hour |}.

Record ReadLeaseLimits := mkReadLeaseLimits {
  rl_MaxCount : Z;
  rl_MaxPinnedBytes : Z;
  rl_MaxReplayBytes : Z;
  rl_Idle : Duration;
  rl_Absolute : Duration;
  rl_FinalReplay : Duration;
}.

Definition DefaultReadLeaseLimits : ReadLeaseLimits :=
  {| rl_MaxCount := ReadLeaseCountMax; rl_MaxPinnedBytes := PinnedArtifactBytesMax;
     rl_MaxReplayBytes := ReplayBytesMax; rl_Idle := 5 * Minute; rl_Absolute := Hour;
     rl_FinalReplay := 5 * Minute |}.

Definition validateProjectionLimits (l : ProjectionLimits) : result error unit :=
  fail_if (pl_MaxCount l <=? 0) || (pl_MaxCount l >? ProjectionCountMax)
          || (pl_MaxBytes l <=? 0) || (pl_MaxBytes l >? ProjectionBytesMax)
    with ErrorNew "projection count or byte limit is outside the supported range" else
  fail_if (pl_Idle l <=? 0) || (pl_Absolute l <? pl_Idle l) || (pl_Absolute l >? Hour)
    with ErrorNew "projection lifetimes are invalid" else
  Ok tt.

Definition validateReadLeaseLimits (l : ReadLeaseLimits) : result error unit :=
  fail_if (rl_MaxCount l <=? 0) || (rl_MaxCount l >? ReadLeaseCountMax)
          || (rl_MaxPinnedBytes l <=? 0) || (rl_MaxPinnedBytes l >? PinnedArtifactBytesMax)
          || (rl_MaxReplayBytes l <=? 0) || (rl_MaxReplayBytes l >? ReplayBytesMax)
    with ErrorNew "read lease count or byte limit is outside the supported range" else
  fail_if (rl_Idle l <=? 0) || (rl_Absolute l <? rl_Idle l) || (rl_Absolute l >? Hour)
          || (rl_FinalReplay l <=? 0) || (rl_FinalReplay l >? 5 * Minute)
    with ErrorNew "read lease lifetimes are invalid" else
  Ok tt.

Definition minTime (first second : Time) : Time :=
  if Before first second then first else second.

(** ** Lemmas *)

(** What a validated limit guarantees to the services that hold it. *)
Record projection_limits_ok (l : ProjectionLimits) : Prop := {
  plo_count : 0 < pl_MaxCount l ≤ ProjectionCountMax;
  plo_bytes : 0 < pl_MaxBytes l ≤ ProjectionBytesMax;
  plo_idle : 0 < pl_Idle l ≤ pl_Absolute l;
  plo_absolute : pl_Absolute l ≤ Hour;
}.

Record read_limits_ok (l : ReadLeaseLimits) : Prop := {
  rlo_count : 0 < rl_MaxCount l ≤ ReadLeaseCountMax;
  rlo_pinned : 0 < rl_MaxPinnedBytes l ≤ PinnedArtifactBytesMax;
  rlo_replay : 0 < rl_MaxReplayBytes l ≤ ReplayBytesMax;
  rlo_idle : 0 < rl_Idle l ≤ rl_Absolute l;
  rlo_absolute : rl_Absolute l ≤ Hour;
  rlo_final : 0 < rl_FinalReplay l ≤ 5 * Minute;
}.

Lemma validateProjectionLimits_Ok l :
  validateProjectionLimits l = Ok tt → projection_limits_ok l.
Proof.
  unfold validateProjectionLimits. intros H. inv_binds H. bool_hyps. by split.
Qed.

Lemma validateReadLeaseLimits_Ok l :
  validateReadLeaseLimits l = Ok tt → read_limits_ok l.
Proof.
  unfold validateReadLeaseLimits. intros H. inv_binds H. bool_hyps. by split.
Qed.

Lemma minTime_min a b : minTime a b = Z.min a b.
Proof. unfold minTime, Before. destruct (a <? b) eqn:E; bool_hyps; lia. Qed.
