(* ===== verification/Sha256.v ===== *)
(** * [crypto/sha256], [crypto/hmac] and [encoding/hex]

    The digests that name artifacts and seal cursors are computed, not
    assumed: SHA-256 (FIPS 180-4) and HMAC (RFC 2104) are defined here on
    byte lists and checked against the published test vectors. *)
From S2P Require Import Prelude GoStrings.
From Stdlib Require Import Ascii.
Local Open Scope Z_scope.

(** ** Words and bytes *)

Definition byte_Z (a : ascii) : Z := Z.of_N (N_of_ascii a).
Definition Z_byte (z : Z) : ascii := ascii_of_N (Z.to_N z).

Definition w32 (z : Z) : Z := Z.land z 4294967295.
Definition add32 (a b : Z) : Z := w32 (a + b).
Definition rotr (n x : Z) : Z := w32 (Z.lor (Z.shiftr x n) (Z.shiftl x (32 - n))).
Definition not32 (x : Z) : Z := Z.lxor x 4294967295.

Definition Ch x y z := Z.lxor (Z.land x y) (Z.land (not32 x) z).
Definition Maj x y z := Z.lxor (Z.lxor (Z.land x y) (Z.land x z)) (Z.land y z).
Definition Sigma0 x := Z.lxor (Z.lxor (rotr 2 x) (rotr 13 x)) (rotr 22 x).
Definition Sigma1 x := Z.lxor (Z.lxor (rotr 6 x) (rotr 11 x)) (rotr 25 x).
Definition sigma0 x := Z.lxor (Z.lxor (rotr 7 x) (rotr 18 x)) (Z.shiftr x 3).
Definition sigma1 x := Z.lxor (Z.lxor (rotr 17 x) (rotr 19 x)) (Z.shiftr x 10).

Definition K256 : list Z := [
  1116352408; 1899447441; 3049323471; 3921009573; 961987163; 1508970993; 2453635748; 2870763221;
  3624381080; 310598401; 607225278; 1426881987; 1925078388; 2162078206; 2614888103; 3248222580;
  3835390401; 4022224774; 264347078; 604807628; 770255983; 1249150122; 1555081692; 1996064986;
  2554220882; 2821834349; 2952996808; 3210313671; 3336571891; 3584528711; 113926993; 338241895;
  666307205; 773529912; 1294757372; 1396182291; 1695183700; 1986661051; 2177026350; 2456956037;
  2730485921; 2820302411; 3259730800; 3345764771; 3516065817; 3600352804; 4094571909; 275423344;
  430227734; 506948616; 659060556; 883997877; 958139571; 1322822218; 1537002063; 1747873779;
  1955562222; 2024104815; 2227730452; 2361852424; 2428436474; 2756734187; 3204031479; 3329325298].

Record hstate := HState { ha : Z; hb : Z; hc : Z; hd : Z; he : Z; hf : Z; hg : Z; hh : Z }.

Definition H256 : hstate :=
  HState 1779033703 3144134277 1013904242 2773480762 1359893119 2600822924 528734635 1541459225.

Definition be32 (z : Z) : bytes :=
  [Z_byte (Z.land (Z.shiftr z 24) 255); Z_byte (Z.land (Z.shiftr z 16) 255);
   Z_byte (Z.land (Z.shiftr z 8) 255); Z_byte (Z.land z 255)].
(** [binary.BigEndian.PutUint64] *)
Definition be64 (z : Z) : bytes := be32 (Z.shiftr z 32) ++ be32 z.

Fixpoint words (l : bytes) : list Z :=
  match l with
  | a :: b :: c :: d :: l' =>
      Z.lor (Z.shiftl (byte_Z a) 24) (Z.lor (Z.shiftl (byte_Z b) 16)
        (Z.lor (Z.shiftl (byte_Z c) 8) (byte_Z d))) :: words l'
  | _ => []
  end.

(** ** The compression function *)

(** The message schedule, most recent word first. *)
Fixpoint schedule (n : nat) (acc : list Z) : list Z :=
  match n with
  | O => acc
  | S n' =>
      let at_ i := nth i acc 0 in
      schedule n' (add32 (add32 (sigma1 (at_ 1%nat)) (at_ 6%nat))
                         (add32 (sigma0 (at_ 14%nat)) (at_ 15%nat)) :: acc)
  end.

Definition sha_round (s : hstate) (kw : Z * Z) : hstate :=
  let '(k, w) := kw in
  let t1 := add32 (add32 (hh s) (Sigma1 (he s)))
                  (add32 (Ch (he s) (hf s) (hg s)) (add32 k w)) in
  let t2 := add32 (Sigma0 (ha s)) (Maj (ha s) (hb s) (hc s)) in
  HState (add32 t1 t2) (ha s) (hb s) (hc s) (add32 (hd s) t1) (he s) (hf s) (hg s).

Definition compress (s : hstate) (block : bytes) : hstate :=
  let w := rev (schedule 48 (rev (words block))) in
  let r := fold_left sha_round (combine K256 w) s in
  HState (add32 (ha s) (ha r)) (add32 (hb s) (hb r)) (add32 (hc s) (hc r)) (add32 (hd s) (hd r))
         (add32 (he s) (he r)) (add32 (hf s) (hf r)) (add32 (hg s) (hg r)) (add32 (hh s) (hh r)).

Fixpoint blocks (n : nat) (l : bytes) : list bytes :=
  match n with
  | O => []
  | S n' => firstn 64 l :: blocks n' (skipn 64 l)
  end.

Definition sha_pad (m : bytes) : bytes :=
  let zeros := (119 - Z.of_nat (length m) mod 64) mod 64 in
  m ++ Z_byte 128 :: repeat (Z_byte 0) (Z.to_nat zeros) ++ be64 (8 * zlen m).

(** [sha256.Sum256] *)
Definition sha256 (m : bytes) : bytes :=
  let p := sha_pad m in
  let s := fold_left compress (blocks (length p / 64) p) H256 in
  be32 (ha s) ++ be32 (hb s) ++ be32 (hc s) ++ be32 (hd s) ++
  be32 (he s) ++ be32 (hf s) ++ be32 (hg s) ++ be32 (hh s).

(** [hmac.New(sha256.New, key)] for a key of at most one block. *)
Definition hmac_sha256 (key msg : bytes) : bytes :=
  let k := key ++ repeat (Z_byte 0) (64 - length key) in
  let xor c := map (λ a, Z_byte (Z.lxor (byte_Z a) c)) k in
  sha256 (xor 92 ++ sha256 (xor 54 ++ msg)).

(** [hex.EncodeToString] *)
Definition hex_digit (z : Z) : ascii :=
  if z <? 10 then Z_byte (48 + z) else Z_byte (87 + z).
Definition hex_encode (b : bytes) : string :=
  of_bytes (flat_map (λ a, [hex_digit (Z.shiftr (byte_Z a) 4); hex_digit (Z.land (byte_Z a) 15)]) b).

(** ** Published test vectors *)

Example sha256_empty :
  hex_encode (sha256 []) = "e3b0c44298fc1c149afbf4c8996fb92427ae41e4649b934ca495991b7852b855"%string.
Proof. vm_compute. reflexivity. Qed.

Example sha256_abc :
  hex_encode (sha256 (to_bytes "abc"))
  = "ba7816bf8f01cfea414140de5dae2223b00361a396177a9cb410ff61f20015ad"%string.
Proof. vm_compute. reflexivity. Qed.

Example sha256_two_blocks :
  hex_encode (sha256 (to_bytes "abcdbcdecdefdefgefghfghighijhijkijkljklmklmnlmnomnopnopq"))
  = "248d6a61d20638b8e5c026930c3e6039a33ce45964ff2167f6ecedd419db06c1"%string.
Proof. vm_compute. reflexivity. Qed.

Example hmac_jefe :
  hex_encode (hmac_sha256 (to_bytes "Jefe") (to_bytes "what do ya want for nothing?"))
  = "5bdcc146bf60754e6a042426089575c75a003f089d2739839dec58b964ec3843"%string.
Proof. vm_compute. reflexivity. Qed.

(** ** Lemmas *)

Lemma length_sha256 m : length (sha256 m) = 32%nat.
Proof. reflexivity. Qed.

Lemma length_hmac_sha256 k m : length (hmac_sha256 k m) = 32%nat.
Proof. reflexivity. Qed.

Lemma byte_Z_range a : 0 ≤ byte_Z a < 256.
Proof. unfold byte_Z. pose proof (N_ascii_bounded a). lia. Qed.

Lemma Z_byte_Z a : Z_byte (byte_Z a) = a.
Proof. unfold Z_byte, byte_Z. rewrite N2Z.id. apply ascii_N_embedding. Qed.

Lemma byte_Z_byte z : 0 ≤ z < 256 → byte_Z (Z_byte z) = z.
Proof. intros. unfold Z_byte, byte_Z. rewrite N_ascii_embedding by lia. lia. Qed.

Global Instance byte_Z_inj : Inj (=) (=) byte_Z.
Proof. intros a b H. by rewrite <-(Z_byte_Z a), H, Z_byte_Z. Qed.

Global Opaque sha256 hmac_sha256.
