(* ===== verification/Regex.v ===== *)
(** * Regular expressions and the ID grammars

    Go's [regexp] on the patterns the sources compile. The patterns only use
    ASCII classes, so matching runes and matching bytes agree. An expression
    is matched by Brzozowski derivatives, proved equal to the usual meaning;
    the patterns of [manifest.go] and [read.go] are written out and
    characterised in terms of the strings they accept. *)
From Stdlib Require Import Ascii String.
From S2P Require Import Prelude GoStrings.
Local Open Scope string_scope.
Local Open Scope list_scope.

(** ** Expressions and their meaning *)

Inductive re : Type :=
| RVoid
| REps
| RClass (c : ascii → bool)
| RSeq (r1 r2 : re)
| RAlt (r1 r2 : re)
| RStar (r : re).

Inductive re_lang : re → bytes → Prop :=
| L_eps : re_lang REps []
| L_class c a : c a = true → re_lang (RClass c) [a]
| L_seq r1 r2 x y : re_lang r1 x → re_lang r2 y → re_lang (RSeq r1 r2) (x ++ y)
| L_alt_l r1 r2 x : re_lang r1 x → re_lang (RAlt r1 r2) x
| L_alt_r r1 r2 x : re_lang r2 x → re_lang (RAlt r1 r2) x
| L_star_nil r : re_lang (RStar r) []
| L_star r x y : re_lang r x → re_lang (RStar r) y → re_lang (RStar r) (x ++ y).

Fixpoint nullable (r : re) : bool :=
  match r with
  | RVoid | RClass _ => false
  | REps | RStar _ => true
  | RSeq r1 r2 => nullable r1 && nullable r2
  | RAlt r1 r2 => nullable r1 || nullable r2
  end.

(** Smart constructors keep derivatives small. *)
Definition seq_re (r1 r2 : re) : re :=
  match r1, r2 with
  | RVoid, _ | _, RVoid => RVoid
  | REps, r => r
  | r1, r2 => RSeq r1 r2
  end.
Definition alt_re (r1 r2 : re) : re :=
  match r1, r2 with
  | RVoid, r | r, RVoid => r
  | r1, r2 => RAlt r1 r2
  end.

Fixpoint deriv (a : ascii) (r : re) : re :=
  match r with
  | RVoid | REps => RVoid
  | RClass c => if c a then REps else RVoid
  | RSeq r1 r2 =>
      if nullable r1 then alt_re (seq_re (deriv a r1) r2) (deriv a r2) else seq_re (deriv a r1) r2
  | RAlt r1 r2 => alt_re (deriv a r1) (deriv a r2)
  | RStar r => seq_re (deriv a r) (RStar r)
  end.

Fixpoint match_bytes (r : re) (s : bytes) : bool :=
  match s with
  | [] => nullable r
  | a :: s => match_bytes (deriv a r) s
  end.

(** [re.MatchString(s)] for a pattern anchored at both ends. *)
Definition MatchString (r : re) (s : string) : bool := match_bytes r (to_bytes s).

(** ** Lemmas: derivatives are right *)

Lemma nullable_spec r : nullable r = true ↔ re_lang r [].
Proof.
  induction r as [| |c|r1 IH1 r2 IH2|r1 IH1 r2 IH2|r IH]; simpl.
  - split; [done|by inversion 1].
  - split; [constructor|done].
  - split; [done|by inversion 1].
  - rewrite andb_true_iff, IH1, IH2. split.
    + intros [? ?]. by apply (L_seq r1 r2 [] []).
    + inversion 1 as [| |? ? x y Hx Hy Heq| | | |]; subst.
      match goal with H : _ ++ _ = [] |- _ => apply app_eq_nil in H as [-> ->] end. done.
  - rewrite orb_true_iff, IH1, IH2. split.
    + intros [?|?]; [by apply L_alt_l|by apply L_alt_r].
    + inversion 1; subst; auto.
  - split; [constructor|done].
Qed.

Lemma seq_re_lang r1 r2 s : re_lang (seq_re r1 r2) s ↔ re_lang (RSeq r1 r2) s.
Proof.
  assert (∀ r s, re_lang (RSeq RVoid r) s → False) as H1 by (intros r s' H; inversion H; subst; by match goal with H : re_lang RVoid _ |- _ => inversion H end).
  assert (∀ r s, re_lang (RSeq r RVoid) s → False) as H2 by (intros r s' H; inversion H; subst; by match goal with H : re_lang RVoid _ |- _ => inversion H end).
  assert (∀ s, re_lang RVoid s → False) as H3 by (intros s' H; inversion H).
  assert (∀ r s, re_lang r s ↔ re_lang (RSeq REps r) s) as H4.
  { intros r s'. split; [intros; by apply (L_seq REps r [] s'); [constructor|]|].
    intros H. inversion H as [| |? ? x y Hx Hy| | | |]; subst. by inversion Hx. }
  destruct r1, r2; simpl; try done;
    try (split; [intros H; exfalso; eauto|intros H; exfalso; eauto]); try apply H4.
Qed.

Lemma alt_re_lang r1 r2 s : re_lang (alt_re r1 r2) s ↔ re_lang (RAlt r1 r2) s.
Proof.
  assert (∀ s, re_lang RVoid s → False) as H1 by (intros s' H; inversion H).
  assert (∀ r s, re_lang r s ↔ re_lang (RAlt RVoid r) s) as H2.
  { intros r s'. split; [by intros; apply L_alt_r|]. inversion 1; subst; [exfalso; eauto|done]. }
  assert (∀ r s, re_lang r s ↔ re_lang (RAlt r RVoid) s) as H3.
  { intros r s'. split; [by intros; apply L_alt_l|]. inversion 1; subst; [done|exfalso; eauto]. }
  destruct r1, r2; simpl; try done; first [apply H2|apply H3].
Qed.

Lemma deriv_spec a r s : re_lang (deriv a r) s ↔ re_lang r (a :: s).
Proof.
  revert s. induction r as [| |c|r1 IH1 r2 IH2|r1 IH1 r2 IH2|r IH]; intros s; simpl.
  - split; inversion 1.
  - split; inversion 1.
  - destruct (c a) eqn:Hc.
    + split; [inversion 1; by constructor|inversion 1; constructor].
    + split; [inversion 1|inversion 1; congruence].
  - assert (re_lang (RSeq (deriv a r1) r2) s ↔
      ∃ x y, s = x ++ y ∧ re_lang r1 (a :: x) ∧ re_lang r2 y) as Hd.
    { split.
      - inversion 1 as [| |? ? x y Hx Hy| | | |]; subst. exists x, y. by rewrite <-IH1.
      - intros (x & y & -> & Hx & Hy). constructor; [by apply IH1|done]. }
    assert (re_lang (RSeq r1 r2) (a :: s) ↔
      (∃ x y, s = x ++ y ∧ re_lang r1 (a :: x) ∧ re_lang r2 y) ∨ (re_lang r1 [] ∧ re_lang r2 (a :: s))) as Hs.
    { split.
      - inversion 1 as [| |? ? x y Hx Hy Heq| | | |]; subst.
        destruct x as [|b x]; simpl in *; simplify_eq; [by right|]. left. eauto.
      - intros [(x & y & -> & Hx & Hy)|[Hx Hy]]; [by apply (L_seq r1 r2 (a :: x) y)|].
        by apply (L_seq r1 r2 [] (a :: s)). }
    destruct (nullable r1) eqn:Hn.
    + rewrite alt_re_lang, Hs. apply nullable_spec in Hn. split.
      * inversion 1; subst; [left; by apply Hd, seq_re_lang|right; by rewrite <-IH2].
      * intros [H|[_ H]]; [apply L_alt_l, seq_re_lang; by apply Hd|apply L_alt_r; by apply IH2].
    + rewrite seq_re_lang, Hs, Hd. split; [auto|]. intros [?|[H _]]; [done|].
      apply nullable_spec in H. congruence.
  - rewrite alt_re_lang. split.
    + inversion 1; subst; [apply L_alt_l; by apply IH1|apply L_alt_r; by apply IH2].
    + inversion 1; subst; [apply L_alt_l; by apply IH1|apply L_alt_r; by apply IH2].
  - rewrite seq_re_lang. split.
    + inversion 1 as [| |? ? x y Hx Hy| | | |]; subst.
      apply (L_star r (a :: x) y); [by apply IH|done].
    + remember (RStar r) as rs eqn:Hrs. remember (a :: s) as w eqn:Hw. intros H. revert Hrs Hw.
      induction H as [| | | | | |r' x y Hx _ Hy IHy]; intros Hrs Hw; simplify_eq.
      destruct x as [|b x]; simpl in *; [by apply IHy|]. simplify_eq.
      constructor; [by apply IH|done].
Qed.

Lemma match_bytes_spec r s : match_bytes r s = true ↔ re_lang r s.
Proof.
  revert r. induction s as [|a s IH]; intros r; simpl; [apply nullable_spec|].
  rewrite IH. apply deriv_spec.
Qed.

Lemma MatchString_spec r s : MatchString r s = true ↔ re_lang r (to_bytes s).
Proof. apply match_bytes_spec. Qed.

(** ** The patterns *)

Definition in_range (lo hi a : ascii) : bool :=
  ((N_of_ascii lo <=? N_of_ascii a) && (N_of_ascii a <=? N_of_ascii hi))%N.
Definition is_digit : ascii → bool := in_range "0" "9".
Definition is_lower : ascii → bool := in_range "a" "z".
Definition is_upper : ascii → bool := in_range "A" "Z".

(** [[a-z0-9]], [[a-z0-9-]], [[0-9A-Za-z-]] and [[A-Za-z0-9_-]] *)
Definition id_end (a : ascii) : bool := is_lower a || is_digit a.
Definition id_char (a : ascii) : bool := id_end a || Ascii.eqb a "-".
Definition build_char (a : ascii) : bool := id_char a || is_upper a.
Definition token_char (a : ascii) : bool := build_char a || Ascii.eqb a "_".

Definition ropt (r : re) : re := RAlt REps r.
Definition rplus (r : re) : re := RSeq r (RStar r).
Definition rchar (a : ascii) : re := RClass (Ascii.eqb a).
Fixpoint rlit (s : string) : re :=
  match s with EmptyString => REps | String a s => RSeq (rchar a) (rlit s) end.
(** [r{n,n+m}] *)
Fixpoint rupto (m : nat) (r : re) : re :=
  match m with O => REps | S m => ropt (RSeq r (rupto m r)) end.
Fixpoint rrep (n m : nat) (r : re) : re :=
  match n with O => rupto m r | S n => RSeq r (rrep n m r) end.

Definition localIDPattern : re :=
  RSeq (RClass id_end) (ropt (RSeq (RStar (RClass id_char)) (RClass id_end))).
Definition capabilityIDPattern : re :=
  RSeq localIDPattern (RStar (RSeq (rchar ".") localIDPattern)).

Definition semver_number : re := RAlt (rchar "0") (RSeq (RClass (in_range "1" "9")) (RStar (RClass is_digit))).
Definition semver_dotted : re :=
  RSeq (rplus (RClass build_char)) (RStar (RSeq (rchar ".") (rplus (RClass build_char)))).
Definition semverPattern : re :=
  RSeq semver_number (RSeq (rchar ".") (RSeq semver_number (RSeq (rchar ".") (RSeq semver_number
    (RSeq (ropt (RSeq (rchar "-") semver_dotted)) (ropt (RSeq (rchar "+") semver_dotted))))))).

Definition attemptIDPattern : re := RSeq (rlit "read:") (rrep 22 101 (RClass token_char)).

Example local_id_yes : MatchString localIDPattern "numeric-addition" = true.
Proof. by vm_compute. Qed.
Example capability_id_yes : MatchString capabilityIDPattern "cloud.aws.cost-analysis" = true.
Proof. by vm_compute. Qed.
Example capability_id_no : MatchString capabilityIDPattern "cloud..aws" = false.
Proof. by vm_compute. Qed.
Example semver_yes : MatchString semverPattern "1.0.0-rc.1+build.5" = true.
Proof. by vm_compute. Qed.
Example semver_no : MatchString semverPattern "01.0.0" = false.
Proof. by vm_compute. Qed.
Example attempt_no : MatchString attemptIDPattern "read:short" = false.
Proof. by vm_compute. Qed.

(** ** What the ID patterns accept *)

(** A local ID: letters, digits and hyphens, no hyphen at either end. *)
Definition local_id (s : bytes) : Prop :=
  Forall (λ a, id_char a = true) s ∧
  (∃ a, head s = Some a ∧ id_end a = true) ∧ (∃ a, last s = Some a ∧ id_end a = true).

Lemma class_lang c s : re_lang (RClass c) s ↔ ∃ a, s = [a] ∧ c a = true.
Proof. split; [inversion 1; eauto|intros (a & -> & ?); by constructor]. Qed.

Lemma seq_lang r1 r2 s : re_lang (RSeq r1 r2) s ↔ ∃ x y, s = x ++ y ∧ re_lang r1 x ∧ re_lang r2 y.
Proof. split; [inversion 1; subst; eauto|intros (x & y & -> & ? & ?); by constructor]. Qed.

Lemma opt_lang r s : re_lang (ropt r) s ↔ s = [] ∨ re_lang r s.
Proof.
  split.
  - inversion 1 as [| | |? ? ? H1|? ? ? H1| |]; subst; [inversion H1; auto|auto].
  - intros [->|?]; [apply L_alt_l; constructor|by apply L_alt_r].
Qed.

Lemma star_class_lang c s : re_lang (RStar (RClass c)) s ↔ Forall (λ a, c a = true) s.
Proof.
  split.
  - remember (RStar (RClass c)) as r eqn:Hr. induction 1 as [| | | | | |r' x y Hx _ Hy IH]; simplify_eq; [constructor|].
    apply class_lang in Hx as (a & -> & Ha). constructor; [done|by apply IH].
  - induction 1 as [|a s Ha Hs IH]; [constructor|].
    apply (L_star _ [a] s); [by constructor|done].
Qed.

Lemma id_end_char a : id_end a = true → id_char a = true.
Proof. unfold id_char. by intros ->. Qed.

Lemma localID_lang s : re_lang localIDPattern s ↔ local_id s.
Proof.
  unfold localIDPattern. rewrite seq_lang. setoid_rewrite class_lang. setoid_rewrite opt_lang.
  setoid_rewrite seq_lang. setoid_rewrite star_class_lang. setoid_rewrite class_lang. split.
  - intros (x & y & -> & (a & -> & Ha) & [->|(m & z & -> & Hm & b & -> & Hb)]).
    + split; [repeat constructor; by apply id_end_char|]. simpl. split; eauto.
    + split; [|split; [simpl; eauto|]].
      * constructor; [by apply id_end_char|]. apply Forall_app. split; [done|].
        repeat constructor. by apply id_end_char.
      * exists b. split; [|done]. change ([a] ++ m ++ [b]) with ((a :: m) ++ [b]). apply last_snoc.
  - intros (Hall & (a & Ha & Hae) & (b & Hb & Hbe)). destruct s as [|a' s]; [done|]. injection Ha as ->.
    exists [a], s. split; [done|]. split; [eauto|]. destruct (exists_last_or_nil s) as [->|(m & z & ->)]; [by left|].
    right. change (a :: m ++ [z]) with ((a :: m) ++ [z]) in Hb. rewrite last_snoc in Hb. injection Hb as ->.
    exists m, [b]. split; [done|]. split; [|eauto].
    apply Forall_cons in Hall as [_ Hall]. by apply Forall_app in Hall as [? _].
Qed.

Lemma id_char_no_dot a : id_char a = true → a ≠ "."%char.
Proof. intros H ->. by vm_compute in H. Qed.

Lemma local_id_no_dot s : local_id (to_bytes s) → s ≠ "" ∧ ContainsByte s "."%char = false.
Proof.
  intros (Hall & (a & Ha & _) & _). split; [by intros ->|]. clear a Ha.
  induction s as [|b s IH]; [done|]. simpl in *. apply Forall_cons in Hall as [Hb Hall].
  apply orb_false_iff. split; [by apply Ascii.eqb_neq, id_char_no_dot|by apply IH].
Qed.

Lemma Split_app_sep_any x y sep :
  Split (x +:+ String sep y) sep = Split x sep ++ Split y sep.
Proof.
  induction x as [|c x IH]; [rewrite str_app_nil_l; cbn [Split]; by rewrite Ascii.eqb_refl|].
  rewrite str_app_cons. cbn [Split]. rewrite IH. destruct (Ascii.eqb c sep); [done|].
  pose proof (Split_ne_nil x sep). by destruct (Split x sep).
Qed.

Lemma dotted_lang l :
  l ≠ [] → Forall (λ p, re_lang localIDPattern (to_bytes p)) l →
  re_lang capabilityIDPattern (to_bytes (Join l ".")).
Proof.
  intros Hne Hl. destruct l as [|p l]; [done|]. clear Hne. apply Forall_cons in Hl as [Hp Hl].
  apply seq_lang. revert p Hp. induction Hl as [|q l Hq Hl IH]; intros p Hp.
  - exists (to_bytes p), []. rewrite app_nil_r. split; [done|]. split; [done|constructor].
  - rewrite Join_cons by done. exists (to_bytes p), (to_bytes ("." +:+ Join (q :: l) ".")).
    split; [by rewrite to_bytes_app|]. split; [done|].
    destruct (IH q Hq) as (x & y & Heq & Hx & Hy). rewrite to_bytes_app, Heq.
    change (to_bytes "." ++ x ++ y) with ((["."%char] ++ x) ++ y).
    apply L_star; [|done]. constructor; [by constructor|done].
Qed.

Lemma dotted_star_lang s :
  re_lang (RStar (RSeq (rchar ".") localIDPattern)) s →
  ∃ l, s = mjoin (map (λ p, "."%char :: to_bytes p) l) ∧ Forall (λ p, local_id (to_bytes p)) l.
Proof.
  remember (RStar _) as r eqn:Hr. induction 1 as [| | | | | |r' x y Hx _ Hy IH]; simplify_eq.
  - by exists [].
  - destruct (IH eq_refl) as (l & -> & Hl). apply seq_lang in Hx as (x1 & x2 & -> & H1 & H2).
    apply class_lang in H1 as (a & -> & Ha). apply Ascii.eqb_eq in Ha as <-.
    exists (of_bytes x2 :: l). simpl. rewrite to_of_bytes. split; [done|].
    constructor; [|done]. by rewrite to_of_bytes, <-localID_lang.
Qed.

Lemma to_bytes_Join p l :
  to_bytes (Join (p :: l) ".") = to_bytes p ++ mjoin (map (λ p, "."%char :: to_bytes p) l).
Proof.
  revert p. induction l as [|q l IH]; intros p; [simpl; by rewrite app_nil_r|].
  rewrite Join_cons by done. rewrite !to_bytes_app, IH. done.
Qed.

(** A local ID and a capability ID, as strings. *)
Lemma localIDPattern_spec s : MatchString localIDPattern s = true ↔ local_id (to_bytes s).
Proof. by rewrite MatchString_spec, localID_lang. Qed.

Lemma capabilityIDPattern_spec s :
  MatchString capabilityIDPattern s = true ↔ Forall (λ p, local_id (to_bytes p)) (Split s "."%char).
Proof.
  rewrite MatchString_spec. split.
  - intros H. apply seq_lang in H as (x & y & Heq & Hx%localID_lang & Hy).
    apply dotted_star_lang in Hy as (l & -> & Hl).
    assert (s = Join (of_bytes x :: l) ".") as ->.
    { apply (inj to_bytes). by rewrite to_bytes_Join, to_of_bytes. }
    rewrite <-(to_of_bytes x) in Hx.
    assert (Forall (λ p, local_id (to_bytes p)) (of_bytes x :: l)) as Hall by by constructor.
    rewrite Split_Join; [done|done|]. eapply Forall_impl; [done|]. intros p Hp.
    by apply local_id_no_dot.
  - intros H. rewrite <-(Join_Split s "."%char). apply dotted_lang; [apply Split_ne_nil|].
    eapply Forall_impl; [done|]. intros p. by rewrite localID_lang.
Qed.
