(* ===== verification/Utf8.v ===== *)
(** * UTF-8

    The parts of Go's [unicode/utf8] and of the conversions between [string],
    [[]rune] and [[]byte] the sources use: an invalid byte decodes to U+FFFD
    of width one, and a rune that is no code point encodes as U+FFFD. *)
From Stdlib Require Import Ascii String.
From S2P Require Import Prelude GoStrings Sha256.
Local Open Scope string_scope.
Local Open Scope list_scope.
Local Open Scope Z_scope.

(** ** Definitions *)

Definition RuneError : Z := 65533.

(** A rune of a decoded string: its code point, the bytes it was read from,
    and whether they were a valid encoding. *)
Record chunk := mkChunk { ch_rune : Z; ch_bytes : bytes; ch_valid : bool }.

Definition cont (b : Z) : bool := (128 <=? b) && (b <? 192).
Definition rune2 (a b : Z) : Z := (a - 192) * 64 + (b - 128).
Definition rune3 (a b c : Z) : Z := (a - 224) * 4096 + (b - 128) * 64 + (c - 128).
Definition rune4 (a b c d : Z) : Z :=
  (a - 240) * 262144 + (b - 128) * 4096 + (c - 128) * 64 + (d - 128).

(** A surrogate is no code point. *)
Definition valid_rune (r : Z) : bool :=
  (0 <=? r) && ((r <? 55296) || ((57344 <=? r) && (r <=? 1114111))).

(** The well-formed sequences of two, three and four bytes: the shortest
    encodings of code points. *)
Definition wf2 (a b : Z) : bool := (194 <=? a) && (a <? 224) && cont b.
Definition wf3 (a b c : Z) : bool :=
  (224 <=? a) && (a <? 240) && cont b && cont c && (2048 <=? rune3 a b c) && valid_rune (rune3 a b c).
Definition wf4 (a b c d : Z) : bool :=
  (240 <=? a) && (a <? 245) && cont b && cont c && cont d &&
  (65536 <=? rune4 a b c d) && valid_rune (rune4 a b c d).

Fixpoint decode (s : bytes) : list chunk :=
  match s with
  | [] => []
  | a :: s1 =>
      let x := byte_Z a in
      if x <? 128 then mkChunk x [a] true :: decode s1
      else match s1 with
           | [] => mkChunk RuneError [a] false :: decode s1
           | b :: s2 =>
               let y := byte_Z b in
               if wf2 x y then mkChunk (rune2 x y) [a; b] true :: decode s2
               else match s2 with
                    | [] => mkChunk RuneError [a] false :: decode s1
                    | c :: s3 =>
                        let z := byte_Z c in
                        if wf3 x y z then mkChunk (rune3 x y z) [a; b; c] true :: decode s3
                        else match s3 with
                             | [] => mkChunk RuneError [a] false :: decode s1
                             | d :: s4 =>
                                 let w := byte_Z d in
                                 if wf4 x y z w
                                 then mkChunk (rune4 x y z w) [a; b; c; d] true :: decode s4
                                 else mkChunk RuneError [a] false :: decode s1
                             end
                    end
           end
  end.

Definition ValidString (s : string) : bool := forallb ch_valid (decode (to_bytes s)).
(** [[]rune(s)] and [utf8.RuneCountInString] *)
Definition runes (s : string) : list Z := map ch_rune (decode (to_bytes s)).
Definition RuneCount (s : string) : Z := zlen (runes s).

Definition encode_rune (r : Z) : bytes :=
  let r := if valid_rune r then r else RuneError in
  if r <? 128 then [Z_byte r]
  else if r <? 2048 then [Z_byte (192 + r / 64); Z_byte (128 + r mod 64)]
  else if r <? 65536 then
    [Z_byte (224 + r / 4096); Z_byte (128 + r / 64 mod 64); Z_byte (128 + r mod 64)]
  else
    [Z_byte (240 + r / 262144); Z_byte (128 + r / 4096 mod 64); Z_byte (128 + r / 64 mod 64);
     Z_byte (128 + r mod 64)].

(** [string(runes)] *)
Definition of_runes (l : list Z) : string := of_bytes (mjoin (map encode_rune l)).

(** [unicode.IsSpace]: the White_Space property. *)
Definition IsSpace (r : Z) : bool :=
  ((9 <=? r) && (r <=? 13)) || (r =? 32) || (r =? 133) || (r =? 160) || (r =? 5760) ||
  ((8192 <=? r) && (r <=? 8202)) || (r =? 8232) || (r =? 8233) || (r =? 8239) || (r =? 8287) || (r =? 12288).

Fixpoint drop_chunks (p : Z → bool) (l : list chunk) : list chunk :=
  match l with
  | [] => []
  | c :: l' => if p (ch_rune c) then drop_chunks p l' else l
  end.

(** [strings.TrimFunc(s, p)]. Decoding from the right finds the same runes as
    from the left: a lead byte is never a continuation byte. *)
Definition TrimFunc (p : Z → bool) (s : string) : string :=
  of_bytes (mjoin (map ch_bytes (rev (drop_chunks p (rev (drop_chunks p (decode (to_bytes s)))))))).
Definition TrimSpace : string → string := TrimFunc IsSpace.

(** ** Lemmas *)

Lemma encode_rune2 a b :
  wf2 (byte_Z a) (byte_Z b) = true →
  encode_rune (rune2 (byte_Z a) (byte_Z b)) = [a; b] ∧ valid_rune (rune2 (byte_Z a) (byte_Z b)) = true.
Proof.
  unfold wf2, cont, rune2. intros H. bool_hyps.
  set (x := byte_Z a) in *. set (y := byte_Z b) in *. set (r := _ * 64 + _).
  assert (valid_rune r = true) as Hv by (unfold valid_rune, r; lia). split; [|done].
  unfold encode_rune. rewrite Hv. rewrite (proj2 (Z.ltb_ge r 128)), (proj2 (Z.ltb_lt r 2048)) by (unfold r; lia).
  replace (192 + r / 64) with x by (unfold r; Z.to_euclidean_division_equations; lia).
  replace (128 + r mod 64) with y by (unfold r; Z.to_euclidean_division_equations; lia).
  unfold x, y. by rewrite !Z_byte_Z.
Qed.

Lemma encode_rune3 a b c :
  wf3 (byte_Z a) (byte_Z b) (byte_Z c) = true →
  encode_rune (rune3 (byte_Z a) (byte_Z b) (byte_Z c)) = [a; b; c] ∧
  valid_rune (rune3 (byte_Z a) (byte_Z b) (byte_Z c)) = true.
Proof.
  unfold wf3, cont. intros H. bool_hyps. split; [|done]. unfold encode_rune.
  match goal with H : valid_rune _ = true |- _ => rewrite H end.
  unfold rune3 in *. set (x := byte_Z a) in *. set (y := byte_Z b) in *. set (z := byte_Z c) in *.
  set (r := _ * 4096 + _ + _) in *.
  rewrite (proj2 (Z.ltb_ge r 128)), (proj2 (Z.ltb_ge r 2048)), (proj2 (Z.ltb_lt r 65536)) by (unfold r in *; lia).
  replace (224 + r / 4096) with x by (unfold r; Z.to_euclidean_division_equations; lia).
  replace (128 + r / 64 mod 64) with y by (unfold r; Z.to_euclidean_division_equations; lia).
  replace (128 + r mod 64) with z by (unfold r; Z.to_euclidean_division_equations; lia).
  unfold x, y, z. by rewrite !Z_byte_Z.
Qed.

Lemma encode_rune4 a b c d :
  wf4 (byte_Z a) (byte_Z b) (byte_Z c) (byte_Z d) = true →
  encode_rune (rune4 (byte_Z a) (byte_Z b) (byte_Z c) (byte_Z d)) = [a; b; c; d] ∧
  valid_rune (rune4 (byte_Z a) (byte_Z b) (byte_Z c) (byte_Z d)) = true.
Proof.
  unfold wf4, cont. intros H. bool_hyps. split; [|done]. unfold encode_rune.
  match goal with H : valid_rune _ = true |- _ => rewrite H end.
  unfold rune4 in *. set (x := byte_Z a) in *. set (y := byte_Z b) in *. set (z := byte_Z c) in *.
  set (w := byte_Z d) in *. set (r := _ * 262144 + _ + _ + _) in *.
  rewrite (proj2 (Z.ltb_ge r 128)), (proj2 (Z.ltb_ge r 2048)), (proj2 (Z.ltb_ge r 65536)) by (unfold r in *; lia).
  replace (240 + r / 262144) with x by (unfold r; Z.to_euclidean_division_equations; lia).
  replace (128 + r / 4096 mod 64) with y by (unfold r; Z.to_euclidean_division_equations; lia).
  replace (128 + r / 64 mod 64) with z by (unfold r; Z.to_euclidean_division_equations; lia).
  replace (128 + r mod 64) with w by (unfold r; Z.to_euclidean_division_equations; lia).
  unfold x, y, z, w. by rewrite !Z_byte_Z.
Qed.

Lemma encode_rune1 a :
  byte_Z a < 128 → encode_rune (byte_Z a) = [a] ∧ valid_rune (byte_Z a) = true.
Proof.
  intros Ha. pose proof (byte_Z_range a).
  assert (valid_rune (byte_Z a) = true) as Hv by (unfold valid_rune; lia). split; [|done].
  unfold encode_rune. rewrite Hv, (proj2 (Z.ltb_lt _ _)) by done. by rewrite Z_byte_Z.
Qed.

(** What decoding a string says about each of its chunks. *)
Definition chunk_ok (c : chunk) : Prop :=
  if ch_valid c then encode_rune (ch_rune c) = ch_bytes c ∧ valid_rune (ch_rune c) = true
  else ch_rune c = RuneError ∧ length (ch_bytes c) = 1%nat.

Lemma decode_spec s : mjoin (map ch_bytes (decode s)) = s ∧ Forall chunk_ok (decode s).
Proof.
  induction (well_founded_ltof _ (@length ascii) s) as [s _ IH]. unfold ltof in IH.
  destruct s as [|a s1]; [split; [done|constructor]|]. cbn [decode]. cbv zeta.
  assert (∀ c s', (length s' < length (a :: s1))%nat → chunk_ok c → ch_bytes c ++ s' = a :: s1 →
    mjoin (map ch_bytes (c :: decode s')) = a :: s1 ∧ Forall chunk_ok (c :: decode s')) as Hstep.
  { intros c s' Hlen Hc Heq. destruct (IH s' Hlen) as [H1 H2]. split; [|by constructor].
    simpl. rewrite <-Heq. f_equal. exact H1. }
  assert (mjoin (map ch_bytes (mkChunk RuneError [a] false :: decode s1)) = a :: s1 ∧
    Forall chunk_ok (mkChunk RuneError [a] false :: decode s1)) as Hbad
    by (apply Hstep; [simpl; lia|done|done]).
  destruct (byte_Z a <? 128) eqn:E1; bool_hyps.
  { apply Hstep; [simpl; lia| |done]. by apply encode_rune1. }
  destruct s1 as [|b s2]; [done|]. destruct (wf2 _ _) eqn:E2.
  { apply Hstep; [simpl; lia| |done]. by apply encode_rune2. }
  destruct s2 as [|c s3]; [done|]. destruct (wf3 _ _ _) eqn:E3.
  { apply Hstep; [simpl; lia| |done]. by apply encode_rune3. }
  destruct s3 as [|d s4]; [done|]. destruct (wf4 _ _ _ _) eqn:E4; [|done].
  apply Hstep; [simpl; lia| |done]. by apply encode_rune4.
Qed.

(** Decoding a valid string and encoding its runes gives the string back. *)
Lemma of_runes_runes s : ValidString s = true → of_runes (runes s) = s.
Proof.
  unfold ValidString, of_runes, runes. intros Hv. rewrite forallb_forall in Hv.
  destruct (decode_spec (to_bytes s)) as [Hj Hc]. rewrite <-(of_to_bytes s) at 2. f_equal.
  rewrite <-Hj at 2. clear Hj. induction (decode (to_bytes s)) as [|c l IH]; [done|].
  apply Forall_cons in Hc as [Hc Hl]. simpl. unfold chunk_ok in Hc. rewrite Hv in Hc by by left.
  destruct Hc as [-> _]. f_equal. apply IH; [|done]. intros. apply Hv. by right.
Qed.

Lemma runes_valid s : ValidString s = true → Forall (λ r, valid_rune r = true) (runes s).
Proof.
  unfold ValidString, runes. intros Hv. rewrite forallb_forall in Hv.
  destruct (decode_spec (to_bytes s)) as [_ Hc]. apply Forall_fmap. rewrite Forall_forall in *.
  intros c Hin. specialize (Hc c Hin). unfold chunk_ok in Hc.
  rewrite Hv in Hc by (by apply list_elem_of_In). by destruct Hc.
Qed.

(** Encoding a code point and decoding it gives one valid chunk. *)
Lemma decode_encoded r rest : valid_rune r = true → ∃ c, decode (encode_rune r ++ rest) = c :: decode rest ∧ ch_valid c = true.
Proof.
  intros Hv. unfold encode_rune. rewrite Hv. unfold valid_rune in Hv. bool_hyps.
  destruct (Z.ltb_spec r 128); [|destruct (Z.ltb_spec r 2048); [|destruct (Z.ltb_spec r 65536)]]; cbn [app decode];
    rewrite !byte_Z_byte by (Z.to_euclidean_division_equations; lia).
  - rewrite (proj2 (Z.ltb_lt r 128)) by done. by eexists.
  - rewrite (proj2 (Z.ltb_ge _ 128)) by (Z.to_euclidean_division_equations; lia).
    replace (wf2 _ _) with true; [by eexists|]. symmetry. unfold wf2, cont. rewrite !andb_true_iff, !Z.leb_le, !Z.ltb_lt. Z.to_euclidean_division_equations; lia.
  - rewrite (proj2 (Z.ltb_ge _ 128)) by (Z.to_euclidean_division_equations; lia).
    replace (wf2 _ _) with false. 2: { symmetry. unfold wf2. rewrite (proj2 (Z.ltb_ge _ 224)) by (Z.to_euclidean_division_equations; lia). by rewrite andb_false_r. }
    replace (wf3 _ _ _) with true; [by eexists|]. symmetry. unfold wf3, cont.
    assert (rune3 (224 + r / 4096) (128 + r / 64 mod 64) (128 + r mod 64) = r) as -> by (unfold rune3; Z.to_euclidean_division_equations; lia).
    unfold valid_rune. rewrite !andb_true_iff, orb_true_iff, !andb_true_iff, !Z.leb_le, !Z.ltb_lt. Z.to_euclidean_division_equations; lia.
  - rewrite (proj2 (Z.ltb_ge _ 128)) by (Z.to_euclidean_division_equations; lia).
    replace (wf2 _ _) with false. 2: { symmetry. unfold wf2. rewrite (proj2 (Z.ltb_ge _ 224)) by (Z.to_euclidean_division_equations; lia). by rewrite andb_false_r. }
    replace (wf3 _ _ _) with false. 2: { symmetry. unfold wf3. rewrite (proj2 (Z.ltb_ge _ 240)) by (Z.to_euclidean_division_equations; lia). by rewrite andb_false_r. }
    replace (wf4 _ _ _ _) with true; [by eexists|]. symmetry. unfold wf4, cont.
    assert (rune4 (240 + r / 262144) (128 + r / 4096 mod 64) (128 + r / 64 mod 64) (128 + r mod 64) = r) as -> by (unfold rune4; Z.to_euclidean_division_equations; lia).
    unfold valid_rune. rewrite !andb_true_iff, orb_true_iff, !andb_true_iff, !Z.leb_le, !Z.ltb_lt. Z.to_euclidean_division_equations; lia.
Qed.

(** So a string made of code points is valid UTF-8. *)
Lemma of_runes_valid l : Forall (λ r, valid_rune r = true) l → ValidString (of_runes l) = true.
Proof.
  unfold ValidString, of_runes. rewrite to_of_bytes. induction 1 as [|r l Hr _ IH]; [done|]. change (mjoin (map encode_rune (r :: l))) with (encode_rune r ++ mjoin (map encode_rune l)).
  destruct (decode_encoded r (mjoin (map encode_rune l)) Hr) as (c & -> & Hc). cbn [forallb]. by rewrite Hc.
Qed.

(** A valid string before another does not change how that one is decoded. *)
Lemma decode_runes l rest : Forall (λ r, valid_rune r = true) l →
  ∃ cs, decode (mjoin (map encode_rune l) ++ rest) = cs ++ decode rest ∧ forallb ch_valid cs = true.
Proof.
  induction 1 as [|r l Hr _ (cs & IH & Hcs)]; [by exists []|]. change (mjoin (map encode_rune (r :: l))) with (encode_rune r ++ mjoin (map encode_rune l)).
  rewrite <- app_assoc. destruct (decode_encoded r (mjoin (map encode_rune l) ++ rest) Hr) as (c & -> & Hc). exists (c :: cs).
  rewrite IH. split; [done|]. cbn [forallb]. by rewrite Hc.
Qed.
Lemma ValidString_app x y : ValidString x = true → ValidString (x +:+ y) = ValidString y.
Proof.
  intros Hx. rewrite <- (of_runes_runes x Hx). unfold ValidString, of_runes. rewrite to_bytes_app, to_of_bytes.
  destruct (decode_runes (runes x) (to_bytes y) (runes_valid x Hx)) as (cs & -> & Hcs). by rewrite forallb_app, Hcs.
Qed.

Example runes_e_acute : runes "é" = [233].
Proof. reflexivity. Qed.
