(* ===== verification/Base64.v ===== *)
(** * Base64

    Go's [encoding/base64]: [RawURLEncoding] (no padding) and the encoder of
    [StdEncoding]. Decoding skips carriage returns and line feeds and does not
    look at the unused bits of the last character, as Go's non-strict decoder
    does. *)
From Stdlib Require Import Ascii String.
From S2P Require Import Prelude GoStrings Sha256 Regex.
Local Open Scope string_scope.
Local Open Scope list_scope.
Local Open Scope Z_scope.

(** ** Definitions *)

(** The character of a six-bit value; [c62] and [c63] are the last two of the
    alphabet. *)
Definition b64_char (c62 c63 : ascii) (v : Z) : ascii :=
  if v <? 26 then Z_byte (65 + v)
  else if v <? 52 then Z_byte (71 + v)
  else if v <? 62 then Z_byte (v - 4)
  else if v =? 62 then c62 else c63.

(** The values of the one to three bytes of a group. *)
Definition b64_group1 (a : Z) : list Z := [a / 4; a mod 4 * 16].
Definition b64_group2 (a b : Z) : list Z := [a / 4; a mod 4 * 16 + b / 16; b mod 16 * 4].
Definition b64_group3 (a b c : Z) : list Z :=
  [a / 4; a mod 4 * 16 + b / 16; b mod 16 * 4 + c / 64; c mod 64].

Fixpoint b64_encode (c62 c63 : ascii) (pad : bytes → bytes) (l : bytes) : bytes :=
  match l with
  | [] => []
  | [a] => pad (map (b64_char c62 c63) (b64_group1 (byte_Z a)))
  | [a; b] => pad (map (b64_char c62 c63) (b64_group2 (byte_Z a) (byte_Z b)))
  | a :: b :: c :: l =>
      map (b64_char c62 c63) (b64_group3 (byte_Z a) (byte_Z b) (byte_Z c)) ++ b64_encode c62 c63 pad l
  end.

Definition pad_four (l : bytes) : bytes := l ++ repeat "="%char (4 - length l).

(** [base64.RawURLEncoding.EncodeToString] and [base64.StdEncoding.EncodeToString] *)
Definition RawURLEncode (l : bytes) : string := of_bytes (b64_encode "-" "_" id l).
Definition StdEncode (l : bytes) : string := of_bytes (b64_encode "+" "/" pad_four l).

(** The value of a character of the URL alphabet. *)
Definition b64_value (a : ascii) : option Z :=
  if is_upper a then Some (byte_Z a - 65)
  else if is_lower a then Some (byte_Z a - 71)
  else if is_digit a then Some (byte_Z a + 4)
  else if Ascii.eqb a "-" then Some 62
  else if Ascii.eqb a "_" then Some 63
  else None.

Fixpoint b64_decode (l : list Z) : option bytes :=
  match l with
  | [] => Some []
  | [_] => None
  | [v1; v2] => Some [Z_byte (v1 * 4 + v2 / 16)]
  | [v1; v2; v3] => Some [Z_byte (v1 * 4 + v2 / 16); Z_byte (v2 mod 16 * 16 + v3 / 4)]
  | v1 :: v2 :: v3 :: v4 :: l =>
      r ← b64_decode l;
      Some (Z_byte (v1 * 4 + v2 / 16) :: Z_byte (v2 mod 16 * 16 + v3 / 4)
              :: Z_byte (v3 mod 4 * 64 + v4) :: r)
  end.

Definition is_newline (a : ascii) : bool := Ascii.eqb a (Z_byte 10) || Ascii.eqb a (Z_byte 13).

(** [base64.RawURLEncoding.DecodeString] *)
Definition RawURLDecode (s : string) : option bytes :=
  vs ← mapM b64_value (List.filter (λ a, negb (is_newline a)) (to_bytes s));
  b64_decode vs.

Example b64_std : StdEncode (to_bytes "ab") = "YWI=".
Proof. by vm_compute. Qed.
Example b64_url : RawURLEncode (map Z_byte [251; 255; 254; 0]) = "-__-AA".
Proof. by vm_compute. Qed.
Example b64_url_back : RawURLDecode "-__-AA" = Some (map Z_byte [251; 255; 254; 0]).
Proof. by vm_compute. Qed.

(** ** Lemmas *)

Lemma b64_char_token v : 0 ≤ v < 64 → token_char (b64_char "-" "_" v) = true ∧ b64_value (b64_char "-" "_" v) = Some v.
Proof.
  intros Hv. assert (v ∈ seqZ 0 64) as Hin by (apply elem_of_seqZ; lia). revert v Hv Hin.
  assert (Forall (λ v, token_char (b64_char "-" "_" v) = true ∧ b64_value (b64_char "-" "_" v) = Some v) (seqZ 0 64)) as H
    by (apply (bool_decide_unpack _); vm_compute; exact I).
  rewrite Forall_forall in H. auto.
Qed.

(** The values a text is encoded from. *)
Fixpoint b64_values (l : bytes) : list Z :=
  match l with
  | [] => []
  | [a] => b64_group1 (byte_Z a)
  | [a; b] => b64_group2 (byte_Z a) (byte_Z b)
  | a :: b :: c :: l => b64_group3 (byte_Z a) (byte_Z b) (byte_Z c) ++ b64_values l
  end.

Lemma bytes_ind3 (P : bytes → Prop) :
  P [] → (∀ a, P [a]) → (∀ a b, P [a; b]) → (∀ a b c l, P l → P (a :: b :: c :: l)) → ∀ l, P l.
Proof.
  intros H0 H1 H2 H3. fix IH 1. intros [|a [|b [|c l]]]; [done|apply H1|apply H2|]. apply H3, IH.
Qed.

Lemma b64_encode_values l : b64_encode "-" "_" id l = map (b64_char "-" "_") (b64_values l).
Proof. induction l as [|a|a b|a b c l IH] using bytes_ind3; [done..|]. cbn [b64_encode b64_values]. by rewrite IH, map_app. Qed.

Lemma b64_values_range l : Forall (λ v, 0 ≤ v < 64) (b64_values l).
Proof.
  induction l as [|a|a b|a b c l IH] using bytes_ind3.
  - constructor.
  - pose proof (byte_Z_range a). cbn [b64_values]. unfold b64_group1.
    repeat constructor; Z.to_euclidean_division_equations; lia.
  - pose proof (byte_Z_range a). pose proof (byte_Z_range b). cbn [b64_values]. unfold b64_group2.
    repeat constructor; Z.to_euclidean_division_equations; lia.
  - pose proof (byte_Z_range a). pose proof (byte_Z_range b). pose proof (byte_Z_range c).
    cbn [b64_values]. apply Forall_app. split; [|done]. unfold b64_group3.
    repeat constructor; Z.to_euclidean_division_equations; lia.
Qed.

Lemma b64_decode_values l : b64_decode (b64_values l) = Some l.
Proof.
  assert (∀ a z, z = byte_Z a → Z_byte z = a) as Hb by (intros a z ->; apply Z_byte_Z).
  induction l as [|a|a b|a b c l IH] using bytes_ind3.
  - done.
  - cbn. f_equal. f_equal. apply Hb. pose proof (byte_Z_range a). Z.to_euclidean_division_equations; lia.
  - cbn. pose proof (byte_Z_range a). pose proof (byte_Z_range b).
    f_equal. f_equal; [|f_equal]; apply Hb; Z.to_euclidean_division_equations; lia.
  - cbn [b64_values]. unfold b64_group3. cbn [app b64_decode]. rewrite IH. cbn.
    pose proof (byte_Z_range a). pose proof (byte_Z_range b). pose proof (byte_Z_range c).
    f_equal. f_equal; [|f_equal; [|f_equal]]; apply Hb; Z.to_euclidean_division_equations; lia.
Qed.

Lemma token_char_not_newline a : token_char a = true → is_newline a = false.
Proof.
  intros H. unfold is_newline. apply orb_false_iff. split; apply Ascii.eqb_neq; intros ->; by vm_compute in H.
Qed.

Lemma filter_newlines (l : list Z) :
  Forall (λ v, 0 ≤ v < 64) l →
  List.filter (λ a, negb (is_newline a)) (map (b64_char "-" "_") l) = map (b64_char "-" "_") l.
Proof.
  induction 1 as [|v l Hv Hl IH]; simpl; [done|].
  rewrite token_char_not_newline by by apply b64_char_token. simpl. by rewrite IH.
Qed.

Lemma mapM_values l : Forall (λ v, 0 ≤ v < 64) l → mapM b64_value (map (b64_char "-" "_") l) = Some l.
Proof.
  induction 1 as [|v l Hv Hl IH]; [done|]. cbn [map mapM]. 
  rewrite (proj2 (b64_char_token v Hv)). cbn. by rewrite IH.
Qed.

(** Decoding inverts encoding. *)
Lemma RawURLDecode_Encode l : RawURLDecode (RawURLEncode l) = Some l.
Proof.
  unfold RawURLDecode, RawURLEncode. rewrite to_of_bytes, b64_encode_values.
  rewrite filter_newlines, mapM_values by apply b64_values_range. cbn. apply b64_decode_values.
Qed.

(** An encoded text has only token characters. *)
Lemma RawURLEncode_chars l : Forall (λ a, token_char a = true) (to_bytes (RawURLEncode l)).
Proof.
  unfold RawURLEncode. rewrite to_of_bytes, b64_encode_values. apply Forall_fmap.
  eapply Forall_impl; [apply b64_values_range|]. intros v Hv. by apply b64_char_token.
Qed.

Lemma length_b64_values l : Z.of_nat (length (b64_values l)) = (zlen l * 4 + 2) / 3.
Proof.
  unfold zlen. induction l as [|a|a b|a b c l IH] using bytes_ind3; [done..|].
  cbn [b64_values]. rewrite length_app, Nat2Z.inj_add, IH. simpl length.
  Z.to_euclidean_division_equations; lia.
Qed.

Lemma slen_RawURLEncode l : slen (RawURLEncode l) = (zlen l * 4 + 2) / 3.
Proof.
  unfold RawURLEncode. rewrite b64_encode_values. unfold slen.
  assert (∀ x, String.length (of_bytes x) = length x) as -> by (induction x; simpl; [done|by f_equal]).
  rewrite length_map. apply length_b64_values.
Qed.

Lemma slen_StdEncode l : slen (StdEncode l) = (zlen l + 2) / 3 * 4.
Proof.
  unfold StdEncode, slen.
  assert (∀ x, String.length (of_bytes x) = length x) as -> by (induction x; simpl; [done|by f_equal]).
  unfold zlen. induction l as [|a|a b|a b c l IH] using bytes_ind3; [done..|].
  cbn [b64_encode]. rewrite length_app, Nat2Z.inj_add, IH, length_map. simpl length.
  Z.to_euclidean_division_equations; lia.
Qed.
