(* ===== verification/Json.v ===== *)
(** * JSON

    The parts of Go's [encoding/json] the sources use: [Marshal] of values
    built from structs, slices, strings, booleans and integers, with its HTML
    escaping, and [Unmarshal] into a flat struct of strings and integers. A
    struct is an object whose fields are in declaration order. *)
From Stdlib Require Import Ascii String DecimalString DecimalZ DecimalFacts.
From S2P Require Import Prelude GoStrings Sha256 Regex Utf8.
Local Open Scope string_scope.
Local Open Scope list_scope.
Local Open Scope Z_scope.

(** ** Values *)

Inductive json : Type :=
| JNull
| JBool (b : bool)
| JNum (literal : string)
| JStr (s : string)
| JArr (l : list json)
| JObj (l : list (string * json)).

(** [strconv.FormatInt(z, 10)] *)
Definition FormatInt (z : Z) : string := NilZero.string_of_int (Z.to_int z).
Definition JInt (z : Z) : json := JNum (FormatInt z).

(** ** Marshal *)

Definition hex_byte (z : Z) : bytes := [hex_digit (Z.shiftr z 4); hex_digit (Z.land z 15)].
Definition escape_u (z : Z) : bytes := to_bytes "\u" ++ hex_byte (Z.shiftr z 8) ++ hex_byte (Z.land z 255).

Definition quote : ascii := Z_byte 34.
Definition backslash : ascii := Z_byte 92.

(** The encoding of one rune of a string. *)
Definition escape_chunk (c : chunk) : bytes :=
  let r := ch_rune c in
  if negb (ch_valid c) then escape_u RuneError
  else if (r =? 34) || (r =? 92) then backslash :: ch_bytes c
  else if r =? 8 then [backslash; "b"%char]
  else if r =? 12 then [backslash; "f"%char]
  else if r =? 10 then [backslash; "n"%char]
  else if r =? 13 then [backslash; "r"%char]
  else if r =? 9 then [backslash; "t"%char]
  else if (r <? 32) || (r =? 60) || (r =? 62) || (r =? 38) || (r =? 8232) || (r =? 8233) then escape_u r
  else ch_bytes c.

Definition render_string (s : string) : bytes :=
  quote :: flat_map escape_chunk (decode (to_bytes s)) ++ [quote].

Fixpoint commas (l : list bytes) : bytes :=
  match l with
  | [] => []
  | [x] => x
  | x :: l => x ++ ","%char :: commas l
  end.

Fixpoint render (v : json) : bytes :=
  match v with
  | JNull => to_bytes "null"
  | JBool b => to_bytes (if b then "true" else "false")
  | JNum n => to_bytes n
  | JStr s => render_string s
  | JArr l => "["%char :: commas (map render l) ++ ["]"%char]
  | JObj l =>
      "{"%char :: commas (map (λ f, render_string f.1 ++ ":"%char :: render f.2) l) ++ ["}"%char]
  end.

(** [json.Marshal(v)], which cannot fail on these values. *)
Definition Marshal (v : json) : bytes := render v.
Definition marshal_size (v : json) : Z := zlen (Marshal v).

(** Fields with [omitempty]. *)
Definition omit_string (name s : string) : list (string * json) :=
  if String.eqb s "" then [] else [(name, JStr s)].
Definition omit_list (name : string) (l : list json) : list (string * json) :=
  match l with [] => [] | _ => [(name, JArr l)] end.
(** A slice that is [nil] when empty. *)
Definition nil_list (l : list json) : json := match l with [] => JNull | _ => JArr l end.

(** ** Parsing *)

Definition is_ws (a : ascii) : bool :=
  let z := byte_Z a in (z =? 32) || (z =? 9) || (z =? 10) || (z =? 13).
Fixpoint skip_ws (l : bytes) : bytes :=
  match l with
  | [] => []
  | a :: l' => if is_ws a then skip_ws l' else l
  end.

Definition hex_value (a : ascii) : option Z :=
  let z := byte_Z a in
  if (48 <=? z) && (z <=? 57) then Some (z - 48)
  else if (97 <=? z) && (z <=? 102) then Some (z - 87)
  else if (65 <=? z) && (z <=? 70) then Some (z - 55)
  else None.
Definition hex4 (a b c d : ascii) : option Z :=
  x ← hex_value a; y ← hex_value b; z ← hex_value c; w ← hex_value d;
  Some (((x * 16 + y) * 16 + z) * 16 + w).

Definition simple_escape (a : ascii) : option ascii :=
  if Ascii.eqb a quote then Some quote
  else if Ascii.eqb a backslash then Some backslash
  else if Ascii.eqb a "/" then Some "/"%char
  else if Ascii.eqb a "b" then Some (Z_byte 8)
  else if Ascii.eqb a "f" then Some (Z_byte 12)
  else if Ascii.eqb a "n" then Some (Z_byte 10)
  else if Ascii.eqb a "r" then Some (Z_byte 13)
  else if Ascii.eqb a "t" then Some (Z_byte 9)
  else None.

Definition is_high (z : Z) : bool := (55296 <=? z) && (z <? 56320).
Definition is_low (z : Z) : bool := (56320 <=? z) && (z <? 57344).
Definition surrogates (h l : Z) : Z := (h - 55296) * 1024 + (l - 56320) + 65536.

Definition prepend (x : bytes) (r : option (bytes * bytes)) : option (bytes * bytes) :=
  '(s, rest) ← r; Some (x ++ s, rest).

(** The contents of a string after its opening quote, and what follows its
    closing one. *)
Fixpoint parse_chars (l : bytes) : option (bytes * bytes) :=
  match l with
  | [] => None
  | a :: l1 =>
      if Ascii.eqb a quote then Some ([], l1)
      else if byte_Z a <? 32 then None
      else if negb (Ascii.eqb a backslash) then prepend [a] (parse_chars l1)
      else match l1 with
           | [] => None
           | b :: l2 =>
               if negb (Ascii.eqb b "u") then
                 match simple_escape b with
                 | Some c => prepend [c] (parse_chars l2)
                 | None => None
                 end
               else match l2 with
                    | h1 :: h2 :: h3 :: h4 :: l3 =>
                        match hex4 h1 h2 h3 h4 with
                        | None => None
                        | Some r =>
                            match l3 with
                            | e :: u :: g1 :: g2 :: g3 :: g4 :: l4 =>
                                match hex4 g1 g2 g3 g4 with
                                | Some r' =>
                                    if Ascii.eqb e backslash && Ascii.eqb u "u" && is_high r && is_low r'
                                    then prepend (encode_rune (surrogates r r')) (parse_chars l4)
                                    else prepend (encode_rune r) (parse_chars l3)
                                | None => prepend (encode_rune r) (parse_chars l3)
                                end
                            | _ => prepend (encode_rune r) (parse_chars l3)
                            end
                        end
                    | _ => None
                    end
           end
  end.

(** Invalid UTF-8 in a string is replaced. *)
Definition to_valid (s : bytes) : string := of_runes (map ch_rune (decode s)).

Definition parse_string (l : bytes) : option (string * bytes) :=
  match l with
  | a :: l' =>
      if Ascii.eqb a quote then '(s, rest) ← parse_chars l'; Some (to_valid s, rest) else None
  | [] => None
  end.

(** The grammar of numbers. *)
Definition number_char (a : ascii) : bool :=
  is_digit a || Ascii.eqb a "+" || Ascii.eqb a "-" || Ascii.eqb a "." || Ascii.eqb a "e" || Ascii.eqb a "E".
Definition number_re : re :=
  RSeq (ropt (rchar "-")) (RSeq semver_number
    (RSeq (ropt (RSeq (rchar ".") (rplus (RClass is_digit))))
      (ropt (RSeq (RAlt (rchar "e") (rchar "E"))
         (RSeq (ropt (RAlt (rchar "+") (rchar "-"))) (rplus (RClass is_digit))))))).

Fixpoint take_while (p : ascii → bool) (l : bytes) : bytes * bytes :=
  match l with
  | [] => ([], [])
  | a :: l' => if p a then let '(x, y) := take_while p l' in (a :: x, y) else ([], l)
  end.

Definition parse_number (l : bytes) : option (string * bytes) :=
  let '(x, rest) := take_while number_char l in
  if match_bytes number_re x then Some (of_bytes x, rest) else None.

(** A literal at the front of the input. *)
Definition strip (w : string) (l : bytes) : option bytes :=
  let n := String.length w in
  if bool_decide (take n l = to_bytes w) then Some (drop n l) else None.

Definition max_depth : Z := 10000.

(** The parser. Its fuel bounds the nesting and the lengths of its loops
    together; every two calls consume a byte, so twice the input's length does. *)
Fixpoint parse_value (fuel : nat) (depth : Z) (l : bytes) : option (json * bytes) :=
  match fuel with
  | O => None
  | S fuel =>
      let l := skip_ws l in
      match l with
      | [] => None
      | a :: l' =>
          if Ascii.eqb a quote then '(s, rest) ← parse_string l; Some (JStr s, rest)
          else if Ascii.eqb a "{" then
            if max_depth <=? depth then None else
            match skip_ws l' with
            | b :: rest => if Ascii.eqb b "}" then Some (JObj [], rest)
                           else '(ms, rest) ← parse_members fuel (depth + 1) l'; Some (JObj ms, rest)
            | [] => None
            end
          else if Ascii.eqb a "[" then
            if max_depth <=? depth then None else
            match skip_ws l' with
            | b :: rest => if Ascii.eqb b "]" then Some (JArr [], rest)
                           else '(vs, rest) ← parse_elements fuel (depth + 1) l'; Some (JArr vs, rest)
            | [] => None
            end
          else if Ascii.eqb a "t" then rest ← strip "true" l; Some (JBool true, rest)
          else if Ascii.eqb a "f" then rest ← strip "false" l; Some (JBool false, rest)
          else if Ascii.eqb a "n" then rest ← strip "null" l; Some (JNull, rest)
          else '(n, rest) ← parse_number l; Some (JNum n, rest)
      end
  end
with parse_elements (fuel : nat) (depth : Z) (l : bytes) : option (list json * bytes) :=
  match fuel with
  | O => None
  | S fuel =>
      '(v, rest) ← parse_value fuel depth l;
      match skip_ws rest with
      | b :: rest =>
          if Ascii.eqb b "]" then Some ([v], rest)
          else if Ascii.eqb b "," then '(vs, rest) ← parse_elements fuel depth rest; Some (v :: vs, rest)
          else None
      | [] => None
      end
  end
with parse_members (fuel : nat) (depth : Z) (l : bytes) : option (list (string * json) * bytes) :=
  match fuel with
  | O => None
  | S fuel =>
      '(k, rest) ← parse_string (skip_ws l);
      match skip_ws rest with
      | c :: rest =>
          if negb (Ascii.eqb c ":") then None else
          '(v, rest) ← parse_value fuel depth rest;
          match skip_ws rest with
          | b :: rest =>
              if Ascii.eqb b "}" then Some ([(k, v)], rest)
              else if Ascii.eqb b "," then
                '(ms, rest) ← parse_members fuel depth rest; Some ((k, v) :: ms, rest)
              else None
          | [] => None
          end
      | [] => None
      end
  end.

Definition parse (l : bytes) : option json :=
  '(v, rest) ← parse_value (S (2 * length l)) 0 l;
  match skip_ws rest with [] => Some v | _ => None end.

(** ** Unmarshal into a flat struct *)

(** The folding of field names: ASCII letters in either case, and the two
    other runes that fold to ASCII. *)
Definition fold_rune (r : Z) : Z :=
  if (97 <=? r) && (r <=? 122) then r - 32
  else if r =? 383 then 83
  else if r =? 8490 then 75
  else r.
Definition names_match (field key : string) : bool :=
  bool_decide (map fold_rune (runes field) = map fold_rune (runes key)).

(** The value of a struct field of a flat object: the last member that names
    it, exactly or up to folding; [null] leaves a field alone. [decode_field]
    is [None] on a value of the wrong type, which makes [Unmarshal] fail. *)
Fixpoint field {A} (decode_field : json → option A) (name : string) (members : list (string * json))
    (current : A) : option A :=
  match members with
  | [] => Some current
  | (k, v) :: members =>
      if names_match name k then
        match v with
        | JNull => field decode_field name members current
        | _ => x ← decode_field v; field decode_field name members x
        end
      else field decode_field name members current
  end.

Definition decode_string (v : json) : option string := match v with JStr s => Some s | _ => None end.

(** Integers of a range: a literal with a fraction or an exponent is refused. *)
Definition decode_integer (lo hi : Z) (v : json) : option Z :=
  match v with
  | JNum n =>
      d ← NilZero.int_of_string n;
      let z := Z.of_int d in
      if (lo <=? z) && (z <=? hi) then Some z else None
  | _ => None
  end.
Definition decode_int : json → option Z := decode_integer MinInt64 MaxInt64.
Definition decode_uint64 : json → option Z := decode_integer 0 (2 ^ 64 - 1).

(** The members of an object; [null] decodes into no change. *)
Definition as_members (v : json) : option (list (string * json)) :=
  match v with JObj l => Some l | JNull => Some [] | _ => None end.

(** Text with single quotes for double ones. *)
Definition requote (s : string) : bytes :=
  map (λ a, if Ascii.eqb a (Z_byte 39) then quote else a) (to_bytes s).

Example render_html :
  Marshal (JObj [("a", JStr "<é>"); ("b", JArr [JInt (-3); JNull])]) =
  requote "{'a':'\u003cé\u003e','b':[-3,null]}".
Proof. by vm_compute. Qed.
Example parse_back :
  parse (requote " {'a' : '\u00e9\ud83d\ude00', 'b':[ -3,null ]} ") =
  Some (JObj [("a", JStr "é😀"); ("b", JArr [JNum "-3"; JNull])]).
Proof. by vm_compute. Qed.
Example parse_bad : parse (requote "{'a':01}") = None.
Proof. by vm_compute. Qed.

(** ** Lemmas: integers *)

Lemma Z_to_int_norm z : Decimal.norm (Z.to_int z) = Z.to_int z.
Proof. by rewrite <-(DecimalZ.to_of (Z.to_int z)), DecimalZ.of_to. Qed.

Lemma int_of_FormatInt z : NilZero.int_of_string (FormatInt z) = Some (Z.to_int z).
Proof.
  unfold FormatInt. pose proof (Z_to_int_norm z) as Hn.
  apply NilZero.isi; intros He; rewrite He in Hn; by simpl in Hn.
Qed.

Lemma decode_integer_JInt lo hi z : lo ≤ z ≤ hi → decode_integer lo hi (JInt z) = Some z.
Proof.
  intros Hz. unfold decode_integer, JInt. rewrite int_of_FormatInt. simpl. rewrite DecimalZ.of_to.
  by rewrite (proj2 (Z.leb_le lo z)), (proj2 (Z.leb_le z hi)) by lia.
Qed.

Lemma nzhead_nonzero d d' : Decimal.nzhead d ≠ Decimal.D0 d'.
Proof. induction d; simpl; congruence. Qed.

(** Digits without a leading zero. *)
Lemma unorm_digits d :
  Decimal.unorm d = d → re_lang semver_number (to_bytes (NilZero.string_of_uint d)).
Proof.
  assert (∀ d, Forall (λ a, is_digit a = true) (to_bytes (NilEmpty.string_of_uint d))) as Hd.
  { induction d0; simpl; constructor; done. }
  assert (∀ a d, in_range "1" "9" a = true → re_lang semver_number (to_bytes (String a (NilEmpty.string_of_uint d)))) as Hs.
  { intros a d' Ha. apply L_alt_r. change (to_bytes (String a (NilEmpty.string_of_uint d'))) with ([a] ++ to_bytes (NilEmpty.string_of_uint d')).
    constructor; [by constructor|]. by apply star_class_lang. }
  assert (re_lang semver_number (to_bytes "0")) as H0 by (apply L_alt_l; by constructor).
  intros Hn. destruct d as [|d|d|d|d|d|d|d|d|d|d]; simpl; try (by apply Hs); [done|].
  unfold Decimal.unorm in Hn. simpl in Hn. destruct (Decimal.nzhead d) as [|d'|d'|d'|d'|d'|d'|d'|d'|d'|d'] eqn:Hz; try discriminate Hn.
  - injection Hn as <-. done.
  - by destruct (nzhead_nonzero d d').
Qed.

Lemma FormatInt_number z : re_lang number_re (to_bytes (FormatInt z)).
Proof.
  unfold FormatInt. pose proof (Z_to_int_norm z) as Hn.
  assert (∀ sg u, re_lang (ropt (rchar "-")) sg → re_lang semver_number u → re_lang number_re (sg ++ u)) as Hre.
  { intros sg u Hsg Hu. apply L_seq; [done|]. rewrite <-(app_nil_r u). apply L_seq; [done|].
    apply (L_seq _ _ [] []); apply opt_lang; by left. }
  destruct (Z.to_int z) as [d|d]; simpl in *.
  - apply (Hre []); [apply opt_lang; by left|]. apply unorm_digits. by injection Hn.
  - apply (Hre ["-"%char]); [apply opt_lang; right; by constructor|]. apply unorm_digits.
    unfold Decimal.unorm. destruct (Decimal.nzhead d) as [|d'|d'|d'|d'|d'|d'|d'|d'|d'|d'] eqn:Hz; try (injection Hn as Hn; by rewrite <-Hn); done.
Qed.

Lemma number_chars s : re_lang number_re s → Forall (λ a, number_char a = true) s.
Proof.
  assert (∀ c s, re_lang (RClass c) s → (∀ a, c a = true → number_char a = true) → Forall (λ a, number_char a = true) s) as Hc.
  { intros c s' (a & -> & Ha)%class_lang H. repeat constructor. auto. }
  assert (∀ a, is_digit a = true → number_char a = true) as Hdig by (intros a Ha; unfold number_char; by rewrite Ha).
  assert (∀ s, Forall (λ a, is_digit a = true) s → Forall (λ a, number_char a = true) s) as Hds
    by (intros s' H; eapply Forall_impl; [exact H|exact Hdig]).
  assert (∀ s, re_lang (rplus (RClass is_digit)) s → Forall (λ a, number_char a = true) s) as Hplus.
  { intros s' (x & y & -> & Hx & Hy)%seq_lang. apply Forall_app. split; [by apply (Hc _ _ Hx)|].
    by apply Hds, star_class_lang. }
  assert (∀ a s, re_lang (rchar a) s → number_char a = true → Forall (λ a, number_char a = true) s) as Hch.
  { intros a s' H Ha. apply (Hc _ _ H). by intros b <-%Ascii.eqb_eq. }
  intros (x & y & -> & Hx & (u & v & -> & Hu & (f & e & -> & Hf & He)%seq_lang)%seq_lang)%seq_lang.
  apply opt_lang in Hx, Hf, He. rewrite !Forall_app. split; [|split; [|split]].
  - destruct Hx as [->|Hx]; [constructor|by eapply Hch].
  - unfold semver_number in Hu. inversion Hu; subst; [by eapply Hch|].
    match goal with H : re_lang (RSeq _ _) _ |- _ => apply seq_lang in H as (p & q & -> & Hp & Hq) end.
    apply Forall_app. split; [|by apply Hds, star_class_lang].
    apply (Hc _ _ Hp). intros a Ha. apply Hdig. unfold is_digit, in_range in *.
    apply andb_true_iff in Ha as [H1%N.leb_le H2%N.leb_le]. apply andb_true_iff. split; apply N.leb_le; [|done].
    etrans; [|exact H1]. done.
  - destruct Hf as [->|(p & q & -> & Hp & Hq)%seq_lang]; [constructor|]. apply Forall_app. split; [by eapply Hch|auto].
  - destruct He as [->|(p & q & -> & Hp & (g & h & -> & Hg & Hh)%seq_lang)%seq_lang]; [constructor|].
    rewrite !Forall_app. split; [|split; [|auto]].
    + inversion Hp; subst; by eapply Hch.
    + apply opt_lang in Hg as [->|Hg]; [constructor|]. inversion Hg; subst; by eapply Hch.
Qed.

Lemma take_while_all p x a l :
  Forall (λ b, p b = true) x → p a = false → take_while p (x ++ a :: l) = (x, a :: l).
Proof.
  intros Hx Ha. induction Hx as [|b x Hb Hx IH]; simpl; [by rewrite Ha|]. by rewrite Hb, IH.
Qed.

Lemma parse_number_FormatInt z a rest :
  number_char a = false →
  parse_number (to_bytes (FormatInt z) ++ a :: rest) = Some (FormatInt z, a :: rest).
Proof.
  intros Ha. unfold parse_number. pose proof (FormatInt_number z) as Hre.
  rewrite take_while_all by (try done; by apply number_chars).
  rewrite (proj2 (match_bytes_spec _ _) Hre). by rewrite of_to_bytes.
Qed.

(** ** Lemmas: plain strings *)

(** Printable ASCII that needs no escape. *)
Definition plain_char (a : ascii) : bool :=
  let z := byte_Z a in
  (32 <=? z) && (z <? 127) && negb (z =? 34) && negb (z =? 92) && negb (z =? 60) && negb (z =? 62) &&
  negb (z =? 38).
Definition plain (s : string) : Prop := Forall (λ a, plain_char a = true) (to_bytes s).

Lemma decode_plain l :
  Forall (λ a, plain_char a = true) l → decode l = map (λ a, mkChunk (byte_Z a) [a] true) l.
Proof.
  induction 1 as [|a l Ha Hl IH]; [done|]. cbn [decode map]. unfold plain_char in Ha. bool_hyps.
  rewrite (proj2 (Z.ltb_lt (byte_Z a) 128)) by lia. by rewrite IH.
Qed.

Lemma render_plain s : plain s → render_string s = quote :: to_bytes s ++ [quote].
Proof.
  intros Hs. unfold render_string. f_equal. f_equal. rewrite decode_plain by done.
  unfold plain in Hs. induction Hs as [|a l Ha Hl IH]; [done|]. cbn [map flat_map].
  assert (escape_chunk (mkChunk (byte_Z a) [a] true) = [a]) as ->; [|simpl; by rewrite IH].
  unfold plain_char in Ha. bool_hyps. unfold escape_chunk. simpl.
  repeat match goal with |- context [byte_Z a =? ?k] =>
    rewrite (proj2 (Z.eqb_neq (byte_Z a) k)) by lia end.
  by rewrite (proj2 (Z.ltb_ge (byte_Z a) 32)) by lia.
Qed.

Lemma parse_chars_plain l rest :
  Forall (λ a, plain_char a = true) l → parse_chars (l ++ quote :: rest) = Some (l, rest).
Proof.
  induction 1 as [|a l Ha Hl IH]; [done|]. cbn [app parse_chars]. unfold plain_char in Ha. bool_hyps.
  destruct (Ascii.eqb_spec a quote) as [->|_]; [by vm_compute in H5|].
  rewrite (proj2 (Z.ltb_ge _ _)) by lia.
  destruct (Ascii.eqb_spec a backslash) as [->|_]; [by vm_compute in H4|].
  simpl negb. cbn match. rewrite IH. done.
Qed.

Lemma to_valid_plain l : Forall (λ a, plain_char a = true) l → to_valid l = of_bytes l.
Proof.
  intros Hl. unfold to_valid, of_runes. rewrite decode_plain by done. f_equal.
  induction Hl as [|a l Ha Hl IH]; [done|]. cbn. unfold plain_char in Ha. bool_hyps.
  destruct (encode_rune1 a) as [-> _]; [lia|]. simpl. f_equal. exact IH.
Qed.

Lemma parse_string_plain s rest :
  plain s → parse_string (render_string s ++ rest) = Some (s, rest).
Proof.
  intros Hs. rewrite render_plain by done. cbn. rewrite <-app_assoc. simpl.
  rewrite parse_chars_plain by done. cbn. by rewrite to_valid_plain, of_to_bytes.
Qed.

(** ** Lemmas: flat objects *)

(** A string or an integer, and an object of such members with plain names:
    what the cursors of the services are. *)
Definition flat_value (v : json) : Prop :=
  match v with JStr s => plain s | JNum n => ∃ z, n = FormatInt z | _ => False end.
Definition flat (l : list (string * json)) : Prop := Forall (λ f, plain f.1 ∧ flat_value f.2) l.

Lemma skip_ws_char a l : is_ws a = false → skip_ws (a :: l) = a :: l.
Proof. intros Ha. simpl. by rewrite Ha. Qed.

Lemma skip_ws_string s l : plain s → skip_ws (render_string s ++ l) = render_string s ++ l.
Proof. intros Hs. rewrite render_plain by done. simpl. done. Qed.

Lemma number_head s : re_lang number_re s → ∃ a l, s = a :: l ∧ (is_digit a = true ∨ a = "-"%char).
Proof.
  intros H. unfold number_re in H.
  apply seq_lang in H as (x & y & -> & Hx & (u & v & -> & Hu & _)%seq_lang).
  apply opt_lang in Hx as [->|Hx].
  - assert (∃ a u', u = a :: u' ∧ is_digit a = true) as (a & u' & -> & Ha).
    { unfold semver_number in Hu. inversion Hu as [| | |? ? ? Hc|? ? ? Hc| |]; subst.
      - apply class_lang in Hc as (a & -> & Ha). apply Ascii.eqb_eq in Ha as <-. by exists "0"%char, [].
      - apply seq_lang in Hc as (p & q & -> & (a & -> & Ha)%class_lang & _). exists a, q. split; [done|].
        unfold is_digit, in_range in *. apply andb_true_iff in Ha as [H1%N.leb_le H2%N.leb_le].
        apply andb_true_iff. split; apply N.leb_le; [|done]. etrans; [|exact H1]. done. }
    exists a, (u' ++ v). split; [done|by left].
  - apply class_lang in Hx as (a & -> & Ha). apply Ascii.eqb_eq in Ha as <-.
    exists "-"%char, (u ++ v). split; [done|by right].
Qed.

Lemma FormatInt_head z : ∃ a l, to_bytes (FormatInt z) = a :: l ∧ (is_digit a = true ∨ a = "-"%char).
Proof. apply number_head, FormatInt_number. Qed.

(** The leading byte of a number selects the last case of the parser. *)
Definition starts_number (a : ascii) : bool :=
  negb (is_ws a) && negb (Ascii.eqb a quote) && negb (Ascii.eqb a "{") && negb (Ascii.eqb a "[")
  && negb (Ascii.eqb a "t") && negb (Ascii.eqb a "f") && negb (Ascii.eqb a "n").

Lemma digit_starts a : is_digit a = true ∨ a = "-"%char → starts_number a = true.
Proof.
  intros [Ha| ->]; [|done]. 
  assert (∀ b, is_digit b = false → a ≠ b) as Hne by (intros b Hb ->; congruence).
  unfold starts_number. assert (is_ws a = false) as ->.
  { unfold is_digit, in_range in Ha. apply andb_true_iff in Ha as [H1%N.leb_le H2%N.leb_le].
    unfold is_ws, byte_Z. simpl in H1, H2. lia. }
  repeat match goal with |- context [Ascii.eqb a ?b] =>
    rewrite (proj2 (Ascii.eqb_neq a b)) by (by apply Hne) end. done.
Qed.

Lemma parse_flat_value fuel depth v b rest :
  flat_value v → number_char b = false →
  parse_value (S fuel) depth (render v ++ b :: rest) = Some (v, b :: rest).
Proof.
  intros Hv Hb. destruct v as [| |n|s| |]; try done; simpl in Hv.
  - destruct Hv as [z ->]. pose proof (parse_number_FormatInt z b rest Hb) as Hp. cbn [render].
    destruct (FormatInt_head z) as (a & l & Heq & Ha%digit_starts). rewrite Heq in *.
    unfold starts_number in Ha. bool_hyps. cbn [parse_value app] in *.
    rewrite skip_ws_char by done.
    repeat match goal with H : Ascii.eqb a _ = false |- _ => rewrite H; clear H end.
    rewrite Hp. done.
  - cbn [render parse_value]. rewrite skip_ws_string by done.
    pose proof (parse_string_plain s (b :: rest) Hv) as Hp. rewrite render_plain in * by done.
    cbn [app] in *. rewrite Ascii.eqb_refl, Hp. done.
Qed.

Lemma commas_cons {A} (f : A → bytes) x y l :
  commas (map f (x :: y :: l)) = f x ++ ","%char :: commas (map f (y :: l)).
Proof. done. Qed.

Definition member_bytes (f : string * json) : bytes := render_string f.1 ++ ":"%char :: render f.2.

Lemma parse_flat_members l fuel depth rest :
  flat l → l ≠ [] → (length l + 1 ≤ fuel)%nat →
  parse_members fuel depth (commas (map member_bytes l) ++ "}"%char :: rest) = Some (l, rest).
Proof.
  intros Hl. revert fuel. induction Hl as [|[k v] l [Hk Hv] Hl IH]; intros fuel Hne Hfuel; [done|].
  destruct fuel as [|[|fuel]]; simpl in Hfuel; [lia|lia|]. simpl in Hk, Hv.
  assert (∀ b rest', number_char b = false → is_ws b = false →
    parse_members (S (S fuel)) depth (member_bytes (k, v) ++ b :: rest') =
      (if Ascii.eqb b "}" then Some ([(k, v)], rest')
       else if Ascii.eqb b "," then '(ms, r) ← parse_members (S fuel) depth rest'; Some ((k, v) :: ms, r)
       else None)) as Hstep.
  { intros b rest' Hb Hws. cbn [parse_members]. unfold member_bytes. simpl fst. simpl snd.
    rewrite <-app_assoc, skip_ws_string, parse_string_plain by done. cbn [mbind option_bind app].
    rewrite skip_ws_char by done. cbn [negb Ascii.eqb Bool.eqb].
    rewrite parse_flat_value by done. cbn [mbind option_bind]. by rewrite skip_ws_char. }
  destruct l as [|f l].
  - cbn [map commas]. by rewrite Hstep.
  - rewrite commas_cons, <-app_assoc. cbn [app]. rewrite Hstep by done.
    cbn [Ascii.eqb Bool.eqb]. rewrite IH; [done|done|]. simpl in *. lia.
Qed.

Lemma length_commas (l : list bytes) : (length l ≤ S (length (commas l)))%nat.
Proof.
  induction l as [|x l IH]; simpl; [lia|]. destruct l as [|y l]; simpl in *; [lia|].
  rewrite length_app. simpl. lia.
Qed.

(** A flat object is parsed back from its rendering. *)
Lemma parse_flat l : flat l → parse (Marshal (JObj l)) = Some (JObj l).
Proof.
  intros Hl. unfold parse, Marshal. cbn [render]. fold member_bytes.
  set (body := commas (map member_bytes l) ++ ["}"%char]).
  cbn [parse_value length]. rewrite skip_ws_char by done. cbn [Ascii.eqb Bool.eqb].
  destruct l as [|[k v] l]; [done|].
  assert (∃ c t, body = c :: t ∧ Ascii.eqb c "}" = false ∧ is_ws c = false) as (c & t & Hbody & Hc & Hw).
  { apply Forall_cons in Hl as [[Hk _] _]. simpl in Hk.
    assert (∃ t, commas (map member_bytes ((k, v) :: l)) = quote :: t) as [t Ht].
    { destruct l; cbn [map commas]; unfold member_bytes; simpl fst; rewrite render_plain by done; eexists; reflexivity. }
    exists quote, (t ++ ["}"%char]). unfold body. by rewrite Ht. }
  rewrite Hbody. rewrite skip_ws_char by done. rewrite Hc, <-Hbody.
  rewrite (proj2 (Z.leb_gt max_depth 0)) by (unfold max_depth; lia).
  rewrite (parse_flat_members ((k, v) :: l) _ _ []); [done|done|done|].
  pose proof (length_commas (map member_bytes ((k, v) :: l))) as Hlen.
  rewrite length_map in Hlen. unfold body. rewrite length_app. simpl length in *. lia.
Qed.

(** ** Lemmas: sizes of integers *)

Lemma of_uint_acc_ge d acc :
  (Z.pos acc * 10 ^ slen (NilEmpty.string_of_uint d) ≤ Z.pos (Pos.of_uint_acc d acc)).
Proof.
  assert (∀ a s, slen (String a s) = slen s + 1) as Hs by (intros; unfold slen; simpl; lia).
  revert acc. induction d as [|d IH|d IH|d IH|d IH|d IH|d IH|d IH|d IH|d IH|d IH]; intros acc;
    cbn [NilEmpty.string_of_uint Pos.of_uint_acc]; [unfold slen; simpl; lia|..];
    rewrite Hs, Z.pow_add_r by (unfold slen; lia); (etrans; [|apply IH]); lia.
Qed.

Lemma slen_FormatInt z k : 0 < k → 0 ≤ z < 10 ^ k → slen (FormatInt z) ≤ k.
Proof.
  intros Hk Hz. pose proof (DecimalZ.of_to z) as Hof. pose proof (Z_to_int_norm z) as Hn.
  unfold FormatInt. destruct (Z.to_int z) as [d|d] eqn:Hd.
  2: { destruct z as [|p|p]; simpl in Hd; try discriminate Hd. lia. }
  simpl in *. unfold Z.of_uint in Hof. injection Hn as Hn. unfold Decimal.unorm in Hn.
  assert (∀ a s, slen (String a s) = slen s + 1) as Hs by (intros; unfold slen; simpl; lia).
  assert (∀ c acc d, Z.pos (Pos.of_uint_acc d acc) = z → slen (String c (NilEmpty.string_of_uint d)) ≤ k) as Hacc.
  { intros c acc d' Heq. rewrite Hs. pose proof (of_uint_acc_ge d' acc) as Hge. rewrite Heq in Hge.
    destruct (Z.le_gt_cases (slen (NilEmpty.string_of_uint d') + 1) k) as [|Hgt]; [done|].
    assert (10 ^ k ≤ 10 ^ slen (NilEmpty.string_of_uint d')) by (apply Z.pow_le_mono_r; lia). nia. }
  destruct d as [|d|d|d|d|d|d|d|d|d|d]; cbn [NilZero.string_of_uint NilEmpty.string_of_uint];
    [unfold slen; simpl; lia| |by apply (Hacc _ _ d Hof)..].
  simpl in Hn. destruct (Decimal.nzhead d) as [|d'|d'|d'|d'|d'|d'|d'|d'|d'|d'] eqn:Hz'; try discriminate Hn.
  - injection Hn as <-. unfold slen. simpl. lia.
  - by destruct (nzhead_nonzero d d').
Qed.
