(* ===== verification/Text.v ===== *)
(** * Unicode text operations the sources import

    [golang.org/x/text] (normalisation and case folding) is not part of the
    repository and Go's Unicode category tables are data: both are interfaces
    here, with the documented laws the theorems use and an ASCII
    implementation of them for concrete runs. *)
From Stdlib Require Import Ascii String.
From S2P Require Import Prelude GoStrings Sha256 Utf8 Regex.
Local Open Scope string_scope.
Local Open Scope list_scope.
Local Open Scope Z_scope.

(** [norm.NFC.String], [norm.NFKC.String] and [cases.Fold().String] *)
Class TextOps := {
  NFC : string → string;
  NFKC : string → string;
  Fold : string → string;
}.

(** [unicode.IsLetter], [IsNumber], [IsDigit], [IsLower] and [IsUpper] *)
Class UnicodeTables := {
  IsLetter : Z → bool;
  IsNumber : Z → bool;
  IsDigit : Z → bool;
  IsLower : Z → bool;
  IsUpper : Z → bool;
}.

(** Printable ASCII text in lower case. *)
Definition lower_ascii (s : string) : Prop :=
  Forall (λ a, 33 ≤ byte_Z a < 127 ∧ is_upper a = false) (to_bytes s).

(** Normalisation is idempotent, keeps strings valid, and leaves ASCII text
    alone; folding leaves lower-case ASCII text alone. *)
Class TextLaws `{TextOps} : Prop := {
  NFC_idem s : NFC (NFC s) = NFC s;
  NFC_valid s : ValidString s = true → ValidString (NFC s) = true;
  NFC_ascii s : Forall (λ a, byte_Z a < 128) (to_bytes s) → NFC s = s;
  Fold_ascii s : lower_ascii s → Fold s = s;
}.

(** ** The ASCII fragment *)

Definition ascii_lower (a : ascii) : ascii :=
  if is_upper a then Z_byte (byte_Z a + 32) else a.
Definition ascii_fold (s : string) : string := of_bytes (map ascii_lower (to_bytes s)).

Definition ascii_text : TextOps := {| NFC s := s; NFKC s := s; Fold := ascii_fold |}.

Definition ascii_tables : UnicodeTables := {|
  IsLetter r := ((65 <=? r) && (r <=? 90)) || ((97 <=? r) && (r <=? 122));
  IsNumber r := (48 <=? r) && (r <=? 57);
  IsDigit r := (48 <=? r) && (r <=? 57);
  IsLower r := (97 <=? r) && (r <=? 122);
  IsUpper r := (65 <=? r) && (r <=? 90);
|}.

Lemma ascii_text_laws : @TextLaws ascii_text.
Proof.
  split; simpl; try done. intros s Hs. unfold ascii_fold. rewrite <-(of_to_bytes s) at 2. f_equal.
  unfold lower_ascii in Hs. induction (to_bytes s) as [|a l IH]; [done|].
  apply Forall_cons in Hs as [[_ Ha] Hs]. simpl. unfold ascii_lower at 1. rewrite Ha. f_equal. by apply IH.
Qed.
