(* ===== verification/Cursor.v ===== *)
(** * Sealed cursors

    The tokens [catalog.go] and [describe.go] hand out: a kind, a version, a
    base64 payload and the base64 HMAC-SHA-256 of what precedes it under the
    store's key. *)
From Stdlib Require Import Ascii String.
From S2P Require Import Prelude GoStrings Sha256 Regex Utf8 Base64 Json Limits.
Local Open Scope string_scope.
Local Open Scope list_scope.
Local Open Scope Z_scope.

(** The token of a payload, and the payload of a token whose MAC is right. *)
Definition token_prefix (kind encoded : string) : string := kind +:+ ":v1:" +:+ encoded.

Definition seal (kind : string) (key payload : bytes) : string :=
  let encoded := RawURLEncode payload in
  token_prefix kind encoded +:+ ":" +:+
  RawURLEncode (hmac_sha256 key (to_bytes (token_prefix kind encoded))).

Definition unseal (kind : string) (key : bytes) (token : string) : option bytes :=
  match Split token ":"%char with
  | [k; v; encoded; mac] =>
      if negb (String.eqb k kind) || negb (String.eqb v "v1") then None
      else
        provided ← RawURLDecode mac;
        if bool_decide (provided = hmac_sha256 key (to_bytes (token_prefix kind encoded)))
        then RawURLDecode encoded
        else None
  | _ => None
  end.

(** ** Lemmas *)

Lemma chars_no_byte s c (p : ascii → bool) :
  Forall (λ a, p a = true) (to_bytes s) → p c = false → ContainsByte s c = false.
Proof.
  intros Hs Hc. induction s as [|a s IH]; [done|]. apply Forall_cons in Hs as [Ha Hs]. simpl.
  apply orb_false_iff. split; [apply Ascii.eqb_neq; congruence|by apply IH].
Qed.

Lemma RawURLEncode_no_colon l : ContainsByte (RawURLEncode l) ":"%char = false.
Proof. apply (chars_no_byte _ _ token_char); [apply RawURLEncode_chars|done]. Qed.

Lemma seal_parts kind key payload :
  ContainsByte kind ":"%char = false →
  Split (seal kind key payload) ":"%char =
    [kind; "v1"; RawURLEncode payload;
     RawURLEncode (hmac_sha256 key (to_bytes (token_prefix kind (RawURLEncode payload))))].
Proof.
  intros Hk. rewrite <-(Split_Join [kind; "v1"; RawURLEncode payload; _] ":"%char); [| |].
  - f_equal. unfold seal, token_prefix. simpl Join. by rewrite !str_app_assoc.
  - done.
  - repeat constructor; try done; apply RawURLEncode_no_colon.
Qed.

(** A token opens to the payload it was made from. *)
Lemma unseal_seal kind key payload :
  ContainsByte kind ":"%char = false → unseal kind key (seal kind key payload) = Some payload.
Proof.
  intros Hk. unfold unseal. rewrite seal_parts by done. rewrite !String.eqb_refl. simpl.
  rewrite (RawURLDecode_Encode (hmac_sha256 _ _)). cbn [mbind option_bind]. rewrite bool_decide_true by done.
  apply RawURLDecode_Encode.
Qed.

(** Only a token that carries the HMAC of its payload part opens. *)
Lemma unseal_inv kind key token payload :
  unseal kind key token = Some payload →
  ∃ encoded mac, token = token_prefix kind encoded +:+ ":" +:+ mac ∧
    RawURLDecode encoded = Some payload ∧
    RawURLDecode mac = Some (hmac_sha256 key (to_bytes (token_prefix kind encoded))).
Proof.
  unfold unseal. pose proof (Join_Split token ":"%char) as Hj.
  destruct (Split token ":"%char) as [|k [|v [|encoded [|mac [|??]]]]]; try done.
  destruct (String.eqb_spec k kind) as [->|]; [|done].
  destruct (String.eqb_spec v "v1") as [->|]; [|done]. simpl.
  destruct (RawURLDecode mac) as [provided|] eqn:Hm; [|done]. simpl.
  destruct (bool_decide_reflect (provided = hmac_sha256 key (to_bytes (token_prefix kind encoded)))) as [->|]; [|done].
  intros Hp. exists encoded, mac. split; [|done]. rewrite <-Hj. unfold token_prefix. simpl.
  by rewrite !str_app_assoc.
Qed.

Lemma slen_seal kind key payload :
  slen (seal kind key payload) = slen kind + (zlen payload * 4 + 2) / 3 + 48.
Proof.
  unfold seal, token_prefix. rewrite !slen_app, !slen_RawURLEncode.
  assert (zlen (hmac_sha256 key (to_bytes (kind +:+ ":v1:" +:+ RawURLEncode payload))) = 32) as ->
    by (unfold zlen; by rewrite length_hmac_sha256).
  unfold slen. simpl. Z.to_euclidean_division_equations; lia.
Qed.

(** ** Opaque identifiers *)

(** The outcomes of [io.ReadFull(random, value[:])]: 16 bytes, or a failure. *)
Abbreviation draw := (option bytes).
Definition draw_ok (d : draw) : Prop := ∀ b, d = Some b → length b = 16%nat.

Definition randomOpaqueID (d : draw) : option string := RawURLEncode <$> d.

Definition readHandleCollisionAttempts : nat := 4.

(** The loop shared by both [newUniqueIDLocked]: up to four attempts, each
    with the next outcome of the random source. *)
Fixpoint unique_id {A} (attempts : nat) (taken : gmap string A) (draws : list draw) : result error string :=
  match attempts with
  | O => Err (Wrapf "%w: repeated collision" [] ErrHandleGeneration)
  | S attempts =>
      match draws with
      | Some b :: draws =>
          let id := RawURLEncode b in
          match taken !! id with
          | None => Ok id
          | Some _ => unique_id attempts taken draws
          end
      | _ => Err (Wrapf "%w: random source failed" [] ErrHandleGeneration)
      end
  end.

Lemma unique_id_Ok {A} n (taken : gmap string A) draws id :
  unique_id n taken draws = Ok id → taken !! id = None ∧ ∃ b, Some b ∈ draws ∧ id = RawURLEncode b.
Proof.
  revert draws. induction n as [|n IH]; intros draws; simpl; [done|].
  destruct draws as [|[b|] draws]; try done. destruct (taken !! RawURLEncode b) eqn:Ht.
  - intros (? & b' & ? & ?)%IH. split; [done|]. exists b'. split; [by right|done].
  - intros [= <-]. split; [done|]. exists b. split; [by left|done].
Qed.

(** Token characters need no JSON escape. *)
Lemma token_char_plain a : token_char a = true → plain_char a = true.
Proof.
  assert (∀ n, (n < 256)%nat → token_char (ascii_of_nat n) = true → plain_char (ascii_of_nat n) = true) as H.
  { assert (Forall (λ n, token_char (ascii_of_nat n) = true → plain_char (ascii_of_nat n) = true) (seq 0 256)) as HF.
    { apply (bool_decide_unpack _). vm_compute. exact I. }
    intros n Hn. rewrite Forall_forall in HF. apply HF. apply elem_of_seq. lia. }
  rewrite <-(ascii_nat_embedding a). apply H. apply nat_ascii_bounded.
Qed.

Lemma RawURLEncode_plain l : plain (RawURLEncode l).
Proof.
  unfold plain. eapply Forall_impl; [apply RawURLEncode_chars|]. intros a. apply token_char_plain.
Qed.

(** Neither does base64 with padding. *)
Lemma b64_std_plain v : 0 ≤ v < 64 → plain_char (b64_char "+" "/" v) = true.
Proof.
  intros Hv. assert (v ∈ seqZ 0 64) as Hin by (apply elem_of_seqZ; lia). revert v Hv Hin.
  assert (Forall (λ v, plain_char (b64_char "+" "/" v) = true) (seqZ 0 64)) as H
    by (apply (bool_decide_unpack _); vm_compute; exact I).
  rewrite Forall_forall in H. auto.
Qed.

Lemma StdEncode_plain l : plain (StdEncode l).
Proof.
  unfold plain, StdEncode. rewrite to_of_bytes.
  assert (∀ vs, Forall (λ v, 0 ≤ v < 64) vs → Forall (λ a, plain_char a = true) (map (b64_char "+" "/") vs)) as Hm.
  { intros vs Hvs. apply Forall_fmap. eapply Forall_impl; [done|]. intros v Hv. by apply b64_std_plain. }
  assert (∀ vs, Forall (λ v, 0 ≤ v < 64) vs → Forall (λ a, plain_char a = true) (pad_four (map (b64_char "+" "/") vs))) as Hp.
  { intros vs Hvs. unfold pad_four. apply Forall_app. split; [by apply Hm|].
    apply Forall_forall. intros a Ha. apply list_elem_of_In, repeat_spec in Ha. by subst. }
  induction l as [|a|a b|a b c l IH] using bytes_ind3; cbn [b64_encode]; [constructor|apply Hp|apply Hp|apply Forall_app; split; [apply Hm|done]].
  all: pose proof (byte_Z_range a); try pose proof (byte_Z_range b); try pose proof (byte_Z_range c);
    unfold b64_group1, b64_group2, b64_group3; repeat constructor; Z.to_euclidean_division_equations; lia.
Qed.

(** ** Sizes of rendered strings *)

Lemma escape_chunk_size c : chunk_ok c → (length (escape_chunk c) ≤ 6 * length (ch_bytes c))%nat.
Proof.
  intros Hc. assert (1 ≤ length (ch_bytes c))%nat as Hl.
  { unfold chunk_ok in Hc. destruct (ch_valid c); [|lia]. destruct Hc as [<- _]. unfold encode_rune.
    repeat (destruct (_ <? _)); simpl; lia. }
  unfold escape_chunk. repeat (destruct (negb _) || destruct (_ =? _) || destruct (_ <? _)); simpl; lia.
Qed.

(** A rendered string takes at most six bytes for each of its own. *)
Lemma render_string_size s : zlen (render_string s) ≤ 6 * slen s + 2.
Proof.
  unfold render_string, zlen. destruct (decode_spec (to_bytes s)) as [Hj Hc]. simpl. rewrite length_app. simpl.
  assert (length (flat_map escape_chunk (decode (to_bytes s))) ≤ 6 * length (to_bytes s))%nat as Hle.
  { rewrite <-Hj at 2. clear Hj. induction Hc as [|c l Hc Hl IH]; [simpl; lia|].
    cbn [flat_map map]. change (mjoin (ch_bytes c :: map ch_bytes l)) with (ch_bytes c ++ mjoin (map ch_bytes l)).
    rewrite !length_app. pose proof (escape_chunk_size c Hc). lia. }
  pose proof (slen_to_bytes s). unfold zlen, slen in *. lia.
Qed.

Lemma render_plain_size s : plain s → zlen (render_string s) = slen s + 2.
Proof.
  intros Hp. rewrite render_plain by done. pose proof (slen_to_bytes s). unfold zlen in *. simpl.
  rewrite length_app. simpl. lia.
Qed.

(** The size of an object, member by member. *)
Definition members_size (l : list (string * json)) : Z :=
  foldr (λ f acc, zlen (render_string f.1) + marshal_size f.2 + 2 + acc) 2 l.

Lemma object_size l : marshal_size (JObj l) ≤ members_size l.
Proof.
  change (marshal_size (JObj l)) with (zlen ("{"%char :: commas (map member_bytes l) ++ ["}"%char])).
  assert (zlen (commas (map member_bytes l)) + 2 ≤ members_size l) as Hle.
  { unfold members_size. induction l as [|x l IH]; [done|]. cbn [map foldr].
    assert (zlen (member_bytes x) = zlen (render_string x.1) + marshal_size x.2 + 1) as Hx.
    { unfold member_bytes, marshal_size, Marshal, zlen. rewrite length_app. simpl. lia. }
    destruct (map member_bytes l) as [|y ys]; [cbn [commas] in *; change (zlen (@nil ascii)) with 0 in IH; lia|].
    change (commas (member_bytes x :: y :: ys)) with (member_bytes x ++ [","%char] ++ commas (y :: ys)).
    rewrite !zlen_app. change (zlen [","%char]) with 1. lia. }
  unfold zlen in *. cbn [length]. rewrite length_app. simpl in *. lia.
Qed.

Lemma members_size_app l1 l2 : members_size (l1 ++ l2) = members_size l1 + members_size l2 - 2.
Proof. unfold members_size. induction l1 as [|x l1 IH]; cbn [app foldr]; [lia|]. rewrite IH. lia. Qed.

Lemma members_size_omit k s : members_size (omit_string k s) ≤ zlen (render_string k) + 6 * slen s + 6.
Proof.
  unfold omit_string. pose proof (zlen_nonneg (render_string k)). pose proof (slen_nonneg s).
  destruct (String.eqb s ""); unfold members_size; cbn [foldr fst snd]; [lia|].
  pose proof (render_string_size s). unfold marshal_size, Marshal. cbn [render]. lia.
Qed.
