(* ===== verification/GoTime.v ===== *)
(** * Formatting of instants

    [time.Time.UTC().Format(time.RFC3339Nano)] of an instant given in
    nanoseconds since the Unix epoch: the proleptic Gregorian date of its day
    and the time of day, with the trailing zeros of the fraction removed. *)
From Stdlib Require Import Ascii String.
From S2P Require Import Prelude GoStrings Limits Sha256 Regex Utf8 Json.
Local Open Scope string_scope.
Local Open Scope list_scope.
Local Open Scope Z_scope.

(** ** Definitions *)

(** Year, month and day of a day number, 1970-01-01 being day 0: years begin
    in March, in eras of 400 years. *)
Definition civil (day : Z) : Z * Z * Z :=
  let z := day + 719468 in
  let era := z / 146097 in
  let doe := z mod 146097 in
  let yoe := (doe - doe / 1460 + doe / 36524 - doe / 146096) / 365 in
  let doy := doe - (365 * yoe + yoe / 4 - yoe / 100) in
  let mp := (5 * doy + 2) / 153 in
  let d := doy - (153 * mp + 2) / 5 + 1 in
  let m := if mp <? 10 then mp + 3 else mp - 9 in
  let y := yoe + era * 400 in
  (if m <=? 2 then y + 1 else y, m, d).

(** A natural number in at least [width] digits. *)
Fixpoint zeros (n : nat) : string := match n with O => "" | S n => String "0" (zeros n) end.
Definition pad (width : nat) (z : Z) : string :=
  let s := FormatInt z in zeros (width - String.length s) +:+ s.
(** [appendInt(b, year, 4)] *)
Definition pad_year (y : Z) : string := if y <? 0 then "-" +:+ pad 4 (- y) else pad 4 y.

Fixpoint trim_zeros_rev (l : bytes) : bytes :=
  match l with a :: l' => if Ascii.eqb a "0" then trim_zeros_rev l' else l | [] => [] end.
Definition fraction (nanos : Z) : string :=
  if nanos =? 0 then ""
  else "." +:+ of_bytes (rev (trim_zeros_rev (rev (to_bytes (pad 9 nanos))))).

Definition RFC3339Nano (t : Time) : string :=
  let secs := t / Second in
  let day := secs / 86400 in
  let tod := secs mod 86400 in
  let '(y, m, d) := civil day in
  pad_year y +:+ "-" +:+ pad 2 m +:+ "-" +:+ pad 2 d +:+ "T" +:+ pad 2 (tod / 3600) +:+ ":"
  +:+ pad 2 (tod / 60 mod 60) +:+ ":" +:+ pad 2 (tod mod 60) +:+ fraction (t mod Second) +:+ "Z".

Example rfc_epoch : RFC3339Nano 0 = "1970-01-01T00:00:00Z".
Proof. by vm_compute. Qed.
Example rfc_leap : RFC3339Nano (1709210096 * Second + 120000000) = "2024-02-29T12:34:56.12Z".
Proof. by vm_compute. Qed.
Example rfc_before : RFC3339Nano (- Second) = "1969-12-31T23:59:59Z".
Proof. by vm_compute. Qed.

(** ** Lemmas *)

Lemma slen_zeros n : slen (zeros n) = Z.of_nat n.
Proof. unfold slen. induction n; simpl; lia. Qed.

Lemma slen_pad width z k : 0 < k → 0 ≤ z < 10 ^ k → slen (pad width z) ≤ Z.max (Z.of_nat width) k.
Proof.
  intros Hk Hz. unfold pad. rewrite slen_app, slen_zeros.
  pose proof (slen_FormatInt z k Hk Hz) as H. unfold slen in *. lia.
Qed.

Lemma length_trim_zeros l : (length (trim_zeros_rev l) ≤ length l)%nat.
Proof. induction l as [|a l IH]; simpl; [done|]. destruct (Ascii.eqb a "0"); simpl; lia. Qed.

Lemma slen_of_bytes l : slen (of_bytes l) = zlen l.
Proof. by rewrite <-slen_to_bytes, to_of_bytes. Qed.

Lemma slen_fraction n : 0 ≤ n < Second → slen (fraction n) ≤ 10.
Proof.
  intros Hn. unfold fraction. destruct (n =? 0); [done|]. rewrite slen_app, slen_of_bytes.
  pose proof (length_trim_zeros (rev (to_bytes (pad 9 n)))) as Ht. unfold zlen. rewrite length_rev in *.
  pose proof (slen_to_bytes (pad 9 n)) as Hs.
  assert (slen (pad 9 n) ≤ 9) by (apply (slen_pad 9 n 9); unfold Second in *; lia).
  change (slen ".") with 1. unfold zlen in *. lia.
Qed.

(** The day of the year of a day of an era. *)
Lemma doy_range doe q1 q2 q3 yoe y4 y100 :
  0 ≤ doe < 146097 →
  1460 * q1 ≤ doe < 1460 * q1 + 1460 → 36524 * q2 ≤ doe < 36524 * q2 + 36524 →
  146096 * q3 ≤ doe < 146096 * q3 + 146096 → 365 * yoe ≤ doe - q1 + q2 - q3 < 365 * yoe + 365 →
  4 * y4 ≤ yoe < 4 * y4 + 4 → 100 * y100 ≤ yoe < 100 * y100 + 100 →
  0 ≤ yoe < 400 ∧ 0 ≤ doe - (365 * yoe + y4 - y100) ≤ 366.
Proof.
  intros.
  assert (q2 = 0 ∨ q2 = 1 ∨ q2 = 2 ∨ q2 = 3 ∨ q2 = 4) as Hq2 by lia.
  assert (q3 = 0 ∨ q3 = 1) as Hq3 by lia.
  assert (y100 = 0 ∨ y100 = 1 ∨ y100 = 2 ∨ y100 = 3) as Hy by lia.
  destruct Hq2 as [->|[->|[->|[->| ->]]]]; destruct Hq3 as [->| ->]; destruct Hy as [->|[->|[->| ->]]]; lia.
Qed.

Lemma div_range a b : 0 < b → b * (a / b) ≤ a < b * (a / b) + b.
Proof. intros. Z.to_euclidean_division_equations; lia. Qed.

(** The ranges of a date's parts, for the days an [int64] of nanoseconds after
    the epoch can name. *)
Lemma civil_ranges day y m d :
  0 ≤ day < 10 ^ 6 → civil day = (y, m, d) → 0 ≤ y < 10 ^ 4 ∧ 0 ≤ m < 10 ^ 2 ∧ 0 ≤ d < 10 ^ 2.
Proof.
  intros Hday. unfold civil.
  set (z := day + 719468). set (doe := z mod 146097).
  set (yoe := (doe - doe / 1460 + doe / 36524 - doe / 146096) / 365).
  set (doy := doe - (365 * yoe + yoe / 4 - yoe / 100)).
  assert (0 ≤ doe < 146097) by (apply Z.mod_pos_bound; lia).
  destruct (doy_range doe (doe / 1460) (doe / 36524) (doe / 146096) yoe (yoe / 4) (yoe / 100)) as [Hyoe Hdoy];
    [done|by apply div_range..|]. fold doy in Hdoy.
  assert (z = day + 719468) as Hz by done. pose proof (div_range z 146097 ltac:(lia)) as Hera.
  change (10 ^ 6) with 1000000 in Hday.
  assert (0 ≤ z / 146097 ≤ 12) by (clear -Hera Hz Hday; lia).
  clearbody doy yoe.
  assert (0 ≤ (5 * doy + 2) / 153 ≤ 12) by (Z.to_euclidean_division_equations; lia).
  assert (0 ≤ doy - (153 * ((5 * doy + 2) / 153) + 2) / 5 + 1 ≤ 40) by (Z.to_euclidean_division_equations; lia).
  intros [= <- <- <-].
  destruct (_ <? 10) eqn:E1; destruct (_ <=? 2) eqn:E2; bool_hyps; lia.
Qed.

(** An instant of the years the [int64] nanoseconds since the epoch cover
    takes at most 30 bytes. *)
Lemma slen_RFC3339Nano t : 0 ≤ t ≤ MaxInt64 → slen (RFC3339Nano t) ≤ 30.
Proof.
  intros Ht. unfold RFC3339Nano. destruct (civil (t / Second / 86400)) as [[y m] d] eqn:Hc.
  apply civil_ranges in Hc as (Hy & Hm & Hd).
  2: { unfold Second, MaxInt64 in *. Z.to_euclidean_division_equations; lia. }
  unfold pad_year. rewrite (proj2 (Z.ltb_ge y 0)) by lia.
  rewrite !slen_app.
  pose proof (slen_pad 4 y 4 ltac:(lia) Hy). pose proof (slen_pad 2 m 2 ltac:(lia) Hm). pose proof (slen_pad 2 d 2 ltac:(lia) Hd).
  set (tod := t / Second mod 86400). assert (0 ≤ tod < 86400) by (apply Z.mod_pos_bound; lia).
  assert (slen (pad 2 (tod / 3600)) ≤ 2) by (apply (slen_pad 2 _ 2); Z.to_euclidean_division_equations; lia).
  assert (slen (pad 2 (tod / 60 mod 60)) ≤ 2) by (apply (slen_pad 2 _ 2); Z.to_euclidean_division_equations; lia).
  assert (slen (pad 2 (tod mod 60)) ≤ 2) by (apply (slen_pad 2 _ 2); Z.to_euclidean_division_equations; lia).
  pose proof (slen_fraction (t mod Second) ltac:(apply Z.mod_pos_bound; unfold Second; lia)).
  change (slen "-") with 1. change (slen "T") with 1. change (slen ":") with 1. change (slen "Z") with 1. lia.
Qed.
