(* ===== verification/Snapshot.v ===== *)
(** * The content-addressed snapshot store

    Models [internal/capability/snapshot.go]: staging transactions that
    reserve quota and copy artifact bytes, the commit that publishes them as
    reference-counted content objects, and the snapshots and artifact leases
    that retain those objects. Every method of the Go type runs under
    [store.mu] or on an unshared transaction, so a method is one atomic step;
    [World] is the heap the objects live in and [exec] the interleaving of
    steps by any number of callers. *)
From S2P Require Import Prelude GoStrings Limits Sha256.
From stdpp Require Import relations.
Local Open Scope Z_scope.

(** ** Data *)

Record StoreLimits := mkStoreLimits { StagingBytes : Z; SnapshotBytes : Z }.

Definition DefaultStoreLimits : StoreLimits :=
  {| StagingBytes := Z.shiftl 256 20; SnapshotBytes := Z.shiftl 1 30 |}.

Record snapshotObject := mkObject { obj_data : bytes; obj_refs : Z }.

Record SnapshotStore := mkStore {
  ss_limits : StoreLimits;
  ss_stagingReserved : Z;
  ss_snapshotReserved : Z;
  ss_snapshotUsed : Z;
  ss_objects : gmap bytes snapshotObject;
}.

Record stagedArtifact := mkStaged { sa_data : bytes; sa_digest : bytes }.

Record stagingTransaction := mkTx {
  tx_reserved : Z;
  tx_artifacts : gmap string stagedArtifact;
  tx_closed : bool;
  tx_packageSize : Z;
}.

(** [Snapshot] and [artifactLease]; the boolean is the state of the
    [sync.Once] that guards [release]. *)
Record Snapshot := mkSnapshot { snap_digests : gmap string bytes; snap_once : bool }.
Record artifactLease := mkLease { lease_digest : bytes; lease_once : bool }.

(** An [io.Reader] over a file: the bytes it yields, then EOF or an error. *)
Record reader := mkReader { rd_content : bytes; rd_err : option error }.

Global Instance snapshotObject_eq_dec : EqDecision snapshotObject.
Proof. solve_decision. Defined.
Global Instance stagedArtifact_eq_dec : EqDecision stagedArtifact.
Proof. solve_decision. Defined.

(** ** Construction *)

Definition NewSnapshotStore (limits : StoreLimits) : result error SnapshotStore :=
  fail_if (StagingBytes limits <=? 0) || (SnapshotBytes limits <=? 0)
    with ErrorNew "snapshot store limits must be positive" else
  Ok (mkStore limits 0 0 0 ∅).

Definition begin : stagingTransaction := mkTx 0 ∅ false 0.

(** ** Staging *)

Definition reserve (st : SnapshotStore) (t : stagingTransaction) (size : Z) :
    result error (SnapshotStore * stagingTransaction) :=
  fail_if size <? 0 with ErrorNew "negative artifact size" else
  fail_if wrap64 (tx_packageSize t + size) >? PackageArtifactMax
    with Errorf "package artifacts exceed %d bytes" [FInt PackageArtifactMax] else
  fail_if wrap64 (ss_stagingReserved st + size) >? StagingBytes (ss_limits st)
    with ErrorNew "staging quota exhausted" else
  fail_if wrap64 (wrap64 (ss_snapshotUsed st + ss_snapshotReserved st) + size)
          >? SnapshotBytes (ss_limits st)
    with ErrorNew "snapshot quota exhausted" else
  Ok (mkStore (ss_limits st) (wrap64 (ss_stagingReserved st + size))
        (wrap64 (ss_snapshotReserved st + size)) (ss_snapshotUsed st) (ss_objects st),
      mkTx (wrap64 (tx_reserved t + size)) (tx_artifacts t) (tx_closed t)
        (wrap64 (tx_packageSize t + size))).

(** [io.ReadAll(io.LimitReader(r, n))] *)
Definition read_limited (r : reader) (n : Z) : result error bytes :=
  if n <=? 0 then Ok []
  else if n <=? zlen (rd_content r) then Ok (take (Z.to_nat n) (rd_content r))
  else match rd_err r with
       | Some e => Err e
       | None => Ok (rd_content r)
       end.

Definition stageReserved (t : stagingTransaction) (name : string) (rd : reader)
    (declaredSize maximum : Z) : result error stagingTransaction :=
  fail_if tx_closed t with ErrorNew "staging transaction is closed" else
  fail_if (declaredSize <? 0) || (declaredSize >? maximum)
    with Errorf "declared artifact size %d exceeds %d" [FInt declaredSize; FInt maximum] else
  fail_if bool_decide (is_Some (tx_artifacts t !! name))
    with Errorf "artifact path %q is staged more than once" [FStr name] else
  match read_limited rd (wrap64 (declaredSize + 1)) with
  | Err e => Err (Wrapf "copy staged bytes: %w" [] e)
  | Ok data =>
      fail_if zlen data >? declaredSize
        with Errorf "artifact grew beyond its %d-byte reservation" [FInt declaredSize] else
      fail_if negb (zlen data =? declaredSize)
        with Errorf "artifact changed size during staging: expected %d bytes, copied %d"
               [FInt declaredSize; FInt (zlen data)] else
      fail_if zlen data >? maximum
        with Errorf "artifact exceeds %d bytes" [FInt maximum] else
      Ok (mkTx (tx_reserved t) (<[name := mkStaged data (sha256 data)]> (tx_artifacts t))
            (tx_closed t) (tx_packageSize t))
  end.

(** [bytes(name)] *)
Definition tx_bytes (t : stagingTransaction) (name : string) : option bytes :=
  sa_data <$> tx_artifacts t !! name.

(** Give a transaction's reservation back to the store. *)
Definition unreserve (st : SnapshotStore) (size : Z) : SnapshotStore :=
  mkStore (ss_limits st) (ss_stagingReserved st - size) (ss_snapshotReserved st - size)
    (ss_snapshotUsed st) (ss_objects st).

Definition abort (st : SnapshotStore) (t : stagingTransaction) :
    SnapshotStore * stagingTransaction :=
  if tx_closed t then (st, t)
  else (unreserve st (tx_reserved t), mkTx (tx_reserved t) ∅ true (tx_packageSize t)).

(** ** Commit *)

(** Bytes the commit would add: the first loop of [commit]. *)
Definition commit_newBytes (st : SnapshotStore) (order : list (string * stagedArtifact)) : Z :=
  foldl (λ n '(_, a), match ss_objects st !! sa_digest a with
                      | None => n + zlen (sa_data a)
                      | Some _ => n
                      end) 0 order.

(** One iteration of the second loop of [commit]. *)
Definition commit_one (st : SnapshotStore) (a : stagedArtifact) : SnapshotStore :=
  match ss_objects st !! sa_digest a with
  | None =>
      mkStore (ss_limits st) (ss_stagingReserved st) (ss_snapshotReserved st)
        (ss_snapshotUsed st + zlen (sa_data a))
        (<[sa_digest a := mkObject (sa_data a) 1]> (ss_objects st))
  | Some o =>
      mkStore (ss_limits st) (ss_stagingReserved st) (ss_snapshotReserved st)
        (ss_snapshotUsed st)
        (<[sa_digest a := mkObject (obj_data o) (obj_refs o + 1)]> (ss_objects st))
  end.

(** [clear(data)]: zero a byte slice in place. *)
Definition cleared (a : stagedArtifact) : stagedArtifact :=
  mkStaged (replicate (length (sa_data a)) (Z_byte 0)) (sa_digest a).

(** The second loop of [commit], which also clears the transaction's private
    copy of every artifact whose content the store already holds. *)
Definition commit_step (acc : SnapshotStore * gmap string stagedArtifact)
    (na : string * stagedArtifact) : SnapshotStore * gmap string stagedArtifact :=
  (commit_one acc.1 na.2,
   match ss_objects acc.1 !! sa_digest na.2 with
   | None => acc.2
   | Some _ => <[na.1 := cleared na.2]> acc.2
   end).

(** [commit]; [order] is the order in which Go's [range] visits
    [t.artifacts], which the language leaves unspecified. *)
Definition commit (order : list (string * stagedArtifact)) (st : SnapshotStore)
    (t : stagingTransaction) : SnapshotStore * stagingTransaction * result error Snapshot :=
  if tx_closed t then (st, t, Err (ErrorNew "staging transaction is closed"))
  else
    let closed arts := mkTx (tx_reserved t) arts true (tx_packageSize t) in
    let digests := sa_digest <$> tx_artifacts t in
    if ss_snapshotUsed st + commit_newBytes st order >? SnapshotBytes (ss_limits st) then
      (unreserve st (tx_reserved t), closed (tx_artifacts t),
       Err (ErrorNew "snapshot quota exhausted at commit"))
    else
      let '(st', arts) := foldl commit_step (st, tx_artifacts t) order in
      (unreserve st' (tx_reserved t), closed arts, Ok (mkSnapshot digests false)).

(** ** Snapshots and leases *)

Definition Snapshot_Read (st : SnapshotStore) (s : Snapshot) (name : string) : option bytes :=
  match snap_digests s !! name with
  | None => None
  | Some d => obj_data <$> ss_objects st !! d
  end.

Definition retain (st : SnapshotStore) (d : bytes) (o : snapshotObject) : SnapshotStore :=
  mkStore (ss_limits st) (ss_stagingReserved st) (ss_snapshotReserved st) (ss_snapshotUsed st)
    (<[d := mkObject (obj_data o) (obj_refs o + 1)]> (ss_objects st)).

Definition acquireArtifact (st : SnapshotStore) (s : Snapshot) (name : string)
    (expectedBytes : Z) (expectedSHA256 : string) : SnapshotStore * option artifactLease :=
  match snap_digests s !! name with
  | None => (st, None)
  | Some d =>
      match ss_objects st !! d with
      | None => (st, None)
      | Some o =>
          if negb (zlen (obj_data o) =? expectedBytes) || negb (String.eqb (hex_encode d) expectedSHA256)
          then (st, None)
          else (retain st d o, Some (mkLease d false))
      end
  end.

(** [readRange]; the arithmetic is [int64]'s. *)
Definition readRange (st : SnapshotStore) (l : artifactLease) (offset maxBytes : Z) : option bytes :=
  if (offset <? 0) || (maxBytes <? 0) then None else
  match ss_objects st !! lease_digest l with
  | None => None
  | Some o =>
      let n := zlen (obj_data o) in
      if offset >? n then None else
      let end0 := wrap64 (offset + maxBytes) in
      let end_ := if (end0 <? offset) || (end0 >? n) then n else end0 in
      Some (take (Z.to_nat (end_ - offset)) (drop (Z.to_nat offset) (obj_data o)))
  end.

(** Drop one reference to an object, freeing it at zero: the body shared by
    [artifactLease.release] and the loop of [Snapshot.release]. *)
Definition dropRef (st : SnapshotStore) (d : bytes) : SnapshotStore :=
  match ss_objects st !! d with
  | None => st
  | Some o =>
      if obj_refs o - 1 =? 0 then
        mkStore (ss_limits st) (ss_stagingReserved st) (ss_snapshotReserved st)
          (ss_snapshotUsed st - zlen (obj_data o)) (delete d (ss_objects st))
      else
        mkStore (ss_limits st) (ss_stagingReserved st) (ss_snapshotReserved st)
          (ss_snapshotUsed st) (<[d := mkObject (obj_data o) (obj_refs o - 1)]> (ss_objects st))
  end.

Definition artifactLease_release (st : SnapshotStore) (l : artifactLease) :
    SnapshotStore * artifactLease :=
  if lease_once l then (st, l)
  else (dropRef st (lease_digest l), mkLease (lease_digest l) true).

Definition Snapshot_release (st : SnapshotStore) (s : Snapshot) : SnapshotStore * Snapshot :=
  if snap_once s then (st, s)
  else (foldl dropRef st (map_to_list (snap_digests s)).*2, mkSnapshot (snap_digests s) true).

Record StoreStats := mkStoreStats {
  st_StagingReserved : Z; st_SnapshotReserved : Z; st_SnapshotUsed : Z; st_Objects : Z }.

Definition SnapshotStore_Stats (st : SnapshotStore) : StoreStats :=
  {| st_StagingReserved := ss_stagingReserved st; st_SnapshotReserved := ss_snapshotReserved st;
     st_SnapshotUsed := ss_snapshotUsed st; st_Objects := Z.of_nat (size (ss_objects st)) |}.

(** ** The heap of store objects and its steps *)

Record World := mkWorld {
  w_store : SnapshotStore;
  w_txs : gmap nat stagingTransaction;
  w_snaps : gmap nat Snapshot;
  w_leases : gmap nat artifactLease;
}.

Definition initial_world (limits : StoreLimits) : World :=
  mkWorld (mkStore limits 0 0 0 ∅) ∅ ∅ ∅.

(** Operations on objects at an address; an operation on an absent address
    is a method call on [nil] and changes nothing. *)
Definition world_acquire (w : World) (sid : nat) (name : string) (n : Z) (sha : string) :
    World * option nat :=
  match w_snaps w !! sid with
  | None => (w, None)
  | Some s =>
      match acquireArtifact (w_store w) s name n sha with
      | (st, None) => (mkWorld st (w_txs w) (w_snaps w) (w_leases w), None)
      | (st, Some l) =>
          let a := fresh (dom (w_leases w)) in
          (mkWorld st (w_txs w) (w_snaps w) (<[a := l]> (w_leases w)), Some a)
      end
  end.

Definition world_readRange (w : World) (lid : nat) (offset maxBytes : Z) : option bytes :=
  match w_leases w !! lid with
  | None => None
  | Some l => readRange (w_store w) l offset maxBytes
  end.

Definition world_Read (w : World) (sid : nat) (name : string) : option bytes :=
  match w_snaps w !! sid with
  | None => None
  | Some s => Snapshot_Read (w_store w) s name
  end.

Definition world_release_lease (w : World) (lid : nat) : World :=
  match w_leases w !! lid with
  | None => w
  | Some l =>
      let '(st, l') := artifactLease_release (w_store w) l in
      mkWorld st (w_txs w) (w_snaps w) (<[lid := l']> (w_leases w))
  end.

Definition world_release_snapshot (w : World) (sid : nat) : World :=
  match w_snaps w !! sid with
  | None => w
  | Some s =>
      let '(st, s') := Snapshot_release (w_store w) s in
      mkWorld st (w_txs w) (<[sid := s']> (w_snaps w)) (w_leases w)
  end.

Definition world_commit (order : list (string * stagedArtifact)) (w : World) (tid : nat) :
    World * result error nat :=
  match w_txs w !! tid with
  | None => (w, Err (ErrorNew "nil transaction"))
  | Some t =>
      match commit order (w_store w) t with
      | (st, t', Err e) => (mkWorld st (<[tid := t']> (w_txs w)) (w_snaps w) (w_leases w), Err e)
      | (st, t', Ok s) =>
          let a := fresh (dom (w_snaps w)) in
          (mkWorld st (<[tid := t']> (w_txs w)) (<[a := s]> (w_snaps w)) (w_leases w), Ok a)
      end
  end.

(** The calls a client of the store can make. *)
Inductive action : Type :=
| ABegin
| AReserve (tid : nat) (size : Z)
| AStage (tid : nat) (name : string) (rd : reader) (declaredSize maximum : Z)
| ACommit (tid : nat) (order : list (string * stagedArtifact))
| AAbort (tid : nat)
| AAcquire (sid : nat) (name : string) (n : Z) (sha : string)
| AReleaseLease (lid : nat)
| AReleaseSnapshot (sid : nat).

Definition exec (w : World) (a : action) : World :=
  match a with
  | ABegin => mkWorld (w_store w) (<[fresh (dom (w_txs w)) := begin]> (w_txs w)) (w_snaps w) (w_leases w)
  | AReserve tid size =>
      match w_txs w !! tid with
      | None => w
      | Some t =>
          match reserve (w_store w) t size with
          | Err _ => w
          | Ok (st, t') => mkWorld st (<[tid := t']> (w_txs w)) (w_snaps w) (w_leases w)
          end
      end
  | AStage tid name rd d m =>
      match w_txs w !! tid with
      | None => w
      | Some t =>
          match stageReserved t name rd d m with
          | Err _ => w
          | Ok t' => mkWorld (w_store w) (<[tid := t']> (w_txs w)) (w_snaps w) (w_leases w)
          end
      end
  | ACommit tid order => (world_commit order w tid).1
  | AAbort tid =>
      match w_txs w !! tid with
      | None => w
      | Some t =>
          let '(st, t') := abort (w_store w) t in
          mkWorld st (<[tid := t']> (w_txs w)) (w_snaps w) (w_leases w)
      end
  | AAcquire sid name n sha => (world_acquire w sid name n sha).1
  | AReleaseLease lid => world_release_lease w lid
  | AReleaseSnapshot sid => world_release_snapshot w sid
  end.

(** What the callers in [loader.go] respect: a reservation is at most the sum
    of [MaxSkills + MaxSkillResources + MaxContextReferences] artifacts of
    [ArtifactMaxBytes], is made on an open transaction, and a commit visits
    exactly the staged artifacts. *)
Definition allowed (w : World) (a : action) : Prop :=
  match a with
  | AReserve tid size =>
      size ≤ (MaxSkills + MaxSkillResources + MaxContextReferences) * ArtifactMaxBytes ∧
      ∀ t, w_txs w !! tid = Some t → tx_closed t = false
  | ACommit tid order => ∀ t, w_txs w !! tid = Some t → order ≡ₚ map_to_list (tx_artifacts t)
  | _ => True
  end.

Definition step (w w' : World) : Prop := ∃ a, allowed w a ∧ w' = exec w a.
Definition reachable (limits : StoreLimits) : World → Prop := rtc step (initial_world limits).

(** ** Specification: reference counts and quotas *)

(** Occurrences of a digest in a list of digests. *)
Definition occurs (d : bytes) (ds : list bytes) : Z := count_if (λ x, bool_decide (x = d)) ds.

(** References to the content object [d] held by one snapshot, by one lease,
    and by the whole heap. *)
Definition snap_refs (d : bytes) (s : Snapshot) : Z :=
  if snap_once s then 0 else occurs d (map_to_list (snap_digests s)).*2.
Definition lease_refs (d : bytes) (l : artifactLease) : Z :=
  if lease_once l then 0 else if bool_decide (lease_digest l = d) then 1 else 0.
Definition refs (w : World) (d : bytes) : Z :=
  map_sum (snap_refs d) (w_snaps w) + map_sum (lease_refs d) (w_leases w).

(** The store holds exactly the objects referred to, each under the digest of
    its bytes and with the number of its references, and accounts for their
    sizes. *)
Definition object_ok (R : bytes → Z) (d : bytes) (oo : option snapshotObject) : Prop :=
  match oo with
  | Some o => obj_refs o = R d ∧ 0 < R d ∧ sha256 (obj_data o) = d
  | None => R d = 0
  end.
Definition object_size (o : snapshotObject) : Z := zlen (obj_data o).
Definition store_ok (st : SnapshotStore) (R : bytes → Z) : Prop :=
  (∀ d, object_ok R d (ss_objects st !! d)) ∧
  ss_snapshotUsed st = map_sum object_size (ss_objects st).

(** What an open transaction holds of the store's reservations. *)
Definition tx_held (t : stagingTransaction) : Z := if tx_closed t then 0 else tx_reserved t.
Definition tx_ok (t : stagingTransaction) : Prop :=
  0 ≤ tx_reserved t ≤ PackageArtifactMax ∧ tx_packageSize t = tx_reserved t ∧
  (tx_closed t = false → map_Forall (λ _ a, sha256 (sa_data a) = sa_digest a) (tx_artifacts t)).

Definition limits_ok (limits : StoreLimits) : Prop :=
  0 < StagingBytes limits ≤ 2 ^ 61 ∧ 0 < SnapshotBytes limits ≤ 2 ^ 61.

Record inv (limits : StoreLimits) (w : World) : Prop := {
  inv_limits : ss_limits (w_store w) = limits;
  inv_store : store_ok (w_store w) (refs w);
  inv_staging : ss_stagingReserved (w_store w) = map_sum tx_held (w_txs w);
  inv_snapshot : ss_snapshotReserved (w_store w) = map_sum tx_held (w_txs w);
  inv_txs : map_Forall (λ _, tx_ok) (w_txs w);
  inv_staging_quota : ss_stagingReserved (w_store w) ≤ StagingBytes limits;
  inv_snapshot_quota : ss_snapshotUsed (w_store w) ≤ SnapshotBytes limits;
}.

(** ** Lemmas: one reference more or less *)

Lemma occurs_nil d : occurs d [] = 0.
Proof. done. Qed.
Lemma occurs_cons d x l : occurs d (x :: l) = (if bool_decide (x = d) then 1 else 0) + occurs d l.
Proof. unfold occurs. by rewrite count_if_cons. Qed.
Lemma occurs_nonneg d l : 0 ≤ occurs d l.
Proof. apply count_if_nonneg. Qed.
Global Instance occurs_proper d : Proper ((≡ₚ) ==> (=)) (occurs d).
Proof. induction 1; rewrite ?occurs_cons in *; lia. Qed.
Lemma occurs_elem d l : d ∈ l → 0 < occurs d l.
Proof.
  induction l as [|x l IH]; [set_solver|]. rewrite occurs_cons, elem_of_cons.
  pose proof (occurs_nonneg d l). intros [<-|Hd].
  - rewrite bool_decide_true by done. lia.
  - specialize (IH Hd). case_bool_decide; lia.
Qed.

Lemma store_ok_ext st R R' : store_ok st R → (∀ d, R d = R' d) → store_ok st R'.
Proof.
  intros [Hobj Hused] HR. split; [|done]. intros d. specialize (Hobj d).
  unfold object_ok in *. destruct (_ !! d); by rewrite <-HR.
Qed.

Lemma object_ok_other R R' d x : object_ok R d x → R' d = R d → object_ok R' d x.
Proof. unfold object_ok. destruct x; by intros ? ->. Qed.

(** Case analysis on whether an update concerns the digest looked at. *)
Ltac same_digest :=
  rewrite ?lookup_insert_eq, ?lookup_delete_eq; unfold object_ok; cbn;
  rewrite bool_decide_true by done.
Ltac other_digest Hobj :=
  rewrite ?lookup_insert_ne, ?lookup_delete_ne by done;
  eapply object_ok_other; [apply Hobj|cbn; rewrite bool_decide_false by done; lia].

Lemma commit_one_ok st R a :
  store_ok st R → (∀ d, 0 ≤ R d) → sha256 (sa_data a) = sa_digest a →
  store_ok (commit_one st a) (λ d, R d + if bool_decide (sa_digest a = d) then 1 else 0).
Proof.
  intros [Hobj Hused] HR Ha. pose proof (Hobj (sa_digest a)) as Hd.
  unfold commit_one. destruct (ss_objects st !! sa_digest a) as [o|] eqn:Ho; split; simpl.
  - intros d. destruct (decide (sa_digest a = d)) as [<-|Hne].
    + same_digest. destruct Hd as (? & ? & ?). repeat split; [lia|lia|done].
    + other_digest Hobj.
  - rewrite (map_sum_update _ _ _ o) by done. unfold object_size at 2 3. simpl. lia.
  - intros d. destruct (decide (sa_digest a = d)) as [<-|Hne].
    + same_digest. simpl in Hd. repeat split; [lia|lia|done].
    + other_digest Hobj.
  - rewrite map_sum_insert by done. unfold object_size at 1. simpl. lia.
Qed.

Lemma foldl_commit_ok st R l :
  store_ok st R → (∀ d, 0 ≤ R d) → Forall (λ a, sha256 (sa_data a) = sa_digest a) l →
  store_ok (foldl commit_one st l) (λ d, R d + occurs d (map sa_digest l)).
Proof.
  intros Hst HR Hl. revert st R Hst HR.
  induction Hl as [|a l Ha Hl IH]; intros st R Hst HR; simpl.
  { eapply store_ok_ext; [done|]. intros d. rewrite occurs_nil. lia. }
  eapply store_ok_ext; [apply IH; [by apply commit_one_ok|]|].
  - intros d. specialize (HR d). cbn. case_bool_decide; lia.
  - intros d. simpl. rewrite occurs_cons. lia.
Qed.

Lemma retain_ok st R d o :
  store_ok st R → ss_objects st !! d = Some o →
  store_ok (retain st d o) (λ d', R d' + if bool_decide (d = d') then 1 else 0).
Proof.
  intros [Hobj Hused] Ho. pose proof (Hobj d) as Hd. rewrite Ho in Hd.
  destruct Hd as (? & ? & ?). split; simpl.
  - intros d'. destruct (decide (d = d')) as [<-|Hne].
    + same_digest. repeat split; [lia|lia|done].
    + other_digest Hobj.
  - rewrite (map_sum_update _ _ _ o) by done. unfold object_size at 2 3. simpl. lia.
Qed.

Lemma dropRef_ok st R d :
  store_ok st R → 0 < R d →
  store_ok (dropRef st d) (λ d', R d' - if bool_decide (d = d') then 1 else 0).
Proof.
  intros [Hobj Hused] HR. pose proof (Hobj d) as Hd. unfold dropRef.
  destruct (ss_objects st !! d) as [o|] eqn:Ho; simpl in Hd; [|lia].
  destruct Hd as (? & ? & ?). destruct (obj_refs o - 1 =? 0) eqn:Hz; bool_hyps; split; simpl.
  - intros d'. destruct (decide (d = d')) as [<-|Hne].
    + same_digest. lia.
    + other_digest Hobj.
  - rewrite (map_sum_delete _ _ _ o) by done. unfold object_size at 2. lia.
  - intros d'. destruct (decide (d = d')) as [<-|Hne].
    + same_digest. repeat split; [lia|lia|done].
    + other_digest Hobj.
  - rewrite (map_sum_update _ _ _ o) by done. unfold object_size at 2 3. simpl. lia.
Qed.

Lemma foldl_drop_ok st R ds :
  store_ok st R → (∀ d, occurs d ds ≤ R d) →
  store_ok (foldl dropRef st ds) (λ d, R d - occurs d ds).
Proof.
  revert st R. induction ds as [|x ds IH]; intros st R Hst HR; simpl.
  { eapply store_ok_ext; [done|]. intros d. rewrite occurs_nil. lia. }
  pose proof (HR x) as Hx. rewrite occurs_cons, bool_decide_true in Hx by done.
  pose proof (occurs_nonneg x ds).
  eapply store_ok_ext; [apply IH; [apply dropRef_ok; [done|lia]|]|].
  - intros d. specialize (HR d). rewrite occurs_cons in HR. cbn. lia.
  - intros d. cbn. rewrite occurs_cons. lia.
Qed.

(** ** Lemmas: the loops of [commit] *)

Lemma foldl_commit_step st arts l :
  (foldl commit_step (st, arts) l).1 = foldl commit_one st l.*2.
Proof. revert st arts. induction l as [|na l IH]; intros st arts; simpl; [done|]. apply IH. Qed.

(** What a commit leaves alone. *)
Lemma foldl_commit_frame st l :
  ss_limits (foldl commit_one st l) = ss_limits st ∧
  ss_stagingReserved (foldl commit_one st l) = ss_stagingReserved st ∧
  ss_snapshotReserved (foldl commit_one st l) = ss_snapshotReserved st.
Proof.
  revert st. induction l as [|a l IH]; intros st; simpl; [done|].
  destruct (IH (commit_one st a)) as (-> & -> & ->). unfold commit_one. by case_match.
Qed.

Lemma foldl_drop_frame st ds :
  ss_limits (foldl dropRef st ds) = ss_limits st ∧
  ss_stagingReserved (foldl dropRef st ds) = ss_stagingReserved st ∧
  ss_snapshotReserved (foldl dropRef st ds) = ss_snapshotReserved st.
Proof.
  revert st. induction ds as [|d ds IH]; intros st; simpl; [done|].
  destruct (IH (dropRef st d)) as (-> & -> & ->). unfold dropRef. repeat case_match; done.
Qed.

Lemma dropRef_used st d :
  ss_snapshotUsed (dropRef st d) ≤ ss_snapshotUsed st.
Proof. unfold dropRef. pose proof (zlen_nonneg (A:=Ascii.ascii)).
  repeat case_match; simpl; try done. specialize (H (obj_data s)). lia. Qed.

Lemma foldl_drop_used st ds : ss_snapshotUsed (foldl dropRef st ds) ≤ ss_snapshotUsed st.
Proof.
  revert st. induction ds as [|d ds IH]; intros st; simpl; [done|].
  pose proof (IH (dropRef st d)). pose proof (dropRef_used st d). lia.
Qed.

Lemma commit_newBytes_acc objs (l : list (string * stagedArtifact)) n :
  foldl (λ n '(_, a), match objs !! sa_digest a with
                      | None => n + zlen (sa_data a) | Some _ => n end) n l
  = n + foldl (λ n '(_, a), match (objs : gmap bytes snapshotObject) !! sa_digest a with
                      | None => n + zlen (sa_data a) | Some _ => n end) 0 l.
Proof.
  revert n. induction l as [|[k a] l IH]; intros n; simpl; [lia|].
  case_match; [apply IH|]. rewrite IH, (IH (0 + _)). lia.
Qed.

Lemma commit_newBytes_cons st k a l :
  commit_newBytes st ((k, a) :: l) =
  (if bool_decide (is_Some (ss_objects st !! sa_digest a)) then 0 else zlen (sa_data a))
  + commit_newBytes st l.
Proof.
  unfold commit_newBytes. simpl. rewrite commit_newBytes_acc.
  destruct (ss_objects st !! sa_digest a) eqn:E.
  - by rewrite bool_decide_true by done.
  - rewrite bool_decide_false by (intros []; congruence). lia.
Qed.

Lemma commit_newBytes_mono st st' l :
  (∀ d, is_Some (ss_objects st !! d) → is_Some (ss_objects st' !! d)) →
  commit_newBytes st' l ≤ commit_newBytes st l.
Proof.
  intros Hsub. induction l as [|[k a] l IH]; [done|]. rewrite !commit_newBytes_cons.
  pose proof (zlen_nonneg (sa_data a)).
  case_bool_decide as H1; case_bool_decide as H2; try lia. by apply Hsub in H2.
Qed.

Lemma commit_newBytes_nonneg st l : 0 ≤ commit_newBytes st l.
Proof.
  induction l as [|[k a] l IH]; [done|]. rewrite commit_newBytes_cons.
  pose proof (zlen_nonneg (sa_data a)). case_bool_decide; lia.
Qed.

Lemma commit_one_mono st a d :
  is_Some (ss_objects st !! d) → is_Some (ss_objects (commit_one st a) !! d).
Proof.
  unfold commit_one. intros Hd.
  destruct (ss_objects st !! sa_digest a); simpl;
    (destruct (decide (sa_digest a = d)) as [<-|];
     [rewrite lookup_insert_eq; eauto|by rewrite lookup_insert_ne]).
Qed.

(** The bytes counted by the first loop bound what the second one adds. *)
Lemma foldl_commit_used st l :
  ss_snapshotUsed (foldl commit_one st l.*2) ≤ ss_snapshotUsed st + commit_newBytes st l.
Proof.
  revert st. induction l as [|[k a] l IH]; intros st; simpl.
  { unfold commit_newBytes. simpl. lia. }
  etrans; [apply IH|]. rewrite commit_newBytes_cons.
  pose proof (commit_newBytes_mono st (commit_one st a) l (commit_one_mono st a)).
  unfold commit_one at 1. destruct (ss_objects st !! sa_digest a) eqn:E; simpl; lia.
Qed.

(** ** Lemmas: references under heap updates *)

Lemma refs_nonneg w d : 0 ≤ refs w d.
Proof.
  unfold refs. apply Z.add_nonneg_nonneg; apply map_sum_nonneg; intros k x _.
  - unfold snap_refs. case_match; [done|]. apply occurs_nonneg.
  - unfold lease_refs. case_match; [done|]. case_bool_decide; lia.
Qed.

Lemma snap_refs_le w sid s d :
  w_snaps w !! sid = Some s → snap_refs d s ≤ refs w d.
Proof.
  intros Hs. unfold refs.
  assert (0 ≤ map_sum (lease_refs d) (w_leases w)).
  { apply map_sum_nonneg. intros k x _. unfold lease_refs. repeat case_match; lia. }
  assert (snap_refs d s ≤ map_sum (snap_refs d) (w_snaps w)); [|lia].
  eapply map_sum_lookup_le; [|done]. intros k x _.
  unfold snap_refs. case_match; [done|]. apply occurs_nonneg.
Qed.

Lemma lease_refs_le w lid l d :
  w_leases w !! lid = Some l → lease_refs d l ≤ refs w d.
Proof.
  intros Hl. unfold refs.
  assert (0 ≤ map_sum (snap_refs d) (w_snaps w)).
  { apply map_sum_nonneg. intros k x _. unfold snap_refs. case_match; [done|]. apply occurs_nonneg. }
  assert (lease_refs d l ≤ map_sum (lease_refs d) (w_leases w)); [|lia].
  eapply map_sum_lookup_le; [|done]. intros k x _. unfold lease_refs. repeat case_match; lia.
Qed.

Lemma tx_held_nonneg limits w : inv limits w → 0 ≤ map_sum tx_held (w_txs w).
Proof.
  intros Hinv. apply map_sum_nonneg. intros k t Ht.
  destruct (inv_txs _ _ Hinv _ _ Ht) as (? & _). unfold tx_held. case_match; lia.
Qed.

(** ** Preservation of the invariant *)

Section preservation.
Context (limits : StoreLimits) (Hlimits : limits_ok limits).

Lemma inv_initial : inv limits (initial_world limits).
Proof.
  destruct Hlimits. split; simpl; solve [done|lia].
Qed.

Lemma inv_begin w : inv limits w → inv limits (exec w ABegin).
Proof.
  intros []. split; simpl; try done.
  - rewrite map_sum_insert by apply lookup_fresh. done.
  - rewrite map_sum_insert by apply lookup_fresh. done.
  - apply map_Forall_insert_2; [|done]. unfold tx_ok, begin, PackageArtifactMax. simpl.
    repeat split; [done..|]. intros _. apply map_Forall_empty.
Qed.

Lemma inv_reserve w tid size :
  inv limits w → allowed w (AReserve tid size) → inv limits (exec w (AReserve tid size)).
Proof.
  intros Hinv [Hsize Hopen]. pose proof (tx_held_nonneg _ _ Hinv).
  destruct Hinv as [Hl Hst Hsr Hnr Htxs Hq1 Hq2]. simpl.
  destruct (w_txs w !! tid) as [t|] eqn:Ht; [|by split].
  specialize (Hopen _ eq_refl). destruct (Htxs _ _ Ht) as (Hr & Hps & Hd).
  destruct (reserve _ _ _) as [[st t']|] eqn:Hres; [|by split].
  unfold reserve in Hres. inv_binds Hres. bool_hyps. injection Hres as <- <-.
  assert (0 ≤ ss_snapshotUsed (w_store w)).
  { destruct Hst as [_ ->]. apply map_sum_nonneg. intros. apply zlen_nonneg. }
  destruct Hlimits as [HL1 HL2]. rewrite Hl in *.
  assert (PackageArtifactMax ≤ 2 ^ 61) by done.
  assert (size ≤ 2 ^ 61) by (etrans; [apply Hsize|done]).
  rewrite wrap64_id in * by (split; unfold MinInt64, MaxInt64; lia).
  rewrite (wrap64_id (ss_snapshotUsed _ + _)) in * by (split; unfold MinInt64, MaxInt64; lia).
  rewrite (wrap64_id (tx_packageSize t + size)) in * by (split; unfold MinInt64, MaxInt64; lia).
  rewrite (wrap64_id (tx_reserved t + size)) by (split; unfold MinInt64, MaxInt64; lia).
  rewrite (wrap64_id (ss_snapshotReserved _ + size)) by (split; unfold MinInt64, MaxInt64; lia).
  split; simpl; try done.
  - rewrite (map_sum_update _ _ _ t) by done. unfold tx_held at 2 3. simpl. rewrite Hopen. lia.
  - rewrite (map_sum_update _ _ _ t) by done. unfold tx_held at 2 3. simpl. rewrite Hopen. lia.
  - apply map_Forall_insert_2; [|done]. unfold tx_ok. simpl. repeat split; [lia|lia|lia|done].
Qed.

Lemma stageReserved_Ok t name rd d m t' :
  stageReserved t name rd d m = Ok t' →
  tx_closed t = false ∧ tx_artifacts t !! name = None ∧ 0 ≤ d ≤ m ∧
  ∃ data, zlen data = d ∧
    (0 ≤ m < MaxInt64 → data = take (Z.to_nat (d + 1)) (rd_content rd)) ∧
    t' = mkTx (tx_reserved t) (<[name := mkStaged data (sha256 data)]> (tx_artifacts t))
           (tx_closed t) (tx_packageSize t).
Proof.
  unfold stageReserved. intros H. do 3 inv_bind H.
  destruct (read_limited _ _) as [data|] eqn:Hrd; simpl in H; [|done].
  inv_binds H. bool_hyps. injection H as <-.
  assert (tx_artifacts t !! name = None) by (apply eq_None_not_Some; by bool_hyps).
  repeat split; [done..|]. exists data. repeat split; [lia|].
  intros Hm. rewrite wrap64_id in Hrd by (unfold int64_ok, MinInt64, MaxInt64 in *; lia).
  unfold read_limited in Hrd. repeat case_match; bool_hyps; simplify_eq.
  - lia.
  - done.
  - rewrite take_ge; [done|]. unfold zlen in *. lia.
Qed.

Lemma inv_stage w tid name rd d m : inv limits w → inv limits (exec w (AStage tid name rd d m)).
Proof.
  intros []. simpl. destruct (w_txs w !! tid) as [t|] eqn:Ht; [|by split].
  destruct (inv_txs0 _ _ Ht) as (Hr & Hps & Hd).
  destruct (stageReserved _ _ _ _ _) as [t'|] eqn:Hs; [|by split].
  apply stageReserved_Ok in Hs as (Hc & _ & _ & data & _ & _ & ->).
  split; simpl; try done.
  - rewrite (map_sum_update _ _ _ t) by done. unfold tx_held at 2 3. simpl. lia.
  - rewrite (map_sum_update _ _ _ t) by done. unfold tx_held at 2 3. simpl. lia.
  - apply map_Forall_insert_2; [|done]. unfold tx_ok. simpl. repeat split; [lia|lia|lia|].
    intros _. apply map_Forall_insert_2; auto.
Qed.

(** Closing a transaction returns exactly what it held. *)
Lemma held_close w tid t arts :
  w_txs w !! tid = Some t → tx_closed t = false →
  map_sum tx_held (<[tid := mkTx (tx_reserved t) arts true (tx_packageSize t)]> (w_txs w))
  = map_sum tx_held (w_txs w) - tx_reserved t.
Proof.
  intros Ht Hc. rewrite (map_sum_update _ _ _ t) by done. unfold tx_held at 2 3. simpl.
  rewrite Hc. lia.
Qed.

Lemma tx_ok_close t arts :
  tx_ok t → tx_ok (mkTx (tx_reserved t) arts true (tx_packageSize t)).
Proof. intros (? & ? & ?). by split. Qed.

Lemma inv_abort w tid : inv limits w → inv limits (exec w (AAbort tid)).
Proof.
  intros []. simpl. destruct (w_txs w !! tid) as [t|] eqn:Ht; [|by split].
  pose proof (inv_txs0 _ _ Ht) as Hok. unfold abort.
  destruct (tx_closed t) eqn:Hc.
  - rewrite insert_id by done. by split.
  - split; simpl; try done.
    + rewrite held_close by done. lia.
    + rewrite held_close by done. lia.
    + apply map_Forall_insert_2; [by apply tx_ok_close|done].
    + destruct Hok. lia.
Qed.

Lemma inv_commit w tid order :
  inv limits w → allowed w (ACommit tid order) → inv limits (exec w (ACommit tid order)).
Proof.
  intros Hinv Horder. pose proof Hinv as [Hl Hst Hsr Hnr Htxs Hq1 Hq2].
  simpl. unfold world_commit. destruct (w_txs w !! tid) as [t|] eqn:Ht; [|done].
  specialize (Horder _ Ht). pose proof (Htxs _ _ Ht) as Hok.
  unfold commit. destruct (tx_closed t) eqn:Hc; simpl.
  { rewrite insert_id by done. by destruct w. }
  destruct (_ >? _) eqn:Hq; bool_hyps; simpl.
  { split; simpl; try done.
    - rewrite held_close by done. lia.
    - rewrite held_close by done. lia.
    - apply map_Forall_insert_2; [by apply tx_ok_close|done].
    - destruct Hok. lia. }
  destruct (foldl commit_step _ _) as [st arts] eqn:Hfold. simpl.
  assert (st = foldl commit_one (w_store w) order.*2) as ->.
  { rewrite <-(foldl_commit_step _ (tx_artifacts t)). by rewrite Hfold. }
  destruct (foldl_commit_frame (w_store w) order.*2) as (Hf1 & Hf2 & Hf3).
  split; simpl; rewrite ?Hf1, ?Hf2, ?Hf3; try done.
  - assert (store_ok (foldl commit_one (w_store w) order.*2)
      (λ d, refs w d + occurs d (map sa_digest order.*2))) as Hok'.
    { apply foldl_commit_ok; [done|apply refs_nonneg|]. destruct Hok as (_ & _ & Ha).
      specialize (Ha Hc). apply Forall_fmap, Forall_forall. intros [k a] Hka. simpl.
      rewrite Horder in Hka. apply elem_of_map_to_list in Hka. by apply (Ha k). }
    eapply store_ok_ext; [exact Hok'|]. intros d. simpl. unfold refs. simpl.
    rewrite map_sum_insert by apply lookup_fresh. unfold snap_refs at 2. simpl.
    assert (map sa_digest order.*2 ≡ₚ (map_to_list (sa_digest <$> tx_artifacts t)).*2) as ->.
    { rewrite map_to_list_fmap. rewrite <-Horder. clear.
      induction order as [|[k a] order IH]; simpl; [done|]. by rewrite IH. }
    lia.
  - rewrite held_close by done. lia.
  - rewrite held_close by done. lia.
  - apply map_Forall_insert_2; [by apply tx_ok_close|done].
  - destruct Hok. lia.
  - pose proof (foldl_commit_used (w_store w) order). rewrite Hl in *. lia.
Qed.

Lemma inv_acquire w sid name n sha :
  inv limits w → inv limits (exec w (AAcquire sid name n sha)).
Proof.
  intros Hinv. pose proof Hinv as []. simpl. unfold world_acquire.
  destruct (w_snaps w !! sid) as [s|] eqn:Hs; [|done].
  unfold acquireArtifact. destruct (snap_digests s !! name) as [d|]; [|by destruct w].
  destruct (ss_objects (w_store w) !! d) as [o|] eqn:Ho; [|by destruct w].
  destruct (_ || _); [by destruct w|]. simpl. split; simpl; try done.
  eapply store_ok_ext; [by apply retain_ok|]. intros d'. cbn. unfold refs. simpl.
  rewrite map_sum_insert by apply lookup_fresh. unfold lease_refs at 2. simpl. lia.
Qed.

Lemma inv_release_lease w lid : inv limits w → inv limits (exec w (AReleaseLease lid)).
Proof.
  intros Hinv. pose proof Hinv as []. simpl. unfold world_release_lease.
  destruct (w_leases w !! lid) as [l|] eqn:Hl; [|done].
  unfold artifactLease_release. destruct (lease_once l) eqn:Honce.
  { rewrite insert_id by done. by destruct w. }
  assert (∀ d, lease_refs d l = if bool_decide (lease_digest l = d) then 1 else 0) as Hrl.
  { intros d. unfold lease_refs. by rewrite Honce. }
  destruct (foldl_drop_frame (w_store w) [lease_digest l]) as (Hf1 & Hf2 & Hf3).
  pose proof (dropRef_used (w_store w) (lease_digest l)).
  split; simpl in *; rewrite ?Hf1, ?Hf2, ?Hf3; try done; [|lia].
  eapply store_ok_ext; [apply dropRef_ok; [done|]|].
  - pose proof (lease_refs_le w lid l (lease_digest l) Hl) as Hle.
    rewrite Hrl, bool_decide_true in Hle by done. lia.
  - intros d. cbn. unfold refs. simpl. rewrite (map_sum_update _ _ _ l) by done.
    rewrite Hrl. unfold lease_refs at 3. simpl. lia.
Qed.

Lemma inv_release_snapshot w sid : inv limits w → inv limits (exec w (AReleaseSnapshot sid)).
Proof.
  intros Hinv. pose proof Hinv as []. simpl. unfold world_release_snapshot.
  destruct (w_snaps w !! sid) as [s|] eqn:Hs; [|done].
  unfold Snapshot_release. destruct (snap_once s) eqn:Honce.
  { rewrite insert_id by done. by destruct w. }
  assert (∀ d, snap_refs d s = occurs d (map_to_list (snap_digests s)).*2) as Hrs.
  { intros d. unfold snap_refs. by rewrite Honce. }
  destruct (foldl_drop_frame (w_store w) (map_to_list (snap_digests s)).*2) as (Hf1 & Hf2 & Hf3).
  pose proof (foldl_drop_used (w_store w) (map_to_list (snap_digests s)).*2).
  split; simpl in *; rewrite ?Hf1, ?Hf2, ?Hf3; try done; [|lia].
  eapply store_ok_ext; [apply foldl_drop_ok; [done|]|].
  - intros d. rewrite <-Hrs. by apply (snap_refs_le w sid).
  - intros d. cbn. unfold refs. simpl. rewrite (map_sum_update _ _ _ s) by done.
    rewrite Hrs. unfold snap_refs at 3. simpl. lia.
Qed.

Lemma inv_step w w' : inv limits w → step w w' → inv limits w'.
Proof.
  intros Hinv (a & Ha & ->). destruct a;
    auto using inv_begin, inv_reserve, inv_stage, inv_commit, inv_abort, inv_acquire,
      inv_release_lease, inv_release_snapshot.
Qed.

Lemma inv_reachable w : reachable limits w → inv limits w.
Proof.
  intros Hr. apply (rtc_ind_r (R:=step) (inv limits) (initial_world limits)); [apply inv_initial| |done].
  intros w1 w2 _ Hstep Hinv. by eapply inv_step.
Qed.

End preservation.

(** ** Lemmas: contents never change while they are referred to *)

(** [st'] still has every object of [st], with the same bytes. *)
Definition keeps (st st' : SnapshotStore) : Prop :=
  ∀ d o, ss_objects st !! d = Some o →
    ∃ o', ss_objects st' !! d = Some o' ∧ obj_data o' = obj_data o.

Global Instance keeps_preorder : PreOrder keeps.
Proof.
  split.
  - intros st d o Ho. eauto.
  - intros st1 st2 st3 H12 H23 d o Ho. destruct (H12 _ _ Ho) as (o2 & Ho2 & <-). eauto.
Qed.

Lemma keeps_same st st' : ss_objects st' = ss_objects st → keeps st st'.
Proof. intros Heq d o Ho. rewrite Heq. eauto. Qed.

Lemma commit_one_keeps st a : keeps st (commit_one st a).
Proof.
  intros d o Ho. unfold commit_one.
  destruct (decide (sa_digest a = d)) as [<-|Hne].
  - rewrite Ho. simpl. rewrite lookup_insert_eq. eauto.
  - case_match; simpl; rewrite lookup_insert_ne by done; eauto.
Qed.

Lemma foldl_commit_keeps st l : keeps st (foldl commit_one st l).
Proof.
  revert st. induction l as [|a l IH]; intros st; simpl; [done|].
  etrans; [apply commit_one_keeps|apply IH].
Qed.

Lemma retain_keeps st d o : ss_objects st !! d = Some o → keeps st (retain st d o).
Proof.
  intros Hd d' o' Ho'. unfold retain. simpl. destruct (decide (d = d')) as [<-|Hne].
  - rewrite lookup_insert_eq. simplify_eq. eauto.
  - rewrite lookup_insert_ne by done. eauto.
Qed.

(** Releasing creates nothing: what is left was there before. *)
Lemma dropRef_keeps st d : keeps (dropRef st d) st.
Proof.
  intros d' o'. unfold dropRef.
  destruct (ss_objects st !! d) as [o|] eqn:Ho; [|by eauto].
  case_match; simpl.
  - intros [_ ?]%lookup_delete_Some. eauto.
  - destruct (decide (d = d')) as [<-|Hne].
    + rewrite lookup_insert_eq. intros [= <-]. simpl. eauto.
    + rewrite lookup_insert_ne by done. eauto.
Qed.

Lemma foldl_drop_keeps st ds : keeps (foldl dropRef st ds) st.
Proof.
  revert st. induction ds as [|d ds IH]; intros st; simpl; [done|].
  etrans; [apply IH|apply dropRef_keeps].
Qed.

Lemma exec_keeps w a :
  keeps (w_store w) (w_store (exec w a)) ∨ keeps (w_store (exec w a)) (w_store w).
Proof.
  destruct a as [|tid size|tid nm rd d m|tid order|tid|sid nm n sha|lid|sid]; simpl.
  - left. by apply keeps_same.
  - left. apply keeps_same. destruct (w_txs w !! tid); [|done].
    unfold reserve, guardE. repeat case_match; simplify_eq/=; done.
  - left. apply keeps_same. destruct (w_txs w !! tid); [|done]. by case_match.
  - left. unfold world_commit. destruct (w_txs w !! tid) as [t|]; [|by apply keeps_same].
    unfold commit. destruct (tx_closed t); [by apply keeps_same|]. destruct (_ >? _); [by apply keeps_same|].
    destruct (foldl commit_step _ _) as [st arts] eqn:Hf. simpl.
    replace st with (foldl commit_one (w_store w) order.*2).
    + etrans; [apply foldl_commit_keeps|by apply keeps_same].
    + rewrite <-(foldl_commit_step _ (tx_artifacts t)). by rewrite Hf.
  - left. apply keeps_same. destruct (w_txs w !! tid) as [t|]; [|done].
    unfold abort. by destruct (tx_closed t).
  - left. unfold world_acquire, acquireArtifact.
    destruct (w_snaps w !! sid) as [s|]; [|by apply keeps_same].
    destruct (snap_digests s !! nm) as [d|]; [|by apply keeps_same].
    destruct (ss_objects (w_store w) !! d) as [o|] eqn:Ho; [|by apply keeps_same].
    destruct (_ || _); simpl; [by apply keeps_same|]. by apply retain_keeps.
  - right. unfold world_release_lease, artifactLease_release.
    destruct (w_leases w !! lid) as [l|]; [|by apply keeps_same]. destruct (lease_once l); simpl; [by apply keeps_same|].
    apply dropRef_keeps.
  - right. unfold world_release_snapshot, Snapshot_release.
    destruct (w_snaps w !! sid) as [s|]; [|by apply keeps_same]. destruct (snap_once s); simpl; [by apply keeps_same|].
    apply foldl_drop_keeps.
Qed.

(** A referred-to object is present, and a step that leaves it referred to
    leaves its bytes alone. *)
Lemma refs_present limits w d :
  inv limits w → 0 < refs w d → ∃ o, ss_objects (w_store w) !! d = Some o ∧ sha256 (obj_data o) = d.
Proof.
  intros Hinv Hr. destruct (inv_store _ _ Hinv) as [Hobj _]. specialize (Hobj d).
  unfold object_ok in Hobj. destruct (_ !! d) as [o|]; [|lia].
  destruct Hobj as (_ & _ & ?). eauto.
Qed.

Lemma step_data limits w w' d o :
  limits_ok limits → inv limits w → step w w' →
  ss_objects (w_store w) !! d = Some o → 0 < refs w' d →
  ∃ o', ss_objects (w_store w') !! d = Some o' ∧ obj_data o' = obj_data o.
Proof.
  intros HL Hinv Hstep Ho Hr.
  destruct (refs_present limits w' d) as (o' & Ho' & _); [by eapply inv_step|done|].
  exists o'. split; [done|]. destruct Hstep as (a & _ & ->).
  destruct (exec_keeps w a) as [Hk|Hk].
  - destruct (Hk _ _ Ho) as (o'' & Ho'' & ?). by simplify_eq.
  - destruct (Hk _ _ Ho') as (o'' & Ho'' & ?). by simplify_eq.
Qed.

(** Snapshots and leases are only ever marked released, never revived or
    retargeted. *)
Definition snap_le (s s' : Snapshot) : Prop :=
  snap_digests s' = snap_digests s ∧ (snap_once s = true → snap_once s' = true).
Definition lease_le (l l' : artifactLease) : Prop :=
  lease_digest l' = lease_digest l ∧ (lease_once l = true → lease_once l' = true).

Lemma insert_fresh_old {A} (m : gmap nat A) i x y :
  m !! i = Some x → <[fresh (dom m) := y]> m !! i = Some x.
Proof. intros Hi. rewrite lookup_insert_ne; [done|]. intros <-. by rewrite lookup_fresh in Hi. Qed.

Lemma exec_snaps w a i s :
  w_snaps w !! i = Some s → ∃ s', w_snaps (exec w a) !! i = Some s' ∧ snap_le s s'.
Proof.
  intros Hi. assert (snap_le s s) by done.
  destruct a as [|tid size|tid nm rd d m|tid order|tid|sid nm n sha|lid|sid]; simpl.
  - eauto.
  - repeat case_match; simpl; eauto.
  - repeat case_match; simpl; eauto.
  - unfold world_commit. repeat case_match; simpl; eauto using insert_fresh_old.
  - repeat case_match; simpl; eauto.
  - unfold world_acquire. repeat case_match; simpl; eauto.
  - unfold world_release_lease. repeat case_match; simpl; eauto.
  - unfold world_release_snapshot, Snapshot_release.
    destruct (w_snaps w !! sid) as [s0|] eqn:H0; [|by eauto].
    destruct (decide (sid = i)) as [<-|Hne].
    + rewrite Hi in H0. injection H0 as <-.
      destruct (snap_once s) eqn:Ho; simpl; rewrite lookup_insert_eq; eexists; (split; [done|]); by split; intros.
    + destruct (snap_once s0); simpl; rewrite lookup_insert_ne by done; eauto.
Qed.

Lemma exec_leases w a i l :
  w_leases w !! i = Some l → ∃ l', w_leases (exec w a) !! i = Some l' ∧ lease_le l l'.
Proof.
  intros Hi. assert (lease_le l l) by done.
  destruct a as [|tid size|tid nm rd d m|tid order|tid|sid nm n sha|lid|sid]; simpl.
  - eauto.
  - repeat case_match; simpl; eauto.
  - repeat case_match; simpl; eauto.
  - unfold world_commit. repeat case_match; simpl; eauto.
  - repeat case_match; simpl; eauto.
  - unfold world_acquire. repeat case_match; simpl; eauto using insert_fresh_old.
  - unfold world_release_lease, artifactLease_release.
    destruct (w_leases w !! lid) as [l0|] eqn:H0; [|by eauto].
    destruct (decide (lid = i)) as [<-|Hne].
    + rewrite Hi in H0. injection H0 as <-.
      destruct (lease_once l) eqn:Ho; simpl; rewrite lookup_insert_eq; eexists; (split; [done|]); by split; intros.
    + destruct (lease_once l0); simpl; rewrite lookup_insert_ne by done; eauto.
  - unfold world_release_snapshot. repeat case_match; simpl; eauto.
Qed.

Lemma live_snap_refs w sid s name d :
  w_snaps w !! sid = Some s → snap_once s = false → snap_digests s !! name = Some d → 0 < refs w d.
Proof.
  intros Hs Honce Hd. pose proof (snap_refs_le w sid s d Hs) as Hle.
  unfold snap_refs in Hle. rewrite Honce in Hle.
  assert (0 < occurs d (map_to_list (snap_digests s)).*2); [|lia].
  apply occurs_elem, list_elem_of_fmap. exists (name, d).
  split; [done|]. by apply elem_of_map_to_list.
Qed.

Lemma live_lease_refs w lid l :
  w_leases w !! lid = Some l → lease_once l = false → 0 < refs w (lease_digest l).
Proof.
  intros Hl Honce. pose proof (lease_refs_le w lid l (lease_digest l) Hl) as Hle.
  unfold lease_refs in Hle. rewrite Honce, bool_decide_true in Hle by done. lia.
Qed.

Lemma steps_inv limits w w' : limits_ok limits → inv limits w → rtc step w w' → inv limits w'.
Proof. intros HL Hinv Hr. induction Hr; [done|]. apply IHHr. by eapply inv_step. Qed.

Lemma steps_snaps w w' i s :
  rtc step w w' → w_snaps w !! i = Some s → ∃ s', w_snaps w' !! i = Some s' ∧ snap_le s s'.
Proof.
  intros Hr. revert s. induction Hr as [w|w w1 w' (a & _ & ->) _ IH]; intros s Hs.
  { exists s. by split. }
  destruct (exec_snaps _ a _ _ Hs) as (s1 & Hs1 & Hd1 & Ho1).
  destruct (IH _ Hs1) as (s' & Hs' & Hd & Ho). exists s'.
  split; [done|]. split; [congruence|auto].
Qed.

Lemma steps_leases w w' i l :
  rtc step w w' → w_leases w !! i = Some l → ∃ l', w_leases w' !! i = Some l' ∧ lease_le l l'.
Proof.
  intros Hr. revert l. induction Hr as [w|w w1 w' (a & _ & ->) _ IH]; intros l Hl.
  { exists l. by split. }
  destruct (exec_leases _ a _ _ Hl) as (l1 & Hl1 & Hd1 & Ho1).
  destruct (IH _ Hl1) as (l' & Hl' & Hd & Ho). exists l'.
  split; [done|]. split; [congruence|auto].
Qed.

(** An object referred to all along keeps its bytes; a live snapshot or lease
    at the end refers to its digests all along. *)
Lemma steps_snap_data limits w w' i s s' name d o :
  limits_ok limits → inv limits w → rtc step w w' →
  w_snaps w !! i = Some s → w_snaps w' !! i = Some s' → snap_once s' = false →
  snap_digests s !! name = Some d → ss_objects (w_store w) !! d = Some o →
  ∃ o', ss_objects (w_store w') !! d = Some o' ∧ obj_data o' = obj_data o.
Proof.
  intros HL Hinv Hr. revert s o Hinv.
  induction Hr as [w|w w1 w' Hstep Hr IH]; intros s o Hinv Hs Hs' Hlive Hd Ho; [by eauto|].
  pose proof Hstep as (a & _ & Heq).
  destruct (exec_snaps _ a _ _ Hs) as (s1 & Hs1 & Hd1 & _). rewrite <-Heq in Hs1.
  destruct (steps_snaps _ _ _ _ Hr Hs1) as (s2 & Hs2 & _ & Hle). simplify_eq.
  assert (snap_once s1 = false) as Hlive1.
  { destruct (snap_once s1); [|done]. by rewrite Hle in Hlive. }
  rewrite <-Hd1 in Hd.
  destruct (step_data limits w _ d o HL Hinv Hstep Ho) as (o1 & Ho1 & <-);
    [by eapply live_snap_refs|].
  eapply (IH s1); eauto using inv_step.
Qed.

Lemma steps_lease_data limits w w' i l l' o :
  limits_ok limits → inv limits w → rtc step w w' →
  w_leases w !! i = Some l → w_leases w' !! i = Some l' → lease_once l' = false →
  ss_objects (w_store w) !! lease_digest l = Some o →
  ∃ o', ss_objects (w_store w') !! lease_digest l = Some o' ∧ obj_data o' = obj_data o.
Proof.
  intros HL Hinv Hr. revert l o Hinv.
  induction Hr as [w|w w1 w' Hstep Hr IH]; intros l o Hinv Hl Hl' Hlive Ho; [by eauto|].
  pose proof Hstep as (a & _ & Heq).
  destruct (exec_leases _ a _ _ Hl) as (l1 & Hl1 & Hd1 & _). rewrite <-Heq in Hl1.
  destruct (steps_leases _ _ _ _ Hr Hl1) as (l2 & Hl2 & _ & Hle). simplify_eq.
  assert (lease_once l1 = false) as Hlive1.
  { destruct (lease_once l1); [|done]. by rewrite Hle in Hlive. }
  rewrite <-Hd1 in Ho |- *.
  destruct (step_data limits w _ _ o HL Hinv Hstep Ho) as (o1 & Ho1 & <-);
    [by eapply live_lease_refs|].
  eapply (IH l1); eauto using inv_step.
Qed.

(** Committing makes every staged artifact readable under its digest, as long
    as SHA-256 does not collide on the bytes involved. *)
Definition no_collision (P : bytes → Prop) : Prop :=
  ∀ x y, P x → P y → sha256 x = sha256 y → x = y.

(** The bytes a transaction and the store hold. *)
Definition held_bytes (w : World) (t : stagingTransaction) (x : bytes) : Prop :=
  (∃ name a, tx_artifacts t !! name = Some a ∧ sa_data a = x) ∨
  (∃ d o, ss_objects (w_store w) !! d = Some o ∧ obj_data o = x).

Lemma foldl_commit_data st l a :
  (∀ d o, ss_objects st !! d = Some o → sha256 (obj_data o) = d) →
  Forall (λ a, sha256 (sa_data a) = sa_digest a) l → a ∈ l →
  ∃ o, ss_objects (foldl commit_one st l) !! sa_digest a = Some o ∧
    sha256 (obj_data o) = sa_digest a ∧
    ((∃ b, b ∈ l ∧ sa_data b = obj_data o) ∨
     (∃ o0, ss_objects st !! sa_digest a = Some o0 ∧ obj_data o0 = obj_data o)).
Proof.
  intros Hst Hl. revert st Hst. induction Hl as [|b l Hb Hl IH]; intros st Hst Ha; [set_solver|].
  assert (∀ d o, ss_objects (commit_one st b) !! d = Some o → sha256 (obj_data o) = d) as Hst'.
  { intros d o. unfold commit_one. destruct (ss_objects st !! sa_digest b) as [ob|] eqn:Hob; simpl;
      (destruct (decide (sa_digest b = d)) as [<-|Hne];
       [rewrite lookup_insert_eq; intros [= <-]; simpl; by eauto|
        rewrite lookup_insert_ne by done; auto]). }
  simpl. apply elem_of_cons in Ha as [->|Ha].
  - assert (∃ o1, ss_objects (commit_one st b) !! sa_digest b = Some o1 ∧
      (sa_data b = obj_data o1 ∨
       ∃ o0, ss_objects st !! sa_digest b = Some o0 ∧ obj_data o0 = obj_data o1)) as (o1 & Ho1 & Hor).
    { unfold commit_one. destruct (ss_objects st !! sa_digest b); simpl;
        rewrite lookup_insert_eq; eexists; (split; [done|]); simpl; eauto. }
    destruct (foldl_commit_keeps (commit_one st b) l _ _ Ho1) as (o & Ho & Heq).
    exists o. split; [done|]. rewrite Heq. split; [by apply Hst'|].
    destruct Hor as [|(o0 & ? & ?)]; [left; set_solver|right; eauto].
  - destruct (IH _ Hst' Ha) as (o & Ho & Hsha & Hor). exists o. split; [done|]. split; [done|].
    destruct Hor as [(c & Hc & ?)|(o0 & Ho0 & Hd)]; [left; exists c; set_solver|].
    unfold commit_one in Ho0. destruct (ss_objects st !! sa_digest b) as [ob|] eqn:Hob; simpl in Ho0;
      (destruct (decide (sa_digest b = sa_digest a)) as [Heq|Hne];
       [rewrite Heq, lookup_insert_eq in Ho0; injection Ho0 as <-; simpl in Hd|
        rewrite lookup_insert_ne in Ho0 by done; eauto]).
    + right. rewrite <-Heq. eauto.
    + left. exists b. set_solver.
Qed.

Lemma commit_reads limits w tid t order w1 sid name a :
  limits_ok limits → inv limits w → w_txs w !! tid = Some t →
  order ≡ₚ map_to_list (tx_artifacts t) →
  world_commit order w tid = (w1, Ok sid) → no_collision (held_bytes w t) →
  tx_artifacts t !! name = Some a →
  ∃ s o, w_snaps w1 !! sid = Some s ∧ snap_once s = false ∧
    snap_digests s !! name = Some (sa_digest a) ∧
    ss_objects (w_store w1) !! sa_digest a = Some o ∧ obj_data o = sa_data a.
Proof.
  intros HL Hinv Ht Horder Hc Hcol Ha. unfold world_commit in Hc. rewrite Ht in Hc.
  unfold commit in Hc. destruct (tx_closed t) eqn:Hclosed; [done|].
  destruct (_ >? _); [done|].
  destruct (foldl commit_step _ _) as [st arts] eqn:Hf.
  assert (st = foldl commit_one (w_store w) order.*2) as ->.
  { rewrite <-(foldl_commit_step _ (tx_artifacts t)). by rewrite Hf. }
  injection Hc as <- <-. simpl. rewrite lookup_insert_eq.
  assert (map_Forall (λ _ a, sha256 (sa_data a) = sa_digest a) (tx_artifacts t)) as Hsha.
  { destruct (inv_txs _ _ Hinv _ _ Ht) as (_ & _ & Hs). by apply Hs. }
  assert (∀ b, b ∈ order.*2 → ∃ k, tx_artifacts t !! k = Some b) as Hin.
  { intros b ([k b'] & -> & Hkb)%list_elem_of_fmap. rewrite Horder in Hkb.
    apply elem_of_map_to_list in Hkb. by exists k. }
  destruct (foldl_commit_data (w_store w) order.*2 a) as (o & Ho & Hoa & Hor).
  - intros d o Ho. destruct (inv_store _ _ Hinv) as [Hobj _]. specialize (Hobj d).
    rewrite Ho in Hobj. by destruct Hobj as (_ & _ & ?).
  - apply Forall_forall. intros b (k & Hk)%Hin. by apply (Hsha k).
  - apply list_elem_of_fmap. exists (name, a). split; [done|]. rewrite Horder.
    by apply elem_of_map_to_list.
  - eexists _, o. split; [done|]. split; [done|]. simpl.
    rewrite lookup_fmap, Ha. simpl. split; [done|]. split; [done|].
    apply Hcol; [| |by rewrite Hoa, (Hsha name)].
    + destruct Hor as [(b & (k & Hk)%Hin & Hb)|(o0 & Ho0 & Hd)]; [left|right]; eauto.
    + left. eauto.
Qed.

(** [readRange] in terms of a slice of the object. *)
Lemma readRange_eq st l offset maxBytes o :
  ss_objects st !! lease_digest l = Some o → zlen (obj_data o) ≤ MaxInt64 →
  int64_ok offset → int64_ok maxBytes →
  readRange st l offset maxBytes =
    if bool_decide (0 ≤ offset ≤ zlen (obj_data o) ∧ 0 ≤ maxBytes)
    then Some (take (Z.to_nat maxBytes) (drop (Z.to_nat offset) (obj_data o)))
    else None.
Proof.
  intros Ho Hlen Hoff Hmax. unfold readRange. rewrite Ho.
  unfold int64_ok, MinInt64, MaxInt64 in *. pose proof (zlen_nonneg (obj_data o)).
  destruct (_ || _) eqn:Hneg.
  { rewrite bool_decide_false; [done|]. apply orb_true_iff in Hneg as [?|?]; bool_hyps; lia. }
  bool_hyps. destruct (offset >? _) eqn:Hgt; bool_hyps.
  { rewrite bool_decide_false by lia. done. }
  rewrite bool_decide_true by lia. f_equal.
  set (data := obj_data o) in *.
  assert (∀ e, e = Z.min (offset + maxBytes) (zlen data) →
    take (Z.to_nat (e - offset)) (drop (Z.to_nat offset) data)
    = take (Z.to_nat maxBytes) (drop (Z.to_nat offset) data)) as Htake.
  { intros e ->. destruct (decide (offset + maxBytes ≤ zlen data)).
    - f_equal. lia.
    - rewrite !take_ge; [done|..]; rewrite length_drop; unfold zlen in *; lia. }
  apply Htake. destruct (decide (offset + maxBytes < 2 ^ 63)).
  - rewrite wrap64_id by (unfold int64_ok, MinInt64, MaxInt64; lia).
    destruct (_ || _) eqn:Hc; [apply orb_true_iff in Hc as [?|?]|]; bool_hyps; lia.
  - rewrite wrap64_over by lia.
    destruct (_ || _) eqn:Hc; [|bool_hyps; lia]. lia.
Qed.

(** ** Properties *)

(** C1. Whatever the callers do and however their calls interleave, the store's
    reservations are exactly those of the open transactions, its byte count
    is the size of its objects, every object is stored under the SHA-256 of
    its bytes with a reference count equal to the number of live snapshot
    entries and leases naming it, and neither quota is exceeded. *)
Theorem store_accounting limits w :
  limits_ok limits → reachable limits w → inv limits w.
Proof. intros. by apply inv_reachable. Qed.

(** When every transaction is closed and every snapshot and lease released,
    the store is empty again: nothing leaks. *)
Theorem store_drains limits w :
  limits_ok limits → reachable limits w →
  map_Forall (λ _ t, tx_closed t = true) (w_txs w) →
  map_Forall (λ _ s, snap_once s = true) (w_snaps w) →
  map_Forall (λ _ l, lease_once l = true) (w_leases w) →
  SnapshotStore_Stats (w_store w) = mkStoreStats 0 0 0 0.
Proof.
  intros HL Hr Htx Hsn Hle. pose proof (inv_reachable _ HL _ Hr) as [_ [Hobj Hu] Hs1 Hs2 _ _ _].
  assert (map_sum tx_held (w_txs w) = 0) as Hheld.
  { rewrite (map_sum_ext _ (λ _, 0)), map_sum_const; [lia|].
    intros k t Ht. unfold tx_held. by rewrite (Htx k t). }
  assert (∀ d, refs w d = 0) as Hrefs.
  { intros d. unfold refs. rewrite (map_sum_ext _ (λ _, 0) (w_snaps w)).
    - rewrite (map_sum_ext _ (λ _, 0) (w_leases w)); [by rewrite !map_sum_const|].
      intros k l Hl. unfold lease_refs. by rewrite (Hle k l).
    - intros k s Hs. unfold snap_refs. by rewrite (Hsn k s). }
  assert (ss_objects (w_store w) = ∅) as Hempty.
  { apply map_empty. intros d. specialize (Hobj d).
    destruct (_ !! d); [|done]. destruct Hobj as (_ & ? & _). rewrite Hrefs in *. lia. }
  unfold SnapshotStore_Stats. rewrite Hs1, Hs2, Hheld, Hu, Hempty. done.
Qed.

(** C2. A successful commit yields a snapshot through which every staged artifact
    reads back as the bytes that were staged, for as long as the snapshot is
    not released, whatever else happens to the store in between. *)
Theorem committed_bytes_immutable limits w tid t order w1 sid name a w2 s2 :
  limits_ok limits → reachable limits w →
  w_txs w !! tid = Some t → order ≡ₚ map_to_list (tx_artifacts t) →
  no_collision (held_bytes w t) →
  world_commit order w tid = (w1, Ok sid) →
  tx_artifacts t !! name = Some a →
  rtc step w1 w2 → w_snaps w2 !! sid = Some s2 → snap_once s2 = false →
  world_Read w2 sid name = Some (sa_data a).
Proof.
  intros HL Hr Ht Horder Hcol Hc Ha Hsteps Hs2 Hlive.
  pose proof (inv_reachable _ HL _ Hr) as Hinv.
  assert (inv limits w1) as Hinv1.
  { eapply (inv_step limits HL w); [done|]. exists (ACommit tid order). split.
    - intros t' Ht'. by simplify_eq.
    - simpl. by rewrite Hc. }
  destruct (commit_reads _ _ _ _ _ _ _ _ _ HL Hinv Ht Horder Hc Hcol Ha)
    as (s & o & Hs & Honce & Hd & Ho & <-).
  destruct (steps_snap_data limits w1 w2 sid s s2 name (sa_digest a) o) as (o' & Ho' & <-); try done.
  destruct (steps_snaps _ _ _ _ Hsteps Hs) as (s' & Hs' & Hds & _). simplify_eq.
  unfold world_Read. rewrite Hs2. unfold Snapshot_Read. rewrite Hds, Hd. by rewrite Ho'.
Qed.

(** [readRange] returns exactly the requested window clipped to the object,
    for every [int64] offset and length: the addition it guards may overflow,
    the window never does. *)
Theorem readRange_window st l offset maxBytes o :
  ss_objects st !! lease_digest l = Some o → zlen (obj_data o) ≤ MaxInt64 →
  int64_ok offset → int64_ok maxBytes →
  readRange st l offset maxBytes =
    if bool_decide (0 ≤ offset ≤ zlen (obj_data o) ∧ 0 ≤ maxBytes)
    then Some (take (Z.to_nat maxBytes) (drop (Z.to_nat offset) (obj_data o)))
    else None.
Proof. apply readRange_eq. Qed.

(** ** The order in which a commit visits the artifacts *)

Lemma commit_one_comm st a b :
  (sa_digest a = sa_digest b → sa_data a = sa_data b) →
  commit_one (commit_one st a) b = commit_one (commit_one st b) a.
Proof.
  intros Hab. unfold commit_one. destruct (decide (sa_digest a = sa_digest b)) as [Heq|Hne].
  - rewrite <-Heq, (Hab Heq).
    destruct (ss_objects st !! sa_digest a) eqn:E; simpl; by rewrite lookup_insert_eq.
  - destruct (ss_objects st !! sa_digest a) eqn:Ea, (ss_objects st !! sa_digest b) eqn:Eb; simpl;
      rewrite !lookup_insert_ne by done; rewrite Ea, Eb; simpl;
      rewrite (insert_insert_ne _ (sa_digest a)) by done; f_equal; lia.
Qed.

Lemma foldl_commit_perm l1 l2 :
  l1 ≡ₚ l2 → (∀ a b, a ∈ l1 → b ∈ l1 → sa_digest a = sa_digest b → sa_data a = sa_data b) →
  ∀ st, foldl commit_one st l1 = foldl commit_one st l2.
Proof.
  induction 1 as [|a l1 l2 Hl IH|a b l|l1 l2 l3 H12 IH1 H23 IH2]; intros Hd st; simpl.
  - done.
  - apply IH. set_solver.
  - rewrite commit_one_comm; [done|]. apply Hd; set_solver.
  - rewrite IH1 by done. apply IH2. intros a b. rewrite <-!H12. apply Hd.
Qed.

Global Instance commit_newBytes_proper st : Proper ((≡ₚ) ==> (=)) (commit_newBytes st).
Proof.
  induction 1 as [|[??] ????|[??] [??] ?|]; rewrite ?commit_newBytes_cons in *; lia.
Qed.

(** Go does not specify the order in which [commit] ranges over the staged
    artifacts; unless two different staged artifacts collide under SHA-256,
    the resulting store and snapshot (or error) do not depend on it. *)
Theorem commit_order_irrelevant st t order1 order2 :
  tx_ok t → order1 ≡ₚ map_to_list (tx_artifacts t) → order2 ≡ₚ map_to_list (tx_artifacts t) →
  no_collision (λ x, ∃ name a, tx_artifacts t !! name = Some a ∧ sa_data a = x) →
  (commit order1 st t).1.1 = (commit order2 st t).1.1 ∧
  (commit order1 st t).2 = (commit order2 st t).2.
Proof.
  intros (_ & _ & Hsha) H1 H2 Hcol. unfold commit. destruct (tx_closed t); [done|].
  specialize (Hsha eq_refl).
  assert (order1 ≡ₚ order2) as H12 by (by rewrite H1, H2).
  rewrite H12. destruct (_ >? _); [done|].
  pose proof (foldl_commit_step st (tx_artifacts t) order1) as Hf1.
  pose proof (foldl_commit_step st (tx_artifacts t) order2) as Hf2.
  destruct (foldl commit_step _ order1) as [st1 arts1].
  destruct (foldl commit_step _ order2) as [st2 arts2]. simpl in *. subst. split; [|done].
  f_equal. apply foldl_commit_perm; [by rewrite H12|].
  assert (∀ b, b ∈ order1.*2 → ∃ k, tx_artifacts t !! k = Some b) as Hin.
  { intros b ([k b'] & -> & Hkb)%list_elem_of_fmap. rewrite H1 in Hkb.
    apply elem_of_map_to_list in Hkb. by exists k. }
  intros a b (ka & Hka)%Hin (kb & Hkb)%Hin Hd. apply Hcol; [eauto..|].
  by rewrite (Hsha ka), (Hsha kb).
Qed.

(** ** Concrete runs *)

Definition allowedb (w : World) (a : action) : bool :=
  match a with
  | AReserve tid size =>
      (size <=? (MaxSkills + MaxSkillResources + MaxContextReferences) * ArtifactMaxBytes) &&
      match w_txs w !! tid with Some t => negb (tx_closed t) | None => true end
  | ACommit tid order =>
      match w_txs w !! tid with
      | Some t => bool_decide (order = map_to_list (tx_artifacts t))
      | None => true
      end
  | _ => true
  end.

Lemma allowedb_sound w a : allowedb w a = true → allowed w a.
Proof.
  destruct a; simpl; try done.
  - intros [? ?]%andb_true_iff. bool_hyps. split; [done|]. intros t Ht. rewrite Ht in *.
    by bool_hyps.
  - intros H t Ht. rewrite Ht in H. bool_hyps. by subst.
Qed.

Fixpoint run (w : World) (l : list action) : option World :=
  match l with
  | [] => Some w
  | a :: l => if allowedb w a then run (exec w a) l else None
  end.

Lemma run_steps w l w' : run w l = Some w' → rtc step w w'.
Proof.
  revert w. induction l as [|a l IH]; intros w; simpl; [by intros [= ->]|].
  destruct (allowedb w a) eqn:Ha; [|done]. intros Hr.
  eapply rtc_l; [|by apply IH]. exists a. split; [by apply allowedb_sound|done].
Qed.

(** Runs built from a default world, for concrete instances. *)
Definition run_or (w : World) (l : list action) : World := default w (run w l).

Lemma run_or_steps w l : rtc step w (run_or w l).
Proof. unfold run_or. destruct (run w l) eqn:E; [by eapply run_steps|done]. Qed.

Lemma no_collision_list (P : bytes → Prop) (l : list bytes) :
  (∀ x, P x → x ∈ l) → bool_decide (Forall (λ x, Forall (λ y, sha256 x = sha256 y → x = y) l) l) = true →
  no_collision P.
Proof.
  intros HP Hl. bool_hyps. intros x y Hx Hy. rewrite Forall_forall in Hl.
  specialize (Hl x (HP _ Hx)). rewrite Forall_forall in Hl. auto.
Qed.

Definition values {K A} `{Countable K} (m : gmap K A) : list A := (map_to_list m).*2.
Lemma elem_of_values {K A} `{Countable K} (m : gmap K A) k x : m !! k = Some x → x ∈ values m.
Proof. intros Hk. apply list_elem_of_fmap. exists (k, x). split; [done|].
  by apply elem_of_map_to_list. Qed.

Definition tx_contents (t : stagingTransaction) : list bytes := map sa_data (values (tx_artifacts t)).
Definition held_contents (w : World) (t : stagingTransaction) : list bytes :=
  tx_contents t ++ map obj_data (values (ss_objects (w_store w))).

Lemma tx_contents_spec t name a : tx_artifacts t !! name = Some a → sa_data a ∈ tx_contents t.
Proof. intros Ha. apply list_elem_of_fmap. eauto using elem_of_values. Qed.

Lemma held_contents_spec w t x : held_bytes w t x → x ∈ held_contents w t.
Proof.
  intros [(name & a & Ha & <-)|(d & o & Ho & <-)]; apply elem_of_app; [left|right].
  - eauto using tx_contents_spec.
  - apply list_elem_of_fmap. eauto using elem_of_values.
Qed.

(** Two packages that share a file are staged and committed, then the first is
    leased and released. *)
Definition demo_reader (s : string) : reader := mkReader (to_bytes s) None.
Definition demo_w1 : World := run_or (initial_world DefaultStoreLimits)
  [ABegin; AReserve 0 8; AStage 0 "tappet.yaml" (demo_reader "abc") 3 100;
   AStage 0 "notes.md" (demo_reader "hello") 5 100].
Definition demo_tx : stagingTransaction := default begin (w_txs demo_w1 !! 0%nat).
Definition demo_order := map_to_list (tx_artifacts demo_tx).
Definition demo_w2 : World := (world_commit demo_order demo_w1 0).1.
Definition demo_w3 : World := run_or demo_w2
  [ABegin; AReserve 1 5; AStage 1 "copy.md" (demo_reader "hello") 5 100; AAbort 1;
   AAcquire 0 "notes.md" 5 (hex_encode (sha256 (to_bytes "hello"))); AReleaseLease 0].
Definition demo_w4 : World := run_or demo_w3 [AReleaseSnapshot 0].

Lemma store_accounting_witness : limits_ok DefaultStoreLimits ∧ inv DefaultStoreLimits demo_w1.
Proof.
  split; [done|]. apply store_accounting; [done|apply run_or_steps].
Defined.

Lemma demo_w1_reachable : reachable DefaultStoreLimits demo_w1.
Proof. apply run_or_steps. Qed.

Lemma demo_w2_step : step demo_w1 demo_w2.
Proof.
  exists (ACommit 0 demo_order). split; [|done]. apply allowedb_sound. vm_compute. reflexivity.
Qed.

Lemma demo_w4_reachable : reachable DefaultStoreLimits demo_w4.
Proof.
  unfold reachable. etrans; [apply demo_w1_reachable|].
  etrans; [apply rtc_once, demo_w2_step|].
  etrans; [apply run_or_steps|apply run_or_steps].
Qed.

Lemma store_drains_witness :
  size (w_snaps demo_w4) = 1%nat ∧ size (ss_objects (w_store demo_w3)) = 2%nat ∧
  SnapshotStore_Stats (w_store demo_w4) = mkStoreStats 0 0 0 0.
Proof.
  split; [vm_compute; reflexivity|]. split; [vm_compute; reflexivity|].
  apply (store_drains DefaultStoreLimits).
  - done.
  - apply demo_w4_reachable.
  - apply (bool_decide_unpack _). vm_compute. exact I.
  - apply (bool_decide_unpack _). vm_compute. exact I.
  - apply (bool_decide_unpack _). vm_compute. exact I.
Defined.

Lemma committed_bytes_immutable_witness :
  world_Read demo_w3 0 "notes.md" = Some (to_bytes "hello").
Proof.
  apply (committed_bytes_immutable DefaultStoreLimits demo_w1 0 demo_tx demo_order demo_w2 0 "notes.md"
           (mkStaged (to_bytes "hello") (sha256 (to_bytes "hello"))) demo_w3
           (default (mkSnapshot ∅ true) (w_snaps demo_w3 !! 0%nat))).
  - done.
  - apply demo_w1_reachable.
  - vm_compute. reflexivity.
  - done.
  - apply (no_collision_list _ (held_contents demo_w1 demo_tx)).
    + apply held_contents_spec.
    + vm_compute. reflexivity.
  - vm_compute. reflexivity.
  - vm_compute. reflexivity.
  - apply run_or_steps.
  - vm_compute. reflexivity.
  - vm_compute. reflexivity.
Defined.

Lemma readRange_window_witness :
  readRange (mkStore DefaultStoreLimits 0 0 5 {[ [] := mkObject (to_bytes "hello") 1 ]})
    (mkLease [] false) 2 MaxInt64 = Some (to_bytes "llo").
Proof.
  rewrite (readRange_window _ (mkLease [] false) 2 MaxInt64 (mkObject (to_bytes "hello") 1)).
  - rewrite bool_decide_eq_true_2 by (by vm_compute). f_equal.
  - reflexivity.
  - by vm_compute.
  - unfold int64_ok, MinInt64, MaxInt64. lia.
  - unfold int64_ok, MinInt64, MaxInt64. lia.
Defined.

Lemma commit_order_irrelevant_witness :
  length demo_order = 2%nat ∧
  (commit (rev demo_order) (w_store demo_w1) demo_tx).1.1
  = (commit demo_order (w_store demo_w1) demo_tx).1.1.
Proof.
  split; [vm_compute; reflexivity|].
  apply (commit_order_irrelevant (w_store demo_w1) demo_tx (rev demo_order) demo_order).
  - split; [by vm_compute|]. split; [vm_compute; reflexivity|].
    intros _. apply (bool_decide_unpack _). vm_compute. exact I.
  - symmetry. apply Permutation_rev.
  - done.
  - apply (no_collision_list _ (tx_contents demo_tx)).
    + intros x (name & a & Ha & <-). by eapply tx_contents_spec.
    + vm_compute. reflexivity.
Defined.
