(* ===== verification/SnapshotService.v ===== *)
(** * What the snapshot store promises to its clients

    The registry and the read store hold addresses of snapshots and artifact
    leases and call the store through the operations below. The laws are what
    their theorems rely on; [Snapshot.v]'s store discharges them (the instance
    at the end of this file). *)
From S2P Require Import Prelude GoStrings Limits Sha256 Snapshot.
From stdpp Require Import relations.
Local Open Scope Z_scope.

(** ** Interface *)

Class SnapshotOps (W : Type) := {
  svc_Read : W → nat → string → option bytes;
  svc_acquireArtifact : W → nat → string → Z → string → W * option nat;
  svc_readRange : W → nat → Z → Z → option bytes;
  svc_releaseLease : W → nat → W;
  svc_release : W → nat → W;
  (** the snapshot (the lease) exists and has not been released *)
  svc_snap_live : W → nat → bool;
  svc_lease_live : W → nat → bool;
}.

(** The window of [n] bytes at [off] of an artifact's bytes. *)
Definition window (data : bytes) (off n : Z) : bytes :=
  take (Z.to_nat n) (drop (Z.to_nat off) data).

Class SnapshotLaws (W : Type) `{SnapshotOps W} := {
  (** the store is in a state its own operations produce, and the steps any
      of its clients may make *)
  svc_ok : W → Prop;
  svc_evolves : W → W → Prop;
  svc_evolves_refl w : svc_evolves w w;
  svc_evolves_trans w1 w2 w3 : svc_evolves w1 w2 → svc_evolves w2 w3 → svc_evolves w1 w3;
  svc_evolves_ok w w' : svc_ok w → svc_evolves w w' → svc_ok w';
  svc_acquire_evolves w s name n sha : svc_evolves w (svc_acquireArtifact w s name n sha).1;
  svc_releaseLease_evolves w l : svc_evolves w (svc_releaseLease w l);
  svc_release_evolves w s : svc_evolves w (svc_release w s);
  (** what is not released keeps its bytes *)
  svc_Read_stable w w' s name :
    svc_ok w → svc_evolves w w' → svc_snap_live w s = true → svc_snap_live w' s = true →
    svc_Read w' s name = svc_Read w s name;
  svc_readRange_stable w w' l off n :
    svc_ok w → svc_evolves w w' → svc_lease_live w l = true → svc_lease_live w' l = true →
    svc_readRange w' l off n = svc_readRange w l off n;
  (** the liveness of snapshots and leases *)
  svc_release_snap_live w s s' :
    svc_snap_live (svc_release w s) s' = svc_snap_live w s' && negb (s =? s')%nat;
  svc_release_lease_live w s l : svc_lease_live (svc_release w s) l = svc_lease_live w l;
  svc_releaseLease_lease_live w l l' :
    svc_lease_live (svc_releaseLease w l) l' = svc_lease_live w l' && negb (l =? l')%nat;
  svc_releaseLease_snap_live w l s : svc_snap_live (svc_releaseLease w l) s = svc_snap_live w s;
  svc_acquire_snap_live w s name n sha s' :
    svc_snap_live (svc_acquireArtifact w s name n sha).1 s' = svc_snap_live w s';
  svc_acquire_lease_live w s name n sha w' r l :
    svc_acquireArtifact w s name n sha = (w', r) →
    svc_lease_live w' l = svc_lease_live w l || bool_decide (r = Some l);
  svc_acquire_fresh w s name n sha w' l :
    svc_acquireArtifact w s name n sha = (w', Some l) → svc_lease_live w l = false;
  (** acquisition succeeds exactly on the artifact asked for *)
  svc_acquire_Some w s name n sha w' l :
    svc_ok w → svc_acquireArtifact w s name n sha = (w', Some l) →
    ∃ data, svc_Read w s name = Some data ∧ zlen data = n ∧ hex_encode (sha256 data) = sha ∧
      ∀ off len, 0 ≤ off ≤ n → 0 ≤ len → int64_ok n → int64_ok len →
        svc_readRange w' l off len = Some (window data off len);
  svc_acquire_found w s name data :
    svc_ok w → svc_snap_live w s = true → svc_Read w s name = Some data →
    ∃ w' l, svc_acquireArtifact w s name (zlen data) (hex_encode (sha256 data)) = (w', Some l);
}.

(** ** The store implements the interface *)

Definition snap_live (w : World) (s : nat) : bool :=
  match w_snaps w !! s with Some sn => negb (snap_once sn) | None => false end.
Definition lease_live (w : World) (l : nat) : bool :=
  match w_leases w !! l with Some ls => negb (lease_once ls) | None => false end.

Global Instance world_ops : SnapshotOps World := {
  svc_Read := world_Read;
  svc_acquireArtifact := world_acquire;
  svc_readRange := world_readRange;
  svc_releaseLease := world_release_lease;
  svc_release := world_release_snapshot;
  svc_snap_live := snap_live;
  svc_lease_live := lease_live;
}.

Definition world_ok (w : World) : Prop := ∃ limits, limits_ok limits ∧ inv limits w.

Lemma world_evolves_ok w w' : world_ok w → rtc step w w' → world_ok w'.
Proof. intros (limits & HL & Hinv) Hr. exists limits. split; [done|]. by eapply steps_inv. Qed.

Lemma exec_step w a : allowed w a → rtc step w (exec w a).
Proof. intros Ha. apply rtc_once. by exists a. Qed.

Lemma snap_live_Some w s : snap_live w s = true → ∃ sn, w_snaps w !! s = Some sn ∧ snap_once sn = false.
Proof. unfold snap_live. destruct (w_snaps w !! s) as [sn|]; [|done]. intros ?%negb_true_iff. eauto. Qed.
Lemma lease_live_Some w l : lease_live w l = true → ∃ ls, w_leases w !! l = Some ls ∧ lease_once ls = false.
Proof. unfold lease_live. destruct (w_leases w !! l) as [ls|]; [|done]. intros ?%negb_true_iff. eauto. Qed.

Lemma world_Read_stable w w' s name :
  world_ok w → rtc step w w' → snap_live w s = true → snap_live w' s = true →
  world_Read w' s name = world_Read w s name.
Proof.
  intros (limits & HL & Hinv) Hr (sn & Hs & Hl)%snap_live_Some (sn' & Hs' & Hl')%snap_live_Some.
  destruct (steps_snaps _ _ _ _ Hr Hs) as (sn2 & Hs2 & Hd & _). simplify_eq.
  unfold world_Read. rewrite Hs, Hs'. unfold Snapshot_Read. rewrite Hd.
  destruct (snap_digests sn !! name) as [d|] eqn:Hn; [|done].
  destruct (refs_present limits w d Hinv) as (o & Ho & _); [by eapply live_snap_refs|].
  destruct (steps_snap_data limits w w' s sn sn' name d o) as (o' & Ho' & Heq); try done.
  rewrite Ho, Ho'. simpl. by rewrite Heq.
Qed.

Lemma world_readRange_stable w w' l off n :
  world_ok w → rtc step w w' → lease_live w l = true → lease_live w' l = true →
  world_readRange w' l off n = world_readRange w l off n.
Proof.
  intros (limits & HL & Hinv) Hr (ls & Hs & Hl)%lease_live_Some (ls' & Hs' & Hl')%lease_live_Some.
  destruct (steps_leases _ _ _ _ Hr Hs) as (ls2 & Hs2 & Hd & _). simplify_eq.
  unfold world_readRange. rewrite Hs, Hs'. unfold readRange. rewrite Hd.
  destruct (refs_present limits w (lease_digest ls) Hinv) as (o & Ho & _); [by eapply live_lease_refs|].
  destruct (steps_lease_data limits w w' l ls ls' o) as (o' & Ho' & Heq); try done.
  rewrite Ho, Ho', Heq. done.
Qed.

(** What [world_acquire] does when it succeeds. *)
Lemma world_acquire_inv w s name n sha w' l :
  world_acquire w s name n sha = (w', Some l) →
  ∃ sn d o, w_snaps w !! s = Some sn ∧ snap_digests sn !! name = Some d ∧
    ss_objects (w_store w) !! d = Some o ∧ zlen (obj_data o) = n ∧ hex_encode d = sha ∧
    l = fresh (dom (w_leases w)) ∧
    w' = mkWorld (retain (w_store w) d o) (w_txs w) (w_snaps w)
           (<[l := mkLease d false]> (w_leases w)).
Proof.
  unfold world_acquire, acquireArtifact. intros H.
  destruct (w_snaps w !! s) as [sn|]; [|done].
  destruct (snap_digests sn !! name) as [d|] eqn:Hd; [|done].
  destruct (ss_objects (w_store w) !! d) as [o|] eqn:Ho; [|done].
  destruct (_ || _) eqn:Hg; [done|]. bool_hyps. apply String.eqb_eq in H1.
  simplify_eq. eauto 12.
Qed.

Lemma world_acquire_None w s name n sha w' :
  world_acquire w s name n sha = (w', None) → w' = w.
Proof.
  unfold world_acquire, acquireArtifact. intros H. destruct w. simpl in *.
  repeat case_match; simplify_eq; done.
Qed.

Lemma world_acquire_Some w s name n sha w' l :
  world_ok w → world_acquire w s name n sha = (w', Some l) →
  ∃ data, world_Read w s name = Some data ∧ zlen data = n ∧ hex_encode (sha256 data) = sha ∧
    ∀ off len, 0 ≤ off ≤ n → 0 ≤ len → int64_ok n → int64_ok len →
      world_readRange w' l off len = Some (window data off len).
Proof.
  intros (limits & HL & Hinv) (sn & d & o & Hs & Hd & Ho & <- & <- & -> & ->)%world_acquire_inv.
  exists (obj_data o). unfold world_Read, Snapshot_Read. rewrite Hs, Hd, Ho.
  split; [done|]. split; [done|]. split.
  - destruct (inv_store _ _ Hinv) as [Hobj _]. specialize (Hobj d). rewrite Ho in Hobj.
    by destruct Hobj as (_ & _ & ->).
  - intros off len Hoff Hlen Hn Hl. unfold world_readRange. simpl. rewrite lookup_insert_eq.
    rewrite (readRange_eq _ _ _ _ (mkObject (obj_data o) (obj_refs o + 1))).
    + rewrite bool_decide_eq_true_2 by (simpl; lia). done.
    + simpl. by rewrite lookup_insert_eq.
    + unfold int64_ok in *. simpl. lia.
    + unfold int64_ok, MinInt64, MaxInt64 in *. lia.
    + done.
Qed.

Lemma world_acquire_found w s name data :
  world_ok w → snap_live w s = true → world_Read w s name = Some data →
  ∃ w' l, world_acquire w s name (zlen data) (hex_encode (sha256 data)) = (w', Some l).
Proof.
  intros (limits & HL & Hinv) _. unfold world_Read, Snapshot_Read, world_acquire, acquireArtifact.
  destruct (w_snaps w !! s) as [sn|]; [|done].
  destruct (snap_digests sn !! name) as [d|] eqn:Hd; [|done].
  destruct (ss_objects (w_store w) !! d) as [o|] eqn:Ho; [|done].
  intros [= <-]. destruct (inv_store _ _ Hinv) as [Hobj _]. specialize (Hobj d).
  rewrite Ho in Hobj. destruct Hobj as (_ & _ & ->).
  rewrite Z.eqb_refl, String.eqb_refl. simpl. eauto.
Qed.

Lemma world_release_snap_live w s s' :
  snap_live (world_release_snapshot w s) s' = snap_live w s' && negb (s =? s')%nat.
Proof.
  unfold snap_live, world_release_snapshot, Snapshot_release.
  destruct (w_snaps w !! s) as [sn|] eqn:Hs.
  - destruct (snap_once sn) eqn:Ho; simpl; destruct (Nat.eqb_spec s s') as [<-|Hne];
      rewrite ?lookup_insert_eq, ?lookup_insert_ne, ?Hs by done; simpl;
      rewrite ?Ho, ?andb_false_r, ?andb_true_r; done.
  - destruct (Nat.eqb_spec s s') as [<-|Hne]; [by rewrite Hs|by rewrite andb_true_r].
Qed.

Lemma world_releaseLease_lease_live w l l' :
  lease_live (world_release_lease w l) l' = lease_live w l' && negb (l =? l')%nat.
Proof.
  unfold lease_live, world_release_lease, artifactLease_release.
  destruct (w_leases w !! l) as [ls|] eqn:Hs.
  - destruct (lease_once ls) eqn:Ho; simpl; destruct (Nat.eqb_spec l l') as [<-|Hne];
      rewrite ?lookup_insert_eq, ?lookup_insert_ne, ?Hs by done; simpl;
      rewrite ?Ho, ?andb_false_r, ?andb_true_r; done.
  - destruct (Nat.eqb_spec l l') as [<-|Hne]; [by rewrite Hs|by rewrite andb_true_r].
Qed.

Lemma world_acquire_lease_live w s name n sha w' r l :
  world_acquire w s name n sha = (w', r) →
  lease_live w' l = lease_live w l || bool_decide (r = Some l).
Proof.
  destruct r as [l0|].
  - intros (sn & d & o & _ & _ & _ & _ & _ & Hl0 & ->)%world_acquire_inv.
    unfold lease_live. simpl. destruct (decide (l0 = l)) as [<-|Hne].
    + rewrite lookup_insert_eq, Hl0. simpl. rewrite lookup_fresh.
      by rewrite bool_decide_true.
    + rewrite lookup_insert_ne, bool_decide_false by congruence. by rewrite orb_false_r.
  - intros ->%world_acquire_None. rewrite bool_decide_false by done. by rewrite orb_false_r.
Qed.

Global Instance world_laws : SnapshotLaws World.
Proof.
  refine {| svc_ok := world_ok; svc_evolves := rtc step |}; simpl.
  - done.
  - intros w1 w2 w3 H12 H23. by etrans.
  - apply world_evolves_ok.
  - intros w s name n sha. by apply (exec_step w (AAcquire s name n sha)).
  - intros w l. by apply (exec_step w (AReleaseLease l)).
  - intros w s. by apply (exec_step w (AReleaseSnapshot s)).
  - apply world_Read_stable.
  - apply world_readRange_stable.
  - apply world_release_snap_live.
  - intros w s l. unfold lease_live, world_release_snapshot. repeat case_match; simplify_eq/=; done.
  - apply world_releaseLease_lease_live.
  - intros w l s. unfold snap_live, world_release_lease. repeat case_match; simplify_eq/=; done.
  - intros w s name n sha s'. unfold snap_live, world_acquire. by repeat (case_match; simplify_eq/=).
  - apply world_acquire_lease_live.
  - intros w s name n sha w' l (sn & d & o & _ & _ & _ & _ & _ & -> & _)%world_acquire_inv.
    unfold lease_live. by rewrite lookup_fresh.
  - apply world_acquire_Some.
  - apply world_acquire_found.
Defined.
