(* ===== verification/Records.v ===== *)
(** * Normalised capability records

    Models [internal/capability/types.go] and [record.go]: the manifest's
    data, artifacts and skills, the immutable [Record] a package is normalised
    into, and the canonical order and references its artifacts are given. A
    record's snapshot is the address of a [Snapshot] of the store. *)
From S2P Require Import Prelude GoStrings Limits Sha256 SnapshotService.
From Stdlib Require Import Ascii String.
Local Open Scope string_scope.
Local Open Scope list_scope.

(** ** [types.go] *)

Record Metadata := mkMetadata {
  md_ID : string; md_Name : string; md_Version : string; md_Description : string;
  md_Tags : list string }.

Record SkillResource := mkSkillResource { sr_ID : string; sr_Kind : string; sr_Path : string }.
Record SkillDeclaration := mkSkillDeclaration {
  sd_Path : string; sd_Resources : list SkillResource }.
Record Operation := mkOperation {
  op_ID : string; op_Description : string; op_Provider : string; op_Target : string }.
Record ContextReference := mkContextReference { cr_ID : string; cr_Path : string }.
Record ProviderBinding := mkProviderBinding {
  pb_ID : string; pb_Type : string; pb_ServerRef : string }.

Record Spec := mkSpec {
  sp_Parent : string; sp_Skills : list SkillDeclaration; sp_Operations : list Operation;
  sp_Context : list ContextReference; sp_Providers : list ProviderBinding }.

Record Manifest := mkManifest {
  mf_APIVersion : string; mf_Kind : string; mf_Metadata : Metadata; mf_Spec : Spec }.

Record SkillMetadata := mkSkillMetadata {
  sm_Name : string; sm_Description : string; sm_License : string; sm_AllowedTools : string;
  sm_Compatibility : string; sm_Metadata : gmap string string }.
Record SkillDocument := mkSkillDocument { doc_Metadata : SkillMetadata; doc_Body : string }.

(** ** [record.go] *)

Inductive ArtifactKind : Type :=
| ArtifactManifest | ArtifactSkill | ArtifactSkillResource | ArtifactContext.

(** The string value of an [ArtifactKind]. *)
Definition kind_string (k : ArtifactKind) : string :=
  match k with
  | ArtifactManifest => "manifest"
  | ArtifactSkill => "skill"
  | ArtifactSkillResource => "skill_resource"
  | ArtifactContext => "context"
  end.

Record Artifact := mkArtifact {
  af_Ref : string; af_Kind : ArtifactKind; af_ID : string; af_Path : string;
  af_MediaType : string; af_Bytes : Z; af_SHA256 : string }.

Record Skill := mkSkill {
  sk_Path : string; sk_Metadata : SkillMetadata; sk_Artifact : Artifact;
  sk_Resources : list Artifact }.

(** [Record]; [rec_snapshot] is [None] for a nil pointer. *)
Record CapRecord := mkRecord {
  rec_metadata : Metadata;
  rec_parent : string;
  rec_manifestDigest : string;
  rec_skills : list Skill;
  rec_operations : list Operation;
  rec_context : list Artifact;
  rec_providers : list ProviderBinding;
  rec_artifacts : gmap string Artifact;
  rec_snapshot : option nat;
}.

Global Instance Metadata_eq_dec : EqDecision Metadata.
Proof. solve_decision. Defined.
Global Instance Operation_eq_dec : EqDecision Operation.
Proof. solve_decision. Defined.
Global Instance ProviderBinding_eq_dec : EqDecision ProviderBinding.
Proof. solve_decision. Defined.
Global Instance ArtifactKind_eq_dec : EqDecision ArtifactKind.
Proof. solve_decision. Defined.
Global Instance Artifact_eq_dec : EqDecision Artifact.
Proof. solve_decision. Defined.
Global Instance SkillMetadata_eq_dec : EqDecision SkillMetadata.
Proof. solve_decision. Defined.
Global Instance Skill_eq_dec : EqDecision Skill.
Proof. solve_decision. Defined.

Section record_methods.
Context {W : Type} `{SnapshotOps W}.

(** [ReadArtifact], [acquireArtifact] and [release] *)
Definition ReadArtifact (w : W) (r : CapRecord) (ref : string) : option bytes :=
  match rec_artifacts r !! ref, rec_snapshot r with
  | Some a, Some s => svc_Read w s (af_Path a)
  | _, _ => None
  end.

Definition record_acquireArtifact (w : W) (r : CapRecord) (ref : string) :
    W * option (Artifact * nat) :=
  match rec_artifacts r !! ref, rec_snapshot r with
  | Some a, Some s =>
      match svc_acquireArtifact w s (af_Path a) (af_Bytes a) (af_SHA256 a) with
      | (w', Some l) => (w', Some (a, l))
      | (w', None) => (w', None)
      end
  | _, _ => (w, None)
  end.

Definition record_release (w : W) (r : CapRecord) : W :=
  match rec_snapshot r with Some s => svc_release w s | None => w end.
End record_methods.

(** [mime.TypeByExtension] consults tables of the operating system: a
    parameter. *)
Class MimeTable := TypeByExtension : string → string.

(** [filepath.Ext] *)
Definition filepath_Ext (p : string) : string :=
  let base := match LastIndexByte p "/"%char with
              | i => slice_from p (i + 1)
              end in
  if (0 <=? LastIndexByte base "."%char)%Z then slice_from base (LastIndexByte base "."%char) else "".

Definition NUL : string := String (ascii_of_nat 0) "".

Definition newArtifact `{MimeTable} (manifest : Manifest) (manifestDigest : string)
    (kind : ArtifactKind) (id packagePath : string) (data digest : bytes) : Artifact :=
  let dig := hex_encode digest in
  let refSource := md_ID (mf_Metadata manifest) +:+ NUL +:+ md_Version (mf_Metadata manifest) +:+ NUL
                   +:+ manifestDigest +:+ NUL +:+ kind_string kind +:+ NUL +:+ id +:+ NUL +:+ dig in
  let refDigest := sha256 (to_bytes refSource) in
  let mediaType := TypeByExtension (filepath_Ext packagePath) in
  {| af_Ref := "artifact:v1:" +:+ hex_encode refDigest;
     af_Kind := kind;
     af_ID := id;
     af_Path := packagePath;
     af_MediaType := if String.eqb mediaType "" then "text/plain; charset=utf-8" else mediaType;
     af_Bytes := zlen data;
     af_SHA256 := dig |}.

(** [sort.Slice] by a string key: the keys of a normalised record are unique,
    so an unstable sort is the stable one. *)
Definition key_le {A} (key : A → string) (x y : A) : Prop := str_le (key x) (key y).
Global Instance key_le_dec {A} (key : A → string) : RelDecision (key_le key).
Proof. intros x y. unfold key_le, str_le. apply _. Defined.
Definition sort_by {A} (key : A → string) (l : list A) : list A := merge_sort (key_le key) l.

Definition sortRecord (r : CapRecord) : CapRecord :=
  {| rec_metadata := rec_metadata r;
     rec_parent := rec_parent r;
     rec_manifestDigest := rec_manifestDigest r;
     rec_skills :=
       map (λ s, mkSkill (sk_Path s) (sk_Metadata s) (sk_Artifact s) (sort_by af_ID (sk_Resources s)))
         (sort_by sk_Path (rec_skills r));
     rec_operations := sort_by op_ID (rec_operations r);
     rec_context := sort_by af_ID (rec_context r);
     rec_providers := sort_by pb_ID (rec_providers r);
     rec_artifacts := rec_artifacts r;
     rec_snapshot := rec_snapshot r |}.

(** ** Lemmas *)

Global Instance str_le_total : Total str_le.
Proof. unfold str_le. apply _. Qed.
Global Instance str_le_trans : Transitive str_le.
Proof. unfold str_le. apply _. Qed.
Global Instance key_le_total {A} (key : A → string) : Total (key_le key).
Proof. intros x y. apply (total str_le). Qed.
Global Instance key_le_trans {A} (key : A → string) : Transitive (key_le key).
Proof. intros x y z. unfold key_le. apply transitivity. Qed.

Lemma sort_by_perm {A} (key : A → string) l : sort_by key l ≡ₚ l.
Proof. apply merge_sort_Permutation. Qed.

Lemma sort_by_sorted {A} (key : A → string) l : StronglySorted (key_le key) (sort_by key l).
Proof. apply StronglySorted_merge_sort; apply _. Qed.

(** With unique keys the sorted list is determined by its elements. *)
Lemma sorted_unique {A} (key : A → string) (l1 l2 : list A) :
  l1 ≡ₚ l2 → NoDup (map key l1) → StronglySorted (key_le key) l1 → StronglySorted (key_le key) l2 → l1 = l2.
Proof.
  intros Hp Hnd H1 H2. revert l2 Hp H2. induction H1 as [|x l1 H1 IH Hx]; intros l2 Hp H2.
  { by apply Permutation_nil_l in Hp. }
  destruct H2 as [|y l2 H2 Hy]; [by apply Permutation_nil_r in Hp|].
  apply NoDup_cons in Hnd as [Hn Hnd].
  assert (x = y) as <-.
  { assert (x ∈ y :: l2) as Hin by (rewrite <-Hp; set_solver).
    assert (y ∈ x :: l1) as Hin' by (rewrite Hp; set_solver).
    apply elem_of_cons in Hin as [->|Hin]; [done|].
    apply elem_of_cons in Hin' as [<-|Hin']; [done|].
    rewrite Forall_forall in Hx, Hy. pose proof (Hx _ Hin') as Hxy. pose proof (Hy _ Hin) as Hyx.
    assert (key x = key y) as Heq by (eapply (anti_symm String.le); done).
    destruct Hn. rewrite Heq. by apply list_elem_of_fmap_2. }
  f_equal. apply IH; [done| |done]. by apply Permutation_cons_inv in Hp.
Qed.

Lemma sort_by_order {A} (key : A → string) (l1 l2 : list A) :
  l1 ≡ₚ l2 → NoDup (map key l1) → sort_by key l1 = sort_by key l2.
Proof.
  intros Hp Hnd. apply (sorted_unique key).
  - by rewrite !sort_by_perm.
  - assert (map key (sort_by key l1) ≡ₚ map key l1) as -> by (by rewrite sort_by_perm). done.
  - apply sort_by_sorted.
  - apply sort_by_sorted.
Qed.
