(* ===== verification/Registry.v ===== *)
(** * The capability registry

    Models [internal/capability/registry.go]: installed capabilities and their
    generations, the leases that keep a retired generation alive, the
    hierarchy rebuilt from the installed IDs, and the resolution of
    operations and of dotted tool paths. Generations and leases live at
    addresses of [RState]; records hold snapshots of a store used through the
    interface of [SnapshotService.v]. Every method runs under [r.mu], so it is
    one atomic step; [ResolveToolPath] takes the lock twice and is two. *)
From stdpp Require Import relations.
From Stdlib Require Import Ascii String.
From S2P Require Import Prelude GoStrings Limits Sha256 SnapshotService Records.
Local Open Scope string_scope.
Local Open Scope list_scope.
Local Open Scope Z_scope.

(** ** Data *)

Definition ErrRegistryClosed := Sentinel "capability registry is closed".
Definition ErrCapabilityNotFound := Sentinel "capability not found".
Definition ErrOperationNotFound := Sentinel "capability operation not found".
Definition ErrCapabilityDuplicate := Sentinel "capability is already installed".
Definition ErrGenerationReleased := Sentinel "capability generation lease is released".
Definition ErrHierarchyPathNotFound := Sentinel "hierarchy path not found".

Record registryGeneration := mkGen {
  gen_id : Z; gen_record : CapRecord; gen_refs : Z; gen_retired : bool }.

Record hierarchyNode := mkNode { hn_capabilityID : string; hn_children : list string }.

Record Registry := mkRegistry {
  r_entries : gmap string nat;
  r_nodes : gmap string hierarchyNode;
  r_next : Z;
  r_revision : Z;
  r_closed : bool;
}.

(** [CapabilityLease] and [InvocationLease]; the boolean is the [sync.Once]. *)
Record InvocationTarget := mkTarget {
  it_capabilityID : string; it_operation : Operation; it_binding : ProviderBinding }.
Record RegLease := mkRegLease {
  ls_generation : nat; ls_once : bool; ls_target : option InvocationTarget }.

(** The registry with the generations and leases it has handed out, the store
    its records read from, and the calls made to the [onReclaim] hook. *)
Record RState (W : Type) := mkRState {
  g_reg : Registry;
  g_heap : gmap nat registryGeneration;
  g_leases : gmap nat RegLease;
  g_reclaimed : list Z;
  g_world : W;
}.
Arguments mkRState {W} _ _ _ _ _.
Arguments g_reg {W} _.
Arguments g_heap {W} _.
Arguments g_leases {W} _.
Arguments g_reclaimed {W} _.
Arguments g_world {W} _.

Record HierarchyEntry := mkHEntry {
  he_Path : string; he_CapabilityID : string; he_Name : string; he_Description : string;
  he_Operations : Z }.
Record HierarchyView := mkHView {
  hv_Path : string; hv_CapabilityID : string; hv_Children : list HierarchyEntry }.

(** ** The hierarchy *)

Definition zero_node : hierarchyNode := mkNode "" [].
Abbreviation edge_map := (gmap string (gset string)).

(** One iteration of the loop of [ensurePath]. *)
Definition ensure_step (parts : list string)
    (acc : gmap string hierarchyNode * edge_map * string) (index : nat) :
    gmap string hierarchyNode * edge_map * string :=
  let '(nodes, edges, parent) := acc in
  let current := Join (take (S index) parts) "." in
  (match nodes !! current with Some _ => nodes | None => <[current := zero_node]> nodes end,
   <[parent := {[current]} ∪ default ∅ (edges !! parent)]> edges,
   current).

Definition ensurePath (hierarchyPath : string) (acc : gmap string hierarchyNode * edge_map) :
    gmap string hierarchyNode * edge_map :=
  if String.eqb hierarchyPath "" then acc
  else
    let parts := Split hierarchyPath "."%char in
    (foldl (ensure_step parts) (acc, "") (seq 0 (length parts))).1.

Definition entry_step (acc : gmap string hierarchyNode * edge_map) (e : string * CapRecord) :
    gmap string hierarchyNode * edge_map :=
  let '(nodes, edges) := ensurePath e.1 (ensurePath (rec_parent e.2) acc) in
  let node := default zero_node (nodes !! e.1) in
  (<[e.1 := mkNode e.1 (hn_children node)]> nodes, edges).

Definition children_step (nodes : gmap string hierarchyNode) (e : string * gset string) :
    gmap string hierarchyNode :=
  let node := default zero_node (nodes !! e.1) in
  <[e.1 := mkNode (hn_capabilityID node)
             (merge_sort str_le (hn_children node ++ elements e.2))]> nodes.

(** [rebuildHierarchyLocked], over the installed records in the order [range]
    visits them. *)
Definition rebuildHierarchy (records : list (string * CapRecord)) : gmap string hierarchyNode :=
  let '(nodes, edges) := foldl entry_step ({["" := zero_node]}, ∅) records in
  foldl children_step nodes (map_to_list edges).

Section registry.
Context {W : Type} `{SnapshotOps W}.
Implicit Types s : RState W.

(** The record installed under each ID. *)
Definition installed_records s : list (string * CapRecord) :=
  omap (λ '(id, a), (λ g, (id, gen_record g)) <$> g_heap s !! a) (map_to_list (r_entries (g_reg s))).

(** ** State updates *)

Definition with_reg s (r : Registry) : RState W :=
  mkRState r (g_heap s) (g_leases s) (g_reclaimed s) (g_world s).
Definition with_gen s (a : nat) (g : registryGeneration) : RState W :=
  mkRState (g_reg s) (<[a := g]> (g_heap s)) (g_leases s) (g_reclaimed s) (g_world s).
Definition with_lease s (l : nat) (x : RegLease) : RState W :=
  mkRState (g_reg s) (g_heap s) (<[l := x]> (g_leases s)) (g_reclaimed s) (g_world s).

(** [r.rebuildHierarchyLocked()] *)
Definition rebuildHierarchyLocked s : RState W :=
  let r := g_reg s in
  with_reg s (mkRegistry (r_entries r) (rebuildHierarchy (installed_records s)) (r_next r)
                (r_revision r) (r_closed r)).
(** [r.revision++] *)
Definition bump_revision s : RState W :=
  let r := g_reg s in
  with_reg s (mkRegistry (r_entries r) (r_nodes r) (r_next r) (wrapU64 (r_revision r + 1)) (r_closed r)).

(** ** Generations *)

Definition reclaimLocked s (g : registryGeneration) : RState W :=
  mkRState (g_reg s) (g_heap s) (g_leases s) (g_reclaimed s ++ [gen_id g])
    (record_release (g_world s) (gen_record g)).

Definition retireLocked s (a : nat) : RState W :=
  match g_heap s !! a with
  | None => s
  | Some g =>
      let g' := mkGen (gen_id g) (gen_record g) (gen_refs g - 1) true in
      if gen_refs g' =? 0 then reclaimLocked (with_gen s a g') g' else with_gen s a g'
  end.

Definition release s (a : nat) : RState W :=
  match g_heap s !! a with
  | None => s
  | Some g =>
      if gen_refs g <=? 0 then s
      else
        let g' := mkGen (gen_id g) (gen_record g) (gen_refs g - 1) (gen_retired g) in
        if (gen_refs g' =? 0) && gen_retired g' then reclaimLocked (with_gen s a g') g'
        else with_gen s a g'
  end.

(** [r.next++; r.entries[id] = &registryGeneration{...}] *)
Definition publish s (id : string) (record : CapRecord) : RState W :=
  let r := g_reg s in
  let a := fresh (dom (g_heap s)) in
  let next := wrapU64 (r_next r + 1) in
  with_gen (with_reg s (mkRegistry (<[id := a]> (r_entries r)) (r_nodes r) next (r_revision r) (r_closed r)))
    a (mkGen next record 1 false).

Definition record_required : error := ErrorNew "normalized capability record is required".

(** [record == nil || record.snapshot == nil] *)
Definition usable (record : option CapRecord) : option CapRecord :=
  match record with
  | Some r => match rec_snapshot r with Some _ => Some r | None => None end
  | None => None
  end.

Definition addLocked s (record : option CapRecord) : result error (RState W) :=
  match usable record with
  | None => Err record_required
  | Some rec =>
      let id := md_ID (rec_metadata rec) in
      match r_entries (g_reg s) !! id with
      | Some _ => Err (Wrapf "%w: %s" [FStr id] ErrCapabilityDuplicate)
      | None => Ok (publish s id rec)
      end
  end.

(** ** Methods: a method returns the new state and its result *)

Definition Add s (record : option CapRecord) : RState W * option error :=
  if r_closed (g_reg s) then (s, Some ErrRegistryClosed)
  else match addLocked s record with
       | Err e => (s, Some e)
       | Ok s' => (bump_revision (rebuildHierarchyLocked s'), None)
       end.

Definition Reinstall s (record : option CapRecord) : RState W * option error :=
  match usable record with
  | None => (s, Some record_required)
  | Some rec =>
      if r_closed (g_reg s) then (s, Some ErrRegistryClosed)
      else
        let id := md_ID (rec_metadata rec) in
        match r_entries (g_reg s) !! id with
        | None => (s, Some (Wrapf "%w: %s" [FStr id] ErrCapabilityNotFound))
        | Some current =>
            (bump_revision (rebuildHierarchyLocked (retireLocked (publish s id rec) current)), None)
        end
  end.

(** [delete(r.entries, id)] *)
Definition remove_entry s (id : string) : RState W :=
  let r := g_reg s in
  with_reg s (mkRegistry (delete id (r_entries r)) (r_nodes r) (r_next r) (r_revision r) (r_closed r)).

Definition Uninstall s (capabilityID : string) : RState W * option error :=
  if r_closed (g_reg s) then (s, Some ErrRegistryClosed)
  else match r_entries (g_reg s) !! capabilityID with
       | None => (s, Some (Wrapf "%w: %s" [FStr capabilityID] ErrCapabilityNotFound))
       | Some current =>
           (bump_revision (rebuildHierarchyLocked (retireLocked (remove_entry s capabilityID) current)),
            None)
       end.

(** [generation, exists := r.entries[id]; !exists || generation.retired] *)
Definition live_entry s (id : string) : option (nat * registryGeneration) :=
  match r_entries (g_reg s) !! id with
  | None => None
  | Some a =>
      match g_heap s !! a with
      | None => None
      | Some g => if gen_retired g then None else Some (a, g)
      end
  end.

(** [generation.refs++; return &Lease{...}] *)
Definition new_lease s (a : nat) (g : registryGeneration) (t : option InvocationTarget) :
    RState W * nat :=
  let l := fresh (dom (g_leases s)) in
  (with_lease (with_gen s a (mkGen (gen_id g) (gen_record g) (gen_refs g + 1) (gen_retired g)))
     l (mkRegLease a false t), l).

Definition Lookup s (capabilityID : string) : RState W * result error nat :=
  if r_closed (g_reg s) then (s, Err ErrRegistryClosed)
  else match live_entry s capabilityID with
       | None => (s, Err (Wrapf "%w: %s" [FStr capabilityID] ErrCapabilityNotFound))
       | Some (a, g) => let '(s', l) := new_lease s a g None in (s', Ok l)
       end.

(** The first element satisfying a test: the shape of both loops of
    [ResolveOperation]. *)
Fixpoint first_such {A} (p : A → bool) (l : list A) : option A :=
  match l with
  | [] => None
  | x :: l => if p x then Some x else first_such p l
  end.

Definition find_target (capabilityID operationID : string) (rec : CapRecord) :
    result error InvocationTarget :=
  match first_such (λ o, String.eqb (op_ID o) operationID) (rec_operations rec) with
  | None => Err (Wrapf "%w: %s/%s" [FStr capabilityID; FStr operationID] ErrOperationNotFound)
  | Some operation =>
      match first_such (λ b, String.eqb (pb_ID b) (op_Provider operation)) (rec_providers rec) with
      | None =>
          Err (packageError "operation_generation_invalid" (capabilityID +:+ "/" +:+ operationID)
                 (Errorf "provider binding %q is absent" [FStr (op_Provider operation)]))
      | Some binding => Ok (mkTarget capabilityID operation binding)
      end
  end.

Definition ResolveOperation s (capabilityID operationID : string) : RState W * result error nat :=
  if r_closed (g_reg s) then (s, Err ErrRegistryClosed)
  else match live_entry s capabilityID with
       | None => (s, Err (Wrapf "%w: %s" [FStr capabilityID] ErrCapabilityNotFound))
       | Some (a, g) =>
           match find_target capabilityID operationID (gen_record g) with
           | Err e => (s, Err e)
           | Ok t => let '(s', l) := new_lease s a g (Some t) in (s', Ok l)
           end
       end.

(** ** Tool paths *)

(** The body of the first loop of [ResolveToolPath]. *)
Definition legacyMatch s (toolPath : string) (e : string * nat) : option (string * string) :=
  match g_heap s !! e.2 with
  | None => None
  | Some g =>
      match gen_retired g, rec_operations (gen_record g) with
      | false, [operation] =>
          let legacyPath :=
            if String.eqb (rec_parent (gen_record g)) "" then op_Target operation
            else rec_parent (gen_record g) +:+ "." +:+ op_Target operation in
          if String.eqb toolPath legacyPath
             || String.eqb toolPath (legacyPath +:+ "." +:+ op_Target operation)
          then Some (e.1, op_ID operation)
          else None
      | _, _ => None
      end
  end.

(** The part of [ResolveToolPath] that runs under the read lock, and the
    split that follows it: the arguments of the call of [ResolveOperation],
    or the error returned. *)
Definition tool_plan (order : list (string * nat)) s (toolPath : string) :
    result error (string * string) :=
  match omap (legacyMatch s toolPath) order with
  | [m] => Ok m
  | _ :: _ :: _ =>
      Err (Wrapf "%w: ambiguous legacy tool path %s" [FStr toolPath] ErrOperationNotFound)
  | [] =>
      let separator := LastIndexByte toolPath "."%char in
      let by_dot :=
        if (separator <=? 0) || (separator =? slen toolPath - 1) then
          Err (Wrapf "%w: %s" [FStr toolPath] ErrOperationNotFound)
        else Ok (slice_to toolPath separator, slice_from toolPath (separator + 1)) in
      match live_entry s toolPath with
      | Some (_, g) =>
          match rec_operations (gen_record g) with
          | [operation] =>
              let lastSegment :=
                if 0 <=? separator then slice_from toolPath (separator + 1) else toolPath in
              if String.eqb (op_ID operation) lastSegment then Ok (toolPath, op_ID operation)
              else by_dot
          | _ => by_dot
          end
      | None => by_dot
      end
  end.

(** [ResolveToolPath] when nothing runs between its two critical sections. *)
Definition ResolveToolPath (order : list (string * nat)) s (toolPath : string) :
    RState W * result error nat :=
  match tool_plan order s toolPath with
  | Err e => (s, Err e)
  | Ok (capabilityID, operationID) => ResolveOperation s capabilityID operationID
  end.

(** ** Reading *)

Definition CapabilityIDs s : list string :=
  if r_closed (g_reg s) then []
  else merge_sort str_le (map_to_list (r_entries (g_reg s))).*1.

Definition browse_child s (childPath : string) : HierarchyEntry :=
  let childNode := default zero_node (r_nodes (g_reg s) !! childPath) in
  let id := hn_capabilityID childNode in
  let bare := mkHEntry childPath id "" "" 0 in
  if String.eqb id "" then bare
  else match r_entries (g_reg s) !! id with
       | None => bare
       | Some a =>
           match g_heap s !! a with
           | None => bare
           | Some g =>
               mkHEntry childPath id (md_Name (rec_metadata (gen_record g)))
                 (md_Description (rec_metadata (gen_record g)))
                 (zlen (rec_operations (gen_record g)))
           end
       end.

Definition browseLocked s (hierarchyPath : string) : result error HierarchyView :=
  match r_nodes (g_reg s) !! hierarchyPath with
  | None => Err (Wrapf "%w: %s" [FStr hierarchyPath] ErrHierarchyPathNotFound)
  | Some node =>
      Ok (mkHView hierarchyPath (hn_capabilityID node) (map (browse_child s) (hn_children node)))
  end.

(** The normalisation of the path by [Browse]. *)
Definition browse_path (hierarchyPath : string) : string :=
  let p := Trim hierarchyPath "."%char in
  if String.eqb p "/" then "" else p.

Definition Browse s (hierarchyPath : string) : result error HierarchyView :=
  if r_closed (g_reg s) then Err ErrRegistryClosed
  else browseLocked s (browse_path hierarchyPath).

(** ** Closing and leases *)

(** [closeLocked]; [order] is the order in which [range] visits the entries. *)
Definition closeLocked (order : list (string * nat)) s : RState W :=
  if r_closed (g_reg s) then s
  else
    let r := g_reg s in
    let s1 := with_reg s (mkRegistry (r_entries r) (r_nodes r) (r_next r) (r_revision r) true) in
    let s2 := foldl (λ s e, retireLocked s e.2) s1 order in
    with_reg s2 (mkRegistry ∅ ∅ (r_next r) (r_revision r) true).

Definition lease_Release s (l : nat) : RState W :=
  match g_leases s !! l with
  | None => s
  | Some x =>
      if ls_once x then s
      else release (with_lease s l (mkRegLease (ls_generation x) true (ls_target x))) (ls_generation x)
  end.

Definition empty_state (w : W) : RState W :=
  mkRState (mkRegistry ∅ ∅ 0 0 false) ∅ ∅ [] w.

(** [NewRegistry(records...)]; on an error the records already added are
    released. *)
Fixpoint register s (records : list (option CapRecord)) : RState W * option error :=
  match records with
  | [] => (rebuildHierarchyLocked s, None)
  | record :: records =>
      match addLocked s record with
      | Err e => (closeLocked (map_to_list (r_entries (g_reg s))) s, Some e)
      | Ok s' => register s' records
      end
  end.
Definition NewRegistry (w : W) (records : list (option CapRecord)) : RState W * option error := register (empty_state w) records.

(** The generation and the record a lease names, and their contents. *)
Definition lease_record s (l : nat) : option CapRecord :=
  x ← g_leases s !! l; gen_record <$> g_heap s !! ls_generation x.
End registry.

(** ** Specification of the hierarchy *)

(** The first [i] segments of a dotted path. *)
Definition segments (p : string) : list string := Split p "."%char.
Definition head_path (p : string) (i : nat) : string := Join (take i (segments p)) ".".

(** [k] is the path made of some of [p]'s first segments; [k] and [c] are two
    consecutive such paths. *)
Definition dot_prefix (k p : string) : Prop :=
  p ≠ "" ∧ ∃ i, (i < length (segments p))%nat ∧ k = head_path p (S i).
Definition dot_edge (k c p : string) : Prop :=
  p ≠ "" ∧ ∃ i, (i < length (segments p))%nat ∧ k = head_path p i ∧ c = head_path p (S i).

(** The paths a set of installed records makes browsable. *)
Definition placed (records : list (string * CapRecord)) (p : string) : Prop :=
  ∃ e, e ∈ records ∧ (p = e.1 ∨ p = rec_parent e.2).

Record hierarchy_spec (records : list (string * CapRecord)) (nodes : gmap string hierarchyNode) : Prop := {
  hs_nodes k : is_Some (nodes !! k) ↔ k = "" ∨ ∃ p, placed records p ∧ dot_prefix k p;
  hs_id k n : nodes !! k = Some n →
    hn_capabilityID n = if bool_decide (k ∈ records.*1) then k else "";
  hs_sorted k n : nodes !! k = Some n → StronglySorted str_le (hn_children n);
  hs_nodup k n : nodes !! k = Some n → NoDup (hn_children n);
  hs_child k n c : nodes !! k = Some n →
    c ∈ hn_children n ↔ ∃ p, placed records p ∧ dot_edge k c p;
}.

(** What holds while the loop over the entries has placed [paths] and marked
    [ids]. *)
Record building (paths ids : list string) (acc : gmap string hierarchyNode * edge_map) : Prop := {
  bu_nodes k : is_Some (acc.1 !! k) ↔ k = "" ∨ ∃ p, p ∈ paths ∧ dot_prefix k p;
  bu_node k n : acc.1 !! k = Some n → n = mkNode (if bool_decide (k ∈ ids) then k else "") [];
  bu_edges k c : (∃ cs, acc.2 !! k = Some cs ∧ c ∈ cs) ↔ ∃ p, p ∈ paths ∧ dot_edge k c p;
  bu_full k cs : acc.2 !! k = Some cs → ∃ c, c ∈ cs;
}.

Lemma head_path_0 p : head_path p 0 = "".
Proof. done. Qed.

Lemma head_path_full p : head_path p (length (segments p)) = p.
Proof. unfold head_path. rewrite firstn_all. apply Join_Split. Qed.

Lemma segments_pos p : (0 < length (segments p))%nat.
Proof. unfold segments. pose proof (Split_ne_nil p "."%char). destruct (Split p _); [done|]. simpl. lia. Qed.

Lemma dot_prefix_self p : p ≠ "" → dot_prefix p p.
Proof.
  intros Hp. split; [done|]. pose proof (segments_pos p).
  exists (length (segments p) - 1)%nat. split; [lia|].
  replace (S (length (segments p) - 1)) with (length (segments p)) by lia. by rewrite head_path_full.
Qed.

(** The loop of [ensurePath], after [n] iterations. *)
Lemma ensure_fold p n nodes edges :
  ∃ nodes' edges',
    foldl (ensure_step (segments p)) (nodes, edges, "") (seq 0 n) = (nodes', edges', head_path p n) ∧
    (∀ k, is_Some (nodes' !! k) ↔ is_Some (nodes !! k) ∨ ∃ i, (i < n)%nat ∧ k = head_path p (S i)) ∧
    (∀ k x, nodes' !! k = Some x → nodes !! k = Some x ∨ (nodes !! k = None ∧ x = zero_node)) ∧
    (∀ k c, (∃ cs, edges' !! k = Some cs ∧ c ∈ cs) ↔
       (∃ cs, edges !! k = Some cs ∧ c ∈ cs) ∨
       ∃ i, (i < n)%nat ∧ k = head_path p i ∧ c = head_path p (S i)) ∧
    ((∀ k cs, edges !! k = Some cs → ∃ c, c ∈ cs) → ∀ k cs, edges' !! k = Some cs → ∃ c, c ∈ cs).
Proof.
  induction n as [|n (nodes' & edges' & Hf & Hn & Hx & He & Hfull)].
  { exists nodes, edges. split; [done|]. split; [|split; [|split; [|done]]].
    - intros k. split; [auto|]. intros [?|(i & ? & _)]; [done|lia].
    - auto.
    - intros k c. split; [auto|]. intros [?|(i & ? & _)]; [done|lia]. }
  rewrite seq_S, foldl_app, Hf. simpl.
  fold (head_path p (S n)). eexists _, _. split; [done|]. split; [|split; [|split]].
  - intros k. transitivity (is_Some (nodes' !! k) ∨ k = head_path p (S n)).
    + destruct (nodes' !! head_path p (S n)) as [y|] eqn:Hy.
      * split; [auto|]. intros [?| ->]; [done|]. by rewrite Hy.
      * destruct (decide (head_path p (S n) = k)) as [<-|Hne].
        -- rewrite lookup_insert_eq. split; [by right|done].
        -- rewrite lookup_insert_ne by done. split; [auto|]. intros [?| ->]; done.
    + rewrite Hn. split.
      * intros [[?|(i & ? & ?)]| ->]; [auto|right; exists i; split; [lia|done]|right; exists n; split; [lia|done]].
      * intros [?|(i & Hi & ->)]; [auto|]. destruct (decide (i = n)) as [->|]; [auto|].
        left. right. exists i. split; [lia|done].
  - intros k x. destruct (nodes' !! head_path p (S n)) as [y|] eqn:Hy; [apply Hx|].
    destruct (decide (head_path p (S n) = k)) as [<-|Hne].
    + rewrite lookup_insert_eq. intros [= <-]. right. split; [|done].
      apply eq_None_not_Some. intros Hs. assert (is_Some (nodes' !! head_path p (S n))) as [? ?]
        by (apply Hn; by left). congruence.
    + rewrite lookup_insert_ne by done. apply Hx.
  - intros k c. transitivity ((∃ cs, edges' !! k = Some cs ∧ c ∈ cs) ∨
                              (k = head_path p n ∧ c = head_path p (S n))).
    + destruct (decide (head_path p n = k)) as [<-|Hne].
      * rewrite lookup_insert_eq. split.
        -- intros (cs & [= <-] & Hc). apply elem_of_union in Hc as [Hc|Hc]; [right; set_solver|].
           destruct (edges' !! head_path p n) as [cs|]; [|set_solver]. left. eauto.
        -- intros [(cs & Hcs & Hc)|[_ ->]]; eexists; (split; [done|]); [rewrite Hcs; set_solver|set_solver].
      * rewrite lookup_insert_ne by done. split; [auto|]. intros [?|[-> _]]; done.
    + rewrite He. split.
      * intros [[?|(i & ? & ?)]|?]; [auto|right; exists i; split; [lia|done]|right; exists n; split; [lia|done]].
      * intros [?|(i & Hi & ?)]; [auto|]. destruct (decide (i = n)) as [->|]; [auto|].
        left. right. exists i. split; [lia|done].
  - intros Hb k cs. specialize (Hfull Hb). destruct (decide (head_path p n = k)) as [<-|Hne].
    + rewrite lookup_insert_eq. intros [= <-]. exists (head_path p (S n)). set_solver.
    + rewrite lookup_insert_ne by done. apply Hfull.
Qed.

Lemma placed_cons (P : string → Prop) p paths :
  (∃ q, q ∈ p :: paths ∧ P q) ↔ P p ∨ ∃ q, q ∈ paths ∧ P q.
Proof.
  split.
  - intros (q & [->|Hq]%elem_of_cons & HP); eauto.
  - intros [HP|(q & Hq & HP)]; [exists p|exists q]; (split; [|done]); rewrite elem_of_cons; auto.
Qed.

Lemma ensurePath_building p paths ids acc :
  building paths ids acc → (∀ id, id ∈ ids → is_Some (acc.1 !! id)) →
  building (p :: paths) ids (ensurePath p acc).
Proof.
  intros [Hn Hx He Hc] Hids. unfold ensurePath. destruct (String.eqb_spec p "") as [->|Hp].
  { split; [|done| |done].
    - intros k. rewrite Hn, placed_cons. unfold dot_prefix at 2. tauto.
    - intros k c. rewrite He, placed_cons. unfold dot_edge at 2. tauto. }
  destruct acc as [nodes edges].
  destruct (ensure_fold p (length (segments p)) nodes edges) 
    as (nodes' & edges' & Hf & Hn' & Hx' & He' & Hc').
  fold (segments p). rewrite Hf. simpl in *. split; simpl.
  - intros k. rewrite Hn', Hn, placed_cons. unfold dot_prefix at 2. tauto.
  - intros k n Hk. destruct (Hx' _ _ Hk) as [Hk'|[Hk' ->]]; [by apply Hx|].
    rewrite bool_decide_false; [done|]. intros Hin. apply Hids in Hin as [? ?]. congruence.
  - intros k c. rewrite He', He, placed_cons. unfold dot_edge at 2. tauto.
  - by apply Hc'.
Qed.

Lemma building_ids p paths ids acc :
  building paths ids acc → Forall (λ id, id ∈ paths) ids → p ∈ ids → is_Some (acc.1 !! p).
Proof.
  intros Hb Hids Hp. rewrite Forall_forall in Hids. apply Hids in Hp.
  apply (bu_nodes _ _ _ Hb). destruct (decide (p = "")) as [->|Hne]; [by left|].
  right. exists p. split; [done|]. by apply dot_prefix_self.
Qed.

Lemma entry_building paths ids acc e :
  building paths ids acc → Forall (λ id, id ∈ paths) ids →
  building (e.1 :: rec_parent e.2 :: paths) (e.1 :: ids) (entry_step acc e).
Proof.
  intros Hb Hids.
  assert (∀ p', building (rec_parent e.2 :: paths) ids (ensurePath p' acc) →
    ∀ id, id ∈ ids → is_Some ((ensurePath p' acc).1 !! id)) as Hmore.
  { intros p' Hb' id Hid. eapply building_ids; [done| |done].
    eapply Forall_impl; [done|]. intros. rewrite elem_of_cons. auto. }
  pose proof (ensurePath_building (rec_parent e.2) _ _ _ Hb) as Hb1.
  specialize (Hb1 (λ id Hid, building_ids id _ _ _ Hb Hids Hid)).
  pose proof (ensurePath_building e.1 _ _ _ Hb1 (Hmore _ Hb1)) as Hb2.
  unfold entry_step. destruct (ensurePath e.1 _) as [nodes edges] eqn:Hacc.
  destruct Hb2 as [Hn Hx He Hc]. split; simpl in *.
  - intros k. rewrite <-Hn. destruct (decide (e.1 = k)) as [<-|Hne].
    + rewrite lookup_insert_eq. split; [|done]. intros _. apply Hn.
      destruct (decide (e.1 = "")) as [->|Hp]; [by left|]. right. exists e.1.
      split; [by left|]. by apply dot_prefix_self.
    + by rewrite lookup_insert_ne.
  - intros k n. destruct (decide (e.1 = k)) as [<-|Hne].
    + rewrite lookup_insert_eq. intros [= <-]. rewrite bool_decide_true by by left.
      f_equal. destruct (nodes !! e.1) as [n|] eqn:Hk; [|done]. simpl. by rewrite (Hx _ _ Hk).
    + rewrite lookup_insert_ne by done. intros Hk. rewrite (Hx _ _ Hk). f_equal.
      apply (f_equal (λ b : bool, if b then k else "")).
      apply bool_decide_ext. rewrite elem_of_cons. naive_solver.
  - done.
  - done.
Qed.

(** The paths placed by the records, in the order the loop places them. *)
Fixpoint entry_paths (records : list (string * CapRecord)) (acc : list string) : list string :=
  match records with
  | [] => acc
  | e :: l => entry_paths l (e.1 :: rec_parent e.2 :: acc)
  end.

Lemma entry_paths_elem records acc p :
  p ∈ entry_paths records acc ↔ p ∈ acc ∨ placed records p.
Proof.
  revert acc. induction records as [|e l IH]; intros acc; simpl.
  - split; [auto|]. intros [?|(e & He & _)]; [done|]. by apply elem_of_nil in He.
  - rewrite IH, !elem_of_cons. unfold placed. split.
    + intros [[->|[->|?]]|(e' & He & Hp)]; [right; exists e|right; exists e|by left|right; exists e'];
        rewrite elem_of_cons; auto.
    + intros [?|(e' & [->|He]%elem_of_cons & Hp)]; [auto|destruct Hp; auto|eauto].
Qed.

Lemma entries_building records paths ids acc :
  building paths ids acc → Forall (λ id, id ∈ paths) ids →
  ∃ ids', building (entry_paths records paths) ids' (foldl entry_step acc records) ∧
    ∀ k, k ∈ ids' ↔ k ∈ ids ∨ k ∈ records.*1.
Proof.
  revert paths ids acc. induction records as [|e l IH]; intros paths ids acc Hb Hids; simpl.
  { exists ids. split; [done|]. intros k. rewrite elem_of_nil. tauto. }
  destruct (IH (e.1 :: rec_parent e.2 :: paths) (e.1 :: ids) (entry_step acc e)) as (ids' & Hb' & Hi).
  - by apply entry_building.
  - constructor; [by left|]. eapply Forall_impl; [done|]. intros. rewrite !elem_of_cons. auto.
  - exists ids'. split; [done|]. intros k. rewrite Hi, !elem_of_cons. tauto.
Qed.

Lemma children_fold (l : list (string * gset string)) nodes k :
  NoDup l.*1 →
  foldl children_step nodes l !! k =
    match list_to_map (M := gmap string (gset string)) l !! k with
    | Some cs =>
        let n := default zero_node (nodes !! k) in
        Some (mkNode (hn_capabilityID n) (merge_sort str_le (hn_children n ++ elements cs)))
    | None => nodes !! k
    end.
Proof.
  revert nodes. induction l as [|[p cs] l IH]; intros nodes Hnd; simpl; [done|].
  apply NoDup_cons in Hnd as [Hn Hnd]. rewrite IH by done. unfold children_step. simpl.
  destruct (decide (p = k)) as [<-|Hne].
  - rewrite lookup_insert_eq. rewrite (not_elem_of_list_to_map_1 l p) by done.
    by rewrite lookup_insert_eq.
  - by rewrite !lookup_insert_ne by done.
Qed.

Lemma building_init : building [] [] ({["" := zero_node]}, ∅).
Proof.
  split; simpl.
  - intros k. rewrite lookup_singleton_is_Some. split; [auto|].
    intros [?|(p & Hp & _)]; [done|]. by apply elem_of_nil in Hp.
  - intros k n [<- <-]%lookup_singleton_Some. done.
  - intros k c. split; [intros (cs & Hk & _); by rewrite lookup_empty in Hk|].
    intros (p & Hp & _). by apply elem_of_nil in Hp.
  - intros k cs Hk. by rewrite lookup_empty in Hk.
Qed.

Lemma dot_edge_parent k c p : dot_edge k c p → k = "" ∨ dot_prefix k p.
Proof.
  intros (Hp & i & Hi & -> & _). destruct i as [|i]; [by left|]. right.
  split; [done|]. exists i. split; [lia|done].
Qed.

(** The hierarchy a set of installed records is rebuilt into, whatever the
    order of Go's [range]. *)
Lemma rebuildHierarchy_correct records : hierarchy_spec records (rebuildHierarchy records).
Proof.
  unfold rebuildHierarchy.
  destruct (entries_building records [] [] _ building_init) as (ids & [Hn Hx He Hc] & Hids); [done|].
  destruct (foldl entry_step _ records) as [nodes edges] eqn:Hf. simpl in *.
  assert (∀ P : string → Prop, (∃ p, p ∈ entry_paths records [] ∧ P p) ↔ ∃ p, placed records p ∧ P p) as Hp.
  { intros P. split; intros (p & Hp & HP); exists p; (split; [|done]); rewrite entry_paths_elem, elem_of_nil in *; tauto. }
  setoid_rewrite Hp in Hn. setoid_rewrite Hp in He.
  assert (∀ k, foldl children_step nodes (map_to_list edges) !! k =
    match edges !! k with
    | Some cs => Some (mkNode (if bool_decide (k ∈ records.*1) then k else "")
                         (merge_sort str_le (elements cs)))
    | None => nodes !! k
    end) as Hfinal.
  { intros k. rewrite children_fold by apply NoDup_fst_map_to_list.
    rewrite list_to_map_to_list. destruct (edges !! k) as [cs|] eqn:Hk; [|done]. simpl.
    destruct (nodes !! k) as [n|] eqn:Hnk; simpl.
    - rewrite (Hx _ _ Hnk). simpl. f_equal. f_equal.
      apply (f_equal (λ b : bool, if b then k else "")). apply bool_decide_ext.
      rewrite Hids, elem_of_nil. tauto.
    - rewrite bool_decide_false; [done|]. intros Hin. apply eq_None_not_Some in Hnk.
      destruct Hnk. apply Hn. destruct (decide (k = "")) as [->|Hne]; [by left|]. right. exists k.
      split; [|by apply dot_prefix_self]. apply list_elem_of_fmap in Hin as (e & -> & Hin). exists e. auto. }
  assert (∀ k n, foldl children_step nodes (map_to_list edges) !! k = Some n →
    hn_capabilityID n = (if bool_decide (k ∈ records.*1) then k else "") ∧
    hn_children n = merge_sort str_le (elements (default ∅ (edges !! k)))) as Hnode.
  { intros k n. rewrite Hfinal. destruct (edges !! k) as [cs|] eqn:Hk.
    - intros [= <-]. done.
    - intros Hnk. rewrite (Hx _ _ Hnk). simpl. split; [|by rewrite elements_empty].
      apply (f_equal (λ b : bool, if b then k else "")). apply bool_decide_ext.
      rewrite Hids, elem_of_nil. tauto. }
  split.
  - intros k. rewrite <-Hn, Hfinal. destruct (edges !! k) as [cs|] eqn:Hk; [|done].
    split; [|done]. intros _. apply Hn.
    destruct (Hc _ _ Hk) as [c Hcs].
    assert (∃ cs, edges !! k = Some cs ∧ c ∈ cs) as Hex by eauto.
    apply He in Hex as (p & Hpl & Hd). destruct (dot_edge_parent _ _ _ Hd); eauto.
  - intros k n Hk. by apply Hnode.
  - intros k n Hk. destruct (Hnode _ _ Hk) as [_ ->]. apply StronglySorted_merge_sort; apply _.
  - intros k n Hk. destruct (Hnode _ _ Hk) as [_ ->]. rewrite merge_sort_Permutation. apply NoDup_elements.
  - intros k n c Hk. destruct (Hnode _ _ Hk) as [_ ->]. rewrite merge_sort_Permutation, elem_of_elements, <-He.
    destruct (edges !! k) as [cs|] eqn:Hek; simpl; [naive_solver|].
    rewrite elem_of_empty. split; [done|]. by intros (? & ? & _).
Qed.

Lemma hierarchy_spec_perm records records' nodes :
  records ≡ₚ records' → hierarchy_spec records nodes → hierarchy_spec records' nodes.
Proof.
  intros Hp [Hn Hi Hs Hd Hc].
  assert (∀ p, placed records p ↔ placed records' p) as Hpl.
  { intros p. unfold placed. by setoid_rewrite Hp. }
  split; [|  |done|done|].
  - intros k. rewrite Hn. by setoid_rewrite Hpl.
  - intros k n Hk. rewrite (Hi _ _ Hk). apply (f_equal (λ b : bool, if b then k else "")).
    apply bool_decide_ext. by rewrite Hp.
  - intros k n c Hk. rewrite (Hc _ _ _ Hk). by setoid_rewrite Hpl.
Qed.

Lemma hierarchy_spec_unique records nodes nodes' :
  hierarchy_spec records nodes → hierarchy_spec records nodes' → nodes = nodes'.
Proof.
  intros [Hn Hi Hs Hd Hc] [Hn' Hi' Hs' Hd' Hc']. apply map_eq. intros k.
  destruct (nodes !! k) as [n|] eqn:Hk, (nodes' !! k) as [n'|] eqn:Hk'; [| | |done].
  - f_equal. destruct n as [id cs], n' as [id' cs'].
    pose proof (Hi _ _ Hk) as He. pose proof (Hi' _ _ Hk') as He'. simpl in *. subst. f_equal.
    apply (sorted_unique id).
    + apply NoDup_Permutation; [by apply (Hd k _ Hk)|by apply (Hd' k _ Hk')|].
      intros c. rewrite (Hc k _ c Hk), (Hc' k _ c Hk'). done.
    + rewrite list_fmap_id. apply (Hd k _ Hk).
    + apply (Hs k _ Hk).
    + apply (Hs' k _ Hk').
  - assert (is_Some (nodes' !! k)) as [? ?] by (apply Hn', Hn; eauto). congruence.
  - assert (is_Some (nodes !! k)) as [? ?] by (apply Hn, Hn'; eauto). congruence.
Qed.

Lemma rebuildHierarchy_perm records records' :
  records ≡ₚ records' → rebuildHierarchy records = rebuildHierarchy records'.
Proof.
  intros Hp. apply (hierarchy_spec_unique records'); [|apply rebuildHierarchy_correct].
  eapply hierarchy_spec_perm; [done|]. apply rebuildHierarchy_correct.
Qed.

(** ** Properties: the hierarchy and tool paths *)

(** C6. Rebuilding the hierarchy yields exactly the dotted prefixes of the
    installed IDs and parents, each with its capability and with its direct
    extensions as sorted, duplicate-free children, and does not depend on the
    order in which Go's [range] visits the entries. *)
Theorem hierarchy_rebuilt records :
  hierarchy_spec records (rebuildHierarchy records) ∧
  ∀ records', records ≡ₚ records' → rebuildHierarchy records' = rebuildHierarchy records.
Proof.
  split; [apply rebuildHierarchy_correct|]. intros records' Hp. by apply rebuildHierarchy_perm.
Qed.

Section tool_paths.
Context {W : Type} `{SnapshotOps W}.
Implicit Types s : RState W.

Lemma omap_perm {A B} (f : A → option B) l1 l2 : l1 ≡ₚ l2 → omap f l1 ≡ₚ omap f l2.
Proof. induction 1; simpl; repeat case_match; eauto using Permutation. Qed.

Lemma tool_plan_perm order order' s path :
  order ≡ₚ order' → tool_plan order s path = tool_plan order' s path.
Proof.
  intros Hp. unfold tool_plan. pose proof (omap_perm (legacyMatch s path) _ _ Hp) as Hm.
  destruct (omap _ order) as [|m [|m' ms]] eqn:Ho.
  - apply Permutation_nil_l in Hm. by rewrite <-Hm.
  - apply Permutation_length_1_inv in Hm. by rewrite Hm.
  - pose proof (Permutation_length Hm). by destruct (omap _ order') as [|? [|??]].
Qed.

(** Some installed one-operation capability claims [path] through its parent
    and its operation's target. *)
Definition legacy_claims s (path : string) (id operation : string) : Prop :=
  ∃ a, r_entries (g_reg s) !! id = Some a ∧ legacyMatch s path (id, a) = Some (id, operation).

Lemma legacy_matches_elem s path id operation :
  (id, operation) ∈ omap (legacyMatch s path) (map_to_list (r_entries (g_reg s))) ↔
  legacy_claims s path id operation.
Proof.
  rewrite list_elem_of_omap. split.
  - intros ([id' a] & Hin & Hm). apply elem_of_map_to_list in Hin.
    assert (id' = id) as -> by (unfold legacyMatch in Hm; repeat case_match; by simplify_eq/=).
    by exists a.
  - intros (a & Ha & Hm). exists (id, a). split; [by apply elem_of_map_to_list|done].
Qed.

Lemma legacy_ids_NoDup s path :
  NoDup (omap (legacyMatch s path) (map_to_list (r_entries (g_reg s)))).*1.
Proof.
  pose proof (NoDup_fst_map_to_list (r_entries (g_reg s))) as Hnd.
  induction (map_to_list (r_entries (g_reg s))) as [|[id a] l IH]; simpl; [constructor|].
  simpl in Hnd. apply NoDup_cons in Hnd as [Hn Hnd].
  destruct (legacyMatch s path (id, a)) as [[id' o]|] eqn:Hm; [|by apply IH].
  simpl. apply NoDup_cons. split; [|by apply IH].
  assert (id' = id) as -> by (unfold legacyMatch in Hm; repeat case_match; by simplify_eq/=).
  intros (p & -> & Hp)%list_elem_of_fmap. apply list_elem_of_omap in Hp as ([id'' a''] & Hin & Hm').
  assert (id'' = p.1) as -> by (unfold legacyMatch in Hm'; repeat case_match; by simplify_eq/=).
  destruct Hn. apply list_elem_of_fmap. by exists (p.1, a'').
Qed.

(** The name under which an operation is offered: a one-operation capability
    whose operation is named after its last segment is offered at its own ID,
    every other operation at "<capability-id>.<operation-id>". *)
Definition last_segment (path : string) : string :=
  if 0 <=? LastIndexByte path "."%char
  then slice_from path (LastIndexByte path "."%char + 1) else path.

Definition offered_at_id s (path : string) : Prop :=
  ∃ a g o, live_entry s path = Some (a, g) ∧ rec_operations (gen_record g) = [o] ∧
    op_ID o = last_segment path.

Lemma tool_plan_legacy order s path id operation :
  order ≡ₚ map_to_list (r_entries (g_reg s)) →
  legacy_claims s path id operation →
  (∀ id' operation', legacy_claims s path id' operation' → id' = id) →
  tool_plan order s path = Ok (id, operation).
Proof.
  intros Ho Hc Hu. rewrite (tool_plan_perm _ _ _ _ Ho). unfold tool_plan.
  pose proof (legacy_ids_NoDup s path) as Hnd.
  apply legacy_matches_elem in Hc. setoid_rewrite <-legacy_matches_elem in Hu.
  destruct (omap _ _) as [|[i1 o1] [|[i2 o2] ms]]; [by apply elem_of_nil in Hc| |].
  - apply list_elem_of_singleton in Hc. by rewrite Hc.
  - assert (i1 = id) by (apply (Hu i1 o1); set_solver).
    assert (i2 = id) by (apply (Hu i2 o2); set_solver). subst.
    simpl in Hnd. apply NoDup_cons in Hnd as [Hn _]. destruct Hn. by left.
Qed.

Lemma tool_plan_no_legacy order s path :
  order ≡ₚ map_to_list (r_entries (g_reg s)) →
  (∀ id operation, ¬ legacy_claims s path id operation) →
  tool_plan order s path = tool_plan [] s path.
Proof.
  intros Ho Hc. rewrite (tool_plan_perm _ _ _ _ Ho). unfold tool_plan. simpl.
  destruct (omap _ _) as [|[i o] ms] eqn:Hm; [done|]. destruct (Hc i o).
  apply legacy_matches_elem. rewrite Hm. by left.
Qed.

Lemma tool_plan_at_id s path :
  offered_at_id s path → tool_plan [] s path = Ok (path, last_segment path).
Proof.
  intros (a & g & o & Hl & Hops & Hid). unfold tool_plan. simpl. rewrite Hl, Hops.
  unfold last_segment in *. destruct (0 <=? _); by rewrite Hid, String.eqb_refl.
Qed.

Lemma tool_plan_dotted s id operation :
  id ≠ "" → operation ≠ "" → ContainsByte operation "."%char = false →
  ¬ offered_at_id s (id +:+ "." +:+ operation) →
  tool_plan [] s (id +:+ "." +:+ operation) = Ok (id, operation).
Proof.
  intros Hid Hop Hdot Hno. unfold tool_plan. simpl omap. cbv iota beta zeta.
  change ("." +:+ operation) with (String "."%char operation) in *.
  assert (LastIndexByte (id +:+ String "."%char operation) "."%char = slen id) as Hsep
    by by apply LastIndexByte_app.
  assert (0 < slen id) by (destruct id; [done|unfold slen; simpl; lia]).
  assert (0 < slen operation) by (destruct operation; [done|unfold slen; simpl; lia]).
  assert (slen (id +:+ String "."%char operation) = slen id + 1 + slen operation) as Hlen
    by (rewrite slen_app; unfold slen at 2; simpl; unfold slen; lia).
  rewrite Hsep, Hlen.
  assert (slice_from (id +:+ String "."%char operation) (slen id + 1) = operation) as Hlast.
  { replace (slen id + 1) with (slen (id +:+ ".")) by (rewrite slen_app; unfold slen; simpl; lia).
    replace (id +:+ String "."%char operation) with ((id +:+ ".") +:+ operation) by by rewrite str_app_assoc.
    apply slice_from_app. }
  rewrite slice_to_app, Hlast.
  rewrite (proj2 (Z.leb_gt _ _)), (proj2 (Z.eqb_neq _ _)) by lia. simpl.
  rewrite (proj2 (Z.leb_le 0 _)) by lia.
  destruct (live_entry s _) as [[a g]|] eqn:Hl; [|done].
  destruct (rec_operations (gen_record g)) as [|o [|??]] eqn:Hops; try done.
  destruct (String.eqb_spec (op_ID o) operation) as [He|]; [|done].
  destruct Hno. exists a, g, o. split; [done|]. split; [done|]. unfold last_segment.
  rewrite Hsep, (proj2 (Z.leb_le 0 _)) by lia. by rewrite Hlast.
Qed.

Lemma first_such_Some {A} (p : A → bool) l x : first_such p l = Some x → x ∈ l ∧ p x = true.
Proof.
  induction l as [|y l IH]; simpl; [done|]. destruct (p y) eqn:Hp.
  - intros [= ->]. split; [by left|done].
  - intros H'. destruct (IH H'). split; [by right|done].
Qed.

Lemma first_such_unique {A} (key : A → string) l x :
  NoDup (map key l) → x ∈ l → first_such (λ y, String.eqb (key y) (key x)) l = Some x.
Proof.
  induction l as [|y l IH]; simpl; intros Hnd Hx; [by apply elem_of_nil in Hx|].
  apply NoDup_cons in Hnd as [Hn Hnd]. destruct (String.eqb_spec (key y) (key x)) as [He|Hne].
  - apply elem_of_cons in Hx as [->|Hx]; [done|]. destruct Hn. rewrite He. by apply list_elem_of_fmap_2.
  - apply elem_of_cons in Hx as [->|Hx]; [done|]. by apply IH.
Qed.

(** What [ParseManifest] guarantees of a record's operations and bindings. *)
Record operations_ok (rec : CapRecord) : Prop := {
  oo_operations : NoDup (map op_ID (rec_operations rec));
  oo_providers : NoDup (map pb_ID (rec_providers rec));
  oo_names o : o ∈ rec_operations rec → op_ID o ≠ "" ∧ ContainsByte (op_ID o) "."%char = false;
  oo_bound o : o ∈ rec_operations rec → ∃ b, b ∈ rec_providers rec ∧ pb_ID b = op_Provider o;
}.

Lemma find_target_found id rec o :
  operations_ok rec → o ∈ rec_operations rec →
  ∃ b, b ∈ rec_providers rec ∧ pb_ID b = op_Provider o ∧
    find_target id (op_ID o) rec = Ok (mkTarget id o b).
Proof.
  intros [Ho Hp _ Hb] Hin. destruct (Hb _ Hin) as (b & Hbin & Hbid). exists b.
  split; [done|]. split; [done|]. unfold find_target. rewrite first_such_unique by done.
  rewrite <-Hbid. by rewrite first_such_unique.
Qed.
End tool_paths.

Section resolve.
Context {W : Type} `{SnapshotOps W}.
Implicit Types s : RState W.

(** The result of a successful resolution: a fresh lease that pins the
    generation [a] and names the operation and its provider binding. *)
Definition resolved s (a : nat) (g : registryGeneration) (id : string) (o : Operation)
    (r : RState W * result error nat) : Prop :=
  ∃ l b, g_leases s !! l = None ∧ b ∈ rec_providers (gen_record g) ∧ pb_ID b = op_Provider o ∧
    r = (mkRState (g_reg s)
           (<[a := mkGen (gen_id g) (gen_record g) (gen_refs g + 1) (gen_retired g)]> (g_heap s))
           (<[l := mkRegLease a false (Some (mkTarget id o b))]> (g_leases s))
           (g_reclaimed s) (g_world s), Ok l).

Lemma ResolveOperation_resolved s id a g o :
  r_closed (g_reg s) = false → live_entry s id = Some (a, g) → operations_ok (gen_record g) →
  o ∈ rec_operations (gen_record g) → resolved s a g id o (ResolveOperation s id (op_ID o)).
Proof.
  intros Hc Hl Hok Ho. unfold ResolveOperation. rewrite Hc, Hl.
  destruct (find_target_found id _ o Hok Ho) as (b & Hb & Hbid & ->). simpl.
  eexists _, b. split; [apply lookup_fresh|]. done.
Qed.

Lemma ResolveToolPath_plan order s path id operation :
  tool_plan order s path = Ok (id, operation) →
  ResolveToolPath order s path = ResolveOperation s id operation.
Proof. intros Hp. unfold ResolveToolPath. by rewrite Hp. Qed.

(** Every operation of an installed, well-formed record resolves under the
    name it is offered by, to a lease on the installed generation that carries
    that very operation and the provider binding it names, unless a legacy
    path claims the name. *)
Theorem offered_operation_resolves order s id a g o :
  order ≡ₚ map_to_list (r_entries (g_reg s)) → r_closed (g_reg s) = false → id ≠ "" →
  live_entry s id = Some (a, g) → operations_ok (gen_record g) →
  o ∈ rec_operations (gen_record g) →
  (rec_operations (gen_record g) = [o] → op_ID o = last_segment id →
   (∀ id' o', ¬ legacy_claims s id id' o') →
   resolved s a g id o (ResolveToolPath order s id)) ∧
  (¬ offered_at_id s (id +:+ "." +:+ op_ID o) →
   (∀ id' o', ¬ legacy_claims s (id +:+ "." +:+ op_ID o) id' o') →
   resolved s a g id o (ResolveToolPath order s (id +:+ "." +:+ op_ID o))).
Proof.
  intros Hord Hc Hid Hl Hok Ho. destruct (oo_names _ Hok _ Ho) as [Hne Hdot]. split.
  - intros Hops Hlast Hno. rewrite (ResolveToolPath_plan _ _ _ id (op_ID o)).
    + by apply ResolveOperation_resolved.
    + rewrite tool_plan_no_legacy, Hlast by done. apply tool_plan_at_id. by exists a, g, o.
  - intros Hoff Hno. rewrite (ResolveToolPath_plan _ _ _ id (op_ID o)).
    + by apply ResolveOperation_resolved.
    + rewrite tool_plan_no_legacy by done. by apply tool_plan_dotted.
Qed.

(** A legacy path resolves to the one capability that claims it; a path that
    two claim is refused, whatever the order of Go's [range]. *)
Theorem legacy_path_resolves order s path :
  order ≡ₚ map_to_list (r_entries (g_reg s)) →
  (∀ id operation, legacy_claims s path id operation →
   (∀ id' operation', legacy_claims s path id' operation' → id' = id) →
   ResolveToolPath order s path = ResolveOperation s id operation) ∧
  (∀ id operation id' operation',
   legacy_claims s path id operation → legacy_claims s path id' operation' → id ≠ id' →
   ResolveToolPath order s path =
     (s, Err (Wrapf "%w: ambiguous legacy tool path %s" [FStr path] ErrOperationNotFound))).
Proof.
  intros Hord. split.
  - intros id operation Hc Hu. apply ResolveToolPath_plan. by apply tool_plan_legacy.
  - intros id operation id' operation' Hc Hc' Hne.
    assert (tool_plan order s path =
      Err (Wrapf "%w: ambiguous legacy tool path %s" [FStr path] ErrOperationNotFound)) as Hp.
    { rewrite (tool_plan_perm _ _ _ _ Hord). unfold tool_plan.
      apply legacy_matches_elem in Hc, Hc'.
      destruct (omap _ _) as [|m [|m' ms]]; [by apply elem_of_nil in Hc| |done].
      apply list_elem_of_singleton in Hc, Hc'. simplify_eq. }
    unfold ResolveToolPath. by rewrite Hp.
Qed.
End resolve.

(** ** Concrete resolutions *)

Section examples.
(** Two capabilities over a store without snapshots: [x.y] offers [z] and [v];
    [other] is placed under [x.y] and has one operation, of target [t]. *)
Record no_store := mkNoStore {}.
#[local] Instance no_store_ops : SnapshotOps no_store := {
  svc_Read _ _ _ := None; svc_acquireArtifact w _ _ _ _ := (w, None); svc_readRange _ _ _ _ := None;
  svc_releaseLease w _ := w; svc_release w _ := w; svc_snap_live _ _ := true; svc_lease_live _ _ := false }.

Definition ex_operation (id target : string) : Operation := mkOperation id "" "main" target.
Definition ex_record (id parent : string) (ops : list Operation) : CapRecord :=
  mkRecord (mkMetadata id "" "" "" []) parent "" [] ops [] [mkProviderBinding "main" "mcp" "srv"] ∅ (Some 0%nat).
Definition ex_state : RState no_store :=
  (NewRegistry mkNoStore
     [Some (ex_record "x.y" "" [ex_operation "z" "z"; ex_operation "v" "v"]);
      Some (ex_record "other" "x.y" [ex_operation "w" "t"])]).1.
Definition ex_order := map_to_list (r_entries (g_reg ex_state)).

(** The documented path "<capability-id>.<operation-id>" of an installed
    operation resolves to another capability's operation when that one's
    parent and target spell the same path. *)
Definition ex_shadowed : RState no_store :=
  (NewRegistry mkNoStore
     [Some (ex_record "x.y" "" [ex_operation "z" "z"; ex_operation "v" "v"]);
      Some (ex_record "other" "x.y" [ex_operation "w" "v"])]).1.

Lemma legacy_path_shadows :
  (ex_operation "v" "v") ∈ [ex_operation "z" "z"; ex_operation "v" "v"] ∧
  ResolveToolPath (map_to_list (r_entries (g_reg ex_shadowed))) ex_shadowed "x.y.v" =
    ResolveOperation ex_shadowed "other" "w".
Proof. split; [right; by left|]. vm_compute. reflexivity. Qed.

(** No capability of [ex_state] claims a path through its target except the
    one whose claims are computed. *)
Lemma ex_claims path id o :
  legacy_claims ex_state path id o → (id, o) ∈ omap (legacyMatch ex_state path) ex_order.
Proof. apply legacy_matches_elem. Qed.
End examples.

Lemma hierarchy_rebuilt_witness :
  rebuildHierarchy [("other", ex_record "other" "x.y" []); ("x.y", ex_record "x.y" "" [])] =
  rebuildHierarchy [("x.y", ex_record "x.y" "" []); ("other", ex_record "other" "x.y" [])].
Proof. apply hierarchy_rebuilt. apply perm_swap. Defined.

Lemma offered_operation_resolves_witness :
  resolved ex_state 0 (mkGen 1 (ex_record "x.y" "" [ex_operation "z" "z"; ex_operation "v" "v"]) 1 false)
    "x.y" (ex_operation "v" "v") (ResolveToolPath ex_order ex_state "x.y.v").
Proof.
  refine (proj2 (offered_operation_resolves ex_order ex_state "x.y" 0 _ (ex_operation "v" "v") _ _ _ _ _ _) _ _).
  - done.
  - by vm_compute.
  - done.
  - by vm_compute.
  - split.
    + apply (bool_decide_unpack _). by vm_compute.
    + apply (bool_decide_unpack _). by vm_compute.
    + intros o [->|[->|Ho%elem_of_nil]%elem_of_cons]%elem_of_cons; done.
    + intros o Ho. exists (mkProviderBinding "main" "mcp" "srv"). split; [by left|].
      by apply elem_of_cons in Ho as [->|[->|Ho%elem_of_nil]%elem_of_cons].
  - right. by left.
  - intros (a & g & o & Hl & _). by vm_compute in Hl.
  - intros id o Hc%ex_claims. vm_compute in Hc. by apply elem_of_nil in Hc.
Defined.

Lemma legacy_path_resolves_witness :
  ResolveToolPath ex_order ex_state "x.y.t" = ResolveOperation ex_state "other" "w".
Proof.
  refine (proj1 (legacy_path_resolves ex_order ex_state "x.y.t" _) "other" "w" _ _).
  - done.
  - exists 1%nat. split; by vm_compute.
  - intros id o Hc%ex_claims. vm_compute in Hc. apply list_elem_of_singleton in Hc. by simplify_eq.
Defined.
