(* ===== verification/RegistrySteps.v ===== *)
(** * The registry's generations over time

    The calls clients of [Registry.v] make, as steps that interleave freely
    with each other and with the snapshot store's other clients; the invariant
    they keep; and what it gives: leased generations stay readable, retired
    ones are reclaimed exactly once and only when their last lease is
    released, and every installed capability is reachable by browsing. *)
From stdpp Require Import relations.
From Stdlib Require Import Ascii String.
From S2P Require Import Prelude GoStrings Limits Sha256 SnapshotService Records Registry.
Local Open Scope string_scope.
Local Open Scope list_scope.
Local Open Scope Z_scope.

Definition record_id (r : CapRecord) : string := md_ID (rec_metadata r).

Section steps.
Context {W : Type} `{SnapshotOps W} `{!SnapshotLaws W}.
Implicit Types s : RState W.

(** ** Steps *)

Inductive reg_action : Type :=
| RAdd (record : option CapRecord)
| RReinstall (record : option CapRecord)
| RUninstall (id : string)
| RLookup (id : string)
| RResolveOperation (id operation : string)
| RResolveToolPath (order : list (string * nat)) (path : string)
| RRelease (l : nat)
| RClose (order : list (string * nat))
| RWorld (w : W).

Definition reg_exec s (a : reg_action) : RState W :=
  match a with
  | RAdd r => (Add s r).1
  | RReinstall r => (Reinstall s r).1
  | RUninstall id => (Uninstall s id).1
  | RLookup id => (Lookup s id).1
  | RResolveOperation id o => (ResolveOperation s id o).1
  | RResolveToolPath order p => (ResolveToolPath order s p).1
  | RRelease l => lease_Release s l
  | RClose order => closeLocked order s
  | RWorld w => mkRState (g_reg s) (g_heap s) (g_leases s) (g_reclaimed s) w
  end.

(** A generation that has not been reclaimed owns its record's snapshot. *)
Definition owns s (sn : nat) : Prop :=
  ∃ a g, g_heap s !! a = Some g ∧ 0 < gen_refs g ∧ rec_snapshot (gen_record g) = Some sn.

(** The caller hands over a record whose snapshot is live and not already
    owned, and fewer than 2^64 generations are ever published; the store's
    other clients release no snapshot the registry owns. *)
Definition record_fresh s (record : option CapRecord) : Prop :=
  Z.of_nat (size (g_heap s)) < 2 ^ 64 - 1 ∧
  ∀ r sn, record = Some r → rec_snapshot r = Some sn →
    svc_snap_live (g_world s) sn = true ∧ ¬ owns s sn.

Definition reg_allowed s (a : reg_action) : Prop :=
  match a with
  | RAdd r | RReinstall r => record_fresh s r
  | RClose order => order ≡ₚ map_to_list (r_entries (g_reg s))
  | RWorld w => svc_evolves (g_world s) w ∧ ∀ sn, owns s sn → svc_snap_live w sn = true
  | _ => True
  end.

Definition reg_step s s' : Prop := ∃ a, reg_allowed s a ∧ s' = reg_exec s a.

(** Records with live snapshots of their own, as a load hands them over. *)
Record records_fresh s (records : list CapRecord) : Prop := {
  rf_count : Z.of_nat (size (g_heap s) + length records) < 2 ^ 64;
  rf_distinct : NoDup (omap rec_snapshot records);
  rf_live r sn : r ∈ records → rec_snapshot r = Some sn → svc_snap_live (g_world s) sn = true ∧ ¬ owns s sn;
}.

(** The states after a successful [NewRegistry] over a well-formed store. *)
Definition reg_initial s : Prop :=
  ∃ w records, svc_ok w ∧ records_fresh (empty_state w) records ∧ NewRegistry w (Some <$> records) = (s, None).
Definition reg_reachable s : Prop := ∃ s0, reg_initial s0 ∧ rtc reg_step s0 s.

(** ** Invariant *)

Definition lease_pins (a : nat) (x : RegLease) : Z :=
  if ls_once x then 0 else if bool_decide (ls_generation x = a) then 1 else 0.
Definition pins s (a : nat) : Z := map_sum (lease_pins a) (g_leases s).
Definition gen_capability (g : registryGeneration) : string := md_ID (rec_metadata (gen_record g)).

(** The generations and leases, given the generations [E] that the registry
    itself holds a reference to (the installed ones, between operations). *)
Record heap_inv (E : gset nat) s : Prop := {
  hi_dom a : a ∈ E → is_Some (g_heap s !! a);
  hi_retired a g : g_heap s !! a = Some g → gen_retired g = negb (bool_decide (a ∈ E));
  hi_refs a g : g_heap s !! a = Some g →
    gen_refs g = (if bool_decide (a ∈ E) then 1 else 0) + pins s a;
  hi_leases l x : g_leases s !! l = Some x → is_Some (g_heap s !! ls_generation x);
  hi_snap a g : g_heap s !! a = Some g → 0 < gen_refs g →
    ∃ sn, rec_snapshot (gen_record g) = Some sn ∧ svc_snap_live (g_world s) sn = true;
  hi_snap_inj a b g h : g_heap s !! a = Some g → g_heap s !! b = Some h →
    0 < gen_refs g → 0 < gen_refs h →
    rec_snapshot (gen_record g) = rec_snapshot (gen_record h) → a = b;
  hi_reclaimed_nodup : NoDup (g_reclaimed s);
  hi_reclaimed i : i ∈ g_reclaimed s ↔
    ∃ a g, g_heap s !! a = Some g ∧ gen_id g = i ∧ gen_refs g = 0;
  hi_ids a b g h : g_heap s !! a = Some g → g_heap s !! b = Some h → gen_id g = gen_id h → a = b;
  hi_next : r_next (g_reg s) = Z.of_nat (size (g_heap s));
  hi_bound a g : g_heap s !! a = Some g → 1 ≤ gen_id g ≤ r_next (g_reg s);
  hi_world : svc_ok (g_world s);
}.

(** [E] is the set of installed generations, each under its capability's ID. *)
Definition entries_are s (E : gset nat) : Prop :=
  ∀ id a, r_entries (g_reg s) !! id = Some a ↔
    a ∈ E ∧ ∃ g, g_heap s !! a = Some g ∧ gen_capability g = id.

Record reg_inv s : Prop := {
  rv_heap : ∃ E, heap_inv E s ∧ entries_are s E;
  rv_closed : r_closed (g_reg s) = true → r_entries (g_reg s) = ∅ ∧ r_nodes (g_reg s) = ∅;
  rv_nodes : r_closed (g_reg s) = false →
    r_nodes (g_reg s) = rebuildHierarchy (installed_records s);
}.

(** ** Lemmas: leases and pins *)

Lemma lease_pins_nonneg a x : 0 ≤ lease_pins a x.
Proof. unfold lease_pins. repeat case_match; lia. Qed.

Lemma pins_nonneg s a : 0 ≤ pins s a.
Proof. apply map_sum_nonneg. intros. apply lease_pins_nonneg. Qed.

Lemma pins_new s l b t a :
  g_leases s !! l = None →
  map_sum (lease_pins a) (<[l := mkRegLease b false t]> (g_leases s)) =
    pins s a + (if bool_decide (b = a) then 1 else 0).
Proof. intros Hl. rewrite map_sum_insert by done. unfold pins, lease_pins at 1. simpl. lia. Qed.

Lemma pins_release s l x a :
  g_leases s !! l = Some x → ls_once x = false →
  map_sum (lease_pins a) (<[l := mkRegLease (ls_generation x) true (ls_target x)]> (g_leases s)) =
    pins s a - (if bool_decide (ls_generation x = a) then 1 else 0).
Proof.
  intros Hl Ho. rewrite (map_sum_update _ _ _ x) by done.
  unfold pins, lease_pins at 2 3. rewrite Ho. simpl. lia.
Qed.

Lemma pinned s l x :
  g_leases s !! l = Some x → ls_once x = false → 0 < pins s (ls_generation x).
Proof.
  intros Hl Ho. pose proof (map_sum_lookup_le (lease_pins (ls_generation x)) (g_leases s) l x) as Hle.
  unfold pins. assert (lease_pins (ls_generation x) x = 1) as Heq
    by (unfold lease_pins; by rewrite Ho, bool_decide_true).
  rewrite Heq in Hle. enough (1 ≤ map_sum (lease_pins (ls_generation x)) (g_leases s)) by lia.
  apply Hle; [|done]. intros. apply lease_pins_nonneg.
Qed.

Lemma pinned_refs_nonneg E s a g : heap_inv E s → g_heap s !! a = Some g → 0 ≤ gen_refs g.
Proof.
  intros Hi Hg. rewrite (hi_refs _ _ Hi _ _ Hg). pose proof (pins_nonneg s a).
  destruct (bool_decide _); lia.
Qed.

(** ** Lemmas: one reference less *)

(** A generation with one reference less, reclaimed when it was the last. *)
Definition dropped s (a : nat) (g : registryGeneration) (rt : bool) : RState W :=
  let g' := mkGen (gen_id g) (gen_record g) (gen_refs g - 1) rt in
  if gen_refs g' =? 0 then reclaimLocked (with_gen s a g') g' else with_gen s a g'.

Lemma dropped_heap s a g rt :
  g_heap (dropped s a g rt) = <[a := mkGen (gen_id g) (gen_record g) (gen_refs g - 1) rt]> (g_heap s) ∧
  g_leases (dropped s a g rt) = g_leases s ∧ g_reg (dropped s a g rt) = g_reg s.
Proof. unfold dropped. by destruct (_ =? 0). Qed.

Lemma dropped_world s a g rt sn0 :
  rec_snapshot (gen_record g) = Some sn0 →
  svc_evolves (g_world s) (g_world (dropped s a g rt)) ∧
  ∀ sn, svc_snap_live (g_world (dropped s a g rt)) sn =
    svc_snap_live (g_world s) sn &&
    negb ((gen_refs g - 1 =? 0) && bool_decide (rec_snapshot (gen_record g) = Some sn)).
Proof.
  intros Hsn. unfold dropped. simpl. destruct (gen_refs g - 1 =? 0); simpl.
  - unfold record_release. rewrite Hsn. split; [apply svc_release_evolves|].
    intros sn. rewrite svc_release_snap_live. f_equal. f_equal.
    destruct (Nat.eqb_spec sn0 sn); [rewrite bool_decide_true; congruence|].
    rewrite bool_decide_false; congruence.
  - split; [apply svc_evolves_refl|]. intros sn. by rewrite andb_true_r.
Qed.

Lemma dropped_reclaimed s a g rt i :
  i ∈ g_reclaimed (dropped s a g rt) ↔
  i ∈ g_reclaimed s ∨ (gen_refs g = 1 ∧ i = gen_id g).
Proof.
  unfold dropped. simpl. destruct (gen_refs g - 1 =? 0) eqn:Hz; bool_hyps; simpl.
  - rewrite elem_of_app, list_elem_of_singleton. split; [intros [?| ->]|intros [?|[_ ->]]]; auto.
    right. split; [lia|done].
  - split; [auto|]. intros [?|[? _]]; [done|lia].
Qed.

Lemma dropped_lookup s a g rt b h :
  g_heap s !! a = Some g → g_heap (dropped s a g rt) !! b = Some h →
  ∃ h0, g_heap s !! b = Some h0 ∧ gen_id h = gen_id h0 ∧ gen_record h = gen_record h0 ∧
    gen_refs h = gen_refs h0 - (if bool_decide (a = b) then 1 else 0) ∧
    gen_retired h = if bool_decide (a = b) then rt else gen_retired h0.
Proof.
  intros Hg. destruct (dropped_heap s a g rt) as (-> & _ & _). destruct (decide (a = b)) as [<-|Hne].
  - rewrite lookup_insert_eq, !bool_decide_true by done. intros [= <-]. exists g. by simpl.
  - rewrite lookup_insert_ne, !bool_decide_false by done. intros ?. exists h. repeat split; [done|lia].
Qed.

Lemma dropped_reclaimed_nodup E s s1 a g rt :
  heap_inv E s → g_heap s !! a = Some g → 0 < gen_refs g → g_reclaimed s1 = g_reclaimed s →
  NoDup (g_reclaimed (dropped s1 a g rt)).
Proof.
  intros Hi Hg Hr Hs1. unfold dropped. simpl.
  destruct (_ =? 0) eqn:Hz; simpl; rewrite Hs1; [|apply (hi_reclaimed_nodup _ _ Hi)].
  apply NoDup_app. split; [apply (hi_reclaimed_nodup _ _ Hi)|]. split; [|apply NoDup_singleton].
  intros i Hin ->%list_elem_of_singleton. apply (hi_reclaimed _ _ Hi) in Hin as (b & h & Hh0 & Hid & Hr0).
  assert (b = a) as -> by by eapply (hi_ids _ _ Hi). simplify_eq. lia.
Qed.

(** The bookkeeping of a lost reference: the generation set and the leases
    after the change account for one reference to [a] less. *)
Lemma dropped_inv E E' s leases a g :
  heap_inv E s → g_heap s !! a = Some g → 0 < gen_refs g →
  (∀ b, b ≠ a → b ∈ E' ↔ b ∈ E) → (a ∈ E' → a ∈ E) →
  (∀ l x, leases !! l = Some x → is_Some (g_heap s !! ls_generation x)) →
  (∀ b, (if bool_decide (b ∈ E') then 1 else 0) + map_sum (lease_pins b) leases =
     (if bool_decide (b ∈ E) then 1 else 0) + pins s b - (if bool_decide (a = b) then 1 else 0)) →
  heap_inv E' (dropped (mkRState (g_reg s) (g_heap s) leases (g_reclaimed s) (g_world s)) a g
                 (negb (bool_decide (a ∈ E')))).
Proof.
  intros Hi Hg Hr HE HEa Hl Hsum.
  set (s1 := mkRState _ _ _ _ _).
  destruct (hi_snap _ _ Hi _ _ Hg Hr) as (sn0 & Hsn0 & _).
  destruct (dropped_world s1 a g (negb (bool_decide (a ∈ E'))) sn0 Hsn0) as [Hev Hlive].
  pose proof (dropped_reclaimed s1 a g (negb (bool_decide (a ∈ E')))) as Hrec.
  pose proof (λ b h, dropped_lookup s1 a g (negb (bool_decide (a ∈ E'))) b h Hg) as Hb.
  pose proof (dropped_reclaimed_nodup E s s1 a g (negb (bool_decide (a ∈ E'))) Hi Hg Hr eq_refl) as Hnd.
  destruct (dropped_heap s1 a g (negb (bool_decide (a ∈ E')))) as (Hh & Hls & Hreg).
  set (s2 := dropped _ _ _ _) in *. simpl in Hb.
  assert (∀ b, is_Some (g_heap s !! b) → is_Some (g_heap s2 !! b)) as Hdom.
  { intros b. rewrite Hh. simpl. rewrite lookup_insert_is_Some'. auto. }
  split.
  - intros b Hb'. apply Hdom. destruct (decide (b = a)) as [->|Hne]; [by eexists|].
    apply (hi_dom _ _ Hi). by apply HE.
  - intros b h (h0 & Hh0 & _ & _ & _ & ->)%Hb. 
    destruct (decide (a = b)) as [Hab|Hab];
      [rewrite (bool_decide_true (a = b)) by done; by rewrite Hab|rewrite (bool_decide_false (a = b)) by done].
    rewrite (hi_retired _ _ Hi _ _ Hh0). f_equal. apply bool_decide_ext. symmetry. apply HE. congruence.
  - intros b h (h0 & Hh0 & _ & _ & -> & _)%Hb. rewrite (hi_refs _ _ Hi _ _ Hh0).
    unfold pins at 2. rewrite Hls. simpl. rewrite Hsum. lia.
  - intros l x. rewrite Hls. simpl. intros Hx. apply Hdom. by eapply Hl.
  - intros b h (h0 & Hh0 & _ & -> & -> & _)%Hb Hpos.
    destruct (hi_snap _ _ Hi _ _ Hh0) as (sn & Hsn & Hlv); [destruct (bool_decide _) in Hpos; lia|].
    exists sn. split; [done|]. rewrite Hlive. simpl. rewrite Hlv. simpl.
    destruct (gen_refs g - 1 =? 0) eqn:Hz; [|done]. simpl. rewrite bool_decide_false; [done|].
    intros Heq. bool_hyps. assert (a = b) as <-.
    { eapply (hi_snap_inj _ _ Hi); [done|done|done| |congruence]. destruct (bool_decide _) in Hpos; lia. }
    rewrite bool_decide_true in Hpos by done. simplify_eq. lia.
  - intros b c h k (h0 & Hh0 & _ & -> & -> & _)%Hb (k0 & Hk0 & _ & -> & -> & _)%Hb Hp1 Hp2.
    apply (hi_snap_inj _ _ Hi _ _ _ _ Hh0 Hk0); repeat destruct (bool_decide _) in *; lia.
  - done.
  - intros i. rewrite Hrec. simpl. rewrite (hi_reclaimed _ _ Hi). split.
    + intros [(b & h & Hh0 & Hid & Hr0)|[Hr1 ->]].
      * exists b, h. rewrite Hh. simpl. rewrite lookup_insert_ne; [done|]. intros <-. simplify_eq. lia.
      * eexists a, _. rewrite Hh. simpl. rewrite lookup_insert_eq. split; [done|]. simpl. split; [done|lia].
    + intros (b & h & (h0 & Hh0 & Hid & _ & Hrf & _)%Hb & Hi' & Hr0).
      rewrite Hrf in Hr0. destruct (decide (a = b)) as [Hab|Hab];
        [rewrite bool_decide_true in Hr0 by done|rewrite bool_decide_false in Hr0 by done;
         left; exists b, h0; split; [done|split; [congruence|lia]]].
      right. rewrite <-Hab in Hh0. rewrite Hg in Hh0. injection Hh0 as <-. split; [lia|congruence].
  - intros b c h k (h0 & Hh0 & -> & _)%Hb (k0 & Hk0 & -> & _)%Hb. by eapply (hi_ids _ _ Hi).
  - rewrite Hreg, Hh. simpl. rewrite map_size_insert_Some by done. apply (hi_next _ _ Hi).
  - intros b h (h0 & Hh0 & -> & _)%Hb. rewrite Hreg. by eapply (hi_bound _ _ Hi).
  - eapply svc_evolves_ok; [|done]. apply (hi_world _ _ Hi).
Qed.

(** ** Lemmas: each operation keeps the heap invariant *)

Lemma rstate_eta s : mkRState (g_reg s) (g_heap s) (g_leases s) (g_reclaimed s) (g_world s) = s.
Proof. by destruct s. Qed.

(** The invariant does not read the entries, the nodes or the revision. *)
Lemma heap_inv_reg E s r :
  r_next r = r_next (g_reg s) → heap_inv E s → heap_inv E (with_reg s r).
Proof. intros Hn [? ? ? ? ? ? ? ? ? Hx Hb ?]. rewrite <-Hn in Hx, Hb. by split. Qed.

Lemma retireLocked_dropped s a g : g_heap s !! a = Some g → retireLocked s a = dropped s a g true.
Proof. intros Hg. unfold retireLocked. by rewrite Hg. Qed.

Lemma retireLocked_inv E s a :
  heap_inv E s → a ∈ E → heap_inv (E ∖ {[a]}) (retireLocked s a).
Proof.
  intros Hi Ha. destruct (hi_dom _ _ Hi _ Ha) as [g Hg].
  rewrite (retireLocked_dropped _ _ _ Hg). pose proof (pins_nonneg s a).
  assert (gen_refs g = 1 + pins s a) as Hr
    by (rewrite (hi_refs _ _ Hi _ _ Hg), bool_decide_true; done).
  pose proof (dropped_inv E (E ∖ {[a]}) s (g_leases s) a g Hi Hg) as Hd.
  rewrite rstate_eta in Hd.
  rewrite bool_decide_false in Hd by set_solver. apply Hd; [lia|set_solver|set_solver| |].
  - intros l x Hx. by eapply hi_leases.
  - intros b. fold (pins s b). destruct (decide (a = b)) as [<-|Hne].
    + rewrite (bool_decide_true (a ∈ E)), (bool_decide_true (a = a)) by done.
      rewrite bool_decide_false by set_solver. lia.
    + rewrite (bool_decide_false (a = b)) by done.
      rewrite (bool_decide_ext (b ∈ E ∖ {[a]}) (b ∈ E)) by set_solver. lia.
Qed.

Lemma lease_Release_inv E s l : heap_inv E s → heap_inv E (lease_Release s l).
Proof.
  intros Hi. unfold lease_Release. destruct (g_leases s !! l) as [x|] eqn:Hl; [|done].
  destruct (ls_once x) eqn:Ho; [done|].
  destruct (hi_leases _ _ Hi _ _ Hl) as [g Hg]. pose proof (pinned _ _ _ Hl Ho) as Hp.
  set (a := ls_generation x) in *. pose proof (hi_refs _ _ Hi _ _ Hg) as Hr.
  assert (0 < gen_refs g) as Hpos by (destruct (bool_decide _) in Hr; lia).
  pose proof (dropped_inv E E s (<[l := mkRegLease a true (ls_target x)]> (g_leases s)) a g Hi Hg Hpos) as Hd.
  enough (release (with_lease s l (mkRegLease a true (ls_target x))) a =
    dropped (mkRState (g_reg s) (g_heap s) (<[l := mkRegLease a true (ls_target x)]> (g_leases s))
      (g_reclaimed s) (g_world s)) a g (negb (bool_decide (a ∈ E)))) as ->.
  { apply Hd; [done|done| |].
    - intros l' x'. destruct (decide (l = l')) as [<-|Hne].
      + rewrite lookup_insert_eq. intros [= <-]. by eexists.
      + rewrite lookup_insert_ne by done. intros ?. by eapply hi_leases.
    - intros b. rewrite (pins_release s l x) by done. unfold a. destruct (bool_decide (ls_generation x = b)); lia. }
  unfold release. simpl. rewrite Hg. rewrite (proj2 (Z.leb_gt _ _)) by done.
  unfold dropped. simpl. rewrite (hi_retired _ _ Hi _ _ Hg).
  destruct (gen_refs g - 1 =? 0) eqn:Hz; [|done]. bool_hyps.
  rewrite bool_decide_false; [done|]. intros Hin. rewrite bool_decide_true in Hr by done. lia.
Qed.

Lemma new_lease_inv E s a g t :
  heap_inv E s → g_heap s !! a = Some g → gen_retired g = false →
  heap_inv E (new_lease s a g t).1.
Proof.
  intros Hi Hg Hret. unfold new_lease. simpl. set (l := fresh _).
  pose proof (lookup_fresh (g_leases s)) as Hl. fold l in Hl.
  rewrite (hi_retired _ _ Hi _ _ Hg) in Hret. bool_hyps.
  pose proof (hi_refs _ _ Hi _ _ Hg) as Hr. pose proof (pins_nonneg s a).
  assert (a ∈ E) as HaE by by destruct (bool_decide_reflect (a ∈ E)). rewrite bool_decide_true in Hr by done.
  assert (∀ b h, <[a := mkGen (gen_id g) (gen_record g) (gen_refs g + 1) (gen_retired g)]> (g_heap s) !! b
      = Some h → ∃ h0, g_heap s !! b = Some h0 ∧ gen_id h = gen_id h0 ∧ gen_record h = gen_record h0 ∧
      gen_refs h = gen_refs h0 + (if bool_decide (a = b) then 1 else 0) ∧ gen_retired h = gen_retired h0) as Hb.
  { intros b h. destruct (decide (a = b)) as [<-|Hne].
    - rewrite lookup_insert_eq, bool_decide_true by done. intros [= <-]. eauto 10.
    - rewrite lookup_insert_ne, bool_decide_false by done. intros ?. exists h. repeat split; [done|lia]. }
  split; simpl.
  - intros b Hbin. apply lookup_insert_is_Some'. right. by eapply hi_dom.
  - intros b h (h0 & Hh0 & _ & _ & _ & ->)%Hb. by eapply hi_retired.
  - intros b h (h0 & Hh0 & _ & _ & -> & _)%Hb. rewrite (hi_refs _ _ Hi _ _ Hh0).
    unfold pins at 2. simpl. rewrite pins_new by done. lia.
  - intros l' x. destruct (decide (l = l')) as [<-|Hne].
    + rewrite lookup_insert_eq. intros [= <-]. simpl. rewrite lookup_insert_eq. by eexists.
    + rewrite lookup_insert_ne by done. intros Hx. apply lookup_insert_is_Some'. right. by eapply hi_leases.
  - intros b h (h0 & Hh0 & _ & -> & Hrf & _)%Hb Hpos. eapply (hi_snap _ _ Hi); [done|].
    destruct (decide (a = b)) as [<-|]; [simplify_eq; lia|rewrite bool_decide_false in Hrf by done; lia].
  - intros b c h k (h0 & Hh0 & _ & -> & Hr1 & _)%Hb (k0 & Hk0 & _ & -> & Hr2 & _)%Hb Hp1 Hp2.
    apply (hi_snap_inj _ _ Hi _ _ _ _ Hh0 Hk0).
    + destruct (decide (a = b)) as [<-|]; [simplify_eq; lia|rewrite bool_decide_false in Hr1 by done; lia].
    + destruct (decide (a = c)) as [<-|]; [simplify_eq; lia|rewrite bool_decide_false in Hr2 by done; lia].
  - apply (hi_reclaimed_nodup _ _ Hi).
  - intros i. rewrite (hi_reclaimed _ _ Hi). split.
    + intros (b & h & Hh & Hid & Hz). exists b, h. rewrite lookup_insert_ne; [done|].
      intros <-. simplify_eq. lia.
    + intros (b & h & (h0 & Hh0 & Hid & _ & Hrf & _)%Hb & <- & Hz). exists b, h0. split; [done|].
      split; [done|]. destruct (decide (a = b)) as [<-|].
      * rewrite bool_decide_true in Hrf by done. simplify_eq. lia.
      * rewrite bool_decide_false in Hrf by done. lia.
  - intros b c h k (h0 & Hh0 & -> & _)%Hb (k0 & Hk0 & -> & _)%Hb. by eapply (hi_ids _ _ Hi).
  - rewrite map_size_insert_Some by done. apply (hi_next _ _ Hi).
  - intros b h (h0 & Hh0 & -> & _)%Hb. by eapply (hi_bound _ _ Hi).
  - apply (hi_world _ _ Hi).
Qed.

Lemma publish_inv E s id rec sn :
  heap_inv E s → Z.of_nat (size (g_heap s)) < 2 ^ 64 - 1 →
  rec_snapshot rec = Some sn → svc_snap_live (g_world s) sn = true → ¬ owns s sn →
  heap_inv ({[fresh (dom (g_heap s))]} ∪ E) (publish s id rec).
Proof.
  intros Hi Hsize Hsn Hlive Hown. unfold publish.
  pose proof (lookup_fresh (g_heap s)) as Hf. set (a := fresh (dom (g_heap s))) in *.
  assert (a ∉ E) as HaE. { intros Ha. destruct (hi_dom _ _ Hi _ Ha) as [? Hx]. by rewrite Hx in Hf. }
  assert (pins s a = 0) as Hpins.
  { unfold pins. rewrite (map_sum_ext _ (λ _, 0)); [by rewrite map_sum_const|].
    intros l x Hx. unfold lease_pins. destruct (hi_leases _ _ Hi _ _ Hx) as [h Hh].
    rewrite bool_decide_false by (intros Heq; rewrite Heq in Hh; congruence). by destruct (ls_once x). }
  assert (wrapU64 (r_next (g_reg s) + 1) = r_next (g_reg s) + 1) as Hnext.
  { unfold wrapU64. rewrite (hi_next _ _ Hi). apply Z.mod_small. lia. }
  rewrite Hnext. set (g := mkGen (r_next (g_reg s) + 1) rec 1 false).
  assert (∀ b h, <[a := g]> (g_heap s) !! b = Some h →
    (b = a ∧ h = g) ∨ (b ≠ a ∧ g_heap s !! b = Some h)) as Hb.
  { intros b h. destruct (decide (a = b)) as [<-|Hne].
    - rewrite lookup_insert_eq. intros [= <-]. by left.
    - rewrite lookup_insert_ne by done. auto. }
  split; simpl.
  - intros b [->%elem_of_singleton|Hbin]%elem_of_union; apply lookup_insert_is_Some'; [by left|].
    right. by eapply hi_dom.
  - intros b h [[-> ->]|[Hne Hh]]%Hb; [by rewrite bool_decide_true by set_solver|].
    rewrite (hi_retired _ _ Hi _ _ Hh). f_equal. apply bool_decide_ext. set_solver.
  - intros b h [[-> ->]|[Hne Hh]]%Hb.
    + rewrite bool_decide_true by set_solver. change (pins _ a) with (pins s a). rewrite Hpins. done.
    + rewrite (hi_refs _ _ Hi _ _ Hh). f_equal. rewrite (bool_decide_ext (b ∈ E) (b ∈ {[a]} ∪ E)) by set_solver. done.
  - intros l x Hx. apply lookup_insert_is_Some'. right. by eapply hi_leases.
  - intros b h [[-> ->]|[Hne Hh]]%Hb Hpos; [by exists sn|by eapply hi_snap].
  - intros b c h k [[-> ->]|[Hne Hh]]%Hb [[-> ->]|[Hne' Hk]]%Hb Hp1 Hp2 Heq; [done| | |by eapply (hi_snap_inj _ _ Hi)].
    + destruct Hown. exists c, k. simpl in Heq. rewrite <-Heq. auto.
    + destruct Hown. exists b, h. simpl in Heq. rewrite Heq. auto.
  - apply (hi_reclaimed_nodup _ _ Hi).
  - intros i. rewrite (hi_reclaimed _ _ Hi). split.
    + intros (b & h & Hh & Hid & Hz). exists b, h. rewrite lookup_insert_ne; [done|]. intros <-. congruence.
    + intros (b & h & [[-> ->]|[Hne Hh]]%Hb & Hid & Hz); [done|eauto].
  - assert (∀ b h, g_heap s !! b = Some h → gen_id h ≠ r_next (g_reg s) + 1) as Hid.
    { intros b h Hh. pose proof (hi_bound _ _ Hi _ _ Hh). lia. }
    intros b c h k [[-> ->]|[Hne Hh]]%Hb [[-> ->]|[Hne' Hk]]%Hb Heq; [done| | |by eapply (hi_ids _ _ Hi)].
    + symmetry in Heq. by apply (Hid _ _ Hk) in Heq.
    + by apply (Hid _ _ Hh) in Heq.
  - rewrite map_size_insert_None by done. rewrite (hi_next _ _ Hi). lia.
  - intros b h [[-> ->]|[Hne Hh]]%Hb; simpl; [|pose proof (hi_bound _ _ Hi _ _ Hh); lia].
    rewrite (hi_next _ _ Hi). lia.
  - apply (hi_world _ _ Hi).
Qed.

Lemma heap_inv_world E s w :
  heap_inv E s → svc_evolves (g_world s) w → (∀ sn, owns s sn → svc_snap_live w sn = true) →
  heap_inv E (mkRState (g_reg s) (g_heap s) (g_leases s) (g_reclaimed s) w).
Proof.
  intros Hi Hev Hown. pose proof (svc_evolves_ok _ _ (hi_world _ _ Hi) Hev).
  destruct Hi as [? ? ? ? Hsnap ? ? ? ? ? ? _]. split; try done. simpl.
  intros a g Hg Hpos. destruct (Hsnap _ _ Hg Hpos) as (sn & Hsn & _). exists sn. split; [done|].
  apply Hown. by exists a, g.
Qed.

(** ** Lemmas: entries *)

(** Operations leave the records of generations alone. *)
Definition same_records s s' : Prop :=
  ∀ a, gen_record <$> g_heap s' !! a = gen_record <$> g_heap s !! a.

Lemma same_records_dropped s a g rt : g_heap s !! a = Some g → same_records s (dropped s a g rt).
Proof.
  intros Hg b. destruct (dropped_heap s a g rt) as (-> & _ & _).
  destruct (decide (a = b)) as [<-|Hne]; [by rewrite lookup_insert_eq, Hg|by rewrite lookup_insert_ne].
Qed.

Lemma entries_are_ext s s' E :
  r_entries (g_reg s') = r_entries (g_reg s) → same_records s s' → entries_are s E → entries_are s' E.
Proof.
  intros Hr Hs He id a. rewrite Hr, (He id a). specialize (Hs a). unfold gen_capability.
  destruct (g_heap s !! a) as [g|], (g_heap s' !! a) as [g'|]; simplify_eq/=; [|naive_solver].
  split; intros (? & h & [= <-] & <-); (split; [done|]); eexists; (split; [done|]); congruence.
Qed.

Lemma installed_records_ext s s' :
  r_entries (g_reg s') = r_entries (g_reg s) → same_records s s' →
  installed_records s' = installed_records s.
Proof.
  intros Hr Hs. unfold installed_records. rewrite Hr.
  apply list_omap_ext, Forall_Forall2_diag, Forall_true. intros [id a]. specialize (Hs a).
  destruct (g_heap s !! a), (g_heap s' !! a); simplify_eq/=; congruence.
Qed.

(** Establishing the whole invariant after an operation that rebuilds the
    hierarchy, and after one that leaves entries and records alone. *)
Lemma reg_inv_rebuilt E s :
  heap_inv E s → entries_are s E → r_closed (g_reg s) = false →
  reg_inv (bump_revision (rebuildHierarchyLocked s)).
Proof.
  intros Hi He Hc. split; simpl; [|congruence|done]. exists E. split; [|done].
  by apply (heap_inv_reg E (rebuildHierarchyLocked s)), heap_inv_reg.
Qed.

Lemma reg_inv_built E s : heap_inv E s → entries_are s E → r_closed (g_reg s) = false → reg_inv (rebuildHierarchyLocked s).
Proof. intros Hi He Hc. split; simpl; [|congruence|done]. exists E. split; [by apply heap_inv_reg|done]. Qed.

Lemma reg_inv_frame s s' :
  reg_inv s → (∀ E, heap_inv E s → heap_inv E s') →
  g_reg s' = g_reg s → same_records s s' → reg_inv s'.
Proof.
  intros [(E & Hi & He) Hc Hn] Hh Hr Hs. split; rewrite ?Hr; [|done|].
  - exists E. split; [by apply Hh|]. eapply entries_are_ext; [by rewrite Hr|done|done].
  - intros Hcl. rewrite (installed_records_ext s s'); [auto|by rewrite Hr|done].
Qed.

Lemma publish_entries E s id rec :
  heap_inv E s → entries_are s E → md_ID (rec_metadata rec) = id →
  entries_are (publish s id rec)
    ({[fresh (dom (g_heap s))]} ∪ (E ∖ list_to_set (option_list (r_entries (g_reg s) !! id)))).
Proof.
  intros Hi He Hid id' a'. unfold publish. simpl.
  pose proof (lookup_fresh (g_heap s)) as Hf. set (a := fresh (dom (g_heap s))) in *.
  rewrite elem_of_union, elem_of_singleton, elem_of_difference, elem_of_list_to_set.
  assert (∀ b, b ∈ E → a ≠ b) as Hne.
  { intros b Hb <-. destruct (hi_dom _ _ Hi _ Hb) as [? ?]. congruence. }
  destruct (decide (id = id')) as [<-|Hid'].
  - rewrite lookup_insert_eq. split.
    + intros [= <-]. split; [by left|]. rewrite lookup_insert_eq. by eexists.
    + intros [[->|[Hin Hnot]] (g & Hg & Hc)]; [done|]. destruct Hnot.
      rewrite lookup_insert_ne in Hg by by apply Hne.
      assert (r_entries (g_reg s) !! id = Some a') as -> by (apply He; eauto). simpl. by left.
  - rewrite lookup_insert_ne by done. rewrite (He id' a'). split.
    + intros [Hin (g & Hg & Hc)]. rewrite lookup_insert_ne by by apply Hne.
      split; [|eauto]. right. split; [done|]. destruct (r_entries (g_reg s) !! id) as [b|] eqn:Hb; simpl; [|by apply not_elem_of_nil].
      intros ->%list_elem_of_singleton. apply He in Hb as [_ (h & Hh & Hc')]. congruence.
    + intros [[->|[Hin _]] (g & Hg & Hc)].
      * rewrite lookup_insert_eq in Hg. injection Hg as <-. unfold gen_capability in Hc. simpl in Hc. congruence.
      * rewrite lookup_insert_ne in Hg by by apply Hne. eauto.
Qed.

Lemma remove_entries E s id a :
  entries_are s E → r_entries (g_reg s) !! id = Some a → entries_are (remove_entry s id) (E ∖ {[a]}).
Proof.
  intros He Ha id' b. simpl. rewrite elem_of_difference, elem_of_singleton.
  destruct (decide (id = id')) as [<-|Hne].
  - rewrite lookup_delete_eq. split; [done|]. intros [[Hin Hb] Hg].
    assert (r_entries (g_reg s) !! id = Some b) by (apply He; eauto). congruence.
  - rewrite lookup_delete_ne, (He id' b) by done. split; [|naive_solver].
    intros [Hin Hg]. split; [|done]. split; [done|]. intros ->.
    destruct Hg as (g & Hg & Hc). apply He in Ha as [_ (h & Hh & Hc')]. congruence.
Qed.

Lemma entries_live E s id a :
  heap_inv E s → entries_are s E → r_entries (g_reg s) !! id = Some a →
  a ∈ E ∧ ∃ g, g_heap s !! a = Some g ∧ gen_retired g = false ∧ gen_capability g = id.
Proof.
  intros Hi He Ha. apply He in Ha as [Hin (g & Hg & Hc)]. split; [done|]. exists g. split; [done|].
  split; [|done]. rewrite (hi_retired _ _ Hi _ _ Hg). by rewrite bool_decide_true.
Qed.

(** Retiring an installed generation once its entry is gone or replaced. *)
Lemma retired_rebuilt E s a :
  heap_inv E s → a ∈ E → entries_are s (E ∖ {[a]}) → r_closed (g_reg s) = false →
  reg_inv (bump_revision (rebuildHierarchyLocked (retireLocked s a))).
Proof.
  intros Hi Ha He Hc. destruct (hi_dom _ _ Hi _ Ha) as [g Hg].
  apply reg_inv_rebuilt with (E ∖ {[a]}).
  - by apply retireLocked_inv.
  - rewrite (retireLocked_dropped _ _ _ Hg). eapply entries_are_ext; [|by apply same_records_dropped|done].
    by destruct (dropped_heap s a g true) as (_ & _ & ->).
  - rewrite (retireLocked_dropped _ _ _ Hg). by destruct (dropped_heap s a g true) as (_ & _ & ->).
Qed.

(** ** Lemmas: each call keeps the invariant *)

Lemma usable_Some record r :
  usable record = Some r → record = Some r ∧ ∃ sn, rec_snapshot r = Some sn.
Proof. unfold usable. repeat case_match; intros; simplify_eq; eauto. Qed.

Lemma Add_inv s record : reg_inv s → record_fresh s record → reg_inv (Add s record).1.
Proof.
  intros Hv [Hsize Hfresh]. unfold Add, addLocked. destruct (r_closed (g_reg s)) eqn:Hc; [done|].
  destruct (usable record) as [r|] eqn:Hu; [|done]. apply usable_Some in Hu as (-> & sn & Hsn).
  destruct (Hfresh r sn eq_refl Hsn) as [Hlive Hown].
  destruct (r_entries (g_reg s) !! _) eqn:He; [done|]. simpl. destruct Hv as [(E & Hi & Hent) _ _].
  eapply reg_inv_rebuilt; [by eapply publish_inv| |done].
  pose proof (publish_entries E s _ r Hi Hent eq_refl) as Hp. rewrite He in Hp. simpl in Hp.
  by rewrite difference_empty_L in Hp.
Qed.

Lemma Reinstall_inv s record : reg_inv s → record_fresh s record → reg_inv (Reinstall s record).1.
Proof.
  intros Hv [Hsize Hfresh]. unfold Reinstall.
  destruct (usable record) as [r|] eqn:Hu; [|done]. apply usable_Some in Hu as (-> & sn & Hsn).
  destruct (Hfresh r sn eq_refl Hsn) as [Hlive Hown]. destruct (r_closed (g_reg s)) eqn:Hc; [done|].
  destruct (r_entries (g_reg s) !! _) as [cur|] eqn:He; [|done]. simpl. destruct Hv as [(E & Hi & Hent) _ _].
  destruct (entries_live _ _ _ _ Hi Hent He) as (Hcur & g & Hg & _).
  assert (cur ≠ fresh (dom (g_heap s))) as Hne.
  { intros ->. by rewrite lookup_fresh in Hg. }
  pose proof (publish_entries E s _ r Hi Hent eq_refl) as Hp. rewrite He in Hp. simpl in Hp.
  eapply retired_rebuilt; [by eapply publish_inv|set_solver| |done].
  replace (({[fresh (dom (g_heap s))]} ∪ E) ∖ {[cur]})
    with ({[fresh (dom (g_heap s))]} ∪ E ∖ ({[cur]} ∪ ∅) : gset nat) by set_solver. done.
Qed.

Lemma Uninstall_inv s id : reg_inv s → reg_inv (Uninstall s id).1.
Proof.
  intros Hv. unfold Uninstall. destruct (r_closed (g_reg s)) eqn:Hc; [done|].
  destruct (r_entries (g_reg s) !! id) as [cur|] eqn:He; [|done]. simpl.
  destruct Hv as [(E & Hi & Hent) _ _].
  destruct (entries_live _ _ _ _ Hi Hent He) as (Hcur & g & Hg & _).
  eapply (retired_rebuilt E); [by apply heap_inv_reg|done|by apply remove_entries|done].
Qed.

Lemma new_lease_reg_inv s a g t :
  reg_inv s → g_heap s !! a = Some g → gen_retired g = false → reg_inv (new_lease s a g t).1.
Proof.
  intros Hv Hg Hr. eapply reg_inv_frame; [done| |done|].
  - intros E Hi. by apply new_lease_inv.
  - intros b. simpl. destruct (decide (a = b)) as [<-|Hne]; [by rewrite lookup_insert_eq, Hg|].
    by rewrite lookup_insert_ne.
Qed.

Lemma live_entry_Some s id a g :
  live_entry s id = Some (a, g) → r_entries (g_reg s) !! id = Some a ∧ g_heap s !! a = Some g ∧ gen_retired g = false.
Proof. unfold live_entry. repeat case_match; intros; simplify_eq; done. Qed.

Lemma Lookup_inv s id : reg_inv s → reg_inv (Lookup s id).1.
Proof.
  intros Hv. unfold Lookup. destruct (r_closed (g_reg s)); [done|].
  destruct (live_entry s id) as [[a g]|] eqn:Hl; [|done]. apply live_entry_Some in Hl as (_ & Hg & Hr).
  by apply (new_lease_reg_inv s a g None).
Qed.

Lemma ResolveOperation_inv s id o : reg_inv s → reg_inv (ResolveOperation s id o).1.
Proof.
  intros Hv. unfold ResolveOperation. destruct (r_closed (g_reg s)); [done|].
  destruct (live_entry s id) as [[a g]|] eqn:Hl; [|done]. apply live_entry_Some in Hl as (_ & Hg & Hr).
  destruct (find_target _ _ _) as [t|]; [|done]. by apply (new_lease_reg_inv s a g (Some t)).
Qed.

Lemma lease_Release_reg_inv s l : reg_inv s → reg_inv (lease_Release s l).
Proof.
  intros Hv. eapply reg_inv_frame; [done| | |].
  - intros E Hi. by apply lease_Release_inv.
  - unfold lease_Release, release, reclaimLocked. by repeat (case_match; simplify_eq/=).
  - intros b. unfold lease_Release, release, reclaimLocked.
    destruct (g_leases s !! l) as [x|]; [|done]. destruct (ls_once x); [done|]. simpl.
    destruct (g_heap s !! ls_generation x) as [g|] eqn:Hg; [|done].
    destruct (decide (ls_generation x = b)) as [<-|Hne]; repeat case_match; simpl;
      rewrite ?lookup_insert_eq, ?lookup_insert_ne, ?Hg by done; done.
Qed.

Lemma retire_all_inv l E s :
  heap_inv E s → NoDup l.*2 → (∀ a, a ∈ l.*2 → a ∈ E) →
  heap_inv (E ∖ list_to_set l.*2) (foldl (λ s (e : string * nat), retireLocked s e.2) s l).
Proof.
  revert E s. induction l as [|[id a] l IH]; intros E s Hi Hnd Hl; simpl in *.
  { by rewrite difference_empty_L. }
  apply NoDup_cons in Hnd as [Hn Hnd]. rewrite <-difference_difference_l_L. apply IH; [|done|].
  - apply retireLocked_inv; [done|]. apply Hl. by left.
  - intros b Hb. apply elem_of_difference. split; [apply Hl; by right|]. set_solver.
Qed.

Lemma retire_all_reg l s : g_reg (foldl (λ s (e : string * nat), retireLocked s e.2) s l) = g_reg s.
Proof.
  revert s. induction l as [|[id a] l IH]; intros s; simpl; [done|]. rewrite IH.
  unfold retireLocked, reclaimLocked. by repeat (case_match; simplify_eq/=).
Qed.

Lemma closeLocked_inv s order :
  reg_inv s → order ≡ₚ map_to_list (r_entries (g_reg s)) → reg_inv (closeLocked order s).
Proof.
  intros Hv Hord. unfold closeLocked. destruct (r_closed (g_reg s)) eqn:Hc; [done|].
  destruct Hv as [(E & Hi & Hent) _ _].
  assert (∀ a, a ∈ order.*2 ↔ a ∈ E) as HE.
  { intros a. rewrite list_elem_of_fmap. split.
    - intros ([id b] & -> & Hin). rewrite Hord, elem_of_map_to_list in Hin. by apply Hent in Hin as [? _].
    - intros Hin. destruct (hi_dom _ _ Hi _ Hin) as [g Hg]. exists (gen_capability g, a).
      split; [done|]. rewrite Hord, elem_of_map_to_list. apply Hent. eauto. }
  assert (NoDup order.*2) as Hnd.
  { rewrite Hord. apply NoDup_fmap_2_strong; [|apply NoDup_map_to_list].
    intros [i1 b1] [i2 b2] H1%elem_of_map_to_list H2%elem_of_map_to_list ?. simplify_eq/=.
    apply Hent in H1 as [_ (g & Hg & <-)], H2 as [_ (h & Hh & <-)]. by simplify_eq. }
  set (s1 := with_reg s _).
  assert (heap_inv E s1) as Hi1 by by apply heap_inv_reg.
  pose proof (retire_all_inv order E s1 Hi1 Hnd (λ a, proj1 (HE a))) as Hi2.
  replace (E ∖ list_to_set order.*2) with (∅ : gset nat) in Hi2.
  2: { apply set_eq. intros a. rewrite elem_of_difference, elem_of_list_to_set, HE. set_solver. }
  pose proof (retire_all_reg order s1) as Hreg.
  split; simpl; [|done|done]. exists ∅. split.
  - apply heap_inv_reg; [by rewrite Hreg|done].
  - intros id a. simpl. rewrite lookup_empty. split; [done|]. intros [? _]. set_solver.
Qed.

Lemma heap_inv_empty w : svc_ok w → heap_inv ∅ (empty_state w) ∧ entries_are (empty_state w) ∅.
Proof.
  intros Hw. split.
  - split; simpl; try done; try (by intros; rewrite lookup_empty in *).
    + constructor.
    + intros i. rewrite elem_of_nil. split; [done|]. intros (a & g & Hg & _). by rewrite lookup_empty in Hg.
  - intros id a. simpl. rewrite lookup_empty. split; [done|]. intros [? _]. set_solver.
Qed.

Lemma publish_owns s id r sn sn' : rec_snapshot r = Some sn → owns (publish s id r) sn' → owns s sn' ∨ sn' = sn.
Proof.
  intros Hsn (b & g & Hb & Hg & Hr). simpl in Hb. destruct (decide (fresh (dom (g_heap s)) = b)) as [<-|Hne].
  - rewrite lookup_insert_eq in Hb. injection Hb as <-. simpl in Hr. right. congruence.
  - rewrite lookup_insert_ne in Hb by done. left. by exists b, g.
Qed.

Lemma publish_fresh s id r sn records : rec_snapshot r = Some sn → records_fresh s (r :: records) → records_fresh (publish s id r) records.
Proof.
  intros Hsn [Hc Hd Hl]. simpl in *. rewrite Hsn in Hd. apply NoDup_cons in Hd as [Hn Hd]. split; [|done|].
  - simpl. rewrite map_size_insert_None by apply lookup_fresh. lia.
  - intros r' sn' Hr' Hsn'. destruct (Hl r' sn') as [Hlive Hown]; [by right|done|]. split; [done|].
    intros [Ho| ->]%(publish_owns _ _ _ sn); [done| |done]. apply Hn, list_elem_of_omap. by exists r'.
Qed.

(** What adding records leaves as it was. *)
Record registered s s' : Prop := {
  rg_entries id a : r_entries (g_reg s) !! id = Some a → r_entries (g_reg s') !! id = Some a;
  rg_heap a g : g_heap s !! a = Some g → g_heap s' !! a = Some g;
  rg_leases : g_leases s' = g_leases s;
  rg_world : g_world s' = g_world s;
  rg_closed : r_closed (g_reg s') = r_closed (g_reg s);
  rg_revision : r_revision (g_reg s') = r_revision (g_reg s);
}.

(** Records are registered when they have snapshots and new identifiers, and
    each is then installed. *)
Lemma register_spec records : ∀ E s, heap_inv E s → entries_are s E → r_closed (g_reg s) = false → records_fresh s records →
  (∀ s', register s (Some <$> records) = (s', None) →
     reg_inv s' ∧ registered s s' ∧
     (∀ id, is_Some (r_entries (g_reg s') !! id) ↔ is_Some (r_entries (g_reg s) !! id) ∨ id ∈ map record_id records) ∧
     Forall (λ r, ∃ a g, live_entry s' (record_id r) = Some (a, g) ∧ gen_record g = r) records) ∧
  (Forall (λ r, is_Some (rec_snapshot r) ∧ r_entries (g_reg s) !! record_id r = None) records → NoDup (map record_id records) →
     ∃ s', register s (Some <$> records) = (s', None)).
Proof.
  induction records as [|r records IH]; intros E s Hi He Hc Hf; cbn [fmap list_fmap register].
  { split; [|by eexists]. intros s' [= <-]. split; [by eapply reg_inv_built|]. split; [by split|]. split; [|constructor].
    intros id. cbn. rewrite elem_of_nil. tauto. }
  unfold addLocked. destruct (usable (Some r)) as [r'|] eqn:Hu.
  2: { split; [by intros ?|]. intros [[[sn Hsn] _] _]%Forall_cons. unfold usable in Hu. by rewrite Hsn in Hu. }
  apply usable_Some in Hu as ([= <-] & sn & Hsn). change (md_ID (rec_metadata r)) with (record_id r).
  destruct (r_entries (g_reg s) !! record_id r) as [b|] eqn:Hb.
  { split; [by intros ?|]. intros [[_ Hno] _]%Forall_cons. congruence. }
  destruct (rf_live _ _ Hf r sn) as [Hlive Hown]; [by left|done|].
  assert (Z.of_nat (size (g_heap s)) < 2 ^ 64 - 1) as Hsize by (pose proof (rf_count _ _ Hf); simpl in *; lia).
  pose proof (publish_inv E s (record_id r) r sn Hi Hsize Hsn Hlive Hown) as Hi'.
  pose proof (publish_entries E s (record_id r) r Hi He eq_refl) as He'. rewrite Hb in He'. simpl in He'. rewrite difference_empty_L in He'.
  destruct (IH _ _ Hi' He' Hc (publish_fresh _ _ _ _ _ Hsn Hf)) as [IH1 IH2].
  assert (∀ id a, r_entries (g_reg s) !! id = Some a → id ≠ record_id r) as Hid by (intros id a Ha ->; congruence).
  split.
  - intros s' Hs'. destruct (IH1 s' Hs') as (Hv & [Ge Gh Gl Gw Gc Gr] & Hdom & Hall). split; [done|]. split; [|split].
    + split; [|intros a g Ha; apply Gh; simpl; rewrite lookup_insert_ne; [done|intros <-; by rewrite lookup_fresh in Ha]|done..].
      intros id a Ha. apply Ge. simpl. rewrite lookup_insert_ne; [done|]. intros <-. by eapply Hid.
    + intros id. rewrite Hdom. simpl. rewrite elem_of_cons, lookup_insert_is_Some. destruct (decide (record_id r = id)) as [<-|]; naive_solver.
    + constructor; [|done]. exists (fresh (dom (g_heap s))), (mkGen (wrapU64 (r_next (g_reg s) + 1)) r 1 false). split; [|done].
      unfold live_entry. rewrite (Ge (record_id r) (fresh (dom (g_heap s)))) by apply lookup_insert_eq.
      by rewrite (Gh (fresh (dom (g_heap s))) (mkGen (wrapU64 (r_next (g_reg s) + 1)) r 1 false)) by apply lookup_insert_eq.
  - intros [_ Hall]%Forall_cons [Hn Hd]%NoDup_cons. apply IH2; [|done]. rewrite Forall_forall in *. intros r' Hr'.
    destruct (Hall r' Hr') as [Hsome Hno]. split; [done|]. simpl. rewrite lookup_insert_ne; [done|]. intros Heq. apply Hn. rewrite Heq.
    by apply list_elem_of_In, in_map, list_elem_of_In.
Qed.

Lemma reg_initial_inv s : reg_initial s → reg_inv s.
Proof.
  intros (w & records & Hw & Hf & Hs). destruct (heap_inv_empty w Hw) as [Hi He].
  by destruct (proj1 (register_spec records ∅ _ Hi He eq_refl Hf) s Hs).
Qed.

Lemma initial_revision s : reg_initial s → r_revision (g_reg s) = 0.
Proof.
  intros (w & records & Hw & Hf & Hs). destruct (heap_inv_empty w Hw) as [Hi He].
  destruct (proj1 (register_spec records ∅ _ Hi He eq_refl Hf) s Hs) as (_ & [_ _ _ _ _ ->] & _). done.
Qed.

Lemma empty_initial w : svc_ok w → reg_initial (NewRegistry w []).1.
Proof. intros Hw. exists w, []. split; [done|]. split; [|done]. split; [done|constructor|]. intros r sn Hr. by apply elem_of_nil in Hr. Qed.

Lemma reg_step_inv s s' : reg_inv s → reg_step s s' → reg_inv s'.
Proof.
  intros Hv ([r|r|id|id|id o|order p|l|order|w] & Ha & ->); simpl in *.
  - by apply Add_inv.
  - by apply Reinstall_inv.
  - by apply Uninstall_inv.
  - by apply Lookup_inv.
  - by apply ResolveOperation_inv.
  - unfold ResolveToolPath. destruct (tool_plan _ _ _) as [[id o]|]; [|done]. by apply ResolveOperation_inv.
  - by apply lease_Release_reg_inv.
  - by apply closeLocked_inv.
  - destruct Ha as [Hev Hown]. eapply reg_inv_frame; [done| |done|done].
    intros E Hi. by apply heap_inv_world.
Qed.

Lemma reg_steps_inv s s' : reg_inv s → rtc reg_step s s' → reg_inv s'.
Proof. intros Hv Hr. induction Hr; [done|]. eauto using reg_step_inv. Qed.

Lemma reg_reachable_inv s : reg_reachable s → reg_inv s.
Proof. intros (s0 & H0%reg_initial_inv & Hr). by eapply reg_steps_inv. Qed.
End steps.

(** ** Lemmas: what the calls change of leases, records and the store *)

Section frames.
Context {W : Type} `{SnapshotOps W} `{!SnapshotLaws W}.
Implicit Types s : RState W.

(** Leases are only ever marked released; generations keep their records;
    the store only makes its own steps. *)
Record grows s s' : Prop := {
  gr_leases l x : g_leases s !! l = Some x → ∃ x', g_leases s' !! l = Some x' ∧
    ls_generation x' = ls_generation x ∧ (ls_once x = true → ls_once x' = true);
  gr_records a g : g_heap s !! a = Some g → ∃ g', g_heap s' !! a = Some g' ∧ gen_record g' = gen_record g;
  gr_world : svc_evolves (g_world s) (g_world s');
}.

Global Instance grows_preorder : PreOrder grows.
Proof.
  split.
  - intros s. split; [eauto|eauto|apply svc_evolves_refl].
  - intros s1 s2 s3 [L1 R1 W1] [L2 R2 W2]. split.
    + intros l x Hx. destruct (L1 _ _ Hx) as (x2 & Hx2 & Hg2 & Ho2).
      destruct (L2 _ _ Hx2) as (x3 & Hx3 & Hg3 & Ho3). exists x3. split; [done|]. split; [congruence|auto].
    + intros a g Hg. destruct (R1 _ _ Hg) as (g2 & Hg2 & Hr2).
      destruct (R2 _ _ Hg2) as (g3 & Hg3 & Hr3). exists g3. split; [done|congruence].
    + by eapply svc_evolves_trans.
Qed.

Lemma grows_reg s r : grows s (with_reg s r).
Proof. split; simpl; [eauto|eauto|apply svc_evolves_refl]. Qed.

Lemma grows_gen s a g g' :
  g_heap s !! a = Some g → gen_record g' = gen_record g → grows s (with_gen s a g').
Proof.
  intros Hg Hr. split; simpl; [eauto| |apply svc_evolves_refl].
  intros b h Hh. destruct (decide (a = b)) as [<-|Hne].
  - simplify_eq. rewrite lookup_insert_eq. eauto.
  - rewrite lookup_insert_ne by done. eauto.
Qed.

Lemma grows_reclaim s g : grows s (reclaimLocked s g).
Proof.
  split; simpl; [eauto|eauto|]. unfold record_release.
  destruct (rec_snapshot _); [apply svc_release_evolves|apply svc_evolves_refl].
Qed.

Lemma grows_publish s id r : grows s (publish s id r).
Proof.
  split; simpl; [eauto| |apply svc_evolves_refl].
  intros a g Hg. rewrite lookup_insert_ne; [eauto|]. intros <-. by rewrite lookup_fresh in Hg.
Qed.

Lemma grows_retire s a : grows s (retireLocked s a).
Proof.
  unfold retireLocked. destruct (g_heap s !! a) as [g|] eqn:Hg; [|done]. simpl.
  destruct (_ =? 0); [etrans; [|apply grows_reclaim]|]; by eapply grows_gen.
Qed.

Lemma grows_release s a : grows s (release s a).
Proof.
  unfold release. destruct (g_heap s !! a) as [g|] eqn:Hg; [|done].
  destruct (_ <=? 0); [done|]. simpl.
  destruct (_ && _); [etrans; [|apply grows_reclaim]|]; by eapply grows_gen.
Qed.

Lemma grows_new_lease s a g t : g_heap s !! a = Some g → grows s (new_lease s a g t).1.
Proof.
  intros Hg. unfold new_lease. simpl. etrans; [by eapply (grows_gen s a g (mkGen (gen_id g) (gen_record g) (gen_refs g + 1) (gen_retired g)))|].
  split; simpl; [|eauto|apply svc_evolves_refl].
  intros l x Hx. rewrite lookup_insert_ne; [eauto|]. intros <-. by rewrite lookup_fresh in Hx.
Qed.

Lemma grows_lease_Release s l : grows s (lease_Release s l).
Proof.
  unfold lease_Release. destruct (g_leases s !! l) as [x|] eqn:Hl; [|done].
  destruct (ls_once x) eqn:Ho; [done|]. etrans; [|apply grows_release].
  split; simpl; [|eauto|apply svc_evolves_refl]. intros l' x' Hx'.
  destruct (decide (l = l')) as [<-|Hne].
  - simplify_eq. rewrite lookup_insert_eq. eexists. by repeat split.
  - rewrite lookup_insert_ne by done. eauto.
Qed.

Lemma grows_retire_all s order : grows s (foldl (λ s (e : string * nat), retireLocked s e.2) s order).
Proof.
  revert s. induction order as [|e l IH]; intros s; simpl; [done|].
  etrans; [apply grows_retire|apply IH].
Qed.

Lemma grows_close s order : grows s (closeLocked order s).
Proof.
  unfold closeLocked. destruct (r_closed _); [done|].
  etrans; [|apply grows_reg]. etrans; [|apply grows_retire_all]. apply grows_reg.
Qed.

Lemma grows_rebuilt s : grows s (bump_revision (rebuildHierarchyLocked s)).
Proof. unfold bump_revision, rebuildHierarchyLocked. etrans; apply grows_reg. Qed.

Lemma grows_resolve s id o : grows s (ResolveOperation s id o).1.
Proof.
  unfold ResolveOperation. destruct (r_closed _); [done|].
  destruct (live_entry s id) as [[a g]|] eqn:Hl; [|done]. destruct (find_target _ _ _) as [t|]; [|done].
  apply live_entry_Some in Hl as (_ & Hg & _). by apply (grows_new_lease s a g (Some t)).
Qed.

Lemma reg_step_grows s s' : reg_step s s' → grows s s'.
Proof.
  intros ([r|r|id|id|id o|order p|l|order|w] & Ha & ->); simpl in *.
  - unfold Add, addLocked. destruct (r_closed _); [done|]. destruct (usable r); [|done].
    destruct (r_entries _ !! _); [done|]. simpl. etrans; [apply grows_publish|apply grows_rebuilt].
  - unfold Reinstall. destruct (usable r); [|done]. destruct (r_closed _); [done|].
    destruct (r_entries _ !! _); [|done]. simpl.
    etrans; [apply grows_publish|]. etrans; [apply grows_retire|apply grows_rebuilt].
  - unfold Uninstall. destruct (r_closed _); [done|]. destruct (r_entries _ !! _); [|done]. simpl.
    etrans; [apply grows_reg|]. etrans; [apply grows_retire|apply grows_rebuilt].
  - unfold Lookup. destruct (r_closed _); [done|].
    destruct (live_entry s id) as [[a g]|] eqn:Hl; [|done].
    apply live_entry_Some in Hl as (_ & Hg & _). by apply (grows_new_lease s a g None).
  - apply grows_resolve.
  - unfold ResolveToolPath. destruct (tool_plan _ _ _) as [[id o]|]; [|done]. apply grows_resolve.
  - apply grows_lease_Release.
  - apply grows_close.
  - destruct Ha as [Hev _]. split; simpl; eauto.
Qed.

Lemma reg_steps_grows s s' : rtc reg_step s s' → grows s s'.
Proof. induction 1; [done|]. etrans; [by apply reg_step_grows|done]. Qed.

(** A live lease's generation is not reclaimed. *)
Lemma live_lease_pinned s l x :
  reg_inv s → g_leases s !! l = Some x → ls_once x = false →
  ∃ g sn, g_heap s !! ls_generation x = Some g ∧ 0 < gen_refs g ∧
    rec_snapshot (gen_record g) = Some sn ∧ svc_snap_live (g_world s) sn = true.
Proof.
  intros [(E & Hi & _) _ _] Hl Ho. destruct (hi_leases _ _ Hi _ _ Hl) as [g Hg].
  pose proof (pinned _ _ _ Hl Ho). pose proof (hi_refs _ _ Hi _ _ Hg).
  assert (0 < gen_refs g) as Hpos by (destruct (bool_decide _) in *; lia).
  destruct (hi_snap _ _ Hi _ _ Hg Hpos) as (sn & ? & ?). eauto 10.
Qed.
End frames.

(** ** Lemmas: browsing *)

(** A dotted path of non-empty segments without slashes, as the ID grammar of
    [manifest.go] gives. *)
Definition plain_path (p : string) : Prop :=
  p ≠ "" ∧ Forall (λ seg, seg ≠ "" ∧ ContainsByte seg "/"%char = false) (segments p).

Definition plain_segment (seg : string) : Prop :=
  seg ≠ "" ∧ ContainsByte seg "/"%char = false ∧ ContainsByte seg "."%char = false.

Lemma plain_segments p : plain_path p → Forall plain_segment (segments p).
Proof.
  intros [_ Hp]. rewrite Forall_forall in *. intros seg Hin. destruct (Hp _ Hin).
  split; [done|]. split; [done|]. by eapply Split_no_sep.
Qed.

Lemma str_rev_app x y : str_rev (x +:+ y) = str_rev y +:+ str_rev x.
Proof.
  unfold str_rev. rewrite to_bytes_app, rev_app_distr. apply (inj to_bytes).
  by rewrite to_bytes_app, !to_of_bytes.
Qed.
Lemma str_rev_involutive x : str_rev (str_rev x) = x.
Proof. unfold str_rev. by rewrite to_of_bytes, rev_involutive, of_to_bytes. Qed.

Lemma ContainsByte_rev x c : ContainsByte (str_rev x) c = ContainsByte x c.
Proof.
  apply eq_true_iff_eq. rewrite !ContainsByte_elem. unfold str_rev. rewrite to_of_bytes.
  by rewrite <-Permutation_rev.
Qed.

Lemma trim_left_plain x y c :
  x ≠ "" → ContainsByte x c = false → trim_left (x +:+ y) c = x +:+ y.
Proof.
  destruct x as [|a x]; [done|]. intros _ [Ha _]%orb_false_iff.
  rewrite str_app_cons. cbn [trim_left]. by rewrite Ha.
Qed.

(** Trimming leaves alone a string that starts and ends with other bytes. *)
Lemma Trim_plain x y z c :
  x ≠ "" → ContainsByte x c = false → z ≠ "" → ContainsByte z c = false →
  Trim (x +:+ y +:+ z) c = x +:+ y +:+ z.
Proof.
  intros Hx Hxc Hz Hzc. unfold Trim. rewrite trim_left_plain by done.
  rewrite <-str_app_assoc, str_rev_app, trim_left_plain.
  - by rewrite <-str_rev_app, str_rev_involutive.
  - intros He. apply Hz. rewrite <-(str_rev_involutive z), He. done.
  - by rewrite ContainsByte_rev.
Qed.

Lemma Trim_segment x c : x ≠ "" → ContainsByte x c = false → Trim x c = x.
Proof.
  intros Hx Hc. unfold Trim. rewrite <-(str_app_nil_r x), trim_left_plain, str_app_nil_r by done.
  rewrite <-(str_app_nil_r (str_rev x)), trim_left_plain, str_app_nil_r.
  - apply str_rev_involutive.
  - intros He. apply Hx. rewrite <-(str_rev_involutive x), He. done.
  - by rewrite ContainsByte_rev.
Qed.

Lemma Trim_Join l : l ≠ [] → Forall plain_segment l → Trim (Join l ".") "."%char = Join l ".".
Proof.
  intros Hne Hl. destruct l as [|x l]; [done|]. apply Forall_cons in Hl as [(Hx & _ & Hxd) Hl].
  destruct (exists_last_or_nil l) as [->|(l' & z & ->)]; [by apply Trim_segment|].
  apply Forall_app in Hl as [_ Hz]. apply Forall_cons in Hz as [(Hz & _ & Hzd) _].
  destruct l' as [|w l'].
  - simpl. by apply Trim_plain.
  - rewrite Join_cons by done. rewrite Join_app by done. simpl (Join [z] _).
    rewrite <-(str_app_assoc (Join _ _)), <-(str_app_assoc "."). by apply Trim_plain.
Qed.

Lemma browse_head_path p i : plain_path p → browse_path (head_path p i) = head_path p i.
Proof.
  intros Hp. pose proof (plain_segments _ Hp) as Hs. unfold browse_path, head_path.
  destruct (take i (segments p)) as [|x l] eqn:Ht; [done|].
  assert (Forall plain_segment (x :: l)) as Hxl by (rewrite <-Ht; by apply Forall_take).
  rewrite Trim_Join by done. apply Forall_cons in Hxl as [(Hx & Hsl & _) _].
  destruct (String.eqb_spec (Join (x :: l) ".") "/") as [He|]; [|done]. exfalso.
  destruct x as [|a x]; [done|]. simpl in Hsl. apply orb_false_iff in Hsl as [Ha _].
  apply Ascii.eqb_neq in Ha. apply Ha.
  assert (∃ r, Join (String a x :: l) "." = String a r) as [r Hr] by (destruct l; eexists; reflexivity).
  rewrite Hr in He. by injection He.
Qed.

(** ** Properties *)

Section properties.
Context {W : Type} `{SnapshotOps W} `{!SnapshotLaws W}.
Implicit Types s : RState W.

(** C3. Whatever calls are made and however they interleave, the entries are
    exactly the generations that are not retired, every generation counts one
    reference for its installation and one per live lease, owns a live
    snapshot of its own until the count is zero, is reclaimed exactly when it
    is, and the hierarchy is the one rebuilt from the installed records. *)
Theorem registry_generations s : reg_reachable s → reg_inv s.
Proof. apply reg_reachable_inv. Qed.

(** C5. A generation is reclaimed at most once, and exactly when it is retired
    and every lease on it has been released. *)
Theorem reclaimed_exactly_once s :
  reg_reachable s → NoDup (g_reclaimed s) ∧
  ∀ a g, g_heap s !! a = Some g →
    gen_id g ∈ g_reclaimed s ↔
    gen_retired g = true ∧
    ∀ l x, g_leases s !! l = Some x → ls_generation x = a → ls_once x = true.
Proof.
  intros Hs%reg_reachable_inv. destruct (rv_heap _ Hs) as (E & Hi & _).
  split; [apply (hi_reclaimed_nodup _ _ Hi)|]. intros a g Hg.
  pose proof (hi_refs _ _ Hi _ _ Hg) as Hr. pose proof (hi_retired _ _ Hi _ _ Hg) as Hret.
  pose proof (pins_nonneg s a) as Hp. rewrite (hi_reclaimed _ _ Hi). split.
  - intros (b & h & Hh & Hid & Hz). assert (b = a) as -> by by eapply (hi_ids _ _ Hi). simplify_eq.
    destruct (bool_decide (a ∈ E)); [lia|]. split; [done|].
    intros l x Hl <-. destruct (ls_once x) eqn:Ho; [done|]. pose proof (pinned _ _ _ Hl Ho). lia.
  - intros [Hrt Hl]. exists a, g. split; [done|]. split; [done|].
    rewrite Hrt in Hret. destruct (bool_decide (a ∈ E)); [done|]. rewrite Hr.
    unfold pins. rewrite (map_sum_ext _ (λ _, 0)); [by rewrite map_sum_const|].
    intros l x Hx. unfold lease_pins. destruct (ls_once x) eqn:Ho; [done|].
    rewrite bool_decide_false; [done|]. intros He. by rewrite (Hl _ _ Hx He) in Ho.
Qed.

(** C4. A lease keeps its generation's record and the bytes of all its artifacts
    readable and unchanged for as long as it is not released, whether or not
    the capability is reinstalled, uninstalled or the registry closed. *)
Theorem leased_record_readable s s' l x rec ref :
  reg_reachable s → rtc reg_step s s' →
  g_leases s !! l = Some x → lease_record s l = Some rec →
  (∀ x', g_leases s' !! l = Some x' → ls_once x' = false) →
  lease_record s' l = Some rec ∧
  (∃ sn, rec_snapshot rec = Some sn ∧ svc_snap_live (g_world s') sn = true) ∧
  ReadArtifact (g_world s') rec ref = ReadArtifact (g_world s) rec ref.
Proof.
  intros Hs%reg_reachable_inv Hsteps Hl Hrec Hlive.
  pose proof (reg_steps_inv _ _ Hs Hsteps) as Hs'. destruct (reg_steps_grows _ _ Hsteps) as [Gl Gr Gw].
  destruct (Gl _ _ Hl) as (x' & Hl' & Hgen & Ho). specialize (Hlive _ Hl').
  assert (ls_once x = false) as Hx by (destruct (ls_once x); [by rewrite Ho in Hlive|done]).
  destruct (live_lease_pinned _ _ _ Hs Hl Hx) as (g & sn & Hg & _ & Hsn & Hsl).
  destruct (live_lease_pinned _ _ _ Hs' Hl' Hlive) as (g' & sn' & Hg' & _ & Hsn' & Hsl').
  unfold lease_record in *. rewrite Hl in Hrec. rewrite Hl'. simpl in *. rewrite Hg in Hrec. simplify_eq/=.
  destruct (Gr _ _ Hg) as (g2 & Hg2 & Hr2). rewrite Hgen in Hg'. rewrite Hgen, Hg2. simplify_eq. simpl.
  rewrite Hr2 in *. split; [done|]. split; [eauto|]. simplify_eq. unfold ReadArtifact. rewrite Hsn.
  destruct (rec_artifacts _ !! ref); [|done]. apply svc_Read_stable; try done.
  destruct (rv_heap _ Hs) as (E & Hi & _). apply (hi_world _ _ Hi).
Qed.

Lemma installed_placed s id a g :
  r_entries (g_reg s) !! id = Some a → g_heap s !! a = Some g →
  (id, gen_record g) ∈ installed_records s.
Proof.
  intros Ha Hg. apply list_elem_of_omap. exists (id, a). rewrite Hg. split; [|done].
  by apply elem_of_map_to_list.
Qed.

(** Every installed capability can be discovered by browsing from the root:
    each prefix of its ID lists the next one among its children, its own path
    shows it, and its parent lists it with its name, description and number of
    operations. *)
Theorem installed_discoverable s id a g :
  reg_reachable s → r_closed (g_reg s) = false → plain_path id →
  r_entries (g_reg s) !! id = Some a → g_heap s !! a = Some g →
  (∀ i, (i < length (segments id))%nat → ∃ v, Browse s (head_path id i) = Ok v ∧
     head_path id (S i) ∈ map he_Path (hv_Children v)) ∧
  (∃ v, Browse s id = Ok v ∧ hv_CapabilityID v = id) ∧
  (∃ v, Browse s (head_path id (length (segments id) - 1)) = Ok v ∧
     mkHEntry id id (md_Name (rec_metadata (gen_record g))) (md_Description (rec_metadata (gen_record g)))
       (zlen (rec_operations (gen_record g))) ∈ hv_Children v).
Proof.
  intros Hs%reg_reachable_inv Hc Hid Ha Hg. pose proof (installed_placed _ _ _ _ Ha Hg) as Hin.
  destruct (rebuildHierarchy_correct (installed_records s)) as [Hn Hcap _ _ Hch].
  rewrite <-(rv_nodes _ Hs Hc) in Hn, Hcap, Hch.
  assert (placed (installed_records s) id) as Hpl by (exists (id, gen_record g); auto).
  destruct Hid as [Hne Hsegs]. pose proof (conj Hne Hsegs : plain_path id) as Hid.
  assert (∀ i, (i < length (segments id))%nat → ∃ n, r_nodes (g_reg s) !! head_path id i = Some n ∧
    head_path id (S i) ∈ hn_children n) as Hstep.
  { intros i Hi. assert (dot_edge (head_path id i) (head_path id (S i)) id) as He
      by (split; [done|]; eauto).
    assert (is_Some (r_nodes (g_reg s) !! head_path id i)) as [n Hnode].
    { apply Hn. destruct (dot_edge_parent _ _ _ He); eauto. }
    exists n. split; [done|]. apply (Hch _ _ _ Hnode). eauto. }
  assert (is_Some (r_nodes (g_reg s) !! id)) as [n Hnode].
  { apply Hn. right. exists id. split; [done|]. by apply dot_prefix_self. }
  assert (hn_capabilityID n = id) as Hcapid.
  { rewrite (Hcap _ _ Hnode), bool_decide_true; [done|]. apply list_elem_of_fmap. by exists (id, gen_record g). }
  assert (∀ k, browse_path k = k → Browse s k = browseLocked s k) as Hb.
  { intros k Hk. unfold Browse. by rewrite Hc, Hk. }
  split; [|split].
  - intros i Hi. destruct (Hstep i Hi) as (m & Hm & Hin'). rewrite Hb by by apply browse_head_path.
    unfold browseLocked. rewrite Hm. eexists. split; [done|]. simpl.
    apply list_elem_of_fmap. exists (browse_child s (head_path id (S i))).
    split; [|by apply list_elem_of_fmap_2]. unfold browse_child. by repeat case_match.
  - rewrite Hb by (rewrite <-(head_path_full id); by apply browse_head_path).
    unfold browseLocked. rewrite Hnode. by eexists.
  - pose proof (segments_pos id). destruct (Hstep (length (segments id) - 1)%nat) as (m & Hm & Hin'); [lia|].
    replace (S (length (segments id) - 1)) with (length (segments id)) in Hin' by lia.
    rewrite head_path_full in Hin'. rewrite Hb by by apply browse_head_path.
    unfold browseLocked. rewrite Hm. eexists. split; [done|]. simpl. apply list_elem_of_fmap.
    exists id. split; [|done]. unfold browse_child. rewrite Hnode. simpl. rewrite Hcapid.
    destruct (String.eqb_spec id ""); [done|]. by rewrite Ha, Hg.
Qed.
End properties.

(** ** Concrete runs *)

Section demo.
(** A record over the snapshot [0] committed in [Snapshot.v]'s run, with one
    operation whose target differs from its name. *)
Definition demo_operation : Operation := mkOperation "echo" "Echo a message" "main" "echo_message".
Definition demo_binding : ProviderBinding := mkProviderBinding "main" "mcp" "everything".
Definition demo_artifact : Artifact :=
  mkArtifact "artifact:v1:notes" ArtifactContext "notes" "notes.md" "text/plain; charset=utf-8" 5
    (hex_encode (sha256 (to_bytes "hello"))).
Definition demo_record : CapRecord :=
  mkRecord (mkMetadata "everything.echo" "Echo" "1.0.0" "Echoes messages" []) "everything" ""
    [] [demo_operation] [demo_artifact] [demo_binding] {[ "artifact:v1:notes" := demo_artifact ]} (Some 0%nat).

Definition demo_s0 : RState Snapshot.World := (NewRegistry Snapshot.demo_w2 []).1.
Definition demo_s1 := reg_exec demo_s0 (RAdd (Some demo_record)).
Definition demo_s2 := reg_exec demo_s1 (RLookup "everything.echo").
Definition demo_s3 := reg_exec demo_s2 (RUninstall "everything.echo").
Definition demo_s4 := reg_exec demo_s3 (RRelease 0).

Lemma demo_s0_initial : reg_initial demo_s0.
Proof.
  apply empty_initial. exists Snapshot.DefaultStoreLimits. split; [done|].
  eapply Snapshot.inv_step; [done| |apply Snapshot.demo_w2_step].
  apply Snapshot.inv_reachable; [done|apply Snapshot.demo_w1_reachable].
Qed.

Lemma demo_s1_reachable : reg_reachable demo_s1.
Proof.
  exists demo_s0. split; [apply demo_s0_initial|]. apply rtc_once. exists (RAdd (Some demo_record)).
  split; [|done]. split; [by vm_compute|]. intros r sn [= <-] [= <-]. split; [by vm_compute|].
  intros (a & g & Hg & _). change (g_heap demo_s0) with (∅ : gmap nat registryGeneration) in Hg.
  by rewrite lookup_empty in Hg.
Qed.

Lemma demo_steps_s3 : rtc reg_step demo_s2 demo_s3.
Proof. apply rtc_once. by exists (RUninstall "everything.echo"). Qed.

Lemma demo_s2_reachable : reg_reachable demo_s2.
Proof.
  destruct demo_s1_reachable as (s0 & H0 & Hr). exists s0. split; [done|].
  eapply rtc_r; [done|]. by exists (RLookup "everything.echo").
Qed.

Lemma demo_s4_reachable : reg_reachable demo_s4.
Proof.
  destruct demo_s2_reachable as (s0 & H0 & Hr). exists s0. split; [done|].
  etrans; [done|]. etrans; [apply demo_steps_s3|]. apply rtc_once. by exists (RRelease 0).
Qed.
End demo.

Lemma registry_generations_witness : reg_inv demo_s4.
Proof. apply registry_generations, demo_s4_reachable. Defined.

Lemma reclaimed_exactly_once_witness :
  g_reclaimed demo_s3 = [] ∧ g_reclaimed demo_s4 = [1] ∧ NoDup (g_reclaimed demo_s4).
Proof.
  split; [by vm_compute|]. split; [by vm_compute|].
  apply (reclaimed_exactly_once demo_s4), demo_s4_reachable.
Defined.

Lemma leased_record_readable_witness :
  ReadArtifact (g_world demo_s3) demo_record "artifact:v1:notes" = Some (to_bytes "hello").
Proof.
  destruct (leased_record_readable demo_s2 demo_s3 0 (mkRegLease 0 false None) demo_record "artifact:v1:notes")
    as (_ & _ & ->).
  - apply demo_s2_reachable.
  - apply demo_steps_s3.
  - by vm_compute.
  - by vm_compute.
  - intros x' Hx. vm_compute in Hx. by injection Hx as <-.
  - by vm_compute.
Defined.

Lemma installed_discoverable_witness :
  ∃ v, Browse demo_s1 "everything" = Ok v ∧
    mkHEntry "everything.echo" "everything.echo" "Echo" "Echoes messages" 1 ∈ hv_Children v.
Proof.
  refine (proj2 (proj2 (installed_discoverable demo_s1 "everything.echo" 0 (mkGen 1 demo_record 1 false) _ _ _ _ _))).
  - apply demo_s1_reachable.
  - by vm_compute.
  - split; [done|]. repeat constructor; done.
  - by vm_compute.
  - by vm_compute.
Defined.
