(* ===== verification/Search.v ===== *)
(** * Lexical search over installed capabilities

    Models [internal/capability/search.go]: query normalisation and
    tokenisation, the exact and lexical matching rules, integer scores, and
    the ranked, path-scoped, limited result list. *)
From stdpp Require Import relations.
From Stdlib Require Import Ascii String.
From S2P Require Import Prelude GoStrings Limits Sha256 Utf8 Regex Text SnapshotService Records Registry RegistrySteps.
Local Open Scope string_scope.
Local Open Scope list_scope.
Local Open Scope Z_scope.

(** ** Data *)

Definition SearchRankingVersion : string := "lexical-v1".
Definition SearchQueryMaxBytes : Z := 4096.
Definition SearchLimitMax : Z := 100.
Definition searchExactScore : Z := 1000000.
Definition searchMinimumScore : Z := 375000.
Definition searchQueryWeight : Z := 500000.
Definition searchFieldWeight : Z := 250000.
Definition searchEvidencePerByte : Z := 25000.
Definition searchEvidenceMaximum : Z := 250000.

Definition ErrSearchQueryInvalid := Sentinel "search query is invalid".
Definition ErrSearchQueryLimit := Sentinel "search query exceeds the byte limit".
Definition ErrSearchPathInvalid := Sentinel "search path is invalid".
Definition ErrSearchPathLimit := Sentinel "search path exceeds the byte limit".
Definition ErrSearchLimitInvalid := Sentinel "search result limit is invalid".

Record SearchRequest := mkSearchRequest { sq_Query : string; sq_Path : string; sq_Limit : Z }.
Record CapabilityCounts := mkCounts { cc_Skills : Z; cc_Operations : Z; cc_References : Z }.
Record CapabilityCard := mkCard {
  cd_ID : string; cd_Name : string; cd_Version : string; cd_Description : string;
  cd_Path : string; cd_Tags : list string; cd_Counts : CapabilityCounts }.
Record SearchResult := mkSearchResult {
  rs_Card : CapabilityCard; rs_Score : Z; rs_MatchKind : string; rs_MatchedField : string;
  rs_Reason : string }.
Record SearchResponse := mkSearchResponse {
  rp_RankingVersion : string; rp_Results : list SearchResult }.

Record normalizedSearchText := mkNormalized {
  nt_exact : string;
  nt_tokens : list string;
  nt_tokenSet : gmap string unit;
  nt_tokenBytes : Z;
  nt_qualifiedIdentifier : bool;
}.

Record searchMatch := mkMatch {
  mt_tier : Z; mt_score : Z; mt_kind : string; mt_field : string; mt_reason : string }.
Record searchField := mkField { sf_name : string; sf_value : string }.
Record rankedSearchResult := mkRanked { rk_result : SearchResult; rk_tier : Z }.

(** ** Cards and paths *)

Definition capabilityInPath (capabilityID path : string) : bool :=
  String.eqb path "" || String.eqb capabilityID path || HasPrefix capabilityID (path +:+ ".").

Definition capabilityCard (r : CapRecord) : CapabilityCard :=
  let m := rec_metadata r in
  let references := foldl (λ n sk, n + zlen (sk_Resources sk)) (zlen (rec_context r)) (rec_skills r) in
  mkCard (md_ID m) (md_Name m) (md_Version m) (md_Description m) (rec_parent r) (md_Tags m)
    (mkCounts (zlen (rec_skills r)) (zlen (rec_operations r)) references).

Definition searchReason (kind : string) : string :=
  if String.eqb kind "exact_capability_id" then "exact capability ID"
  else if String.eqb kind "exact_operation_id" then "exact operation ID"
  else if String.eqb kind "exact_capability_name" then "exact capability name"
  else if String.eqb kind "exact_tag" then "exact tag"
  else if String.eqb kind "exact_local_operation_id" then "exact local operation ID"
  else if String.eqb kind "exact_skill_name" then "exact skill name"
  else if String.eqb kind "lexical_capability" then "capability metadata overlap"
  else if String.eqb kind "lexical_operation" then "operation description overlap"
  else if String.eqb kind "lexical_skill" then "skill metadata overlap"
  else "".

Definition exactSearchMatch (tier : Z) (kind field : string) : searchMatch :=
  mkMatch tier searchExactScore kind field (searchReason kind).

(** ** Scores *)

(** A [map[string]struct{}] *)
Abbreviation token_map := (gmap string unit).

Definition searchTokenBytes (tokens : token_map) : Z :=
  foldr (λ t n, slen t + n) 0 (map_to_list tokens).*1.

(** The query's tokens that the field has. *)
Definition shared_tokens (queryTokens fieldTokens : token_map) : list string :=
  filter (λ t, is_Some (fieldTokens !! t)) (map_to_list queryTokens).*1.

(** The integer arithmetic is [int]'s, on a 64-bit platform. *)
Definition lexicalSearchScore (queryTokens fieldTokens : token_map) : Z :=
  if (size queryTokens =? 0)%nat || (size fieldTokens =? 0)%nat then 0
  else
    let queryBytes := searchTokenBytes queryTokens in
    let fieldBytes := searchTokenBytes fieldTokens in
    let overlapBytes := foldr (λ t n, slen t + n) 0 (shared_tokens queryTokens fieldTokens) in
    if overlapBytes =? 0 then 0
    else
      let absoluteEvidence0 := wrap64 (overlapBytes * searchEvidencePerByte) in
      let absoluteEvidence :=
        if absoluteEvidence0 >? searchEvidenceMaximum then searchEvidenceMaximum
        else absoluteEvidence0 in
      wrap64 (wrap64 (Z.quot (wrap64 (searchQueryWeight * overlapBytes)) queryBytes
                      + Z.quot (wrap64 (searchFieldWeight * overlapBytes)) fieldBytes)
              + absoluteEvidence).

(** ** Normalisation and tokens *)

Section search.
Context `{TextOps} `{UnicodeTables}.

Definition normalizeExact (value : string) : string :=
  NFC (Fold (TrimSpace (NFC value))).

Definition preserveGitProductBoundary (runes : list Z) (index : Z) : bool :=
  if (index <? 3) || (index + 3 >? zlen runes) then false
  else
    let product := of_runes (take 6 (drop (Z.to_nat (index - 3)) runes)) in
    String.eqb product "GitHub" || String.eqb product "GitLab".

(** The variables of [tokenizeSearchText]; [tk_start] is -1 outside a token. *)
Record tokenizer := mkTokenizer {
  tk_tokens : list string; tk_set : token_map; tk_bytes : Z; tk_count : Z; tk_start : Z }.

(** [runes[start:end]] *)
Definition rune_slice (runes : list Z) (start end_ : Z) : list Z :=
  take (Z.to_nat (end_ - start)) (drop (Z.to_nat start) runes).

Definition flush (runes : list Z) (end_ : Z) (t : tokenizer) : tokenizer :=
  if (tk_start t <? 0) || (tk_start t =? end_) then t
  else
    let token := normalizeExact (of_runes (rune_slice runes (tk_start t) end_)) in
    if String.eqb token "" then mkTokenizer (tk_tokens t) (tk_set t) (tk_bytes t) (tk_count t) (-1)
    else mkTokenizer (tk_tokens t ++ [token]) (<[token := tt]> (tk_set t)) (tk_bytes t + slen token)
           (tk_count t + 1) (-1).

Definition set_start (t : tokenizer) (i : Z) : tokenizer :=
  mkTokenizer (tk_tokens t) (tk_set t) (tk_bytes t) (tk_count t) i.

(** [runes[i]], for an index in range. *)
Definition rune_at (runes : list Z) (i : Z) : Z := nth (Z.to_nat i) runes 0.

Definition camelBoundary (runes : list Z) (index : Z) : bool :=
  let current := rune_at runes index in
  let previous := rune_at runes (index - 1) in
  let nextIsLower := (index + 1 <? zlen runes) && IsLower (rune_at runes (index + 1)) in
  IsUpper current && (IsLower previous || (IsUpper previous && nextIsLower)).

(** The body of the loop of [tokenizeSearchText]. *)
Definition tokenize_step (runes : list Z) (t : tokenizer) (index : Z) : tokenizer :=
  let current := rune_at runes index in
  if negb (IsLetter current) && negb (IsNumber current) then flush runes index t
  else if tk_start t <? 0 then set_start t index
  else if camelBoundary runes index && negb (preserveGitProductBoundary runes index)
       then set_start (flush runes index t) index
       else t.

Definition indices (runes : list Z) : list Z := map Z.of_nat (seq 0 (length runes)).

Definition tokenizeSearchText (value : string) : list string * token_map * Z :=
  let runes := runes value in
  let t := flush runes (zlen runes)
             (foldl (tokenize_step runes) (mkTokenizer [] ∅ 0 0 (-1)) (indices runes)) in
  (tk_tokens t, tk_set t, if tk_count t >? 1 then tk_bytes t + (tk_count t - 1) else tk_bytes t).

Definition normalizeSearchText (value : string) : normalizedSearchText :=
  let value := TrimSpace (NFC value) in
  let '(tokens, tokenSet, tokenBytes) := tokenizeSearchText value in
  mkNormalized (normalizeExact value) tokens tokenSet tokenBytes false.

Definition normalizeSearchQuery (value : string) : result error normalizedSearchText :=
  fail_if negb (ValidString value) with ErrSearchQueryInvalid else
  let n := normalizeSearchText value in
  fail_if (slen (nt_exact n) >? SearchQueryMaxBytes) || (nt_tokenBytes n >? SearchQueryMaxBytes)
    with ErrSearchQueryLimit else
  Ok n.

(** ** Matching *)

(** One iteration of the loop of [bestLexicalMatch]. *)
Definition best_step (query : normalizedSearchText) (best : Z * string) (f : searchField) : Z * string :=
  let normalized := normalizeSearchText (sf_value f) in
  let score := lexicalSearchScore (nt_tokenSet query) (nt_tokenSet normalized) in
  if score >? best.1 then (score, sf_name f) else best.

Definition bestLexicalMatch (query : normalizedSearchText) (tier : Z) (kind : string)
    (fields : list searchField) : option searchMatch :=
  let best := foldl (best_step query) (0, "") fields in
  if best.1 <? searchMinimumScore then None
  else Some (mkMatch tier best.1 kind best.2 (searchReason kind)).

Definition capability_fields (r : CapRecord) : list searchField :=
  [mkField "capability_name" (md_Name (rec_metadata r));
   mkField "capability_description" (md_Description (rec_metadata r))].
Definition operation_fields (r : CapRecord) : list searchField :=
  map (λ o, mkField "operation_description" (op_Description o)) (rec_operations r).
Definition skill_fields (r : CapRecord) : list searchField :=
  flat_map (λ sk, [mkField "skill_name" (sm_Name (sk_Metadata sk));
                   mkField "skill_description" (sm_Description (sk_Metadata sk))]) (rec_skills r).

(** Some exact match of the query on an element of a record. *)
Definition exact_on {A} (query : normalizedSearchText) (f : A → string) (l : list A) : bool :=
  existsb (λ x, String.eqb (normalizeExact (f x)) (nt_exact query)) l.

Definition qualified_operation (r : CapRecord) (o : Operation) : string :=
  md_ID (rec_metadata r) +:+ "/" +:+ op_ID o.

Definition matchCapability (query : normalizedSearchText) (r : CapRecord) : option searchMatch :=
  let m := rec_metadata r in
  if String.eqb (normalizeExact (md_ID m)) (nt_exact query) then
    Some (exactSearchMatch 1 "exact_capability_id" "capability_id")
  else if exact_on query (qualified_operation r) (rec_operations r) then
    Some (exactSearchMatch 1 "exact_operation_id" "operation_id")
  else if nt_qualifiedIdentifier query then None
  else if String.eqb (normalizeExact (md_Name m)) (nt_exact query) then
    Some (exactSearchMatch 2 "exact_capability_name" "capability_name")
  else if exact_on query id (md_Tags m) then Some (exactSearchMatch 3 "exact_tag" "tag")
  else if exact_on query op_ID (rec_operations r) then
    Some (exactSearchMatch 3 "exact_local_operation_id" "local_operation_id")
  else if exact_on query (λ sk, sm_Name (sk_Metadata sk)) (rec_skills r) then
    Some (exactSearchMatch 3 "exact_skill_name" "skill_name")
  else
    match bestLexicalMatch query 4 "lexical_capability" (capability_fields r) with
    | Some m => Some m
    | None =>
        match bestLexicalMatch query 5 "lexical_operation" (operation_fields r) with
        | Some m => Some m
        | None => bestLexicalMatch query 5 "lexical_skill" (skill_fields r)
        end
    end.

(** ** Searching *)

(** The comparison of [sort.Slice], as "not after". *)
Definition rank_le (a b : rankedSearchResult) : Prop :=
  rk_tier a < rk_tier b ∨
  (rk_tier a = rk_tier b ∧
   (rs_Score (rk_result b) < rs_Score (rk_result a) ∨
    (rs_Score (rk_result a) = rs_Score (rk_result b) ∧
     str_le (cd_ID (rs_Card (rk_result a))) (cd_ID (rs_Card (rk_result b)))))).

#[global] Instance rank_le_dec : RelDecision rank_le.
Proof. intros a b. unfold rank_le, str_le. apply _. Defined.

Context {W : Type} `{SnapshotOps W}.
Implicit Types s : RState W.

Definition hasExactSearchIdentifierLocked (order : list (string * nat)) s (query : string) : bool :=
  existsb (λ '(id, a),
    match g_heap s !! a with
    | None => false
    | Some g =>
        negb (gen_retired g) &&
        (String.eqb (normalizeExact id) query ||
         existsb (λ o, String.eqb (normalizeExact (id +:+ "/" +:+ op_ID o)) query)
           (rec_operations (gen_record g)))
    end) order.

(** The body of the loop over the entries. *)
Definition search_hit s (query : normalizedSearchText) (path : string) (e : string * nat) :
    option rankedSearchResult :=
  match g_heap s !! e.2 with
  | None => None
  | Some g =>
      if gen_retired g || negb (capabilityInPath e.1 path) then None
      else
        m ← matchCapability query (gen_record g);
        Some (mkRanked (mkSearchResult (capabilityCard (gen_record g)) (mt_score m) (mt_kind m)
                          (mt_field m) (mt_reason m)) (mt_tier m))
  end.

Definition with_qualified (n : normalizedSearchText) (b : bool) : normalizedSearchText :=
  mkNormalized (nt_exact n) (nt_tokens n) (nt_tokenSet n) (nt_tokenBytes n) b.

Definition no_results : SearchResponse := mkSearchResponse SearchRankingVersion [].

(** The checks that precede the lock, with the normalised query and path. *)
Definition check_request (request : SearchRequest) : result error (normalizedSearchText * string) :=
  fail_if (sq_Limit request <=? 0) || (sq_Limit request >? SearchLimitMax)
    with Wrapf "%w: must be between 1 and %d" [FInt SearchLimitMax] ErrSearchLimitInvalid else
  let! query := normalizeSearchQuery (sq_Query request) in
  let path := if String.eqb (sq_Path request) "/" then "" else sq_Path request in
  fail_if negb (ValidString path) with ErrSearchPathInvalid else
  fail_if slen path >? MaxHierarchyPathBytes with ErrSearchPathLimit else
  fail_if negb (String.eqb path "") && negb (MatchString capabilityIDPattern path)
    with ErrSearchPathInvalid else
  Ok (query, path).

(** The ranked, limited results for a normalised query. *)
Definition ranked_results (order : list (string * nat)) s (query : normalizedSearchText)
    (path : string) (limit : Z) : list rankedSearchResult :=
  let query := with_qualified query (hasExactSearchIdentifierLocked order s (nt_exact query)) in
  take (Z.to_nat limit) (merge_sort rank_le (omap (search_hit s query path) order)).

(** [searchAndBrowse]: the response and the view, the revision, and the
    error; [order] is the order in which [range] visits the entries. *)
Definition searchAndBrowse (order : list (string * nat)) s (request : SearchRequest)
    (expectedRevision : option Z) : SearchResponse * HierarchyView * Z * option error :=
  let no_view := mkHView "" "" [] in
  match check_request request with
  | Err e => (no_results, no_view, 0, Some e)
  | Ok (query, path) =>
      if r_closed (g_reg s) then (no_results, no_view, 0, Some ErrRegistryClosed)
      else
        let revision := r_revision (g_reg s) in
        let stale := match expectedRevision with Some r => negb (r =? revision) | None => false end in
        if stale then (no_results, no_view, revision, Some ErrCatalogCursorStale)
        else match browseLocked s path with
             | Err e => (no_results, no_view, 0, Some e)
             | Ok view =>
                 if String.eqb (nt_exact query) "" || (length (nt_tokens query) =? 0)%nat
                 then (no_results, view, revision, None)
                 else (mkSearchResponse SearchRankingVersion
                         (map rk_result (ranked_results order s query path (sq_Limit request))),
                       view, revision, None)
             end
  end.

Definition Search (order : list (string * nat)) s (request : SearchRequest) :
    result error SearchResponse :=
  match searchAndBrowse order s request None with
  | (response, _, _, None) => Ok response
  | (_, _, _, Some e) => Err e
  end.
End search.

(** ** Lemmas: token bytes and scores *)

Lemma foldr_slen_nonneg l : 0 ≤ foldr (λ t n, slen t + n) 0 l.
Proof. induction l as [|t l IH]; simpl; [lia|]. pose proof (slen_nonneg t). lia. Qed.

Lemma foldr_slen_app l1 l2 :
  foldr (λ t n, slen t + n) 0 (l1 ++ l2) = foldr (λ t n, slen t + n) 0 l1 + foldr (λ t n, slen t + n) 0 l2.
Proof. induction l1 as [|t l IH]; simpl; lia. Qed.

Global Instance foldr_slen_perm : Proper ((≡ₚ) ==> eq) (foldr (λ t n, slen t + n) 0).
Proof. induction 1; simpl; lia. Qed.

Lemma searchTokenBytes_nonneg X : 0 ≤ searchTokenBytes X.
Proof. apply foldr_slen_nonneg. Qed.

(** Distinct tokens all found in a list have at most its bytes. *)
Lemma tokens_subset_le l k :
  NoDup l → l ⊆ k → foldr (λ t n, slen t + n) 0 l ≤ foldr (λ t n, slen t + n) 0 k.
Proof.
  intros Hnd Hs. assert (l ⊆+ k) as Hsub by by apply NoDup_submseteq.
  apply submseteq_Permutation in Hsub as [r ->]. rewrite foldr_slen_app.
  pose proof (foldr_slen_nonneg r). lia.
Qed.

Lemma token_keys_NoDup (X : token_map) : NoDup (map_to_list X).*1.
Proof. apply NoDup_fst_map_to_list. Qed.

Lemma token_keys_elem (X : token_map) t : t ∈ (map_to_list X).*1 ↔ is_Some (X !! t).
Proof.
  rewrite list_elem_of_fmap. split.
  - intros ([t' u] & -> & Hin). apply elem_of_map_to_list in Hin. by eexists.
  - intros [u Hu]. exists (t, u). split; [done|]. by apply elem_of_map_to_list.
Qed.

(** The set of a list of tokens. *)
Definition token_set (l : list string) : token_map := list_to_map (map (λ t, (t, tt)) l).

Lemma token_set_lookup l t : token_set l !! t = if bool_decide (t ∈ l) then Some tt else None.
Proof.
  unfold token_set. induction l as [|x l IH]; simpl.
  - apply lookup_empty.
  - destruct (decide (x = t)) as [<-|Hne].
    + rewrite lookup_insert_eq, bool_decide_true; [done|by left].
    + rewrite lookup_insert_ne, IH by done.
      rewrite (bool_decide_ext (t ∈ x :: l) (t ∈ l)); [done|]. rewrite elem_of_cons. naive_solver.
Qed.

Lemma token_set_snoc l t : token_set (l ++ [t]) = <[t := tt]> (token_set l).
Proof.
  apply map_eq. intros x. rewrite token_set_lookup. destruct (decide (t = x)) as [<-|Hne].
  - rewrite lookup_insert_eq, bool_decide_true; [done|]. apply elem_of_app. right. by left.
  - rewrite lookup_insert_ne, token_set_lookup by done.
    rewrite (bool_decide_ext (x ∈ l ++ [t]) (x ∈ l)); [done|].
    rewrite elem_of_app, list_elem_of_singleton. naive_solver.
Qed.

Lemma searchTokenBytes_list l :
  searchTokenBytes (token_set l) ≤ foldr (λ t n, slen t + n) 0 l.
Proof.
  apply tokens_subset_le; [apply token_keys_NoDup|]. intros t. rewrite token_keys_elem, token_set_lookup.
  case_bool_decide; [done|]. by intros [? ?].
Qed.

(** The score without machine arithmetic. *)
Definition ideal_score (overlap query field : Z) : Z :=
  searchQueryWeight * overlap / query + searchFieldWeight * overlap / field
  + Z.min (overlap * searchEvidencePerByte) searchEvidenceMaximum.

Lemma ideal_score_bounds o q f :
  0 < o ≤ q → o ≤ f → 0 ≤ ideal_score o q f ≤ searchExactScore.
Proof.
  unfold ideal_score, searchQueryWeight, searchFieldWeight, searchEvidencePerByte, searchEvidenceMaximum,
    searchExactScore. intros Hq Hf.
  assert (0 ≤ 500000 * o / q ≤ 500000).
  { split; [apply Z.div_pos; lia|]. apply Z.div_le_upper_bound; nia. }
  assert (0 ≤ 250000 * o / f ≤ 250000).
  { split; [apply Z.div_pos; lia|]. apply Z.div_le_upper_bound; nia. }
  lia.
Qed.

(** Two token sets that share no bytes score nothing; otherwise the machine
    arithmetic of an accepted query does not overflow. *)
Definition overlap (q f : token_map) : Z := foldr (λ t n, slen t + n) 0 (shared_tokens q f).

Lemma overlap_bounds q f :
  0 ≤ overlap q f ≤ searchTokenBytes q ∧ overlap q f ≤ searchTokenBytes f.
Proof.
  assert (NoDup (shared_tokens q f)) as Hnd by (apply NoDup_filter, token_keys_NoDup).
  split; [split; [apply foldr_slen_nonneg|]|]; (apply tokens_subset_le; [done|]);
    intros t [? ?]%list_elem_of_filter; [done|by apply token_keys_elem].
Qed.

Lemma lexicalSearchScore_ideal q f :
  searchTokenBytes q ≤ SearchQueryMaxBytes →
  lexicalSearchScore q f =
    if overlap q f =? 0 then 0
    else ideal_score (overlap q f) (searchTokenBytes q) (searchTokenBytes f).
Proof.
  intros Hq. unfold lexicalSearchScore. fold (overlap q f).
  destruct (overlap_bounds q f) as [Ho Hf]. set (o := overlap q f) in *.
  assert (∀ X : token_map, size X = 0%nat → o ≤ searchTokenBytes X → o = 0) as Hz.
  { intros X HX Hle. apply map_size_empty_inv in HX. subst X. unfold searchTokenBytes in Hle.
    rewrite map_to_list_empty in Hle. simpl in Hle. lia. }
  destruct (_ || _) eqn:He.
  { assert (o = 0) as ->; [|done].
    apply orb_true_iff in He as [He|He]; apply Nat.eqb_eq in He; apply (Hz _ He); lia. }
  destruct (o =? 0) eqn:Ho0; [done|]. bool_hyps.
  pose proof (ideal_score_bounds o (searchTokenBytes q) (searchTokenBytes f)) as Hb.
  unfold ideal_score, SearchQueryMaxBytes, searchQueryWeight, searchFieldWeight, searchEvidencePerByte,
    searchEvidenceMaximum, searchExactScore in *.
  assert (∀ z, 0 ≤ z ≤ 4000000000 → wrap64 z = z) as Hw.
  { intros z Hz'. apply wrap64_id. unfold int64_ok, MinInt64, MaxInt64. lia. }
  rewrite (Hw (o * 25000)), (Hw (500000 * o)), (Hw (250000 * o)) by lia.
  rewrite !Z.quot_div_nonneg by lia.
  assert (0 ≤ 500000 * o / searchTokenBytes q ≤ 500000)
    by (split; [apply Z.div_pos|apply Z.div_le_upper_bound]; nia).
  assert (0 ≤ 250000 * o / searchTokenBytes f ≤ 250000)
    by (split; [apply Z.div_pos|apply Z.div_le_upper_bound]; nia).
  rewrite (Hw (500000 * o / searchTokenBytes q + 250000 * o / searchTokenBytes f)) by lia.
  assert ((if o * 25000 >? 250000 then 250000 else o * 25000) = Z.min (o * 25000) 250000) as ->
    by (destruct (_ >? _) eqn:E; bool_hyps; lia).
  apply Hw. lia.
Qed.

Lemma lexicalSearchScore_bounds q f :
  searchTokenBytes q ≤ SearchQueryMaxBytes → 0 ≤ lexicalSearchScore q f ≤ searchExactScore.
Proof.
  intros Hq. rewrite lexicalSearchScore_ideal by done. destruct (_ =? 0) eqn:E; bool_hyps.
  { unfold searchExactScore. lia. }
  destruct (overlap_bounds q f). apply ideal_score_bounds; lia.
Qed.

(** ** The words of a text *)

Section words.
Context `{TextOps} `{UnicodeTables}.

Definition word_rune (r : Z) : bool := IsLetter r || IsNumber r.
Definition cut (rs : list Z) (i : Z) : bool :=
  camelBoundary rs i && negb (preserveGitProductBoundary rs i).

(** [ws] are the maximal runs of letters and numbers among the first [n]
    runes, further cut at the camel-case boundaries and nowhere else: the
    ranges are ordered and disjoint, contain every letter and number and
    nothing else, and two of them touch only at a boundary. *)
Record words (rs : list Z) (n : Z) (ws : list (Z * Z)) : Prop := {
  wd_range w : w ∈ ws → 0 ≤ w.1 < w.2 ∧ w.2 ≤ n;
  wd_order i x y : ws !! i = Some x → ws !! S i = Some y →
    x.2 ≤ y.1 ∧ (x.2 = y.1 → cut rs y.1 = true);
  wd_cover i : 0 ≤ i < n → word_rune (rune_at rs i) = true ↔ ∃ w, w ∈ ws ∧ w.1 ≤ i < w.2;
  wd_uncut w i : w ∈ ws → w.1 < i < w.2 → cut rs i = false;
}.

Lemma words_nil rs : words rs 0 [].
Proof.
  split.
  - by intros w ?%elem_of_nil.
  - done.
  - intros i Hi. lia.
  - by intros w i ?%elem_of_nil.
Qed.

Lemma words_skip rs n ws :
  0 ≤ n → word_rune (rune_at rs n) = false → words rs n ws → words rs (n + 1) ws.
Proof.
  intros Hn Hw [Hr Ho Hc Hu]. split; [|done| |done].
  - intros w Hin. specialize (Hr w Hin). lia.
  - intros i Hi. destruct (decide (i = n)) as [->|Hne]; [|apply Hc; lia].
    rewrite Hw. split; [done|]. intros (w & Hin & ?). specialize (Hr w Hin). lia.
Qed.

Lemma words_start rs n ws :
  0 ≤ n → word_rune (rune_at rs n) = true →
  (∀ w, last ws = Some w → w.2 = n → cut rs n = true) →
  words rs n ws → words rs (n + 1) (ws ++ [(n, n + 1)]).
Proof.
  intros Hn Hw Hl [Hr Ho Hc Hu]. split.
  - intros w [Hin| ->%list_elem_of_singleton]%elem_of_app; [|simpl; lia]. specialize (Hr w Hin). lia.
  - intros i x y Hx [[_ Hy]|[Hi <-]]%lookup_snoc_Some.
    + apply lookup_snoc_Some in Hx as [[_ Hx]|[Hi _]]; [by eapply Ho|].
      apply lookup_lt_Some in Hy. lia.
    + apply lookup_snoc_Some in Hx as [[Hlt Hx]|[Hi' _]]; [|lia]. simpl.
      assert (x ∈ ws) as Hin by by eapply list_elem_of_lookup_2. specialize (Hr x Hin).
      split; [lia|]. apply Hl. rewrite last_lookup, <-Hi. done.
  - intros i Hi. setoid_rewrite elem_of_app. setoid_rewrite list_elem_of_singleton.
    destruct (decide (i = n)) as [->|Hne].
    + rewrite Hw. split; [|done]. intros _. exists (n, n + 1). simpl. split; [by right|lia].
    + rewrite Hc by lia. split; intros (w & Hin & ?); [eauto|].
      destruct Hin as [Hin| ->]; [eauto|]. simpl in *. lia.
  - intros w i [Hin| ->%list_elem_of_singleton]%elem_of_app; [by apply Hu|]. simpl. lia.
Qed.

Lemma words_extend rs n ws a :
  word_rune (rune_at rs n) = true → cut rs n = false → a < n →
  words rs n (ws ++ [(a, n)]) → words rs (n + 1) (ws ++ [(a, n + 1)]).
Proof.
  intros Hw Hcut Ha [Hr Ho Hc Hu].
  assert (∀ w, w ∈ ws → w ∈ ws ++ [(a, n)]) as Hin1 by (intros; apply elem_of_app; by left).
  assert ((a, n) ∈ ws ++ [(a, n)]) as Hin2 by (apply elem_of_app; right; by left).
  pose proof (Hr _ Hin2) as Hra. simpl in Hra. split.
  - intros w [Hin| ->%list_elem_of_singleton]%elem_of_app; [|simpl; lia].
    specialize (Hr w (Hin1 w Hin)). lia.
  - intros i x y Hx [[_ Hy]|[Hi <-]]%lookup_snoc_Some.
    + pose proof (lookup_lt_Some _ _ _ Hy).
      apply lookup_snoc_Some in Hx as [[? Hx]|[Hi _]]; [|lia].
      apply (Ho i); apply lookup_snoc_Some; left; (split; [lia|done]).
    + apply lookup_snoc_Some in Hx as [[Hlt Hx]|[Hi' _]]; [|lia]. simpl.
      apply (Ho i x (a, n)); apply lookup_snoc_Some; [by left|by right].
  - intros i Hi. setoid_rewrite elem_of_app. setoid_rewrite list_elem_of_singleton.
    destruct (decide (i = n)) as [->|Hne].
    + rewrite Hw. split; [|done]. intros _. exists (a, n + 1). simpl. split; [by right|lia].
    + rewrite Hc by lia. split.
      * intros (w & [Hin| ->%list_elem_of_singleton]%elem_of_app & Hi'); [eauto|].
        exists (a, n + 1). simpl in *. split; [by right|lia].
      * intros (w & [Hin| ->] & Hi'); [eauto|]. exists (a, n). simpl in *. split; [done|lia].
  - intros w i [Hin| ->%list_elem_of_singleton]%elem_of_app; [by apply Hu, Hin1|]. simpl. intros Hi.
    destruct (decide (i = n)) as [->|]; [done|]. apply (Hu (a, n)); [done|simpl; lia].
Qed.

Definition token_of (rs : list Z) (w : Z * Z) : string :=
  normalizeExact (of_runes (rune_slice rs w.1 w.2)).
Definition tokens_of (rs : list Z) (ws : list (Z * Z)) : list string :=
  filter (λ t, t ≠ "") (map (token_of rs) ws).

(** The tokenizer has emitted the tokens of the words [ws]. *)
Record emitted (rs : list Z) (ws : list (Z * Z)) (t : tokenizer) : Prop := {
  em_tokens : tk_tokens t = tokens_of rs ws;
  em_set : tk_set t = token_set (tk_tokens t);
  em_bytes : tk_bytes t = foldr (λ t n, slen t + n) 0 (tk_tokens t);
  em_count : tk_count t = zlen (tk_tokens t);
}.

Lemma flush_emitted rs ws t n :
  emitted rs ws t → 0 ≤ tk_start t < n →
  emitted rs (ws ++ [(tk_start t, n)]) (flush rs n t) ∧ tk_start (flush rs n t) = -1.
Proof.
  intros [Ht Hs Hb Hc] Hst. unfold flush.
  rewrite (proj2 (Z.ltb_ge _ _)), (proj2 (Z.eqb_neq _ _)) by lia. simpl.
  assert (tokens_of rs (ws ++ [(tk_start t, n)]) = tk_tokens t ++ filter (λ t, t ≠ "")
    [token_of rs (tk_start t, n)]) as Htok.
  { rewrite Ht. unfold tokens_of. by rewrite map_app, filter_app. }
  fold (token_of rs (tk_start t, n)). change (normalizeExact _) with (token_of rs (tk_start t, n)).
  rewrite filter_cons in Htok.
  destruct (String.eqb_spec (token_of rs (tk_start t, n)) "") as [He|He]; (split; [|done]); split; simpl;
    rewrite ?Htok; destruct (decide _) as [Hd|Hd]; simpl; try (by destruct Hd); try (by destruct (Hd He));
    rewrite ?app_nil_r; try done.
  - by rewrite token_set_snoc, <-Hs.
  - rewrite foldr_slen_app, <-Hb. simpl. lia.
  - rewrite zlen_app, <-Hc. done.
Qed.

(** The loop invariant of [tokenizeSearchText] before index [n]. *)
Definition tokenizing (rs : list Z) (n : Z) (t : tokenizer) : Prop :=
  ∃ ws, emitted rs ws t ∧
    ((tk_start t = -1 ∧ words rs n ws ∧ ∀ w, w ∈ ws → w.2 < n) ∨
     (0 ≤ tk_start t < n ∧ words rs n (ws ++ [(tk_start t, n)]))).

Lemma emitted_start rs ws t i : emitted rs ws t → emitted rs ws (set_start t i).
Proof. by intros []. Qed.

Lemma tokenize_step_inv rs n t :
  0 ≤ n → tokenizing rs n t → tokenizing rs (n + 1) (tokenize_step rs t n).
Proof.
  intros Hn (ws & Hem & Hcase). unfold tokenize_step. cbv zeta.
  rewrite <-negb_orb. fold (word_rune (rune_at rs n)).
  destruct (word_rune (rune_at rs n)) eqn:Hw; simpl.
  - destruct Hcase as [(Hst & Hws & Hlast)|(Hst & Hws)].
    + rewrite Hst. simpl. exists ws. split; [by apply emitted_start|]. right. simpl. split; [lia|].
      apply words_start; try done. intros w Hl Heq.
      assert (w ∈ ws) as Hin by by apply last_Some_elem_of. specialize (Hlast w Hin). lia.
    + rewrite (proj2 (Z.ltb_ge _ _)) by lia. fold (cut rs n). destruct (cut rs n) eqn:Hcut.
      * destruct (flush_emitted _ _ _ n Hem Hst) as [Hem' _].
        exists (ws ++ [(tk_start t, n)]). split; [by apply emitted_start|]. right. simpl. split; [lia|].
        by apply words_start.
      * exists ws. split; [done|]. right. split; [lia|]. apply words_extend; [done|done|lia|done].
  - destruct Hcase as [(Hst & Hws & Hlast)|(Hst & Hws)].
    + unfold flush. rewrite Hst. simpl. exists ws. split; [done|]. left. split; [done|].
      split; [by apply words_skip|]. intros w Hin. specialize (Hlast w Hin). lia.
    + destruct (flush_emitted _ _ _ n Hem Hst) as [Hem' Hst'].
      eexists. split; [done|]. left. split; [done|]. split; [by apply words_skip|].
      intros w Hin. pose proof (wd_range _ _ _ Hws w Hin). lia.
Qed.

Lemma tokenize_loop rs n :
  (n ≤ length rs)%nat →
  tokenizing rs (Z.of_nat n) (foldl (tokenize_step rs) (mkTokenizer [] ∅ 0 0 (-1)) (map Z.of_nat (seq 0 n))).
Proof.
  induction n as [|n IH]; intros Hn.
  - exists []. split; [by split|]. left. split; [done|]. split; [apply words_nil|]. by intros w ?%elem_of_nil.
  - rewrite seq_S, map_app, foldl_app. simpl. rewrite Nat2Z.inj_succ, <-Z.add_1_r.
    apply tokenize_step_inv; [lia|]. apply IH. lia.
Qed.

(** Tokenising cuts a text into its words, each normalised, nothing left out,
    and counts the bytes of the tokens with one separator between each two. *)
Theorem tokenize_words value :
  ∃ ws, words (runes value) (RuneCount value) ws ∧
    let tokens := tokens_of (runes value) ws in
    tokenizeSearchText value =
      (tokens, token_set tokens, slen (Join tokens " ")).
Proof.
  pose proof (tokenize_loop (runes value) (length (runes value)) (le_n _)) as (ws & Hem & Hcase).
  unfold tokenizeSearchText. cbv zeta. fold (indices (runes value)) in *.
  set (t := foldl _ _ _) in *. fold (zlen (runes value)) in Hcase.
  assert (∃ ws', words (runes value) (RuneCount value) ws' ∧
    emitted (runes value) ws' (flush (runes value) (zlen (runes value)) t)) as (ws' & Hws & [Ht Hs Hb Hc]).
  { destruct Hcase as [(Hst & Hws & _)|(Hst & Hws)].
    - exists ws. split; [done|]. unfold flush. by rewrite Hst.
    - eexists. split; [done|]. by apply flush_emitted. }
  exists ws'. split; [done|]. rewrite Ht, Hs, Ht, Hc, Hb, Ht. f_equal.
  generalize (tokens_of (runes value) ws'). intros l. clear.
  assert (slen (Join l " ") = foldr (λ t n, slen t + n) 0 l + Z.max 0 (zlen l - 1)) as ->.
  { induction l as [|x l IH]; [done|]. destruct l as [|y l].
    - simpl. unfold zlen. simpl. lia.
    - rewrite Join_cons by done. rewrite !slen_app, IH. unfold zlen, slen. simpl. lia. }
  destruct (zlen l >? 1) eqn:E; bool_hyps; [lia|]. pose proof (zlen_nonneg l). lia.
Qed.
End words.

(** ** Lemmas: ranking *)

Global Instance rank_le_total : Total rank_le.
Proof.
  intros a b. unfold rank_le.
  destruct (Z.lt_trichotomy (rk_tier a) (rk_tier b)) as [?|[Ht|?]]; [auto| |auto].
  destruct (Z.lt_trichotomy (rs_Score (rk_result a)) (rs_Score (rk_result b))) as [?|[Hs|?]]; [auto| |auto].
  destruct (total str_le (cd_ID (rs_Card (rk_result a))) (cd_ID (rs_Card (rk_result b)))); auto 10.
Qed.

Global Instance rank_le_trans : Transitive rank_le.
Proof.
  intros a b c. unfold rank_le. intros [?|[? [?|[? ?]]]] [?|[? [?|[? ?]]]]; try (left; lia);
    try (right; split; [lia|left; lia]).
  right. split; [lia|]. right. split; [lia|]. by etrans.
Qed.

Lemma rank_le_antisym a b :
  rank_le a b → rank_le b a → cd_ID (rs_Card (rk_result a)) = cd_ID (rs_Card (rk_result b)).
Proof.
  unfold rank_le. intros [?|[? [?|[? ?]]]] [?|[? [?|[? ?]]]]; try lia. by apply (anti_symm String.le).
Qed.

(** Ranked lists with distinct cards are determined by their elements. *)
Lemma ranked_unique l1 l2 :
  l1 ≡ₚ l2 → NoDup (map (λ r, cd_ID (rs_Card (rk_result r))) l1) →
  StronglySorted rank_le l1 → StronglySorted rank_le l2 → l1 = l2.
Proof.
  intros Hp Hnd H1 H2. revert l2 Hp H2. induction H1 as [|x l1 H1 IH Hx]; intros l2 Hp H2.
  { by apply Permutation_nil_l in Hp. }
  destruct H2 as [|y l2 H2 Hy]; [by apply Permutation_nil_r in Hp|].
  apply NoDup_cons in Hnd as [Hn Hnd].
  assert (x = y) as <-.
  { assert (x ∈ y :: l2) as Hin by (rewrite <-Hp; by left).
    assert (y ∈ x :: l1) as Hin' by (rewrite Hp; by left).
    apply elem_of_cons in Hin as [->|Hin]; [done|].
    apply elem_of_cons in Hin' as [<-|Hin']; [done|].
    rewrite Forall_forall in Hx, Hy.
    pose proof (rank_le_antisym _ _ (Hx _ Hin') (Hy _ Hin)) as Heq.
    destruct Hn. rewrite Heq. by apply (list_elem_of_fmap_2 (λ r, cd_ID (rs_Card (rk_result r)))). }
  f_equal. apply IH; [done| |done]. by apply Permutation_cons_inv in Hp.
Qed.

Lemma StronglySorted_take {A} (R : A → A → Prop) n l : StronglySorted R l → StronglySorted R (take n l).
Proof.
  intros H. revert n. induction H as [|x l H IH Hx]; intros n; [by rewrite take_nil; constructor|].
  destruct n; simpl; constructor; [done|]. by apply Forall_take.
Qed.

Lemma StronglySorted_take_drop {A} (R : A → A → Prop) n l x y :
  StronglySorted R l → x ∈ take n l → y ∈ drop n l → R x y.
Proof.
  intros H. revert n. induction H as [|z l H IH Hz]; intros n Hx Hy; [by rewrite take_nil, elem_of_nil in Hx|].
  destruct n; simpl in *; [by apply elem_of_nil in Hx|].
  apply elem_of_cons in Hx as [->|Hx]; [|by eapply IH]. rewrite Forall_forall in Hz. apply Hz.
  by eapply subseteq_drop.
Qed.

Section ranking.
Context `{TextOps} `{UnicodeTables} {W : Type} `{SnapshotOps W}.
Implicit Types s : RState W.

(** Every hit with the query's identifier flag as [searchAndBrowse] sets it. *)
Definition all_hits (order : list (string * nat)) s (query : normalizedSearchText) (path : string) :
    list rankedSearchResult :=
  omap (search_hit s (with_qualified query (hasExactSearchIdentifierLocked order s (nt_exact query))) path) order.

Lemma ranked_results_spec order s query path limit :
  0 ≤ limit →
  let ranked := ranked_results order s query path limit in
  let hits := all_hits order s query path in
  StronglySorted rank_le ranked ∧ zlen ranked = Z.min limit (zlen hits) ∧
  ∃ rest, ranked ++ rest ≡ₚ hits ∧ ∀ x y, x ∈ ranked → y ∈ rest → rank_le x y.
Proof.
  intros Hl. cbv zeta. unfold ranked_results. fold (all_hits order s query path).
  set (hits := all_hits order s query path).
  pose proof (StronglySorted_merge_sort rank_le hits) as Hs.
  split; [by apply StronglySorted_take|]. split.
  - rewrite zlen_take, Z2Nat.id by done. unfold zlen. by rewrite merge_sort_Permutation.
  - exists (drop (Z.to_nat limit) (merge_sort rank_le hits)). split.
    + rewrite take_drop. apply merge_sort_Permutation.
    + intros x y. by apply StronglySorted_take_drop.
Qed.

Lemma existsb_perm {A} (p : A → bool) l1 l2 : l1 ≡ₚ l2 → existsb p l1 = existsb p l2.
Proof.
  induction 1 as [|x l l' _ IH|x y l|l l' l'' _ IH1 _ IH2]; simpl; [done|by rewrite IH| |congruence].
  by destruct (p x), (p y).
Qed.

Lemma hits_perm order order' s query path :
  order ≡ₚ order' → all_hits order s query path ≡ₚ all_hits order' s query path.
Proof.
  intros Hp. unfold all_hits, hasExactSearchIdentifierLocked.
  rewrite (existsb_perm _ _ _ Hp). by apply omap_perm.
Qed.

(** A hit is the card of the installed capability it was computed from. *)
Lemma search_hit_Some s query path id a r :
  search_hit s query path (id, a) = Some r ↔
  ∃ g m, g_heap s !! a = Some g ∧ gen_retired g = false ∧ capabilityInPath id path = true ∧
    matchCapability query (gen_record g) = Some m ∧
    r = mkRanked (mkSearchResult (capabilityCard (gen_record g)) (mt_score m) (mt_kind m)
          (mt_field m) (mt_reason m)) (mt_tier m).
Proof.
  unfold search_hit. simpl. split.
  - destruct (g_heap s !! a) as [g|]; [|done]. destruct (_ || _) eqn:Hg; [done|]. bool_hyps.
    destruct (matchCapability _ _) as [m|] eqn:Hm; [|done]. simpl. intros [= <-]. eauto 10.
  - intros (g & m & -> & -> & -> & -> & ->). done.
Qed.

(** Installed generations hold records under their own ID. *)
Definition entries_named s : Prop :=
  ∀ id a g, r_entries (g_reg s) !! id = Some a → g_heap s !! a = Some g →
    md_ID (rec_metadata (gen_record g)) = id.

Lemma hits_distinct s query path order :
  entries_named s → order ≡ₚ map_to_list (r_entries (g_reg s)) →
  NoDup (map (λ r, cd_ID (rs_Card (rk_result r))) (omap (search_hit s query path) order)).
Proof.
  intros Hnamed Hp. assert (NoDup order.*1) as Hnd by (rewrite Hp; apply NoDup_fst_map_to_list).
  assert (∀ id a, (id, a) ∈ order → r_entries (g_reg s) !! id = Some a) as Hin.
  { intros id a Hin. rewrite Hp in Hin. by apply elem_of_map_to_list. }
  clear Hp. induction order as [|[id a] l IH]; simpl; [constructor|].
  simpl in Hnd. apply NoDup_cons in Hnd as [Hn Hnd].
  assert (NoDup (map (λ r, cd_ID (rs_Card (rk_result r))) (omap (search_hit s query path) l))) as IH'.
  { apply IH; [done|]. intros id' a' ?. apply Hin. by right. }
  destruct (search_hit s query path (id, a)) as [r|] eqn:Hr; [|done]. simpl.
  apply NoDup_cons. split; [|done].
  apply search_hit_Some in Hr as (g & m & Hg & _ & _ & _ & ->). simpl.
  intros (r' & Heq & Hr')%list_elem_of_fmap. apply list_elem_of_omap in Hr' as ([id' a'] & Hin' & Hr').
  apply search_hit_Some in Hr' as (g' & m' & Hg' & _ & _ & _ & ->). simpl in Heq.
  rewrite (Hnamed id a g) in Heq; [|apply Hin; by left|done].
  rewrite (Hnamed id' a' g') in Heq; [|apply Hin; by right|done]. subst.
  destruct Hn. apply list_elem_of_fmap. by exists (id', a').
Qed.

Lemma ranked_results_perm order order' s query path limit :
  entries_named s → order ≡ₚ map_to_list (r_entries (g_reg s)) → order ≡ₚ order' →
  ranked_results order s query path limit = ranked_results order' s query path limit.
Proof.
  intros Hnamed Hord Hp. unfold ranked_results. f_equal.
  fold (all_hits order s query path). fold (all_hits order' s query path).
  apply ranked_unique.
  - rewrite !merge_sort_Permutation. by apply hits_perm.
  - rewrite merge_sort_Permutation. by apply hits_distinct.
  - apply StronglySorted_merge_sort; apply _.
  - apply StronglySorted_merge_sort; apply _.
Qed.

(** What a successful search returns. *)
Lemma Search_Ok order s request response :
  Search order s request = Ok response →
  r_closed (g_reg s) = false ∧ 0 < sq_Limit request ≤ SearchLimitMax ∧
  ∃ query path, check_request request = Ok (query, path) ∧
    normalizeSearchQuery (sq_Query request) = Ok query ∧
    response = if String.eqb (nt_exact query) "" || (length (nt_tokens query) =? 0)%nat then no_results
      else mkSearchResponse SearchRankingVersion
             (map rk_result (ranked_results order s query path (sq_Limit request))).
Proof.
  unfold Search, searchAndBrowse. destruct (check_request request) as [[query path]|e] eqn:Hc; [|done].
  destruct (r_closed (g_reg s)); [done|]. simpl. destruct (browseLocked s path) as [v|]; [|done].
  intros Hr. split; [done|].
  pose proof Hc as Hc'. unfold check_request in Hc'. inv_binds Hc'. bool_hyps. simplify_eq.
  split; [lia|]. exists query. eexists. split; [done|]. split; [done|].
  destruct (_ || _) in Hr |- *; by simplify_eq.
Qed.

(** ** Lemmas: matches *)

Lemma normalizeSearchText_tokens value :
  nt_tokenSet (normalizeSearchText value) = token_set (nt_tokens (normalizeSearchText value)) ∧
  nt_tokenBytes (normalizeSearchText value) = slen (Join (nt_tokens (normalizeSearchText value)) " ").
Proof.
  unfold normalizeSearchText.
  destruct (tokenize_words (TrimSpace (NFC value))) as (ws & _ & Ht). by rewrite Ht.
Qed.

Lemma tokens_le_Join l : foldr (λ t n, slen t + n) 0 l ≤ slen (Join l " ").
Proof.
  induction l as [|x l IH]; [done|]. destruct l as [|y l]; [simpl; lia|].
  rewrite Join_cons by done. rewrite !slen_app. pose proof (slen_nonneg " ").
  change (foldr _ _ (x :: y :: l)) with (slen x + foldr (λ t n, slen t + n) 0 (y :: l)). lia.
Qed.

Lemma query_bytes value query :
  normalizeSearchQuery value = Ok query → searchTokenBytes (nt_tokenSet query) ≤ SearchQueryMaxBytes.
Proof.
  unfold normalizeSearchQuery. destruct (normalizeSearchText_tokens value) as [Hs Hb].
  set (n := normalizeSearchText value) in *. clearbody n. cbv zeta.
  intros [_ [Hg [= <-]]%guardE_Ok]%guardE_Ok. bool_hyps. rewrite Hs.
  etrans; [apply searchTokenBytes_list|]. etrans; [apply tokens_le_Join|]. by rewrite <-Hb.
Qed.

Lemma best_score_bounds query fields best :
  searchTokenBytes (nt_tokenSet query) ≤ SearchQueryMaxBytes → best.1 ≤ searchExactScore →
  (foldl (best_step query) best fields).1 ≤ searchExactScore.
Proof.
  intros Hq. revert best. induction fields as [|f l IH]; intros best Hb; simpl; [done|]. apply IH.
  unfold best_step. destruct (_ >? _); [|done]. simpl. by apply lexicalSearchScore_bounds.
Qed.

Lemma bestLexicalMatch_bounds query tier kind fields m :
  searchTokenBytes (nt_tokenSet query) ≤ SearchQueryMaxBytes →
  bestLexicalMatch query tier kind fields = Some m →
  searchMinimumScore ≤ mt_score m ≤ searchExactScore ∧ mt_tier m = tier.
Proof.
  intros Hq. unfold bestLexicalMatch. destruct (_ <? _) eqn:Hb; [done|]. bool_hyps. intros [= <-]. simpl.
  split; [|done]. split; [done|]. apply best_score_bounds; [done|]. simpl. unfold searchExactScore. lia.
Qed.

(** An exact match scores the maximum in tiers 1 to 3, a lexical one at least
    the minimum in tiers 4 and 5. *)
Lemma matchCapability_bounds query r m :
  searchTokenBytes (nt_tokenSet query) ≤ SearchQueryMaxBytes → matchCapability query r = Some m →
  (1 ≤ mt_tier m ≤ 3 ∧ mt_score m = searchExactScore) ∨
  (4 ≤ mt_tier m ≤ 5 ∧ searchMinimumScore ≤ mt_score m ≤ searchExactScore).
Proof.
  intros Hq. unfold matchCapability. cbv zeta.
  repeat (match goal with |- (if ?b then _ else _) = _ → _ => destruct b end;
          [intros [= <-]; left; simpl; split; [lia|done]|]).
  destruct (nt_qualifiedIdentifier query); [done|].
  repeat (match goal with |- (if ?b then _ else _) = _ → _ => destruct b end;
          [intros [= <-]; left; simpl; split; [lia|done]|]).
  destruct (bestLexicalMatch query 4 _ _) as [m'|] eqn:H4.
  { intros [= <-]. apply bestLexicalMatch_bounds in H4 as [? ->]; [|done]. right. split; [lia|done]. }
  destruct (bestLexicalMatch query 5 "lexical_operation" _) as [m'|] eqn:H5.
  { intros [= <-]. apply bestLexicalMatch_bounds in H5 as [? ->]; [|done]. right. split; [lia|done]. }
  intros Hm. apply bestLexicalMatch_bounds in Hm as [? ->]; [|done]. right. split; [lia|done].
Qed.

(** With the identifier flag set only identifiers match. *)
Lemma matchCapability_qualified query r m :
  nt_qualifiedIdentifier query = true → matchCapability query r = Some m →
  (m = exactSearchMatch 1 "exact_capability_id" "capability_id" ∧
   normalizeExact (md_ID (rec_metadata r)) = nt_exact query) ∨
  (m = exactSearchMatch 1 "exact_operation_id" "operation_id" ∧
   ∃ o, o ∈ rec_operations r ∧ normalizeExact (qualified_operation r o) = nt_exact query).
Proof.
  intros Hq. unfold matchCapability. cbv zeta. rewrite Hq.
  destruct (String.eqb_spec (normalizeExact (md_ID (rec_metadata r))) (nt_exact query)).
  { intros [= <-]. by left. }
  destruct (exact_on _ _ _) eqn:He; [|done]. intros [= <-]. right. split; [done|].
  apply existsb_exists in He as (o & Ho & He). apply String.eqb_eq in He. exists o.
  split; [by apply list_elem_of_In|done].
Qed.

Lemma ranked_hit order s query path limit r :
  r ∈ ranked_results order s query path limit → r ∈ all_hits order s query path.
Proof.
  intros Hr. unfold ranked_results in Hr. apply subseteq_take in Hr.
  by rewrite merge_sort_Permutation in Hr.
Qed.

Lemma all_hits_elem order s query path r :
  order ≡ₚ map_to_list (r_entries (g_reg s)) → r ∈ all_hits order s query path →
  ∃ id a g m, r_entries (g_reg s) !! id = Some a ∧ g_heap s !! a = Some g ∧ gen_retired g = false ∧
    capabilityInPath id path = true ∧
    matchCapability (with_qualified query (hasExactSearchIdentifierLocked order s (nt_exact query)))
      (gen_record g) = Some m ∧
    r = mkRanked (mkSearchResult (capabilityCard (gen_record g)) (mt_score m) (mt_kind m)
          (mt_field m) (mt_reason m)) (mt_tier m).
Proof.
  intros Hord Hr. apply list_elem_of_omap in Hr as ([id a] & Hin & Hr).
  rewrite Hord in Hin. apply elem_of_map_to_list in Hin.
  apply search_hit_Some in Hr as (g & m & ? & ? & ? & ? & ->). exists id, a, g, m. by repeat split.
Qed.

(** ** Properties *)


(** Every score lies between the minimum and the exact score, the machine
    arithmetic never overflowing; and only exact matches, which rank first,
    are given the exact score as of right. *)
Theorem search_score_bounds order s request response r :
  order ≡ₚ map_to_list (r_entries (g_reg s)) →
  Search order s request = Ok response → r ∈ rp_Results response →
  searchMinimumScore ≤ rs_Score r ≤ searchExactScore ∧
  ∃ id a g, r_entries (g_reg s) !! id = Some a ∧ g_heap s !! a = Some g ∧
    rs_Card r = capabilityCard (gen_record g).
Proof.
  intros Hord Hres Hr. apply Search_Ok in Hres as (_ & _ & query & path & _ & Hq & ->).
  destruct (_ || _); simpl in Hr; [by apply elem_of_nil in Hr|].
  apply list_elem_of_fmap in Hr as (r' & -> & Hr). apply ranked_hit, all_hits_elem in Hr; [|done].
  destruct Hr as (id & a & g & m & Ha & Hg & _ & _ & Hm & ->). simpl.
  split; [|by exists id, a, g].
  pose proof (query_bytes _ _ Hq) as Hb.
  destruct (matchCapability_bounds _ _ _ (Hb : searchTokenBytes (nt_tokenSet (with_qualified query _)) ≤ _) Hm)
    as [[_ ->]|[_ ?]]; [unfold searchMinimumScore, searchExactScore; lia|done].
Qed.

(** A query that is exactly the identifier of an installed capability or
    operation returns only capabilities identified by it. *)
Theorem search_exact_identifier order s request response query path r :
  order ≡ₚ map_to_list (r_entries (g_reg s)) →
  check_request request = Ok (query, path) →
  hasExactSearchIdentifierLocked order s (nt_exact query) = true →
  Search order s request = Ok response → r ∈ rp_Results response →
  rs_Score r = searchExactScore ∧
  ∃ id a g, r_entries (g_reg s) !! id = Some a ∧ g_heap s !! a = Some g ∧
    rs_Card r = capabilityCard (gen_record g) ∧
    (rs_MatchKind r = "exact_capability_id" ∧
     normalizeExact (md_ID (rec_metadata (gen_record g))) = nt_exact query ∨
     rs_MatchKind r = "exact_operation_id" ∧
     ∃ o, o ∈ rec_operations (gen_record g) ∧
       normalizeExact (qualified_operation (gen_record g) o) = nt_exact query).
Proof.
  intros Hord Hc Hex Hres Hr. apply Search_Ok in Hres as (_ & _ & query' & path' & Hc' & _ & ->).
  rewrite Hc in Hc'. injection Hc' as <- <-.
  destruct (_ || _); simpl in Hr; [by apply elem_of_nil in Hr|].
  apply list_elem_of_fmap in Hr as (r' & -> & Hr). apply ranked_hit, all_hits_elem in Hr; [|done].
  destruct Hr as (id & a & g & m & Ha & Hg & _ & _ & Hm & ->). rewrite Hex in Hm. simpl.
  apply matchCapability_qualified in Hm as [[-> Hid]|[-> Ho]]; [| |done]; (split; [done|]);
    exists id, a, g; (split; [done|]); (split; [done|]); (split; [done|]); [by left|by right].
Qed.
End ranking.

(** ** Concrete searches *)

#[local] Existing Instance ascii_text.
#[local] Existing Instance ascii_tables.

Example tokenize_camel :
  (tokenizeSearchText "parseHTTPRequest GitHub").1.1 = ["parse"; "http"; "request"; "github"] ∧
  (tokenizeSearchText "parseHTTPRequest GitHub").2 = 25.
Proof. split; vm_compute; reflexivity. Qed.

(** A registry with one capability, over a store with one empty snapshot. *)
Definition light_w : Snapshot.World :=
  Snapshot.exec (Snapshot.exec (Snapshot.initial_world Snapshot.DefaultStoreLimits) Snapshot.ABegin)
    (Snapshot.ACommit 0 []).
Definition light_record : CapRecord :=
  mkRecord (mkMetadata "everything.echo" "Echo" "1.0.0" "Echoes messages" []) "everything" ""
    [] [demo_operation] [] [demo_binding] ∅ (Some 0%nat).
Definition light_s0 : RState Snapshot.World := (NewRegistry light_w []).1.
Definition light_s1 := reg_exec light_s0 (RAdd (Some light_record)).

Lemma light_s0_initial : reg_initial light_s0.
Proof.
  apply empty_initial. exists Snapshot.DefaultStoreLimits. split; [done|].
  apply Snapshot.inv_reachable; [done|]. unfold Snapshot.reachable.
  eapply rtc_l; [by exists Snapshot.ABegin|]. apply rtc_once. exists (Snapshot.ACommit 0 []).
  split; [|done]. intros t Ht. vm_compute in Ht. injection Ht as <-. by vm_compute.
Qed.

Lemma light_s1_reachable : reg_reachable light_s1.
Proof.
  exists light_s0. split; [apply light_s0_initial|]. apply rtc_once. exists (RAdd (Some light_record)).
  split; [|done]. split; [by vm_compute|]. intros r sn [= <-] [= <-]. split; [by vm_compute|].
  intros (a & g & Hg & _). change (g_heap light_s0) with (∅ : gmap nat registryGeneration) in Hg.
  by rewrite lookup_empty in Hg.
Qed.

Definition demo_order := map_to_list (r_entries (g_reg light_s1)).
Definition demo_request (q : string) : SearchRequest := mkSearchRequest q "everything" 10.
Definition demo_query (q : string) : normalizedSearchText := normalizeSearchText q.
Definition demo_response (q : string) : SearchResponse :=
  match Search demo_order light_s1 (demo_request q) with Ok r => r | Err _ => no_results end.
Definition demo_result (q : string) : SearchResult :=
  default (mkSearchResult (capabilityCard light_record) 0 "" "" "") (head (rp_Results (demo_response q))).


Lemma search_score_bounds_witness :
  rs_MatchKind (demo_result "echoes a message") = "lexical_capability" ∧
  searchMinimumScore ≤ rs_Score (demo_result "echoes a message") ≤ searchExactScore.
Proof.
  split; [by vm_compute|].
  refine (proj1 (search_score_bounds demo_order light_s1 (demo_request "echoes a message")
            (demo_response "echoes a message") _ _ _ _)).
  - done.
  - by vm_compute.
  - vm_compute. by left.
Defined.

Lemma search_exact_identifier_witness :
  rs_Score (demo_result "everything.echo/ECHO") = searchExactScore.
Proof.
  refine (proj1 (search_exact_identifier demo_order light_s1 (demo_request "everything.echo/ECHO")
            (demo_response "everything.echo/ECHO") (demo_query "everything.echo/ECHO") "everything" _ _ _ _ _ _)).
  - done.
  - by vm_compute.
  - by vm_compute.
  - by vm_compute.
  - vm_compute. by left.
Defined.
