(* ===== verification/Describe.v ===== *)
(** * Describing capabilities

    Models [internal/capability/describe.go]: the projection of a record onto
    the sections a caller asks for, the store of projections that answers in
    pages, and the authenticated cursors that continue them. The clock and the
    random source are arguments of the operations that read them; every
    critical section of [s.mu] is one definition. *)
From stdpp Require Import relations.
From Stdlib Require Import Ascii String.
From S2P Require Import Prelude GoStrings Limits Sha256 Regex Utf8 Base64 Json Cursor SnapshotService Records Registry RegistrySteps Search.
Local Open Scope string_scope.
Local Open Scope list_scope.
Local Open Scope Z_scope.

(** ** Data *)

Definition DescribeSkills : string := "skills".
Definition DescribeOperations : string := "operations".
Definition DescribeReferences : string := "references".

Record ArtifactDescription := mkArtifactDescription {
  ad_Ref : string; ad_MediaType : string; ad_Bytes : Z; ad_SHA256 : string }.
Record SkillDescription := mkSkillDescription {
  sk_ID : string; sk_Name : string; sk_Description : string; sk_License : string;
  sk_Compatibility : string; sk_ArtifactD : ArtifactDescription }.
Record OperationDescription := mkOperationDescription {
  od_ID : string; od_Description : string; od_MetadataState : string }.
Record ReferenceDescription := mkReferenceDescription {
  rd_ID : string; rd_Kind : string; rd_SkillID : string; rd_Artifact : ArtifactDescription }.

Record Projection := mkProjection {
  pj_CapabilityID : string; pj_Name : string; pj_Version : string; pj_Description : string;
  pj_ManifestSHA256 : string; pj_Include : list string; pj_Counts : CapabilityCounts;
  pj_Skills : list SkillDescription; pj_Operations : list OperationDescription;
  pj_References : list ReferenceDescription; pj_bytes : Z }.

Record DescribeRequest := mkDescribeRequest {
  dq_CapabilityID : string; dq_Include : list string; dq_Limit : Z; dq_Cursor : string }.
Record DescribeResponse := mkDescribeResponse {
  dr_CapabilityID : string; dr_Name : string; dr_Version : string; dr_Description : string;
  dr_ManifestSHA256 : string; dr_Include : list string; dr_Counts : CapabilityCounts;
  dr_Skills : list SkillDescription; dr_Operations : list OperationDescription;
  dr_References : list ReferenceDescription; dr_NextCursor : string }.

Record projectionEntry := mkProjectionEntry {
  pe_projection : Projection; pe_created : Time; pe_idleUntil : Time }.
Record projectionCursor := mkProjectionCursor { pc_ID : string; pc_Offset : Z; pc_Limit : Z }.

(** [ProjectionStore], without its registry, which is an argument. *)
Record ProjectionStore := mkProjectionStore {
  ps_limits : ProjectionLimits; ps_key : bytes; ps_closed : bool;
  ps_entries : gmap string projectionEntry; ps_bytes : Z }.
Record ProjectionStats := mkProjectionStats { pst_Projections : Z; pst_Bytes : Z }.

Global Instance ArtifactDescription_eq_dec : EqDecision ArtifactDescription.
Proof. solve_decision. Defined.
Global Instance SkillDescription_eq_dec : EqDecision SkillDescription.
Proof. solve_decision. Defined.
Global Instance OperationDescription_eq_dec : EqDecision OperationDescription.
Proof. solve_decision. Defined.
Global Instance ReferenceDescription_eq_dec : EqDecision ReferenceDescription.
Proof. solve_decision. Defined.

(** ** JSON *)

Definition artifact_json (a : ArtifactDescription) : json :=
  JObj [("ref", JStr (ad_Ref a)); ("media_type", JStr (ad_MediaType a));
        ("bytes", JInt (ad_Bytes a)); ("sha256", JStr (ad_SHA256 a))].
Definition skill_json (s : SkillDescription) : json :=
  JObj ([("id", JStr (sk_ID s)); ("name", JStr (sk_Name s)); ("description", JStr (sk_Description s))]
        ++ omit_string "license" (sk_License s) ++ omit_string "compatibility" (sk_Compatibility s)
        ++ [("artifact", artifact_json (sk_ArtifactD s))]).
Definition operation_json (o : OperationDescription) : json :=
  JObj [("id", JStr (od_ID o)); ("description", JStr (od_Description o));
        ("metadata_state", JStr (od_MetadataState o))].
Definition reference_json (r : ReferenceDescription) : json :=
  JObj ([("id", JStr (rd_ID r)); ("kind", JStr (rd_Kind r))]
        ++ omit_string "skill_id" (rd_SkillID r) ++ [("artifact", artifact_json (rd_Artifact r))]).
Definition counts_json (c : CapabilityCounts) : json :=
  JObj [("skills", JInt (cc_Skills c)); ("operations", JInt (cc_Operations c));
        ("references", JInt (cc_References c))].

(** [projection.serializable()] *)
Definition serializable (p : Projection) : json :=
  JObj ([("capability_id", JStr (pj_CapabilityID p)); ("name", JStr (pj_Name p));
         ("version", JStr (pj_Version p)); ("description", JStr (pj_Description p));
         ("manifest_sha256", JStr (pj_ManifestSHA256 p)); ("include", JArr (map JStr (pj_Include p)));
         ("counts", counts_json (pj_Counts p))]
        ++ omit_list "skills" (map skill_json (pj_Skills p))
        ++ omit_list "operations" (map operation_json (pj_Operations p))
        ++ omit_list "references" (map reference_json (pj_References p))).

Definition describe_response_json (r : DescribeResponse) : json :=
  JObj ([("capability_id", JStr (dr_CapabilityID r)); ("name", JStr (dr_Name r));
         ("version", JStr (dr_Version r)); ("description", JStr (dr_Description r));
         ("manifest_sha256", JStr (dr_ManifestSHA256 r)); ("include", nil_list (map JStr (dr_Include r)));
         ("counts", counts_json (dr_Counts r))]
        ++ omit_list "skills" (map skill_json (dr_Skills r))
        ++ omit_list "operations" (map operation_json (dr_Operations r))
        ++ omit_list "references" (map reference_json (dr_References r))
        ++ omit_string "next_cursor" (dr_NextCursor r)).

(** ** Projections *)

Definition describe_invalid (format : string) : error := Wrapf format [] ErrDescribeRequestInvalid.

Definition sections : list string := [DescribeSkills; DescribeOperations; DescribeReferences].

(** The loop of [normalizeIncludes] over the requested sections, with the
    sections selected so far. *)
Definition include_step (selected : list string) (section : string) : result error (list string) :=
  fail_if negb (ValidString section) || (slen section >? DescribeIncludeMaxBytes)
    with describe_invalid "%w: include section is invalid" else
  fail_if negb (String.eqb section DescribeSkills) && negb (String.eqb section DescribeOperations)
          && negb (String.eqb section DescribeReferences)
    with describe_invalid "%w: unknown include section" else
  fail_if bool_decide (section ∈ selected)
    with describe_invalid "%w: duplicate include section" else
  Ok (section :: selected).

Definition normalizeIncludes (include : list string) : result error (list string) :=
  fail_if (zlen include =? 0) || (zlen include >? 3)
    with describe_invalid "%w: include must select one to three sections" else
  let! selected := rfold include_step [] include in
  Ok (filter (λ s, s ∈ selected) sections).

Definition describeArtifact (a : Artifact) : ArtifactDescription :=
  mkArtifactDescription (af_Ref a) (af_MediaType a) (af_Bytes a) (af_SHA256 a).

Definition describe_skill (s : Skill) : SkillDescription :=
  mkSkillDescription (sk_Path s) (sm_Name (sk_Metadata s)) (sm_Description (sk_Metadata s))
    (sm_License (sk_Metadata s)) (sm_Compatibility (sk_Metadata s)) (describeArtifact (sk_Artifact s)).
Definition describe_operation (o : Operation) : OperationDescription :=
  mkOperationDescription (op_ID o) (op_Description o) "unavailable".
Definition context_reference (a : Artifact) : ReferenceDescription :=
  mkReferenceDescription (af_ID a) "context" "" (describeArtifact a).
Definition skill_references (s : Skill) : list ReferenceDescription :=
  map (λ a, mkReferenceDescription (sk_Path s +:+ "/" +:+ af_ID a) "skill_reference" (sk_Path s)
              (describeArtifact a)) (sk_Resources s).

Definition set_skills (p : Projection) (l : list SkillDescription) : Projection :=
  mkProjection (pj_CapabilityID p) (pj_Name p) (pj_Version p) (pj_Description p) (pj_ManifestSHA256 p)
    (pj_Include p) (mkCounts (zlen l) (cc_Operations (pj_Counts p)) (cc_References (pj_Counts p)))
    l (pj_Operations p) (pj_References p) (pj_bytes p).
Definition set_operations (p : Projection) (l : list OperationDescription) : Projection :=
  mkProjection (pj_CapabilityID p) (pj_Name p) (pj_Version p) (pj_Description p) (pj_ManifestSHA256 p)
    (pj_Include p) (mkCounts (cc_Skills (pj_Counts p)) (zlen l) (cc_References (pj_Counts p)))
    (pj_Skills p) l (pj_References p) (pj_bytes p).
Definition set_references (p : Projection) (l : list ReferenceDescription) : Projection :=
  mkProjection (pj_CapabilityID p) (pj_Name p) (pj_Version p) (pj_Description p) (pj_ManifestSHA256 p)
    (pj_Include p) (mkCounts (cc_Skills (pj_Counts p)) (cc_Operations (pj_Counts p)) (zlen l))
    (pj_Skills p) (pj_Operations p) l (pj_bytes p).
Definition set_size (p : Projection) (n : Z) : Projection :=
  mkProjection (pj_CapabilityID p) (pj_Name p) (pj_Version p) (pj_Description p) (pj_ManifestSHA256 p)
    (pj_Include p) (pj_Counts p) (pj_Skills p) (pj_Operations p) (pj_References p) n.

(** The switch of [BuildProjection] on one section. *)
Definition project_section (rec : CapRecord) (p : Projection) (section : string) : Projection :=
  if String.eqb section DescribeSkills then
    set_skills p (sort_by sk_ID (pj_Skills p ++ map describe_skill (rec_skills rec)))
  else if String.eqb section DescribeOperations then
    set_operations p (pj_Operations p ++ map describe_operation (rec_operations rec))
  else if String.eqb section DescribeReferences then
    set_references p (sort_by rd_ID (pj_References p ++ map context_reference (rec_context rec)
                                     ++ flat_map skill_references (rec_skills rec)))
  else p.

Definition BuildProjection (record : option CapRecord) (include : list string) : result error Projection :=
  match record with
  | None => Err (describe_invalid "%w: capability record is required")
  | Some rec =>
      let! canonical := normalizeIncludes include in
      let md := rec_metadata rec in
      let p0 := mkProjection (md_ID md) (md_Name md) (md_Version md) (md_Description md)
                  (rec_manifestDigest rec) canonical (mkCounts 0 0 0) [] [] [] 0 in
      let p := foldl (project_section rec) p0 canonical in
      Ok (set_size p (marshal_size (serializable p)))
  end.

Definition projectionItemCount (p : Projection) : Z :=
  zlen (pj_Skills p) + zlen (pj_Operations p) + zlen (pj_References p).

(** ** Pages *)

(** [copySection] over one section, with the captured [remaining] and
    [offset]: the range it appends, and their new values. *)
Definition copySection {A} (l : list A) (st : Z * Z) : list A * (Z * Z) :=
  let '(remaining, offset) := st in
  if remaining =? 0 then ([], st)
  else if offset >=? zlen l then ([], (remaining, offset - zlen l))
  else
    let end_ := if offset + remaining >? zlen l then zlen l else offset + remaining in
    (take (Z.to_nat (end_ - offset)) (drop (Z.to_nat offset) l), (remaining - (end_ - offset), 0)).

Definition pageProjection (p : Projection) (offset limit : Z) (next : string) : DescribeResponse :=
  let '(skills, st) := copySection (pj_Skills p) (limit, offset) in
  let '(operations, st) := copySection (pj_Operations p) st in
  let '(references, st) := copySection (pj_References p) st in
  mkDescribeResponse (pj_CapabilityID p) (pj_Name p) (pj_Version p) (pj_Description p)
    (pj_ManifestSHA256 p) (pj_Include p) (pj_Counts p) skills operations references next.

Definition checkDescribeResponseSize (r : DescribeResponse) : result error unit :=
  fail_if marshal_size (describe_response_json r) >? BrokerResponseMaxBytes with ErrServiceQuota else Ok tt.

Definition response_fits (r : DescribeResponse) : bool :=
  match checkDescribeResponseSize r with Ok _ => true | Err _ => false end.

(** ** Cursors *)

Definition cursor_payload (c : projectionCursor) : bytes :=
  Marshal (JObj [("i", JStr (pc_ID c)); ("o", JInt (pc_Offset c)); ("l", JInt (pc_Limit c))]).
Definition makeCursor (s : ProjectionStore) (c : projectionCursor) : string :=
  seal "describe" (ps_key s) (cursor_payload c).

Definition decode_cursor (payload : bytes) : option projectionCursor :=
  v ← parse payload; ms ← as_members v;
  i ← field decode_string "i" ms ""; o ← field decode_int "o" ms 0; l ← field decode_int "l" ms 0;
  Some (mkProjectionCursor i o l).

Definition parseCursor (s : ProjectionStore) (token : string) : option projectionCursor :=
  if slen token >? OpaqueReferenceMaxBytes then None else
  payload ← unseal "describe" (ps_key s) token;
  c ← decode_cursor payload;
  if String.eqb (pc_ID c) "" || (pc_Offset c <=? 0) || (pc_Limit c <=? 0) || (pc_Limit c >? DescribeLimitMax)
  then None else Some c.

(** ** The store *)

Definition newProjectionStore (limits : ProjectionLimits) (key : option bytes) : result error ProjectionStore :=
  let! _ := validateProjectionLimits limits in
  match key with
  | None => Err (Errorf "initialize projection cursor key: %w" [])
  | Some key => Ok (mkProjectionStore limits key false ∅ 0)
  end.

Definition with_entries (s : ProjectionStore) (entries : gmap string projectionEntry) (bytes : Z) : ProjectionStore :=
  mkProjectionStore (ps_limits s) (ps_key s) (ps_closed s) entries bytes.

Definition expires (s : ProjectionStore) (e : projectionEntry) : Time :=
  minTime (pe_idleUntil e) (Limits.Add (pe_created e) (pl_Absolute (ps_limits s))).

(** The body of [sweepLocked]'s loop; its result does not depend on the order
    the map is visited in. *)
Definition sweep_entry (now : Time) (s : ProjectionStore) (id : string) (e : projectionEntry) : ProjectionStore :=
  if negb (Before now (expires s e))
  then with_entries s (delete id (ps_entries s)) (ps_bytes s - pj_bytes (pe_projection e))
  else s.
Definition sweepLocked (s : ProjectionStore) (now : Time) : ProjectionStore :=
  foldl (λ s '(id, e), sweep_entry now s id e) s (map_to_list (ps_entries s)).

Definition remove_entry (s : ProjectionStore) (id : string) (p : Projection) : ProjectionStore :=
  with_entries s (delete id (ps_entries s)) (ps_bytes s - pj_bytes p).

(** The loop of [boundedPage]: the largest page that fits. *)
Fixpoint page_loop (s : ProjectionStore) (p : Projection) (offset limit : Z) (id : string) (items : nat) :
    result error (DescribeResponse * Z) :=
  match items with
  | O => Err ErrServiceQuota
  | S items' =>
      let n := Z.of_nat items in
      let next := if offset + n <? projectionItemCount p
                  then makeCursor s (mkProjectionCursor id (offset + n) limit) else "" in
      let response := pageProjection p offset n next in
      if response_fits response then Ok (response, n) else page_loop s p offset limit id items'
  end.

Definition boundedPage (s : ProjectionStore) (p : Projection) (offset limit : Z) (id : string) :
    result error (DescribeResponse * Z) :=
  let remaining := projectionItemCount p - offset in
  fail_if remaining <=? 0 with ErrDescribeCursorInvalid else
  let itemsLimit := if limit >? remaining then remaining else limit in
  page_loop s p offset limit id (Z.to_nat itemsLimit).

Definition firstPage (s : ProjectionStore) (p : Projection) (limit : Z) (now : Time) (draws : list draw) :
    ProjectionStore * result error DescribeResponse :=
  if ps_closed s then (s, Err ErrServiceClosed) else
  let s := sweepLocked s now in
  let count := projectionItemCount p in
  let whole := pageProjection p 0 count "" in
  if (count <=? limit) && response_fits whole then (s, Ok whole)
  else if (Z.of_nat (size (ps_entries s)) >=? pl_MaxCount (ps_limits s))
          || (ps_bytes s + pj_bytes p >? pl_MaxBytes (ps_limits s)) then (s, Err ErrServiceQuota)
  else
    match unique_id readHandleCollisionAttempts (ps_entries s) draws with
    | Err e => (s, Err (Wrapf "create projection cursor: %w" [] e))
    | Ok id =>
        match ps_entries s !! id with
        | Some _ => (s, Err (ErrorNew "projection cursor collision"))
        | None =>
            let entry := mkProjectionEntry p now (Limits.Add now (pl_Idle (ps_limits s))) in
            let s1 := with_entries s (<[id := entry]> (ps_entries s)) (ps_bytes s + pj_bytes p) in
            match boundedPage s1 p 0 limit id with
            | Err e => (remove_entry s1 id p, Err e)
            | Ok (response, consumed) =>
                (if consumed =? count then remove_entry s1 id p else s1, Ok response)
            end
        end
    end.

Definition cursorPage (s : ProjectionStore) (token : string) (limit : Z) (now : Time) :
    ProjectionStore * result error DescribeResponse :=
  match parseCursor s token with
  | None => (s, Err ErrDescribeCursorInvalid)
  | Some cursor =>
      if negb (pc_Limit cursor =? limit) then (s, Err ErrDescribeCursorInvalid)
      else if ps_closed s then (s, Err ErrServiceClosed)
      else
        let s := sweepLocked s now in
        match ps_entries s !! pc_ID cursor with
        | None => (s, Err ErrDescribeCursorStale)
        | Some entry =>
            let count := projectionItemCount (pe_projection entry) in
            if (pc_Offset cursor <=? 0) || (pc_Offset cursor >=? count) then (s, Err ErrDescribeCursorInvalid)
            else match boundedPage s (pe_projection entry) (pc_Offset cursor) limit (pc_ID cursor) with
                 | Err e => (s, Err e)
                 | Ok (response, _) =>
                     let entry' := mkProjectionEntry (pe_projection entry) (pe_created entry)
                                     (Limits.Add now (pl_Idle (ps_limits s))) in
                     (with_entries s (<[pc_ID cursor := entry']> (ps_entries s)) (ps_bytes s), Ok response)
                 end
        end
  end.

Definition Close (s : ProjectionStore) : ProjectionStore :=
  mkProjectionStore (ps_limits s) (ps_key s) true ∅ 0.

Definition Stats (s : ProjectionStore) (now : Time) : ProjectionStore * ProjectionStats :=
  let s := sweepLocked s now in
  (s, mkProjectionStats (Z.of_nat (size (ps_entries s))) (ps_bytes s)).

Section describe.
Context {W : Type} `{SnapshotOps W}.

(** The part of a first request that does not hold the store's lock: the
    record is leased only while its projection is built. *)
Definition describe_projection (g : RState W) (request : DescribeRequest) : RState W * result error Projection :=
  if String.eqb (dq_CapabilityID request) "" || (slen (dq_CapabilityID request) >? MaxCapabilityIDBytes)
     || negb (ValidString (dq_CapabilityID request))
     || negb (MatchString capabilityIDPattern (dq_CapabilityID request))
  then (g, Err (describe_invalid "%w: capability_id is invalid"))
  else match normalizeIncludes (dq_Include request) with
       | Err e => (g, Err e)
       | Ok include =>
           match Lookup g (dq_CapabilityID request) with
           | (g, Err e) => (g, Err e)
           | (g, Ok lease) => (lease_Release g lease, BuildProjection (lease_record g lease) include)
           end
       end.

Definition Describe (s : ProjectionStore) (g : RState W) (request : DescribeRequest) (now : Time)
    (draws : list draw) : ProjectionStore * RState W * result error DescribeResponse :=
  if (dq_Limit request <=? 0) || (dq_Limit request >? DescribeLimitMax)
  then (s, g, Err (Wrapf "%w: limit must be between 1 and %d" [FInt DescribeLimitMax] ErrDescribeRequestInvalid))
  else if ps_closed s then (s, g, Err ErrServiceClosed)
  else if String.eqb (dq_Cursor request) "" then
    match describe_projection g request with
    | (g, Err e) => (s, g, Err e)
    | (g, Ok projection) =>
        let '(s, r) := firstPage s projection (dq_Limit request) now draws in (s, g, r)
    end
  else if negb (String.eqb (dq_CapabilityID request) "") || negb (zlen (dq_Include request) =? 0)
  then (s, g, Err (describe_invalid "%w: cursor requests omit capability_id and include"))
  else let '(s, r) := cursorPage s (dq_Cursor request) (dq_Limit request) now in (s, g, r).
End describe.

(** ** Specification: the items of a projection and of a page *)

Inductive item : Type :=
| ISkill (d : SkillDescription)
| IOperation (d : OperationDescription)
| IReference (d : ReferenceDescription).

Definition items (p : Projection) : list item :=
  map ISkill (pj_Skills p) ++ map IOperation (pj_Operations p) ++ map IReference (pj_References p).
Definition response_items (r : DescribeResponse) : list item :=
  map ISkill (dr_Skills r) ++ map IOperation (dr_Operations r) ++ map IReference (dr_References r).

(** The cursor that continues a page of [n] items at [offset], and the page. *)
Definition next_of (s : ProjectionStore) (p : Projection) (offset n limit : Z) (id : string) : string :=
  if offset + n <? projectionItemCount p then makeCursor s (mkProjectionCursor id (offset + n) limit) else "".
Definition page_of (s : ProjectionStore) (p : Projection) (offset n limit : Z) (id : string) : DescribeResponse :=
  pageProjection p offset n (next_of s p offset n limit id).

(** ** Lemmas: pages *)

Lemma items_count p : zlen (items p) = projectionItemCount p.
Proof. unfold items, projectionItemCount, zlen. rewrite !length_app, !length_map. lia. Qed.

Lemma projectionItemCount_nonneg p : 0 ≤ projectionItemCount p.
Proof. rewrite <-items_count. apply zlen_nonneg. Qed.

Lemma copySection_spec {A B} (f : A → B) (l : list A) rem off x rem' off' :
  0 ≤ rem → 0 ≤ off → copySection l (rem, off) = (x, (rem', off')) →
  0 ≤ rem' ∧ 0 ≤ off' ∧
  ∀ tail, take (Z.to_nat rem) (drop (Z.to_nat off) (map f l ++ tail)) =
          map f x ++ take (Z.to_nat rem') (drop (Z.to_nat off') tail).
Proof.
  intros Hr Ho. unfold copySection. destruct (Z.eqb_spec rem 0) as [->|Hr0].
  { intros [= <- <- <-]. done. }
  destruct (off >=? zlen l) eqn:Hge; bool_hyps.
  { intros [= <- <- <-]. split; [done|]. split; [lia|]. intros tail. simpl.
    rewrite drop_app_ge by (rewrite length_map; unfold zlen in *; lia).
    rewrite length_map. do 2 f_equal. unfold zlen. lia. }
  set (e := if off + rem >? zlen l then zlen l else off + rem). intros [= <- <- <-].
  assert (e = Z.min (off + rem) (zlen l)) as He.
  { subst e. destruct (_ >? _) eqn:E; bool_hyps; lia. }
  split; [lia|]. split; [lia|]. intros tail. rewrite drop_0, drop_app_le, skipn_map by (rewrite length_map; unfold zlen in *; lia).
  assert (length (drop (Z.to_nat off) l) = (length l - Z.to_nat off)%nat) as Hlen by (by rewrite length_drop). unfold zlen in *.
  destruct (Z.le_gt_cases (off + rem) (zlen l)); unfold zlen in *.
  - rewrite take_app_le by (rewrite length_map; lia). rewrite firstn_map.
    replace (Z.to_nat (rem - (e - off))) with 0%nat by lia. simpl. rewrite app_nil_r.
    do 2 f_equal. lia.
  - rewrite take_app_ge by (rewrite length_map; lia). rewrite length_map. f_equal.
    + f_equal. symmetry. apply take_ge. lia.
    + f_equal. lia.
Qed.

(** A page holds the window of items it was asked for. *)
Lemma page_items p offset n next :
  0 ≤ offset → 0 ≤ n →
  response_items (pageProjection p offset n next) = take (Z.to_nat n) (drop (Z.to_nat offset) (items p)).
Proof.
  intros Ho Hn. unfold pageProjection.
  destruct (copySection (pj_Skills p) (n, offset)) as [x1 [r1 o1]] eqn:H1.
  destruct (copySection (pj_Operations p) (r1, o1)) as [x2 [r2 o2]] eqn:H2.
  destruct (copySection (pj_References p) (r2, o2)) as [x3 [r3 o3]] eqn:H3.
  apply (copySection_spec ISkill) in H1 as (Hr1 & Ho1 & E1); [|done..].
  apply (copySection_spec IOperation) in H2 as (Hr2 & Ho2 & E2); [|done..].
  apply (copySection_spec IReference) in H3 as (Hr3 & Ho3 & E3); [|done..].
  unfold items, response_items. simpl. rewrite E1, E2.
  specialize (E3 []). rewrite drop_nil, take_nil, !app_nil_r in E3. by rewrite E3.
Qed.

Lemma response_fits_spec r :
  response_fits r = true ↔ marshal_size (describe_response_json r) ≤ BrokerResponseMaxBytes.
Proof.
  unfold response_fits, checkDescribeResponseSize, guardE.
  destruct (_ >? _) eqn:E; bool_hyps; split; try done; lia.
Qed.

Lemma page_loop_spec s p offset limit id k :
  match page_loop s p offset limit id k with
  | Ok (r, n) => 0 < n ≤ Z.of_nat k ∧ r = page_of s p offset n limit id ∧ response_fits r = true ∧
      ∀ m, n < m ≤ Z.of_nat k → response_fits (page_of s p offset m limit id) = false
  | Err e => e = ErrServiceQuota ∧
      ∀ m, 0 < m ≤ Z.of_nat k → response_fits (page_of s p offset m limit id) = false
  end.
Proof.
  induction k as [|k IH]; [split; [done|lia]|]. cbn [page_loop]. fold (next_of s p offset (Z.of_nat (S k)) limit id).
  fold (page_of s p offset (Z.of_nat (S k)) limit id).
  destruct (response_fits (page_of s p offset (Z.of_nat (S k)) limit id)) eqn:Hf.
  - split; [lia|]. split; [done|]. split; [done|lia].
  - assert (∀ m, m = Z.of_nat (S k) ∨ m ≤ Z.of_nat k ∨ Z.of_nat (S k) < m) as Hm by lia.
    destruct (page_loop s p offset limit id k) as [[r n]|e].
    + destruct IH as (? & ? & ? & IH). repeat split; try done; try lia.
      intros m ?. destruct (Hm m) as [->|[|]]; [done|apply IH; lia|lia].
    + destruct IH as [? IH]. split; [done|]. intros m ?. destruct (Hm m) as [->|[|]]; [done|apply IH; lia|lia].
Qed.

(** What [boundedPage] returns. *)
Definition bounded_page_spec (s : ProjectionStore) (p : Projection) (offset limit : Z) (id : string)
    (res : result error (DescribeResponse * Z)) : Prop :=
  let most := Z.min limit (projectionItemCount p - offset) in
  match res with
  | Ok (r, n) =>
      0 < n ≤ most ∧ r = page_of s p offset n limit id ∧
      response_items r = take (Z.to_nat n) (drop (Z.to_nat offset) (items p)) ∧
      marshal_size (describe_response_json r) ≤ BrokerResponseMaxBytes ∧
      ∀ m, n < m ≤ most → response_fits (page_of s p offset m limit id) = false
  | Err e =>
      (projectionItemCount p ≤ offset ∧ e = ErrDescribeCursorInvalid) ∨
      (offset < projectionItemCount p ∧ e = ErrServiceQuota ∧
       ∀ m, 0 < m ≤ most → response_fits (page_of s p offset m limit id) = false)
  end.

Lemma boundedPage_correct s p offset limit id :
  0 ≤ offset → 0 < limit → bounded_page_spec s p offset limit id (boundedPage s p offset limit id).
Proof.
  intros Ho Hl. unfold bounded_page_spec, boundedPage, guardE.
  destruct (_ <=? 0) eqn:Hr; bool_hyps; [left; split; [lia|done]|].
  set (k := if limit >? projectionItemCount p - offset then projectionItemCount p - offset else limit).
  assert (k = Z.min limit (projectionItemCount p - offset)) as Hk.
  { subst k. destruct (_ >? _) eqn:E; bool_hyps; lia. }
  pose proof (page_loop_spec s p offset limit id (Z.to_nat k)) as Hp.
  rewrite Z2Nat.id, Hk in Hp by lia. rewrite Hk.
  destruct (page_loop _ _ _ _ _ _) as [[r n]|e].
  - destruct Hp as (Hn & -> & Hf & Hmax). split; [done|]. split; [done|].
    split; [unfold page_of; apply page_items; lia|]. split; [by apply response_fits_spec|done].
  - right. split; [lia|done].
Qed.

(** ** Lemmas: sweeping *)

Definition alive (s : ProjectionStore) (now : Time) (kv : string * projectionEntry) : Prop :=
  now < expires s kv.2.
Global Instance alive_dec s now kv : Decision (alive s now kv).
Proof. unfold alive. apply _. Defined.

Definition entry_bytes (e : projectionEntry) : Z := pj_bytes (pe_projection e).

Lemma sweep_entry_eq now s id e :
  sweep_entry now s id e =
  if decide (alive s now (id, e)) then s
  else with_entries s (delete id (ps_entries s)) (ps_bytes s - entry_bytes e).
Proof.
  unfold sweep_entry, Before. destruct (Z.ltb_spec now (expires s e)); case_decide as Ha;
    unfold alive in Ha; simpl in *; try done; lia.
Qed.

(** The outcome of visiting the entries [l]. *)
Record swept (s : ProjectionStore) (now : Time) (l : list (string * projectionEntry)) (s' : ProjectionStore) : Prop := {
  sw_limits : ps_limits s' = ps_limits s;
  sw_key : ps_key s' = ps_key s;
  sw_closed : ps_closed s' = ps_closed s;
  sw_entries id : ps_entries s' !! id =
     match ps_entries s !! id with
     | Some e => if bool_decide (id ∈ l.*1 ∧ ¬ alive s now (id, e)) then None else Some e
     | None => None
     end;
  sw_bytes : ps_bytes s' - map_sum entry_bytes (ps_entries s') = ps_bytes s - map_sum entry_bytes (ps_entries s);
}.

Lemma alive_limits s s' now kv : ps_limits s' = ps_limits s → alive s' now kv ↔ alive s now kv.
Proof. unfold alive, expires. by intros ->. Qed.

Lemma sweep_fold now l : ∀ s,
  NoDup l.*1 → (∀ id e, (id, e) ∈ l → ps_entries s !! id = Some e) →
  swept s now l (foldl (λ s '(id, e), sweep_entry now s id e) s l).
Proof.
  induction l as [|[k e] l IH]; intros s Hnd Hin.
  { split; try done. intros id. simpl. by destruct (ps_entries s !! id). }
  rewrite fmap_cons in Hnd. apply NoDup_cons in Hnd as [Hk Hnd].
  pose proof (Hin k e (list_elem_of_here _ _)) as Hke.
  cbn [foldl]. rewrite sweep_entry_eq. case_decide as Ha.
  - destruct (IH s Hnd) as [H1 H2 H3 He H5]; [set_solver|]. split; [done..| |done].
    intros id. rewrite He. destruct (ps_entries s !! id) as [e'|] eqn:Hid; [|done].
    erewrite bool_decide_ext; [done|]. rewrite fmap_cons, elem_of_cons. simpl. split; [tauto|].
    intros [[->|?] Hna]; [|done]. destruct Hna. by simplify_eq.
  - destruct (IH (with_entries s (delete k (ps_entries s)) (ps_bytes s - entry_bytes e)) Hnd) as [H1 H2 H3 He H5].
    { intros id e' Hl. simpl. rewrite lookup_delete_ne; [apply Hin; set_solver|]. intros ->. destruct Hk.
      by apply (list_elem_of_fmap_2 fst) in Hl. }
    simpl in *. split; [done..| |].
    + intros id. rewrite He. destruct (decide (k = id)) as [<-|Hne].
      * rewrite lookup_delete_eq, Hke. rewrite bool_decide_true; [done|]. split; [set_solver|done].
      * rewrite lookup_delete_ne by done. destruct (ps_entries s !! id) as [e'|] eqn:Hid; [|done].
        erewrite bool_decide_ext; [done|]. rewrite fmap_cons, elem_of_cons. simpl.
        rewrite (alive_limits s) by done. naive_solver.
    + rewrite H5, (map_sum_delete _ _ _ _ Hke). lia.
Qed.

(** A sweep keeps exactly the entries that are alive, in whatever order the
    map is visited. *)
Lemma sweep_order s now l :
  l ≡ₚ map_to_list (ps_entries s) →
  foldl (λ s '(id, e), sweep_entry now s id e) s l =
  with_entries s (filter (alive s now) (ps_entries s))
    (ps_bytes s - map_sum entry_bytes (ps_entries s) + map_sum entry_bytes (filter (alive s now) (ps_entries s))).
Proof.
  intros Hl. destruct (sweep_fold now l s) as [H1 H2 H3 H4 H5].
  - rewrite Hl. apply NoDup_fst_map_to_list.
  - intros id e. rewrite Hl. by rewrite elem_of_map_to_list.
  - destruct (foldl _ _ _) as [? ? ? entries' bytes']. simpl in *. subst.
    assert (entries' = filter (alive s now) (ps_entries s)) as ->.
    { apply map_eq. intros id. rewrite H4. symmetry. destruct (ps_entries s !! id) as [e|] eqn:Hid.
      - assert (id ∈ l.*1) as Hin.
        { apply list_elem_of_fmap. exists (id, e). split; [done|]. rewrite Hl. by apply elem_of_map_to_list. }
        case_bool_decide as Hd.
        + apply map_lookup_filter_None. right. intros e' ?. simplify_eq. tauto.
        + apply map_lookup_filter_Some. split; [done|]. destruct (decide (alive s now (id, e))); tauto.
      - apply map_lookup_filter_None. by left. }
    unfold with_entries. simpl. f_equal. lia.
Qed.

Lemma sweep_eq s now :
  sweepLocked s now =
  with_entries s (filter (alive s now) (ps_entries s))
    (ps_bytes s - map_sum entry_bytes (ps_entries s) + map_sum entry_bytes (filter (alive s now) (ps_entries s))).
Proof. by apply sweep_order. Qed.

(** ** Projections that are built *)

Definition built (p : Projection) : Prop := ∃ record include, BuildProjection record include = Ok p.

Lemma built_bytes p : built p → pj_bytes p = marshal_size (serializable p).
Proof.
  intros ([rec|] & include & H); [|done]. unfold BuildProjection in H. inv_binds H. by simplify_eq.
Qed.

Lemma marshal_list {A} (f : A → json) l : zlen l ≤ marshal_size (JArr (map f l)).
Proof.
  unfold marshal_size, Marshal, zlen. cbn [render]. rewrite map_map. simpl. rewrite length_app. simpl.
  pose proof (length_commas (map (λ x, render (f x)) l)) as H. rewrite length_map in H. lia.
Qed.

Lemma commas_elem x l : x ∈ l → zlen x ≤ zlen (commas l).
Proof.
  induction 1 as [x l|x y l Hx IH]; [destruct l; cbn [commas]; unfold zlen; rewrite ?length_app; lia|].
  destruct l; [by apply not_elem_of_nil in Hx|]. cbn [commas] in *. unfold zlen in *.
  rewrite length_app. cbn [length]. lia.
Qed.

Lemma member_size k v l : (k, v) ∈ l → marshal_size v ≤ marshal_size (JObj l).
Proof.
  intros Hin. change (marshal_size (JObj l)) with (zlen ("{"%char :: commas (map member_bytes l) ++ ["}"%char])).
  assert (member_bytes (k, v) ∈ map member_bytes l) as Hm by (by apply (list_elem_of_fmap_2 member_bytes)).
  apply commas_elem in Hm. unfold member_bytes at 1 in Hm. cbn [fst snd] in Hm.
  unfold marshal_size, Marshal, zlen in *. cbn [length]. rewrite length_app in *. cbn [length] in *. lia.
Qed.

Lemma omit_list_size {A} name (f : A → json) l ms :
  (∀ v, (name, v) ∈ omit_list name (map f l) → (name, v) ∈ ms) → zlen l ≤ marshal_size (JObj ms).
Proof.
  intros Hm. destruct l as [|x l]; [unfold marshal_size; apply zlen_nonneg|].
  etrans; [apply (marshal_list f)|]. eapply member_size. apply Hm. simpl. by left.
Qed.

(** A projection has no more items than its stored size allows. *)
Lemma projection_count_bound p : projectionItemCount p ≤ 3 * marshal_size (serializable p).
Proof.
  unfold projectionItemCount, serializable.
  assert (zlen (pj_Skills p) ≤ marshal_size (serializable p)).
  { apply (omit_list_size "skills" skill_json). intros v. rewrite !elem_of_app. tauto. }
  assert (zlen (pj_Operations p) ≤ marshal_size (serializable p)).
  { apply (omit_list_size "operations" operation_json). intros v. rewrite !elem_of_app. tauto. }
  assert (zlen (pj_References p) ≤ marshal_size (serializable p)).
  { apply (omit_list_size "references" reference_json). intros v. rewrite !elem_of_app. tauto. }
  unfold serializable in *. lia.
Qed.

(** ** Lemmas: cursors *)

(** The cursors the store makes. *)
Record cursor_ok (c : projectionCursor) : Prop := {
  co_id : ∃ b, length b = 16%nat ∧ pc_ID c = RawURLEncode b;
  co_offset : 0 < pc_Offset c ≤ MaxInt64;
  co_limit : 0 < pc_Limit c ≤ DescribeLimitMax;
}.

Lemma handle_shape b : length b = 16%nat → slen (RawURLEncode b) = 22 ∧ RawURLEncode b ≠ "" ∧ plain (RawURLEncode b).
Proof.
  intros Hb. assert (slen (RawURLEncode b) = 22) as Hs by (rewrite slen_RawURLEncode; unfold zlen; by rewrite Hb).
  split; [done|]. split; [intros He; by rewrite He in Hs|apply RawURLEncode_plain].
Qed.

Lemma decode_cursor_payload c : cursor_ok c → decode_cursor (cursor_payload c) = Some c.
Proof.
  destruct c as [i o l]. intros [(b & Hb & Hi) Ho Hl]. simpl in *. subst i.
  unfold decode_cursor, cursor_payload. cbn [pc_ID pc_Offset pc_Limit].
  rewrite parse_flat.
  - cbn [as_members mbind option_bind]. unfold DescribeLimitMax, MaxInt64 in *.
    assert (decode_int (JInt o) = Some o) as Hdo by (apply decode_integer_JInt; unfold MinInt64, MaxInt64; lia).
    assert (decode_int (JInt l) = Some l) as Hdl by (apply decode_integer_JInt; unfold MinInt64, MaxInt64; lia).
    set (name := RawURLEncode b). unfold JInt in *. set (vo := FormatInt o) in *. set (vl := FormatInt l) in *.
    cbn [field]. repeat match goal with |- context [names_match ?a ?b] =>
      let v := eval vm_compute in (names_match a b) in change (names_match a b) with v end.
    cbn [decode_string mbind option_bind field]. by rewrite Hdo, Hdl.
  - repeat constructor; try (by vm_compute); [apply RawURLEncode_plain|by eexists..].
Qed.

Lemma slen_member k v : zlen (render_string k ++ ":"%char :: render v) = zlen (render_string k) + 1 + marshal_size v.
Proof. unfold marshal_size, Marshal, zlen. rewrite length_app. simpl. lia. Qed.

Lemma cursor_payload_size c : cursor_ok c → zlen (cursor_payload c) ≤ 80.
Proof.
  destruct c as [i o l]. intros [(b & Hb & Hi) Ho Hl]. simpl in *. subst i.
  destruct (handle_shape b Hb) as (Hs & _ & Hp). unfold cursor_payload, Marshal. cbn [render map commas pc_ID pc_Offset pc_Limit fst snd].
  rewrite (render_plain _ Hp). unfold JInt. cbn [render].
  assert (slen (FormatInt o) ≤ 19) by (apply slen_FormatInt; unfold MaxInt64 in *; lia).
  assert (slen (FormatInt l) ≤ 3) by (apply slen_FormatInt; unfold DescribeLimitMax in *; lia).
  pose proof (slen_to_bytes (FormatInt o)). pose proof (slen_to_bytes (FormatInt l)). pose proof (slen_to_bytes (RawURLEncode b)).
  repeat match goal with |- context [render_string ?a] =>
    let v := eval vm_compute in (render_string a) in change (render_string a) with v end.
  unfold zlen in *. simpl. repeat (rewrite length_app; simpl). lia.
Qed.

Lemma parseCursor_make s c : cursor_ok c → parseCursor s (makeCursor s c) = Some c.
Proof.
  intros Hc. unfold parseCursor, makeCursor. rewrite slen_seal.
  pose proof (cursor_payload_size c Hc) as Hsz. pose proof (zlen_nonneg (cursor_payload c)).
  assert (((zlen (cursor_payload c) * 4 + 2) / 3) ≤ 200) by (Z.to_euclidean_division_equations; lia).
  change (slen "describe") with 8. destruct (_ >? _) eqn:Hg; bool_hyps; [unfold OpaqueReferenceMaxBytes in *; lia|].
  rewrite unseal_seal by done. cbn [mbind option_bind]. rewrite (decode_cursor_payload c Hc). cbn [mbind option_bind].
  destruct Hc as [(b & Hb & Hi) Ho Hl]. destruct (handle_shape b Hb) as (_ & Hne & _).
  rewrite Hi. destruct (String.eqb_spec (RawURLEncode b) ""); [done|]. simpl.
  rewrite (proj2 (Z.leb_gt (pc_Offset c) 0)), (proj2 (Z.leb_gt (pc_Limit c) 0)) by lia. simpl.
  destruct (pc_Limit c >? DescribeLimitMax) eqn:E; bool_hyps; [lia|done].
Qed.

(** ** Steps of the store *)

(** Sixteen random bytes or a failure, per draw. *)
Definition draws_ok (draws : list draw) : Prop := ∀ b, Some b ∈ draws → length b = 16%nat.

(** The critical sections of the store's methods; [PFirst] is the second half
    of a first request, for the projection its first half built. *)
Inductive paction : Type :=
| PFirst (p : Projection) (limit : Z) (now : Time) (draws : list draw)
| PCursor (token : string) (limit : Z) (now : Time)
| PStats (now : Time)
| PClose.

Definition pexec (s : ProjectionStore) (a : paction) : ProjectionStore :=
  match a with
  | PFirst p limit now draws => (firstPage s p limit now draws).1
  | PCursor token limit now => (cursorPage s token limit now).1
  | PStats now => (Stats s now).1
  | PClose => Close s
  end.
Definition pallowed (a : paction) : Prop :=
  match a with
  | PFirst p limit _ draws => built p ∧ 0 < limit ≤ DescribeLimitMax ∧ draws_ok draws
  | PCursor _ limit _ => 0 < limit ≤ DescribeLimitMax
  | _ => True
  end.
Definition pstep (s s' : ProjectionStore) : Prop := ∃ a, pallowed a ∧ s' = pexec s a.
Definition pinitial (s : ProjectionStore) : Prop :=
  ∃ limits key, newProjectionStore limits (Some key) = Ok s.
Definition preachable (s : ProjectionStore) : Prop := ∃ s0, pinitial s0 ∧ rtc pstep s0 s.

Record pentry_ok (id : string) (e : projectionEntry) : Prop := {
  peo_id : ∃ b, length b = 16%nat ∧ id = RawURLEncode b;
  peo_built : built (pe_projection e);
}.

Record pstore_inv (s : ProjectionStore) : Prop := {
  pi_limits : projection_limits_ok (ps_limits s);
  (** the byte counter is the sum of the stored projections' sizes *)
  pi_bytes : ps_bytes s = map_sum entry_bytes (ps_entries s);
  pi_quota : ps_bytes s ≤ pl_MaxBytes (ps_limits s);
  pi_count : Z.of_nat (size (ps_entries s)) ≤ pl_MaxCount (ps_limits s);
  pi_entries : map_Forall pentry_ok (ps_entries s);
  pi_closed : ps_closed s = true → ps_entries s = ∅;
}.

(** ** Lemmas: the invariant *)

Lemma pentry_bytes id e : pentry_ok id e → 0 ≤ entry_bytes e.
Proof. intros [_ Hb]. unfold entry_bytes. rewrite built_bytes by done. apply zlen_nonneg. Qed.

Lemma sum_filter_le s (P : string * projectionEntry → Prop) `{!∀ x, Decision (P x)} :
  map_Forall pentry_ok (ps_entries s) →
  map_sum entry_bytes (filter P (ps_entries s)) ≤ map_sum entry_bytes (ps_entries s).
Proof.
  generalize (ps_entries s). intros m. induction m as [|k e m Hk IH] using map_ind; intros Hok.
  { by rewrite map_filter_empty. }
  apply map_Forall_insert in Hok as [He Hok]; [|done]. specialize (IH Hok). apply pentry_bytes in He.
  rewrite map_sum_insert by done. destruct (decide (P (k, e))) as [HP|HP].
  - rewrite map_filter_insert_True, map_sum_insert by (try done; apply map_lookup_filter_None; by left). lia.
  - rewrite map_filter_insert_False, delete_id by done. lia.
Qed.

Lemma sweep_inv s now : pstore_inv s → pstore_inv (sweepLocked s now).
Proof.
  intros [Hl Hb Hq Hc He Hcl]. rewrite sweep_eq. pose proof (sum_filter_le s (alive s now) He).
  split; simpl; try done; try lia.
  - etrans; [|done]. apply inj_le. apply map_subseteq_size. apply map_filter_subseteq.
  - intros id e [? _]%map_lookup_filter_Some. by apply He.
  - intros Hx. rewrite Hcl by done. apply map_filter_empty.
Qed.

Lemma sweep_lookup s now id e :
  ps_entries (sweepLocked s now) !! id = Some e ↔ ps_entries s !! id = Some e ∧ now < expires s e.
Proof. rewrite sweep_eq. simpl. rewrite map_lookup_filter_Some. done. Qed.

Lemma sweep_fields s now :
  ps_limits (sweepLocked s now) = ps_limits s ∧ ps_key (sweepLocked s now) = ps_key s ∧
  ps_closed (sweepLocked s now) = ps_closed s.
Proof. by rewrite sweep_eq. Qed.

Lemma insert_inv s id p t t' :
  pstore_inv s → ps_closed s = false → ps_entries s !! id = None → (∃ b, length b = 16%nat ∧ id = RawURLEncode b) →
  built p → Z.of_nat (size (ps_entries s)) < pl_MaxCount (ps_limits s) →
  ps_bytes s + pj_bytes p ≤ pl_MaxBytes (ps_limits s) →
  pstore_inv (with_entries s (<[id := mkProjectionEntry p t t']> (ps_entries s)) (ps_bytes s + pj_bytes p)).
Proof.
  intros [Hl Hb Hq Hc He Hcl] Hopen Hid Hdraw Hp Hsz Hby. split; simpl; try done.
  - rewrite map_sum_insert by done. unfold entry_bytes at 1. simpl. lia.
  - rewrite map_size_insert_None by done. lia.
  - apply map_Forall_insert_2; [by split|done].
  - congruence.
Qed.

Lemma remove_insert s id e p :
  ps_entries s !! id = None →
  remove_entry (with_entries s (<[id := e]> (ps_entries s)) (ps_bytes s + pj_bytes p)) id p = s.
Proof.
  intros Hid. unfold remove_entry, with_entries. simpl. rewrite delete_insert_id by done.
  destruct s. simpl. f_equal. lia.
Qed.

Lemma unique_id_draw {A} n (taken : gmap string A) draws id :
  draws_ok draws → unique_id n taken draws = Ok id →
  taken !! id = None ∧ ∃ b, Some b ∈ draws ∧ length b = 16%nat ∧ id = RawURLEncode b.
Proof. intros Hd (? & b & ? & ?)%unique_id_Ok. split; [done|]. exists b. naive_solver. Qed.

(** The two shapes [firstPage] leaves the store in. *)
Lemma firstPage_state s p limit now draws :
  ps_closed s = false → draws_ok draws →
  let s1 := sweepLocked s now in
  (firstPage s p limit now draws).1 = s1 ∨
  ∃ id b, Some b ∈ draws ∧ length b = 16%nat ∧ id = RawURLEncode b ∧ ps_entries s1 !! id = None ∧
    Z.of_nat (size (ps_entries s1)) < pl_MaxCount (ps_limits s) ∧
    ps_bytes s1 + pj_bytes p ≤ pl_MaxBytes (ps_limits s) ∧
    (firstPage s p limit now draws).1 =
      with_entries s1 (<[id := mkProjectionEntry p now (Limits.Add now (pl_Idle (ps_limits s)))]> (ps_entries s1))
        (ps_bytes s1 + pj_bytes p).
Proof.
  intros Hopen Hd s1. unfold firstPage. rewrite Hopen. fold s1.
  destruct (sweep_fields s now) as (Hl & _ & _). fold s1 in Hl. rewrite Hl.
  destruct (_ && _); [by left|]. destruct (_ || _) eqn:Hq; [by left|]. bool_hyps.
  destruct (unique_id _ _ _) as [id|] eqn:Hid; [|by left].
  apply unique_id_draw in Hid as (Hnone & b & Hb & Hlen & ->); [|done]. rewrite Hnone.
  destruct (boundedPage _ _ _ _ _) as [[r n]|]; simpl.
  - destruct (_ =? _); [left; by apply remove_insert|]. right. exists (RawURLEncode b), b. repeat split; try done; lia.
  - left. by apply remove_insert.
Qed.

Lemma cursorPage_state s token limit now :
  (cursorPage s token limit now).1 = s ∨ (cursorPage s token limit now).1 = sweepLocked s now ∨
  ∃ c e, parseCursor s token = Some c ∧ ps_entries (sweepLocked s now) !! pc_ID c = Some e ∧
    (cursorPage s token limit now).1 =
      with_entries (sweepLocked s now)
        (<[pc_ID c := mkProjectionEntry (pe_projection e) (pe_created e) (Limits.Add now (pl_Idle (ps_limits s)))]>
          (ps_entries (sweepLocked s now))) (ps_bytes (sweepLocked s now)).
Proof.
  unfold cursorPage. destruct (parseCursor s token) as [c|] eqn:Hc; [|by left].
  destruct (negb _); [by left|]. destruct (ps_closed s); [by left|].
  destruct (ps_entries (sweepLocked s now) !! pc_ID c) as [e|] eqn:He; [|by right; left].
  destruct (_ || _); [by right; left|]. destruct (boundedPage _ _ _ _ _) as [[r n]|]; [|by right; left].
  right. right. exists c, e. simpl. by rewrite (proj1 (sweep_fields s now)).
Qed.

Lemma pstep_inv s s' : pstore_inv s → pstep s s' → pstore_inv s'.
Proof.
  intros Hinv (a & Ha & ->). destruct a as [p limit now draws|token limit now|now|]; simpl in *.
  - destruct Ha as (Hp & Hlim & Hd). destruct (ps_closed s) eqn:Hcl; [by unfold firstPage; rewrite Hcl|].
    pose proof (sweep_inv s now Hinv) as Hs. destruct (sweep_fields s now) as (Hl & _ & Hc).
    destruct (firstPage_state s p limit now draws Hcl Hd) as [->|(id & b & Hb & Hlen & Hid & Hnone & Hsz & Hby & ->)];
      [done|]. apply insert_inv; rewrite ?Hl, ?Hc; try done; try lia. by exists b.
  - pose proof (sweep_inv s now Hinv) as Hs.
    destruct (cursorPage_state s token limit now) as [->|[->|(c & e & Hc & He & ->)]]; [done..|].
    destruct Hs as [Hl Hb Hq Hsz Hes Hcl]. split; simpl; try done.
    + rewrite (map_sum_update _ _ _ _ _ He). unfold entry_bytes at 2 3. simpl. lia.
    + rewrite map_size_insert_Some by done. done.
    + apply map_Forall_insert_2; [|done]. destruct (Hes _ _ He). by split.
    + intros Hx. rewrite (Hcl Hx) in He. by rewrite lookup_empty in He.
  - by apply sweep_inv.
  - destruct Hinv as [Hl _ _ _ _ _]. destruct Hl as [Hlc Hlb Hi Ha'].
    split; simpl; rewrite ?map_sum_empty, ?map_size_empty; try done; lia.
Qed.

Lemma preachable_inv s : preachable s → pstore_inv s.
Proof.
  intros (s0 & (limits & key & H0) & Hr). unfold newProjectionStore in H0. inv_binds H0. destruct r.
  simplify_eq. apply validateProjectionLimits_Ok in Hr0 as Hl.
  assert (pstore_inv (mkProjectionStore limits key false ∅ 0)) as Hinv.
  { destruct Hl. split; simpl; rewrite ?map_sum_empty, ?map_size_empty; try done; try lia. }
  clear -Hr Hinv. induction Hr as [|? ? ? Hst ? IH]; [done|]. apply IH. by eapply pstep_inv.
Qed.

(** ** Lemmas: following cursors *)

(** Steps during which no new projection is given the 128-bit value [id]. *)
Definition avoids (id : string) (a : paction) : Prop :=
  match a with PFirst _ _ _ draws => ∀ b, Some b ∈ draws → (RawURLEncode b ≠ id) | _ => True end.
Definition pstep_avoiding (id : string) (s s' : ProjectionStore) : Prop :=
  ∃ a, pallowed a ∧ avoids id a ∧ s' = pexec s a.

(** A client that follows the cursors it is given: the responses it collects,
    while the store's other clients make any steps in between. *)
Inductive follows (limit : Z) : ProjectionStore → DescribeResponse → list DescribeResponse → Prop :=
| follows_last s r : dr_NextCursor r = "" → follows limit s r [r]
| follows_more s s1 s2 c now r r' rs :
    dr_NextCursor r ≠ "" →
    parseCursor s (dr_NextCursor r) = Some c →
    rtc (pstep_avoiding (pc_ID c)) s s1 →
    cursorPage s1 (dr_NextCursor r) limit now = (s2, Ok r') →
    follows limit s2 r' rs →
    follows limit s r (r :: rs).

Definition holds (s : ProjectionStore) (id : string) (p : Projection) : Prop :=
  ∀ e, ps_entries s !! id = Some e → pe_projection e = p.

Lemma sweep_holds s now id p : holds s id p → holds (sweepLocked s now) id p.
Proof. intros Hh e [He _]%sweep_lookup. by apply Hh. Qed.

Lemma avoiding_step id p s s' :
  pstep_avoiding id s s' → holds s id p → holds s' id p ∧ ps_key s' = ps_key s.
Proof.
  intros (a & Ha & Hav & ->) Hh. destruct a as [q limit now draws|token limit now|now|]; simpl in *.
  - destruct Ha as (_ & _ & Hd). destruct (sweep_fields s now) as (_ & Hk & _).
    destruct (ps_closed s) eqn:Hcl; [by unfold firstPage; rewrite Hcl|].
    destruct (firstPage_state s q limit now draws Hcl Hd) as [->|(id' & b & Hb & _ & -> & _ & _ & _ & ->)].
    + split; [by apply sweep_holds|done].
    + split; [|done]. intros e. simpl. rewrite lookup_insert_ne by (by apply Hav). by apply sweep_holds.
  - destruct (sweep_fields s now) as (_ & Hk & _).
    destruct (cursorPage_state s token limit now) as [->|[->|(c & e & Hc & He & ->)]]; [done|by split; [apply sweep_holds|]|].
    split; [|done]. intros e'. simpl. destruct (decide (pc_ID c = id)) as [<-|Hne].
    + rewrite lookup_insert_eq. intros [= <-]. simpl. by eapply sweep_holds.
    + rewrite lookup_insert_ne by done. by apply sweep_holds.
  - split; [by apply sweep_holds|]. by destruct (sweep_fields s now) as (_ & Hk & _).
  - split; [|done]. intros e. simpl. by rewrite lookup_empty.
Qed.

Lemma avoiding_steps id p s s' :
  rtc (pstep_avoiding id) s s' → holds s id p → holds s' id p ∧ ps_key s' = ps_key s.
Proof.
  induction 1 as [|x y z Hxy Hyz IH]; intros Hh; [done|].
  apply (avoiding_step _ p) in Hxy as [Hh' Hk]; [|done]. destruct (IH Hh') as [? ?]. split; [done|congruence].
Qed.

Lemma makeCursor_key s s' c : ps_key s = ps_key s' → makeCursor s c = makeCursor s' c.
Proof. unfold makeCursor. by intros ->. Qed.
Lemma parseCursor_key s s' t : ps_key s = ps_key s' → parseCursor s t = parseCursor s' t.
Proof. unfold parseCursor. by intros ->. Qed.
Lemma page_of_key s s' p off n limit id : ps_key s = ps_key s' → page_of s p off n limit id = page_of s' p off n limit id.
Proof. intros Hk. unfold page_of, next_of. by rewrite (makeCursor_key s s' _ Hk). Qed.

Lemma makeCursor_nonempty s c : makeCursor s c ≠ "".
Proof.
  intros He. assert (slen (makeCursor s c) = 0) as Hs by (by rewrite He).
  unfold makeCursor in Hs. rewrite slen_seal in Hs. change (slen "describe") with 8 in Hs.
  pose proof (zlen_nonneg (cursor_payload c)). Z.to_euclidean_division_equations; lia.
Qed.

Lemma pageProjection_next p off n next : dr_NextCursor (pageProjection p off n next) = next.
Proof. unfold pageProjection. by repeat case_match. Qed.

(** What a successful [cursorPage] on the store's own cursor returns. *)
Lemma cursorPage_page s c limit now s' r p :
  cursor_ok c → holds s (pc_ID c) p → cursorPage s (makeCursor s c) limit now = (s', Ok r) →
  limit = pc_Limit c ∧ holds s' (pc_ID c) p ∧ ps_key s' = ps_key s ∧
  ∃ n, 0 < n ≤ projectionItemCount p - pc_Offset c ∧ r = page_of s' p (pc_Offset c) n limit (pc_ID c).
Proof.
  intros Hc Hh. unfold cursorPage. rewrite parseCursor_make by done.
  destruct (Z.eqb_spec (pc_Limit c) limit) as [<-|]; simpl; [|done].
  destruct (ps_closed s); [done|]. destruct (ps_entries (sweepLocked s now) !! pc_ID c) as [e|] eqn:He; [|done].
  destruct (_ || _) eqn:Hb; [done|]. bool_hyps.
  pose proof (sweep_holds s now _ _ Hh _ He) as Hep. rewrite Hep in *.
  pose proof (boundedPage_correct (sweepLocked s now) p (pc_Offset c) (pc_Limit c) (pc_ID c)) as Hsp.
  destruct (boundedPage _ _ _ _ _) as [[r0 n]|]; [|done]. intros [= <- <-].
  destruct Hsp as (Hn & -> & _); [lia|destruct Hc; lia|].
  destruct (sweep_fields s now) as (_ & Hk & _).
  split; [done|]. split.
  { intros e' He'. simpl in He'. rewrite lookup_insert_eq in He'. by simplify_eq. }
  split; [done|]. exists n. split; [lia|]. by apply page_of_key.
Qed.

Lemma follows_items limit s r rs : follows limit s r rs → ∀ id p off n,
  holds s id p → (∃ b, length b = 16%nat ∧ id = RawURLEncode b) → 0 ≤ off → 0 < n → off + n ≤ projectionItemCount p →
  projectionItemCount p ≤ MaxInt64 → 0 < limit ≤ DescribeLimitMax →
  r = page_of s p off n limit id →
  mjoin (map response_items rs) = drop (Z.to_nat off) (items p).
Proof.
  induction 1 as [s r Hlast|s s1 s2 c now r r' rs Hmore Hc Hsteps Hpage Hf IH];
    intros id p off n Hh Hid Hoff Hn Hcount Hmax Hlimit ->.
  - unfold page_of in *. rewrite pageProjection_next in Hlast. unfold next_of in Hlast.
    destruct (Z.ltb_spec (off + n) (projectionItemCount p)); [by apply makeCursor_nonempty in Hlast|].
    simpl. rewrite app_nil_r, page_items by lia. apply take_ge. rewrite length_drop.
    pose proof (items_count p). unfold zlen in *. lia.
  - assert (dr_NextCursor (page_of s p off n limit id) = next_of s p off n limit id) as Hnext by apply pageProjection_next.
    rewrite Hnext in *. unfold next_of in Hmore, Hc, Hpage.
    destruct (Z.ltb_spec (off + n) (projectionItemCount p)) as [Hlt|]; [|done].
    assert (cursor_ok (mkProjectionCursor id (off + n) limit)) as Hcok by (split; simpl; [done|lia|done]).
    rewrite parseCursor_make in Hc by done. injection Hc as <-. simpl in *.
    destruct (avoiding_steps id p s s1 Hsteps Hh) as [Hh1 Hk1].
    rewrite (makeCursor_key s s1) in Hpage by done.
    apply (cursorPage_page s1 _ _ _ _ _ p) in Hpage as (_ & Hh2 & Hk2 & n' & Hn' & Hr'); [|done..].
    cbn [pc_ID pc_Offset] in *. cbn [map mjoin list_join].
    change (response_items (page_of s p off n limit id) ++ mjoin (map response_items rs) = drop (Z.to_nat off) (items p)).
    rewrite (IH id p (off + n) n') by (try done; lia).
    unfold page_of at 1. rewrite page_items by lia. rewrite Z2Nat.inj_add by lia.
    rewrite <-drop_drop. apply take_drop.
Qed.

Lemma firstPage_page s p limit now draws s1 r :
  draws_ok draws → 0 < limit → firstPage s p limit now draws = (s1, Ok r) →
  response_items r = items p ∧ dr_NextCursor r = "" ∨
  ∃ id n, (∃ b, length b = 16%nat ∧ id = RawURLEncode b) ∧ holds s1 id p ∧ 0 < n ≤ projectionItemCount p ∧
    r = page_of s1 p 0 n limit id.
Proof.
  intros Hd Hlim. unfold firstPage. destruct (ps_closed s); [done|].
  destruct (_ && _) eqn:Hw.
  { intros [= <- <-]. left. rewrite pageProjection_next. split; [|done].
    pose proof (projectionItemCount_nonneg p). rewrite page_items by lia. rewrite drop_0. apply take_ge.
    pose proof (items_count p). unfold zlen in *. lia. }
  destruct (_ || _); [done|]. destruct (unique_id _ _ _) as [id|] eqn:Hid; [|done].
  apply unique_id_draw in Hid as (Hnone & b & Hb & Hlen & ->); [|done]. rewrite Hnone.
  set (s0 := with_entries _ _ _).
  pose proof (boundedPage_correct s0 p 0 limit (RawURLEncode b) ltac:(lia) Hlim) as Hsp.
  destruct (boundedPage _ _ _ _ _) as [[r0 n]|]; [|done]. destruct Hsp as (Hn & -> & _).
  intros [= <- <-]. right. exists (RawURLEncode b), n. split; [by exists b|]. split.
  - destruct (_ =? _); intros e; simpl; [by rewrite lookup_delete_eq|rewrite lookup_insert_eq; by intros [= <-]].
  - split; [lia|]. destruct (_ =? _); [|done]. by apply page_of_key.
Qed.

(** ** Lemmas: the requested sections *)

Definition valid_include (include : list string) : Prop :=
  include ≠ [] ∧ NoDup include ∧ Forall (.∈ sections) include.
Global Instance valid_include_dec include : Decision (valid_include include).
Proof. unfold valid_include. apply _. Defined.

Definition invalid_request (e : error) : Prop := errors_Is e "describe request is invalid" = true.

Lemma include_step_spec selected section :
  match include_step selected section with
  | Ok s' => section ∈ sections ∧ ¬ (section ∈ selected) ∧ s' = (section :: selected)
  | Err e => (section ∉ sections ∨ section ∈ selected) ∧ invalid_request e
  end.
Proof.
  unfold include_step, guardE. destruct (_ || _) eqn:Hv.
  { split; [|done]. left. intros Hin. unfold sections in Hin.
    repeat (apply elem_of_cons in Hin as [->|Hin]; [by vm_compute in Hv|]). by apply not_elem_of_nil in Hin. }
  clear Hv. destruct (_ && _) eqn:Hk.
  { bool_hyps. split; [|done]. left. unfold sections. rewrite !elem_of_cons, elem_of_nil.
    repeat match goal with H : String.eqb _ _ = false |- _ => apply String.eqb_neq in H end. tauto. }
  assert (section ∈ sections) as Hin.
  { unfold sections. rewrite !elem_of_cons, elem_of_nil.
    repeat (apply andb_false_iff in Hk as [Hk|Hk] || fail); apply negb_false_iff in Hk; apply String.eqb_eq in Hk; tauto. }
  case_bool_decide; [split; [by right|done]|done].
Qed.

Lemma include_fold include : ∀ selected,
  match rfold include_step selected include with
  | Ok s' => Forall (.∈ sections) include ∧ NoDup include ∧ (∀ x, x ∈ include → x ∉ selected) ∧
      (∀ x, x ∈ s' ↔ x ∈ include ∨ x ∈ selected)
  | Err e => ¬ (Forall (.∈ sections) include ∧ NoDup include ∧ (∀ x, x ∈ include → x ∉ selected)) ∧ invalid_request e
  end.
Proof.
  induction include as [|x l IH]; intros selected.
  { simpl. repeat split; try constructor; set_solver. }
  cbn [rfold]. pose proof (include_step_spec selected x) as Hx. destruct (include_step selected x) as [s'|e]; simpl.
  - destruct Hx as (Hin & Hni & ->). specialize (IH (x :: selected)).
    destruct (rfold include_step (x :: selected) l) as [s''|e].
    + destruct IH as (Hf & Hnd & Hd & He). repeat split.
      * by constructor.
      * constructor; [|done]. intros Hl. apply (Hd x Hl). by left.
      * intros y [->|Hy]%elem_of_cons; [done|]. intros ?. apply (Hd y Hy). by right.
      * rewrite He. set_solver.
      * rewrite He. set_solver.
    + destruct IH as [Hno He]. split; [|done]. intros (Hf & Hnd & Hd). apply Hno.
      apply Forall_cons in Hf as [_ Hf]. apply NoDup_cons in Hnd as [Hx Hnd].
      split; [done|]. split; [done|]. intros y Hy [->|?]%elem_of_cons; [done|]. apply (Hd y); [by right|done].
  - destruct Hx as [Hx He]. split; [|done]. intros (Hf & Hnd & Hd). apply Forall_cons in Hf as [Hf _].
    destruct Hx as [Hx|Hx]; [done|]. apply (Hd x); [by left|done].
Qed.

Lemma normalizeIncludes_spec include :
  match normalizeIncludes include with
  | Ok l => valid_include include ∧ l = filter (.∈ include) sections
  | Err e => ¬ valid_include include ∧ invalid_request e
  end.
Proof.
  unfold normalizeIncludes, guardE. destruct (_ || _) eqn:Hlen.
  { split; [|done]. intros (Hne & Hnd & Hf). apply orb_true_iff in Hlen as [Hl|Hl]; bool_hyps.
    - destruct include; [done|]. unfold zlen in Hl. simpl in Hl. lia.
    - assert (length include ≤ length sections)%nat as Hle.
      { apply submseteq_length, NoDup_submseteq; [done|]. intros x Hx. rewrite Forall_forall in Hf. by apply Hf. }
      unfold zlen in Hl. simpl in Hle. lia. }
  pose proof (include_fold include []) as Hf. destruct (rfold include_step [] include) as [s'|e]; simpl.
  - destruct Hf as (Hf & Hnd & _ & He). split.
    + split; [|done]. intros ->. done.
    + apply list_filter_iff. intros x. rewrite He. set_solver.
  - destruct Hf as [Hno He]. split; [|done]. intros (_ & Hnd & Hf). apply Hno. split; [done|]. split; [done|]. set_solver.
Qed.

Definition selected {A} (include : list string) (section : string) (l : list A) : list A :=
  if decide (section ∈ include) then l else [].

(** ** Properties *)

(** Whatever requests interleave and whatever the clock reads, the
    projection store's byte counter is the sum of the sizes of the projections
    it keeps, each of them built from a record and of the size of its JSON,
    neither quota is exceeded, and a closed store keeps nothing. *)
Theorem projection_store_accounting s : preachable s → pstore_inv s.
Proof. apply preachable_inv. Qed.

(** A page is the window of the projection's items that starts at its
    offset; it holds at least one item and at most the limit, is no larger
    than a response may be, and is the longest such page; the only failures
    are an offset past the end and a first item that alone is too large. *)
Theorem describe_page s p offset limit id :
  0 ≤ offset → 0 < limit →
  bounded_page_spec s p offset limit id (boundedPage s p offset limit id).
Proof. apply boundedPage_correct. Qed.

(** C8. A client that follows the cursors of a description receives every item
    of the projection exactly once and in order, whatever other requests, the
    sweeping and the clock do in between, as long as the store hands out no
    128-bit identifier twice; and every page carries the same projection. *)
Theorem describe_enumerates s p limit now draws s1 r rs :
  preachable s → built p → 0 < limit ≤ DescribeLimitMax → draws_ok draws →
  firstPage s p limit now draws = (s1, Ok r) → follows limit s1 r rs →
  mjoin (map response_items rs) = items p.
Proof.
  intros Hs Hp Hlim Hd Hfirst Hf.
  assert (projectionItemCount p ≤ MaxInt64 ∨ MaxInt64 < projectionItemCount p) as [Hmax|Hbig] by lia.
  - destruct (firstPage_page _ _ _ _ _ _ _ Hd (proj1 Hlim) Hfirst) as [[Hr Hn]|(id & n & Hid & Hh & Hn & Hr)].
    + inversion Hf; [|done]. subst. simpl. by rewrite app_nil_r.
    + rewrite (follows_items limit s1 r rs Hf id p 0 n) by (try done; lia). done.
  - (* a projection that large does not fit the store's quota *)
    exfalso. pose proof (projection_count_bound p) as Hc. rewrite <-built_bytes in Hc by done.
    pose proof (sweep_inv s now (preachable_inv s Hs)) as [Hl Hb Hq _ He _].
    assert (0 ≤ ps_bytes (sweepLocked s now)).
    { rewrite Hb. apply map_sum_nonneg. intros id e Hide. eapply pentry_bytes. by apply He. }
    unfold firstPage in Hfirst. destruct (ps_closed s); [done|].
    assert ((projectionItemCount p <=? limit) = false) as Hcl.
    { apply Z.leb_gt. unfold DescribeLimitMax, MaxInt64 in *. lia. }
    rewrite Hcl in Hfirst. cbn [andb] in Hfirst.
    assert ((ps_bytes (sweepLocked s now) + pj_bytes p >? pl_MaxBytes (ps_limits (sweepLocked s now))) = true) as Hby.
    { apply Z.gtb_lt. destruct Hl as [_ Hlb _ _]. unfold ProjectionBytesMax, MaxInt64 in *.
      change (Z.shiftl 64 20) with 67108864 in Hlb. lia. }
    rewrite Hby, orb_true_r in Hfirst. done.
Qed.

(** Every cursor the store makes is parsed back to the projection, offset
    and limit it was made for, and a cursor is accepted only when it carries
    the HMAC of its payload under the store's key. *)
Theorem describe_cursor_authentic s :
  (∀ c, cursor_ok c → parseCursor s (makeCursor s c) = Some c) ∧
  (∀ token c, parseCursor s token = Some c →
     slen token ≤ OpaqueReferenceMaxBytes ∧ pc_ID c ≠ "" ∧ 0 < pc_Offset c ∧ 0 < pc_Limit c ≤ DescribeLimitMax ∧
     ∃ encoded mac payload, token = token_prefix "describe" encoded +:+ ":" +:+ mac ∧
       RawURLDecode encoded = Some payload ∧ decode_cursor payload = Some c ∧
       RawURLDecode mac = Some (hmac_sha256 (ps_key s) (to_bytes (token_prefix "describe" encoded)))).
Proof.
  split; [intros c; apply parseCursor_make|]. intros token c. unfold parseCursor.
  destruct (_ >? _) eqn:Hlen; [done|]. destruct (unseal "describe" (ps_key s) token) as [payload|] eqn:Hu; [|done].
  cbn [mbind option_bind]. destruct (decode_cursor payload) as [c'|] eqn:Hd; [|done]. cbn [mbind option_bind].
  destruct (_ || _) eqn:Hb; [done|]. intros [= ->]. bool_hyps.
  apply unseal_inv in Hu as (encoded & mac & -> & He & Hm).
  split; [done|]. split; [by apply String.eqb_neq|]. split; [done|]. split; [done|].
  by exists encoded, mac, payload.
Qed.

(** [BuildProjection] returns exactly the sections asked for, each sorted
    by identifier, with their counts, in canonical order whatever the order
    of the request; a request is refused, as invalid, exactly when it names
    no section, an unknown one, or one twice. *)
Theorem BuildProjection_sections rec include :
  match BuildProjection (Some rec) include with
  | Ok p =>
      valid_include include ∧ pj_Include p = filter (.∈ include) sections ∧
      pj_CapabilityID p = md_ID (rec_metadata rec) ∧ pj_ManifestSHA256 p = rec_manifestDigest rec ∧
      pj_Skills p = selected include DescribeSkills (sort_by sk_ID (map describe_skill (rec_skills rec))) ∧
      pj_Operations p = selected include DescribeOperations (map describe_operation (rec_operations rec)) ∧
      pj_References p = selected include DescribeReferences
        (sort_by rd_ID (map context_reference (rec_context rec) ++ flat_map skill_references (rec_skills rec))) ∧
      pj_Counts p = mkCounts (zlen (pj_Skills p)) (zlen (pj_Operations p)) (zlen (pj_References p)) ∧
      pj_bytes p = marshal_size (serializable p)
  | Err e => ¬ valid_include include ∧ invalid_request e
  end.
Proof.
  unfold BuildProjection. pose proof (normalizeIncludes_spec include) as Hn.
  destruct (normalizeIncludes include) as [l|e]; cbn [rbind]; [|done]. destruct Hn as [Hv ->].
  split; [done|]. unfold selected, sections. rewrite !filter_cons, filter_nil. repeat case_decide; done.
Qed.

(** The store's own cursor, while its projection is kept, answers the page
    at its offset and renews the idle deadline; it is refused as stale from
    the moment the idle or the absolute deadline passes, refused when the
    limit is changed, and fails otherwise only on an item that is too large. *)
Theorem describe_cursor_page s c e limit now :
  ps_closed s = false → cursor_ok c → ps_entries s !! pc_ID c = Some e →
  pc_Offset c < projectionItemCount (pe_projection e) →
  let swept := sweepLocked s now in
  cursorPage s (makeCursor s c) limit now =
    if negb (pc_Limit c =? limit) then (s, Err ErrDescribeCursorInvalid)
    else if Z.min (pe_idleUntil e) (pe_created e + pl_Absolute (ps_limits s)) <=? now
    then (swept, Err ErrDescribeCursorStale)
    else match boundedPage swept (pe_projection e) (pc_Offset c) limit (pc_ID c) with
         | Ok (r, _) =>
             (with_entries swept (<[pc_ID c := mkProjectionEntry (pe_projection e) (pe_created e)
                (now + pl_Idle (ps_limits s))]> (ps_entries swept)) (ps_bytes swept), Ok r)
         | Err err => (swept, Err ErrServiceQuota)
         end.
Proof.
  intros Hopen Hc He Hoff swept. unfold cursorPage. rewrite parseCursor_make by done.
  destruct (Z.eqb_spec (pc_Limit c) limit) as [<-|]; [|done]. rewrite Hopen. cbn [negb]. fold swept.
  pose proof (sweep_lookup s now (pc_ID c)) as Hs. fold swept in Hs.
  assert (expires s e = Z.min (pe_idleUntil e) (pe_created e + pl_Absolute (ps_limits s))) as Hex by apply minTime_min.
  destruct (Z.leb_spec (Z.min (pe_idleUntil e) (pe_created e + pl_Absolute (ps_limits s))) now).
  - destruct (ps_entries swept !! pc_ID c) as [e'|] eqn:He'; [|done]. destruct (proj1 (Hs e') eq_refl). simplify_eq. lia.
  - rewrite (proj2 (Hs e)) by (split; [done|lia]). destruct (co_offset c Hc) as [Hco _].
    rewrite (proj2 (Z.leb_gt (pc_Offset c) 0)) by lia. rewrite Z.geb_leb, (proj2 (Z.leb_gt _ _)) by done. cbn [orb].
    pose proof (boundedPage_correct swept (pe_projection e) (pc_Offset c) (pc_Limit c) (pc_ID c)) as Hsp.
    destruct (boundedPage _ _ _ _ _) as [[r n]|err]; [|].
    + by assert (ps_limits swept = ps_limits s) as -> by apply sweep_fields.
    + destruct Hsp as [[? _]|(_ & -> & _)]; [destruct (co_limit c Hc); lia..|done].
Qed.

(** ** Witnesses *)

Definition demo_key : bytes := repeat (Z_byte 7) 32.
Definition demo_store : ProjectionStore := mkProjectionStore DefaultProjectionLimits demo_key false ∅ 0.
Definition demo_op (id : string) : Operation := mkOperation id "An operation" "main" id.
Definition demo_capability : CapRecord :=
  mkRecord (mkMetadata "everything.echo" "Echo" "1.0.0" "Echoes" []) "everything" "00" []
    [demo_op "echo"; demo_op "ping"] [] [] ∅ None.
Definition demo_projection : Projection :=
  match BuildProjection (Some demo_capability) [DescribeOperations] with
  | Ok p => p
  | Err _ => mkProjection "" "" "" "" "" [] (mkCounts 0 0 0) [] [] [] 0
  end.
Definition demo_draw : bytes := repeat (Z_byte 1) 16.
Definition no_response : DescribeResponse :=
  mkDescribeResponse "" "" "" "" "" [] (mkCounts 0 0 0) [] [] [] "".
Definition response_of (x : ProjectionStore * result error DescribeResponse) : DescribeResponse :=
  match x.2 with Ok r => r | Err _ => no_response end.

Definition demo_first := firstPage demo_store demo_projection 1 1000 [Some demo_draw].
Definition demo_second := cursorPage demo_first.1 (dr_NextCursor (response_of demo_first)) 1 2000.
Definition demo_cursor : projectionCursor := mkProjectionCursor (RawURLEncode demo_draw) 1 1.

Lemma response_of_eq x :
  match x.2 with Ok _ => true | Err _ => false end = true → x = (x.1, Ok (response_of x)).
Proof. destruct x as [s [r|e]]; done. Qed.

Lemma demo_store_reachable : preachable demo_store.
Proof. exists demo_store. split; [by exists DefaultProjectionLimits, demo_key|done]. Qed.

Lemma demo_built : built demo_projection.
Proof. by exists (Some demo_capability), [DescribeOperations]. Qed.

Lemma demo_draws : draws_ok [Some demo_draw].
Proof. intros b [[= ->]|H]%elem_of_cons; [done|]. by apply not_elem_of_nil in H. Qed.

Lemma demo_cursor_ok : cursor_ok demo_cursor.
Proof. split; [by exists demo_draw|by vm_compute..]. Qed.

Lemma demo_follows : follows 1 demo_first.1 (response_of demo_first) [response_of demo_first; response_of demo_second].
Proof.
  apply (follows_more 1 _ demo_first.1 demo_second.1 demo_cursor 2000 _ (response_of demo_second)).
  - apply String.eqb_neq. by vm_compute.
  - by vm_compute.
  - done.
  - apply response_of_eq. by vm_compute.
  - apply follows_last. by vm_compute.
Qed.

Lemma demo_first_reachable : preachable demo_first.1.
Proof.
  exists demo_store. split; [by exists DefaultProjectionLimits, demo_key|]. apply rtc_once.
  exists (PFirst demo_projection 1 1000 [Some demo_draw]). split; [|done].
  split; [apply demo_built|]. split; [done|apply demo_draws].
Qed.

Lemma projection_store_accounting_witness : size (ps_entries demo_first.1) = 1%nat ∧ pstore_inv demo_first.1.
Proof. split; [by vm_compute|]. apply (projection_store_accounting demo_first.1). apply demo_first_reachable. Defined.

Lemma describe_page_witness :
  0 ≤ 0 ∧ 0 < 1 ∧ bounded_page_spec demo_store demo_projection 0 1 "" (boundedPage demo_store demo_projection 0 1 "").
Proof. split; [done|]. split; [done|]. apply (describe_page demo_store demo_projection 0 1 ""); done. Defined.

Lemma describe_enumerates_witness :
  mjoin (map response_items [response_of demo_first; response_of demo_second]) = items demo_projection.
Proof.
  apply (describe_enumerates demo_store demo_projection 1 1000 [Some demo_draw] demo_first.1 (response_of demo_first)).
  - apply demo_store_reachable.
  - apply demo_built.
  - done.
  - apply demo_draws.
  - apply response_of_eq. by vm_compute.
  - apply demo_follows.
Defined.

Definition demo_entry : projectionEntry := mkProjectionEntry demo_projection 1000 (1000 + 5 * Minute).
Definition demo_kept : ProjectionStore :=
  with_entries demo_store {[RawURLEncode demo_draw := demo_entry]} (pj_bytes demo_projection).

Lemma describe_cursor_page_witness :
  cursorPage demo_kept (makeCursor demo_kept demo_cursor) 1 (1000 + 5 * Minute) =
  (sweepLocked demo_kept (1000 + 5 * Minute), Err ErrDescribeCursorStale).
Proof.
  rewrite (describe_cursor_page demo_kept demo_cursor demo_entry 1 (1000 + 5 * Minute)); [done|done| | |done].
  - apply demo_cursor_ok.
  - apply lookup_insert_eq.
Defined.
