(* ===== verification/Catalog.v ===== *)
(** * The catalog

    Models [internal/capability/catalog.go]: a search together with one page
    of the children of a hierarchy path, continued by authenticated cursors
    that are bound to the path and to the registry's revision. *)
From stdpp Require Import relations.
From Stdlib Require Import Ascii String.
From S2P Require Import Prelude GoStrings Limits Sha256 Regex Utf8 Base64 Json Cursor Text SnapshotService Records Registry RegistrySteps Search Describe.
Local Open Scope string_scope.
Local Open Scope list_scope.
Local Open Scope Z_scope.

(** ** Data *)

(** [Catalog], without its registry, which is an argument. *)
Record Catalog := mkCatalog { ct_key : bytes }.

Definition newCatalog (key : option bytes) : result error Catalog :=
  match key with
  | None => Err (Errorf "initialize catalog cursor key: %w" [])
  | Some key => Ok (mkCatalog key)
  end.

Record CatalogSearchRequest := mkCatalogRequest {
  cq_Query : string; cq_Path : string; cq_Limit : Z; cq_ChildLimit : Z; cq_ChildCursor : string }.
Record CatalogSearchResponse := mkCatalogResponse {
  cp_RankingVersion : string; cp_Results : list SearchResult; cp_Path : string;
  cp_Children : list HierarchyEntry; cp_TotalChildren : Z; cp_NextChildCursor : string }.
Record catalogCursor := mkCatalogCursor { cc_Path : string; cc_Revision : Z; cc_Offset : Z }.

(** ** JSON *)

Definition card_json (c : CapabilityCard) : json :=
  JObj [("id", JStr (cd_ID c)); ("name", JStr (cd_Name c)); ("version", JStr (cd_Version c));
        ("description", JStr (cd_Description c)); ("path", JStr (cd_Path c));
        ("tags", nil_list (map JStr (cd_Tags c))); ("counts", counts_json (cd_Counts c))].
Definition result_json (r : SearchResult) : json :=
  JObj [("card", card_json (rs_Card r)); ("score", JInt (rs_Score r)); ("match_kind", JStr (rs_MatchKind r));
        ("matched_field", JStr (rs_MatchedField r)); ("reason", JStr (rs_Reason r))].
(** [HierarchyEntry] has no field tags. *)
Definition entry_json (e : HierarchyEntry) : json :=
  JObj [("Path", JStr (he_Path e)); ("CapabilityID", JStr (he_CapabilityID e)); ("Name", JStr (he_Name e));
        ("Description", JStr (he_Description e)); ("Operations", JInt (he_Operations e))].
Definition catalog_response_json (r : CatalogSearchResponse) : json :=
  JObj ([("ranking_version", JStr (cp_RankingVersion r)); ("results", JArr (map result_json (cp_Results r)));
         ("path", JStr (cp_Path r)); ("children", nil_list (map entry_json (cp_Children r)));
         ("total_children", JInt (cp_TotalChildren r))]
        ++ omit_string "next_child_cursor" (cp_NextChildCursor r)).

(** ** Cursors *)

Definition child_cursor_payload (c : catalogCursor) : bytes :=
  Marshal (JObj [("p", JStr (cc_Path c)); ("r", JInt (cc_Revision c)); ("o", JInt (cc_Offset c))]).
Definition makeCursor (c : Catalog) (cursor : catalogCursor) : string :=
  seal "catalog" (ct_key c) (child_cursor_payload cursor).

Definition decode_child_cursor (payload : bytes) : option catalogCursor :=
  v ← parse payload; ms ← as_members v;
  p ← field decode_string "p" ms ""; r ← field decode_uint64 "r" ms 0; o ← field decode_int "o" ms 0;
  Some (mkCatalogCursor p r o).

Definition parseCursor (c : Catalog) (token : string) : option catalogCursor :=
  payload ← unseal "catalog" (ct_key c) token;
  cursor ← decode_child_cursor payload;
  if cc_Offset cursor <? 0 then None else Some cursor.

(** ** Search *)

Section catalog.
Context `{TextOps} `{UnicodeTables} {W : Type} `{SnapshotOps W}.
Implicit Types g : RState W.

Definition slashless (path : string) : string := if String.eqb path "/" then "" else path.

(** The cursor a request continues: its revision, if any, and its offset. *)
Definition request_cursor (c : Catalog) (request : CatalogSearchRequest) : result error (option Z * Z) :=
  if String.eqb (cq_ChildCursor request) "" then Ok (None, 0)
  else if slen (cq_ChildCursor request) >? OpaqueReferenceMaxBytes then Err ErrCatalogCursorInvalid
  else match parseCursor c (cq_ChildCursor request) with
       | None => Err ErrCatalogCursorInvalid
       | Some cursor =>
           if negb (String.eqb (cc_Path cursor) (slashless (cq_Path request))) || (cc_Offset cursor <? 0)
           then Err ErrCatalogCursorInvalid
           else Ok (Some (cc_Revision cursor), cc_Offset cursor)
       end.

(** [end := offset + request.ChildLimit], computed at 64 bits and clipped. *)
Definition page_end (offset limit count : Z) : Z :=
  let e := wrap64 (offset + limit) in if e >? count then count else e.

Definition catalog_Search (order : list (string * nat)) (c : Catalog) g (request : CatalogSearchRequest) :
    result error CatalogSearchResponse :=
  fail_if (cq_ChildLimit request <? 0) || (cq_ChildLimit request >? SearchLimitMax)
    with Wrapf "%w: child_limit must be between 0 and %d" [FInt SearchLimitMax] ErrSearchLimitInvalid else
  let path := slashless (cq_Path request) in
  let! '(expectedRevision, offset) := request_cursor c request in
  match searchAndBrowse order g (mkSearchRequest (cq_Query request) path (cq_Limit request)) expectedRevision with
  | (_, _, _, Some e) => Err e
  | (search, view, revision, None) =>
      let count := zlen (hv_Children view) in
      fail_if offset >? count with ErrCatalogCursorInvalid else
      let end_ := page_end offset (cq_ChildLimit request) count in
      let next := if (cq_ChildLimit request >? 0) && (end_ <? count)
                  then makeCursor c (mkCatalogCursor path revision end_) else "" in
      let response := mkCatalogResponse (rp_RankingVersion search) (rp_Results search) (hv_Path view)
                        (take (Z.to_nat (end_ - offset)) (drop (Z.to_nat offset) (hv_Children view))) count next in
      fail_if marshal_size (catalog_response_json response) >? BrokerResponseMaxBytes with ErrServiceQuota else
      Ok response
  end.
End catalog.

(** ** Lemmas: identifiers are plain text *)

Lemma id_char_plain a : id_char a = true → plain_char a = true.
Proof. intros Ha. apply token_char_plain. unfold token_char, build_char. by rewrite Ha. Qed.

Lemma mjoin_Forall {A} (P : A → Prop) (ls : list (list A)) : Forall (Forall P) ls → Forall P (mjoin ls).
Proof. induction 1; [constructor|]. by apply Forall_app. Qed.

Lemma capabilityID_plain s : MatchString capabilityIDPattern s = true → plain s.
Proof.
  rewrite capabilityIDPattern_spec. intros Hl. unfold plain. rewrite <-(Join_Split s "."%char).
  pose proof (Split_ne_nil s "."%char). destruct (Split s "."%char) as [|p l]; [done|].
  rewrite to_bytes_Join. apply Forall_cons in Hl as [Hp Hl].
  assert (∀ p, local_id (to_bytes p) → Forall (λ a, plain_char a = true) (to_bytes p)) as Hid.
  { intros q [Hq _]. eapply Forall_impl; [done|]. intros a. apply id_char_plain. }
  apply Forall_app. split; [by apply Hid|]. apply mjoin_Forall, Forall_fmap.
  eapply Forall_impl; [done|]. intros q Hq. constructor; [done|by apply Hid].
Qed.

(** ** Lemmas: cursors *)

(** The cursors a search makes: its path has been checked. *)
Record child_cursor_ok (c : catalogCursor) : Prop := {
  cco_path : plain (cc_Path c) ∧ slen (cc_Path c) ≤ MaxHierarchyPathBytes;
  cco_revision : 0 ≤ cc_Revision c < 2 ^ 64;
  cco_offset : 0 ≤ cc_Offset c ≤ MaxInt64;
}.

Lemma decode_child_cursor_payload c : child_cursor_ok c → decode_child_cursor (child_cursor_payload c) = Some c.
Proof.
  destruct c as [p r o]. intros [[Hp _] Hr Ho]. simpl in *. unfold decode_child_cursor, child_cursor_payload.
  cbn [cc_Path cc_Revision cc_Offset]. rewrite parse_flat.
  - cbn [as_members mbind option_bind].
    assert (decode_uint64 (JInt r) = Some r) as Hdr by (apply decode_integer_JInt; lia).
    assert (decode_int (JInt o) = Some o) as Hdo by (apply decode_integer_JInt; unfold MinInt64, MaxInt64 in *; lia).
    unfold JInt in *. set (vo := FormatInt o) in *. set (vr := FormatInt r) in *.
    cbn [field]. repeat match goal with |- context [names_match ?a ?b] =>
      let v := eval vm_compute in (names_match a b) in change (names_match a b) with v end.
    cbn [decode_string mbind option_bind field]. by rewrite Hdr, Hdo.
  - apply Forall_cons; split; [split; [by repeat constructor|exact Hp]|].
    apply Forall_cons; split; [split; [by repeat constructor|by exists r]|].
    apply Forall_cons; split; [split; [by repeat constructor|by exists o]|]. constructor.
Qed.

Lemma child_cursor_size c : child_cursor_ok c → zlen (child_cursor_payload c) ≤ 1000.
Proof.
  destruct c as [p r o]. intros [[Hp Hlen] Hr Ho]. simpl in *. unfold child_cursor_payload.
  change (marshal_size (JObj [("p", JStr p); ("r", JInt r); ("o", JInt o)]) ≤ 1000).
  etrans; [apply object_size|]. unfold members_size, marshal_size, Marshal, JInt. cbn [foldr fst snd render].
  change (zlen (render_string "p")) with 3. change (zlen (render_string "r")) with 3. change (zlen (render_string "o")) with 3.
  rewrite render_plain_size by done. rewrite !slen_to_bytes.
  assert (slen (FormatInt r) ≤ 20) by (apply slen_FormatInt; lia).
  assert (slen (FormatInt o) ≤ 19) by (apply slen_FormatInt; unfold MaxInt64 in *; lia).
  unfold MaxHierarchyPathBytes in *. lia.
Qed.

Lemma child_cursor_token c cursor :
  child_cursor_ok cursor →
  slen (makeCursor c cursor) ≤ OpaqueReferenceMaxBytes ∧ makeCursor c cursor ≠ "" ∧
  parseCursor c (makeCursor c cursor) = Some cursor.
Proof.
  intros Hc. pose proof (child_cursor_size cursor Hc) as Hsz. pose proof (zlen_nonneg (child_cursor_payload cursor)).
  assert (slen (makeCursor c cursor) = 7 + (zlen (child_cursor_payload cursor) * 4 + 2) / 3 + 48) as Hs by apply slen_seal.
  assert (0 ≤ (zlen (child_cursor_payload cursor) * 4 + 2) / 3 ≤ 1400) by (Z.to_euclidean_division_equations; lia).
  split; [rewrite Hs; unfold OpaqueReferenceMaxBytes; lia|]. split.
  { intros He. rewrite He in Hs. change (slen "") with 0 in Hs. lia. }
  unfold parseCursor, makeCursor. rewrite unseal_seal by done. cbn [mbind option_bind].
  rewrite decode_child_cursor_payload by done. cbn [mbind option_bind].
  rewrite (proj2 (Z.ltb_ge (cc_Offset cursor) 0)); [done|]. destruct Hc; lia.
Qed.

(** ** Lemmas: revisions *)

Section revisions.
Context {W : Type} `{SnapshotOps W} `{!SnapshotLaws W}.
Implicit Types g : RState W.

(** Nothing a listing shows has changed. *)
Record same_catalog g g' : Prop := {
  sc_entries : r_entries (g_reg g') = r_entries (g_reg g);
  sc_nodes : r_nodes (g_reg g') = r_nodes (g_reg g);
  sc_revision : r_revision (g_reg g') = r_revision (g_reg g);
  sc_closed : r_closed (g_reg g') = r_closed (g_reg g);
}.

Lemma same_catalog_reg g g' : g_reg g' = g_reg g → same_catalog g g'.
Proof. intros Hr. split; by rewrite Hr. Qed.

(** One step leaves the catalog alone, counts a revision or closes it. *)
Definition revised g g' : Prop :=
  same_catalog g g' ∨
  (r_closed (g_reg g') = r_closed (g_reg g) ∧ r_revision (g_reg g') = wrapU64 (r_revision (g_reg g) + 1)) ∨
  r_closed (g_reg g') = true.

Lemma retire_reg g a : g_reg (retireLocked g a) = g_reg g.
Proof. unfold retireLocked. destruct (g_heap g !! a); [|done]. cbn zeta. by destruct (_ =? 0). Qed.

Lemma release_reg g a : g_reg (release g a) = g_reg g.
Proof.
  unfold release. destruct (g_heap g !! a); [|done]. destruct (_ <=? 0); [done|]. cbn zeta. by destruct (_ && _).
Qed.

Lemma ResolveOperation_reg g id o : g_reg (ResolveOperation g id o).1 = g_reg g.
Proof.
  unfold ResolveOperation. destruct (r_closed _); [done|]. destruct (live_entry g id) as [[a x]|]; [|done].
  by destruct (find_target _ _ _).
Qed.

Lemma reg_step_revised g g' : reg_step g g' → revised g g'.
Proof.
  intros (a & _ & ->). destruct a as [r|r|id|id|id o|order p|l|order|w]; simpl.
  - unfold Add, addLocked. destruct (r_closed (g_reg g)) eqn:Hc; [by left|].
    destruct (usable r); [|by left]. destruct (r_entries (g_reg g) !! _); [by left|]. right. left. simpl. by rewrite Hc.
  - unfold Reinstall. destruct (usable r); [|by left]. destruct (r_closed (g_reg g)) eqn:Hc; [by left|].
    destruct (r_entries (g_reg g) !! _); [|by left]. right. left. simpl. rewrite retire_reg. simpl. by rewrite Hc.
  - unfold Uninstall. destruct (r_closed (g_reg g)) eqn:Hc; [by left|].
    destruct (r_entries (g_reg g) !! _); [|by left]. right. left. simpl. rewrite retire_reg. simpl. by rewrite Hc.
  - left. apply same_catalog_reg. unfold Lookup. destruct (r_closed _); [done|]. by destruct (live_entry g id) as [[a x]|].
  - left. apply same_catalog_reg, ResolveOperation_reg.
  - left. apply same_catalog_reg. unfold ResolveToolPath. destruct (tool_plan _ _ _) as [[id o]|]; [|done].
    apply ResolveOperation_reg.
  - left. apply same_catalog_reg. unfold lease_Release. destruct (g_leases g !! l); [|done].
    destruct (ls_once _); [done|]. by rewrite release_reg.
  - unfold closeLocked. destruct (r_closed (g_reg g)) eqn:Hc; [by left|]. right. by right.
  - by left.
Qed.

Lemma closed_forever g g' : reg_step g g' → r_closed (g_reg g) = true → r_closed (g_reg g') = true.
Proof. intros [[_ _ _ ->]|[[-> _]|]]%reg_step_revised; done. Qed.

(** Over [n] steps an open catalog has counted at most [n] revisions, and is
    unchanged if it has counted none. *)
Lemma nsteps_revised n g g' :
  0 ≤ r_revision (g_reg g) < 2 ^ 64 →
  nsteps reg_step n g g' →
  r_closed (g_reg g') = true ∨
  ∃ k, 0 ≤ k ≤ Z.of_nat n ∧ r_revision (g_reg g') = wrapU64 (r_revision (g_reg g) + k) ∧ (k = 0 → same_catalog g g').
Proof.
  intros Hrev Hn. induction Hn as [g|n g g1 g2 Hstep Hn IH].
  { right. exists 0. split; [lia|]. split; [|done]. unfold wrapU64. rewrite Z.add_0_r, Z.mod_small by lia. done. }
  pose proof (reg_step_revised _ _ Hstep) as [Hsame|[[_ Hr]|Hc]].
  - destruct (IH ltac:(by rewrite (sc_revision _ _ Hsame))) as [|(k & Hk & Hr & H0)]; [by left|]. right. exists k.
    split; [lia|]. rewrite <-(sc_revision _ _ Hsame). split; [done|]. intros Hk0. destruct (H0 Hk0), Hsame.
    split; congruence.
  - destruct IH as [|(k & Hk & Hr' & H0)]; [rewrite Hr; unfold wrapU64; apply Z.mod_pos_bound; lia|by left|].
    right. exists (k + 1). split; [lia|]. split; [|lia]. rewrite Hr', Hr. unfold wrapU64.
    rewrite Zplus_mod_idemp_l. f_equal. lia.
  - left. clear IH Hstep Hrev g. induction Hn as [|n g1 g2 g3 H12 _ IH]; [done|]. apply IH. by eapply closed_forever.
Qed.

(** A reachable registry's revision is a [uint64]. *)
Lemma revision_range g : reg_reachable g → 0 ≤ r_revision (g_reg g) < 2 ^ 64.
Proof.
  intros (g0 & Hg0 & Hr). assert (0 ≤ r_revision (g_reg g0) < 2 ^ 64) as H0 by (by rewrite (initial_revision _ Hg0)).
  revert H0 Hr. clear. intros H0 Hr. revert H0. induction Hr as [|x y z Hxy Hyz IH]; [done|].
  intros Hx. apply IH. assert (0 ≤ r_revision (g_reg y) < 2 ^ 64 ∨ ¬ 0 ≤ r_revision (g_reg y) < 2 ^ 64) as [|Hn] by lia; [done|].
  destruct Hxy as (a & _ & ->). exfalso. apply Hn. clear Hn Hyz IH.
  assert (∀ z, 0 ≤ wrapU64 z < 2 ^ 64) as Hw by (intros; unfold wrapU64; apply Z.mod_pos_bound; lia).
  destruct a as [r|r|id|id|id o|order p|l|order|w]; simpl.
  - unfold Add, addLocked. destruct (r_closed (g_reg x)); [done|]. destruct (usable r); [|done].
    destruct (r_entries (g_reg x) !! _); [done|]. apply Hw.
  - unfold Reinstall. destruct (usable r); [|done]. destruct (r_closed (g_reg x)); [done|].
    destruct (r_entries (g_reg x) !! _); [|done]. simpl. apply Hw.
  - unfold Uninstall. destruct (r_closed (g_reg x)); [done|]. destruct (r_entries (g_reg x) !! _); [|done]. simpl. apply Hw.
  - unfold Lookup. destruct (r_closed _); [done|]. by destruct (live_entry x id) as [[a y]|].
  - by rewrite ResolveOperation_reg.
  - unfold ResolveToolPath. destruct (tool_plan _ _ _) as [[id o]|]; [|done]. by rewrite ResolveOperation_reg.
  - unfold lease_Release. destruct (g_leases x !! l); [|done]. destruct (ls_once _); [done|]. by rewrite release_reg.
  - unfold closeLocked. by destruct (r_closed (g_reg x)).
  - done.
Qed.

(** An unchanged catalog lists the same children. *)
Lemma same_view g g' path :
  reg_inv g → grows g g' → same_catalog g g' → browseLocked g' path = browseLocked g path.
Proof.
  intros Hg Hgr Hs. unfold browseLocked. rewrite (sc_nodes _ _ Hs). destruct (r_nodes (g_reg g) !! path) as [node|]; [|done].
  do 2 f_equal. apply map_ext. intros child. unfold browse_child. rewrite (sc_nodes _ _ Hs), (sc_entries _ _ Hs).
  set (id := hn_capabilityID _). destruct (String.eqb id ""); [done|].
  destruct (r_entries (g_reg g) !! id) as [a|] eqn:Ha; [|done].
  destruct Hg as [(E & Hh & He) _ _]. apply He in Ha as (_ & x & Hx & _).
  destruct (gr_records _ _ Hgr _ _ Hx) as (x' & Hx' & Hrec). by rewrite Hx, Hx', Hrec.
Qed.
End revisions.

(** ** Lemmas: pages *)

Section pages.
Context `{TextOps} `{UnicodeTables} {W : Type} `{SnapshotOps W} `{!SnapshotLaws W}.
Implicit Types g : RState W.

(** What a successful search answers: a window of the children of its path. *)
Record catalog_page (c : Catalog) g (path : string) (revision : option Z) (offset limit : Z)
    (view : HierarchyView) (r : CatalogSearchResponse) : Prop := {
  cpg_open : r_closed (g_reg g) = false;
  cpg_path : plain path ∧ slen path ≤ MaxHierarchyPathBytes;
  cpg_limit : 0 ≤ limit ≤ SearchLimitMax;
  cpg_revision : ∀ n, revision = Some n → n = r_revision (g_reg g);
  cpg_view : browseLocked g path = Ok view;
  cpg_offset : 0 ≤ offset ≤ zlen (hv_Children view);
  cpg_response : cp_Path r = hv_Path view ∧ cp_TotalChildren r = zlen (hv_Children view);
  cpg_children : cp_Children r =
    take (Z.to_nat (page_end offset limit (zlen (hv_Children view)) - offset)) (drop (Z.to_nat offset) (hv_Children view));
  cpg_next : cp_NextChildCursor r =
    if (limit >? 0) && (page_end offset limit (zlen (hv_Children view)) <? zlen (hv_Children view))
    then makeCursor c (mkCatalogCursor path (r_revision (g_reg g)) (page_end offset limit (zlen (hv_Children view)))) else "";
}.

Lemma parseCursor_offset c token cursor : parseCursor c token = Some cursor → 0 ≤ cc_Offset cursor.
Proof.
  unfold parseCursor. destruct (unseal _ _ _); [|done]. cbn [mbind option_bind].
  destruct (decode_child_cursor _); [|done]. cbn [mbind option_bind]. destruct (_ <? 0) eqn:Ho; [done|]. intros [= ->]. by bool_hyps.
Qed.

Lemma request_cursor_offset c request revision offset :
  request_cursor c request = Ok (revision, offset) → 0 ≤ offset.
Proof.
  unfold request_cursor. destruct (String.eqb _ _); [by intros [= _ <-]|]. destruct (_ >? _); [done|].
  destruct (parseCursor _ _) as [cursor|] eqn:Hc; [|done]. destruct (_ || _); [done|]. intros [= _ <-].
  by apply parseCursor_offset in Hc.
Qed.

Lemma slashless_idem p : slashless (slashless p) = slashless p.
Proof. unfold slashless. by destruct (String.eqb p "/") eqn:Hp; rewrite ?Hp. Qed.

Lemma check_request_path request query path :
  check_request request = Ok (query, path) →
  path = slashless (sq_Path request) ∧ plain path ∧ slen path ≤ MaxHierarchyPathBytes.
Proof.
  unfold check_request. fold (slashless (sq_Path request)). intros Hc. inv_binds Hc. simplify_eq. bool_hyps.
  split; [done|]. split; [|done].
  match goal with Hm : (_ && _) = false |- _ => apply andb_false_iff in Hm as [He|Hm]; apply negb_false_iff in He || apply negb_false_iff in Hm end.
  - apply String.eqb_eq in He. rewrite He. constructor.
  - by apply capabilityID_plain.
Qed.

Lemma catalog_Search_page order c g request r :
  catalog_Search order c g request = Ok r →
  ∃ revision offset view, request_cursor c request = Ok (revision, offset) ∧
    catalog_page c g (slashless (cq_Path request)) revision offset (cq_ChildLimit request) view r.
Proof.
  unfold catalog_Search. intros Hs. apply guardE_Ok in Hs as [Hlim Hs]. apply rbind_Ok in Hs as ([revision offset] & Hcur & Hs).
  cbn beta iota in Hs. unfold searchAndBrowse in Hs.
  destruct (check_request _) as [[query path]|] eqn:Hc; [|done].
  apply check_request_path in Hc as (Hp & Hplain & Hlen). cbn [sq_Path] in Hp. rewrite slashless_idem in Hp. subst path.
  destruct (r_closed (g_reg g)) eqn:Hcl; [done|]. cbv zeta in Hs. destruct (match revision with Some _ => _ | None => _ end) eqn:Hst; [done|].
  destruct (browseLocked g _) as [view|] eqn:Hv; [|done]. exists revision, offset, view. split; [done|].
  assert (∃ results, (if offset >? zlen (hv_Children view) then Err ErrCatalogCursorInvalid else
     let response := mkCatalogResponse SearchRankingVersion results (hv_Path view)
        (take (Z.to_nat (page_end offset (cq_ChildLimit request) (zlen (hv_Children view)) - offset)) (drop (Z.to_nat offset) (hv_Children view)))
        (zlen (hv_Children view))
        (if (cq_ChildLimit request >? 0) && (page_end offset (cq_ChildLimit request) (zlen (hv_Children view)) <? zlen (hv_Children view))
         then makeCursor c (mkCatalogCursor (slashless (cq_Path request)) (r_revision (g_reg g))
                (page_end offset (cq_ChildLimit request) (zlen (hv_Children view)))) else "") in
     fail_if marshal_size (catalog_response_json response) >? BrokerResponseMaxBytes with ErrServiceQuota else Ok response) = Ok r) as (results & Hr).
  { unfold guardE in Hs |- *. destruct (_ || _) in Hs; eexists; exact Hs. }
  clear Hs. cbv zeta in Hr. destruct (offset >? _) eqn:Hoff; [done|].
  apply guardE_Ok in Hr as [_ Hr]. injection Hr as <-. apply orb_false_iff in Hlim as [Hl1 Hl2]. bool_hyps.
  split; try done.
  - intros n ->. apply negb_false_iff, Z.eqb_eq in Hst. done.
  - split; [by eapply request_cursor_offset|done].
Qed.

(** The window of a page, when the number of children leaves room for a page. *)
Lemma page_end_spec offset limit count :
  0 ≤ offset ≤ count → 0 ≤ limit ≤ SearchLimitMax → count ≤ MaxInt64 - SearchLimitMax →
  page_end offset limit count = Z.min (offset + limit) count.
Proof.
  intros Ho Hl Hc. unfold page_end. rewrite wrap64_id by (unfold int64_ok, MinInt64, MaxInt64, SearchLimitMax in *; lia).
  destruct (_ >? count) eqn:He; bool_hyps; lia.
Qed.

(** A client that follows the cursors it is given, with any query, limits and
    spelling of the path, while the registry makes any steps in between. *)
Inductive continues (c : Catalog) : RState W → CatalogSearchResponse → list CatalogSearchResponse → Prop :=
| continues_last g r : cp_NextChildCursor r = "" → continues c g r [r]
| continues_more g n g1 order request r r' rs :
    cp_NextChildCursor r ≠ "" →
    nsteps reg_step n g g1 → Z.of_nat n < 2 ^ 64 →
    cq_ChildCursor request = cp_NextChildCursor r → 0 < cq_ChildLimit request →
    catalog_Search order c g1 request = Ok r' →
    continues c g1 r' rs →
    continues c g r (r :: rs).

(** A revision that is seen again after fewer than 2^64 steps is the same. *)
Lemma same_revision n g g' :
  reg_reachable g → nsteps reg_step n g g' → Z.of_nat n < 2 ^ 64 →
  r_closed (g_reg g') = false → r_revision (g_reg g') = r_revision (g_reg g) → same_catalog g g'.
Proof.
  intros Hg Hn Hlt Hc Hr. pose proof (revision_range g Hg) as Hrg.
  destruct (nsteps_revised n g g' Hrg Hn) as [|(k & Hk & Hr' & Hsame)]; [congruence|].
  apply Hsame. rewrite Hr in Hr'. unfold wrapU64 in Hr'.
  assert (((r_revision (g_reg g) + k) mod 2 ^ 64) = r_revision (g_reg g)) as Hm by done.
  destruct (Z.lt_ge_cases (r_revision (g_reg g) + k) (2 ^ 64)).
  - rewrite Z.mod_small in Hm by lia. lia.
  - rewrite <-(Z.mod_unique_pos _ (2 ^ 64) 1 (r_revision (g_reg g) + k - 2 ^ 64)) in Hm by lia. lia.
Qed.

Lemma nsteps_reachable n g g' : reg_reachable g → nsteps reg_step n g g' → reg_reachable g'.
Proof. intros (g0 & Hi & Hr) Hn. exists g0. split; [done|]. etrans; [done|]. by apply (rtc_nsteps_2 n). Qed.

Lemma continues_children c g r rs :
  continues c g r rs → ∀ path revision offset limit view,
  reg_reachable g → catalog_page c g path revision offset limit view r → 0 < limit →
  zlen (hv_Children view) ≤ MaxInt64 - SearchLimitMax →
  mjoin (map cp_Children rs) = drop (Z.to_nat offset) (hv_Children view) ∧
  Forall (λ r, cp_Path r = hv_Path view ∧ cp_TotalChildren r = zlen (hv_Children view)) rs.
Proof.
  induction 1 as [g r Hlast|g n g1 order q r r' rs Hmore Hn Hlt Hcur Hpos Hq Hcont IH];
    intros path revision offset limit view Hreach Hpage Hlim Hmax.
  - split; [|constructor; [by eapply cpg_response|constructor]]. simpl. rewrite app_nil_r.
    rewrite (cpg_children _ _ _ _ _ _ _ _ Hpage). rewrite (cpg_next _ _ _ _ _ _ _ _ Hpage) in Hlast.
    pose proof (cpg_offset _ _ _ _ _ _ _ _ Hpage) as Ho. pose proof (cpg_limit _ _ _ _ _ _ _ _ Hpage) as Hl.
    pose proof (cpg_path _ _ _ _ _ _ _ _ Hpage) as Hpath.
    rewrite (page_end_spec _ _ _ Ho Hl Hmax) in *. apply take_ge. rewrite length_drop.
    destruct (Z.min (offset + limit) (zlen (hv_Children view)) <? zlen (hv_Children view)) eqn:He.
    + rewrite (proj2 (Z.gtb_lt limit 0)) in Hlast by lia. cbn [andb] in Hlast. exfalso. revert Hlast.
      refine (proj1 (proj2 (child_cursor_token c _ _))). split; cbn; [done|by apply revision_range|].
      bool_hyps. unfold SearchLimitMax in *. lia.
    + bool_hyps. unfold zlen in *. lia.
  - destruct (catalog_Search_page _ _ _ _ _ Hq) as (rev' & off' & view' & Hrc & Hpage').
    pose proof (cpg_offset _ _ _ _ _ _ _ _ Hpage) as Ho. pose proof (cpg_limit _ _ _ _ _ _ _ _ Hpage) as Hl.
    pose proof (cpg_path _ _ _ _ _ _ _ _ Hpage) as Hpath.
    pose proof (cpg_next _ _ _ _ _ _ _ _ Hpage) as Hnext. pose proof (cpg_children _ _ _ _ _ _ _ _ Hpage) as Hch.
    rewrite (page_end_spec _ _ _ Ho Hl Hmax) in *. rewrite (proj2 (Z.gtb_lt limit 0)) in Hnext by lia. cbn [andb] in Hnext.
    destruct (Z.ltb_spec (Z.min (offset + limit) (zlen (hv_Children view))) (zlen (hv_Children view))) as [Hend|]; [|done].
    rewrite Z.min_l in * by lia.
    set (cursor := mkCatalogCursor path (r_revision (g_reg g)) (offset + limit)) in *.
    assert (child_cursor_ok cursor) as Hok.
    { split; cbn; [done|by apply revision_range|]. unfold SearchLimitMax in *. lia. }
    destruct (child_cursor_token c cursor Hok) as (Hlen & Hne & Hparse).
    unfold request_cursor in Hrc. rewrite Hcur, Hnext in Hrc. rewrite (proj2 (String.eqb_neq _ _)) in Hrc by done.
    rewrite Z.gtb_ltb, (proj2 (Z.ltb_ge _ _)) in Hrc by done. rewrite Hparse in Hrc.
    destruct (_ || _) eqn:Hb in Hrc; [done|]. injection Hrc as <- <-. bool_hyps.
    match goal with Hp : String.eqb _ _ = true |- _ => apply String.eqb_eq in Hp; cbn in Hp; rewrite <-Hp in Hpage' end.
    assert (same_catalog g g1) as Hsame.
    { apply (same_revision n); [done..|by eapply cpg_open|]. symmetry. by eapply (cpg_revision _ _ _ _ _ _ _ _ Hpage'). }
    assert (view' = view) as ->.
    { pose proof (cpg_view _ _ _ _ _ _ _ _ Hpage') as Hv'. rewrite (same_view g g1) in Hv'.
      - pose proof (cpg_view _ _ _ _ _ _ _ _ Hpage). congruence.
      - by apply reg_reachable_inv.
      - apply reg_steps_grows. by apply (rtc_nsteps_2 n).
      - done. }
    destruct (IH _ _ _ _ _ (nsteps_reachable _ _ _ Hreach Hn) Hpage' Hpos Hmax) as [Hj Hf].
    split; [|constructor; [by eapply cpg_response|done]].
    change (cp_Children r ++ mjoin (map cp_Children rs) = drop (Z.to_nat offset) (hv_Children view)).
    rewrite Hj, Hch. cbn [cc_Offset cursor]. rewrite (Z2Nat.inj_add offset limit) by lia. rewrite <-drop_drop.
    replace (Z.to_nat (offset + limit - offset)) with (Z.to_nat limit) by lia. apply take_drop.
Qed.
End pages.

(** ** Properties *)

(** A client that follows the child cursors of a search lists the children
    of the path, as they were when it started, exactly once and in order:
    whatever the registry does between two pages, a page is only ever
    answered from that same listing, since a registry that published or
    retired anything in between refuses the cursor. *)
Theorem catalog_children_pages `{TextOps} `{UnicodeTables} {W} `{SnapshotOps W} `{!SnapshotLaws W}
    (c : Catalog) (g : RState W) order request r rs :
  reg_reachable g → cq_ChildCursor request = "" → 0 < cq_ChildLimit request →
  catalog_Search order c g request = Ok r → continues c g r rs →
  ∃ view, browseLocked g (slashless (cq_Path request)) = Ok view ∧
    (zlen (hv_Children view) ≤ MaxInt64 - SearchLimitMax →
     mjoin (map cp_Children rs) = hv_Children view ∧
     Forall (λ r, cp_Path r = hv_Path view ∧ cp_TotalChildren r = zlen (hv_Children view)) rs).
Proof.
  intros Hg Hc Hl Hs Hf. destruct (catalog_Search_page _ _ _ _ _ Hs) as (rev & off & view & Hrc & Hp).
  unfold request_cursor in Hrc. rewrite Hc in Hrc. injection Hrc as <- <-.
  exists view. split; [by eapply cpg_view|]. intros Hmax.
  by destruct (continues_children c g r rs Hf _ _ _ _ _ Hg Hp Hl Hmax).
Qed.

(** A child cursor continues only the catalog, path and revision it was made
    for: it is accepted only when it carries the HMAC of its payload under the
    catalog's key, refused as invalid for any other path, and as stale as soon
    as the registry's revision differs; only then is the path looked up. *)
Theorem catalog_continuation `{TextOps} `{UnicodeTables} {W} `{SnapshotOps W}
    (c : Catalog) (g : RState W) order cursor query path limit childLimit nq :
  child_cursor_ok cursor → 0 ≤ childLimit ≤ SearchLimitMax → r_closed (g_reg g) = false →
  check_request (mkSearchRequest query (slashless path) limit) = Ok nq →
  (∀ token cursor', parseCursor c token = Some cursor' →
     ∃ encoded mac payload, token = token_prefix "catalog" encoded +:+ ":" +:+ mac ∧
       RawURLDecode encoded = Some payload ∧ decode_child_cursor payload = Some cursor' ∧
       RawURLDecode mac = Some (hmac_sha256 (ct_key c) (to_bytes (token_prefix "catalog" encoded)))) ∧
  match catalog_Search order c g (mkCatalogRequest query path limit childLimit (makeCursor c cursor)) with
  | Ok r => cc_Path cursor = slashless path ∧ cc_Revision cursor = r_revision (g_reg g) ∧
      ∃ view, catalog_page c g (slashless path) (Some (cc_Revision cursor)) (cc_Offset cursor) childLimit view r
  | Err e =>
      (e = ErrCatalogCursorInvalid ∧
        (cc_Path cursor ≠ slashless path ∨
         ∃ view, browseLocked g (slashless path) = Ok view ∧ zlen (hv_Children view) < cc_Offset cursor)) ∨
      (e = ErrCatalogCursorStale ∧ cc_Revision cursor ≠ r_revision (g_reg g)) ∨
      e = ErrServiceQuota ∨ browseLocked g (slashless path) = Err e
  end.
Proof.
  intros Hok Hlim Hopen Hc. split.
  { intros token cursor' Hp. unfold parseCursor in Hp. destruct (unseal _ _ _) as [payload|] eqn:Hu; [|done].
    cbn [mbind option_bind] in Hp. destruct (decode_child_cursor payload) as [c'|] eqn:Hd; [|done]. cbn [mbind option_bind] in Hp.
    destruct (_ <? 0) in Hp; [done|]. injection Hp as <-. apply unseal_inv in Hu as (encoded & mac & -> & He & Hm).
    by exists encoded, mac, payload. }
  destruct (child_cursor_token c cursor Hok) as (Hlen & Hne & Hparse).
  assert (request_cursor c (mkCatalogRequest query path limit childLimit (makeCursor c cursor)) =
          if negb (String.eqb (cc_Path cursor) (slashless path)) then Err ErrCatalogCursorInvalid
          else Ok (Some (cc_Revision cursor), cc_Offset cursor)) as Hrc.
  { unfold request_cursor. cbn [cq_ChildCursor cq_Path]. rewrite (proj2 (String.eqb_neq _ _)) by done.
    rewrite Z.gtb_ltb, (proj2 (Z.ltb_ge _ _)) by done. rewrite Hparse.
    rewrite (proj2 (Z.ltb_ge (cc_Offset cursor) 0)), orb_false_r by (destruct Hok; lia). done. }
  destruct (catalog_Search order c g _) as [r|e] eqn:Hs.
  - destruct (catalog_Search_page _ _ _ _ _ Hs) as (rev & off & view & Hrc' & Hp). rewrite Hrc in Hrc'.
    destruct (String.eqb_spec (cc_Path cursor) (slashless path)); [|done]. injection Hrc' as <- <-.
    split; [done|]. split; [by apply (cpg_revision _ _ _ _ _ _ _ _ Hp)|]. by exists view.
  - revert Hs. unfold catalog_Search. rewrite Hrc. cbn [cq_ChildLimit cq_Path cq_Query cq_Limit].
    rewrite (proj2 (Z.ltb_ge childLimit 0)), Z.gtb_ltb, (proj2 (Z.ltb_ge SearchLimitMax childLimit)) by lia. cbn [orb guardE].
    destruct (String.eqb_spec (cc_Path cursor) (slashless path)) as [Hp|]; cbn [negb rbind]; [|intros [= <-]; auto].
    unfold searchAndBrowse. rewrite Hc. destruct nq as [q p]. apply check_request_path in Hc as (Hp' & _). cbn [sq_Path] in Hp'.
    rewrite slashless_idem in Hp'. subst p. rewrite Hopen. cbv zeta.
    destruct (Z.eqb_spec (cc_Revision cursor) (r_revision (g_reg g))); cbn [negb]; [|intros [= <-]; auto].
    destruct (browseLocked g (slashless path)) as [view|e'] eqn:Hv; [|intros [= <-]; auto 6].
    assert (∀ b1 b2 (r : CatalogSearchResponse), (b1 = true → zlen (hv_Children view) < cc_Offset cursor) →
      guardE b1 ErrCatalogCursorInvalid (guardE b2 ErrServiceQuota (Ok r)) = Err e →
      e = ErrCatalogCursorInvalid ∧ zlen (hv_Children view) < cc_Offset cursor ∨ e = ErrServiceQuota) as Hq'.
    { intros [] [] r Hb; cbn [guardE]; intros [= <-]; auto. }
    assert ((cc_Offset cursor >? zlen (hv_Children view)) = true → zlen (hv_Children view) < cc_Offset cursor) as Hgt
      by (intros; by bool_hyps).
    destruct (_ || _); intros Hs; apply Hq' in Hs as [[-> ?]| ->]; auto 6; left; eauto.
Qed.

(** ** Witnesses *)

#[local] Existing Instance ascii_text.
#[local] Existing Instance ascii_tables.

(** A registry of two capabilities, and a client that lists them one by one. *)
Definition pair_w : Snapshot.World :=
  Snapshot.exec (Snapshot.exec light_w Snapshot.ABegin) (Snapshot.ACommit 1 []).
Definition pair_record (name : string) (snapshot : nat) : CapRecord :=
  mkRecord (mkMetadata ("everything." +:+ name) name "1.0.0" "Echoes messages" []) "everything" ""
    [] [demo_operation] [] [demo_binding] ∅ (Some snapshot).
Definition pair_s0 : RState Snapshot.World := (NewRegistry pair_w []).1.
Definition pair_s1 := reg_exec pair_s0 (RAdd (Some (pair_record "echo" 0))).
Definition pair_s2 := reg_exec pair_s1 (RAdd (Some (pair_record "ping" 1))).
Definition pair_order := map_to_list (r_entries (g_reg pair_s2)).
Definition pair_catalog : Catalog := mkCatalog (repeat (Z_byte 3) 32).
Definition pair_request (cursor : string) : CatalogSearchRequest := mkCatalogRequest "echo" "everything" 10 1 cursor.
Definition pair_page (cursor : string) : CatalogSearchResponse :=
  match catalog_Search pair_order pair_catalog pair_s2 (pair_request cursor) with
  | Ok r => r
  | Err _ => mkCatalogResponse "" [] "" [] 0 ""
  end.
Definition pair_first := pair_page "".
Definition pair_second := pair_page (cp_NextChildCursor pair_first).
Definition pair_cursor : catalogCursor := mkCatalogCursor "everything" 2 1.

Lemma pair_w_ok : svc_ok pair_w.
Proof.
  exists Snapshot.DefaultStoreLimits. split; [done|]. apply Snapshot.inv_reachable; [done|]. unfold Snapshot.reachable.
  eapply rtc_l; [by exists Snapshot.ABegin|]. eapply rtc_l; [exists (Snapshot.ACommit 0 [])|].
  { split; [|done]. intros t Ht. vm_compute in Ht. injection Ht as <-. by vm_compute. }
  eapply rtc_l; [by exists Snapshot.ABegin|]. apply rtc_once. exists (Snapshot.ACommit 1 []).
  split; [|done]. intros t Ht. vm_compute in Ht. injection Ht as <-. by vm_compute.
Qed.

Lemma pair_s2_reachable : reg_reachable pair_s2.
Proof.
  exists pair_s0. split; [apply empty_initial, pair_w_ok|].
  eapply rtc_l; [|apply rtc_once].
  - exists (RAdd (Some (pair_record "echo" 0))). split; [|done]. split; [by vm_compute|]. intros r sn [= <-] [= <-].
    split; [by vm_compute|]. intros (a & g & Hg & _). change (g_heap pair_s0) with (∅ : gmap nat registryGeneration) in Hg.
    by rewrite lookup_empty in Hg.
  - exists (RAdd (Some (pair_record "ping" 1))). split; [|done]. split; [by vm_compute|]. intros r sn [= <-] [= <-].
    split; [by vm_compute|]. intros (a & g & Hg & _ & Hsn).
    assert (∃ g', g_heap pair_s1 = {[0%nat := g']} ∧ rec_snapshot (gen_record g') = Some 0%nat) as (g' & Hh & Hs0).
    { eexists. split; [reflexivity|reflexivity]. }
    change (g_heap pair_s1 !! a = Some g) in Hg. rewrite Hh in Hg. apply lookup_singleton_Some in Hg as [_ <-]. rewrite Hs0 in Hsn. done.
Qed.

Lemma pair_page_Ok cursor :
  match catalog_Search pair_order pair_catalog pair_s2 (pair_request cursor) with Ok _ => true | Err _ => false end = true →
  catalog_Search pair_order pair_catalog pair_s2 (pair_request cursor) = Ok (pair_page cursor).
Proof. unfold pair_page. by destruct (catalog_Search _ _ _ _). Qed.

Lemma pair_continues : continues pair_catalog pair_s2 pair_first [pair_first; pair_second].
Proof.
  apply (continues_more _ _ 0 pair_s2 pair_order (pair_request (cp_NextChildCursor pair_first)) _ pair_second).
  - apply String.eqb_neq. by vm_compute.
  - constructor.
  - done.
  - done.
  - done.
  - apply pair_page_Ok. by vm_compute.
  - apply continues_last. apply String.eqb_eq. by vm_compute.
Qed.

Lemma catalog_children_pages_witness :
  map (λ r, length (cp_Children r)) [pair_first; pair_second] = [1%nat; 1%nat] ∧
  ∃ view, browseLocked pair_s2 "everything" = Ok view ∧
    (zlen (hv_Children view) ≤ MaxInt64 - SearchLimitMax →
     mjoin (map cp_Children [pair_first; pair_second]) = hv_Children view ∧
     Forall (λ r, cp_Path r = hv_Path view ∧ cp_TotalChildren r = zlen (hv_Children view)) [pair_first; pair_second]).
Proof.
  split; [by vm_compute|].
  apply (catalog_children_pages pair_catalog pair_s2 pair_order (pair_request "") pair_first [pair_first; pair_second]).
  - apply pair_s2_reachable.
  - done.
  - done.
  - apply pair_page_Ok. by vm_compute.
  - apply pair_continues.
Defined.

Lemma catalog_continuation_witness :
  catalog_Search pair_order pair_catalog pair_s2 (pair_request (makeCursor pair_catalog pair_cursor)) = Ok pair_second ∧
  (∀ token cursor', parseCursor pair_catalog token = Some cursor' →
     ∃ encoded mac payload, token = token_prefix "catalog" encoded +:+ ":" +:+ mac ∧
       RawURLDecode encoded = Some payload ∧ decode_child_cursor payload = Some cursor' ∧
       RawURLDecode mac = Some (hmac_sha256 (ct_key pair_catalog) (to_bytes (token_prefix "catalog" encoded)))).
Proof.
  assert (∃ nq, check_request (mkSearchRequest "echo" (slashless "everything") 10) = Ok nq) as [nq Hnq].
  { eexists. vm_compute. reflexivity. }
  split.
  - assert (makeCursor pair_catalog pair_cursor = cp_NextChildCursor pair_first) as -> by (by vm_compute).
    apply pair_page_Ok. by vm_compute.
  - assert (child_cursor_ok pair_cursor) as Hok by (split; [by split; [repeat constructor|vm_compute]|by vm_compute|by vm_compute]).
    assert (0 ≤ 1 ≤ SearchLimitMax) as Hlim by done. assert (r_closed (g_reg pair_s2) = false) as Hopen by done.
    pose proof (catalog_continuation pair_catalog pair_s2 pair_order pair_cursor "echo" "everything" 10 1 nq Hok Hlim Hopen Hnq) as [Hc _].
    exact Hc.
Defined.
