(* ===== verification/Read.v ===== *)
(** * Reading artifacts

    Models [internal/capability/read.go]: bounded reads of an artifact in
    chunks. The first chunk takes a lease on the artifact's bytes; the
    following ones name the lease's handle. The last chunk of every lease is
    kept so that a retry is answered with the same response. The clock, the
    random source and the registry are arguments of the operations that read
    them; [readInitial] holds the store's lock twice and is three definitions,
    whose interleavings are the steps of [ReadSteps.v]. *)
From stdpp Require Import relations.
From Stdlib Require Import Ascii String.
From S2P Require Import Prelude GoStrings Limits Sha256 Regex Utf8 Base64 Json Cursor GoTime SnapshotService Records Registry.
Local Open Scope string_scope.
Local Open Scope list_scope.
Local Open Scope Z_scope.

(** ** Data *)

Record ReadRequest := mkReadRequest {
  rq_CapabilityID : string; rq_Ref : string; rq_AttemptID : string; rq_Offset : Z; rq_MaxBytes : Z }.
Record ReadResponse := mkReadResponse {
  rp_Ref : string; rp_ContinuationRef : string; rp_Offset : Z; rp_DataBase64 : string;
  rp_NextOffset : Z; rp_Complete : bool; rp_MediaType : string; rp_StoredBytes : Z;
  rp_SHA256 : string; rp_ExpiresAt : string }.

Record readReplay := mkReadReplay {
  re_inputRef : string; re_offset : Z; re_maxBytes : Z; re_response : ReadResponse; re_encoded : bytes }.

(** [readLease]; its object is the address of an artifact lease. *)
Record readLease := mkReadLease {
  le_id : string; le_scopeDigest : bytes; le_attemptKey : bytes; le_artifact : Artifact;
  le_object : nat; le_created : Time; le_idleUntil : Time; le_expiresAt : Time; le_final : bool;
  le_replay : readReplay }.

Record ReadLeaseStore := mkReadLeaseStore {
  rst_limits : ReadLeaseLimits; rst_closed : bool; rst_reads : gmap string readLease;
  rst_attempts : gmap bytes string; rst_pinnedBytes : Z; rst_replayBytes : Z }.
Record ReadLeaseStats := mkReadLeaseStats {
  rt_Leases : Z; rt_Attempts : Z; rt_PinnedBytes : Z; rt_ReplayBytes : Z }.

Definition read_response_json (r : ReadResponse) : json :=
  JObj ([("ref", JStr (rp_Ref r))] ++ omit_string "continuation_ref" (rp_ContinuationRef r)
        ++ [("offset", JInt (rp_Offset r)); ("data_base64", JStr (rp_DataBase64 r));
            ("next_offset", JInt (rp_NextOffset r)); ("complete", JBool (rp_Complete r));
            ("media_type", JStr (rp_MediaType r)); ("stored_bytes", JInt (rp_StoredBytes r));
            ("sha256", JStr (rp_SHA256 r)); ("expires_at", JStr (rp_ExpiresAt r))]).

(** ** Requests *)

Definition read_invalid (format : string) : error := Wrapf format [] ErrReadRequestInvalid.

(** [request.Offset > int64(^uint64(0)>>1)-int64(request.MaxBytes)] is
    computed without overflow because [MaxBytes] is positive by then. *)
Definition validateReadBounds (scope : string) (r : ReadRequest) : result error unit :=
  fail_if String.eqb scope "" || (slen scope >? 256)
    with read_invalid "%w: caller scope is invalid" else
  fail_if String.eqb (rq_Ref r) "" || (slen (rq_Ref r) >? OpaqueReferenceMaxBytes)
    with read_invalid "%w: ref is invalid" else
  fail_if (rq_Offset r <? 0) || (rq_MaxBytes r <=? 0) || (rq_MaxBytes r >? ReadChunkMax)
    with read_invalid "%w: offset or max_bytes is invalid" else
  fail_if rq_Offset r >? MaxInt64 - rq_MaxBytes r
    with read_invalid "%w: byte range overflows" else
  fail_if slen (rq_AttemptID r) >? ReadAttemptMaxBytes
    with read_invalid "%w: attempt_id is invalid" else
  Ok tt.

(** The eight bytes [binary.BigEndian.PutUint64] writes. *)
Definition be64 (n : Z) : bytes :=
  map (λ k, Z_byte (Z.land (Z.shiftr n (8 * k)) 255)) [7; 6; 5; 4; 3; 2; 1; 0].
Definition attempt_fields (scope : string) (r : ReadRequest) : list string :=
  [scope; rq_CapabilityID r; rq_Ref r; rq_AttemptID r; FormatInt (rq_Offset r); FormatInt (rq_MaxBytes r)].
Definition attempt_preimage (fields : list string) : bytes :=
  flat_map (λ value, be64 (slen value) ++ to_bytes value) fields.
Definition readAttemptKey (scope : string) (r : ReadRequest) : bytes :=
  sha256 (attempt_preimage (attempt_fields scope r)).

Definition parseReadHandle (ref : string) : option string :=
  if (slen ref >? OpaqueReferenceMaxBytes) || negb (HasPrefix ref "read:v1:") then None
  else
    let id := TrimPrefix ref "read:v1:" in
    match RawURLDecode id with
    | Some decoded => if (zlen decoded =? 16) then Some id else None
    | None => None
    end.

Definition readableArtifactKind (kind : ArtifactKind) : bool :=
  match kind with
  | ArtifactSkill | ArtifactSkillResource | ArtifactContext => true
  | ArtifactManifest => false
  end.

Definition newReadLeaseStore (limits : ReadLeaseLimits) : result error ReadLeaseStore :=
  let! _ := validateReadLeaseLimits limits in
  Ok (mkReadLeaseStore limits false ∅ ∅ 0 0).

Section read.
Context {W : Type} `{SnapshotOps W}.
Implicit Types (s : ReadLeaseStore) (w : W) (g : RState W).

(** ** Sweeping *)

Definition dropLocked (sw : ReadLeaseStore * W) (id : string) (l : readLease) : ReadLeaseStore * W :=
  let '(s, w) := sw in
  (mkReadLeaseStore (rst_limits s) (rst_closed s) (delete id (rst_reads s))
     (delete (le_attemptKey l) (rst_attempts s)) (rst_pinnedBytes s - af_Bytes (le_artifact l))
     (rst_replayBytes s - ReadReplayReservation),
   svc_releaseLease w (le_object l)).

(** The body of the loop of [read.go]'s [sweepLocked]. *)
Definition sweep_lease (now : Time) (sw : ReadLeaseStore * W) (e : string * readLease) : ReadLeaseStore * W :=
  if negb (Before now (le_expiresAt e.2)) then dropLocked sw e.1 e.2 else sw.
Definition sweep_reads s w (now : Time) : ReadLeaseStore * W :=
  foldl (sweep_lease now) (s, w) (map_to_list (rst_reads s)).

Definition read_Close s w : ReadLeaseStore * W :=
  if rst_closed s then (s, w)
  else
    let s1 := mkReadLeaseStore (rst_limits s) true (rst_reads s) (rst_attempts s) (rst_pinnedBytes s) (rst_replayBytes s) in
    foldl (λ sw e, dropLocked sw e.1 e.2) (s1, w) (map_to_list (rst_reads s1)).

Definition read_Stats s w (now : Time) : ReadLeaseStore * W * ReadLeaseStats :=
  let '(s, w) := sweep_reads s w now in
  (s, w, mkReadLeaseStats (Z.of_nat (size (rst_reads s))) (Z.of_nat (size (rst_attempts s)))
           (rst_pinnedBytes s) (rst_replayBytes s)).

(** ** Chunks *)

Definition chunk_response (l : readLease) (offset : Z) (chunk : bytes) (expiresAt : Time) : ReadResponse :=
  let next := offset + zlen chunk in
  let complete := next =? af_Bytes (le_artifact l) in
  mkReadResponse (af_Ref (le_artifact l)) (if complete then "" else "read:v1:" +:+ le_id l) offset
    (StdEncode chunk) next complete (af_MediaType (le_artifact l)) (af_Bytes (le_artifact l))
    (af_SHA256 (le_artifact l)) (RFC3339Nano expiresAt).

(** [prepareLocked]: the response, and the lease as it leaves it. *)
Definition prepareLocked (limits : ReadLeaseLimits) w (l : readLease) (inputRef : string)
    (offset maxBytes : Z) (now : Time) : result error (readLease * ReadResponse) :=
  match svc_readRange w (le_object l) offset maxBytes with
  | None => Err ErrArtifactReferenceStale
  | Some chunk =>
      let next := offset + zlen chunk in
      let complete := next =? af_Bytes (le_artifact l) in
      let absolute := Limits.Add (le_created l) (rl_Absolute limits) in
      let idleUntil := if complete then le_idleUntil l else Limits.Add now (rl_Idle limits) in
      let expiresAt := if complete then minTime (Limits.Add now (rl_FinalReplay limits)) absolute
                       else minTime idleUntil absolute in
      let response := chunk_response l offset chunk expiresAt in
      let encoded := Marshal (read_response_json response) in
      fail_if (zlen encoded >? BrokerResponseMaxBytes) || (zlen encoded >? ReadReplayReservation)
        with ErrServiceQuota else
      Ok (mkReadLease (le_id l) (le_scopeDigest l) (le_attemptKey l) (le_artifact l) (le_object l)
            (le_created l) idleUntil expiresAt complete (mkReadReplay inputRef offset maxBytes response encoded),
          response)
  end.

(** The answer to a request whose attempt is known. *)
Definition replay_attempt s (id : string) (r : ReadRequest) : result error ReadResponse :=
  match rst_reads s !! id with
  | Some l =>
      if String.eqb (re_inputRef (le_replay l)) (rq_Ref r) && (re_offset (le_replay l) =? rq_Offset r)
         && (re_maxBytes (le_replay l) =? rq_MaxBytes r)
      then Ok (re_response (le_replay l)) else Err ErrContinuationConflict
  | None => Err ErrContinuationConflict
  end.

(** ** Initial reads *)

(** The first critical section: an answer, or the attempt's key. *)
Definition initial_replay s w (scope : string) (r : ReadRequest) (now : Time) :
    ReadLeaseStore * W * (result error ReadResponse + bytes) :=
  if String.eqb (rq_CapabilityID r) "" || (slen (rq_CapabilityID r) >? MaxCapabilityIDBytes)
     || negb (MatchString attemptIDPattern (rq_AttemptID r))
  then (s, w, inl (Err (read_invalid "%w: initial reads require capability_id and a 128-bit attempt_id")))
  else if negb (HasPrefix (rq_Ref r) "artifact:v1:") then (s, w, inl (Err ErrArtifactReferenceStale))
  else
    let key := readAttemptKey scope r in
    if rst_closed s then (s, w, inl (Err ErrServiceClosed))
    else
      let '(s, w) := sweep_reads s w now in
      match rst_attempts s !! key with
      | Some id => (s, w, inl (replay_attempt s id r))
      | None => (s, w, inr key)
      end.

Definition with_world g w : RState W := mkRState (g_reg g) (g_heap g) (g_leases g) (g_reclaimed g) w.

(** Between the critical sections: the artifact and a lease on its bytes. *)
Definition initial_acquire g (r : ReadRequest) : RState W * result error (Artifact * nat) :=
  match Lookup g (rq_CapabilityID r) with
  | (g, Err e) => (g, Err e)
  | (g, Ok capabilityLease) =>
      let '(w, acquired) := match lease_record g capabilityLease with
                            | Some rec => record_acquireArtifact (g_world g) rec (rq_Ref r)
                            | None => (g_world g, None)
                            end in
      let g := lease_Release (with_world g w) capabilityLease in
      match acquired with
      | None => (g, Err ErrArtifactReferenceStale)
      | Some (artifact, object) =>
          let refuse e := (with_world g (svc_releaseLease (g_world g) object), Err e) in
          if negb (readableArtifactKind (af_Kind artifact)) then refuse ErrArtifactReferenceStale
          else if rq_Offset r >? af_Bytes artifact
          then refuse (read_invalid "%w: offset exceeds artifact size")
          else (g, Ok (artifact, object))
      end
  end.

(** The second critical section. *)
Definition initial_commit s w (scope : string) (r : ReadRequest) (artifact : Artifact) (object : nat)
    (now now' : Time) (draws : list draw) : ReadLeaseStore * W * result error ReadResponse :=
  let key := readAttemptKey scope r in
  if rst_closed s then (s, svc_releaseLease w object, Err ErrServiceClosed)
  else
    let '(s, w) := sweep_reads s w now in
    match rst_attempts s !! key with
    | Some id => (s, svc_releaseLease w object, replay_attempt s id r)
    | None =>
        if (Z.of_nat (size (rst_reads s)) >=? rl_MaxCount (rst_limits s))
           || (rst_pinnedBytes s + af_Bytes artifact >? rl_MaxPinnedBytes (rst_limits s))
           || (rst_replayBytes s + ReadReplayReservation >? rl_MaxReplayBytes (rst_limits s))
        then (s, svc_releaseLease w object, Err ErrServiceQuota)
        else
          match unique_id readHandleCollisionAttempts (rst_reads s) draws with
          | Err e => (s, svc_releaseLease w object, Err e)
          | Ok id =>
              let no_replay := mkReadReplay "" 0 0 (mkReadResponse "" "" 0 "" 0 false "" 0 "" "") [] in
              let lease := mkReadLease id (sha256 (to_bytes scope)) key artifact object now
                             (Limits.Add now (rl_Idle (rst_limits s))) 0 false no_replay in
              match prepareLocked (rst_limits s) w lease (rq_Ref r) (rq_Offset r) (rq_MaxBytes r) now' with
              | Err e => (s, svc_releaseLease w object, Err e)
              | Ok (lease, response) =>
                  (mkReadLeaseStore (rst_limits s) (rst_closed s) (<[id := lease]> (rst_reads s))
                     (<[key := id]> (rst_attempts s)) (rst_pinnedBytes s + af_Bytes artifact)
                     (rst_replayBytes s + ReadReplayReservation), w, Ok response)
              end
          end
    end.

(** [readInitial], run without interruption; the clock is read at [now1],
    [now2] and [now3]. *)
Definition readInitial s g (scope : string) (r : ReadRequest) (now1 now2 now3 : Time) (draws : list draw) :
    ReadLeaseStore * RState W * result error ReadResponse :=
  let '(s, w, answer) := initial_replay s (g_world g) scope r now1 in
  match answer with
  | inl response => (s, with_world g w, response)
  | inr _ =>
      match initial_acquire (with_world g w) r with
      | (g, Err e) => (s, g, Err e)
      | (g, Ok (artifact, object)) =>
          let '(s, w, response) := initial_commit s (g_world g) scope r artifact object now2 now3 draws in
          (s, with_world g w, response)
      end
  end.

(** ** Continuations *)

Definition readContinuation s w (scope : string) (r : ReadRequest) (now now' : Time) :
    ReadLeaseStore * W * result error ReadResponse :=
  if negb (String.eqb (rq_CapabilityID r) "") || negb (String.eqb (rq_AttemptID r) "")
  then (s, w, Err (read_invalid "%w: continuation reads omit capability_id and attempt_id"))
  else match parseReadHandle (rq_Ref r) with
  | None => (s, w, Err ErrContinuationInvalid)
  | Some id =>
      if rst_closed s then (s, w, Err ErrServiceClosed)
      else
        let '(s, w) := sweep_reads s w now in
        match rst_reads s !! id with
        | None => (s, w, Err ErrContinuationStale)
        | Some l =>
            if negb (bool_decide (le_scopeDigest l = sha256 (to_bytes scope))) then (s, w, Err ErrContinuationStale)
            else if rq_Offset r =? re_offset (le_replay l) then
              if String.eqb (re_inputRef (le_replay l)) (rq_Ref r) && (re_maxBytes (le_replay l) =? rq_MaxBytes r)
              then (s, w, Ok (re_response (le_replay l))) else (s, w, Err ErrContinuationConflict)
            else if le_final l || negb (rq_Offset r =? rp_NextOffset (re_response (le_replay l)))
            then (s, w, Err ErrContinuationConflict)
            else match prepareLocked (rst_limits s) w l (rq_Ref r) (rq_Offset r) (rq_MaxBytes r) now' with
                 | Err e => (s, w, Err e)
                 | Ok (l', response) =>
                     (mkReadLeaseStore (rst_limits s) (rst_closed s) (<[id := l']> (rst_reads s))
                        (rst_attempts s) (rst_pinnedBytes s) (rst_replayBytes s), w, Ok response)
                 end
        end
  end.

Definition Read s g (scope : string) (r : ReadRequest) (now1 now2 now3 : Time) (draws : list draw) :
    ReadLeaseStore * RState W * result error ReadResponse :=
  match validateReadBounds scope r with
  | Err e => (s, g, Err e)
  | Ok _ =>
      if HasPrefix (rq_Ref r) "read:" then
        let '(s, w, response) := readContinuation s (g_world g) scope r now1 now2 in (s, with_world g w, response)
      else readInitial s g scope r now1 now2 now3 draws
  end.

Definition encodedReplay s (ref : string) : option bytes :=
  id ← parseReadHandle ref; l ← rst_reads s !! id; Some (re_encoded (le_replay l)).
End read.

(** ** Lemmas: attempt keys *)

(** A number of eight bytes is determined by them. *)
Lemma be64_inj m n : 0 ≤ m < 2 ^ 64 → 0 ≤ n < 2 ^ 64 → be64 m = be64 n → m = n.
Proof.
  intros Hm Hn Heq.
  assert (∀ k, 0 ≤ k ≤ 7 → Z.land (Z.shiftr m (8 * k)) 255 = Z.land (Z.shiftr n (8 * k)) 255) as Hk.
  { assert (∀ a b, Z_byte (Z.land a 255) = Z_byte (Z.land b 255) → Z.land a 255 = Z.land b 255) as Hinj.
    { intros a b Hab. change 255 with (Z.ones 8) in *. rewrite !Z.land_ones in * by lia.
      rewrite <-(byte_Z_byte (a mod 2 ^ 8)), <-(byte_Z_byte (b mod 2 ^ 8)) by (pose proof (Z.mod_pos_bound a (2 ^ 8)); pose proof (Z.mod_pos_bound b (2 ^ 8)); lia).
      by rewrite Hab. }
    unfold be64 in Heq. cbn [map] in Heq. injection Heq as E7 E6 E5 E4 E3 E2 E1 E0.
    intros k Hk. assert (k = 0 ∨ k = 1 ∨ k = 2 ∨ k = 3 ∨ k = 4 ∨ k = 5 ∨ k = 6 ∨ k = 7) as Hcases by lia.
    destruct Hcases as [->|[->|[->|[->|[->|[->|[->| ->]]]]]]]; by apply Hinj. }
  apply Z.bits_inj_iff'. intros i Hi. destruct (Z.lt_ge_cases i 64).
  - specialize (Hk (i / 8) ltac:(Z.to_euclidean_division_equations; lia)).
    apply (f_equal (λ z, Z.testbit z (i mod 8))) in Hk.
    pose proof (Z.mod_pos_bound i 8). rewrite !Z.land_spec, !Z.shiftr_spec in Hk by lia.
    change 255 with (Z.ones 8) in Hk. rewrite Z.ones_spec_low, !andb_true_r in Hk by lia.
    replace (i mod 8 + 8 * (i / 8)) with i in Hk by (Z.to_euclidean_division_equations; lia). done.
  - assert (∀ z, 0 ≤ z < 2 ^ 64 → Z.testbit z i = false) as Hhigh.
    { intros z Hz. destruct (Z.eq_dec z 0) as [->|]; [by rewrite Z.bits_0|]. apply Z.bits_above_log2; [lia|].
      assert (Z.log2 z < 64) by (apply Z.log2_lt_pow2; lia). lia. }
    by rewrite !Hhigh.
Qed.

Lemma length_be64 n : length (be64 n) = 8%nat.
Proof. done. Qed.

(** The hashed text determines the fields it is made of. *)
Lemma attempt_preimage_inj l1 l2 :
  length l1 = length l2 → Forall (λ s, slen s < 2 ^ 64) l1 → Forall (λ s, slen s < 2 ^ 64) l2 →
  attempt_preimage l1 = attempt_preimage l2 → l1 = l2.
Proof.
  revert l2. induction l1 as [|x l1 IH]; intros [|y l2] Hlen H1 H2 Heq; try done.
  apply Forall_cons in H1 as [Hx H1]. apply Forall_cons in H2 as [Hy H2].
  cbn [attempt_preimage flat_map] in Heq. rewrite <-!app_assoc in Heq.
  apply app_inj_1 in Heq as [Hbe Heq]; [|done].
  pose proof (slen_nonneg x). pose proof (slen_nonneg y).
  apply be64_inj in Hbe; [|done..].
  apply app_inj_1 in Heq as [Hxy Heq].
  2: { pose proof (slen_to_bytes x). pose proof (slen_to_bytes y). unfold zlen in *. lia. }
  f_equal; [|apply IH; [by injection Hlen|done..]]. by rewrite <-(of_to_bytes x), <-(of_to_bytes y), Hxy.
Qed.

Lemma FormatInt_inj m n : FormatInt m = FormatInt n → m = n.
Proof.
  intros Heq.
  pose proof (decode_integer_JInt (Z.min m n) (Z.max m n) m ltac:(lia)) as Hm.
  pose proof (decode_integer_JInt (Z.min m n) (Z.max m n) n ltac:(lia)) as Hn.
  unfold JInt in *. rewrite Heq in Hm. rewrite Hm in Hn. by injection Hn.
Qed.
