(* ===== verification/ReadSteps.v ===== *)
(** * The read store over time

    The invariant of [Read.v]'s store together with the artifact leases it
    holds in the snapshot store, the steps its clients make, and what they
    give: exact accounting, replies that can be repeated, chunks that
    reassemble the artifact, and a replay reservation that is always enough. *)
From stdpp Require Import relations.
From Stdlib Require Import Ascii String.
From S2P Require Import Prelude GoStrings Limits Sha256 Regex Utf8 Base64 Json Cursor GoTime SnapshotService Records Registry RegistrySteps Read.
Local Open Scope string_scope.
Local Open Scope list_scope.
Local Open Scope Z_scope.

Section invariant.
Context {W : Type} `{SnapshotOps W} `{!SnapshotLaws W}.
Implicit Types (s : ReadLeaseStore) (w : W) (P : list (Artifact * nat)).

(** ** The invariant *)

(** A lease's object serves the artifact's bytes. *)
Record serves w (a : Artifact) (o : nat) (data : bytes) : Prop := {
  sv_size : zlen data = af_Bytes a;
  sv_sha : hex_encode (sha256 data) = af_SHA256 a;
  sv_live : svc_lease_live w o = true;
  sv_range off n : 0 ≤ off ≤ af_Bytes a → 0 ≤ n → int64_ok (af_Bytes a) → int64_ok n →
    svc_readRange w o off n = Some (window data off n);
}.

(** The chunk a lease keeps for retries is the one its fields describe. *)
Record replay_ok (limits : ReadLeaseLimits) (l : readLease) (data : bytes) : Prop := {
  ro_offset : 0 ≤ re_offset (le_replay l) ≤ af_Bytes (le_artifact l);
  ro_max : 0 < re_maxBytes (le_replay l) ≤ ReadChunkMax;
  ro_response : re_response (le_replay l) =
    chunk_response l (re_offset (le_replay l)) (window data (re_offset (le_replay l)) (re_maxBytes (le_replay l)))
      (le_expiresAt l);
  ro_encoded : re_encoded (le_replay l) = Marshal (read_response_json (re_response (le_replay l)));
  ro_reserved : zlen (re_encoded (le_replay l)) ≤ ReadReplayReservation;
  ro_final : le_final l = rp_Complete (re_response (le_replay l));
  ro_absolute : le_expiresAt l ≤ le_created l + rl_Absolute limits;
}.

Record lease_ok (limits : ReadLeaseLimits) w (id : string) (l : readLease) : Prop := {
  lo_id : le_id l = id;
  lo_handle : ∃ b, length b = 16%nat ∧ id = RawURLEncode b;
  lo_data : ∃ data, serves w (le_artifact l) (le_object l) data ∧ replay_ok limits l data;
}.

Definition lease_bytes (l : readLease) : Z := af_Bytes (le_artifact l).

(** The artifact leases the store holds, with those [P] that requests between
    their two critical sections hold. *)
Definition objects s P : list nat := map (λ e, le_object e.2) (map_to_list (rst_reads s)) ++ P.*2.

Record read_core P s w : Prop := {
  rc_limits : read_limits_ok (rst_limits s);
  rc_world : svc_ok w;
  rc_pinned : rst_pinnedBytes s = map_sum lease_bytes (rst_reads s);
  rc_replay : rst_replayBytes s = map_sum (λ _, ReadReplayReservation) (rst_reads s);
  rc_count : Z.of_nat (size (rst_reads s)) ≤ rl_MaxCount (rst_limits s);
  rc_pinned_quota : rst_pinnedBytes s ≤ rl_MaxPinnedBytes (rst_limits s);
  rc_replay_quota : rst_replayBytes s ≤ rl_MaxReplayBytes (rst_limits s);
  rc_attempts key id : rst_attempts s !! key = Some id ↔
    ∃ l, rst_reads s !! id = Some l ∧ le_attemptKey l = key;
  rc_objects : NoDup (objects s P);
  rc_leases : map_Forall (lease_ok (rst_limits s) w) (rst_reads s);
  rc_pending : Forall (λ p, ∃ data, serves w p.1 p.2 data) P;
}.

Definition read_inv P s w : Prop := read_core P s w ∧ (rst_closed s = true → rst_reads s = ∅).

(** What this store's own calls do to the snapshot store: they acquire and
    release leases, never snapshots. *)
Record client w w' : Prop := {
  cl_evolves : svc_evolves w w';
  cl_snaps sn : svc_snap_live w' sn = svc_snap_live w sn;
}.

Global Instance client_preorder : PreOrder client.
Proof.
  split.
  - intros w. split; [apply svc_evolves_refl|done].
  - intros w1 w2 w3 [E1 S1] [E2 S2]. split; [by eapply svc_evolves_trans|]. intros sn. by rewrite S2.
Qed.

Lemma client_releaseLease w o : client w (svc_releaseLease w o).
Proof. split; [apply svc_releaseLease_evolves|intros; apply svc_releaseLease_snap_live]. Qed.

Lemma client_acquire w sn name n sha : client w (svc_acquireArtifact w sn name n sha).1.
Proof. split; [apply svc_acquire_evolves|intros; apply svc_acquire_snap_live]. Qed.

(** ** Lemmas: leases that stay live keep serving *)

Lemma serves_stable w w' a o data :
  svc_ok w → svc_evolves w w' → svc_lease_live w' o = true → serves w a o data → serves w' a o data.
Proof.
  intros Hok Hev Hl [Hs Hsha Hl0 Hr]. split; [done..|]. intros off n ????.
  rewrite (svc_readRange_stable w w') by done. by apply Hr.
Qed.

Lemma lease_ok_stable limits w w' id l :
  svc_ok w → svc_evolves w w' → svc_lease_live w' (le_object l) = true → lease_ok limits w id l → lease_ok limits w' id l.
Proof.
  intros Hok Hev Hl [Hid Hh (data & Hs & Hr)]. split; [done..|]. exists data. split; [by eapply serves_stable|done].
Qed.

Lemma lease_bytes_nonneg limits w id l : lease_ok limits w id l → 0 ≤ lease_bytes l.
Proof. intros [_ _ (data & [Hs _ _ _] & _)]. unfold lease_bytes. rewrite <-Hs. apply zlen_nonneg. Qed.

Lemma elem_objects_read s P id l : rst_reads s !! id = Some l → le_object l ∈ objects s P.
Proof.
  intros Hl. unfold objects. rewrite elem_of_app. left. apply list_elem_of_fmap. exists (id, l).
  split; [done|]. by apply elem_of_map_to_list.
Qed.
Lemma elem_objects_pending s P a o : (a, o) ∈ P → o ∈ objects s P.
Proof. intros Ho. unfold objects. rewrite elem_of_app. right. by apply (list_elem_of_fmap_2 snd) in Ho. Qed.

(** Every object of a well-formed store is live. *)
Lemma objects_live P s w o : read_core P s w → o ∈ objects s P → svc_lease_live w o = true.
Proof.
  intros Hc. unfold objects. rewrite elem_of_app, !list_elem_of_fmap.
  intros [([id l] & -> & Hl%elem_of_map_to_list)|([a o'] & -> & Hp)]; simpl.
  - destruct (rc_leases _ _ _ Hc _ _ Hl) as [_ _ (data & Hs & _)]. by apply Hs.
  - pose proof (rc_pending _ _ _ Hc) as Hf. rewrite Forall_forall in Hf.
    destruct (Hf _ Hp) as (data & Hs). by apply Hs.
Qed.

(** The other steps of the snapshot store keep the invariant as long as they
    keep the leases the store holds. *)
Lemma read_core_world P s w w' :
  read_core P s w → svc_evolves w w' → (∀ o, o ∈ objects s P → svc_lease_live w' o = true) → read_core P s w'.
Proof.
  intros Hc Hev Hl. pose proof (rc_world _ _ _ Hc) as Hok. destruct Hc. split; try done.
  - by eapply svc_evolves_ok.
  - intros id l Hid. eapply lease_ok_stable; [done..| |by eauto]. apply Hl. by eapply elem_objects_read.
  - apply Forall_forall. intros [a o] Hp. pose proof (proj1 (Forall_forall _ _) rc_pending0 _ Hp) as [data Hs].
    exists data. eapply serves_stable; [done..| |done]. apply Hl. by eapply elem_objects_pending.
Qed.

Lemma read_core_perm P P' s w : P ≡ₚ P' → read_core P s w → read_core P' s w.
Proof.
  intros HP []. split; try done.
  - unfold objects in *. by rewrite <-HP.
  - by rewrite <-HP.
Qed.

(** ** Lemmas: dropping leases *)

Lemma objects_delete P s w id l :
  rst_reads s !! id = Some l →
  objects s P ≡ₚ le_object l :: objects (dropLocked (s, w) id l).1 P.
Proof.
  intros Hl. unfold objects. simpl. rewrite <-(map_to_list_delete _ _ _ Hl). done.
Qed.

Lemma release_live P s w o o' :
  read_core P s w → o' ∈ objects s P → o' ≠ o → svc_lease_live (svc_releaseLease w o) o' = true.
Proof.
  intros Hc Ho Hne. rewrite svc_releaseLease_lease_live, (objects_live _ _ _ _ Hc Ho). simpl.
  by apply negb_true_iff, Nat.eqb_neq.
Qed.

Lemma dropLocked_core P s w id l :
  read_core P s w → rst_reads s !! id = Some l →
  read_core P (dropLocked (s, w) id l).1 (dropLocked (s, w) id l).2.
Proof.
  intros Hc Hl. pose proof (objects_delete P s w id l Hl) as Hobj.
  pose proof (rc_objects _ _ _ Hc) as Hnd. rewrite Hobj in Hnd. apply NoDup_cons in Hnd as [Hni Hnd].
  assert (∀ o, o ∈ objects (dropLocked (s, w) id l).1 P → svc_lease_live (svc_releaseLease w (le_object l)) o = true) as Hlive.
  { intros o Ho. eapply release_live; [done|rewrite Hobj; by right|]. by intros ->. }
  pose proof (svc_releaseLease_evolves w (le_object l)) as Hev.
  assert (∀ id l, rst_reads s !! id = Some l → 0 ≤ lease_bytes l) as Hpos.
  { intros i x Hx. eapply lease_bytes_nonneg. by apply (rc_leases _ _ _ Hc). }
  pose proof (map_sum_lookup_le lease_bytes _ _ _ Hpos Hl) as Hle. pose proof (rc_world _ _ _ Hc) as Hok.
  pose proof (rc_limits _ _ _ Hc) as Hlim.
  destruct Hc as [? ? Hp Hr Hn Hpq Hrq Hat ? Hls Hpend]. split; cbn [dropLocked fst snd rst_limits rst_reads rst_attempts rst_pinnedBytes rst_replayBytes].
  - done.
  - by eapply svc_evolves_ok.
  - rewrite (map_sum_delete _ _ _ _ Hl), Hp. unfold lease_bytes. lia.
  - rewrite (map_sum_delete _ _ _ _ Hl), Hr. lia.
  - rewrite map_size_delete, Hl. lia.
  - unfold lease_bytes in *. specialize (Hpos _ _ Hl). lia.
  - unfold ReadReplayReservation. change (Z.shiftl 128 10) with 131072. lia.
  - intros key id'. rewrite lookup_delete_Some, Hat. split.
    + intros (Hne & l' & Hl' & <-). exists l'. split; [|done]. rewrite lookup_delete_ne; [done|]. intros <-. simplify_eq.
    + intros (l' & [Hne Hl']%lookup_delete_Some & <-). split; [|by eauto]. intros Heq.
      assert (rst_attempts s !! le_attemptKey l = Some id) as H1 by (apply Hat; eauto).
      assert (rst_attempts s !! le_attemptKey l' = Some id') as H2 by (apply Hat; eauto). congruence.
  - done.
  - intros i x Hx. pose proof Hx as [_ Hx']%lookup_delete_Some.
    eapply lease_ok_stable; [done..| |by apply Hls]. apply Hlive.
    eapply (elem_objects_read (dropLocked (s, w) id l).1 P i). done.
  - apply Forall_forall. intros [a o] Hin. pose proof (proj1 (Forall_forall _ _) Hpend _ Hin) as [data Hs].
    exists data. eapply serves_stable; [done..| |done]. apply Hlive. by eapply elem_objects_pending.
Qed.

Definition drop_if (p : string * readLease → bool) (sw : ReadLeaseStore * W) (e : string * readLease) :
    ReadLeaseStore * W := if p e then dropLocked sw e.1 e.2 else sw.

(** Dropping some of the leases, visited in any order. *)
Record dropped_reads (p : string * readLease → bool) (l : list (string * readLease)) s w s' w' : Prop := {
  dr_client : client w w';
  dr_limits : rst_limits s' = rst_limits s;
  dr_closed : rst_closed s' = rst_closed s;
  dr_reads id : rst_reads s' !! id =
    match rst_reads s !! id with
    | Some x => if bool_decide (id ∈ l.*1) && p (id, x) then None else Some x
    | None => None
    end;
}.

Lemma drop_fold p l P : ∀ s w,
  read_core P s w → NoDup l.*1 → (∀ id x, (id, x) ∈ l → rst_reads s !! id = Some x) →
  let sw := foldl (drop_if p) (s, w) l in
  read_core P sw.1 sw.2 ∧ dropped_reads p l s w sw.1 sw.2.
Proof.
  induction l as [|[k x] l IH]; intros s w Hc Hnd Hin.
  { split; [done|]. split; [done..|]. intros id. simpl. by destruct (rst_reads s !! id). }
  rewrite fmap_cons in Hnd. apply NoDup_cons in Hnd as [Hk Hnd].
  pose proof (Hin k x (list_elem_of_here _ _)) as Hkx. cbn [foldl].
  destruct (p (k, x)) eqn:Hp.
  - replace (drop_if p (s, w) (k, x)) with (dropLocked (s, w) k x) by (unfold drop_if; by rewrite Hp).
    destruct (dropLocked (s, w) k x) as [s1 w1] eqn:Hd.
    pose proof (dropLocked_core P s w k x Hc Hkx) as Hc1. rewrite Hd in Hc1. simpl in Hc1.
    assert (rst_reads s1 = delete k (rst_reads s)) as Hr1 by (simpl in Hd; by simplify_eq).
    destruct (IH s1 w1 Hc1 Hnd) as [Hc2 [Hcl Hlim Hclo Hr]].
    { intros id y Hy. rewrite Hr1, lookup_delete_ne; [apply Hin; by right|]. intros ->. destruct Hk.
      by apply (list_elem_of_fmap_2 fst) in Hy. }
    split; [done|]. simpl in Hd. injection Hd as Hs1 Hw1. subst s1 w1. split.
    + etrans; [apply client_releaseLease|done].
    + done.
    + done.
    + intros id. rewrite Hr. simpl. destruct (decide (k = id)) as [<-|Hne].
      * rewrite lookup_delete_eq, Hkx, Hp. rewrite bool_decide_true by set_solver. done.
      * rewrite lookup_delete_ne by done. destruct (rst_reads s !! id) as [y|]; [|done].
        erewrite (bool_decide_ext (id ∈ l.*1)); [done|]. set_solver.
  - replace (drop_if p (s, w) (k, x)) with (s, w) by (unfold drop_if; by rewrite Hp).
    destruct (IH s w Hc Hnd) as [Hc2 [Hcl Hlim Hclo Hr]]; [intros; apply Hin; by right|].
    split; [done|]. split; [done..|]. intros id. rewrite Hr. destruct (rst_reads s !! id) as [y|] eqn:Hy; [|done].
    destruct (decide (k = id)) as [<-|Hne].
    + simplify_eq. by rewrite Hp, !andb_false_r.
    + erewrite (bool_decide_ext (id ∈ l.*1)); [done|]. set_solver.
Qed.

Lemma drop_all p P s w l :
  read_core P s w → l ≡ₚ map_to_list (rst_reads s) →
  let sw := foldl (drop_if p) (s, w) l in
  read_core P sw.1 sw.2 ∧ client w sw.2 ∧ rst_limits sw.1 = rst_limits s ∧ rst_closed sw.1 = rst_closed s ∧
  rst_reads sw.1 = filter (λ e, p e = false) (rst_reads s).
Proof.
  intros Hc Hl sw. destruct (drop_fold p l P s w Hc) as [Hc' [Hcl Hlim Hclo Hr]].
  - rewrite Hl. apply NoDup_fst_map_to_list.
  - intros id x. rewrite Hl. by rewrite elem_of_map_to_list.
  - split; [done|]. split; [done|]. split; [done|]. split; [done|]. apply map_eq. intros id.
    subst sw. rewrite Hr. symmetry. destruct (rst_reads s !! id) as [x|] eqn:Hx.
    + assert (id ∈ l.*1) as Hin.
      { apply list_elem_of_fmap. exists (id, x). split; [done|]. rewrite Hl. by apply elem_of_map_to_list. }
      rewrite bool_decide_true by done. cbn [andb]. destruct (p (id, x)) eqn:Hp.
      * apply map_lookup_filter_None. right. intros y ?. simplify_eq. congruence.
      * by apply map_lookup_filter_Some.
    + apply map_lookup_filter_None. by left.
Qed.

(** A sweep keeps the leases that have not expired. *)
Lemma sweep_reads_spec P s w now s' w' :
  read_inv P s w → sweep_reads s w now = (s', w') →
  read_inv P s' w' ∧ client w w' ∧ rst_limits s' = rst_limits s ∧ rst_closed s' = rst_closed s ∧
  ∀ id l, rst_reads s' !! id = Some l ↔ rst_reads s !! id = Some l ∧ now < le_expiresAt l.
Proof.
  intros [Hc Hcl] Hs. unfold sweep_reads in Hs.
  destruct (drop_all (λ e, negb (Before now (le_expiresAt e.2))) P s w _ Hc (Permutation_refl _)) as (H1 & H2 & H3 & H4 & H5).
  unfold sweep_lease in Hs. unfold drop_if in *. rewrite Hs in *. simpl in *. split; [split; [done|]|].
  - rewrite H4. intros Hx. rewrite H5, (Hcl Hx). apply map_filter_empty.
  - split; [done|]. split; [done|]. split; [done|]. intros id l. rewrite H5, map_lookup_filter_Some. simpl.
    unfold Before. destruct (Z.ltb_spec now (le_expiresAt l)); simpl; split; intros [? ?]; split; try done; lia.
Qed.

(** ** Lemmas: chunks *)

Definition same_lease (l l' : readLease) : Prop :=
  le_id l' = le_id l ∧ le_scopeDigest l' = le_scopeDigest l ∧ le_attemptKey l' = le_attemptKey l ∧
  le_artifact l' = le_artifact l ∧ le_object l' = le_object l ∧ le_created l' = le_created l.

(** What [prepareLocked] makes of a served lease. *)
Record prepared (limits : ReadLeaseLimits) (l : readLease) (inputRef : string) (off n : Z) (data : bytes)
    (l' : readLease) (r : ReadResponse) : Prop := {
  pr_same : same_lease l l';
  pr_replay : replay_ok limits l' data;
  pr_response : r = re_response (le_replay l');
  pr_input : re_inputRef (le_replay l') = inputRef;
  pr_offset : re_offset (le_replay l') = off;
  pr_max : re_maxBytes (le_replay l') = n;
}.

Lemma prepareLocked_spec limits w l inputRef off n now data :
  serves w (le_artifact l) (le_object l) data → 0 ≤ off ≤ lease_bytes l → 0 < n ≤ ReadChunkMax →
  int64_ok (lease_bytes l) →
  match prepareLocked limits w l inputRef off n now with
  | Ok (l', r) => prepared limits l inputRef off n data l' r
  | Err e => e = ErrServiceQuota
  end.
Proof.
  intros Hs Hoff Hn Hint. unfold prepareLocked.
  rewrite (sv_range _ _ _ _ Hs) by (try done; unfold int64_ok, MinInt64, MaxInt64, ReadChunkMax in *;
    change (Z.shiftl 64 10) with 65536 in *; lia).
  cbn zeta. unfold guardE. destruct (_ || _) eqn:Hsz; [done|]. bool_hyps.
  split; simpl; try done. split; simpl; try done.
  destruct (_ =? _); rewrite minTime_min; unfold Limits.Add; lia.
Qed.

Lemma core_bytes P s w id l : read_core P s w → rst_reads s !! id = Some l → 0 ≤ lease_bytes l ≤ PinnedArtifactBytesMax.
Proof.
  intros Hc Hl.
  assert (∀ id l, rst_reads s !! id = Some l → 0 ≤ lease_bytes l) as Hpos.
  { intros i x Hx. eapply lease_bytes_nonneg. by apply (rc_leases _ _ _ Hc). }
  pose proof (map_sum_lookup_le lease_bytes _ _ _ Hpos Hl) as Hle. pose proof (Hpos _ _ Hl).
  pose proof (rc_pinned _ _ _ Hc). pose proof (rc_pinned_quota _ _ _ Hc). destruct (rc_limits _ _ _ Hc). lia.
Qed.

Lemma int64_artifact n : 0 ≤ n ≤ PinnedArtifactBytesMax → int64_ok n.
Proof.
  unfold PinnedArtifactBytesMax, int64_ok, MinInt64, MaxInt64. change (Z.shiftl 512 20) with 536870912. lia.
Qed.

(** A request gives up the lease it holds. *)
Lemma release_pending P s w a o :
  read_core ((a, o) :: P) s w → read_core P s (svc_releaseLease w o).
Proof.
  intros Hc. pose proof (rc_objects _ _ _ Hc) as Hnd. unfold objects in Hnd. cbn [fmap list_fmap] in Hnd.
  assert (objects s ((a, o) :: P) ≡ₚ o :: objects s P) as Hperm by (unfold objects; simpl; by rewrite <-Permutation_middle).
  pose proof (rc_objects _ _ _ Hc) as Hnd'. rewrite Hperm in Hnd'. apply NoDup_cons in Hnd' as [Hni Hnd'].
  assert (read_core P s w) as Hc'.
  { destruct Hc as [? ? ? ? ? ? ? ? ? ? Hp]. apply Forall_cons in Hp as [_ Hp]. by split. }
  eapply read_core_world; [done|apply svc_releaseLease_evolves|].
  intros o' Ho'. eapply (release_live ((a, o) :: P) s); [done|rewrite Hperm; by right|]. by intros ->.
Qed.

(** A prepared lease is committed. *)
Lemma insert_core P s w a o id key l data :
  read_core ((a, o) :: P) s w →
  rst_reads s !! id = None → rst_attempts s !! key = None →
  Z.of_nat (size (rst_reads s)) < rl_MaxCount (rst_limits s) →
  rst_pinnedBytes s + af_Bytes a ≤ rl_MaxPinnedBytes (rst_limits s) →
  rst_replayBytes s + ReadReplayReservation ≤ rl_MaxReplayBytes (rst_limits s) →
  le_artifact l = a → le_object l = o → le_attemptKey l = key → le_id l = id →
  (∃ b, length b = 16%nat ∧ id = RawURLEncode b) → serves w a o data → replay_ok (rst_limits s) l data →
  read_core P (mkReadLeaseStore (rst_limits s) (rst_closed s) (<[id := l]> (rst_reads s))
    (<[key := id]> (rst_attempts s)) (rst_pinnedBytes s + af_Bytes a) (rst_replayBytes s + ReadReplayReservation)) w.
Proof.
  intros Hc Hid Hkey Hn Hpq Hrq Ha Ho Hk Hlid Hh Hs Hr.
  destruct Hc as [? ? Hp Hrp ? ? ? Hat Hnd Hls Hpend]. apply Forall_cons in Hpend as [_ Hpend].
  split; simpl; try done.
  - rewrite map_sum_insert by done. unfold lease_bytes at 1. rewrite Ha. lia.
  - rewrite map_sum_insert by done. lia.
  - rewrite map_size_insert_None by done. lia.
  - intros key' id'. destruct (decide (key = key')) as [<-|Hne].
    + rewrite lookup_insert_eq. split.
      * intros [= <-]. exists l. by rewrite lookup_insert_eq.
      * intros (l' & Hl' & Hk'). destruct (decide (id = id')) as [<-|Hnid]; [done|].
        rewrite lookup_insert_ne in Hl' by done. assert (rst_attempts s !! key = Some id') by (apply Hat; eauto). congruence.
    + rewrite lookup_insert_ne, Hat by done. split; intros (l' & Hl' & Hk'); exists l'; (split; [|done]).
      * rewrite lookup_insert_ne by congruence. done.
      * destruct (decide (id = id')) as [<-|Hnid]; [rewrite lookup_insert_eq in Hl'; congruence|].
        by rewrite lookup_insert_ne in Hl' by done.
  - unfold objects in *. simpl in *. rewrite map_to_list_insert by done. simpl. rewrite Ho.
    rewrite <-Permutation_middle in Hnd. done.
  - apply map_Forall_insert_2; [|done]. split; [done..|]. exists data. by rewrite Ha, Ho.
Qed.

(** A lease's chunk is replaced. *)
Lemma update_core P s w id l l' data :
  read_core P s w → rst_reads s !! id = Some l → same_lease l l' →
  serves w (le_artifact l) (le_object l) data → replay_ok (rst_limits s) l' data →
  read_core P (mkReadLeaseStore (rst_limits s) (rst_closed s) (<[id := l']> (rst_reads s))
    (rst_attempts s) (rst_pinnedBytes s) (rst_replayBytes s)) w.
Proof.
  intros Hc Hid (Hsid & _ & Hk & Ha & Ho & Hcr) Hs Hr. destruct Hc as [? ? Hp Hrp ? ? ? Hat Hnd Hls Hpend].
  split; simpl; try done.
  - rewrite (map_sum_update _ _ _ _ _ Hid). unfold lease_bytes at 2 3. rewrite Ha. lia.
  - rewrite (map_sum_update _ _ _ _ _ Hid). lia.
  - by rewrite map_size_insert_Some.
  - intros key id'. rewrite Hat. destruct (decide (id = id')) as [<-|Hne].
    + rewrite lookup_insert_eq. split; intros (x & Hx & <-); simplify_eq; eauto.
    + by rewrite lookup_insert_ne.
  - unfold objects in *. cbn [rst_reads]. rewrite <-(insert_delete_eq (rst_reads s) id l'), map_to_list_insert by apply lookup_delete_eq.
    rewrite <-(map_to_list_delete _ _ _ Hid) in Hnd. simpl in *. by rewrite Ho.
  - apply map_Forall_insert_2; [|done]. destruct (Hls _ _ Hid). split; [congruence|done|].
    exists data. by rewrite Ha, Ho.
Qed.

Definition valid_bounds (r : ReadRequest) : Prop :=
  0 ≤ rq_Offset r ≤ MaxInt64 - rq_MaxBytes r ∧ 0 < rq_MaxBytes r ≤ ReadChunkMax.

Lemma validateReadBounds_Ok scope r : validateReadBounds scope r = Ok tt → valid_bounds r.
Proof. unfold validateReadBounds. intros Hv. inv_binds Hv. bool_hyps. unfold valid_bounds. lia. Qed.

Definition read_draws_ok (draws : list draw) : Prop := ∀ b, Some b ∈ draws → length b = 16%nat.

(** The second critical section of an initial read. *)
Lemma initial_commit_spec P s w scope r a o now now' draws s' w' res :
  read_inv ((a, o) :: P) s w → valid_bounds r → rq_Offset r ≤ af_Bytes a → read_draws_ok draws →
  initial_commit s w scope r a o now now' draws = (s', w', res) →
  read_inv P s' w' ∧ client w w'.
Proof.
  intros Hinv [Hoff Hmax] Hle Hd. unfold initial_commit.
  destruct (rst_closed s) eqn:Hcl.
  { intros [= <- <- <-]. split; [|apply client_releaseLease]. split; [by eapply release_pending, Hinv|by apply Hinv]. }
  destruct (sweep_reads s w now) as [s1 w1] eqn:Hsw.
  destruct (sweep_reads_spec _ _ _ _ _ _ Hinv Hsw) as ([Hc1 Hcl1] & Hcw & Hlim & Hclo & Hreads).
  assert (∀ x, read_inv P s1 (svc_releaseLease w1 o) ∧ client w (svc_releaseLease w1 o) ∨ x) as Hrel.
  { intros x. left. split; [split; [by eapply release_pending|done]|]. etrans; [done|apply client_releaseLease]. }
  specialize (Hrel False). destruct Hrel as [Hrel|[]].
  destruct (rst_attempts s1 !! readAttemptKey scope r) as [id|] eqn:Hkey; [by intros [= <- <- <-]|].
  destruct (_ || _) eqn:Hq; [by intros [= <- <- <-]|]. bool_hyps.
  destruct (unique_id _ _ _) as [id|] eqn:Hid; [|by intros [= <- <- <-]].
  apply unique_id_Ok in Hid as (Hnone & b & Hb & ->).
  assert (∃ data, serves w1 a o data) as [data Hs].
  { pose proof (rc_pending _ _ _ Hc1) as Hp. by apply Forall_cons in Hp as [Hp _]. }
  set (l0 := mkReadLease _ _ _ _ _ _ _ _ _ _).
  assert (0 ≤ af_Bytes a) by (rewrite <-(sv_size _ _ _ _ Hs); apply zlen_nonneg).
  assert (0 ≤ rst_pinnedBytes s1).
  { rewrite (rc_pinned _ _ _ Hc1). apply map_sum_nonneg. intros k x Hx. eapply lease_bytes_nonneg.
    by apply (rc_leases _ _ _ Hc1). }
  assert (int64_ok (af_Bytes a)) as Hint.
  { apply int64_artifact. destruct (rc_limits _ _ _ Hc1). lia. }
  pose proof (prepareLocked_spec (rst_limits s1) w1 l0 (rq_Ref r) (rq_Offset r) (rq_MaxBytes r) now' data Hs) as Hp.
  destruct (prepareLocked _ _ _ _ _ _ _) as [[l' rsp]|e]; [|by intros [= <- <- <-]].
  destruct Hp as [(Hsid & _ & Hk & Ha & Ho & _) Hr _ _ _ _]; [unfold lease_bytes; simpl; lia|done|done|]. intros [= <- <- <-].
  split; [|done]. split; [|simpl; congruence].
  eapply insert_core; try done; try lia. exists b. split; [by apply Hd|done].
Qed.

(** A continuation. *)
Lemma readContinuation_spec P s w scope r now now' s' w' res :
  read_inv P s w → valid_bounds r → readContinuation s w scope r now now' = (s', w', res) →
  read_inv P s' w' ∧ client w w'.
Proof.
  intros Hinv [Hoff Hmax]. unfold readContinuation.
  destruct (_ || _); [by intros [= <- <- <-]|]. destruct (parseReadHandle (rq_Ref r)) as [id|]; [|by intros [= <- <- <-]].
  destruct (rst_closed s) eqn:Hcl; [by intros [= <- <- <-]|].
  destruct (sweep_reads s w now) as [s1 w1] eqn:Hsw.
  destruct (sweep_reads_spec _ _ _ _ _ _ Hinv Hsw) as ([Hc1 Hcl1] & Hcw & Hlim & Hclo & Hreads).
  destruct (rst_reads s1 !! id) as [l|] eqn:Hl; [|by intros [= <- <- <-]].
  destruct (negb _); [by intros [= <- <- <-]|].
  destruct (_ =? _); [destruct (_ && _); by intros [= <- <- <-]|].
  destruct (le_final l || _) eqn:Hg; [by intros [= <- <- <-]|].
  apply orb_false_iff in Hg as [_ Hnext]. bool_hyps.
  destruct (rc_leases _ _ _ Hc1 _ _ Hl) as [Hlid Hh (data & Hs & Hr)].
  pose proof (core_bytes _ _ _ _ _ Hc1 Hl) as Hbytes.
  assert (0 ≤ rq_Offset r ≤ lease_bytes l) as Hoff'.
  { split; [lia|]. rewrite Hnext, (ro_response _ _ _ Hr). unfold chunk_response. cbn [rp_NextOffset].
    unfold window. rewrite zlen_take, zlen_drop, (sv_size _ _ _ _ Hs). pose proof (ro_offset _ _ _ Hr).
    unfold lease_bytes. lia. }
  pose proof (prepareLocked_spec (rst_limits s1) w1 l (rq_Ref r) (rq_Offset r) (rq_MaxBytes r) now' data Hs Hoff' Hmax) as Hp.
  destruct (prepareLocked _ _ _ _ _ _ _) as [[l' rsp]|e]; [|by intros [= <- <- <-]].
  destruct Hp as [Hsame Hr' _ _ _ _]; [by apply int64_artifact|]. intros [= <- <- <-].
  split; [|done]. split; [by eapply update_core|simpl; congruence].
Qed.

Lemma read_Close_spec P s w s' w' : read_inv P s w → read_Close s w = (s', w') → read_inv P s' w' ∧ client w w'.
Proof.
  intros [Hc Hcl]. unfold read_Close. destruct (rst_closed s) eqn:Hclo; [intros [= <- <-]; split; [split; [done|intros _; by apply Hcl]|done]|].
  set (s1 := mkReadLeaseStore _ true _ _ _ _). intros Hf.
  assert (read_core P s1 w) as Hc1 by (destruct Hc; by split).
  destruct (drop_all (λ _, true) P s1 w _ Hc1 (Permutation_refl _)) as (H1 & H2 & H3 & H4 & H5).
  unfold drop_if in *. rewrite Hf in *. simpl in *. split; [|done]. split; [done|].
  intros _. rewrite H5. apply map_empty. intros id. apply map_lookup_filter_None. by right.
Qed.
End invariant.

(** ** Steps of the store with the registry and the snapshot store *)

Section steps.
Context {W : Type} `{SnapshotOps W} `{!SnapshotLaws W}.
Implicit Types (g : RState W).

(** The read store, the registry it serves from, and the initial reads that
    are between their two critical sections, each with the artifact and the
    lease it acquired. *)
Record RdSys := mkRdSys {
  sy_store : ReadLeaseStore;
  sy_reg : RState W;
  sy_pending : list (string * ReadRequest * (Artifact * nat));
}.

Inductive read_action : Type :=
| RAInitial (scope : string) (r : ReadRequest) (now : Time)
| RAAcquire (scope : string) (r : ReadRequest)
| RACommit (k : nat) (now now' : Time) (draws : list draw)
| RAContinue (scope : string) (r : ReadRequest) (now now' : Time)
| RAStats (now : Time)
| RAClose
| RARegistry (a : reg_action (W := W)).

Definition in_store (y : RdSys) (sw : ReadLeaseStore * W) : RdSys :=
  mkRdSys sw.1 (with_world (sy_reg y) sw.2) (sy_pending y).

Definition sys_exec (y : RdSys) (a : read_action) : RdSys :=
  let s := sy_store y in
  let w := g_world (sy_reg y) in
  match a with
  | RAInitial scope r now => in_store y (initial_replay s w scope r now).1
  | RAAcquire scope r =>
      let '(g, acquired) := initial_acquire (sy_reg y) r in
      mkRdSys s g (match acquired with
                   | Ok (a, o) => (scope, r, (a, o)) :: sy_pending y
                   | Err _ => sy_pending y
                   end)
  | RACommit k now now' draws =>
      match sy_pending y !! k with
      | Some (scope, r, (a, o)) =>
          in_store (mkRdSys s (sy_reg y) (delete k (sy_pending y)))
            (initial_commit s w scope r a o now now' draws).1
      | None => y
      end
  | RAContinue scope r now now' => in_store y (readContinuation s w scope r now now').1
  | RAStats now => in_store y (read_Stats s w now).1
  | RAClose => in_store y (read_Close s w)
  | RARegistry a => mkRdSys s (reg_exec (sy_reg y) a) (sy_pending y)
  end.

Definition held (y : RdSys) : list nat := objects (sy_store y) (map snd (sy_pending y)).

(** [Read] validates the bounds before anything else; the registry's and the
    snapshot store's other clients release no artifact lease held here. *)
Definition read_allowed (y : RdSys) (a : read_action) : Prop :=
  match a with
  | RAInitial scope r _ | RAAcquire scope r | RAContinue scope r _ _ => validateReadBounds scope r = Ok tt
  | RACommit _ _ _ draws => read_draws_ok draws
  | RARegistry a => reg_allowed (sy_reg y) a ∧
      ∀ o, o ∈ held y → svc_lease_live (g_world (sy_reg y)) o = true →
        svc_lease_live (g_world (reg_exec (sy_reg y) a)) o = true
  | _ => True
  end.

Definition read_step (y y' : RdSys) : Prop := ∃ a, read_allowed y a ∧ y' = sys_exec y a.
Definition read_initial (y : RdSys) : Prop :=
  ∃ limits g, newReadLeaseStore limits = Ok (sy_store y) ∧ reg_reachable g ∧ y = mkRdSys (sy_store y) g [].
Definition read_reachable (y : RdSys) : Prop := ∃ y0, read_initial y0 ∧ rtc read_step y0 y.

Record sys_inv (y : RdSys) : Prop := {
  si_reg : reg_inv (sy_reg y);
  si_store : read_inv (map snd (sy_pending y)) (sy_store y) (g_world (sy_reg y));
  si_pending : Forall (λ p, valid_bounds p.1.2 ∧ rq_Offset p.1.2 ≤ af_Bytes p.2.1) (sy_pending y);
}.

(** ** Lemmas: the steps keep the invariants *)

Lemma client_reg g w' : reg_inv g → client (g_world g) w' → reg_inv (with_world g w').
Proof.
  intros Hg [Hev Hsn]. eapply reg_step_inv; [done|]. exists (RWorld w'). split; [|done]. split; [done|].
  intros sn (a & x & Hx & Hrefs & Hrec). rewrite Hsn.
  destruct Hg as [(E & Hh & _) _ _]. destruct (hi_snap _ _ Hh _ _ Hx Hrefs) as (sn' & Hrec' & Hlive). congruence.
Qed.

Lemma record_release_leases w rec o : svc_lease_live (record_release w rec) o = svc_lease_live w o.
Proof. unfold record_release. destruct (rec_snapshot rec); [apply svc_release_lease_live|done]. Qed.

Lemma release_leases g a o : svc_lease_live (g_world (release g a)) o = svc_lease_live (g_world g) o.
Proof.
  unfold release. destruct (g_heap g !! a); [|done]. destruct (_ <=? 0); [done|].
  destruct (_ && _); [|done]. apply record_release_leases.
Qed.

Lemma lease_Release_leases g l o : svc_lease_live (g_world (lease_Release g l)) o = svc_lease_live (g_world g) o.
Proof.
  unfold lease_Release. destruct (g_leases g !! l); [|done]. destruct (ls_once _); [done|]. by rewrite release_leases.
Qed.

Lemma Lookup_world g id : g_world (Lookup g id).1 = g_world g.
Proof. unfold Lookup. destruct (r_closed _); [done|]. by destruct (live_entry g id) as [[a x]|]. Qed.

Lemma acquire_serves w rec ref w' a o :
  svc_ok w → record_acquireArtifact w rec ref = (w', Some (a, o)) →
  client w w' ∧ svc_lease_live w o = false ∧ (∀ o', svc_lease_live w o' = true → svc_lease_live w' o' = true) ∧
  ∃ data, serves w' a o data.
Proof.
  intros Hok. unfold record_acquireArtifact. destruct (rec_artifacts rec !! ref) as [a'|]; [|done].
  destruct (rec_snapshot rec) as [sn|]; [|done].
  pose proof (client_acquire w sn (af_Path a') (af_Bytes a') (af_SHA256 a')) as Hcl.
  destruct (svc_acquireArtifact _ _ _ _ _) as [w1 [l|]] eqn:Ha; [|done]. intros [= <- <- <-].
  split; [done|]. split; [by eapply svc_acquire_fresh|]. split.
  - intros o' Ho'. rewrite (svc_acquire_lease_live _ _ _ _ _ _ _ o' Ha), Ho'. done.
  - destruct (svc_acquire_Some _ _ _ _ _ _ _ Hok Ha) as (data & _ & Hsz & Hsha & Hr). exists data. split; try done.
    rewrite (svc_acquire_lease_live _ _ _ _ _ _ _ l Ha), bool_decide_true by done. apply orb_true_r.
Qed.

Lemma acquire_none w rec ref w' : record_acquireArtifact w rec ref = (w', None) →
  client w w' ∧ ∀ o', svc_lease_live w o' = true → svc_lease_live w' o' = true.
Proof.
  unfold record_acquireArtifact. destruct (rec_artifacts rec !! ref) as [a'|]; [|by intros [= <-]].
  destruct (rec_snapshot rec) as [sn|]; [|by intros [= <-]].
  pose proof (client_acquire w sn (af_Path a') (af_Bytes a') (af_SHA256 a')) as Hcl.
  destruct (svc_acquireArtifact _ _ _ _ _) as [w1 [l|]] eqn:Ha; [done|]. intros [= <-]. split; [done|].
  intros o' Ho'. by rewrite (svc_acquire_lease_live _ _ _ _ _ _ _ o' Ha), Ho'.
Qed.

(** What the unlocked middle of an initial read does. *)
Lemma initial_acquire_spec g r g' res :
  reg_inv g → initial_acquire g r = (g', res) →
  reg_inv g' ∧ svc_evolves (g_world g) (g_world g') ∧
  (∀ o, svc_lease_live (g_world g) o = true → svc_lease_live (g_world g') o = true) ∧
  match res with
  | Ok (a, o) => svc_lease_live (g_world g) o = false ∧ rq_Offset r ≤ af_Bytes a ∧ readableArtifactKind (af_Kind a) = true ∧
      ∃ data, serves (g_world g') a o data
  | Err _ => True
  end.
Proof.
  intros Hg. unfold initial_acquire. pose proof (Lookup_inv g (rq_CapabilityID r) Hg) as Hg1.
  pose proof (Lookup_world g (rq_CapabilityID r)) as Hw1.
  destruct (Lookup g (rq_CapabilityID r)) as [g1 [cl|e]]; simpl in *.
  2: { intros [= <- <-]. rewrite Hw1. split_and!; [done|apply svc_evolves_refl|done|done]. }
  assert (svc_ok (g_world g1)) as Hok by (destruct Hg1 as [(E & Hh & _) _ _]; apply Hh).
  set (acq := match lease_record g1 cl with Some rec => _ | None => _ end).
  destruct acq as [w acquired] eqn:Hacq.
  assert (client (g_world g1) w ∧ (∀ o', svc_lease_live (g_world g1) o' = true → svc_lease_live w o' = true) ∧
    match acquired with Some (a, o) => svc_lease_live (g_world g1) o = false ∧ ∃ data, serves w a o data | None => True end)
    as (Hcl & Hlive & Hsv).
  { subst acq. destruct (lease_record g1 cl) as [rec|]; [|injection Hacq as <- <-; done].
    destruct acquired as [[a o]|].
    - apply acquire_serves in Hacq as (? & ? & ? & ?); [|done]. done.
    - apply acquire_none in Hacq as [? ?]. done. }
  set (g2 := lease_Release (with_world g1 w) cl).
  assert (reg_inv g2) as Hg2 by (apply lease_Release_reg_inv; by apply client_reg).
  assert (svc_evolves (g_world g) (g_world g2)) as Hev2.
  { rewrite <-Hw1. eapply svc_evolves_trans; [apply Hcl|]. apply (gr_world _ _ (grows_lease_Release (with_world g1 w) cl)). }
  assert (∀ o, svc_lease_live (g_world g2) o = svc_lease_live w o) as Hl2 by (intros; apply lease_Release_leases).
  destruct acquired as [[a o]|].
  2: { intros [= <- <-]. split_and!; [done|done| |done]. intros o Ho. rewrite Hl2. apply Hlive. by rewrite Hw1. }
  destruct Hsv as (Hdead & data & Hsv). rewrite Hw1 in Hdead, Hlive.
  assert (∀ e, (with_world g2 (svc_releaseLease (g_world g2) o), @Err error (Artifact * nat) e) = (g', res) →
    reg_inv g' ∧ svc_evolves (g_world g) (g_world g') ∧
    (∀ o, svc_lease_live (g_world g) o = true → svc_lease_live (g_world g') o = true) ∧
    match res with
    | Ok (a, o) => svc_lease_live (g_world g) o = false ∧ rq_Offset r ≤ af_Bytes a ∧ readableArtifactKind (af_Kind a) = true ∧
        ∃ data, serves (g_world g') a o data
    | Err _ => True
    end) as Hrefuse.
  { intros e [= <- <-]. split_and!; [|simpl| |done].
    - apply client_reg; [done|apply client_releaseLease].
    - eapply svc_evolves_trans; [done|apply svc_releaseLease_evolves].
    - intros o' Ho'. simpl. rewrite svc_releaseLease_lease_live, Hl2, Hlive by done. simpl.
      apply negb_true_iff, Nat.eqb_neq. intros <-. congruence. }
  destruct (readableArtifactKind (af_Kind a)) eqn:Hk; simpl; [|by apply Hrefuse].
  destruct (rq_Offset r >? af_Bytes a) eqn:Hoff; bool_hyps; [by apply Hrefuse|]. intros [= <- <-].
  split_and!; [done|done| |done|done|done|].
  - intros o' Ho'. rewrite Hl2. by apply Hlive.
  - exists data. eapply (serves_stable w); [| |by rewrite Hl2; apply Hsv|done].
    + eapply svc_evolves_ok; [exact Hok|apply Hcl].
    + apply (gr_world _ _ (grows_lease_Release (with_world g1 w) cl)).
Qed.

Lemma in_store_inv y P s' w' :
  reg_inv (sy_reg y) → client (g_world (sy_reg y)) w' → read_inv (map snd P) s' w' →
  Forall (λ p, valid_bounds p.1.2 ∧ rq_Offset p.1.2 ≤ af_Bytes p.2.1) P → P = sy_pending y →
  sys_inv (in_store y (s', w')).
Proof. intros Hg Hcl Hinv Hp ->. split; simpl; [by apply client_reg|done|done]. Qed.

Lemma initial_replay_spec P s w scope r now s' w' res :
  read_inv P s w → initial_replay s w scope r now = (s', w', res) → read_inv P s' w' ∧ client w w'.
Proof.
  intros Hinv. unfold initial_replay. repeat (destruct (_ || _) || destruct (negb _)); try (by intros [= <- <- <-]).
  destruct (rst_closed s); [by intros [= <- <- <-]|].
  destruct (sweep_reads s w now) as [s1 w1] eqn:Hsw.
  destruct (sweep_reads_spec _ _ _ _ _ _ Hinv Hsw) as (Hi & Hcl & _).
  destruct (rst_attempts s1 !! _); by intros [= <- <- <-].
Qed.

Lemma sys_step_inv y y' : sys_inv y → read_step y y' → sys_inv y'.
Proof.
  intros [Hg Hs Hp] (a & Ha & ->). destruct a as [scope r now|scope r|k now now' draws|scope r now now'|now| |a]; simpl in *.
  - destruct (initial_replay _ _ _ _ _) as [[s' w'] res] eqn:He. apply (initial_replay_spec _ _ _ _ _ _ _ _ _ Hs) in He as [? ?].
    by eapply in_store_inv.
  - destruct (initial_acquire (sy_reg y) r) as [g' res] eqn:He.
    apply (initial_acquire_spec _ _ _ _ Hg) in He as (Hg' & Hev & Hlive & Hres).
    assert (read_inv (map snd (sy_pending y)) (sy_store y) (g_world g')) as [Hc' Hcl'].
    { destruct Hs as [Hc Hcl]. split; [|done]. eapply read_core_world; [done..|]. intros o Ho. apply Hlive. by eapply objects_live. }
    destruct res as [[a o]|]; split; simpl; try done.
    + destruct Hres as (Hdead & Hoff & _ & data & Hsv). split; [|done].
      assert (objects (sy_store y) ((a, o) :: map snd (sy_pending y)) ≡ₚ o :: objects (sy_store y) (map snd (sy_pending y))) as Hperm
        by (unfold objects; simpl; by rewrite <-Permutation_middle).
      destruct Hc' as [? ? ? ? ? ? ? ? Hnd ? ?]. split; try done.
      * rewrite Hperm. constructor; [|done]. intros Ho. destruct Hs as [Hc _].
        rewrite (objects_live _ _ _ _ Hc Ho) in Hdead. done.
      * constructor; [|done]. by exists data.
    + constructor; [|done]. split; [by eapply validateReadBounds_Ok|]. by destruct Hres as (_ & ? & _).
  - destruct (sy_pending y !! k) as [[[scope r] [a o]]|] eqn:Hk; [|by split].
    pose proof (delete_Permutation _ _ _ Hk) as Hperm.
    assert (valid_bounds r ∧ rq_Offset r ≤ af_Bytes a) as [Hb Hoff].
    { rewrite Forall_forall in Hp. apply (Hp (scope, r, (a, o))). by eapply list_elem_of_lookup_2. }
    destruct (initial_commit _ _ _ _ _ _ _ _ _) as [[s' w'] res] eqn:He.
    assert (read_inv ((a, o) :: map snd (delete k (sy_pending y))) (sy_store y) (g_world (sy_reg y))) as Hs'.
    { destruct Hs as [Hc Hcl]. split; [|done]. eapply read_core_perm; [|done]. by apply (Permutation_map snd) in Hperm. }
    apply (initial_commit_spec _ _ _ _ _ _ _ _ _ _ _ _ _ Hs' Hb Hoff Ha) in He as [Hi Hcl].
    eapply (in_store_inv _ (delete k (sy_pending y))); simpl; try done.
    rewrite Hperm in Hp. by apply Forall_cons in Hp as [_ Hp].
  - destruct (readContinuation _ _ _ _ _ _) as [[s' w'] res] eqn:He.
    apply (readContinuation_spec _ _ _ _ _ _ _ _ _ _ Hs) in He as [? ?]; [|by eapply validateReadBounds_Ok].
    by eapply in_store_inv.
  - unfold read_Stats. destruct (sweep_reads _ _ _) as [s' w'] eqn:He.
    apply (sweep_reads_spec _ _ _ _ _ _ Hs) in He as (? & ? & _). by eapply in_store_inv.
  - destruct (read_Close _ _) as [s' w'] eqn:He. apply (read_Close_spec _ _ _ _ _ Hs) in He as [? ?].
    by eapply in_store_inv.
  - destruct Ha as [Ha Hheld]. assert (reg_step (sy_reg y) (reg_exec (sy_reg y) a)) as Hst by (by exists a).
    split; simpl; [by eapply reg_step_inv| |done]. destruct Hs as [Hc Hcl]. split; [|done].
    eapply read_core_world; [done|by apply (gr_world _ _ (reg_step_grows _ _ Hst))|].
    intros o Ho. apply Hheld; [done|]. by eapply objects_live.
Qed.

Lemma read_reachable_inv y : read_reachable y → sys_inv y.
Proof.
  intros (y0 & (limits & g & Hnew & Hg%reg_reachable_inv & Hy0) & Hr).
  assert (sys_inv y0) as H0.
  { unfold newReadLeaseStore in Hnew. inv_binds Hnew. destruct r. apply validateReadLeaseLimits_Ok in Hr0.
    rewrite Hy0. simplify_eq. rewrite <-Hnew. destruct Hg as [(E & Hh & Hen) Hv1 Hv2].
    split; simpl; [split; [by exists E|done..]| |done]. split; [|done].
    destruct Hr0. split; simpl; rewrite ?map_sum_empty, ?map_size_empty; try done; try lia.
    - apply Hh.
    - intros key id. rewrite lookup_empty. split; [done|]. intros (l & Hl & _). by rewrite lookup_empty in Hl.
    - unfold objects. cbn [rst_reads]. rewrite map_to_list_empty. constructor. }
  clear Hy0 Hnew Hg. induction Hr as [|? ? ? Hst ? IH]; [done|]. apply IH. by eapply sys_step_inv.
Qed.

(** ** Lemmas: one lease over time *)

(** The lease at [id], if it is still there, is the one there was. *)
Definition frame (id : string) (s s' : ReadLeaseStore) : Prop :=
  ∀ l', rst_reads s' !! id = Some l' → ∃ l, rst_reads s !! id = Some l ∧ same_lease l l'.

Lemma same_lease_refl l : same_lease l l.
Proof. done. Qed.
Lemma frame_refl id s : frame id s s.
Proof. intros l Hl. exists l. by split. Qed.
Lemma frame_trans id s1 s2 s3 : frame id s1 s2 → frame id s2 s3 → frame id s1 s3.
Proof.
  intros F1 F2 l3 (l2 & H2 & E2)%F2. destruct (F1 _ H2) as (l1 & H1 & E1). exists l1. split; [done|].
  unfold same_lease in *. naive_solver congruence.
Qed.

Lemma sweep_frame P id s w now s' w' :
  read_inv P s w → sweep_reads s w now = (s', w') → frame id s s'.
Proof.
  intros Hinv Hs l' Hl'. destruct (sweep_reads_spec _ _ _ _ _ _ Hinv Hs) as (_ & _ & _ & _ & Hr).
  apply Hr in Hl' as [Hl _]. exists l'. by split.
Qed.

Lemma initial_replay_frame P id s w scope r now s' w' res :
  read_inv P s w → initial_replay s w scope r now = (s', w', res) → frame id s s'.
Proof.
  intros Hinv. unfold initial_replay.
  repeat (destruct (_ || _) || destruct (negb _)); try (intros [= <- <- <-]; apply frame_refl).
  destruct (rst_closed s); [intros [= <- <- <-]; apply frame_refl|].
  destruct (sweep_reads s w now) as [s1 w1] eqn:Hsw. apply (sweep_frame P id) in Hsw; [|done].
  destruct (rst_attempts s1 !! _); by intros [= <- <- <-].
Qed.

Lemma initial_commit_frame P id s w scope r a o now now' draws s' w' res :
  read_inv P s w → (∀ b, Some b ∈ draws → RawURLEncode b ≠ id) →
  initial_commit s w scope r a o now now' draws = (s', w', res) → frame id s s'.
Proof.
  intros Hinv Hd. unfold initial_commit. destruct (rst_closed s); [intros [= <- <- <-]; apply frame_refl|].
  destruct (sweep_reads s w now) as [s1 w1] eqn:Hsw. apply (sweep_frame P id) in Hsw; [|done].
  destruct (rst_attempts s1 !! _); [by intros [= <- <- <-]|]. destruct (_ || _); [by intros [= <- <- <-]|].
  destruct (unique_id _ _ _) as [id'|] eqn:Hid; [|by intros [= <- <- <-]].
  apply unique_id_Ok in Hid as (_ & b & Hb & ->).
  destruct (prepareLocked _ _ _ _ _ _ _) as [[l' rsp]|]; [|by intros [= <- <- <-]]. intros [= <- <- <-].
  intros l1. simpl. rewrite lookup_insert_ne by (by apply Hd). apply Hsw.
Qed.

Lemma prepared_same limits w l inputRef off n now l' r :
  prepareLocked limits w l inputRef off n now = Ok (l', r) → same_lease l l'.
Proof.
  unfold prepareLocked. destruct (svc_readRange _ _ _ _); [|done]. unfold guardE. cbn zeta.
  destruct (_ || _); [done|]. by intros [= <- <-].
Qed.

Lemma readContinuation_frame P id s w scope r now now' s' w' res :
  read_inv P s w → readContinuation s w scope r now now' = (s', w', res) → frame id s s'.
Proof.
  intros Hinv. unfold readContinuation.
  destruct (_ || _); [intros [= <- <- <-]; apply frame_refl|].
  destruct (parseReadHandle (rq_Ref r)) as [id'|]; [|intros [= <- <- <-]; apply frame_refl].
  destruct (rst_closed s); [intros [= <- <- <-]; apply frame_refl|].
  destruct (sweep_reads s w now) as [s1 w1] eqn:Hsw. apply (sweep_frame P id) in Hsw; [|done].
  destruct (rst_reads s1 !! id') as [l|] eqn:Hl; [|by intros [= <- <- <-]].
  destruct (negb _); [by intros [= <- <- <-]|]. destruct (_ =? _); [destruct (_ && _); by intros [= <- <- <-]|].
  destruct (_ || _); [by intros [= <- <- <-]|].
  destruct (prepareLocked _ _ _ _ _ _ _) as [[l' rsp]|] eqn:Hp; [|by intros [= <- <- <-]]. intros [= <- <- <-].
  apply prepared_same in Hp. intros l1. simpl. destruct (decide (id' = id)) as [->|Hne].
  - rewrite lookup_insert_eq. intros [= <-]. destruct (Hsw _ Hl) as (l0 & Hl0 & Hs0). exists l0. split; [done|].
    unfold same_lease in *. naive_solver congruence.
  - rewrite lookup_insert_ne by done. apply Hsw.
Qed.

(** Steps during which no new lease is given the 128-bit value [id]. *)
Definition read_step_avoiding (id : string) (y y' : RdSys) : Prop :=
  ∃ a, read_allowed y a ∧
    match a with RACommit _ _ _ draws => ∀ b, Some b ∈ draws → (RawURLEncode b ≠ id) | _ => True end ∧
    y' = sys_exec y a.

Lemma read_step_frame id y y' :
  sys_inv y → read_step_avoiding id y y' →
  sys_inv y' ∧ frame id (sy_store y) (sy_store y') ∧ svc_evolves (g_world (sy_reg y)) (g_world (sy_reg y')).
Proof.
  intros Hi (a & Ha & Hav & Heq). assert (sys_inv y') as Hi' by (eapply sys_step_inv; [done|by exists a]).
  split; [done|]. destruct Hi as [Hg Hs Hp]. rewrite Heq. clear Heq Hi'.
  destruct a as [scope r now|scope r|k now now' draws|scope r now now'|now| |a]; simpl in *.
  - destruct (initial_replay _ _ _ _ _) as [[s' w'] res] eqn:He. pose proof He as He'.
    apply (initial_replay_frame _ id _ _ _ _ _ _ _ _ Hs) in He. split; [done|].
    apply (initial_replay_spec _ _ _ _ _ _ _ _ _ Hs) in He' as [_ Hcl]. apply Hcl.
  - destruct (initial_acquire (sy_reg y) r) as [g' res] eqn:He. split; [apply frame_refl|].
    by apply (initial_acquire_spec _ _ _ _ Hg) in He as (_ & Hev & _).
  - destruct (sy_pending y !! k) as [[[scope r] [a o]]|] eqn:Hk; [|split; [apply frame_refl|apply svc_evolves_refl]].
    pose proof (delete_Permutation _ _ _ Hk) as Hperm.
    assert (valid_bounds r ∧ rq_Offset r ≤ af_Bytes a) as [Hb Hoff].
    { rewrite Forall_forall in Hp. apply (Hp (scope, r, (a, o))). by eapply list_elem_of_lookup_2. }
    destruct (initial_commit _ _ _ _ _ _ _ _ _) as [[s' w'] res] eqn:He. pose proof He as He'.
    assert (read_inv ((a, o) :: map snd (delete k (sy_pending y))) (sy_store y) (g_world (sy_reg y))) as Hs'.
    { destruct Hs as [Hc Hcl]. split; [|done]. eapply read_core_perm; [|done]. by apply (Permutation_map snd) in Hperm. }
    apply (initial_commit_frame _ id _ _ _ _ _ _ _ _ _ _ _ _ Hs' Hav) in He. split; [done|].
    apply (initial_commit_spec _ _ _ _ _ _ _ _ _ _ _ _ _ Hs' Hb Hoff Ha) in He' as [_ Hcl]. apply Hcl.
  - destruct (readContinuation _ _ _ _ _ _) as [[s' w'] res] eqn:He. pose proof He as He'.
    apply (readContinuation_frame _ id _ _ _ _ _ _ _ _ _ Hs) in He. split; [done|].
    apply (readContinuation_spec _ _ _ _ _ _ _ _ _ _ Hs) in He' as [_ Hcl]; [|by eapply validateReadBounds_Ok]. apply Hcl.
  - unfold read_Stats. destruct (sweep_reads _ _ _) as [s' w'] eqn:He. split; [by eapply sweep_frame|].
    by apply (sweep_reads_spec _ _ _ _ _ _ Hs) in He as (_ & Hcl & _); apply Hcl.
  - destruct (read_Close _ _) as [s' w'] eqn:He. pose proof He as He'.
    apply (read_Close_spec _ _ _ _ _ Hs) in He as [[_ Hempty] Hcl]. split; [|apply Hcl].
    intros l' Hl'. simpl in Hl'. rewrite Hempty in Hl'; [by rewrite lookup_empty in Hl'|].
    unfold read_Close in He'. destruct (rst_closed (sy_store y)) eqn:Hc; [by simplify_eq|].
    set (s1 := mkReadLeaseStore _ true _ _ _ _) in He'.
    assert (read_core (map snd (sy_pending y)) s1 (g_world (sy_reg y))) as Hc1 by (destruct Hs as [[] _]; by split).
    destruct (drop_all (λ _, true) _ s1 _ _ Hc1 (Permutation_refl _)) as (_ & _ & _ & H4 & _).
    unfold drop_if in H4. by rewrite He' in H4.
  - destruct Ha as [Ha Hheld]. split; [apply frame_refl|].
    apply (gr_world _ _ (reg_step_grows (sy_reg y) _ ltac:(by exists a))).
Qed.

(** The lease at [id] serves the bytes [data] of the artifact [a]. *)
Definition keeps (y : RdSys) (id : string) (a : Artifact) (data : bytes) : Prop :=
  ∀ l, rst_reads (sy_store y) !! id = Some l →
    le_artifact l = a ∧ serves (g_world (sy_reg y)) a (le_object l) data.

Lemma keeps_frame y y' id a data :
  sys_inv y → sys_inv y' → frame id (sy_store y) (sy_store y') →
  svc_evolves (g_world (sy_reg y)) (g_world (sy_reg y')) → keeps y id a data → keeps y' id a data.
Proof.
  intros Hi Hi' Hf Hev Hk l' Hl'. destruct (Hf _ Hl') as (l & Hl & (_ & _ & _ & Ha & Ho & _)).
  destruct (Hk _ Hl) as [Hla Hsv]. split; [congruence|]. rewrite Ho.
  eapply serves_stable; [apply (rc_world _ _ _ (proj1 (si_store _ Hi)))|done| |done]. rewrite <-Ho.
  eapply objects_live; [apply (si_store _ Hi')|]. by eapply elem_objects_read.
Qed.

Lemma keeps_steps y y' id a data :
  sys_inv y → rtc (read_step_avoiding id) y y' → keeps y id a data → sys_inv y' ∧ keeps y' id a data.
Proof.
  intros Hi Hr Hk. induction Hr as [|y1 y2 y3 H12 H23 IH]; [done|].
  destruct (read_step_frame _ _ _ Hi H12) as (Hi2 & Hf & Hev). apply IH; [done|exact (keeps_frame y1 y2 id a data Hi Hi2 Hf Hev Hk)].
Qed.

(** ** Lemmas: chunk after chunk *)

Lemma window_all data : window data 0 (zlen data) = data.
Proof. unfold window, zlen. rewrite Nat2Z.id. by apply take_ge. Qed.

Lemma serves_unique w a o d1 d2 :
  int64_ok (af_Bytes a) → serves w a o d1 → serves w a o d2 → d1 = d2.
Proof.
  intros Hint H1 H2. rewrite <-(window_all d1), <-(window_all d2).
  pose proof (zlen_nonneg d1). rewrite (sv_size _ _ _ _ H1), (sv_size _ _ _ _ H2) in *.
  pose proof (sv_range _ _ _ _ H1 0 (af_Bytes a)) as R1. rewrite (sv_range _ _ _ _ H2) in R1 by (try done; lia).
  specialize (R1 ltac:(lia) ltac:(lia) Hint Hint). by injection R1.
Qed.

(** A response is the chunk of [data] the request asked for. *)
Definition answers (id : string) (a : Artifact) (data : bytes) (off n : Z) (r : ReadResponse) : Prop :=
  ∃ l exp, le_id l = id ∧ le_artifact l = a ∧ 0 ≤ off ≤ af_Bytes a ∧ 0 < n ≤ ReadChunkMax ∧
    r = chunk_response l off (window data off n) exp.

Lemma replay_answers limits w id l data :
  lease_ok limits w id l → replay_ok limits l data →
  answers id (le_artifact l) data (re_offset (le_replay l)) (re_maxBytes (le_replay l)) (re_response (le_replay l)).
Proof. intros [Hid _ _] []. exists l, (le_expiresAt l). done. Qed.

(** The bytes of a kept lease are those its chunks are taken from. *)
Lemma keeps_replay y id a data l :
  sys_inv y → keeps y id a data → rst_reads (sy_store y) !! id = Some l →
  lease_ok (rst_limits (sy_store y)) (g_world (sy_reg y)) id l ∧ le_artifact l = a ∧
  serves (g_world (sy_reg y)) a (le_object l) data ∧ replay_ok (rst_limits (sy_store y)) l data.
Proof.
  intros Hi Hk Hl. destruct (Hk _ Hl) as [Ha Hsv]. destruct (si_store _ Hi) as [Hc _].
  pose proof (rc_leases _ _ _ Hc _ _ Hl) as Hok. split; [done|]. split; [done|]. split; [done|].
  destruct Hok as [_ _ (d & Hd & Hr)]. rewrite Ha in Hd.
  rewrite (serves_unique (g_world (sy_reg y)) a (le_object l) data d); [done| |done|done]. apply int64_artifact. rewrite <-Ha.
  exact (core_bytes _ _ _ _ _ Hc Hl).
Qed.

Lemma keeps_sweep y s1 w1 now id a data :
  sys_inv y → sweep_reads (sy_store y) (g_world (sy_reg y)) now = (s1, w1) → keeps y id a data →
  sys_inv (in_store y (s1, w1)) ∧ keeps (in_store y (s1, w1)) id a data.
Proof.
  intros Hi Hs Hk. apply (keeps_steps y _ id a data Hi); [|done]. apply rtc_once. exists (RAStats now).
  split; [done|]. split; [done|]. simpl. unfold read_Stats. by rewrite Hs.
Qed.

Lemma continuation_answers y scope r now now' s' w' resp id a data :
  sys_inv y → keeps y id a data → valid_bounds r → parseReadHandle (rq_Ref r) = Some id →
  readContinuation (sy_store y) (g_world (sy_reg y)) scope r now now' = (s', w', Ok resp) →
  answers id a data (rq_Offset r) (rq_MaxBytes r) resp.
Proof.
  intros Hi Hk [Hoff Hmax] Hh. unfold readContinuation. rewrite Hh.
  destruct (_ || _); [done|]. destruct (rst_closed _); [done|].
  destruct (sweep_reads _ _ now) as [s1 w1] eqn:Hsw.
  destruct (keeps_sweep _ _ _ _ _ _ _ Hi Hsw Hk) as [Hi1 Hk1].
  destruct (rst_reads s1 !! id) as [l|] eqn:Hl; [|done].
  destruct (keeps_replay _ _ _ _ _ Hi1 Hk1 Hl) as (Hok & Ha & Hsv & Hr). simpl in *.
  destruct (negb _); [done|]. destruct (rq_Offset r =? re_offset (le_replay l)) eqn:Heq; bool_hyps.
  - destruct (_ && _) eqn:Hm; [|done]. apply andb_true_iff in Hm as [_ Hm%Z.eqb_eq]. intros [= <- <- <-].
    rewrite Heq, <-Hm, <-Ha. by eapply replay_answers.
  - destruct (le_final l || _) eqn:Hg; [done|]. apply orb_false_iff in Hg as [_ Hnext]. bool_hyps.
    assert (0 ≤ rq_Offset r ≤ lease_bytes l) as Hoff'.
    { split; [lia|]. rewrite Hnext, (ro_response _ _ _ Hr). unfold chunk_response. cbn [rp_NextOffset].
      unfold window. rewrite zlen_take, zlen_drop, (sv_size _ _ _ _ Hsv), <-Ha. pose proof (ro_offset _ _ _ Hr).
      unfold lease_bytes. lia. }
    assert (int64_ok (lease_bytes l)) as Hint.
    { apply int64_artifact. exact (core_bytes _ _ _ _ _ (proj1 (si_store _ Hi1)) Hl). }
    rewrite <-Ha in Hsv.
    pose proof (prepareLocked_spec (rst_limits s1) w1 l (rq_Ref r) (rq_Offset r) (rq_MaxBytes r) now' data Hsv Hoff' Hmax Hint) as Hp.
    destruct (prepareLocked _ _ _ _ _ _ _) as [[l' rsp]|e]; [|done]. intros [= <- <- <-].
    destruct Hp as [(Hsid & _ & _ & Hsa & _) Hr' -> _ Hpo Hpm].
    exists l', (le_expiresAt l'). split; [rewrite Hsid; apply Hok|]. split; [congruence|].
    split; [by rewrite <-Ha|]. split; [done|]. rewrite (ro_response _ _ _ Hr'), Hpo, Hpm. done.
Qed.

Lemma attempt_answers limits s w r key id resp :
  rst_attempts s !! key = Some id → map_Forall (lease_ok limits w) (rst_reads s) →
  replay_attempt s id r = Ok resp →
  ∃ l data, rst_reads s !! id = Some l ∧ serves w (le_artifact l) (le_object l) data ∧
    answers id (le_artifact l) data (rq_Offset r) (rq_MaxBytes r) resp.
Proof.
  intros Hkey Hls. unfold replay_attempt. destruct (rst_reads s !! id) as [l|] eqn:Hl; [|done].
  destruct (_ && _) eqn:Hm; [|done]. apply andb_true_iff in Hm as [[_ Ho%Z.eqb_eq]%andb_true_iff Hm%Z.eqb_eq].
  intros [= <-]. destruct (Hls _ _ Hl) as [Hid Hh (data & Hs & Hr)]. exists l, data. split; [done|]. split; [done|].
  rewrite <-Ho, <-Hm. eapply replay_answers; [|done]. by split; [..|exists data].
Qed.

(** The answer of an initial read, and the lease it leaves. *)
Lemma commit_answers P s w scope r a o now now' draws s' w' resp :
  read_inv ((a, o) :: P) s w → valid_bounds r → rq_Offset r ≤ af_Bytes a → read_draws_ok draws →
  initial_commit s w scope r a o now now' draws = (s', w', Ok resp) →
  ∃ id l data, rst_reads s' !! id = Some l ∧ serves w' (le_artifact l) (le_object l) data ∧
    answers id (le_artifact l) data (rq_Offset r) (rq_MaxBytes r) resp.
Proof.
  intros Hinv Hb Hle Hd He. pose proof He as He'.
  apply (initial_commit_spec _ _ _ _ _ _ _ _ _ _ _ _ _ Hinv Hb Hle Hd) in He' as [[Hc' _] _].
  revert He. unfold initial_commit. destruct (rst_closed s); [done|].
  destruct (sweep_reads s w now) as [s1 w1] eqn:Hsw.
  destruct (sweep_reads_spec _ _ _ _ _ _ Hinv Hsw) as ([Hc1 _] & _).
  destruct (rst_attempts s1 !! readAttemptKey scope r) as [id|] eqn:Hkey.
  { intros [= <- <- Hr]. apply (attempt_answers (rst_limits s1) _ (svc_releaseLease w1 o) _ _ _ _ Hkey) in Hr as (l & data & ? & ? & ?).
    - by exists id, l, data.
    - apply (rc_leases _ _ _ Hc'). }
  destruct (_ || _) eqn:Hq; [done|]. bool_hyps. destruct (unique_id _ _ _) as [id|]; [|done].
  assert (∃ data, serves w1 a o data) as [data Hs].
  { pose proof (rc_pending _ _ _ Hc1) as Hp. by apply Forall_cons in Hp as [Hp _]. }
  set (l0 := mkReadLease _ _ _ _ _ _ _ _ _ _).
  assert (int64_ok (af_Bytes a)) as Hint.
  { apply int64_artifact. split; [rewrite <-(sv_size _ _ _ _ Hs); apply zlen_nonneg|].
    assert (0 ≤ rst_pinnedBytes s1).
    { rewrite (rc_pinned _ _ _ Hc1). apply map_sum_nonneg. intros k x Hx. eapply lease_bytes_nonneg.
      by apply (rc_leases _ _ _ Hc1). }
    destruct (rc_limits _ _ _ Hc1). lia. }
  pose proof (prepareLocked_spec (rst_limits s1) w1 l0 (rq_Ref r) (rq_Offset r) (rq_MaxBytes r) now' data Hs) as Hp.
  destruct (prepareLocked _ _ _ _ _ _ _) as [[l' rsp]|e]; [|done].
  destruct Hb as [Hoff Hmax].
  destruct Hp as [(Hsid & _ & _ & Hsa & Hso & _) Hr -> _ Hpo Hpm]; [unfold lease_bytes; simpl; lia|done|done|].
  intros [= <- <- <-]. simpl in Hsid, Hsa, Hso. exists id, l', data. simpl. rewrite lookup_insert_eq.
  split; [done|]. rewrite Hsa, Hso. split; [done|].
  exists l', (le_expiresAt l'). split; [done|]. split; [done|]. split; [lia|]. split; [done|].
  by rewrite (ro_response _ _ _ Hr), Hpo, Hpm.
Qed.

(** A client that reads on from a response: the responses it collects, while
    the store's other clients make any steps in between. *)
Inductive reads_on (scope id : string) : RdSys → ReadResponse → list ReadResponse → Prop :=
| reads_last y r : rp_Complete r = true → reads_on scope id y r [r]
| reads_more y y1 r req now now' s' w' r' rs :
    rp_Complete r = false →
    rtc (read_step_avoiding id) y y1 →
    rq_Ref req = rp_ContinuationRef r → rq_Offset req = rp_NextOffset r →
    validateReadBounds scope req = Ok tt →
    readContinuation (sy_store y1) (g_world (sy_reg y1)) scope req now now' = (s', w', Ok r') →
    reads_on scope id (in_store y1 (s', w')) r' rs →
    reads_on scope id y r (r :: rs).

Lemma parseReadHandle_made b : length b = 16%nat → parseReadHandle ("read:v1:" +:+ RawURLEncode b) = Some (RawURLEncode b).
Proof.
  intros Hb. unfold parseReadHandle. rewrite slen_app, slen_RawURLEncode. unfold zlen at 1. rewrite Hb.
  assert (HasPrefix ("read:v1:" +:+ RawURLEncode b) "read:v1:" = true) as -> by (apply HasPrefix_spec; eauto).
  rewrite TrimPrefix_app, RawURLDecode_Encode. unfold zlen. by rewrite Hb.
Qed.

(** The chunks that follow a response are the rest of the artifact. *)
Lemma reads_on_chunks scope id y r rs : reads_on scope id y r rs → ∀ a data off n,
  sys_inv y → keeps y id a data → zlen data = af_Bytes a → (∃ b, length b = 16%nat ∧ id = RawURLEncode b) →
  answers id a data off n r →
  ∃ chunks, Forall2 (λ r c, rp_DataBase64 r = StdEncode c) rs chunks ∧ mjoin chunks = drop (Z.to_nat off) data.
Proof.
  induction 1 as [y r Hlast|y y1 r req now now' s' w' r' rs Hmore Hsteps Href Hoff Hval Hread Hon IH];
    intros a data off n Hi Hk Hsize Hh (l & exp & Hid & Ha & Ho & Hn & ->).
  - exists [window data off n]. split; [by constructor|]. cbn in Hlast. apply Z.eqb_eq in Hlast.
    cbn [mjoin list_join]. rewrite app_nil_r. unfold window in *. apply take_ge.
    rewrite zlen_take, zlen_drop, Ha, <-Hsize in Hlast. unfold zlen in *. rewrite length_drop. lia.
  - destruct (keeps_steps _ _ _ _ _ Hi Hsteps Hk) as [Hi1 Hk1].
    cbn in Hmore, Href. rewrite Hmore in Href. apply Z.eqb_neq in Hmore.
    destruct Hh as (b & Hb & Hidb). rewrite Hid, Hidb in Href.
    assert (parseReadHandle (rq_Ref req) = Some id) as Hparse by (rewrite Href, Hidb; by apply parseReadHandle_made).
    pose proof (validateReadBounds_Ok _ _ Hval) as Hb'.
    pose proof (continuation_answers _ _ _ _ _ _ _ _ _ _ _ Hi1 Hk1 Hb' Hparse Hread) as Hans.
    assert (sys_inv (in_store y1 (s', w')) ∧ keeps (in_store y1 (s', w')) id a data) as [Hi2 Hk2].
    { apply (keeps_steps y1 _ id a data Hi1); [|done]. apply rtc_once. exists (RAContinue scope req now now').
      split; [done|]. split; [done|]. simpl. by rewrite Hread. }
    destruct (IH a data _ _ Hi2 Hk2 Hsize ltac:(by exists b) Hans) as (chunks & Hf & Hj).
    exists (window data off n :: chunks). split; [by constructor|].
    change (window data off n ++ mjoin chunks = drop (Z.to_nat off) data). rewrite Hj, Hoff.
    cbn [chunk_response rp_NextOffset]. unfold window in *. rewrite zlen_take, zlen_drop in *.
    rewrite Ha, <-Hsize in *. unfold zlen in *.
    replace (Z.to_nat (off + Z.of_nat (Z.to_nat n) `min` (0 `max` (Z.of_nat (length data) - Z.of_nat (Z.to_nat off)))))
      with (Z.to_nat off + Z.to_nat n)%nat by lia.
    rewrite <-drop_drop. apply take_drop.
Qed.

(** ** Lemmas: retries *)

(** The lease keeps the response to this request. *)
Definition keeps_answer (l : readLease) (r : ReadRequest) (resp : ReadResponse) : Prop :=
  re_inputRef (le_replay l) = rq_Ref r ∧ re_offset (le_replay l) = rq_Offset r ∧
  re_maxBytes (le_replay l) = rq_MaxBytes r ∧ re_response (le_replay l) = resp.

Lemma replay_attempt_Ok s id r resp :
  replay_attempt s id r = Ok resp ↔ ∃ l, rst_reads s !! id = Some l ∧ keeps_answer l r resp.
Proof.
  unfold replay_attempt, keeps_answer. destruct (rst_reads s !! id) as [l|].
  2: { split; [done|]. by intros (? & [=] & _). }
  destruct (_ && _) eqn:Hm.
  - apply andb_true_iff in Hm as [[Hr%String.eqb_eq Ho%Z.eqb_eq]%andb_true_iff Hm%Z.eqb_eq]. split.
    + intros [= <-]. by exists l.
    + by intros (l' & [= <-] & _ & _ & _ & ->).
  - split; [done|]. intros (l' & [= <-] & Hr & Ho & Hmx & _). rewrite Hr, Ho, Hmx, String.eqb_refl, !Z.eqb_refl in Hm. done.
Qed.

Lemma prepared_answer limits w l inputRef off n now l' r :
  prepareLocked limits w l inputRef off n now = Ok (l', r) →
  re_inputRef (le_replay l') = inputRef ∧ re_offset (le_replay l') = off ∧ re_maxBytes (le_replay l') = n ∧
  re_response (le_replay l') = r.
Proof.
  unfold prepareLocked. destruct (svc_readRange _ _ _ _); [|done]. unfold guardE. cbn zeta.
  destruct (_ || _); [done|]. by intros [= <- <-].
Qed.

Lemma commit_keeps s w scope r a o now now' draws s' w' resp :
  initial_commit s w scope r a o now now' draws = (s', w', Ok resp) →
  rst_closed s' = rst_closed (sweep_reads s w now).1 ∧ rst_closed s = false ∧
  ∃ id l, rst_reads s' !! id = Some l ∧ rst_attempts s' !! readAttemptKey scope r = Some id ∧ keeps_answer l r resp.
Proof.
  unfold initial_commit. destruct (rst_closed s) eqn:Hcl; [done|].
  destruct (sweep_reads s w now) as [s1 w1] eqn:Hsw.
  destruct (rst_attempts s1 !! readAttemptKey scope r) as [id|] eqn:Hkey.
  { intros [= <- <- Hr]. split; [done|]. split; [done|]. apply replay_attempt_Ok in Hr as (l & Hl & Hk). by exists id, l. }
  destruct (_ || _); [done|]. destruct (unique_id _ _ _) as [id|]; [|done].
  destruct (prepareLocked _ _ _ _ _ _ _) as [[l' rsp]|e] eqn:Hp; [|done]. intros [= <- <- <-].
  split; [done|]. split; [done|]. exists id, l'. simpl. rewrite !lookup_insert_eq.
  split; [done|]. split; [done|]. by apply prepared_answer in Hp.
Qed.

Lemma sweep_keeps P s w t id l :
  read_inv P s w → rst_reads s !! id = Some l → t < le_expiresAt l →
  ∃ s2 w2, sweep_reads s w t = (s2, w2) ∧ rst_reads s2 !! id = Some l ∧ rst_closed s2 = rst_closed s ∧
    rst_limits s2 = rst_limits s ∧ read_inv P s2 w2.
Proof.
  intros Hinv Hl Ht. destruct (sweep_reads s w t) as [s2 w2] eqn:Hsw. exists s2, w2. split; [done|].
  destruct (sweep_reads_spec _ _ _ _ _ _ Hinv Hsw) as (Hi & _ & Hlim & Hcl & Hr).
  split; [by apply Hr|]. done.
Qed.

(** What the first critical section lets through. *)
Definition attempt_wellformed (r : ReadRequest) : Prop :=
  String.eqb (rq_CapabilityID r) "" = false ∧ slen (rq_CapabilityID r) ≤ MaxCapabilityIDBytes ∧
  MatchString attemptIDPattern (rq_AttemptID r) = true ∧ HasPrefix (rq_Ref r) "artifact:v1:" = true.

Lemma attempt_replayed P s w scope r t id l resp :
  read_inv P s w → rst_closed s = false → attempt_wellformed r →
  rst_reads s !! id = Some l → rst_attempts s !! readAttemptKey scope r = Some id → keeps_answer l r resp →
  t < le_expiresAt l →
  ∃ s2 w2, initial_replay s w scope r t = (s2, w2, inl (Ok resp)) ∧ rst_reads s2 !! id = Some l.
Proof.
  intros Hinv Hcl (Hc & Hlen & Hp & Hpre) Hl Hkey Hk Ht.
  destruct (sweep_keeps _ _ _ _ _ _ Hinv Hl Ht) as (s2 & w2 & Hsw & Hl2 & _ & _ & [Hc2 _]).
  exists s2, w2. split; [|done]. unfold initial_replay. rewrite Hc, Hp, Hpre, Hcl, Hsw.
  assert ((slen (rq_CapabilityID r) >? MaxCapabilityIDBytes) = false) as -> by (rewrite Z.gtb_ltb; by apply Z.ltb_ge).
  cbn [orb negb]. assert (rst_attempts s2 !! readAttemptKey scope r = Some id) as ->.
  { apply (rc_attempts _ _ _ Hc2). exists l. split; [done|].
    destruct Hinv as [Hc0 _]. apply (rc_attempts _ _ _ Hc0) in Hkey as (l0 & Hl0 & <-). congruence. }
  do 2 f_equal. apply replay_attempt_Ok. by exists l.
Qed.

Lemma continuation_keeps P s w scope r now now' s' w' resp :
  read_inv P s w → readContinuation s w scope r now now' = (s', w', Ok resp) →
  (String.eqb (rq_CapabilityID r) "" = true ∧ String.eqb (rq_AttemptID r) "" = true) ∧ rst_closed s' = false ∧
  ∃ id l, parseReadHandle (rq_Ref r) = Some id ∧ rst_reads s' !! id = Some l ∧
    le_scopeDigest l = sha256 (to_bytes scope) ∧ keeps_answer l r resp.
Proof.
  intros Hinv. unfold readContinuation. destruct (_ || _) eqn:Hg; [done|]. bool_hyps. intros Heq0. split; [done|]. revert Heq0.
  destruct (parseReadHandle (rq_Ref r)) as [id|]; [|done]. destruct (rst_closed s) eqn:Hcl; [done|].
  destruct (sweep_reads s w now) as [s1 w1] eqn:Hsw.
  destruct (sweep_reads_spec _ _ _ _ _ _ Hinv Hsw) as (_ & _ & _ & Hcl1 & _). rewrite Hcl in Hcl1.
  destruct (rst_reads s1 !! id) as [l|] eqn:Hl; [|done].
  destruct (negb _) eqn:Hsc; [done|]. bool_hyps. destruct (rq_Offset r =? re_offset (le_replay l)) eqn:Heq; bool_hyps.
  - destruct (_ && _) eqn:Hm; [|done]. apply andb_true_iff in Hm as [Hr%String.eqb_eq Hm%Z.eqb_eq].
    intros [= <- <- <-]. split; [done|]. exists id, l. by repeat split.
  - destruct (_ || _); [done|]. destruct (prepareLocked _ _ _ _ _ _ _) as [[l' rsp]|e] eqn:Hp; [|done].
    intros [= <- <- <-]. split; [done|]. exists id, l'. simpl. rewrite lookup_insert_eq.
    pose proof (prepared_same _ _ _ _ _ _ _ _ _ Hp) as (_ & -> & _). by apply prepared_answer in Hp.
Qed.

Lemma continuation_replayed P s w scope r t t' id l resp :
  read_inv P s w → rst_closed s = false →
  String.eqb (rq_CapabilityID r) "" = true ∧ String.eqb (rq_AttemptID r) "" = true →
  parseReadHandle (rq_Ref r) = Some id → rst_reads s !! id = Some l →
  le_scopeDigest l = sha256 (to_bytes scope) → keeps_answer l r resp → t < le_expiresAt l →
  ∃ s2 w2, readContinuation s w scope r t t' = (s2, w2, Ok resp) ∧ rst_reads s2 !! id = Some l.
Proof.
  intros Hinv Hcl [Hc Ha] Hid Hl Hsc (Hr & Ho & Hm & Hresp) Ht.
  destruct (sweep_keeps _ _ _ _ _ _ Hinv Hl Ht) as (s2 & w2 & Hsw & Hl2 & _).
  exists s2, w2. split; [|done]. unfold readContinuation. rewrite Hc, Ha, Hid, Hcl, Hsw, Hl2. cbn [orb negb].
  rewrite bool_decide_true by done. cbn [negb]. rewrite Ho, Z.eqb_refl, Hr, String.eqb_refl, Hm, Z.eqb_refl, Hresp. done.
Qed.
End steps.

(** ** Properties *)

Section properties.
Context {W : Type} `{SnapshotOps W} `{!SnapshotLaws W}.
Implicit Types (g : RState W).

(** C9. Whatever reads, sweeps and closes interleave with each other, with the
    registry and with the snapshot store's other clients, the read store's
    counters are exact and within their quotas, attempts and leases correspond
    one to one, every lease held is live and distinct and serves the bytes
    whose size and SHA-256 its artifact names, the chunk kept for retries is
    the one its lease describes and fits its reservation, and a closed store
    holds nothing. *)
Theorem read_store_accounting (y : RdSys (W := W)) : read_reachable y → sys_inv y.
Proof. apply read_reachable_inv. Qed.

(** C10. A client that reads chunk after chunk, presenting each continuation at
    the offset the previous response gave, receives exactly the artifact's
    bytes from where it started, whatever other requests, registry changes,
    uninstalls and sweeps happen in between; every response names the same
    digest, and it is the SHA-256 of those bytes. *)
Theorem read_reassembles (y : RdSys (W := W)) k scope r a o now now' draws s' w' resp rs id :
  read_reachable y → sy_pending y !! k = Some (scope, r, (a, o)) → read_draws_ok draws →
  initial_commit (sy_store y) (g_world (sy_reg y)) scope r a o now now' draws = (s', w', Ok resp) →
  rp_Complete resp = true ∨ rp_ContinuationRef resp = "read:v1:" +:+ id →
  reads_on scope id (in_store (mkRdSys (sy_store y) (sy_reg y) (delete k (sy_pending y))) (s', w')) resp rs →
  ∃ data chunks, zlen data = rp_StoredBytes resp ∧ hex_encode (sha256 data) = rp_SHA256 resp ∧
    Forall2 (λ r c, rp_DataBase64 r = StdEncode c) rs chunks ∧
    mjoin chunks = drop (Z.to_nat (rq_Offset r)) data.
Proof.
  intros Hy%read_reachable_inv Hk Hd He Hid Hon.
  assert (sys_inv (sys_exec y (RACommit k now now' draws))) as Hy'.
  { eapply sys_step_inv; [done|]. exists (RACommit k now now' draws). by split. }
  simpl in Hy'. rewrite Hk, He in Hy'. destruct Hy as [Hg Hs Hp].
  pose proof (delete_Permutation _ _ _ Hk) as Hperm.
  assert (valid_bounds r ∧ rq_Offset r ≤ af_Bytes a) as [Hb Hoff].
  { rewrite Forall_forall in Hp. apply (Hp (scope, r, (a, o))). by eapply list_elem_of_lookup_2. }
  assert (read_inv ((a, o) :: map snd (delete k (sy_pending y))) (sy_store y) (g_world (sy_reg y))) as Hs'.
  { destruct Hs as [Hc Hcl]. split; [|done]. eapply read_core_perm; [|done]. by apply (Permutation_map snd) in Hperm. }
  destruct (commit_answers _ _ _ _ _ _ _ _ _ _ _ _ _ Hs' Hb Hoff Hd He) as (id' & l & data & Hl & Hsv & Hans).
  destruct Hans as (l0 & exp & Hid0 & Ha0 & Ho0 & Hn0 & Hresp).
  exists data.
  assert (rp_StoredBytes resp = zlen data ∧ rp_SHA256 resp = hex_encode (sha256 data)) as [-> ->].
  { rewrite Hresp. simpl. rewrite Ha0, (sv_size _ _ _ _ Hsv), (sv_sha _ _ _ _ Hsv). done. }
  destruct Hid as [Hdone|Hcont].
  - inversion Hon; subst; [|congruence]. exists [window data (rq_Offset r) (rq_MaxBytes r)].
    split; [done|]. split; [done|]. split; [constructor; [done|constructor]|].
    cbn in Hdone. apply Z.eqb_eq in Hdone.
    change (window data (rq_Offset r) (rq_MaxBytes r) ++ [] = drop (Z.to_nat (rq_Offset r)) data). rewrite app_nil_r.
    unfold window in *. apply take_ge. rewrite zlen_take, zlen_drop, Ha0, <-(sv_size _ _ _ _ Hsv) in Hdone.
    unfold zlen in *. rewrite length_drop. lia.
  - pose proof (rc_leases _ _ _ (proj1 (si_store _ Hy')) _ _ Hl) as [Hlid (b & Hlen & Hb64) _].
    assert (id = id') as ->.
    { rewrite Hresp in Hcont. simpl in Hcont. destruct (_ =? _); [done|]. apply str_app_inv_l in Hcont. congruence. }
    destruct (reads_on_chunks scope id' _ _ _ Hon (le_artifact l) data (rq_Offset r) (rq_MaxBytes r) Hy') as (chunks & Hf & Hj).
    + intros l1 Hl1. simpl in Hl1. rewrite Hl in Hl1. injection Hl1 as <-. by split.
    + apply Hsv.
    + by exists b.
    + by exists l0, exp.
    + by exists chunks.
Qed.

(** What one response holds. *)
Record exact_chunk (data : bytes) (r : ReadRequest) (resp : ReadResponse) : Prop := {
  ec_size : rp_StoredBytes resp = zlen data;
  ec_sha : rp_SHA256 resp = hex_encode (sha256 data);
  ec_offset : rp_Offset resp = rq_Offset r;
  ec_data : rp_DataBase64 resp = StdEncode (window data (rq_Offset r) (rq_MaxBytes r));
  ec_next : rp_NextOffset resp = Z.min (rq_Offset r + rq_MaxBytes r) (zlen data);
  ec_complete : rp_Complete resp = (rp_NextOffset resp =? zlen data);
  ec_progress : rp_Complete resp = false → rp_Offset resp < rp_NextOffset resp;
  ec_continues : rp_ContinuationRef resp = "" ↔ rp_Complete resp = true;
}.

Lemma answers_exact id (a : Artifact) data (w : W) o r resp :
  serves w a o data → answers id a data (rq_Offset r) (rq_MaxBytes r) resp → exact_chunk data r resp.
Proof.
  intros Hsv (l & exp & Hid & Ha & Ho & Hn & ->). pose proof (sv_size _ _ _ _ Hsv) as Hsz.
  assert (zlen (window data (rq_Offset r) (rq_MaxBytes r)) = Z.min (rq_MaxBytes r) (zlen data - rq_Offset r)) as Hw.
  { unfold window. rewrite zlen_take, zlen_drop. lia. }
  split; cbn; rewrite ?Hw, ?Ha, <-?Hsz; try done; try lia.
  - symmetry. apply Hsv.
  - destruct (_ =? _); done.
Qed.

(** Every successful read, first or continued, returns exactly the bytes
    of the artifact from the requested offset, as many as asked for or as are
    left, with the next offset; it is complete exactly when that offset is the
    artifact's size, and an incomplete chunk always makes progress. *)
Theorem read_chunk_exact (y : RdSys (W := W)) scope r now now' s' w' resp :
  read_reachable y → validateReadBounds scope r = Ok tt →
  (∃ k a o draws, sy_pending y !! k = Some (scope, r, (a, o)) ∧ read_draws_ok draws ∧
     initial_commit (sy_store y) (g_world (sy_reg y)) scope r a o now now' draws = (s', w', Ok resp)) ∨
  readContinuation (sy_store y) (g_world (sy_reg y)) scope r now now' = (s', w', Ok resp) →
  ∃ data, exact_chunk data r resp.
Proof.
  intros Hy%read_reachable_inv Hv%validateReadBounds_Ok [(k & a & o & draws & Hk & Hd & He)|He].
  - destruct Hy as [Hg Hs Hp]. pose proof (delete_Permutation _ _ _ Hk) as Hperm.
    assert (rq_Offset r ≤ af_Bytes a) as Hoff.
    { rewrite Forall_forall in Hp. apply (Hp (scope, r, (a, o))). by eapply list_elem_of_lookup_2. }
    assert (read_inv ((a, o) :: map snd (delete k (sy_pending y))) (sy_store y) (g_world (sy_reg y))) as Hs'.
    { destruct Hs as [Hc Hcl]. split; [|done]. eapply read_core_perm; [|done]. by apply (Permutation_map snd) in Hperm. }
    destruct (commit_answers _ _ _ _ _ _ _ _ _ _ _ _ _ Hs' Hv Hoff Hd He) as (id & l & data & _ & Hsv & Hans).
    exists data. by eapply answers_exact.
  - destruct (continuation_keeps _ _ _ _ _ _ _ _ _ _ (si_store _ Hy) He) as (_ & _ & id & l' & Hid & Hl' & _).
    pose proof (readContinuation_frame _ id _ _ _ _ _ _ _ _ _ (si_store _ Hy) He _ Hl') as (l & Hl & _).
    destruct (rc_leases _ _ _ (proj1 (si_store _ Hy)) _ _ Hl) as [_ _ (data & Hsv & _)].
    exists data. eapply answers_exact; [exact Hsv|].
    eapply continuation_answers; [done| |done..]. intros l1 Hl1. rewrite Hl in Hl1. injection Hl1 as <-. by split.
Qed.

(** A read that is retried, because its response was lost, is answered with
    the same response for as long as the lease lasts, and the retry changes
    nothing of the lease: neither its place nor its deadlines; the kept bytes
    are the JSON of that response. *)
Theorem read_retry_same (y : RdSys (W := W)) scope r now now' s' w' resp :
  read_reachable y → validateReadBounds scope r = Ok tt →
  (∀ k a o draws, sy_pending y !! k = Some (scope, r, (a, o)) → read_draws_ok draws → attempt_wellformed r →
     initial_commit (sy_store y) (g_world (sy_reg y)) scope r a o now now' draws = (s', w', Ok resp) →
     ∃ id l, rst_reads s' !! id = Some l ∧ re_encoded (le_replay l) = Marshal (read_response_json resp) ∧
       ∀ t, t < le_expiresAt l → ∃ s2 w2,
         initial_replay s' w' scope r t = (s2, w2, inl (Ok resp)) ∧ rst_reads s2 !! id = Some l) ∧
  (readContinuation (sy_store y) (g_world (sy_reg y)) scope r now now' = (s', w', Ok resp) →
     ∃ id l, rst_reads s' !! id = Some l ∧ re_encoded (le_replay l) = Marshal (read_response_json resp) ∧
       ∀ t t', t < le_expiresAt l → ∃ s2 w2,
         readContinuation s' w' scope r t t' = (s2, w2, Ok resp) ∧ rst_reads s2 !! id = Some l).
Proof.
  intros Hy%read_reachable_inv Hv%validateReadBounds_Ok. split.
  - intros k a o draws Hk Hd Hwf He. destruct Hy as [Hg Hs Hp]. pose proof (delete_Permutation _ _ _ Hk) as Hperm.
    assert (rq_Offset r ≤ af_Bytes a) as Hoff.
    { rewrite Forall_forall in Hp. apply (Hp (scope, r, (a, o))). by eapply list_elem_of_lookup_2. }
    assert (read_inv ((a, o) :: map snd (delete k (sy_pending y))) (sy_store y) (g_world (sy_reg y))) as Hs'.
    { destruct Hs as [Hc Hcl]. split; [|done]. eapply read_core_perm; [|done]. by apply (Permutation_map snd) in Hperm. }
    pose proof (commit_keeps _ _ _ _ _ _ _ _ _ _ _ _ He) as (Hcl' & Hcl & id & l & Hl & Hkey & Hka).
    pose proof (initial_commit_spec _ _ _ _ _ _ _ _ _ _ _ _ _ Hs' Hv Hoff Hd He) as [Hi' _].
    destruct (rc_leases _ _ _ (proj1 Hi') _ _ Hl) as [_ _ (data & _ & Hr)].
    exists id, l. split; [done|]. split.
    { rewrite (ro_encoded _ _ _ Hr). by destruct Hka as (_ & _ & _ & ->). }
    intros t Ht. eapply attempt_replayed; try done.
    rewrite Hcl'. destruct (sweep_reads _ _ now) as [s1 w1] eqn:Hsw.
    apply (sweep_reads_spec _ _ _ _ _ _ Hs') in Hsw as (_ & _ & _ & Hc1 & _). simpl. congruence.
  - intros He. pose proof (continuation_keeps _ _ _ _ _ _ _ _ _ _ (si_store _ Hy) He) as (Hf & Hcl' & id & l & Hid & Hl & Hsc & Hka).
    pose proof (readContinuation_spec _ _ _ _ _ _ _ _ _ _ (si_store _ Hy) Hv He) as [Hi' _].
    destruct (rc_leases _ _ _ (proj1 Hi') _ _ Hl) as [_ _ (data & _ & Hr)].
    exists id, l. split; [done|]. split.
    { rewrite (ro_encoded _ _ _ Hr). by destruct Hka as (_ & _ & _ & ->). }
    intros t t' Ht. by eapply continuation_replayed.
Qed.

(** Two initial reads have the same attempt key only if they are the same
    request by the same caller, unless SHA-256 collides: the hashed text
    determines the scope and every field of the request. *)
Theorem read_attempt_binds scope r scope' r' :
  validateReadBounds scope r = Ok tt → validateReadBounds scope' r' = Ok tt →
  slen (rq_CapabilityID r) ≤ MaxCapabilityIDBytes → slen (rq_CapabilityID r') ≤ MaxCapabilityIDBytes →
  readAttemptKey scope r = readAttemptKey scope' r' →
  (scope = scope' ∧ r = r') ∨
  ∃ m m', m ≠ m' ∧ m = attempt_preimage (attempt_fields scope r) ∧
    m' = attempt_preimage (attempt_fields scope' r') ∧ sha256 m = sha256 m'.
Proof.
  intros Hv Hv' Hc Hc' Hkey.
  destruct (decide (attempt_preimage (attempt_fields scope r) = attempt_preimage (attempt_fields scope' r'))) as [Heq|Hne].
  2: { right. by eexists _, _. }
  left.
  assert (∀ scope r, validateReadBounds scope r = Ok tt → slen (rq_CapabilityID r) ≤ MaxCapabilityIDBytes →
    Forall (λ s, slen s < 2 ^ 64) (attempt_fields scope r)) as Hsmall.
  { clear. intros scope r Hv Hc. pose proof (validateReadBounds_Ok _ _ Hv) as [Ho Hm].
    unfold validateReadBounds in Hv. inv_binds Hv. bool_hyps.
    assert (slen (FormatInt (rq_Offset r)) ≤ 19) by (apply slen_FormatInt; unfold MaxInt64 in *; lia).
    assert (slen (FormatInt (rq_MaxBytes r)) ≤ 19).
    { apply slen_FormatInt; [lia|]. unfold ReadChunkMax in *. change (Z.shiftl 64 10) with 65536 in *. lia. }
    unfold OpaqueReferenceMaxBytes, ReadAttemptMaxBytes, MaxCapabilityIDBytes in *.
    unfold attempt_fields. repeat constructor; lia. }
  apply attempt_preimage_inj in Heq; [|done|by apply Hsmall..].
  destruct r, r'. unfold attempt_fields in Heq. simpl in Heq. injection Heq as -> -> -> -> Ho Hm.
  apply FormatInt_inj in Ho, Hm. by subst.
Qed.

(** The parts of a chunk's JSON. *)
Lemma chunk_json_size (l : readLease) off data exp :
  slen (le_id l) ≤ 22 → slen (af_Ref (le_artifact l)) ≤ 128 → slen (af_MediaType (le_artifact l)) ≤ 256 →
  slen (af_SHA256 (le_artifact l)) ≤ 64 → 0 ≤ off ≤ lease_bytes l → lease_bytes l ≤ PinnedArtifactBytesMax →
  zlen data ≤ ReadChunkMax → zlen data ≤ lease_bytes l - off → 0 ≤ exp ≤ MaxInt64 →
  zlen (Marshal (read_response_json (chunk_response l off data exp))) ≤ ReadReplayReservation.
Proof.
  intros Hid Href Hmedia Hsha Hoff Hbytes Hdata Hfit Hexp. pose proof (zlen_nonneg data).
  unfold PinnedArtifactBytesMax, ReadChunkMax, ReadReplayReservation in *.
  change (Z.shiftl 512 20) with 536870912 in *. change (Z.shiftl 64 10) with 65536 in *. change (Z.shiftl 128 10) with 131072.
  assert (∀ z, 0 ≤ z ≤ 536870912 → zlen (render (JInt z)) ≤ 9) as Hint.
  { intros z Hz. unfold JInt. cbn [render]. rewrite slen_to_bytes. apply slen_FormatInt; lia. }
  pose proof (render_string_size (af_Ref (le_artifact l))). pose proof (render_string_size (af_MediaType (le_artifact l))).
  pose proof (render_string_size (af_SHA256 (le_artifact l))). pose proof (render_string_size (RFC3339Nano exp)).
  pose proof (slen_RFC3339Nano exp Hexp).
  pose proof (render_plain_size _ (StdEncode_plain data)) as Hb64. rewrite slen_StdEncode in Hb64.
  assert ((zlen data + 2) / 3 * 4 ≤ 87384) by (Z.to_euclidean_division_equations; lia).
  pose proof (Hint off ltac:(unfold lease_bytes in *; lia)) as Hi1.
  pose proof (Hint (off + zlen data) ltac:(unfold lease_bytes in *; lia)) as Hi2.
  pose proof (Hint (lease_bytes l) ltac:(unfold lease_bytes in *; lia)) as Hi3. unfold lease_bytes in Hi3.
  assert (∀ s, marshal_size (JStr s) = zlen (render_string s)) as Hstr by done.
  change (marshal_size (read_response_json (chunk_response l off data exp)) ≤ 131072).
  unfold read_response_json. etrans; [apply object_size|].
  rewrite members_size_app, members_size_app. cbn [chunk_response rp_Ref rp_ContinuationRef rp_Offset rp_DataBase64 rp_NextOffset
    rp_Complete rp_MediaType rp_StoredBytes rp_SHA256 rp_ExpiresAt].
  set (cont := if _ =? _ then "" else _).
  assert (slen cont ≤ 30) as Hc by (subst cont; destruct (_ =? _); [done|rewrite slen_app; change (slen "read:v1:") with 8; lia]).
  pose proof (members_size_omit "continuation_ref" cont) as Hom.
  set (omitted := members_size (omit_string "continuation_ref" cont)) in *. clearbody omitted.
  change (zlen (render_string "continuation_ref")) with 18 in Hom.
  set (complete := JBool _). assert (marshal_size complete ≤ 5) by (subst complete; by destruct (_ =? _)). clearbody complete.
  unfold members_size. cbn [foldr fst snd]. rewrite !Hstr.
  change (zlen (render_string "ref")) with 5. change (zlen (render_string "offset")) with 8.
  change (zlen (render_string "data_base64")) with 13. change (zlen (render_string "next_offset")) with 13.
  change (zlen (render_string "complete")) with 10. change (zlen (render_string "media_type")) with 12.
  change (zlen (render_string "stored_bytes")) with 14. change (zlen (render_string "sha256")) with 8.
  change (zlen (render_string "expires_at")) with 12. unfold marshal_size, Marshal in *. lia.
Qed.

(** The reservation made for a retry is always enough: whatever chunk of at
    most 64 KiB a served lease is asked for, the response fits the 128 KiB
    reserved for it, so a valid request on a live lease is never refused for
    its size. *)
Theorem read_reservation_suffices limits (w : W) (l : readLease) data inputRef off n now :
  read_limits_ok limits → serves w (le_artifact l) (le_object l) data → lease_bytes l ≤ PinnedArtifactBytesMax →
  0 ≤ off ≤ lease_bytes l → 0 < n ≤ ReadChunkMax →
  slen (le_id l) ≤ 22 → slen (af_Ref (le_artifact l)) ≤ 128 → slen (af_MediaType (le_artifact l)) ≤ 256 →
  slen (af_SHA256 (le_artifact l)) ≤ 64 →
  0 ≤ le_created l ≤ now → now + Hour ≤ MaxInt64 →
  ∃ l' r, prepareLocked limits w l inputRef off n now = Ok (l', r) ∧
    zlen (re_encoded (le_replay l')) ≤ ReadReplayReservation.
Proof.
  intros Hlim Hsv Hb Hoff Hn Hid Href Hmedia Hsha Hcr Hnow. destruct Hlim as [_ _ _ Hidle Habs Hfin].
  assert (0 ≤ lease_bytes l) by (unfold lease_bytes; rewrite <-(sv_size _ _ _ _ Hsv); apply zlen_nonneg).
  unfold prepareLocked. rewrite (sv_range _ _ _ _ Hsv).
  2,3: unfold lease_bytes in *; lia. 2: by apply int64_artifact.
  2: { unfold ReadChunkMax, int64_ok, MinInt64, MaxInt64 in *. change (Z.shiftl 64 10) with 65536 in *. lia. }
  cbn zeta. unfold guardE.
  assert (zlen (window data off n) ≤ ReadChunkMax ∧ zlen (window data off n) ≤ lease_bytes l - off) as [Hw1 Hw2].
  { unfold window. rewrite zlen_take, zlen_drop, (sv_size _ _ _ _ Hsv). unfold lease_bytes in *. lia. }
  set (exp := if _ =? _ then minTime _ _ else minTime _ _).
  assert (0 ≤ exp ≤ MaxInt64) as Hexp.
  { assert (5 * Minute ≤ Hour) as Hfive by (unfold Hour, Minute, Second; lia).
    subst exp. destruct (_ =? _); rewrite minTime_min; unfold Limits.Add; lia. }
  pose proof (chunk_json_size l off (window data off n) exp Hid Href Hmedia Hsha Hoff Hb Hw1 Hw2 Hexp) as Hsz.
  assert (ReadReplayReservation ≤ BrokerResponseMaxBytes) by (by vm_compute).
  destruct (_ || _) eqn:Hq.
  - apply orb_true_iff in Hq as [Hq|Hq]; apply Z.gtb_lt in Hq; lia.
  - eexists _, _. split; [done|]. done.
Qed.
End properties.

(** ** Witnesses *)

Section read_demo.
(** A read of the five bytes of [RegistrySteps.v]'s artifact, two first. *)
Definition rd_draw : bytes := repeat (Z_byte 3) 16.
Definition rd_id : string := RawURLEncode rd_draw.
Definition rd_request : ReadRequest :=
  mkReadRequest "everything.echo" "artifact:v1:notes" "read:AAAAAAAAAAAAAAAAAAAAAA" 0 2.
Definition rd_next : ReadRequest := mkReadRequest "" ("read:v1:" +:+ rd_id) "" 2 65536.
Definition rd_y0 : RdSys := mkRdSys (mkReadLeaseStore DefaultReadLeaseLimits false ∅ ∅ 0 0) demo_s1 [].
Definition rd_y1 : RdSys := sys_exec rd_y0 (RAAcquire "tenant" rd_request).
Definition rd_object : nat := match sy_pending rd_y1 with (_, _, (_, o)) :: _ => o | [] => 0%nat end.
Definition rd_commit :=
  initial_commit (sy_store rd_y1) (g_world (sy_reg rd_y1)) "tenant" rd_request demo_artifact rd_object 1000 1000 [Some rd_draw].
Definition rd_response (x : ReadLeaseStore * Snapshot.World * result error ReadResponse) : ReadResponse :=
  match x.2 with Ok r => r | Err _ => mkReadResponse "" "" 0 "" 0 false "" 0 "" "" end.
Definition rd_y2 : RdSys := in_store (mkRdSys (sy_store rd_y1) (sy_reg rd_y1) []) rd_commit.1.
Definition rd_continued := readContinuation (sy_store rd_y2) (g_world (sy_reg rd_y2)) "tenant" rd_next 2000 2000.

Lemma rd_response_eq x :
  match x.2 with Ok _ => true | Err _ => false end = true → x = (x.1.1, x.1.2, Ok (rd_response x)).
Proof. destruct x as [[s w] [r|e]]; done. Qed.

Lemma rd_pending : sy_pending rd_y1 !! 0%nat = Some ("tenant", rd_request, (demo_artifact, rd_object)).
Proof. by vm_compute. Qed.

Lemma rd_y1_reachable : read_reachable rd_y1.
Proof.
  exists rd_y0. split.
  - exists DefaultReadLeaseLimits, demo_s1. split; [done|]. split; [apply demo_s1_reachable|done].
  - apply rtc_once. exists (RAAcquire "tenant" rd_request). split; [by vm_compute|done].
Qed.

Lemma rd_draws : read_draws_ok [Some rd_draw].
Proof. intros b [[= ->]|H]%elem_of_cons; [done|]. by apply not_elem_of_nil in H. Qed.

Lemma rd_commit_eq : rd_commit = (rd_commit.1.1, rd_commit.1.2, Ok (rd_response rd_commit)).
Proof. apply rd_response_eq. by vm_compute. Qed.

Lemma rd_y2_step : read_step rd_y1 rd_y2.
Proof.
  exists (RACommit 0 1000 1000 [Some rd_draw]). split; [apply rd_draws|].
  unfold sys_exec. rewrite rd_pending. unfold rd_y2. f_equal.
Qed.

Lemma rd_y2_reachable : read_reachable rd_y2.
Proof.
  destruct rd_y1_reachable as (y0 & H0 & Hr). exists y0. split; [done|]. eapply rtc_r; [done|apply rd_y2_step].
Qed.

Lemma rd_reads_on : reads_on "tenant" rd_id
  (in_store (mkRdSys (sy_store rd_y1) (sy_reg rd_y1) (delete 0%nat (sy_pending rd_y1))) (rd_commit.1.1, rd_commit.1.2))
  (rd_response rd_commit) [rd_response rd_commit; rd_response rd_continued].
Proof.
  rewrite <-surjective_pairing. assert (delete 0%nat (sy_pending rd_y1) = []) as -> by (by vm_compute).
  apply (reads_more _ _ _ rd_y2 _ rd_next 2000 2000 rd_continued.1.1 rd_continued.1.2 (rd_response rd_continued)).
  - by vm_compute.
  - done.
  - by vm_compute.
  - by vm_compute.
  - by vm_compute.
  - apply rd_response_eq. by vm_compute.
  - apply reads_last. by vm_compute.
Qed.
End read_demo.

Lemma read_store_accounting_witness : rst_pinnedBytes (sy_store rd_y2) = 5 ∧ sys_inv rd_y2.
Proof. split; [by vm_compute|]. apply (read_store_accounting rd_y2). apply rd_y2_reachable. Defined.

Lemma read_reassembles_witness :
  ∃ data chunks, zlen data = 5 ∧ hex_encode (sha256 data) = af_SHA256 demo_artifact ∧
    Forall2 (λ r c, rp_DataBase64 r = StdEncode c) [rd_response rd_commit; rd_response rd_continued] chunks ∧
    mjoin chunks = drop 0 data.
Proof.
  assert (rp_StoredBytes (rd_response rd_commit) = 5) as <- by (by vm_compute).
  assert (rp_SHA256 (rd_response rd_commit) = af_SHA256 demo_artifact) as <- by (by vm_compute).
  apply (read_reassembles rd_y1 0 "tenant" rd_request demo_artifact rd_object 1000 1000 [Some rd_draw]
    rd_commit.1.1 rd_commit.1.2 (rd_response rd_commit) _ rd_id).
  - apply rd_y1_reachable.
  - apply rd_pending.
  - apply rd_draws.
  - apply rd_commit_eq.
  - right. by vm_compute.
  - apply rd_reads_on.
Defined.

Lemma read_chunk_exact_witness : ∃ data, exact_chunk data rd_next (rd_response rd_continued).
Proof.
  apply (read_chunk_exact rd_y2 "tenant" rd_next 2000 2000 rd_continued.1.1 rd_continued.1.2).
  - apply rd_y2_reachable.
  - by vm_compute.
  - right. apply rd_response_eq. by vm_compute.
Defined.

Lemma read_retry_same_witness :
  ∃ id l, rst_reads rd_continued.1.1 !! id = Some l ∧
    re_encoded (le_replay l) = Marshal (read_response_json (rd_response rd_continued)) ∧
    ∀ t t', t < le_expiresAt l → ∃ s2 w2,
      readContinuation rd_continued.1.1 rd_continued.1.2 "tenant" rd_next t t' = (s2, w2, Ok (rd_response rd_continued)) ∧
      rst_reads s2 !! id = Some l.
Proof.
  apply (read_retry_same rd_y2 "tenant" rd_next 2000 2000 rd_continued.1.1 rd_continued.1.2).
  - apply rd_y2_reachable.
  - by vm_compute.
  - apply rd_response_eq. by vm_compute.
Defined.

Lemma read_attempt_binds_witness :
  ("tenant" = "tenant" ∧ rd_request = rd_request) ∨
  ∃ m m', m ≠ m' ∧ m = attempt_preimage (attempt_fields "tenant" rd_request) ∧
    m' = attempt_preimage (attempt_fields "tenant" rd_request) ∧ sha256 m = sha256 m'.
Proof. apply (read_attempt_binds "tenant" rd_request "tenant" rd_request); by vm_compute. Defined.

Definition rd_lease : readLease :=
  mkReadLease rd_id [] [] demo_artifact rd_object 1000 1000 1000 false
    (mkReadReplay "" 0 0 (mkReadResponse "" "" 0 "" 0 false "" 0 "" "") []).

Lemma rd_serves : ∃ data, serves (g_world (sy_reg rd_y1)) demo_artifact rd_object data.
Proof.
  destruct (read_reachable_inv _ rd_y1_reachable) as [_ [Hc _] _].
  pose proof (rc_pending _ _ _ Hc) as Hp. rewrite Forall_forall in Hp.
  apply (Hp (demo_artifact, rd_object)).
  apply (list_elem_of_fmap_2 snd (sy_pending rd_y1) ("tenant", rd_request, (demo_artifact, rd_object))).
  eapply list_elem_of_lookup_2. apply rd_pending.
Qed.

Lemma read_reservation_suffices_witness :
  ∃ l' r, prepareLocked DefaultReadLeaseLimits (g_world (sy_reg rd_y1)) rd_lease "artifact:v1:notes" 0 2 1000 = Ok (l', r) ∧
    zlen (re_encoded (le_replay l')) ≤ ReadReplayReservation.
Proof.
  destruct rd_serves as [data Hs].
  apply (read_reservation_suffices DefaultReadLeaseLimits (g_world (sy_reg rd_y1)) rd_lease data);
    first [done|by apply validateReadLeaseLimits_Ok|by vm_compute].
Defined.
