(* ===== verification/Yaml.v ===== *)
(** * Bounded YAML

    Models [internal/capability/yaml.go]: the checks made before and after
    [gopkg.in/yaml.v3] builds its node tree, and the readers of mappings,
    strings and sequences. The library itself is the interface [YamlDecoder]. *)
From Stdlib Require Import Ascii String.
From S2P Require Import Prelude GoStrings Limits Sha256 Utf8.
Local Open Scope string_scope.
Local Open Scope list_scope.
Local Open Scope Z_scope.

(** ** [yaml.Node] *)

Inductive YKind : Type := DocumentNode | SequenceNode | MappingNode | ScalarNode | AliasNode.
Global Instance ykind_eq_dec : EqDecision YKind.
Proof. solve_decision. Defined.

Inductive Node : Type := mkNode (kind : YKind) (tag value anchor : string) (content : list Node).
Definition nd_Kind (n : Node) : YKind := let 'mkNode k _ _ _ _ := n in k.
Definition nd_Tag (n : Node) : string := let 'mkNode _ t _ _ _ := n in t.
Definition nd_Value (n : Node) : string := let 'mkNode _ _ v _ _ := n in v.
Definition nd_Anchor (n : Node) : string := let 'mkNode _ _ _ a _ := n in a.
Definition nd_Content (n : Node) : list Node := let 'mkNode _ _ _ _ c := n in c.

(** [yaml.NewDecoder(data)]: the outcome of its first and of its second call
    of [Decode] into a [yaml.Node]; on success the node is a document. *)
Class YamlDecoder := {
  decode_first : bytes → result error Node;
  decode_second : bytes → result error Node;
}.

Record yamlLimits := mkYamlLimits { yl_bytes : Z; yl_depth : Z; yl_nodes : Z }.

(** ** The preflight scan *)

Fixpoint leadingSpaces (line : bytes) : Z :=
  match line with
  | a :: line' => if Ascii.eqb a " " then 1 + leadingSpaces line' else 0
  | [] => 0
  end.

Record scan := mkScan {
  sc_nodes : Z; sc_flow : Z; sc_single : bool; sc_double : bool; sc_escaped : bool; sc_last : ascii }.

Definition first_is (line : bytes) (c : ascii) : bool :=
  match line with a :: _ => Ascii.eqb a c | [] => false end.

Definition dquote : ascii := "034"%char.
Definition squote : ascii := "039"%char.
Definition backslash : ascii := "092"%char.
Definition NL : ascii := "010"%char.
Definition CR : ascii := "013"%char.
Definition TAB : ascii := "009"%char.

Definition set_last (c : ascii) (s : scan) : scan :=
  if Ascii.eqb c " " || Ascii.eqb c TAB then s
  else mkScan (sc_nodes s) (sc_flow s) (sc_single s) (sc_double s) (sc_escaped s) c.

(** One turn of the loop on character [c], whose successors are [rest], that
    does not end the scan; [first] tells whether its index is 0. *)
Definition scan_step (first : bool) (c : ascii) (rest : bytes) (s : scan) : scan :=
  let 'mkScan nodes flow single double escaped last := s in
  if double then
    if escaped then mkScan nodes flow single double false last
    else if Ascii.eqb c backslash then mkScan nodes flow single double true last
    else if Ascii.eqb c dquote then mkScan nodes flow single false escaped last
    else s
  else if single then
    if Ascii.eqb c squote then
      if first_is rest squote then s else mkScan nodes flow false double escaped last
    else s
  else
    set_last c
      (if Ascii.eqb c squote then mkScan nodes flow true double escaped last
       else if Ascii.eqb c dquote then mkScan nodes flow single true escaped last
       else if Ascii.eqb c "{" || Ascii.eqb c "[" then mkScan (nodes + 1) (flow + 1) single double escaped last
       else if Ascii.eqb c "}" || Ascii.eqb c "]" then mkScan nodes (flow - 1) single double escaped last
       else if Ascii.eqb c ":" || Ascii.eqb c "," then mkScan (nodes + 1) flow single double escaped last
       else if Ascii.eqb c "-" then
         if first && (match rest with [] => true | _ => first_is rest " " end)
         then mkScan (nodes + 1) flow single double escaped last else s
       else s).

Definition scan_result (s : scan) : Z * Z * bool :=
  (sc_nodes s, sc_flow s, Ascii.eqb (sc_last s) "|" || Ascii.eqb (sc_last s) ">").

Fixpoint scan_from (first : bool) (line : bytes) (s : scan) : Z * Z * bool :=
  match line with
  | [] => scan_result s
  | c :: rest =>
      if negb (sc_double s) && negb (sc_single s) && Ascii.eqb c "#" then scan_result s
      else scan_from false rest (scan_step first c rest s)
  end.

Definition scanYAMLLine (line : bytes) : Z * Z * bool :=
  scan_from true line (mkScan 1 0 false false false (ascii_of_nat 0)).

(** The variables of [preflightYAML]; the stack has its top first. *)
Record preflight := mkPreflight {
  pf_stack : list Z; pf_flow : Z; pf_nodes : Z; pf_block : Z }.

Fixpoint pop_indents (indent : Z) (stack : list Z) : list Z :=
  match stack with
  | top :: ((_ :: _) as rest) => if indent <=? top then pop_indents indent rest else stack
  | _ => stack
  end.
Definition push_indent (indent : Z) (stack : list Z) : list Z :=
  match stack with
  | top :: _ => if indent >? top then indent :: stack else stack
  | [] => stack
  end.

Definition trim_cr (line : bytes) : bytes :=
  match rev line with c :: r => if Ascii.eqb c CR then rev r else line | [] => line end.

Definition nesting_error (limits : yamlLimits) : error :=
  Errorf "YAML nesting exceeds %d levels before parsing" [FInt (yl_depth limits)].

Definition preflight_line (limits : yamlLimits) (p : preflight) (rawLine : string) : result error preflight :=
  let line := trim_cr (to_bytes rawLine) in
  let indent := leadingSpaces line in
  let trimmed := to_bytes (TrimSpace (of_bytes line)) in
  if match trimmed with [] => true | _ => first_is trimmed "#" end then Ok p
  else if (pf_block p >=? 0) && (indent >? pf_block p) then Ok p
  else
    let stack := push_indent indent (pop_indents indent (pf_stack p)) in
    let level := zlen stack - 1 in
    fail_if level + pf_flow p >? yl_depth limits with nesting_error limits else
    let '(lineNodes, lineFlow, beginsBlock) := scanYAMLLine trimmed in
    let nodes := pf_nodes p + lineNodes in
    fail_if nodes >? yl_nodes limits
      with Errorf "YAML syntax exceeds %d nodes before parsing" [FInt (yl_nodes limits)] else
    let flow := Z.max 0 (pf_flow p + lineFlow) in
    fail_if level + flow >? yl_depth limits with nesting_error limits else
    Ok (mkPreflight stack flow nodes (if beginsBlock then indent else -1)).

Definition preflightYAML (data : bytes) (limits : yamlLimits) : result error unit :=
  rmap (λ _, tt) (rfold (preflight_line limits) (mkPreflight [-1] 0 0 (-1)) (Split (of_bytes data) NL)).

(** ** The node walk *)

(** The keys of a mapping, checked in order; [seen] holds the earlier ones. *)
Fixpoint check_keys (seen : gset string) (content : list Node) : result error unit :=
  match content with
  | key :: _ :: rest =>
      fail_if String.eqb (nd_Value key) "<<" with ErrorNew "YAML merge keys are not allowed" else
      fail_if negb (bool_decide (nd_Kind key = ScalarNode)) || negb (String.eqb (nd_Tag key) "!!str")
        with ErrorNew "YAML mapping keys must be strings" else
      fail_if bool_decide (nd_Value key ∈ seen)
        with Errorf "duplicate YAML mapping key %q" [FStr (nd_Value key)] else
      check_keys ({[nd_Value key]} ∪ seen) rest
  | _ => Ok tt
  end.

Definition check_mapping (content : list Node) : result error unit :=
  fail_if negb (zlen content mod 2 =? 0) with ErrorNew "invalid YAML mapping" else
  check_keys ∅ content.

(** The checks on one node, which precede its children's. *)
Definition check_node (node : Node) (depth : Z) (limits : yamlLimits) (count : Z) : result error Z :=
  fail_if depth >? yl_depth limits with Errorf "YAML nesting exceeds %d levels" [FInt (yl_depth limits)] else
  let count := count + 1 in
  fail_if count >? yl_nodes limits with Errorf "YAML syntax exceeds %d nodes" [FInt (yl_nodes limits)] else
  fail_if bool_decide (nd_Kind node = AliasNode) || negb (String.eqb (nd_Anchor node) "")
    with ErrorNew "YAML anchors and aliases are not allowed" else
  let! _ := if bool_decide (nd_Kind node = MappingNode) then check_mapping (nd_Content node) else Ok tt in
  Ok count.

(** [count] is passed in and returned, instead of being updated through its
    pointer. *)
Fixpoint validateYAMLNode (node : Node) (depth : Z) (limits : yamlLimits) (count : Z) : result error Z :=
  let! count := check_node node depth limits count in
  let 'mkNode _ _ _ _ content := node in
  (fix children (l : list Node) (count : Z) : result error Z :=
     match l with
     | [] => Ok count
     | child :: l =>
         let! count := validateYAMLNode child (depth + 1) limits count in
         children l count
     end) content count.

Definition parseBoundedYAML `{YamlDecoder} (data : bytes) (limits : yamlLimits) : result error Node :=
  fail_if zlen data >? yl_bytes limits with Errorf "encoded YAML exceeds %d bytes" [FInt (yl_bytes limits)] else
  fail_if negb (ValidString (of_bytes data)) with ErrorNew "YAML is not valid UTF-8" else
  fail_if existsb (Ascii.eqb (ascii_of_nat 0)) data with ErrorNew "YAML contains a NUL byte" else
  let! _ := preflightYAML data limits in
  match decode_first data with
  | Err e => Err (Wrapf "invalid YAML: %w" [] e)
  | Ok document =>
      fail_if match decode_second data with
              | Ok extra => negb (zlen (nd_Content extra) =? 0)
              | Err _ => false
              end with ErrorNew "multiple YAML documents are not allowed" else
      match nd_Content document with
      | [root] => let! _ := validateYAMLNode root 1 limits 0 in Ok root
      | _ => Err (ErrorNew "YAML document is empty")
      end
  end.

(** ** Readers *)

(** A map from field names to nodes. *)
Definition fields : Type := gmap string Node.

(** Indexing past the end of a slice, which ends a Go program. *)
Definition index_panic : error := Sentinel "runtime error: index out of range".

Fixpoint mapping_loop (path : string) (allowed : list string) (result : fields) (content : list Node) :
    Prelude.result error fields :=
  match content with
  | [] => Ok result
  | key :: rest =>
      let name := nd_Value key in
      fail_if negb (bool_decide (name ∈ allowed))
        with packageError "package_manifest_unknown_field" (path +:+ "." +:+ name)
               (ErrorNew "field is not defined by v1alpha1") else
      match rest with
      | [] => Err index_panic
      | value :: rest => mapping_loop path allowed (<[name := value]> result) rest
      end
  end.

Definition mapping (node : Node) (path : string) (allowed : list string) : result error fields :=
  fail_if negb (bool_decide (nd_Kind node = MappingNode))
    with packageError "package_manifest_type_invalid" path (ErrorNew "must be a mapping") else
  mapping_loop path allowed ∅ (nd_Content node).

Definition requiredField (fs : fields) (name path : string) : result error Node :=
  match fs !! name with
  | None => Err (packageError "package_manifest_required_field" (path +:+ "." +:+ name) (ErrorNew "field is required"))
  | Some node => Ok node
  end.

(** The node is [None] for a nil pointer. *)
Definition scalarString (node : option Node) (path : string) : result error string :=
  match node with
  | Some n =>
      if bool_decide (nd_Kind n = ScalarNode) && String.eqb (nd_Tag n) "!!str" then Ok (nd_Value n)
      else Err (packageError "package_manifest_type_invalid" path (ErrorNew "must be a string"))
  | None => Err (packageError "package_manifest_type_invalid" path (ErrorNew "must be a string"))
  end.

Definition optionalString (fs : fields) (name path : string) : result error string :=
  match fs !! name with
  | None => Ok ""
  | Some node => scalarString (Some node) (path +:+ "." +:+ name)
  end.

Definition sequence (node : option Node) (path : string) : result error (list Node) :=
  match node with
  | None => Ok []
  | Some n =>
      fail_if negb (bool_decide (nd_Kind n = SequenceNode))
        with packageError "package_manifest_type_invalid" path (ErrorNew "must be a sequence") else
      Ok (nd_Content n)
  end.

(** ** Trees *)

Section node_ind.
Context (P : Node → Prop) (Hstep : ∀ k t v a c, Forall P c → P (mkNode k t v a c)).
Fixpoint Node_nested_ind (n : Node) : P n :=
  let 'mkNode k t v a c := n in
  Hstep k t v a c
    ((fix go (l : list Node) : Forall P l :=
        match l with [] => Forall_nil_2 _ | x :: l => Forall_cons_2 _ _ _ (Node_nested_ind x) (go l) end) c).
End node_ind.

(** How many nodes a tree has, and how deep it is. *)
Fixpoint node_size (n : Node) : Z :=
  let 'mkNode _ _ _ _ c := n in 1 + foldr (λ x s, node_size x + s) 0 c.
Fixpoint node_height (n : Node) : Z :=
  let 'mkNode _ _ _ _ c := n in 1 + foldr (λ x h, Z.max (node_height x) h) 0 c.
Definition sizes (c : list Node) : Z := foldr (λ x s, node_size x + s) 0 c.
Definition heights (c : list Node) : Z := foldr (λ x h, Z.max (node_height x) h) 0 c.

(** A mapping's keys and values alternate. *)
Definition interleave (l : list (Node * Node)) : list Node := flat_map (λ kv, [kv.1; kv.2]) l.
Record plain_key (key : Node) : Prop := {
  pk_kind : nd_Kind key = ScalarNode;
  pk_tag : nd_Tag key = "!!str";
  pk_merge : nd_Value key ≠ "<<";
}.
Definition plain_mapping (c : list Node) : Prop :=
  ∃ l, c = interleave l ∧ Forall (λ kv, plain_key kv.1) l ∧ NoDup (map (λ kv, nd_Value kv.1) l).

(** No anchors, aliases, merge keys or duplicate keys anywhere in the tree. *)
Inductive plain_node : Node → Prop :=
| plain_node_intro k t v c :
    k ≠ AliasNode → (k = MappingNode → plain_mapping c) → Forall plain_node c →
    plain_node (mkNode k t v "" c).

Lemma node_size_pos n : 1 ≤ node_size n.
Proof.
  induction n as [k t v a c IH] using Node_nested_ind. simpl.
  assert (0 ≤ foldr (λ x s, node_size x + s) 0 c); [|lia]. induction IH; simpl; lia.
Qed.

Lemma node_height_pos n : 1 ≤ node_height n.
Proof.
  induction n as [k t v a c IH] using Node_nested_ind. simpl.
  assert (0 ≤ foldr (λ x h, Z.max (node_height x) h) 0 c); [|lia]. induction IH; simpl; lia.
Qed.

(** ** Lemmas: mappings *)

Lemma check_keys_spec content seen :
  Z.of_nat (length content) mod 2 = 0 →
  check_keys seen content = Ok tt ↔
  ∃ l, content = interleave l ∧ Forall (λ kv, plain_key kv.1) l ∧ NoDup (map (λ kv, nd_Value kv.1) l) ∧
    ∀ kv, kv ∈ l → nd_Value kv.1 ∉ seen.
Proof.
  remember (length content) as n eqn:Hn. revert content seen Hn.
  induction n as [n IH] using (well_founded_induction lt_wf). intros content seen Hn Hmod.
  destruct content as [|key [|value rest]]; simpl in Hn.
  - split; [|done]. intros _. exists []. repeat split; [constructor|constructor|set_solver].
  - subst. done.
  - cbn [check_keys]. rewrite !guardE_Ok.
    rewrite (IH (length rest)); [|lia|done|subst n; rewrite !Nat2Z.inj_succ in Hmod; Z.to_euclidean_division_equations; lia].
    split.
    + intros (Hmerge & Hkind & Hseen & l & -> & Hf & Hnd & Hs). apply orb_false_iff in Hkind as [Hk Ht]. bool_hyps.
      apply String.eqb_neq in Hmerge. apply String.eqb_eq in Ht. exists ((key, value) :: l). split; [done|].
      split; [by constructor|]. split.
      * constructor; [|done]. simpl. intros (kv & Heq & Hin)%list_elem_of_fmap. apply (Hs kv Hin). apply elem_of_union_l, elem_of_singleton. by rewrite Heq.
      * intros kv [->|Hin]%elem_of_cons; [done|]. specialize (Hs kv Hin). set_solver.
    + intros ([|[k v] l] & Heq & Hf & Hnd & Hs); [done|]. simpl in Heq. injection Heq as -> -> ->.
      apply Forall_cons in Hf as [[Hk Ht Hm] Hf]. simpl in *. apply NoDup_cons in Hnd as [Hni Hnd].
      split; [by apply String.eqb_neq|]. split.
      { rewrite Hk, Ht. done. }
      split; [apply bool_decide_eq_false_2; apply (Hs (k, v)); by left|].
      exists l. split; [done|]. split; [done|]. split; [done|]. intros kv Hin.
      apply not_elem_of_union. split; [|apply Hs; by right]. apply not_elem_of_singleton. intros Hkv. apply Hni.
      apply list_elem_of_fmap. exists kv. split; [by symmetry|done].
Qed.

Lemma interleave_length l : length (interleave l) = (2 * length l)%nat.
Proof. induction l as [|kv l IH]; simpl in *; lia. Qed.

Lemma check_mapping_spec content : check_mapping content = Ok tt ↔ plain_mapping content.
Proof.
  unfold check_mapping. rewrite guardE_Ok. unfold zlen. split.
  - intros [Hmod Hk]. bool_hyps. apply check_keys_spec in Hk as (l & -> & Hf & Hnd & _); [|done]. by exists l.
  - intros (l & -> & Hf & Hnd). assert (Z.of_nat (length (interleave l)) mod 2 = 0) as Hmod.
    { rewrite interleave_length, Nat2Z.inj_mul. change (Z.of_nat 2) with 2. Z.to_euclidean_division_equations; lia. }
    split; [by rewrite Hmod|]. apply check_keys_spec; [done|]. exists l. set_solver.
Qed.

(** ** Lemmas: the walk *)

Lemma validateYAMLNode_eq k t v a c depth limits count :
  validateYAMLNode (mkNode k t v a c) depth limits count =
  rbind (check_node (mkNode k t v a c) depth limits count)
    (λ count, rfold (λ count child, validateYAMLNode child (depth + 1) limits count) count c).
Proof.
  cbn [validateYAMLNode]. destruct (check_node _ _ _ _) as [n|]; [|done]. cbn [rbind]. revert n.
  induction c as [|x c IH]; intros n; [done|]. cbn [rfold]. destruct (validateYAMLNode _ _ _ _); [|done]. apply IH.
Qed.

Lemma check_node_spec k t v a c depth limits count n :
  check_node (mkNode k t v a c) depth limits count = Ok n ↔
  depth ≤ yl_depth limits ∧ count + 1 ≤ yl_nodes limits ∧ k ≠ AliasNode ∧ a = "" ∧
  (k = MappingNode → plain_mapping c) ∧ n = count + 1.
Proof.
  unfold check_node. cbn [nd_Kind nd_Anchor nd_Content]. rewrite !guardE_Ok, !Z.gtb_ltb, !Z.ltb_ge, orb_false_iff, negb_false_iff,
    bool_decide_eq_false, String.eqb_eq, rbind_Ok.
  case_bool_decide as Hm.
  - split.
    + intros (? & ? & [? ->] & [] & Hk & [= <-]). apply check_mapping_spec in Hk. split_and!; auto.
    + intros (? & ? & ? & -> & Hk & ->). repeat (split; [done|]). exists tt. by rewrite (proj2 (check_mapping_spec c)) by auto.
  - split.
    + intros (? & ? & [? ->] & [] & _ & [= <-]). split_and!; auto; done.
    + intros (? & ? & ? & -> & _ & ->). repeat (split; [done|]). by exists tt.
Qed.

(** The walk accepts exactly the plain trees within the limits, and counts
    their nodes. *)
Lemma validate_exact limits node : ∀ depth count n,
  validateYAMLNode node depth limits count = Ok n ↔
  plain_node node ∧ depth + node_height node - 1 ≤ yl_depth limits ∧
  count + node_size node ≤ yl_nodes limits ∧ n = count + node_size node.
Proof.
  induction node as [k t v a c IH] using Node_nested_ind. intros depth count n.
  assert (∀ count n, rfold (λ count child, validateYAMLNode child (depth + 1) limits count) count c = Ok n ↔
    Forall plain_node c ∧ (c ≠ [] → depth + heights c ≤ yl_depth limits ∧ count + sizes c ≤ yl_nodes limits) ∧
    n = count + sizes c) as Hc.
  { clear count n. induction IH as [|x c Hx _ IHc]; intros count n; simpl.
    - split; [intros [= <-]; split; [constructor|split; [done|lia]]|intros (_ & _ & ->); f_equal; lia].
    - rewrite rbind_Ok. unfold heights, sizes in *. cbn [foldr].
      pose proof (node_height_pos x) as Hhx. pose proof (node_size_pos x) as Hsx.
      assert (0 ≤ foldr (λ x s, node_size x + s) 0 c) as Hs.
      { clear. induction c as [|y c IH]; simpl; [lia|]. pose proof (node_size_pos y). lia. }
      assert (0 ≤ foldr (λ x h, Z.max (node_height x) h) 0 c) as Hh.
      { clear. induction c as [|y c IH]; simpl; [lia|]. pose proof (node_height_pos y). lia. }
      split.
      + intros (m & (Hp & Hd & Hcount & ->)%Hx & (Hf & Hb & ->)%IHc). split; [by constructor|]. split; [|lia].
        intros _. destruct c as [|y c]; [simpl in *; lia|]. destruct (Hb ltac:(done)). lia.
      + intros ([Hp Hf]%Forall_cons & Hb & ->). destruct (Hb ltac:(done)) as [Hd Hcount].
        exists (count + node_size x). split; [apply Hx; split_and!; [done|lia..]|].
        apply IHc. split; [done|]. split; [intros _|]; lia. }
  rewrite validateYAMLNode_eq, rbind_Ok. cbn [node_size node_height]. fold (heights c) (sizes c).
  setoid_rewrite check_node_spec. setoid_rewrite Hc. split.
  - intros (m & (Hd & Hcount & Hk & -> & Hm & ->) & Hf & Hb & ->). split; [by constructor|].
    destruct c as [|x c]; [cbn [heights sizes foldr] in *; lia|]. destruct (Hb ltac:(done)). lia.
  - intros (Hp & Hd & Hcount & ->). inversion Hp; subst.
    assert (0 ≤ sizes c).
    { unfold sizes. clear. induction c as [|y c IH]; simpl; [lia|]. pose proof (node_size_pos y). lia. }
    assert (0 ≤ heights c).
    { unfold heights. clear. induction c as [|y c IH]; simpl; [lia|]. pose proof (node_height_pos y). lia. }
    exists (count + 1). split; [split_and!; try done; lia|]. split; [done|]. split; [intros _|]; lia.
Qed.

(** What the walk promises of an accepted document. *)
Lemma parseBoundedYAML_plain `{YamlDecoder} data limits root :
  parseBoundedYAML data limits = Ok root → plain_node root.
Proof.
  unfold parseBoundedYAML. intros Hr. inv_binds Hr. destruct (decode_first data) as [document|]; [|done].
  inv_binds Hr. destruct (nd_Content document) as [|n [|??]]; [done| |done]. inv_binds Hr. simplify_eq.
  by match goal with Hv : validateYAMLNode _ _ _ _ = Ok _ |- _ => apply validate_exact in Hv as [? _] end.
Qed.

(** ** Properties *)

(** C16. [parseBoundedYAML] accepts exactly the documents that are small enough,
    valid UTF-8 without NUL, pass the preflight scan, hold one document whose
    tree has no anchor, alias, merge key, non-string or duplicate key, and
    whose depth and number of nodes are within the limits. *)
Theorem bounded_yaml_exact `{YamlDecoder} data limits root :
  parseBoundedYAML data limits = Ok root ↔
  zlen data ≤ yl_bytes limits ∧ ValidString (of_bytes data) = true ∧ (ascii_of_nat 0 ∉ data) ∧
  preflightYAML data limits = Ok tt ∧
  (∃ document, decode_first data = Ok document ∧ nd_Content document = [root]) ∧
  (∀ extra, decode_second data = Ok extra → nd_Content extra = []) ∧
  plain_node root ∧ node_height root ≤ yl_depth limits ∧ node_size root ≤ yl_nodes limits.
Proof.
  unfold parseBoundedYAML. rewrite !guardE_Ok, Z.gtb_ltb, Z.ltb_ge, negb_false_iff, rbind_Ok.
  assert (existsb (Ascii.eqb (ascii_of_nat 0)) data = false ↔ ascii_of_nat 0 ∉ data) as ->.
  { generalize (ascii_of_nat 0) as z. intros z. induction data as [|a l IH]; simpl; [set_solver|].
    rewrite orb_false_iff, IH, not_elem_of_cons, Ascii.eqb_neq. done. }
  assert (∀ extra, (negb (zlen (nd_Content extra) =? 0)) = false ↔ nd_Content extra = []) as Hextra.
  { intros extra. rewrite negb_false_iff, Z.eqb_eq. destruct (nd_Content extra); [done|]. unfold zlen. simpl. split; [lia|done]. }
  split.
  - intros (Hb & Hv & H0 & [] & Hp & Hd). destruct (decode_first data) as [document|]; [|done].
    apply guardE_Ok in Hd as [He Hd]. destruct (nd_Content document) as [|r [|??]] eqn:Hc; [done| |done].
    apply rbind_Ok in Hd as (n & Hn & [= ->]). apply validate_exact in Hn as (Hplain & Hdepth & Hnodes & _).
    split_and!; try done; [by exists document| |lia].
    intros extra Hx. rewrite Hx in He. by apply Hextra.
  - intros (Hb & Hv & H0 & Hp & (document & -> & Hc) & He & Hplain & Hdepth & Hnodes).
    split_and!; try done. exists tt. split; [done|]. rewrite guardE_Ok, Hc. split.
    + destruct (decode_second data); [|done]. apply Hextra. by apply He.
    + rewrite rbind_Ok. exists (node_size root). split; [|done]. apply validate_exact. split_and!; [done|lia..].
Qed.
