(* ===== verification/Manifest.v ===== *)
(** * Capability manifests

    Models [internal/capability/manifest.go]: from the YAML tree of a package's
    [tappet.yaml] to a validated [Manifest]. *)
From Stdlib Require Import Ascii String.
From S2P Require Import Prelude GoStrings Limits Sha256 Regex Utf8 Json Text Records Yaml.
Local Open Scope string_scope.
Local Open Scope list_scope.
Local Open Scope Z_scope.

Definition manifestAPIVersion : string := "tappet.gearboxlogic.dev/v1alpha1".
Definition manifestKind : string := "Capability".

(** [fmt.Sprintf("%s[%d]", path, i)] *)
Definition indexed (path : string) (i : Z) : string := path +:+ "[" +:+ FormatInt i +:+ "]".

Definition countLimitError (fieldPath : string) (count limit : Z) : error :=
  packageError "package_count_limit_exceeded" fieldPath (Errorf "contains %d items, limit is %d" [FInt count; FInt limit]).
Definition duplicateError (fieldPath value : string) : error :=
  packageError "package_duplicate_reference" fieldPath (Errorf "duplicate value %q" [FStr value]).
Definition field_error (code path text : string) : error := packageError code path (ErrorNew text).

(** ** Fields *)

Definition requiredString (fs : fields) (name path : string) : result error string :=
  let! node := requiredField fs name path in scalarString (Some node) (path +:+ "." +:+ name).

Definition validateRequiredText (fieldPath value : string) (maxBytes : Z) : result error unit :=
  fail_if String.eqb value "" with field_error "package_field_invalid" fieldPath "must not be empty" else
  fail_if negb (ValidString value) with field_error "package_field_invalid" fieldPath "must be valid UTF-8" else
  fail_if slen value >? maxBytes
    with packageError "package_field_limit_exceeded" fieldPath (Errorf "exceeds %d normalized UTF-8 bytes" [FInt maxBytes]) else
  Ok tt.

Section manifest.
Context `{TextOps}.

Definition requiredNormalizedID (fs : fields) (name itemPath : string) (maxBytes : Z) : result error string :=
  let! value := requiredString fs name itemPath in
  let value := NFC value in
  let! _ := validateRequiredText (itemPath +:+ "." +:+ name) value maxBytes in
  fail_if negb (MatchString localIDPattern value)
    with field_error "package_identifier_invalid" (itemPath +:+ "." +:+ name)
           "must be a lowercase identifier containing letters, digits, and internal hyphens" else
  Ok value.

Definition string_item (fieldPath : string) (maxItemBytes i : Z) (acc : list string) (item : Node) :
    result error (list string) :=
  let! value := scalarString (Some item) (indexed fieldPath i) in
  let value := NFC value in
  fail_if slen value >? maxItemBytes
    with packageError "package_field_limit_exceeded" (indexed fieldPath i)
           (Errorf "exceeds %d normalized UTF-8 bytes" [FInt maxItemBytes]) else
  Ok (acc ++ [value]).

Definition parseStringSequence (node : option Node) (fieldPath : string) (maxItems maxItemBytes : Z) :
    result error (list string) :=
  let! items := sequence node fieldPath in
  fail_if zlen items >? maxItems with countLimitError fieldPath (zlen items) maxItems else
  rfoldi (string_item fieldPath maxItemBytes) 0 [] items.

Definition normalizePackagePath (value : string) (maxBytes : Z) (fieldPath : string) : result error string :=
  let value := NFC value in
  let! _ := validateRequiredText fieldPath value maxBytes in
  fail_if ContainsByte value backslash || HasPrefix value "/" || ContainsByte value (ascii_of_nat 0)
    with field_error "package_path_invalid" fieldPath "must be a portable package-relative path" else
  let cleaned := path_Clean value in
  fail_if String.eqb cleaned "." || String.eqb cleaned ".." || HasPrefix cleaned "../" || negb (String.eqb cleaned value)
    with field_error "package_path_invalid" fieldPath "must be normalized and remain inside the package" else
  Ok cleaned.

(** ** Metadata *)

(** The loop over the tags: those normalised so far, with their bytes. *)
Definition tag_step (i : Z) (s : list string * Z * gset string) (tag : string) :
    result error (list string * Z * gset string) :=
  let '(tags, tagBytes, seenTags) := s in
  let tag := NFC tag in
  fail_if String.eqb tag "" with field_error "package_field_invalid" (indexed "manifest.metadata.tags" i) "must not be empty" else
  fail_if bool_decide (tag ∈ seenTags)
    with packageError "package_duplicate_reference" (indexed "manifest.metadata.tags" i) (Errorf "duplicate tag %q" [FStr tag]) else
  Ok (tags ++ [tag], tagBytes + slen tag, {[tag]} ∪ seenTags).

Definition parse_tags (node : option Node) : result error (list string) :=
  let! tags := parseStringSequence node "manifest.metadata.tags" MaxTags MaxTagBytes in
  let! '(tags, tagBytes, _) := rfoldi tag_step 0 ([], 0, ∅) tags in
  fail_if tagBytes >? MaxAllTagsBytes
    with packageError "package_field_limit_exceeded" "manifest.metadata.tags"
           (Errorf "normalized tags exceed %d bytes" [FInt MaxAllTagsBytes]) else
  Ok tags.

Definition parseMetadata (node : Node) : result error Metadata :=
  let p := "manifest.metadata" in
  let! fs := mapping node p ["id"; "name"; "version"; "description"; "tags"] in
  let! id := requiredString fs "id" p in
  let! name := requiredString fs "name" p in
  let! version := requiredString fs "version" p in
  let! description := requiredString fs "description" p in
  let id := NFC id in
  let name := NFC name in
  let version := NFC version in
  let description := NFC description in
  let! _ := validateRequiredText "manifest.metadata.id" id MaxCapabilityIDBytes in
  fail_if negb (MatchString capabilityIDPattern id)
    with field_error "package_capability_id_invalid" "manifest.metadata.id" "must be a lowercase dot-delimited identifier" else
  let! _ := validateRequiredText "manifest.metadata.name" name MaxNameBytes in
  let! _ := validateRequiredText "manifest.metadata.version" version MaxVersionBytes in
  fail_if negb (MatchString semverPattern version)
    with field_error "package_version_invalid" "manifest.metadata.version" "must be semantic version syntax" else
  let! _ := validateRequiredText "manifest.metadata.description" description MaxDescriptionBytes in
  let! tags := parse_tags (fs !! "tags") in
  Ok (mkMetadata id name version description tags).

(** ** Providers and operations

    A loop's state is the list it appends to and its [seen] map. *)

Definition provider_step (i : Z) (s : list ProviderBinding * gset string) (item : Node) :
    result error (list ProviderBinding * gset string) :=
  let '(result, seen) := s in
  let itemPath := indexed "manifest.spec.providers" i in
  let! fs := mapping item itemPath ["id"; "type"; "serverRef"] in
  let! id := requiredNormalizedID fs "id" itemPath MaxProviderIDBytes in
  fail_if bool_decide (id ∈ seen) with duplicateError (itemPath +:+ ".id") id else
  let! providerType := requiredString fs "type" itemPath in
  let! _ := validateRequiredText (itemPath +:+ ".type") providerType MaxProviderTypeBytes in
  fail_if negb (String.eqb providerType "mcp")
    with field_error "package_provider_type_unsupported" (itemPath +:+ ".type") "only mcp is supported" else
  let! serverRef := requiredString fs "serverRef" itemPath in
  let serverRef := NFC serverRef in
  let! _ := validateRequiredText (itemPath +:+ ".serverRef") serverRef MaxServerRefBytes in
  Ok (result ++ [mkProviderBinding id providerType serverRef], {[id]} ∪ seen).

Definition parseProviders (node : option Node) : result error (list ProviderBinding) :=
  let! items := sequence node "manifest.spec.providers" in
  fail_if zlen items >? MaxProviders with countLimitError "manifest.spec.providers" (zlen items) MaxProviders else
  rmap fst (rfoldi provider_step 0 ([], ∅) items).

Definition operation_step (providers : gset string) (i : Z) (s : list Operation * gset string) (item : Node) :
    result error (list Operation * gset string) :=
  let '(result, seen) := s in
  let itemPath := indexed "manifest.spec.operations" i in
  let! fs := mapping item itemPath ["id"; "description"; "provider"; "target"] in
  let! id := requiredNormalizedID fs "id" itemPath MaxOperationIDBytes in
  fail_if bool_decide (id ∈ seen) with duplicateError (itemPath +:+ ".id") id else
  let! description := requiredString fs "description" itemPath in
  let description := NFC description in
  let! _ := validateRequiredText (itemPath +:+ ".description") description MaxOperationDescription in
  let! provider := requiredNormalizedID fs "provider" itemPath MaxProviderAliasBytes in
  fail_if negb (bool_decide (provider ∈ providers))
    with packageError "package_reference_invalid" (itemPath +:+ ".provider") (Errorf "unknown provider %q" [FStr provider]) else
  let! target := requiredString fs "target" itemPath in
  let target := NFC target in
  let! _ := validateRequiredText (itemPath +:+ ".target") target MaxOperationTargetBytes in
  Ok (result ++ [mkOperation id description provider target], {[id]} ∪ seen).

Definition parseOperations (node : option Node) (providers : gset string) : result error (list Operation) :=
  let! items := sequence node "manifest.spec.operations" in
  fail_if zlen items >? MaxOperations with countLimitError "manifest.spec.operations" (zlen items) MaxOperations else
  rmap fst (rfoldi (operation_step providers) 0 ([], ∅) items).

(** ** Skills and context *)

Definition resource_step (itemPath : string) (i : Z) (s : list SkillResource * gset string * gset string) (item : Node) :
    result error (list SkillResource * gset string * gset string) :=
  let '(resources, seenIDs, seenResourcePaths) := s in
  let resourcePath := itemPath +:+ ".resources[" +:+ FormatInt i +:+ "]" in
  let! fs := mapping item resourcePath ["id"; "kind"; "path"] in
  let! id := requiredNormalizedID fs "id" resourcePath MaxResourceIDBytes in
  fail_if bool_decide (id ∈ seenIDs) with duplicateError (resourcePath +:+ ".id") id else
  let! kind := requiredString fs "kind" resourcePath in
  fail_if (slen kind >? MaxResourceKindBytes) || negb (String.eqb kind "reference")
    with field_error "package_resource_kind_unsupported" (resourcePath +:+ ".kind") "only reference is supported" else
  let! localPath := requiredString fs "path" resourcePath in
  let! localPath := normalizePackagePath localPath MaxResourcePathBytes (resourcePath +:+ ".path") in
  fail_if bool_decide (localPath ∈ seenResourcePaths) with duplicateError (resourcePath +:+ ".path") localPath else
  Ok (resources ++ [mkSkillResource id kind localPath], {[id]} ∪ seenIDs, {[localPath]} ∪ seenResourcePaths).

Definition skill_step (i : Z) (s : list SkillDeclaration * gset string * Z) (item : Node) :
    result error (list SkillDeclaration * gset string * Z) :=
  let '(result, seenPaths, totalResources) := s in
  let itemPath := indexed "manifest.spec.skills" i in
  let! fs := mapping item itemPath ["path"; "resources"] in
  let! skillPath := requiredString fs "path" itemPath in
  let! skillPath := normalizePackagePath skillPath MaxSkillPathBytes (itemPath +:+ ".path") in
  fail_if bool_decide (skillPath ∈ seenPaths) with duplicateError (itemPath +:+ ".path") skillPath else
  let! resourceNodes := sequence (fs !! "resources") (itemPath +:+ ".resources") in
  fail_if zlen resourceNodes >? MaxResourcesPerSkill
    with countLimitError (itemPath +:+ ".resources") (zlen resourceNodes) MaxResourcesPerSkill else
  let totalResources := totalResources + zlen resourceNodes in
  fail_if totalResources >? MaxSkillResources
    with countLimitError "manifest.spec.skills.resources" totalResources MaxSkillResources else
  let! '(resources, _, _) := rfoldi (resource_step itemPath) 0 ([], ∅, ∅) resourceNodes in
  Ok (result ++ [mkSkillDeclaration skillPath resources], {[skillPath]} ∪ seenPaths, totalResources).

Definition parseSkills (node : option Node) : result error (list SkillDeclaration) :=
  let! items := sequence node "manifest.spec.skills" in
  fail_if zlen items >? MaxSkills with countLimitError "manifest.spec.skills" (zlen items) MaxSkills else
  rmap (λ s, s.1.1) (rfoldi skill_step 0 ([], ∅, 0) items).

Definition context_step (i : Z) (s : list ContextReference * gset string * gset string) (item : Node) :
    result error (list ContextReference * gset string * gset string) :=
  let '(result, seenIDs, seenPaths) := s in
  let itemPath := indexed "manifest.spec.context" i in
  let! fs := mapping item itemPath ["id"; "path"] in
  let! id := requiredNormalizedID fs "id" itemPath MaxContextIDBytes in
  fail_if bool_decide (id ∈ seenIDs) with duplicateError (itemPath +:+ ".id") id else
  let! localPath := requiredString fs "path" itemPath in
  let! localPath := normalizePackagePath localPath MaxContextPathBytes (itemPath +:+ ".path") in
  fail_if bool_decide (localPath ∈ seenPaths) with duplicateError (itemPath +:+ ".path") localPath else
  Ok (result ++ [mkContextReference id localPath], {[id]} ∪ seenIDs, {[localPath]} ∪ seenPaths).

Definition parseContext (node : option Node) : result error (list ContextReference) :=
  let! items := sequence node "manifest.spec.context" in
  fail_if zlen items >? MaxContextReferences
    with countLimitError "manifest.spec.context" (zlen items) MaxContextReferences else
  rmap (λ s, s.1.1) (rfoldi context_step 0 ([], ∅, ∅) items).

(** ** The specification and the manifest *)

Definition parse_parent (fs : fields) (capabilityID : string) : result error string :=
  let! parent := optionalString fs "parent" "manifest.spec" in
  let parent := NFC parent in
  if String.eqb parent "" then Ok parent else
  fail_if (slen parent >? MaxHierarchyPathBytes) || negb (MatchString capabilityIDPattern parent)
    with field_error "package_parent_invalid" "manifest.spec.parent" "must be a bounded lowercase dot-delimited path" else
  fail_if negb (HasPrefix capabilityID (parent +:+ "."))
    with field_error "package_parent_invalid" "manifest.spec.parent"
           "must be a proper dot-delimited prefix of the capability ID" else
  Ok parent.

Definition parseSpec (node : Node) (capabilityID : string) : result error Spec :=
  let! fs := mapping node "manifest.spec" ["parent"; "skills"; "operations"; "context"; "providers"] in
  let! parent := parse_parent fs capabilityID in
  let! providers := parseProviders (fs !! "providers") in
  let! operations := parseOperations (fs !! "operations") (list_to_set (map pb_ID providers)) in
  let! skills := parseSkills (fs !! "skills") in
  let! contextRefs := parseContext (fs !! "context") in
  Ok (mkSpec parent skills operations contextRefs providers).
End manifest.

(** ** The size of the normalised manifest *)

Definition resource_json (r : SkillResource) : json :=
  JObj [("ID", JStr (sr_ID r)); ("Kind", JStr (sr_Kind r)); ("Path", JStr (sr_Path r))].
Definition declaration_json (s : SkillDeclaration) : json :=
  JObj [("Path", JStr (sd_Path s)); ("Resources", JArr (map resource_json (sd_Resources s)))].
Definition manifest_operation_json (o : Operation) : json :=
  JObj [("ID", JStr (op_ID o)); ("Description", JStr (op_Description o)); ("Provider", JStr (op_Provider o));
        ("Target", JStr (op_Target o))].
Definition context_json (c : ContextReference) : json := JObj [("ID", JStr (cr_ID c)); ("Path", JStr (cr_Path c))].
Definition provider_json (p : ProviderBinding) : json :=
  JObj [("ID", JStr (pb_ID p)); ("Type", JStr (pb_Type p)); ("ServerRef", JStr (pb_ServerRef p))].
Definition base_card_json (m : Manifest) : json :=
  let d := mf_Metadata m in
  JObj ([("id", JStr (md_ID d)); ("name", JStr (md_Name d)); ("version", JStr (md_Version d));
         ("description", JStr (md_Description d))]
        ++ omit_string "path" (sp_Parent (mf_Spec m)) ++ omit_list "tags" (map JStr (md_Tags d))).

Definition structure_items (m : Manifest) : list json :=
  let s := mf_Spec m in
  flat_map (λ d, declaration_json d :: map resource_json (sd_Resources d)) (sp_Skills s)
  ++ map manifest_operation_json (sp_Operations s) ++ map context_json (sp_Context s) ++ map provider_json (sp_Providers s).

Definition item_size_step (index total : Z) (item : json) : result error Z :=
  fail_if marshal_size item >? MaxStructureItemBytes
    with packageError "package_structure_limit_exceeded" (indexed "manifest.structure" index)
           (Errorf "normalized item exceeds %d encoded JSON bytes" [FInt MaxStructureItemBytes]) else
  Ok (total + marshal_size item).

Definition validateNormalizedSize (m : Manifest) : result error unit :=
  fail_if marshal_size (base_card_json m) >? MaxBaseCardBytes
    with packageError "package_structure_limit_exceeded" "manifest.metadata"
           (Errorf "normalized base card exceeds %d encoded JSON bytes" [FInt MaxBaseCardBytes]) else
  let! total := rfoldi item_size_step 0 0 (structure_items m) in
  fail_if total >? MaxStructureBytes
    with packageError "package_structure_limit_exceeded" "manifest.spec"
           (Errorf "normalized structure exceeds %d encoded JSON bytes" [FInt MaxStructureBytes]) else
  Ok tt.

(** [ParseManifest] after [parseBoundedYAML]. *)
Definition manifest_of_root `{TextOps} (root : Node) : result error Manifest :=
  let! fs := mapping root "manifest" ["apiVersion"; "kind"; "metadata"; "spec"] in
  let! apiNode := requiredField fs "apiVersion" "manifest" in
  let! apiVersion := scalarString (Some apiNode) "manifest.apiVersion" in
  fail_if negb (String.eqb apiVersion manifestAPIVersion)
    with packageError "package_manifest_version_unsupported" "manifest.apiVersion" (Errorf "must equal %q" [FStr manifestAPIVersion]) else
  let! kindNode := requiredField fs "kind" "manifest" in
  let! kind := scalarString (Some kindNode) "manifest.kind" in
  fail_if negb (String.eqb kind manifestKind)
    with packageError "package_manifest_kind_unsupported" "manifest.kind" (Errorf "must equal %q" [FStr manifestKind]) else
  let! metadataNode := requiredField fs "metadata" "manifest" in
  let! metadata := parseMetadata metadataNode in
  let! specNode := requiredField fs "spec" "manifest" in
  let! spec := parseSpec specNode (md_ID metadata) in
  let manifest := mkManifest apiVersion kind metadata spec in
  let! _ := validateNormalizedSize manifest in
  Ok manifest.

Definition manifestLimits : yamlLimits := mkYamlLimits ManifestMaxBytes ManifestMaxDepth ManifestMaxNodes.

Definition ParseManifest `{YamlDecoder} `{TextOps} (data : bytes) : result error Manifest :=
  match parseBoundedYAML data manifestLimits with
  | Err e => Err (packageError "package_manifest_invalid" "tappet.yaml" e)
  | Ok root => manifest_of_root root
  end.

(** ** What a manifest promises *)

Definition text_ok `{TextOps} (s : string) (max : Z) : Prop :=
  s ≠ "" ∧ ValidString s = true ∧ slen s ≤ max ∧ NFC s = s.
Definition id_ok `{TextOps} (s : string) (max : Z) : Prop :=
  text_ok s max ∧ MatchString localIDPattern s = true.

(** A relative path that its own cleaning leaves alone, inside its root. *)
Record package_path_ok `{TextOps} (p : string) (max : Z) : Prop := {
  pp_text : text_ok p max;
  pp_portable : ContainsByte p backslash = false ∧ HasPrefix p "/" = false ∧ ContainsByte p (ascii_of_nat 0) = false;
  pp_clean : path_Clean p = p;
  pp_inside : p ≠ "." ∧ p ≠ ".." ∧ HasPrefix p "../" = false;
}.

Definition tag_bytes (tags : list string) : Z := foldr (λ t n, slen t + n) 0 tags.
Definition tag_ok `{TextOps} (t : string) : Prop := t ≠ "" ∧ slen t ≤ MaxTagBytes ∧ NFC t = t.

Record metadata_ok `{TextOps} (d : Metadata) : Prop := {
  mo_id : text_ok (md_ID d) MaxCapabilityIDBytes ∧ MatchString capabilityIDPattern (md_ID d) = true;
  mo_name : text_ok (md_Name d) MaxNameBytes;
  mo_version : text_ok (md_Version d) MaxVersionBytes ∧ MatchString semverPattern (md_Version d) = true;
  mo_description : text_ok (md_Description d) MaxDescriptionBytes;
  mo_tags : zlen (md_Tags d) ≤ MaxTags ∧ Forall tag_ok (md_Tags d) ∧ NoDup (md_Tags d) ∧ tag_bytes (md_Tags d) ≤ MaxAllTagsBytes;
}.

Record provider_ok `{TextOps} (p : ProviderBinding) : Prop := {
  po_id : id_ok (pb_ID p) MaxProviderIDBytes;
  po_type : pb_Type p = "mcp";
  po_serverRef : text_ok (pb_ServerRef p) MaxServerRefBytes;
}.

Record operation_ok `{TextOps} (providers : list string) (o : Operation) : Prop := {
  oo_id : id_ok (op_ID o) MaxOperationIDBytes;
  oo_description : text_ok (op_Description o) MaxOperationDescription;
  oo_provider : id_ok (op_Provider o) MaxProviderAliasBytes ∧ op_Provider o ∈ providers;
  oo_target : text_ok (op_Target o) MaxOperationTargetBytes;
}.

Record resource_ok `{TextOps} (r : SkillResource) : Prop := {
  so_id : id_ok (sr_ID r) MaxResourceIDBytes;
  so_kind : sr_Kind r = "reference";
  so_path : package_path_ok (sr_Path r) MaxResourcePathBytes;
}.

Record skill_ok `{TextOps} (d : SkillDeclaration) : Prop := {
  ko_path : package_path_ok (sd_Path d) MaxSkillPathBytes;
  ko_count : zlen (sd_Resources d) ≤ MaxResourcesPerSkill;
  ko_resources : Forall resource_ok (sd_Resources d);
  ko_ids : NoDup (map sr_ID (sd_Resources d));
  ko_paths : NoDup (map sr_Path (sd_Resources d));
}.

Record context_ok `{TextOps} (c : ContextReference) : Prop := {
  xo_id : id_ok (cr_ID c) MaxContextIDBytes;
  xo_path : package_path_ok (cr_Path c) MaxContextPathBytes;
}.

Definition resource_total (l : list SkillDeclaration) : Z := foldr (λ d n, zlen (sd_Resources d) + n) 0 l.
Definition parent_ok `{TextOps} (capabilityID parent : string) : Prop :=
  parent = "" ∨
  (slen parent ≤ MaxHierarchyPathBytes ∧ MatchString capabilityIDPattern parent = true ∧ NFC parent = parent ∧
   ∃ rest, capabilityID = parent +:+ "." +:+ rest).

Record spec_ok `{TextOps} (capabilityID : string) (s : Spec) : Prop := {
  sk_parent : parent_ok capabilityID (sp_Parent s);
  sk_providers : zlen (sp_Providers s) ≤ MaxProviders ∧ Forall provider_ok (sp_Providers s) ∧ NoDup (map pb_ID (sp_Providers s));
  sk_operations : zlen (sp_Operations s) ≤ MaxOperations ∧
    Forall (operation_ok (map pb_ID (sp_Providers s))) (sp_Operations s) ∧ NoDup (map op_ID (sp_Operations s));
  sk_skills : zlen (sp_Skills s) ≤ MaxSkills ∧ Forall skill_ok (sp_Skills s) ∧ NoDup (map sd_Path (sp_Skills s)) ∧
    resource_total (sp_Skills s) ≤ MaxSkillResources;
  sk_context : zlen (sp_Context s) ≤ MaxContextReferences ∧ Forall context_ok (sp_Context s) ∧
    NoDup (map cr_ID (sp_Context s)) ∧ NoDup (map cr_Path (sp_Context s));
}.

Record manifest_ok `{TextOps} (m : Manifest) : Prop := {
  fo_api : mf_APIVersion m = manifestAPIVersion;
  fo_kind : mf_Kind m = manifestKind;
  fo_metadata : metadata_ok (mf_Metadata m);
  fo_spec : spec_ok (md_ID (mf_Metadata m)) (mf_Spec m);
  fo_card : marshal_size (base_card_json m) ≤ MaxBaseCardBytes;
  fo_items : Forall (λ j, marshal_size j ≤ MaxStructureItemBytes) (structure_items m);
  fo_total : foldr (λ j n, marshal_size j + n) 0 (structure_items m) ≤ MaxStructureBytes;
}.

(** ** Errors *)

Definition manifest_codes : list string :=
  ["package_manifest_invalid"; "package_manifest_type_invalid"; "package_manifest_unknown_field";
   "package_manifest_required_field"; "package_manifest_version_unsupported"; "package_manifest_kind_unsupported";
   "package_field_invalid"; "package_field_limit_exceeded"; "package_identifier_invalid"; "package_capability_id_invalid";
   "package_version_invalid"; "package_duplicate_reference"; "package_count_limit_exceeded"; "package_parent_invalid";
   "package_provider_type_unsupported"; "package_reference_invalid"; "package_resource_kind_unsupported";
   "package_path_invalid"; "package_structure_limit_exceeded"].
Definition manifest_error (e : error) : Prop :=
  ∃ code path cause, e = PkgError code path cause ∧ code ∈ manifest_codes.

Lemma manifest_error_intro code path cause :
  bool_decide (code ∈ manifest_codes) = true → manifest_error (packageError code path cause).
Proof. intros ?%bool_decide_eq_true_1. by exists code, path, cause. Qed.

Create HintDb manifest.
#[export] Hint Extern 1 (manifest_error _) => (apply manifest_error_intro; vm_compute; reflexivity) : manifest.

(** One step through a chain of fallible calls. *)
Ltac rstep :=
  match goal with
  | |- rspec _ _ (guardE _ _ _) => apply rspec_guard; [solve [eauto with manifest]|intros ?]
  | |- rspec _ _ (Ok _) => cbn [rspec]
  | |- rspec _ _ (Err _) => cbn [rspec]; solve [eauto with manifest]
  | |- rspec _ _ (rbind _ _) => eapply rspec_bind; [solve [eauto with manifest]|]; intros ? ? ?; cbn beta in *
  end.
Ltac rsteps := repeat rstep.

(** ** Lemmas: fields *)

Definition plain_fields (fs : fields) : Prop := ∀ name node, fs !! name = Some node → plain_node node.
Definition plain_opt (node : option Node) : Prop := ∀ n, node = Some n → plain_node n.

Lemma plain_content n c : plain_node n → c ∈ nd_Content n → plain_node c.
Proof. intros Hp Hc. inversion Hp as [k t v l _ _ Hl]; subst. simpl in Hc. rewrite Forall_forall in Hl. by apply Hl. Qed.

Lemma mapping_spec node path allowed :
  plain_node node → rspec manifest_error plain_fields (mapping node path allowed).
Proof.
  intros Hp. unfold mapping. rstep. bool_hyps.
  assert (∃ l, nd_Content node = interleave l) as [l Hl].
  { inversion Hp as [k t v c _ Hm _]; subst. simpl in *. destruct Hm as (l & -> & _); [done|by exists l]. }
  assert (Forall plain_node (interleave l)) as Hf.
  { rewrite <-Hl. apply Forall_forall. intros. by eapply plain_content. }
  rewrite Hl. clear Hl. assert (plain_fields ∅) as H0 by (intros name0 node0 Hx; by change (@None Node = Some node0) in Hx).
  revert H0. generalize (∅ : fields) as fs. induction l as [|[k v] l IH]; intros fs Hfs; [done|].
  simpl in Hf. apply Forall_cons in Hf as [_ [Hv Hf]%Forall_cons].
  simpl. rstep. apply IH; [done|]. intros name n [[_ <-]|[_ Hn]]%lookup_insert_Some; [done|by eapply Hfs].
Qed.

Lemma requiredField_spec fs name path :
  plain_fields fs → rspec manifest_error plain_node (requiredField fs name path).
Proof. intros Hf. unfold requiredField. destruct (fs !! name) eqn:Hn; simpl; [by eapply Hf|auto with manifest]. Qed.

Lemma scalarString_spec node path : rspec manifest_error (λ _, True) (scalarString node path).
Proof. unfold scalarString. destruct node; [destruct (_ && _)|]; simpl; auto with manifest. Qed.

Lemma optionalString_spec fs name path : rspec manifest_error (λ _, True) (optionalString fs name path).
Proof. unfold optionalString. destruct (fs !! name); [apply scalarString_spec|done]. Qed.

Lemma sequence_spec node path :
  plain_opt node → rspec manifest_error (λ l, Forall plain_node l) (sequence node path).
Proof.
  intros Hp. unfold sequence. destruct node as [n|]; [|constructor]. rstep.
  apply Forall_forall. intros c. apply plain_content. by apply Hp.
Qed.

Lemma plain_lookup fs name : plain_fields fs → plain_opt (fs !! name).
Proof. intros Hf n Hn. by eapply Hf. Qed.

Lemma requiredString_spec fs name path : rspec manifest_error (λ _, True) (requiredString fs name path).
Proof.
  unfold requiredString, requiredField. destruct (fs !! name); cbn [rbind rspec]; [apply scalarString_spec|auto with manifest].
Qed.

Lemma validateRequiredText_spec fieldPath value max :
  rspec manifest_error (λ _, value ≠ "" ∧ ValidString value = true ∧ slen value ≤ max) (validateRequiredText fieldPath value max).
Proof.
  unfold validateRequiredText, field_error. rsteps. bool_hyps.
  match goal with H : String.eqb _ _ = false |- _ => apply String.eqb_neq in H end. done.
Qed.

#[export] Hint Resolve mapping_spec requiredField_spec scalarString_spec optionalString_spec sequence_spec plain_lookup
  requiredString_spec validateRequiredText_spec : manifest.

(** ** Lemmas: keys seen so far *)

Definition seen_of {A} (key : A → string) (l : list A) : gset string := foldl (λ s x, {[key x]} ∪ s) ∅ l.

Lemma seen_of_snoc {A} (key : A → string) l x : seen_of key (l ++ [x]) = {[key x]} ∪ seen_of key l.
Proof. unfold seen_of. by rewrite foldl_app. Qed.

Lemma elem_of_seen {A} (key : A → string) l k : k ∈ seen_of key l ↔ k ∈ map key l.
Proof.
  induction l as [|x l IH] using rev_ind; [set_solver|].
  rewrite seen_of_snoc, map_app, elem_of_union, elem_of_singleton, IH, elem_of_app. simpl. set_solver.
Qed.

Lemma unseen_snoc {A} (key : A → string) l x :
  NoDup (map key l) → bool_decide (key x ∈ seen_of key l) = false → NoDup (map key (l ++ [x])).
Proof.
  intros Hnd Hx. bool_hyps. rewrite elem_of_seen in Hx. rewrite map_app. apply NoDup_app. split; [done|].
  split; [|apply NoDup_singleton]. intros k Hk ->%list_elem_of_singleton. done.
Qed.

Lemma seen_fresh {A} (key : A → string) pre x post :
  NoDup (map key (pre ++ x :: post)) → bool_decide (key x ∈ seen_of key pre) = false.
Proof.
  rewrite map_app. intros (_ & Hd & _)%NoDup_app. apply bool_decide_eq_false_2. rewrite elem_of_seen.
  intros Hx. apply (Hd _ Hx). by left.
Qed.

Lemma Forall_snoc_2 {A} (P : A → Prop) l x : Forall P l → P x → Forall P (l ++ [x]).
Proof. intros ? ?. apply Forall_app. split; [done|by constructor]. Qed.

(** ** Lemmas: what the parsers accept *)

Section sound.
Context `{TextOps} `{!TextLaws}.

Lemma normalized_text s max :
  NFC s ≠ "" ∧ ValidString (NFC s) = true ∧ slen (NFC s) ≤ max → text_ok (NFC s) max.
Proof. intros (? & ? & ?). split_and!; auto using NFC_idem. Qed.

Lemma requiredNormalizedID_spec fs name path max :
  rspec manifest_error (λ v, id_ok v max) (requiredNormalizedID fs name path max).
Proof.
  unfold requiredNormalizedID, field_error. rsteps. bool_hyps. split; [by apply normalized_text|done].
Qed.

Lemma normalizePackagePath_spec value max path :
  rspec manifest_error (λ v, package_path_ok v max) (normalizePackagePath value max path).
Proof.
  unfold normalizePackagePath, field_error. rsteps. bool_hyps.
  repeat match goal with
  | H : String.eqb _ _ = false |- _ => apply String.eqb_neq in H
  | H : String.eqb _ _ = true |- _ => apply String.eqb_eq in H
  end.
  match goal with H : path_Clean _ = _ |- _ => rename H into Hclean end. rewrite Hclean in *.
  split; [by apply normalized_text|done..].
Qed.
#[local] Hint Resolve requiredNormalizedID_spec normalizePackagePath_spec : manifest.

Lemma parseStringSequence_spec node path maxItems maxBytes :
  plain_opt node →
  rspec manifest_error (λ l, zlen l ≤ maxItems ∧ Forall (λ t, slen t ≤ maxBytes ∧ NFC t = t) l)
    (parseStringSequence node path maxItems maxBytes).
Proof.
  intros Hp. unfold parseStringSequence, countLimitError. do 2 rstep. bool_hyps.
  eapply rspec_mono; [apply (rspec_rfoldi _ (λ i l, zlen l = i ∧ Forall (λ t, slen t ≤ maxBytes ∧ NFC t = t) l))|].
  - by split.
  - intros i l item _ [Hlen Hf]. unfold string_item. rsteps. bool_hyps. rewrite zlen_app, Hlen. split; [done|].
    apply Forall_snoc_2; [done|]. split; [done|apply NFC_idem].
  - simpl. intros l [Hl ?]. split; [|done]. unfold zlen in *. lia.
Qed.

Lemma parse_tags_spec node :
  plain_opt node →
  rspec manifest_error (λ l, zlen l ≤ MaxTags ∧ Forall tag_ok l ∧ NoDup l ∧ tag_bytes l ≤ MaxAllTagsBytes) (parse_tags node).
Proof.
  intros Hp. unfold parse_tags. eapply rspec_bind; [by apply parseStringSequence_spec|]. intros tags _ [Hcount Hf].
  eapply rspec_bind; [apply (rspec_rfoldi _ (λ i s, ∃ l, s = (l, tag_bytes l, seen_of id l) ∧ zlen l = i ∧
    Forall tag_ok l ∧ NoDup (map id l)))|].
  - exists []. split_and!; try done; constructor.
  - intros i s tag Htag (l & -> & Hlen & Hok & Hnd). unfold tag_step, field_error. cbn beta iota. rsteps. bool_hyps.
    rewrite Forall_forall in Hf. destruct (Hf _ Htag) as [Hb Hn]. rewrite Hn in *.
    exists (l ++ [tag]). rewrite zlen_app, Hlen, seen_of_snoc. split_and!; try done.
    + f_equal. f_equal. clear. induction l as [|x l IH]; simpl in *; lia.
    + apply Forall_snoc_2; [done|]. split_and!; [by apply String.eqb_neq|done..].
    + apply unseen_snoc; [done|]. by apply bool_decide_eq_false_2.
  - intros s _ (l & -> & Hlen & Hok & Hnd). cbn beta iota. rsteps. bool_hyps. rewrite map_id in Hnd.
    split_and!; try done. unfold zlen in *. lia.
Qed.
#[local] Hint Resolve parse_tags_spec : manifest.

Lemma parseMetadata_spec node : plain_node node → rspec manifest_error metadata_ok (parseMetadata node).
Proof.
  intros Hp. unfold parseMetadata, field_error. rsteps. bool_hyps. split; simpl; auto using normalized_text.
Qed.

(** A loop over the items of a section that appends one item per turn. *)
Lemma parseProviders_spec node :
  plain_opt node →
  rspec manifest_error (λ l, zlen l ≤ MaxProviders ∧ Forall provider_ok l ∧ NoDup (map pb_ID l)) (parseProviders node).
Proof.
  intros Hp. unfold parseProviders, countLimitError. eapply rspec_bind; [by apply sequence_spec|]. intros items _ Hitems.
  rstep. bool_hyps. apply rspec_rmap.
  eapply rspec_mono; [apply (rspec_rfoldi _ (λ i s, ∃ l, s = (l, seen_of pb_ID l) ∧ zlen l = i ∧
    Forall provider_ok l ∧ NoDup (map pb_ID l)))|].
  - exists []. split_and!; try done; constructor.
  - intros i s item Hitem (l & -> & Hlen & Hok & Hnd). unfold provider_step, field_error, duplicateError. cbn beta iota zeta.
    assert (plain_node item) by (rewrite Forall_forall in Hitems; auto). rsteps.
    eexists (l ++ [mkProviderBinding _ _ _]). rewrite seen_of_snoc, zlen_app, Hlen. split_and!; [reflexivity|done| |].
    + apply Forall_snoc_2; [done|]. split; simpl; [done|bool_hyps; by apply String.eqb_eq|by apply normalized_text].
    + by apply unseen_snoc.
  - intros s (l & -> & Hlen & Hok & Hnd). split_and!; try done. simpl. unfold zlen in *. lia.
Qed.

Lemma parseOperations_spec node providers :
  plain_opt node →
  rspec manifest_error (λ l, zlen l ≤ MaxOperations ∧ Forall (operation_ok providers) l ∧ NoDup (map op_ID l))
    (parseOperations node (list_to_set providers)).
Proof.
  intros Hp. unfold parseOperations, countLimitError. eapply rspec_bind; [by apply sequence_spec|]. intros items _ Hitems.
  rstep. bool_hyps. apply rspec_rmap.
  eapply rspec_mono; [apply (rspec_rfoldi _ (λ i s, ∃ l, s = (l, seen_of op_ID l) ∧ zlen l = i ∧
    Forall (operation_ok providers) l ∧ NoDup (map op_ID l)))|].
  - exists []. split_and!; try done; constructor.
  - intros i s item Hitem (l & -> & Hlen & Hok & Hnd). unfold operation_step, field_error, duplicateError. cbn beta iota zeta.
    assert (plain_node item) by (rewrite Forall_forall in Hitems; auto). rsteps.
    eexists (l ++ [mkOperation _ _ _ _]). rewrite seen_of_snoc, zlen_app, Hlen. split_and!; [reflexivity|done| |].
    + apply Forall_snoc_2; [done|]. bool_hyps.
      match goal with Hin : _ ∈ list_to_set _ |- _ => apply elem_of_list_to_set in Hin end.
      split; simpl; auto using normalized_text.
    + by apply unseen_snoc.
  - intros s (l & -> & Hlen & Hok & Hnd). split_and!; try done. simpl. unfold zlen in *. lia.
Qed.

Lemma resource_loop_spec itemPath items :
  Forall plain_node items →
  rspec manifest_error (λ s, ∃ l, s = (l, seen_of sr_ID l, seen_of sr_Path l) ∧ zlen l = zlen items ∧
    Forall resource_ok l ∧ NoDup (map sr_ID l) ∧ NoDup (map sr_Path l))
    (rfoldi (resource_step itemPath) 0 ([], ∅, ∅) items).
Proof.
  intros Hitems. eapply rspec_mono; [apply (rspec_rfoldi _ (λ i s, ∃ l, s = (l, seen_of sr_ID l, seen_of sr_Path l) ∧ zlen l = i ∧
    Forall resource_ok l ∧ NoDup (map sr_ID l) ∧ NoDup (map sr_Path l)))|].
  - exists []. split_and!; try done; constructor.
  - intros i s item Hitem (l & -> & Hlen & Hok & Hni & Hnp). unfold resource_step, field_error, duplicateError. cbn beta iota zeta.
    assert (plain_node item) by (rewrite Forall_forall in Hitems; auto). rsteps.
    eexists (l ++ [mkSkillResource _ _ _]). rewrite !seen_of_snoc, zlen_app, Hlen. split_and!; [reflexivity|done| | |].
    + apply Forall_snoc_2; [done|]. split; simpl; [done| |done]. bool_hyps. by apply String.eqb_eq.
    + by apply unseen_snoc.
    + by apply unseen_snoc.
  - intros s (l & -> & Hlen & Hok & Hnd). exists l. done.
Qed.

Lemma resource_total_snoc l d : resource_total (l ++ [d]) = resource_total l + zlen (sd_Resources d).
Proof. unfold resource_total. induction l as [|x l IH]; simpl; lia. Qed.

Lemma parseSkills_spec node :
  plain_opt node →
  rspec manifest_error (λ l, zlen l ≤ MaxSkills ∧ Forall skill_ok l ∧ NoDup (map sd_Path l) ∧ resource_total l ≤ MaxSkillResources)
    (parseSkills node).
Proof.
  intros Hp. unfold parseSkills, countLimitError. eapply rspec_bind; [by apply sequence_spec|]. intros items _ Hitems.
  rstep. bool_hyps. apply rspec_rmap.
  eapply rspec_mono; [apply (rspec_rfoldi _ (λ i s, ∃ l, s = (l, seen_of sd_Path l, resource_total l) ∧ zlen l = i ∧
    Forall skill_ok l ∧ NoDup (map sd_Path l) ∧ resource_total l ≤ MaxSkillResources))|].
  - exists []. split_and!; try done; constructor.
  - intros i s item Hitem (l & -> & Hlen & Hok & Hnd & Htot). unfold skill_step, duplicateError, countLimitError. cbn beta iota zeta.
    assert (plain_node item) by (rewrite Forall_forall in Hitems; auto). do 7 rstep.
    eapply rspec_bind; [by apply resource_loop_spec|]. intros s _ (rs & -> & Hrlen & Hrok & Hri & Hrp). cbn beta iota. rsteps.
    eexists (l ++ [mkSkillDeclaration _ _]). rewrite !seen_of_snoc, zlen_app, Hlen, resource_total_snoc. bool_hyps. cbn [sd_Resources sd_Path].
    split_and!; [by rewrite Hrlen|done| | |].
    + apply Forall_snoc_2; [done|]. split; simpl; try done. lia.
    + apply unseen_snoc; [done|]. by apply bool_decide_eq_false_2.
    + lia.
  - intros s (l & -> & Hlen & Hok & Hnd & Htot). split_and!; try done. simpl. unfold zlen in *. lia.
Qed.

Lemma parseContext_spec node :
  plain_opt node →
  rspec manifest_error (λ l, zlen l ≤ MaxContextReferences ∧ Forall context_ok l ∧ NoDup (map cr_ID l) ∧ NoDup (map cr_Path l))
    (parseContext node).
Proof.
  intros Hp. unfold parseContext, countLimitError. eapply rspec_bind; [by apply sequence_spec|]. intros items _ Hitems.
  rstep. bool_hyps. apply rspec_rmap.
  eapply rspec_mono; [apply (rspec_rfoldi _ (λ i s, ∃ l, s = (l, seen_of cr_ID l, seen_of cr_Path l) ∧ zlen l = i ∧
    Forall context_ok l ∧ NoDup (map cr_ID l) ∧ NoDup (map cr_Path l)))|].
  - exists []. split_and!; try done; constructor.
  - intros i s item Hitem (l & -> & Hlen & Hok & Hni & Hnp). unfold context_step, duplicateError. cbn beta iota zeta.
    assert (plain_node item) by (rewrite Forall_forall in Hitems; auto). rsteps.
    eexists (l ++ [mkContextReference _ _]). rewrite !seen_of_snoc, zlen_app, Hlen. split_and!; [reflexivity|done| | |].
    + by apply Forall_snoc_2.
    + by apply unseen_snoc.
    + by apply unseen_snoc.
  - intros s (l & -> & Hlen & Hok & Hni & Hnp). split_and!; try done. simpl. unfold zlen in *. lia.
Qed.
#[local] Hint Resolve parseMetadata_spec parseProviders_spec parseOperations_spec parseSkills_spec parseContext_spec : manifest.

Lemma parse_parent_spec fs capabilityID :
  rspec manifest_error (parent_ok capabilityID) (parse_parent fs capabilityID).
Proof.
  unfold parse_parent, field_error. rstep. destruct (String.eqb_spec (NFC x) ""); [by left|]. rsteps. bool_hyps. right.
  split_and!; [done|done|apply NFC_idem|].
  match goal with Hp : HasPrefix _ _ = true |- _ => apply HasPrefix_spec in Hp as [rest ->] end.
  exists rest. by rewrite str_app_assoc.
Qed.
#[local] Hint Resolve parse_parent_spec : manifest.

Lemma parseSpec_spec node capabilityID :
  plain_node node → rspec manifest_error (spec_ok capabilityID) (parseSpec node capabilityID).
Proof. intros Hp. unfold parseSpec. rsteps. by split. Qed.
#[local] Hint Resolve parseSpec_spec : manifest.

Lemma validateNormalizedSize_spec m :
  rspec manifest_error (λ _, marshal_size (base_card_json m) ≤ MaxBaseCardBytes ∧
    Forall (λ j, marshal_size j ≤ MaxStructureItemBytes) (structure_items m) ∧
    foldr (λ j n, marshal_size j + n) 0 (structure_items m) ≤ MaxStructureBytes) (validateNormalizedSize m).
Proof.
  unfold validateNormalizedSize. rstep. bool_hyps.
  assert (∀ l i total, rspec manifest_error
    (λ t, Forall (λ j, marshal_size j ≤ MaxStructureItemBytes) l ∧ t = total + foldr (λ j n, marshal_size j + n) 0 l)
    (rfoldi item_size_step i total l)) as Hl.
  { induction l as [|j l IH]; intros i total; simpl; [split; [constructor|lia]|].
    unfold item_size_step at 1. eapply rspec_bind; [rstep; cbn [rspec]; instantiate (1 := λ t, marshal_size j ≤ MaxStructureItemBytes ∧ t = total + marshal_size j); by bool_hyps|].
    intros t _ [Hj ->]. eapply rspec_mono; [apply IH|]. intros t [Hf ->]. split; [by constructor|lia]. }
  eapply rspec_bind; [apply Hl|]. intros total _ [Hf ->]. rsteps. bool_hyps. split_and!; [done|done|lia].
Qed.
#[local] Hint Resolve validateNormalizedSize_spec : manifest.

Lemma manifest_of_root_spec root : plain_node root → rspec manifest_error manifest_ok (manifest_of_root root).
Proof.
  intros Hp. unfold manifest_of_root. rsteps. bool_hyps.
  repeat match goal with H : String.eqb _ _ = true |- _ => apply String.eqb_eq in H end.
  match goal with H : _ ∧ _ ∧ _ |- _ => destruct H as (? & ? & ?) end. by split.
Qed.

Lemma ParseManifest_spec `{YamlDecoder} data : rspec manifest_error manifest_ok (ParseManifest data).
Proof.
  unfold ParseManifest. destruct (parseBoundedYAML data manifestLimits) as [root|e] eqn:Hr; [|by apply manifest_error_intro].
  apply manifest_of_root_spec. by eapply parseBoundedYAML_plain.
Qed.
End sound.

(** ** Rendering a manifest as a tree *)

Definition str_node (s : string) : Node := mkNode ScalarNode "!!str" s "" [].
Definition map_node (l : list (string * Node)) : Node :=
  mkNode MappingNode "!!map" "" "" (flat_map (λ kv, [str_node kv.1; kv.2]) l).
Definition seq_node (l : list Node) : Node := mkNode SequenceNode "!!seq" "" "" l.

Definition metadata_fields (d : Metadata) : list (string * Node) :=
  [("id", str_node (md_ID d)); ("name", str_node (md_Name d)); ("version", str_node (md_Version d));
   ("description", str_node (md_Description d)); ("tags", seq_node (map str_node (md_Tags d)))].
Definition provider_fields (p : ProviderBinding) : list (string * Node) :=
  [("id", str_node (pb_ID p)); ("type", str_node (pb_Type p)); ("serverRef", str_node (pb_ServerRef p))].
Definition operation_fields (o : Operation) : list (string * Node) :=
  [("id", str_node (op_ID o)); ("description", str_node (op_Description o)); ("provider", str_node (op_Provider o));
   ("target", str_node (op_Target o))].
Definition resource_fields (r : SkillResource) : list (string * Node) :=
  [("id", str_node (sr_ID r)); ("kind", str_node (sr_Kind r)); ("path", str_node (sr_Path r))].
Definition skill_fields (d : SkillDeclaration) : list (string * Node) :=
  [("path", str_node (sd_Path d)); ("resources", seq_node (map (λ r, map_node (resource_fields r)) (sd_Resources d)))].
Definition context_fields (c : ContextReference) : list (string * Node) :=
  [("id", str_node (cr_ID c)); ("path", str_node (cr_Path c))].
Definition spec_fields (s : Spec) : list (string * Node) :=
  [("parent", str_node (sp_Parent s));
   ("skills", seq_node (map (λ d, map_node (skill_fields d)) (sp_Skills s)));
   ("operations", seq_node (map (λ o, map_node (operation_fields o)) (sp_Operations s)));
   ("context", seq_node (map (λ c, map_node (context_fields c)) (sp_Context s)));
   ("providers", seq_node (map (λ p, map_node (provider_fields p)) (sp_Providers s)))].
Definition manifest_fields (m : Manifest) : list (string * Node) :=
  [("apiVersion", str_node (mf_APIVersion m)); ("kind", str_node (mf_Kind m));
   ("metadata", map_node (metadata_fields (mf_Metadata m))); ("spec", map_node (spec_fields (mf_Spec m)))].
Definition manifest_node (m : Manifest) : Node := map_node (manifest_fields m).

(** ** Lemmas: reading a rendered tree *)

Definition fields_of (l : list (string * Node)) : fields := foldl (λ m kv, <[kv.1 := kv.2]> m) ∅ l.

Fixpoint get (name : string) (l : list (string * Node)) : option Node :=
  match l with
  | [] => None
  | kv :: l => match get name l with Some v => Some v | None => if String.eqb kv.1 name then Some kv.2 else None end
  end.

Lemma fields_of_get l name : fields_of l !! name = get name l.
Proof.
  unfold fields_of. assert (∀ m : fields, foldl (λ m kv, <[kv.1 := kv.2]> m) m l !! name =
    match get name l with Some v => Some v | None => m !! name end) as Hg.
  { induction l as [|[k v] l IH]; intros m; simpl; [done|]. rewrite IH. destruct (get name l); [done|].
    destruct (String.eqb_spec k name) as [->|]; [apply lookup_insert_eq|by apply lookup_insert_ne]. }
  rewrite Hg. by destruct (get name l).
Qed.

Lemma mapping_rendered l path allowed :
  forallb (λ kv, bool_decide (kv.1 ∈ allowed)) l = true → mapping (map_node l) path allowed = Ok (fields_of l).
Proof.
  intros Hl. unfold mapping, map_node, fields_of. cbn [nd_Kind nd_Content]. rewrite bool_decide_eq_true_2 by done. cbn [negb guardE].
  generalize (∅ : fields). induction l as [|[k v] l IH]; intros m; simpl; [done|].
  simpl in Hl. apply andb_true_iff in Hl as [Hk Hl]. rewrite Hk. cbn [negb guardE]. by apply IH.
Qed.

Lemma requiredField_get l name path node : get name l = Some node → requiredField (fields_of l) name path = Ok node.
Proof. intros Hg. unfold requiredField. by rewrite fields_of_get, Hg. Qed.

Lemma requiredString_get l name path s : get name l = Some (str_node s) → requiredString (fields_of l) name path = Ok s.
Proof. intros Hg. unfold requiredString. by rewrite (requiredField_get _ _ _ _ Hg). Qed.

Lemma scalarString_str s path : scalarString (Some (str_node s)) path = Ok s.
Proof. done. Qed.

Section complete.
Context `{TextOps}.

Lemma validateRequiredText_complete path s max : text_ok s max → validateRequiredText path s max = Ok tt.
Proof.
  intros (Hne & Hv & Hl & _). unfold validateRequiredText. apply String.eqb_neq in Hne. rewrite Hne, Hv, Z.gtb_ltb.
  by rewrite (proj2 (Z.ltb_ge _ _)).
Qed.

Lemma text_normal s max : text_ok s max → NFC s = s.
Proof. by intros (_ & _ & _ & ?). Qed.

Lemma requiredNormalizedID_complete l name path s max :
  get name l = Some (str_node s) → id_ok s max → requiredNormalizedID (fields_of l) name path max = Ok s.
Proof.
  intros Hg [Ht Hp]. unfold requiredNormalizedID. rewrite (requiredString_get _ _ _ _ Hg). cbn [rbind].
  rewrite (text_normal _ _ Ht), validateRequiredText_complete by done. cbn [rbind]. by rewrite Hp.
Qed.

Lemma normalizePackagePath_complete p max path : package_path_ok p max → normalizePackagePath p max path = Ok p.
Proof.
  intros [Ht (Hb & Hr & H0) Hc (H1 & H2 & H3)]. unfold normalizePackagePath.
  rewrite (text_normal _ _ Ht), validateRequiredText_complete by done. cbn [rbind].
  rewrite Hb, Hr, H0. cbn [orb guardE]. cbv zeta. rewrite Hc.
  apply String.eqb_neq in H1, H2. by rewrite H1, H2, H3, String.eqb_refl.
Qed.

Lemma sequence_get l name path items :
  get name l = Some (seq_node items) → sequence (fields_of l !! name) path = Ok items.
Proof. intros Hg. by rewrite fields_of_get, Hg. Qed.

Lemma count_ok {A} (l : list A) (max : Z) : zlen l ≤ max → (zlen l >? max) = false.
Proof. intros. by rewrite Z.gtb_ltb, (proj2 (Z.ltb_ge _ _)). Qed.
End complete.

(** Runs the next fallible call on a rendered tree. *)
Ltac rrun :=
  first
  [ rewrite mapping_rendered by reflexivity
  | erewrite requiredNormalizedID_complete by (first [reflexivity | eassumption])
  | erewrite requiredString_get by reflexivity
  | erewrite requiredField_get by reflexivity
  | erewrite sequence_get by reflexivity
  | erewrite text_normal by eassumption
  | rewrite validateRequiredText_complete by assumption
  | rewrite normalizePackagePath_complete by assumption
  | rewrite count_ok by (first [assumption | rewrite ?length_map; assumption])
  | erewrite seen_fresh by eassumption ];
  cbn [rbind guardE orb negb fst snd].

Section roundtrip.
Context `{TextOps}.

Lemma parse_tags_complete l fs :
  get "tags" fs = Some (seq_node (map str_node l)) →
  zlen l ≤ MaxTags → Forall tag_ok l → NoDup l → tag_bytes l ≤ MaxAllTagsBytes →
  parse_tags (fields_of fs !! "tags") = Ok l.
Proof.
  intros Hg Hlen Hok Hnd Hb. unfold parse_tags, parseStringSequence. rewrite (sequence_get _ _ _ _ Hg). cbn [rbind].
  assert (zlen (map str_node l) = zlen l) as -> by (unfold zlen; by rewrite length_map). rrun.
  rewrite (rfoldi_complete _ str_node (λ l, l)).
  2:{ intros pre x post ->. apply Forall_app in Hok as [_ [(_ & Hx & Hn) _]%Forall_cons].
      unfold string_item. rewrite scalarString_str. cbn [rbind]. cbv zeta. rewrite Hn, Z.gtb_ltb, (proj2 (Z.ltb_ge _ _)) by done. done. }
  cbn [rbind]. rewrite <-(map_id l) at 1.
  rewrite (rfoldi_complete _ (λ t, t) (λ l, (l, tag_bytes l, seen_of id l))).
  2:{ intros pre x post ->. apply Forall_app in Hok as [_ [(Hx & _ & Hn) _]%Forall_cons].
      unfold tag_step. cbn beta iota zeta. rewrite Hn. apply String.eqb_neq in Hx. rewrite Hx. cbn [guardE].
      pose proof (seen_fresh id pre x post ltac:(by rewrite map_id)) as Hs. change (id x) with x in Hs. rewrite Hs. cbn [guardE]. rewrite seen_of_snoc. do 3 f_equal.
      clear. induction pre as [|y l IH]; simpl in *; lia. }
  cbn [rbind]. by rewrite Z.gtb_ltb, (proj2 (Z.ltb_ge _ _)).
Qed.

Lemma parseMetadata_complete d : metadata_ok d → parseMetadata (map_node (metadata_fields d)) = Ok d.
Proof.
  intros [[Hi Hip] Hn [Hv Hvp] Hd (Ht & Ht1 & Ht2 & Ht3)]. unfold parseMetadata. cbv zeta. repeat rrun.
  rewrite Hip. cbn [negb guardE]. repeat rrun. rewrite Hvp. cbn [negb guardE]. repeat rrun.
  rewrite (parse_tags_complete (md_Tags d)) by done. by destruct d.
Qed.

Lemma parseProviders_complete l fs :
  get "providers" fs = Some (seq_node (map (λ p, map_node (provider_fields p)) l)) →
  zlen l ≤ MaxProviders → Forall provider_ok l → NoDup (map pb_ID l) →
  parseProviders (fields_of fs !! "providers") = Ok l.
Proof.
  intros Hg Hlen Hok Hnd. unfold parseProviders. rewrite (sequence_get _ _ _ _ Hg). cbn [rbind].
  assert (zlen (map (λ p, map_node (provider_fields p)) l) = zlen l) as -> by (unfold zlen; by rewrite length_map).
  rrun. rewrite (rfoldi_complete _ (λ p, map_node (provider_fields p)) (λ l, (l, seen_of pb_ID l))); [done|].
  intros pre x post ->. apply Forall_app in Hok as [_ [[Hi Ht Hr] _]%Forall_cons]. unfold provider_step. cbn beta iota zeta.
  repeat rrun. rewrite Ht. assert (∀ p, validateRequiredText p "mcp" MaxProviderTypeBytes = Ok tt) as -> by done.
  cbn [rbind]. rewrite String.eqb_refl. cbn [negb guardE]. repeat rrun. rewrite seen_of_snoc, <-Ht. by destruct x.
Qed.

Lemma parseOperations_complete l fs providers :
  get "operations" fs = Some (seq_node (map (λ o, map_node (operation_fields o)) l)) →
  zlen l ≤ MaxOperations → Forall (operation_ok providers) l → NoDup (map op_ID l) →
  parseOperations (fields_of fs !! "operations") (list_to_set providers) = Ok l.
Proof.
  intros Hg Hlen Hok Hnd. unfold parseOperations. rewrite (sequence_get _ _ _ _ Hg). cbn [rbind].
  assert (zlen (map (λ o, map_node (operation_fields o)) l) = zlen l) as -> by (unfold zlen; by rewrite length_map).
  rrun. rewrite (rfoldi_complete _ (λ o, map_node (operation_fields o)) (λ l, (l, seen_of op_ID l))); [done|].
  intros pre x post ->. apply Forall_app in Hok as [_ [[Hi Hd [Hp Hin] Ht] _]%Forall_cons]. unfold operation_step. cbn beta iota zeta.
  repeat rrun. rewrite bool_decide_eq_true_2 by (by apply elem_of_list_to_set). cbn [negb guardE]. repeat rrun.
  rewrite seen_of_snoc. by destruct x.
Qed.

Lemma resources_complete l itemPath :
  Forall resource_ok l → NoDup (map sr_ID l) → NoDup (map sr_Path l) →
  rfoldi (resource_step itemPath) 0 ([], ∅, ∅) (map (λ r, map_node (resource_fields r)) l) =
  Ok (l, seen_of sr_ID l, seen_of sr_Path l).
Proof.
  intros Hok Hni Hnp. apply (rfoldi_complete _ (λ r, map_node (resource_fields r)) (λ l, (l, seen_of sr_ID l, seen_of sr_Path l))).
  intros pre x post ->. apply Forall_app in Hok as [_ [[Hi Hk Hp] _]%Forall_cons]. unfold resource_step. cbn beta iota zeta.
  repeat rrun. rewrite Hk. change ((slen "reference" >? MaxResourceKindBytes) || negb ("reference" =? "reference")%string) with false.
  cbn [guardE]. repeat rrun. rewrite !seen_of_snoc, <-Hk. by destruct x.
Qed.

Lemma resource_total_nonneg l : 0 ≤ resource_total l.
Proof. unfold resource_total. induction l as [|d l IH]; simpl; [lia|]. pose proof (zlen_nonneg (sd_Resources d)). lia. Qed.

Lemma parseSkills_complete l fs :
  get "skills" fs = Some (seq_node (map (λ d, map_node (skill_fields d)) l)) →
  zlen l ≤ MaxSkills → Forall skill_ok l → NoDup (map sd_Path l) → resource_total l ≤ MaxSkillResources →
  parseSkills (fields_of fs !! "skills") = Ok l.
Proof.
  intros Hg Hlen Hok Hnd Htot. unfold parseSkills. rewrite (sequence_get _ _ _ _ Hg). cbn [rbind].
  assert (zlen (map (λ d, map_node (skill_fields d)) l) = zlen l) as -> by (unfold zlen; by rewrite length_map).
  rrun. rewrite (rfoldi_complete _ (λ d, map_node (skill_fields d)) (λ l, (l, seen_of sd_Path l, resource_total l))); [done|].
  intros pre x post ->. apply Forall_app in Hok as [_ [[Hp Hc Hr Hri Hrp] _]%Forall_cons]. unfold skill_step. cbn beta iota zeta.
  repeat rrun. assert (zlen (map (λ r, map_node (resource_fields r)) (sd_Resources x)) = zlen (sd_Resources x)) as ->
    by (unfold zlen; by rewrite length_map).
  rrun. rewrite (proj2 (Z.gtb_ltb _ _ : _ = _)) || rewrite Z.gtb_ltb. rewrite (proj2 (Z.ltb_ge _ _)).
  2:{ rewrite <-resource_total_snoc. replace (pre ++ x :: post) with ((pre ++ [x]) ++ post) in Htot by (by rewrite <-app_assoc).
      etrans; [|exact Htot]. generalize (pre ++ [x]). intros l. induction l as [|d l IH]; simpl; [apply resource_total_nonneg|].
      unfold resource_total in *. simpl. lia. }
  cbn [guardE]. rewrite resources_complete by done. cbn [rbind]. rewrite seen_of_snoc, resource_total_snoc. by destruct x.
Qed.

Lemma parseContext_complete l fs :
  get "context" fs = Some (seq_node (map (λ c, map_node (context_fields c)) l)) →
  zlen l ≤ MaxContextReferences → Forall context_ok l → NoDup (map cr_ID l) → NoDup (map cr_Path l) →
  parseContext (fields_of fs !! "context") = Ok l.
Proof.
  intros Hg Hlen Hok Hni Hnp. unfold parseContext. rewrite (sequence_get _ _ _ _ Hg). cbn [rbind].
  assert (zlen (map (λ c, map_node (context_fields c)) l) = zlen l) as -> by (unfold zlen; by rewrite length_map).
  rrun. rewrite (rfoldi_complete _ (λ c, map_node (context_fields c)) (λ l, (l, seen_of cr_ID l, seen_of cr_Path l))); [done|].
  intros pre x post ->. apply Forall_app in Hok as [_ [[Hi Hp] _]%Forall_cons]. unfold context_step. cbn beta iota zeta.
  repeat rrun. rewrite !seen_of_snoc. by destruct x.
Qed.

Lemma parse_parent_complete fs capabilityID parent :
  get "parent" fs = Some (str_node parent) → NFC "" = "" → parent_ok capabilityID parent →
  parse_parent (fields_of fs) capabilityID = Ok parent.
Proof.
  intros Hg H0 Hp. unfold parse_parent, optionalString. rewrite fields_of_get, Hg. cbn [scalarString rbind].
  destruct Hp as [->|(Hl & Hm & Hn & rest & ->)]; cbn [str_node nd_Kind nd_Tag nd_Value]; rewrite bool_decide_eq_true_2 by done; cbn.
  - by rewrite H0.
  - rewrite Hn. destruct (String.eqb parent ""); [done|]. rewrite Z.gtb_ltb, (proj2 (Z.ltb_ge _ _)), Hm by done. cbn [orb negb guardE].
    rewrite (proj2 (HasPrefix_spec _ _)); [done|]. exists rest. by rewrite str_app_assoc.
Qed.

Lemma parseSpec_complete capabilityID s :
  NFC "" = "" → spec_ok capabilityID s → parseSpec (map_node (spec_fields s)) capabilityID = Ok s.
Proof.
  intros H0 [Hp (? & ? & ?) (? & ? & ?) (? & ? & ? & ?) (? & ? & ? & ?)]. unfold parseSpec. rrun.
  rewrite (parse_parent_complete _ _ (sp_Parent s)) by done. cbn [rbind].
  rewrite (parseProviders_complete (sp_Providers s)) by done. cbn [rbind].
  rewrite (parseOperations_complete (sp_Operations s)) by done. cbn [rbind].
  rewrite (parseSkills_complete (sp_Skills s)) by done. cbn [rbind].
  rewrite (parseContext_complete (sp_Context s)) by done. by destruct s.
Qed.

Lemma validateNormalizedSize_complete m :
  marshal_size (base_card_json m) ≤ MaxBaseCardBytes →
  Forall (λ j, marshal_size j ≤ MaxStructureItemBytes) (structure_items m) →
  foldr (λ j n, marshal_size j + n) 0 (structure_items m) ≤ MaxStructureBytes →
  validateNormalizedSize m = Ok tt.
Proof.
  intros Hc Hi Ht. unfold validateNormalizedSize. rewrite Z.gtb_ltb, (proj2 (Z.ltb_ge _ _)) by done. cbn [guardE].
  assert (∀ i total, rfoldi item_size_step i total (structure_items m) =
    Ok (total + foldr (λ j n, marshal_size j + n) 0 (structure_items m))) as ->.
  { induction Hi as [|j l Hj _ IH]; intros i total; simpl; [f_equal; lia|].
    unfold item_size_step at 1. rewrite Z.gtb_ltb, (proj2 (Z.ltb_ge _ _)) by done. cbn [guardE rbind].
    simpl in Ht. assert (0 ≤ marshal_size j) by apply zlen_nonneg. rewrite IH by lia. f_equal. lia. }
  cbn [rbind]. by rewrite Z.gtb_ltb, (proj2 (Z.ltb_ge _ _)).
Qed.
End roundtrip.

(** ** Properties *)

(** C11. A manifest that is accepted is well formed: its identifiers match their
    patterns and are unique, every text and list is within its bound and in
    NFC, operations name providers that exist, the parent is a proper prefix
    of the capability's identifier, paths are clean and stay inside the
    package, and the normalised card and structure fit their sizes. *)
Theorem manifest_accepted `{YamlDecoder} `{TextLaws} data m : ParseManifest data = Ok m → manifest_ok m.
Proof. intros Hm. eapply rspec_Ok; [apply ParseManifest_spec|exact Hm]. Qed.

(** A manifest that is refused is refused with one of the documented package
    errors, never with the failure of an internal operation such as an index
    out of range, whatever tree the YAML library builds. *)
Theorem manifest_refused `{YamlDecoder} `{TextLaws} data e : ParseManifest data = Err e → manifest_error e.
Proof. intros He. eapply rspec_Err; [apply ParseManifest_spec|exact He]. Qed.

(** C15. Parsing the tree of a manifest gives the manifest back exactly when it is
    well formed: nothing [ParseManifest] promises can be dropped, and nothing
    else is needed to be accepted. *)
Theorem manifest_roundtrip `{YamlDecoder} `{TextLaws} data m :
  parseBoundedYAML data manifestLimits = Ok (manifest_node m) → ParseManifest data = Ok m ↔ manifest_ok m.
Proof.
  intros Hr. split; [intros Hm; eapply rspec_Ok; [apply ParseManifest_spec|exact Hm]|]. unfold ParseManifest. rewrite Hr.
  intros [Ha Hk Hm Hs Hc Hi Ht]. assert (NFC "" = "") as Hnil by (by apply NFC_ascii).
  unfold manifest_of_root, manifest_node. repeat rrun. rewrite scalarString_str. cbn [rbind]. rewrite Ha, String.eqb_refl. cbn [negb guardE].
  repeat rrun. rewrite scalarString_str. cbn [rbind]. rewrite Hk, String.eqb_refl. cbn [negb guardE]. repeat rrun.
  rewrite parseMetadata_complete by done. cbn [rbind]. repeat rrun. rewrite parseSpec_complete by done. cbn [rbind]. cbv zeta.
  rewrite <-Ha, <-Hk. destruct m as [a k d s]. cbn [mf_APIVersion mf_Kind mf_Metadata mf_Spec] in *.
  by rewrite validateNormalizedSize_complete.
Qed.

(** ** Witnesses *)

(** A package manifest, and a decoder that knows its text and one other. *)
Definition echo_manifest : Manifest :=
  mkManifest manifestAPIVersion manifestKind
    (mkMetadata "everything.echo" "Echo" "1.0.0" "Echoes messages" ["demo"])
    (mkSpec "everything" [mkSkillDeclaration "skills/echo" [mkSkillResource "guide" "reference" "docs/guide.md"]]
       [mkOperation "echo" "Echoes a message" "main" "echo"] [mkContextReference "notes" "context/notes.md"]
       [mkProviderBinding "main" "mcp" "everything"]).
Definition yaml_lines (l : list string) : bytes := to_bytes (Join l (String NL "")).
Definition echo_yaml : bytes := yaml_lines
  ["apiVersion: tappet.gearboxlogic.dev/v1alpha1"; "kind: Capability"; "metadata:"; "  id: everything.echo";
   "  name: Echo"; "  version: 1.0.0"; "  description: Echoes messages"; "  tags: [demo]"; "spec:"; "  parent: everything";
   "  skills:"; "    - path: skills/echo"; "      resources:"; "        - {id: guide, kind: reference, path: docs/guide.md}";
   "  operations:"; "    - {id: echo, description: Echoes a message, provider: main, target: echo}";
   "  context:"; "    - {id: notes, path: context/notes.md}"; "  providers:"; "    - {id: main, type: mcp, serverRef: everything}"].
Definition typo_yaml : bytes := yaml_lines ["apiVersions: 1"].
Definition demo_decoder : YamlDecoder := {|
  decode_first data :=
    if bool_decide (data = echo_yaml) then Ok (mkNode DocumentNode "" "" "" [manifest_node echo_manifest])
    else if bool_decide (data = typo_yaml)
    then Ok (mkNode DocumentNode "" "" "" [map_node [("apiVersions", mkNode ScalarNode "!!int" "1" "" [])]])
    else Err (ErrorNew "yaml: unknown document");
  decode_second _ := Err (Sentinel "EOF");
|}.
#[local] Existing Instance demo_decoder.
#[local] Existing Instance ascii_text.
#[local] Existing Instance ascii_text_laws.

Lemma echo_parsed : parseBoundedYAML echo_yaml manifestLimits = Ok (manifest_node echo_manifest).
Proof. vm_compute. reflexivity. Qed.

Lemma manifest_accepted_witness : manifest_ok echo_manifest.
Proof. apply (manifest_accepted echo_yaml). vm_compute. reflexivity. Defined.

Lemma manifest_refused_witness :
  manifest_error (packageError "package_manifest_unknown_field" "manifest.apiVersions" (ErrorNew "field is not defined by v1alpha1")).
Proof. apply (manifest_refused typo_yaml). vm_compute. reflexivity. Defined.

Lemma manifest_roundtrip_witness : ParseManifest echo_yaml = Ok echo_manifest ↔ manifest_ok echo_manifest.
Proof. apply (manifest_roundtrip echo_yaml). exact echo_parsed. Defined.
