(* ===== verification/Skill.v ===== *)
(** * Agent skills

    Models [internal/capability/skill.go]: the frontmatter and the body of one
    staged [SKILL.md], and the rules its metadata must meet. *)
From Stdlib Require Import Ascii String.
From S2P Require Import Prelude GoStrings Limits Sha256 Regex Utf8 Json Text Records Yaml Manifest.
Local Open Scope string_scope.
Local Open Scope list_scope.
Local Open Scope Z_scope.

Definition maxAgentSkillNameCharacters : Z := 64.
Definition maxAgentSkillDescriptionChars : Z := 1024.
Definition maxAgentSkillCompatibilityChars : Z := 500.

(** [strings.ToLower] maps runes by Go's Unicode case tables. *)
Class LowerCase := ToLower : string → string.

(** ** Frontmatter *)

Definition dashes : bytes := to_bytes "---".
Definition starts_with (p data : bytes) : bool := bool_decide (take (length p) data = p).

(** The loop over the lines that follow the first; [acc] holds the bytes
    before the current line and [line] the bytes read of it, both reversed. *)
Fixpoint frontmatter_loop (acc line rest : bytes) : option (bytes * bytes) :=
  match rest with
  | [] => if bool_decide (trim_cr (rev line) = dashes) then Some (rev acc, []) else None
  | c :: rest =>
      if Ascii.eqb c NL then
        if bool_decide (trim_cr (rev line) = dashes) then Some (rev acc, rest)
        else frontmatter_loop (NL :: line ++ acc) [] rest
      else frontmatter_loop acc (c :: line) rest
  end.

(** The bytes after the first line feed. *)
Fixpoint after_newline (data : bytes) : bytes :=
  match data with [] => [] | c :: rest => if Ascii.eqb c NL then rest else after_newline rest end.

Definition splitSkillFrontmatter (data : bytes) : result error (bytes * bytes) :=
  fail_if negb (starts_with (dashes ++ [NL]) data) && negb (starts_with (dashes ++ [CR; NL]) data)
    with ErrorNew "must start with YAML frontmatter delimiter" else
  match frontmatter_loop [] [] (after_newline data) with
  | Some r => Ok r
  | None => Err (ErrorNew "frontmatter is not closed with ---")
  end.

(** ** Metadata *)

Section skill.
Context `{TextOps} `{UnicodeTables} `{LowerCase} `{YamlDecoder}.

Definition name_rune (r : Z) : bool := (r =? 45) || IsLetter r || IsDigit r.

Definition validateAgentSkillName (name directoryName : string) : result error unit :=
  fail_if String.eqb name "" with ErrorNew "name must be a non-empty string" else
  fail_if (RuneCount name >? maxAgentSkillNameCharacters) || (slen name >? MaxSkillNameBytes)
    with Errorf "name exceeds %d characters or %d normalized UTF-8 bytes"
           [FInt maxAgentSkillNameCharacters; FInt MaxSkillNameBytes] else
  fail_if negb (String.eqb name (ToLower name)) with ErrorNew "name must be lowercase" else
  fail_if HasPrefix name "-" || HasSuffix name "-" with ErrorNew "name cannot start or end with a hyphen" else
  fail_if Contains name "--" with ErrorNew "name cannot contain consecutive hyphens" else
  fail_if negb (forallb name_rune (runes name))
    with ErrorNew "name may contain only Unicode letters, digits, and hyphens" else
  fail_if negb (String.eqb (NFKC directoryName) name)
    with Errorf "directory name %q must match skill name %q" [FStr directoryName; FStr name] else
  Ok tt.

(** The loop over a mapping's entries. *)
Fixpoint metadata_loop (metadata : gmap string string) (content : list Node) : result error (gmap string string) :=
  match content with
  | [] => Ok metadata
  | [_] => Err index_panic
  | key :: value :: rest =>
      fail_if negb (bool_decide (nd_Kind key = ScalarNode)) || negb (bool_decide (nd_Kind value = ScalarNode))
        with packageError "package_skill_metadata_invalid" "skill.frontmatter.metadata" (ErrorNew "keys and values must be scalar") else
      metadata_loop (<[NFC (nd_Value key) := NFC (nd_Value value)]> metadata) rest
  end.

(** A nil map is an empty one. *)
Definition parseSkillMetadataMap (node : option Node) : result error (gmap string string) :=
  match node with
  | None => Ok ∅
  | Some n =>
      fail_if negb (bool_decide (nd_Kind n = MappingNode))
        with packageError "package_skill_metadata_invalid" "skill.frontmatter.metadata" (ErrorNew "must be a mapping") else
      metadata_loop ∅ (nd_Content n)
  end.

Definition skillLimits : yamlLimits := mkYamlLimits SkillFrontmatterMax ManifestMaxDepth ManifestMaxNodes.

(** [ParseSkill] from the fields of the frontmatter on. *)
Definition skill_document (fs : fields) (body : bytes) (skillPath : string) : result error SkillDocument :=
  let invalid := packageError "package_skill_metadata_invalid" (skillPath +:+ "/SKILL.md") in
  let! name := requiredString fs "name" "skill.frontmatter" in
  let! description := requiredString fs "description" "skill.frontmatter" in
  let! license := optionalString fs "license" "skill.frontmatter" in
  let! allowedTools := optionalString fs "allowed-tools" "skill.frontmatter" in
  let! compatibility := optionalString fs "compatibility" "skill.frontmatter" in
  let name := NFKC (TrimSpace name) in
  let description := NFC (TrimSpace description) in
  let license := NFC license in
  let allowedTools := NFC allowedTools in
  let compatibility := NFC compatibility in
  let! _ := match validateAgentSkillName name (path_Base skillPath) with Err e => Err (invalid e) | Ok _ => Ok tt end in
  fail_if String.eqb description "" with invalid (ErrorNew "description must be a non-empty string") else
  fail_if (RuneCount description >? maxAgentSkillDescriptionChars) || (slen description >? MaxSkillDescription)
    with invalid (Errorf "description exceeds %d characters or %d normalized UTF-8 bytes"
                    [FInt maxAgentSkillDescriptionChars; FInt MaxSkillDescription]) else
  fail_if RuneCount compatibility >? maxAgentSkillCompatibilityChars
    with invalid (Errorf "compatibility exceeds %d characters" [FInt maxAgentSkillCompatibilityChars]) else
  let! metadata := parseSkillMetadataMap (fs !! "metadata") in
  Ok (mkSkillDocument (mkSkillMetadata name description license allowedTools compatibility metadata)
        (TrimSpace (of_bytes body))).

Definition ParseSkill (data : bytes) (skillPath : string) : result error SkillDocument :=
  let file := skillPath +:+ "/SKILL.md" in
  fail_if zlen data >? SkillMaxBytes
    with packageError "package_skill_limit_exceeded" file (Errorf "exceeds %d bytes" [FInt SkillMaxBytes]) else
  fail_if negb (ValidString (of_bytes data)) with packageError "package_skill_invalid" file (ErrorNew "must be valid UTF-8") else
  match splitSkillFrontmatter data with
  | Err e => Err (packageError "package_skill_invalid" file e)
  | Ok (frontmatter, body) =>
      fail_if zlen frontmatter >? SkillFrontmatterMax
        with packageError "package_skill_frontmatter_limit_exceeded" file
               (Errorf "frontmatter exceeds %d bytes" [FInt SkillFrontmatterMax]) else
      match parseBoundedYAML frontmatter skillLimits with
      | Err e => Err (packageError "package_skill_frontmatter_invalid" file e)
      | Ok root =>
          let! fs := mapping root "skill.frontmatter"
                       ["name"; "description"; "license"; "allowed-tools"; "metadata"; "compatibility"] in
          skill_document fs body skillPath
      end
  end.
End skill.

(** ** Lemmas: frontmatter *)

(** The lines between the delimiters: complete lines, none a delimiter. *)
Definition plain_lines (front : bytes) (lines : list bytes) : Prop :=
  front = mjoin (map (λ l, l ++ [NL]) lines) ∧ Forall (λ l, (NL ∉ l) ∧ trim_cr l ≠ dashes) lines.

Definition closing (close body rest : bytes) : Prop :=
  (NL ∉ close) ∧ trim_cr close = dashes ∧ (rest = close ++ NL :: body ∨ rest = close ∧ body = []).

Lemma loop_line l : ∀ acc line rest, NL ∉ l →
  frontmatter_loop acc line (l ++ NL :: rest) =
    if bool_decide (trim_cr (rev line ++ l) = dashes) then Some (rev acc, rest)
    else frontmatter_loop (NL :: rev l ++ line ++ acc) [] rest.
Proof.
  induction l as [|c l IH]; intros acc line rest Hl; cbn [frontmatter_loop app].
  - rewrite Ascii.eqb_refl, app_nil_r. done.
  - apply not_elem_of_cons in Hl as [Hc Hl]. destruct (Ascii.eqb_spec c NL) as [->|_]; [done|].
    rewrite IH by done. simpl. by rewrite <-!app_assoc.
Qed.

Lemma loop_end l : ∀ acc line, NL ∉ l →
  frontmatter_loop acc line l = if bool_decide (trim_cr (rev line ++ l) = dashes) then Some (rev acc, []) else None.
Proof.
  induction l as [|c l IH]; intros acc line Hl; cbn [frontmatter_loop].
  - by rewrite app_nil_r.
  - apply not_elem_of_cons in Hl as [Hc Hl]. destruct (Ascii.eqb_spec c NL) as [->|_]; [done|].
    rewrite IH by done. simpl. by rewrite <-app_assoc.
Qed.

Lemma newline_split (data : bytes) : (NL ∉ data) ∨ ∃ l rest, data = l ++ NL :: rest ∧ NL ∉ l.
Proof.
  induction data as [|c data IH]; [left; set_solver|]. destruct (Ascii.eqb_spec c NL) as [->|Hc].
  - right. exists [], data. set_solver.
  - destruct IH as [IH|(l & rest & -> & Hl)]; [left; set_solver|]. right. exists (c :: l), rest. set_solver.
Qed.

Lemma frontmatter_sound n : ∀ rest acc front body, (length rest ≤ n)%nat →
  frontmatter_loop acc [] rest = Some (front, body) →
  ∃ lines front' rest', rest = front' ++ rest' ∧ front = rev acc ++ front' ∧
    plain_lines front' lines ∧ ∃ close, closing close body rest'.
Proof.
  induction n as [|n IH]; intros rest acc front body Hlen.
  { destruct rest; [done|simpl in Hlen; lia]. }
  destruct (newline_split rest) as [Hnl|(l & rest' & -> & Hl)].
  - rewrite loop_end by done. case_bool_decide as Hd; [|done]. intros [= <- <-].
    exists [], [], rest. split_and!; [done|by rewrite app_nil_r|by split|]. exists rest. split_and!; [done|done|by right].
  - rewrite loop_line by done. case_bool_decide as Hd.
    + intros [= <- <-]. exists [], [], (l ++ NL :: rest'). split_and!; [done|by rewrite app_nil_r|by split|].
      exists l. split_and!; [done|done|by left].
    + intros Hloop. apply IH in Hloop as (lines & front' & rest'' & -> & -> & [-> Hf] & Hc).
      * exists (l :: lines), (mjoin (map (λ l, l ++ [NL]) (l :: lines))), rest''. split_and!; [| | |done].
        -- simpl. by rewrite <-!app_assoc.
        -- simpl. rewrite rev_app_distr. simpl. by rewrite rev_involutive, <-!app_assoc.
        -- split; [done|by constructor].
      * rewrite length_app in Hlen. simpl in Hlen. lia.
Qed.

Lemma mjoin_cons_map (l : bytes) lines :
  mjoin (map (λ l, l ++ [NL]) (l :: lines)) = (l ++ [NL]) ++ mjoin (map (λ l, l ++ [NL]) lines).
Proof. done. Qed.

Lemma frontmatter_complete lines close body rest : ∀ acc,
  Forall (λ l, (NL ∉ l) ∧ trim_cr l ≠ dashes) lines → closing close body rest →
  frontmatter_loop acc [] (mjoin (map (λ l, l ++ [NL]) lines) ++ rest) =
    Some (rev acc ++ mjoin (map (λ l, l ++ [NL]) lines), body).
Proof.
  intros acc Hf (Hnl & Hd & Hrest). revert acc. induction Hf as [|l lines [Hl Hne] _ IH]; intros acc.
  - simpl. rewrite app_nil_r. destruct Hrest as [->|[-> ->]].
    + rewrite loop_line by done. by rewrite bool_decide_eq_true_2.
    + rewrite loop_end by done. by rewrite bool_decide_eq_true_2.
  - rewrite mjoin_cons_map, <-!app_assoc. cbn [app]. rewrite loop_line by done. rewrite bool_decide_eq_false_2 by done.
    rewrite app_nil_l, IH. simpl. rewrite rev_app_distr, rev_involutive, <-!app_assoc. done.
Qed.

(** The delimiters of a frontmatter's first line. *)
Definition opening (o : bytes) : Prop := o = dashes ++ [NL] ∨ o = dashes ++ [CR; NL].

Lemma after_newline_opening o data : opening o → after_newline (o ++ data) = data.
Proof. by intros [->| ->]. Qed.

Lemma starts_with_spec p data : starts_with p data = true ↔ ∃ rest, data = p ++ rest.
Proof.
  unfold starts_with. rewrite bool_decide_eq_true. split.
  - intros Ht. exists (drop (length p) data). by rewrite <-Ht at 1; rewrite take_drop.
  - intros [rest ->]. by rewrite take_app_length.
Qed.

Lemma splitSkillFrontmatter_spec data front body :
  splitSkillFrontmatter data = Ok (front, body) ↔
  ∃ o lines close rest, data = o ++ front ++ rest ∧ opening o ∧ plain_lines front lines ∧ closing close body rest.
Proof.
  unfold splitSkillFrontmatter. rewrite guardE_Ok. split.
  - intros [Ho Hl]. destruct (frontmatter_loop _ _ _) as [r|] eqn:Hloop; [|done]. injection Hl as ->.
    apply (frontmatter_sound _ _ _ _ _ (le_n _)) in Hloop as (lines & front' & rest & Hdata & -> & Hp & close & Hc).
    assert (∃ o, opening o ∧ ∃ x, data = o ++ x) as (o & Hopen & x & ->).
    { apply andb_false_iff in Ho as [Ho|Ho]; apply negb_false_iff, starts_with_spec in Ho as [x ->]; eexists;
        (split; [|by eexists]); [by left|by right]. }
    rewrite after_newline_opening in Hdata by done. subst x. by exists o, lines, close, rest.
  - intros (o & lines & close & rest & -> & Ho & [-> Hf] & Hc). split.
    + destruct Ho as [->| ->]; [by rewrite (proj2 (starts_with_spec _ _)) by (eexists; reflexivity)|].
      apply andb_false_iff. right. apply negb_false_iff, starts_with_spec. eexists; reflexivity.
    + rewrite after_newline_opening by done. by rewrite (frontmatter_complete _ close body).
Qed.

(** ** What a skill promises *)

Section promises.
Context `{TextOps} `{UnicodeTables} `{LowerCase} `{YamlDecoder}.

Record skill_name_ok (name directoryName : string) : Prop := {
  sn_nonempty : name ≠ "";
  sn_length : RuneCount name ≤ maxAgentSkillNameCharacters ∧ slen name ≤ MaxSkillNameBytes;
  sn_lower : ToLower name = name;
  sn_hyphens : HasPrefix name "-" = false ∧ HasSuffix name "-" = false ∧ Contains name "--" = false;
  sn_runes : Forall (λ r, r = 45 ∨ IsLetter r = true ∨ IsDigit r = true) (runes name);
  sn_directory : NFKC directoryName = name;
}.

Record skill_document_ok (skillPath : string) (body : bytes) (d : SkillDocument) : Prop := {
  sd_name : skill_name_ok (sm_Name (doc_Metadata d)) (path_Base skillPath);
  sd_description : sm_Description (doc_Metadata d) ≠ "" ∧
    RuneCount (sm_Description (doc_Metadata d)) ≤ maxAgentSkillDescriptionChars ∧
    slen (sm_Description (doc_Metadata d)) ≤ MaxSkillDescription;
  sd_compatibility : RuneCount (sm_Compatibility (doc_Metadata d)) ≤ maxAgentSkillCompatibilityChars;
  sd_normal : Forall (λ s, NFC s = s)
    [sm_Description (doc_Metadata d); sm_License (doc_Metadata d); sm_AllowedTools (doc_Metadata d); sm_Compatibility (doc_Metadata d)];
  sd_metadata : map_Forall (λ k v, NFC k = k ∧ NFC v = v) (sm_Metadata (doc_Metadata d));
  sd_body : doc_Body d = TrimSpace (of_bytes body);
}.

Definition skill_codes : list string :=
  ["package_skill_limit_exceeded"; "package_skill_invalid"; "package_skill_frontmatter_limit_exceeded";
   "package_skill_frontmatter_invalid"; "package_skill_metadata_invalid"; "package_manifest_type_invalid";
   "package_manifest_unknown_field"; "package_manifest_required_field"].
Definition skill_error (e : error) : Prop := ∃ code path cause, e = PkgError code path cause ∧ code ∈ skill_codes.

Lemma skill_error_intro code path cause :
  bool_decide (code ∈ skill_codes) = true → skill_error (packageError code path cause).
Proof. intros ?%bool_decide_eq_true_1. by exists code, path, cause. Qed.

(** What the shared readers fail with. *)
Definition reader_error (e : error) : Prop :=
  ∃ code path cause, e = PkgError code path cause ∧
    code ∈ ["package_manifest_type_invalid"; "package_manifest_unknown_field"; "package_manifest_required_field"].

Lemma reader_skill_error e : reader_error e → skill_error e.
Proof.
  intros (code & path & cause & -> & Hc). exists code, path, cause. split; [done|].
  unfold skill_codes. repeat (apply elem_of_cons in Hc as [->|Hc]; [apply (bool_decide_unpack _); by vm_compute|]).
  by apply not_elem_of_nil in Hc.
Qed.

Lemma requiredString_error fs name path e : requiredString fs name path = Err e → reader_error e.
Proof.
  unfold requiredString, requiredField. destruct (fs !! name) as [n|]; cbn [rbind].
  - unfold scalarString. destruct (_ && _); [done|]. intros [= <-]. eexists _, _, _. split; [done|]. by left.
  - intros [= <-]. eexists _, _, _. split; [done|]. by right; right; left.
Qed.

Lemma optionalString_error fs name path e : optionalString fs name path = Err e → reader_error e.
Proof.
  unfold optionalString. destruct (fs !! name) as [n|]; [|done]. unfold scalarString. destruct (_ && _); [done|].
  intros [= <-]. eexists _, _, _. split; [done|]. by left.
Qed.

Lemma mapping_error node path allowed e : plain_node node → mapping node path allowed = Err e → reader_error e.
Proof.
  intros Hp Hm. unfold mapping in Hm. destruct (bool_decide_reflect (nd_Kind node = MappingNode)) as [Hk|]; cbn [negb guardE] in Hm.
  2:{ injection Hm as <-. eexists _, _, _. split; [done|]. by left. }
  inversion Hp as [k t v c _ Hmap _]; subst. simpl in *. destruct (Hmap Hk) as (l & -> & _). clear -Hm.
  revert Hm. generalize (∅ : fields). induction l as [|[key value] l IH]; intros m; simpl; [done|].
  destruct (bool_decide _); cbn [negb guardE]; [apply IH|]. intros [= <-]. eexists _, _, _. split; [done|]. by right; left.
Qed.

Lemma rspec_error {A} (P : error → Prop) (r : result error A) : (∀ e, r = Err e → P e) → rspec P (λ _, True) r.
Proof. destruct r; simpl; auto. Qed.

Lemma validateAgentSkillName_spec name directoryName :
  validateAgentSkillName name directoryName = Ok tt ↔ skill_name_ok name directoryName.
Proof.
  unfold validateAgentSkillName. rewrite !guardE_Ok, !orb_false_iff, !negb_false_iff, !Z.gtb_ltb, !Z.ltb_ge, String.eqb_neq, !String.eqb_eq.
  assert (forallb name_rune (runes name) = true ↔ Forall (λ r, r = 45 ∨ IsLetter r = true ∨ IsDigit r = true) (runes name)) as ->.
  { rewrite Forall_forall, forallb_forall. setoid_rewrite list_elem_of_In. unfold name_rune.
    setoid_rewrite orb_true_iff. setoid_rewrite orb_true_iff. setoid_rewrite Z.eqb_eq. naive_solver. }
  split; [intros (? & [? ?] & ? & [? ?] & ? & ? & ? & _); split; auto|]. intros [? [? ?] ? (? & ? & ?) ? ?]. split_and!; auto.
Qed.

Lemma parseSkillMetadataMap_spec `{!TextLaws} node :
  plain_opt node → rspec skill_error (map_Forall (λ k v, NFC k = k ∧ NFC v = v)) (parseSkillMetadataMap node).
Proof.
  intros Hp. destruct node as [n|]; [|apply map_Forall_empty]. unfold parseSkillMetadataMap.
  apply rspec_guard; [by apply skill_error_intro|]. intros Hk. bool_hyps.
  pose proof (Hp n eq_refl) as Hn. inversion Hn as [k t v c _ Hmap _]; subst. simpl in *. destruct (Hmap Hk) as (l & -> & _).
  assert (map_Forall (λ k v, NFC k = k ∧ NFC v = v) (∅ : gmap string string)) as Hnone by apply map_Forall_empty.
  clear Hk Hp Hn Hmap. revert Hnone. generalize (∅ : gmap string string). induction l as [|[key value] l IH]; intros m Hm; [done|].
  simpl. apply rspec_guard; [by apply skill_error_intro|]. intros _. apply IH. apply map_Forall_insert_2; [|done].
  split; apply NFC_idem.
Qed.

Lemma skill_document_spec `{!TextLaws} fs body skillPath :
  plain_fields fs → rspec skill_error (skill_document_ok skillPath body) (skill_document fs body skillPath).
Proof.
  intros Hf. unfold skill_document.
  do 2 (eapply rspec_bind; [apply rspec_error; intros e He; by eapply reader_skill_error, requiredString_error|]; intros ? _ _).
  do 3 (eapply rspec_bind; [apply rspec_error; intros e He; by eapply reader_skill_error, optionalString_error|]; intros ? _ _).
  cbv zeta. match goal with |- context [validateAgentSkillName ?n ?d] => destruct (validateAgentSkillName n d) as [[]|e] eqn:Hn end;
    [|by apply skill_error_intro]. apply validateAgentSkillName_spec in Hn. cbn [rbind].
  do 3 (apply rspec_guard; [by apply skill_error_intro|]; intros ?). bool_hyps.
  eapply rspec_bind; [apply parseSkillMetadataMap_spec; by apply plain_lookup|]. intros md _ Hmd.
  split; simpl; auto.
  - split_and!; [by apply String.eqb_neq|done..].
  - repeat constructor; apply NFC_idem.
Qed.
End promises.

(** ** Properties *)

(** The frontmatter of a skill file is the lines between its opening line and
    the first line that is exactly three dashes, and the body all that
    follows; line feeds and carriage returns at the end of the delimiters are
    the only freedom, and every other file is refused. *)
Theorem skill_frontmatter data front body :
  splitSkillFrontmatter data = Ok (front, body) ↔
  ∃ o lines close rest, data = o ++ front ++ rest ∧ opening o ∧ plain_lines front lines ∧ closing close body rest.
Proof. apply splitSkillFrontmatter_spec. Qed.

(** A skill that is accepted has a name of bounded length in lower-case
    letters, digits and single inner hyphens that is the name of its
    directory, a bounded non-empty description, and normalised metadata; one
    that is refused is refused with a documented package error, whatever tree
    the YAML library builds. *)
Theorem skill_checked `{TextLaws} `{UnicodeTables} `{LowerCase} `{YamlDecoder} data skillPath :
  match ParseSkill data skillPath with
  | Ok d => ∃ front body, splitSkillFrontmatter data = Ok (front, body) ∧ zlen data ≤ SkillMaxBytes ∧
      zlen front ≤ SkillFrontmatterMax ∧ skill_document_ok skillPath body d
  | Err e => skill_error e
  end.
Proof.
  change (rspec skill_error (λ d, ∃ front body, splitSkillFrontmatter data = Ok (front, body) ∧ zlen data ≤ SkillMaxBytes ∧
      zlen front ≤ SkillFrontmatterMax ∧ skill_document_ok skillPath body d) (ParseSkill data skillPath)).
  unfold ParseSkill. do 2 (apply rspec_guard; [by apply skill_error_intro|]; intros ?).
  destruct (splitSkillFrontmatter data) as [[front body]|e] eqn:Hs; [|by apply skill_error_intro].
  apply rspec_guard; [by apply skill_error_intro|]. intros ?.
  destruct (parseBoundedYAML front skillLimits) as [root|e] eqn:Hr; [|by apply skill_error_intro].
  apply parseBoundedYAML_plain in Hr. bool_hyps.
  destruct (mapping root _ _) as [fs|e] eqn:Hm; cbn [rbind]; [|by eapply reader_skill_error, mapping_error].
  assert (plain_fields fs) as Hfs by (eapply rspec_Ok; [by apply mapping_spec|exact Hm]).
  eapply rspec_mono; [by apply skill_document_spec|]. intros d Hd. by exists front, body.
Qed.

(** ** Witnesses *)

Definition ascii_lowercase : LowerCase := ascii_fold.
Definition echo_front : bytes := yaml_lines ["name: echo"; "description: Echoes messages"; ""].
Definition echo_skill : bytes := yaml_lines ["---"; "name: echo"; "description: Echoes messages"; "---"; "# Echo"; ""].
Definition skill_decoder : YamlDecoder := {|
  decode_first data :=
    if bool_decide (data = echo_front)
    then Ok (mkNode DocumentNode "" "" ""
               [map_node [("name", str_node "echo"); ("description", str_node "Echoes messages")]])
    else Err (ErrorNew "yaml: unknown document");
  decode_second _ := Err (Sentinel "EOF");
|}.

Lemma skill_checked_witness :
  match @ParseSkill ascii_text ascii_tables ascii_lowercase skill_decoder echo_skill "skills/echo" with
  | Ok d => sm_Name (doc_Metadata d) = "echo" ∧ doc_Body d = "# Echo"
  | Err _ => False
  end ∧
  match @ParseSkill ascii_text ascii_tables ascii_lowercase skill_decoder echo_skill "skills/echo" with
  | Ok d => ∃ front body, splitSkillFrontmatter echo_skill = Ok (front, body) ∧ zlen echo_skill ≤ SkillMaxBytes ∧
      zlen front ≤ SkillFrontmatterMax ∧ @skill_document_ok ascii_text ascii_tables ascii_lowercase "skills/echo" body d
  | Err e => skill_error e
  end.
Proof.
  split; [vm_compute; split; reflexivity|].
  exact (@skill_checked ascii_text ascii_text_laws ascii_tables ascii_lowercase skill_decoder echo_skill "skills/echo").
Defined.
