(* ===== verification/Loader.v ===== *)
(** * Loading packages

    Models [internal/capability/source.go] and [loader.go]: the checks on
    package and artifact names, and the loading of a package into the snapshot
    store through one staging transaction. The operating system's files are
    the records [packageRoot] and [packageDirectory], Go's interfaces of those
    names; [OpenRegularFile] of [source_unix.go] is modelled over the system
    calls it makes. *)
From stdpp Require Import relations.
From Stdlib Require Import Ascii String.
From S2P Require Import Prelude GoStrings Limits Sha256 Regex Utf8 Json Text Snapshot SnapshotService Records Yaml Manifest Skill.
Local Open Scope string_scope.
Local Open Scope list_scope.
Local Open Scope Z_scope.

(** ** Names and paths *)

Definition path_separators : string := String "/" (String backslash (String backslash "")).

Definition validatePackageComponent (name : string) : result error unit :=
  fail_if String.eqb name "" || String.eqb name "." || String.eqb name ".." || ContainsAny name path_separators
    with Errorf "invalid package directory name %q" [FStr name] else
  Ok tt.

Definition splitSafePath (relative : string) : result error (list string) :=
  fail_if String.eqb relative "" || negb (String.eqb relative (path_Clean relative)) || HasPrefix relative "/"
          || ContainsByte relative backslash
    with Errorf "unsafe package-relative path %q" [FStr relative] else
  let parts := Split relative "/" in
  let! _ := rfold (λ _ part, validatePackageComponent part) tt parts in
  Ok parts.

Definition sortedPackageNames (names : list string) : result error (list string) :=
  let! _ := rfold (λ _ name, validatePackageComponent name) tt names in
  Ok (merge_sort str_le names).

(** ** Files *)

(** An open file, its size according to [fstat], and the error of closing it. *)
Record packageFile := mkFile { fl_reader : reader; fl_size : Z; fl_close : option error }.
Record packageDirectory := mkDirectory { pd_OpenRegularFile : string → result error packageFile }.
Record packageRoot := mkRoot {
  pr_PackageNames : result error (list string);
  pr_OpenPackage : string → result error packageDirectory;
}.

(** What [source_unix.go] asks of the operating system: resolving a path,
    opening the root, [dup], [openat] of a directory and of a file (both
    without following symbolic links), the names [ReadDir] lists, and the file
    type and size that [fstat] reports. *)
Class UnixFiles := {
  fd : Type;
  filepath_Abs : string → result error string;
  EvalSymlinks : string → result error string;
  open_directory : string → result error fd;
  Dup : fd → result error fd;
  ReadDir : fd → result error (list string);
  openat_directory : fd → string → result error fd;
  openat_file : fd → string → result error fd;
  fstat_regular : fd → result error (bool * Z);
  fd_reader : fd → reader;
  fd_close : fd → option error;
}.

(** [if err != nil { return nil, fmt.Errorf("...: %w", err) }] *)
Definition wrapping {A} (fmt : string) (args : list fmt_arg) (r : result error A) : result error A :=
  match r with Ok x => Ok x | Err e => Err (Wrapf fmt args e) end.

Section unix.
Context `{UnixFiles}.

(** The loop over [parts[:len(parts)-1]]; the closing of the descriptors it
    leaves, whose errors the code drops, is not modelled. *)
Fixpoint open_directories (directory : fd) (components : list string) : result error fd :=
  match components with
  | [] => Ok directory
  | component :: rest =>
      let! next := wrapping "open package path component %q: %w" [FStr component] (openat_directory directory component) in
      open_directories next rest
  end.

Definition OpenRegularFile (directory : fd) (relative : string) : result error packageFile :=
  let! parts := splitSafePath relative in
  let! copy := wrapping "duplicate package directory handle: %w" [] (Dup directory) in
  let! parent := open_directories copy (removelast parts) in
  let! file := wrapping "open package artifact %q: %w" [FStr relative] (openat_file parent (List.last parts "")) in
  let! '(regular, size) := wrapping "inspect package artifact %q: %w" [FStr relative] (fstat_regular file) in
  fail_if negb regular with Errorf "package artifact %q is not a regular file" [FStr relative] else
  Ok (mkFile (fd_reader file) size (fd_close file)).

Definition OpenPackage (root : fd) (name : string) : result error packageDirectory :=
  let! _ := validatePackageComponent name in
  let! directory := wrapping "open package directory %q: %w" [FStr name] (openat_directory root name) in
  Ok (mkDirectory (OpenRegularFile directory)).

Definition PackageNames (root : fd) : result error (list string) :=
  let! copyFile := wrapping "duplicate package root handle: %w" [] (Dup root) in
  let! entries := wrapping "enumerate package root: %w" [] (ReadDir copyFile) in
  sortedPackageNames (List.filter (λ name, negb (String.eqb name "." || String.eqb name "..")) entries).

Definition openPackageRoot (rootPath : string) : result error packageRoot :=
  let! absolute := wrapping "resolve package root: %w" [] (filepath_Abs rootPath) in
  let! canonical := wrapping "resolve canonical package root: %w" [] (EvalSymlinks absolute) in
  let! root := wrapping "open package root: %w" [] (open_directory canonical) in
  Ok (mkRoot (PackageNames root) (OpenPackage root)).
End unix.

(** ** The artifacts of a manifest *)

Definition manifestFileName : string := "tappet.yaml".

Record artifactSpec := mkArtifactSpec { as_path : string; as_kind : ArtifactKind; as_id : string; as_maximum : Z }.
Record artifactSource := mkArtifactSource { src_spec : artifactSpec; src_file : packageFile; src_size : Z }.

(** The closure [add]; its state is [specs] and [seen]. *)
Definition add_spec (s : list artifactSpec * gset string) (spec : artifactSpec) : result error (list artifactSpec * gset string) :=
  fail_if bool_decide (as_path spec ∈ s.2)
    with packageError "package_duplicate_artifact" (as_path spec) (ErrorNew "artifact path is used more than once") else
  Ok (s.1 ++ [spec], {[as_path spec]} ∪ s.2).

Definition skill_file (skillPath : string) : string := path_Join [skillPath; "SKILL.md"].

(** The specs in the order [artifactSpecs] adds them. *)
Definition skill_specs (d : SkillDeclaration) : list artifactSpec :=
  mkArtifactSpec (skill_file (sd_Path d)) ArtifactSkill (sd_Path d) SkillMaxBytes ::
  map (λ r, mkArtifactSpec (path_Join [sd_Path d; sr_Path r]) ArtifactSkillResource
              (sd_Path d +:+ "/" +:+ sr_ID r) ArtifactMaxBytes) (sd_Resources d).
Definition context_spec (c : ContextReference) : artifactSpec :=
  mkArtifactSpec (cr_Path c) ArtifactContext (cr_ID c) ArtifactMaxBytes.

Definition artifactSpecs (manifest : Manifest) : result error (list artifactSpec) :=
  rmap fst (rfold add_spec ([], {[manifestFileName]})
              (flat_map skill_specs (sp_Skills (mf_Spec manifest)) ++ map context_spec (sp_Context (mf_Spec manifest)))).

(** ** Normalisation *)

(** Reading an absent key of a map of structs. *)
Definition no_artifact : stagedArtifact := mkStaged [] (replicate 32 (Z_byte 0)).
Definition staged_at (artifacts : gmap string stagedArtifact) (path : string) : stagedArtifact :=
  default no_artifact (artifacts !! path).

Section normalize.
Context `{TextOps} `{UnicodeTables} `{LowerCase} `{YamlDecoder} `{MimeTable}.
Context (manifest : Manifest) (manifestDigest : string) (artifacts : gmap string stagedArtifact).

Definition descriptor (kind : ArtifactKind) (id path : string) : Artifact :=
  let staged := staged_at artifacts path in
  newArtifact manifest manifestDigest kind id path (sa_data staged) (sa_digest staged).

(** A loop's state is its list and the record's [artifacts] map. *)
Definition resource_artifact (skillPath : string) (s : list Artifact * gmap string Artifact) (resource : SkillResource) :
    result error (list Artifact * gmap string Artifact) :=
  let resourcePath := path_Join [skillPath; sr_Path resource] in
  fail_if negb (ValidString (of_bytes (sa_data (staged_at artifacts resourcePath))))
    with packageError "package_artifact_invalid" resourcePath (ErrorNew "listed skill reference must be valid UTF-8 text") else
  let d := descriptor ArtifactSkillResource (sr_ID resource) resourcePath in
  Ok (s.1 ++ [d], <[af_Ref d := d]> s.2).

Definition skill_artifact (s : list Skill * gmap string Artifact) (skill : SkillDeclaration) :
    result error (list Skill * gmap string Artifact) :=
  let skillPath := skill_file (sd_Path skill) in
  let! document := ParseSkill (sa_data (staged_at artifacts skillPath)) (sd_Path skill) in
  let d := descriptor ArtifactSkill (sm_Name (doc_Metadata document)) skillPath in
  let! '(resources, refs) := rfold (resource_artifact (sd_Path skill)) ([], <[af_Ref d := d]> s.2) (sd_Resources skill) in
  Ok (s.1 ++ [mkSkill (sd_Path skill) (doc_Metadata document) d resources], refs).

Definition context_artifact (s : list Artifact * gmap string Artifact) (c : ContextReference) :
    result error (list Artifact * gmap string Artifact) :=
  fail_if negb (ValidString (of_bytes (sa_data (staged_at artifacts (cr_Path c)))))
    with packageError "package_artifact_invalid" (cr_Path c) (ErrorNew "context reference must be valid UTF-8 text") else
  let d := descriptor ArtifactContext (cr_ID c) (cr_Path c) in
  Ok (s.1 ++ [d], <[af_Ref d := d]> s.2).
End normalize.

Definition normalizeStagedPackage `{TextOps} `{UnicodeTables} `{LowerCase} `{YamlDecoder} `{MimeTable}
    (manifest : Manifest) (artifacts : gmap string stagedArtifact) : result error CapRecord :=
  let manifestDigest := hex_encode (sa_digest (staged_at artifacts manifestFileName)) in
  let d := descriptor manifest manifestDigest artifacts ArtifactManifest "manifest" manifestFileName in
  let! '(skills, refs) := rfold (skill_artifact manifest manifestDigest artifacts) ([], {[af_Ref d := d]})
                            (sp_Skills (mf_Spec manifest)) in
  let! '(context, refs) := rfold (context_artifact manifest manifestDigest artifacts) ([], refs)
                             (sp_Context (mf_Spec manifest)) in
  Ok (sortRecord (mkRecord (mf_Metadata manifest) (sp_Parent (mf_Spec manifest)) manifestDigest skills
                    (sp_Operations (mf_Spec manifest)) context (sp_Providers (mf_Spec manifest)) refs None)).

(** ** The store, seen through one transaction *)

(** Computations that change the world and may fail. *)
Definition M (A : Type) : Type := World → World * result error A.
Definition ret {A} (x : A) : M A := λ w, (w, Ok x).
Definition fail {A} (e : error) : M A := λ w, (w, Err e).
Definition bind {A B} (m : M A) (f : A → M B) : M B :=
  λ w, match m w with (w', Ok x) => f x w' | (w', Err e) => (w', Err e) end.
Definition lift {A} (r : result error A) : M A := λ w, (w, r).
(** [if err != nil { return packageError(code, path, err) }] *)
Definition wrap {A} (code path : string) (m : M A) : M A :=
  λ w, match m w with (w', Err e) => (w', Err (packageError code path e)) | r => r end.

Declare Scope load_scope.
Delimit Scope load_scope with load.
Notation "x <-- m ;;; k" := (bind m (λ x, k)) (at level 90, m at level 89, k at level 90, right associativity) : load_scope.
Notation "m >>> k" := (bind m (λ _, k)) (at level 90, right associativity) : load_scope.
Notation "'stop_if' b 'with' e 'else' k" := (bind (lift (guardE b e (Ok tt))) (λ _, k))
  (at level 90, b at level 89, e at level 89, k at level 90) : load_scope.
Open Scope load_scope.

Definition tx_reserve (tid : nat) (size : Z) : M unit := λ w,
  match w_txs w !! tid with
  | None => (w, Err nil_pointer)
  | Some t => match reserve (w_store w) t size with
              | Err e => (w, Err e)
              | Ok (st, t') => (mkWorld st (<[tid := t']> (w_txs w)) (w_snaps w) (w_leases w), Ok tt)
              end
  end.

Definition tx_stage (tid : nat) (name : string) (rd : reader) (declaredSize maximum : Z) : M unit := λ w,
  match w_txs w !! tid with
  | None => (w, Err nil_pointer)
  | Some t => match stageReserved t name rd declaredSize maximum with
              | Err e => (w, Err e)
              | Ok t' => (mkWorld (w_store w) (<[tid := t']> (w_txs w)) (w_snaps w) (w_leases w), Ok tt)
              end
  end.

(** The artifacts the transaction holds. *)
Definition tx_staged (tid : nat) : M (gmap string stagedArtifact) := λ w,
  match w_txs w !! tid with
  | None => (w, Err nil_pointer)
  | Some t => (w, Ok (tx_artifacts t))
  end.

(** ** Loading one package *)

Section loader.
Context `{TextOps} `{UnicodeTables} `{LowerCase} `{YamlDecoder} `{MimeTable}.
(** The order in which [range] visits a map, which the language leaves open. *)
Context (range : gmap string stagedArtifact → list (string * stagedArtifact)).

Definition close_file (f : packageFile) : M unit :=
  match fl_close f with None => ret tt | Some e => fail e end.

Definition file_of (packageName path : string) : string := packageName +:+ "/" +:+ path.

(** Up to the parsing of the manifest. *)
Definition stage_manifest (tid : nat) (directory : packageDirectory) (packageName : string) : M Manifest :=
  let name := file_of packageName manifestFileName in
  manifestFile <-- wrap "package_manifest_artifact_invalid" name (lift (pd_OpenRegularFile directory manifestFileName)) ;;;
  let manifestSize := fl_size manifestFile in
  stop_if manifestSize >? ManifestMaxBytes
    with packageError "package_manifest_limit_exceeded" name
           (Errorf "declared size %d exceeds %d" [FInt manifestSize; FInt ManifestMaxBytes]) else
  wrap "package_staging_capacity_exhausted" packageName (tx_reserve tid manifestSize) >>>
  wrap "package_manifest_staging_failed" name
    (tx_stage tid manifestFileName (fl_reader manifestFile) manifestSize ManifestMaxBytes) >>>
  wrap "package_manifest_staging_failed" name (close_file manifestFile) >>>
  artifacts <-- tx_staged tid ;;;
  manifest <-- lift (ParseManifest (sa_data (staged_at artifacts manifestFileName))) ;;;
  stop_if negb (String.eqb (md_ID (mf_Metadata manifest)) packageName)
    with packageError "package_directory_mismatch" packageName
           (Errorf "directory name must match capability ID %q" [FStr (md_ID (mf_Metadata manifest))]) else
  ret manifest.

(** One turn of the loop that opens the artifacts. *)
Definition open_source (directory : packageDirectory) (packageName : string) (s : list artifactSource * Z)
    (spec : artifactSpec) : result error (list artifactSource * Z) :=
  match pd_OpenRegularFile directory (as_path spec) with
  | Err e => Err (packageError "package_artifact_invalid" (file_of packageName (as_path spec)) e)
  | Ok file =>
      fail_if fl_size file >? as_maximum spec
        with packageError "package_artifact_limit_exceeded" (file_of packageName (as_path spec))
               (Errorf "declared size %d exceeds %d" [FInt (fl_size file); FInt (as_maximum spec)]) else
      Ok (s.1 ++ [mkArtifactSource spec file (fl_size file)], wrap64 (s.2 + fl_size file))
  end.

Fixpoint stage_sources (tid : nat) (packageName : string) (sources : list artifactSource) : M unit :=
  match sources with
  | [] => ret tt
  | source :: rest =>
      let spec := src_spec source in
      wrap "package_artifact_staging_failed" (file_of packageName (as_path spec))
        (tx_stage tid (as_path spec) (fl_reader (src_file source)) (src_size source) (as_maximum spec)) >>>
      wrap "package_artifact_staging_failed" (file_of packageName (as_path spec)) (close_file (src_file source)) >>>
      stage_sources tid packageName rest
  end.

Definition commit_record (tid : nat) (packageName : string) (record : CapRecord) : M CapRecord :=
  artifacts <-- tx_staged tid ;;;
  snapshot <-- wrap "package_snapshot_commit_failed" packageName (λ w, world_commit (range artifacts) w tid) ;;;
  ret (mkRecord (rec_metadata record) (rec_parent record) (rec_manifestDigest record) (rec_skills record)
         (rec_operations record) (rec_context record) (rec_providers record) (rec_artifacts record) (Some snapshot)).

Definition load_package (tid : nat) (directory : packageDirectory) (packageName : string) : M CapRecord :=
  manifest <-- stage_manifest tid directory packageName ;;;
  specs <-- lift (artifactSpecs manifest) ;;;
  sources <-- lift (rfold (open_source directory packageName) ([], 0) specs) ;;;
  wrap "package_staging_capacity_exhausted" packageName (tx_reserve tid sources.2) >>>
  stage_sources tid packageName sources.1 >>>
  artifacts <-- tx_staged tid ;;;
  record <-- lift (normalizeStagedPackage manifest artifacts) ;;;
  commit_record tid packageName record.

(** [loadFromRoot]: the deferred function aborts the transaction on an error. *)
Definition loadFromRoot (root : packageRoot) (packageName : string) : M CapRecord := λ w,
  match validatePackageComponent packageName with
  | Err e => (w, Err (packageError "package_directory_invalid" packageName e))
  | Ok _ =>
      match pr_OpenPackage root packageName with
      | Err e => (w, Err (packageError "package_directory_invalid" packageName e))
      | Ok directory =>
          let tid := fresh (dom (w_txs w)) in
          match load_package tid directory packageName (exec w ABegin) with
          | (w', Ok record) => (w', Ok record)
          | (w', Err e) => (exec w' (AAbort tid), Err e)
          end
      end
  end.

(** ** Loading every package *)

Definition release_all (records : list CapRecord) (w : World) : World :=
  foldl record_release w records.

Fixpoint load_names (root : packageRoot) (names : list string) (records : list CapRecord) (seenIDs : gset string) :
    M (list CapRecord) := λ w,
  match names with
  | [] => (w, Ok records)
  | name :: rest =>
      match loadFromRoot root name w with
      | (w1, Err e) => (release_all records w1, Err e)
      | (w1, Ok record) =>
          let id := md_ID (rec_metadata record) in
          if bool_decide (id ∈ seenIDs)
          then (release_all records (record_release w1 record),
                Err (packageError "package_duplicate_capability" name (Errorf "duplicate capability ID %q" [FStr id])))
          else load_names root rest (records ++ [record]) ({[id]} ∪ seenIDs) w1
      end
  end.

(** [LoadAll] and [Load], given the outcome of opening the root. *)
Definition LoadAll (rootPath : string) (opened : result error packageRoot) : M (list CapRecord) :=
  root <-- wrap "package_root_invalid" rootPath (lift opened) ;;;
  names <-- wrap "package_root_invalid" rootPath (lift (pr_PackageNames root)) ;;;
  records <-- load_names root names [] ∅ ;;;
  ret (sort_by (λ r, md_ID (rec_metadata r)) records).

Definition Load (rootPath : string) (opened : result error packageRoot) (name : string) : M CapRecord :=
  root <-- wrap "package_root_invalid" rootPath (lift opened) ;;;
  loadFromRoot root name.
End loader.

(** ** Lemmas: safe components *)

Record safe_component (c : string) : Prop := {
  sf_nonempty : c ≠ "";
  sf_dots : c ≠ "." ∧ c ≠ "..";
  sf_slash : ContainsByte c "/"%char = false;
  sf_backslash : ContainsByte c backslash = false;
}.

Lemma ContainsAny_separators c :
  ContainsAny c path_separators = false ↔ ContainsByte c "/"%char = false ∧ ContainsByte c backslash = false.
Proof.
  induction c as [|a c IH]; [done|]. cbn [ContainsAny ContainsByte path_separators]. rewrite !orb_false_iff, IH, !Ascii.eqb_neq.
  intuition congruence.
Qed.

Lemma validatePackageComponent_spec name : validatePackageComponent name = Ok tt ↔ safe_component name.
Proof.
  unfold validatePackageComponent. rewrite guardE_Ok, !orb_false_iff, !String.eqb_neq, ContainsAny_separators. split.
  - intros ((((? & ?) & ?) & ? & ?) & _). split; auto.
  - intros [? [? ?] ? ?]. auto 8.
Qed.

Lemma check_components l :
  rfold (λ (_ : unit) part, validatePackageComponent part) tt l = Ok tt ↔ Forall safe_component l.
Proof.
  induction l as [|x l IH]; simpl; [split; [constructor|done]|]. rewrite Forall_cons, <-validatePackageComponent_spec, <-IH.
  destruct (validatePackageComponent x) as [[]|]; simpl; [tauto|]. split; [done|]. by intros [? _].
Qed.

Lemma splitSafePath_spec p parts :
  splitSafePath p = Ok parts ↔
  parts = Split p "/" ∧ p ≠ "" ∧ path_Clean p = p ∧ HasPrefix p "/" = false ∧ ContainsByte p backslash = false ∧
  Forall safe_component parts.
Proof.
  unfold splitSafePath. rewrite guardE_Ok, !orb_false_iff, negb_false_iff, String.eqb_neq, String.eqb_eq, rbind_Ok. split.
  - intros ((((? & ?) & ?) & ?) & [] & Hc & [= <-]). apply check_components in Hc. auto 8.
  - intros (-> & ? & ? & ? & ? & Hc). apply check_components in Hc. split; [auto|]. by exists tt.
Qed.

(** ** Lemmas: cleaning *)

(** Components that cleaning keeps, below the leading dot-dots. *)
Definition kept (c : string) : Prop := c ≠ "" ∧ c ≠ "." ∧ c ≠ ".." ∧ ContainsByte c "/"%char = false.

Definition clean_stack (stack : list string) : Prop :=
  ∃ k l, rev stack = repeat ".." k ++ l ∧ Forall kept l.

Lemma clean_step_stack stack part :
  clean_stack stack → ContainsByte part "/"%char = false → clean_stack (clean_step false stack part).
Proof.
  intros (k & l & Hs & Hl) Hp. unfold clean_step.
  destruct (String.eqb_spec part ""); [by exists k, l|]. destruct (String.eqb_spec part "."); [by exists k, l|]. cbn [orb].
  destruct (String.eqb_spec part "..") as [->|].
  - destruct stack as [|top rest]; [exists 1%nat, []; by split; [|constructor]|]. simpl in Hs.
    destruct (exists_last_or_nil l) as [->|(l' & x & ->)].
    + rewrite app_nil_r in Hs. destruct k as [|k]; [by apply app_eq_nil in Hs as [_ ?]|].
      replace (S k) with (k + 1)%nat in Hs by lia. rewrite repeat_app in Hs. apply app_inj_tail in Hs as [Hs ->].
      simpl. exists (S (S k)), []. split; [|constructor]. simpl. rewrite Hs, app_nil_r.
      change ([".."; ".."]) with (repeat ".." 2). change ("..":: ".." :: repeat ".." k) with (repeat ".." (2 + k)).
      rewrite <-app_assoc. change (repeat ".." k ++ repeat ".." 2 = repeat ".." (2 + k)). rewrite <-repeat_app. f_equal. lia.
    + rewrite app_assoc in Hs. apply app_inj_tail in Hs as [Hs ->]. apply Forall_app in Hl as [Hl [Hx _]%Forall_cons].
      destruct (String.eqb_spec x ".."); [by destruct Hx as (_ & _ & ? & _)|]. by exists k, l'.
  - exists k, (l ++ [part]). simpl. rewrite Hs, <-app_assoc. split; [done|]. apply Forall_snoc_2; [done|]. by split_and!.
Qed.

Lemma clean_fold_stack parts : ∀ stack,
  clean_stack stack → Forall (λ p, ContainsByte p "/"%char = false) parts →
  clean_stack (fold_left (clean_step false) parts stack).
Proof.
  induction parts as [|p parts IH]; intros stack Hs Hp; [done|]. apply Forall_cons in Hp as [Hp Hps]. simpl.
  apply IH; [|done]. by apply clean_step_stack.
Qed.

Lemma clean_fold_kept parts : ∀ stack,
  Forall kept parts → fold_left (clean_step false) parts stack = rev parts ++ stack.
Proof.
  induction parts as [|p parts IH]; intros stack Hp; [done|]. apply Forall_cons in Hp as [(H1 & H2 & H3 & _) Hp]. simpl.
  rewrite IH by done. unfold clean_step. apply String.eqb_neq in H1, H2, H3. rewrite H1, H2, H3. simpl. by rewrite <-app_assoc.
Qed.

Lemma kept_no_root l : Forall kept l → HasPrefix (Join l "/") "/" = false.
Proof.
  intros Hl. destruct Hl as [|x l (Hne & _ & _ & Hs) _]; [done|]. destruct x as [|a x]; [done|]. simpl in Hs.
  apply orb_false_iff in Hs as [Ha _].
  assert (Join (String a x :: l) "/" = String a (match l with [] => x | _ => x +:+ "/" +:+ Join l "/" end)) as -> by by destruct l.
  apply Ascii.eqb_neq in Ha. apply not_true_iff_false. intros [r Hr]%HasPrefix_spec. by injection Hr as ->.
Qed.

Lemma Join_nonempty l : l ≠ [] → Forall kept l → Join l "/" ≠ "".
Proof.
  intros Hne Hl He. destruct Hl as [|x l (Hx & _) _]; [done|]. destruct l; simpl in He; [done|].
  destruct x; [done|]. simpl in He. done.
Qed.

(** A path of safe components is clean. *)
Lemma path_Clean_kept l : l ≠ [] → Forall kept l → path_Clean (Join l "/") = Join l "/".
Proof.
  intros Hne Hl. unfold path_Clean. pose proof (Join_nonempty l Hne Hl) as Hj. apply String.eqb_neq in Hj as Hj'. rewrite Hj'.
  rewrite kept_no_root by done. rewrite (Split_Join l "/"%char).
  - rewrite clean_fold_kept, app_nil_r, rev_involutive by done. by rewrite Hj'.
  - done.
  - eapply Forall_impl; [exact Hl|]. by intros x (_ & _ & _ & ?).
Qed.

Lemma ContainsByte_Join l sep c :
  ContainsByte (Join l sep) c = false → Forall (λ p, ContainsByte p c = false) l.
Proof.
  induction l as [|x l IH]; intros Hc; [constructor|]. destruct l as [|y l]; [by repeat constructor|].
  rewrite Join_cons in Hc by done. rewrite !ContainsByte_app, !orb_false_iff in Hc. destruct Hc as (? & _ & ?). constructor; auto.
Qed.

Lemma Split_no_other p sep c : ContainsByte p c = false → Forall (λ x, ContainsByte x c = false) (Split p sep).
Proof. intros Hc. apply (ContainsByte_Join _ (String sep "")). by rewrite Join_Split. Qed.

Lemma dots_prefix l : HasPrefix (Join (".." :: l) "/") "../" = true ∨ Join (".." :: l) "/" = "..".
Proof. destruct l as [|x l]; [by right|]. left. rewrite Join_cons by done. apply HasPrefix_spec. by eexists. Qed.

(** A clean relative path that stays inside has safe components only. *)
Lemma clean_components p :
  path_Clean p = p → HasPrefix p "/" = false → p ≠ "" → p ≠ "." → p ≠ ".." → HasPrefix p "../" = false →
  Forall kept (Split p "/").
Proof.
  intros Hc Hr H0 H1 H2 H3. unfold path_Clean in Hc. apply String.eqb_neq in H0. rewrite H0, Hr in Hc.
  set (stack := fold_left (clean_step false) (Split p "/") []) in Hc.
  assert (clean_stack stack) as (k & l & Hs & Hl).
  { apply clean_fold_stack; [exists 0%nat, []; by split; [|constructor]|]. apply Forall_forall. intros x. apply Split_no_sep. }
  rewrite Hs in Hc. destruct k as [|k]; cbn [repeat app] in Hc.
  - destruct (String.eqb_spec (Join l "/") "") as [|Hne]; [done|]. rewrite <-Hc, (Split_Join l "/"%char); [done| |].
    + by intros ->.
    + eapply Forall_impl; [exact Hl|]. by intros x (_ & _ & _ & ?).
  - destruct (dots_prefix (repeat ".." k ++ l)) as [Hd|Hd].
    + destruct (String.eqb_spec (Join (".." :: repeat ".." k ++ l) "/") ""); [by rewrite e in Hd|]. congruence.
    + rewrite Hd in Hc. by simpl in Hc.
Qed.

Section paths.
Context `{TextOps}.

Lemma package_path_kept p max : package_path_ok p max → Forall kept (Split p "/").
Proof. intros [(Hne & _) (_ & Hr & _) Hc (H1 & H2 & H3)]. by apply clean_components. Qed.

Lemma kept_safe c : kept c → ContainsByte c backslash = false → safe_component c.
Proof. intros (? & ? & ? & ?) ?. by split. Qed.

(** Joining clean paths is concatenation. *)
Lemma path_Join_kept a b :
  Forall kept (Split a "/") → Forall kept (Split b "/") →
  path_Join [a; b] = a +:+ "/" +:+ b ∧ Split (a +:+ "/" +:+ b) "/" = Split a "/" ++ Split b "/".
Proof.
  intros Ha Hb. assert (∀ s, Forall kept (Split s "/") → String.eqb s "" = false) as Hne.
  { intros s Hs. apply String.eqb_neq. intros ->. simpl in Hs. apply Forall_cons in Hs as [(? & _) _]. done. }
  pose proof (Split_ne_nil a "/"%char). pose proof (Split_ne_nil b "/"%char).
  assert (a +:+ "/" +:+ b = Join (Split a "/" ++ Split b "/") "/") as Hj.
  { rewrite Join_app by done. by rewrite !Join_Split. }
  split.
  - unfold path_Join. cbn [List.filter]. rewrite (Hne a), (Hne b) by done. cbn [negb Join]. rewrite Hj. apply path_Clean_kept.
    + intros [? _]%app_eq_nil. done.
    + by apply Forall_app.
  - rewrite Hj. apply (Split_Join _ "/"%char).
    + intros [? _]%app_eq_nil. done.
    + apply Forall_app. split; (eapply Forall_impl; [eassumption|]); by intros x (_ & _ & _ & ?).
Qed.

Lemma kept_path_safe p :
  Forall kept (Split p "/") → ContainsByte p backslash = false → splitSafePath p = Ok (Split p "/").
Proof.
  intros Hk Hb. apply splitSafePath_spec. pose proof (Split_ne_nil p "/"%char) as Hn.
  pose proof (Join_Split p "/"%char) as Hj.
  split_and!; [done| | | |done|].
  - rewrite <-Hj. by apply Join_nonempty.
  - rewrite <-Hj at 1. by rewrite path_Clean_kept.
  - rewrite <-Hj. by apply kept_no_root.
  - pose proof (Split_no_other p "/"%char backslash Hb) as Hs. rewrite Forall_forall in *. intros c Hc. apply kept_safe; auto.
Qed.

(** The paths of a manifest's artifacts are safe. *)
Definition spec_path_ok (s : artifactSpec) : Prop :=
  splitSafePath (as_path s) = Ok (Split (as_path s) "/") ∧ Forall safe_component (Split (as_path s) "/") ∧
  0 ≤ as_maximum s ≤ ArtifactMaxBytes.

Lemma spec_path_intro p kind id max :
  Forall kept (Split p "/") → ContainsByte p backslash = false → 0 ≤ max ≤ ArtifactMaxBytes →
  spec_path_ok (mkArtifactSpec p kind id max).
Proof.
  intros Hk Hb Hm. pose proof (kept_path_safe p Hk Hb) as Hs. split; [done|]. split; [|done].
  by apply splitSafePath_spec in Hs as (_ & _ & _ & _ & _ & ?).
Qed.

Lemma path_backslash p max : package_path_ok p max → ContainsByte p backslash = false.
Proof. by intros [_ (? & _) _ _]. Qed.

Lemma skill_specs_ok d : skill_ok d → Forall spec_path_ok (skill_specs d).
Proof.
  intros [Hp _ Hr _ _]. pose proof (package_path_kept _ _ Hp) as Hk. pose proof (path_backslash _ _ Hp) as Hb.
  unfold skill_specs. constructor.
  - destruct (path_Join_kept (sd_Path d) "SKILL.md" Hk) as [Hj Hs]; [by repeat constructor|].
    unfold skill_file. rewrite Hj. apply spec_path_intro; [|by rewrite !ContainsByte_app, Hb|by vm_compute].
    rewrite Hs. apply Forall_app. split; [done|by repeat constructor].
  - apply Forall_fmap. eapply Forall_impl; [exact Hr|]. intros r [_ _ Hrp]. simpl.
    pose proof (package_path_kept _ _ Hrp) as Hrk. pose proof (path_backslash _ _ Hrp) as Hrb.
    destruct (path_Join_kept (sd_Path d) (sr_Path r) Hk Hrk) as [Hj Hs]. rewrite Hj.
    apply spec_path_intro; [|by rewrite !ContainsByte_app, Hb, Hrb|by vm_compute]. rewrite Hs. by apply Forall_app.
Qed.

Lemma add_specs_spec l : ∀ acc seen,
  NoDup (map as_path acc) → (∀ p, p ∈ map as_path acc → p ∈ seen) →
  rspec (λ e, ∃ p, e = packageError "package_duplicate_artifact" p (ErrorNew "artifact path is used more than once"))
    (λ s, s.1 = acc ++ l ∧ NoDup (map as_path (acc ++ l)) ∧ ∀ p, p ∈ map as_path l → p ∉ seen)
    (rfold add_spec (acc, seen) l).
Proof.
  induction l as [|x l IH]; intros acc seen Hnd Hseen; simpl.
  { rewrite app_nil_r. split_and!; [done|done|]. intros p Hp. by apply not_elem_of_nil in Hp. }
  unfold add_spec at 1. simpl. destruct (bool_decide_reflect (as_path x ∈ seen)) as [|Hx]; cbn [guardE rbind rspec]; [eauto|].
  eapply rspec_mono; [apply IH|].
  - rewrite map_app. apply NoDup_app. split; [done|]. split; [|apply NoDup_singleton].
    intros p Hp ->%list_elem_of_singleton. by apply Hx, Hseen.
  - intros p. rewrite map_app, elem_of_app. simpl. set_solver.
  - intros s (-> & Hn & Hp). rewrite <-app_assoc in *. split_and!; [done|done|].
    intros p [->|Hin]%elem_of_cons; [done|]. specialize (Hp p Hin). set_solver.
Qed.

Lemma artifactSpecs_spec m :
  manifest_ok m →
  rspec (λ e, ∃ p, e = packageError "package_duplicate_artifact" p (ErrorNew "artifact path is used more than once"))
    (λ specs, specs = flat_map skill_specs (sp_Skills (mf_Spec m)) ++ map context_spec (sp_Context (mf_Spec m)) ∧
       Forall spec_path_ok specs ∧ NoDup (manifestFileName :: map as_path specs) ∧
       zlen specs ≤ MaxSkills + MaxSkillResources + MaxContextReferences) (artifactSpecs m).
Proof.
  intros [_ _ _ [_ _ _ (Hsk & Hskok & _ & Htot) (Hcx & Hcxok & _)] _ _ _]. unfold artifactSpecs. apply rspec_rmap.
  eapply rspec_mono; [apply add_specs_spec; [constructor|intros p Hp; by apply not_elem_of_nil in Hp]|].
  intros [specs seen] (Hs & Hnd & Hno). simpl in *. subst specs. split_and!; [done| | |].
  - apply Forall_app. split.
    + clear -Hskok. induction Hskok as [|d l Hd _ IH]; cbn [flat_map]; [constructor|]. apply Forall_app. split; [by apply skill_specs_ok|done].
    + apply Forall_fmap. eapply Forall_impl; [exact Hcxok|]. intros c [_ Hp]. simpl.
      apply spec_path_intro; [by eapply package_path_kept|by eapply path_backslash|by vm_compute].
  - constructor; [|done]. intros Hin. specialize (Hno _ Hin). set_solver.
  - rewrite zlen_app. assert (zlen (map context_spec (sp_Context (mf_Spec m))) = zlen (sp_Context (mf_Spec m))) as ->
      by (unfold zlen; by rewrite length_map).
    assert (∀ l, zlen (flat_map skill_specs l) = zlen l + resource_total l) as ->; [|lia].
    clear. induction l as [|d l IH]; [done|]. cbn [flat_map]. rewrite zlen_app, IH. unfold skill_specs, resource_total, zlen in *.
    simpl. rewrite length_map. lia.
Qed.
End paths.

(** ** Lemmas: the transaction of a load *)

(** The files a package gives report sizes that are not negative. *)
Definition files_ok (directory : packageDirectory) : Prop :=
  ∀ path f, pd_OpenRegularFile directory path = Ok f → 0 ≤ fl_size f.

(** While the transaction [tid], begun in [w0], is open. *)
Record staging (w0 : World) (tid : nat) (t : stagingTransaction) (w : World) : Prop := {
  sg_steps : rtc step w0 w;
  sg_txs : w_txs w = <[tid := t]> (w_txs w0);
  sg_snaps : w_snaps w = w_snaps w0;
  sg_leases : w_leases w = w_leases w0;
  sg_open : tx_closed t = false;
  sg_store : w_store w = mkStore (ss_limits (w_store w0)) (ss_stagingReserved (w_store w0) + tx_reserved t)
    (ss_snapshotReserved (w_store w0) + tx_reserved t) (ss_snapshotUsed (w_store w0)) (ss_objects (w_store w0));
}.

(** After it has been aborted: only a closed transaction is left of it. *)
Record aborted (w0 : World) (tid : nat) (w : World) : Prop := {
  ab_steps : rtc step w0 w;
  ab_txs : ∃ t, w_txs w = <[tid := t]> (w_txs w0) ∧ tx_closed t = true;
  ab_snaps : w_snaps w = w_snaps w0;
  ab_leases : w_leases w = w_leases w0;
  ab_store : w_store w = w_store w0;
}.

Definition unfinished (w0 : World) (tid : nat) (w : World) : Prop :=
  (∃ t, staging w0 tid t w) ∨ aborted w0 tid w.

Lemma store_eta st : st = mkStore (ss_limits st) (ss_stagingReserved st) (ss_snapshotReserved st) (ss_snapshotUsed st) (ss_objects st).
Proof. by destruct st. Qed.

Lemma unreserve_staging w0 tid t w :
  staging w0 tid t w → unreserve (w_store w) (tx_reserved t) = w_store w0.
Proof.
  intros Hs. rewrite (sg_store _ _ _ _ Hs). unfold unreserve. simpl. rewrite (store_eta (w_store w0)) at 6. f_equal; lia.
Qed.

Lemma abort_unfinished w0 tid w : unfinished w0 tid w → aborted w0 tid (exec w (AAbort tid)).
Proof.
  intros [[t Hs]|Ha].
  - assert (w_txs w !! tid = Some t) as Ht by (rewrite (sg_txs _ _ _ _ Hs); apply lookup_insert_eq).
    pose proof (unreserve_staging _ _ _ _ Hs) as Hu. destruct Hs. split.
    + eapply rtc_r; [done|]. by exists (AAbort tid).
    + simpl. rewrite Ht. unfold abort. rewrite sg_open0. simpl. eexists. split; [by rewrite sg_txs0, insert_insert_eq|done].
    + simpl. rewrite Ht. unfold abort. by rewrite sg_open0.
    + simpl. rewrite Ht. unfold abort. by rewrite sg_open0.
    + simpl. rewrite Ht. unfold abort. by rewrite sg_open0.
  - destruct Ha as [Hr (t & Htx & Hc) Hsn Hl Hst].
    assert (exec w (AAbort tid) = w) as ->; [|by split; [|exists t|..]].
    simpl. rewrite Htx, lookup_insert_eq. unfold abort. rewrite Hc. rewrite insert_insert_eq, <-Htx. by destruct w.
Qed.

(** A successful reservation, without the wrap-around it never reaches. *)
Lemma reserve_exact limits w tid t size st t' :
  limits_ok limits → inv limits w → w_txs w !! tid = Some t → tx_closed t = false → size ≤ 2 ^ 61 →
  reserve (w_store w) t size = Ok (st, t') →
  st = mkStore (ss_limits (w_store w)) (ss_stagingReserved (w_store w) + size) (ss_snapshotReserved (w_store w) + size)
         (ss_snapshotUsed (w_store w)) (ss_objects (w_store w)) ∧
  t' = mkTx (tx_reserved t + size) (tx_artifacts t) (tx_closed t) (tx_packageSize t + size).
Proof.
  intros Hlimits Hinv Ht Hopen Hsize Hres. pose proof (tx_held_nonneg _ _ Hinv).
  destruct Hinv as [Hl Hst Hsr Hnr Htxs Hq1 Hq2]. destruct (Htxs _ _ Ht) as (Hr & Hps & Hd).
  unfold reserve in Hres. inv_binds Hres. bool_hyps. injection Hres as <- <-.
  assert (0 ≤ ss_snapshotUsed (w_store w)).
  { destruct Hst as [_ ->]. apply map_sum_nonneg. intros. apply zlen_nonneg. }
  destruct Hlimits as [HL1 HL2]. rewrite Hl in *. assert (PackageArtifactMax ≤ 2 ^ 61) by done.
  rewrite (wrap64_id (ss_stagingReserved _ + size)) by (split; unfold MinInt64, MaxInt64; lia).
  rewrite (wrap64_id (ss_snapshotReserved _ + size)) by (split; unfold MinInt64, MaxInt64; lia).
  rewrite (wrap64_id (tx_packageSize t + size)) by (split; unfold MinInt64, MaxInt64; lia).
  rewrite (wrap64_id (tx_reserved t + size)) by (split; unfold MinInt64, MaxInt64; lia). by split.
Qed.

Section hoare.
Context (limits : StoreLimits) (Hlimits : limits_ok limits) (w0 : World) (Hinv : inv limits w0) (tid : nat).

(** What a computation inside the transaction does: on failure the
    transaction is left to be aborted, or is closed already. *)
Definition mspec {A} (P : World → Prop) (m : M A) (Q : A → World → Prop) : Prop :=
  ∀ w, P w → match m w with (w', Ok x) => Q x w' | (w', Err _) => unfinished w0 tid w' end.

(** The open transaction holds exactly these artifacts. *)
Definition holds_staged (artifacts : gmap string stagedArtifact) (w : World) : Prop :=
  ∃ t, staging w0 tid t w ∧ tx_artifacts t = artifacts.

Lemma holds_unfinished artifacts w : holds_staged artifacts w → unfinished w0 tid w.
Proof. intros (t & Hs & _). left. by exists t. Qed.

Lemma mspec_bind {A B} P (m : M A) Q (f : A → M B) R :
  mspec P m Q → (∀ x, mspec (Q x) (f x) R) → mspec P (bind m f) R.
Proof. intros Hm Hf w Hw. unfold bind. specialize (Hm w Hw). destruct (m w) as [w' [x|e]]; [by apply Hf|done]. Qed.

Lemma mspec_lift {A} artifacts (r : result error A) :
  mspec (holds_staged artifacts) (lift r) (λ x w, holds_staged artifacts w ∧ r = Ok x).
Proof. intros w Hw. unfold lift. destruct r; [done|]. by eapply holds_unfinished. Qed.

Lemma mspec_wrap {A} P code path (m : M A) Q : mspec P m Q → mspec P (wrap code path m) Q.
Proof. intros Hm w Hw. unfold wrap. specialize (Hm w Hw). by destruct (m w) as [w' [x|e]]. Qed.

Lemma mspec_pure {A} (φ : Prop) P (m : M A) Q : (φ → mspec P m Q) → mspec (λ w, P w ∧ φ) m Q.
Proof. intros Hm w [Hw Hφ]. by apply Hm. Qed.

Lemma mspec_stop {A} artifacts b e (m : M A) Q :
  (b = false → mspec (holds_staged artifacts) m Q) → mspec (holds_staged artifacts) (bind (lift (guardE b e (Ok tt))) (λ _, m)) Q.
Proof. intros Hm w Hw. unfold bind, lift. destruct b; simpl; [by eapply holds_unfinished|by apply Hm]. Qed.

Lemma mspec_staged artifacts :
  mspec (holds_staged artifacts) (tx_staged tid) (λ x w, holds_staged artifacts w ∧ x = artifacts).
Proof.
  intros w (t & Hs & <-). unfold tx_staged. rewrite (sg_txs _ _ _ _ Hs), lookup_insert_eq. split; [by exists t|done].
Qed.

Lemma mspec_reserve artifacts size :
  size ≤ (MaxSkills + MaxSkillResources + MaxContextReferences) * ArtifactMaxBytes →
  mspec (holds_staged artifacts) (tx_reserve tid size) (λ _, holds_staged artifacts).
Proof.
  intros Hsize w (t & Hs & <-). unfold tx_reserve.
  assert (w_txs w !! tid = Some t) as Ht by (rewrite (sg_txs _ _ _ _ Hs); apply lookup_insert_eq). rewrite Ht.
  assert (inv limits w) as Hw by (eapply steps_inv; [done|exact Hinv|apply Hs]).
  destruct (reserve (w_store w) t size) as [[st t']|e] eqn:Hr; [|left; by exists t].
  pose proof (sg_open _ _ _ _ Hs) as Hopen.
  destruct (reserve_exact limits w tid t size st t') as [-> ->]; try done.
  { etrans; [exact Hsize|]. by vm_compute. }
  exists (mkTx (tx_reserved t + size) (tx_artifacts t) (tx_closed t) (tx_packageSize t + size)).
  split; [split|done]; simpl; [|by rewrite (sg_txs _ _ _ _ Hs), insert_insert_eq|by apply Hs|by apply Hs|done|].
  - eapply rtc_r; [apply Hs|]. exists (AReserve tid size). split; [|simpl; by rewrite Ht, Hr].
    split; [done|]. intros t1 Ht1. congruence.
  - rewrite (sg_store _ _ _ _ Hs). simpl. f_equal; lia.
Qed.

Lemma stage_whole t name f size maximum t' :
  0 ≤ maximum < MaxInt64 → stageReserved t name f size maximum = Ok t' →
  tx_closed t = false ∧ tx_artifacts t !! name = None ∧ zlen (rd_content f) = size ∧
  t' = mkTx (tx_reserved t) (<[name := mkStaged (rd_content f) (sha256 (rd_content f))]> (tx_artifacts t)) (tx_closed t) (tx_packageSize t).
Proof.
  intros Hmax Hs. apply stageReserved_Ok in Hs as (Hc & Hn & Hsz & data & Hlen & Hdata & ->).
  specialize (Hdata Hmax). assert (data = rd_content f) as ->.
  { rewrite Hdata in Hlen |- *. rewrite zlen_take in Hlen. apply take_ge. unfold zlen in *. lia. }
  auto.
Qed.

Lemma mspec_stage artifacts name f size maximum :
  0 ≤ maximum < MaxInt64 →
  mspec (holds_staged artifacts) (tx_stage tid name f size maximum)
    (λ _ w, holds_staged (<[name := mkStaged (rd_content f) (sha256 (rd_content f))]> artifacts) w ∧
       artifacts !! name = None ∧ zlen (rd_content f) = size).
Proof.
  intros Hmax w (t & Hs & <-). unfold tx_stage.
  assert (w_txs w !! tid = Some t) as Ht by (rewrite (sg_txs _ _ _ _ Hs); apply lookup_insert_eq). rewrite Ht.
  destruct (stageReserved t name f size maximum) as [t'|e] eqn:Hr; [|left; by exists t].
  pose proof (stage_whole _ _ _ _ _ _ Hmax Hr) as (Hc & Hn & Hlen & Heq). split; [|done].
  exists t'. subst t'. split; [split|done]; simpl;
    [|by rewrite (sg_txs _ _ _ _ Hs), insert_insert_eq|by apply Hs|by apply Hs|done|by apply Hs].
  eapply rtc_r; [apply Hs|]. exists (AStage tid name f size maximum). split; [done|]. simpl. by rewrite Ht, Hr.
Qed.

Lemma mspec_close artifacts f : mspec (holds_staged artifacts) (close_file f) (λ _, holds_staged artifacts).
Proof. intros w Hw. unfold close_file, ret, fail. destruct (fl_close f); [by eapply holds_unfinished|done]. Qed.
End hoare.

(** ** Lemmas: the phases of a load *)

(** What a package's file holds. *)
Definition content (directory : packageDirectory) (path : string) (data : bytes) : Prop :=
  ∃ f, pd_OpenRegularFile directory path = Ok f ∧ rd_content (fl_reader f) = data ∧ zlen data = fl_size f.

Definition staged_from (directory : packageDirectory) (artifacts : gmap string stagedArtifact) : Prop :=
  map_Forall (λ p a, content directory p (sa_data a) ∧ sa_digest a = sha256 (sa_data a)) artifacts.

(** The bytes a load can mix up under one digest: the store's and the
    package's. *)
Definition package_bytes (w : World) (directory : packageDirectory) (x : bytes) : Prop :=
  (∃ d o, ss_objects (w_store w) !! d = Some o ∧ obj_data o = x) ∨ ∃ path, content directory path x.

(** After the commit of [artifacts] as the snapshot [sid]. *)
Record committed (w0 : World) (tid : nat) (directory : packageDirectory) (artifacts : gmap string stagedArtifact)
    (sid : nat) (w : World) : Prop := {
  cm_steps : rtc step w0 w;
  cm_txs : ∃ t, w_txs w = <[tid := t]> (w_txs w0) ∧ tx_closed t = true;
  cm_snaps : ∃ s, w_snaps w = <[sid := s]> (w_snaps w0) ∧ snap_once s = false;
  cm_fresh : w_snaps w0 !! sid = None;
  cm_leases : w_leases w = w_leases w0;
  cm_reserved : ss_stagingReserved (w_store w) = ss_stagingReserved (w_store w0) ∧
    ss_snapshotReserved (w_store w) = ss_snapshotReserved (w_store w0);
  cm_reads : no_collision (package_bytes w0 directory) →
    ∀ p a, artifacts !! p = Some a → world_Read w sid p = Some (sa_data a);
}.

Definition source_ok (directory : packageDirectory) (s : artifactSource) : Prop :=
  pd_OpenRegularFile directory (as_path (src_spec s)) = Ok (src_file s) ∧ src_size s = fl_size (src_file s) ∧
  0 ≤ src_size s ≤ as_maximum (src_spec s).

Section phases.
Context `{TextOps} `{!TextLaws} `{UnicodeTables} `{LowerCase} `{YamlDecoder} `{MimeTable}.
Context (range : gmap string stagedArtifact → list (string * stagedArtifact)).
Context (Hrange : ∀ m, range m ≡ₚ map_to_list m).
Context (limits : StoreLimits) (Hlimits : limits_ok limits) (w0 : World) (Hinv : inv limits w0) (tid : nat).
Context (directory : packageDirectory) (packageName : string) (Hfiles : files_ok directory).

Lemma staged_from_insert artifacts path f :
  staged_from directory artifacts → pd_OpenRegularFile directory path = Ok f → zlen (rd_content (fl_reader f)) = fl_size f →
  staged_from directory (<[path := mkStaged (rd_content (fl_reader f)) (sha256 (rd_content (fl_reader f)))]> artifacts).
Proof. intros Ha Ho Hl. apply map_Forall_insert_2; [|done]. split; [|done]. by exists f. Qed.

Lemma stage_manifest_spec :
  mspec w0 tid (holds_staged w0 tid ∅) (stage_manifest tid directory packageName)
    (λ m w, ∃ data, let artifacts := {[manifestFileName := mkStaged data (sha256 data)]} in
       holds_staged w0 tid artifacts w ∧ staged_from directory artifacts ∧ ParseManifest data = Ok m ∧
       md_ID (mf_Metadata m) = packageName).
Proof.
  unfold stage_manifest. eapply mspec_bind; [apply mspec_wrap, mspec_lift|]. intros f; cbn beta. apply mspec_pure. intros Hopen.
  apply mspec_stop. intros Hsize. bool_hyps. pose proof (Hfiles _ _ Hopen) as Hpos.
  eapply mspec_bind; [eapply mspec_wrap, mspec_reserve; [exact Hlimits|exact Hinv|etrans; [exact Hsize|by vm_compute]]|]. intros ?; cbn beta.
  eapply mspec_bind; [apply mspec_wrap, mspec_stage; by vm_compute|]. intros ?; cbn beta. apply mspec_pure. intros [_ Hlen].
  set (data := rd_content (fl_reader f)) in *.
  eapply mspec_bind; [apply mspec_wrap, mspec_close|]. intros ?; cbn beta.
  eapply mspec_bind; [apply mspec_staged|]. intros artifacts; cbn beta. apply mspec_pure. intros ->.
  assert (sa_data (staged_at (<[manifestFileName := mkStaged data (sha256 data)]> ∅) manifestFileName) = data) as ->.
  { unfold staged_at. by rewrite lookup_insert_eq. }
  eapply mspec_bind; [apply mspec_lift|]. intros m; cbn beta. apply mspec_pure. intros Hm. apply mspec_stop. intros Hid. bool_hyps.
  apply String.eqb_eq in Hid. intros w Hw. exists data. split; [exact Hw|]. split; [|done].
  apply (staged_from_insert ∅ manifestFileName f); [apply map_Forall_empty|done|done].
Qed.

Lemma open_sources_spec specs : ∀ acc total srcs sum,
  Forall (λ s, 0 ≤ as_maximum s ≤ ArtifactMaxBytes) specs → Forall (source_ok directory) acc →
  0 ≤ total ≤ zlen acc * ArtifactMaxBytes → zlen acc + zlen specs ≤ 2 ^ 32 →
  rfold (open_source directory packageName) (acc, total) specs = Ok (srcs, sum) →
  ∃ new, srcs = acc ++ new ∧ map src_spec new = specs ∧ Forall (source_ok directory) srcs ∧
    0 ≤ sum ≤ zlen srcs * ArtifactMaxBytes.
Proof.
  induction specs as [|s specs IH]; intros acc total srcs sum Hmax Hacc Htot Hlen Hr; simpl in Hr.
  { simplify_eq. exists []. by rewrite app_nil_r. }
  apply Forall_cons in Hmax as [Hs Hmax]. unfold open_source at 1 in Hr.
  destruct (pd_OpenRegularFile directory (as_path s)) as [f|] eqn:Hf; [|done]. simpl in Hr.
  destruct (fl_size f >? as_maximum s) eqn:Hsz; [done|]. cbn [guardE rbind] in Hr. bool_hyps.
  pose proof (Hfiles _ _ Hf). unfold zlen in Hlen. cbn [length] in Hlen.
  assert (ArtifactMaxBytes = 4194304) as Ha by done.
  rewrite wrap64_id in Hr by (split; unfold MinInt64, MaxInt64, zlen in *; lia).
  apply IH in Hr as (new & -> & Hnew & Hok & Hsum).
  - exists (mkArtifactSource s f (fl_size f) :: new). rewrite <-app_assoc in *. split_and!; [done|by simpl; rewrite Hnew|done|lia|lia].
  - done.
  - apply Forall_snoc_2; [done|]. by split_and!.
  - rewrite zlen_app. change (zlen [mkArtifactSource s f (fl_size f)]) with 1. lia.
  - rewrite zlen_app. unfold zlen in *. cbn [length]. lia.
Qed.

Lemma stage_sources_spec sources : ∀ artifacts,
  Forall (source_ok directory) sources → Forall (λ s, as_maximum (src_spec s) ≤ ArtifactMaxBytes) sources →
  staged_from directory artifacts →
  mspec w0 tid (holds_staged w0 tid artifacts) (stage_sources tid packageName sources)
    (λ _ w, ∃ artifacts', holds_staged w0 tid artifacts' w ∧ staged_from directory artifacts' ∧ artifacts ⊆ artifacts' ∧
       ∀ s, s ∈ sources → is_Some (artifacts' !! as_path (src_spec s))).
Proof.
  induction sources as [|s sources IH]; intros artifacts Hok Hmax Hst; simpl.
  { intros w Hw. exists artifacts. split_and!; [done..|]. intros s Hs. by apply not_elem_of_nil in Hs. }
  apply Forall_cons in Hok as [(Hopen & Hsize & Hb) Hok]. apply Forall_cons in Hmax as [Hm Hmax].
  eapply mspec_bind.
  { apply mspec_wrap, mspec_stage. split; [lia|]. eapply Z.le_lt_trans; [exact Hm|by vm_compute]. }
  intros ?; cbn beta. apply mspec_pure. intros [Hnone Hlen]. eapply mspec_bind; [apply mspec_wrap, mspec_close|]. intros ?; cbn beta.
  intros w Hw. pose proof (IH _ Hok Hmax (staged_from_insert artifacts _ _ Hst Hopen ltac:(congruence)) w Hw) as Hres.
  destruct (stage_sources tid packageName sources w) as [w' [x'|e]]; [|done].
  destruct Hres as (A & Hh & Hs & Hsub & Hin). exists A. split_and!; [done|done| |].
  - etrans; [|exact Hsub]. by apply insert_subseteq.
  - intros s' [->|Hs']%elem_of_cons; [|by apply Hin]. eexists. eapply lookup_weaken; [apply lookup_insert_eq|exact Hsub].
Qed.

Lemma commit_record_spec artifacts record :
  staged_from directory artifacts →
  mspec w0 tid (holds_staged w0 tid artifacts) (commit_record range tid packageName record)
    (λ r w, ∃ sid, committed w0 tid directory artifacts sid w ∧ rec_snapshot r = Some sid ∧
       r = mkRecord (rec_metadata record) (rec_parent record) (rec_manifestDigest record) (rec_skills record)
             (rec_operations record) (rec_context record) (rec_providers record) (rec_artifacts record) (Some sid)).
Proof.
  intros Hst. unfold commit_record. eapply mspec_bind; [apply mspec_staged|]. intros x; cbn beta. apply mspec_pure. intros ->.
  intros w (t & Hs & Ht). unfold bind, wrap.
  assert (w_txs w !! tid = Some t) as Htx by (rewrite (sg_txs _ _ _ _ Hs); apply lookup_insert_eq).
  assert (inv limits w) as Hw by (eapply steps_inv; [done|exact Hinv|apply Hs]).
  assert (step w (world_commit (range artifacts) w tid).1) as Hstep.
  { exists (ACommit tid (range artifacts)). split; [|done]. intros t1 Ht1. simplify_eq. apply Hrange. }
  destruct (world_commit (range artifacts) w tid) as [w1 [sid|e]] eqn:Hc; simpl in Hstep.
  - assert (rtc step w0 w1) as Hsteps by (eapply rtc_r; [apply Hs|done]).
    unfold ret. exists sid. split; [|done]. pose proof Hc as Hcommit. unfold world_commit in Hc. rewrite Htx in Hc. unfold commit in Hc.
    rewrite (sg_open _ _ _ _ Hs) in Hc. destruct (_ >? _) in Hc; [done|].
    destruct (foldl commit_step _ _) as [st arts] eqn:Hf. injection Hc as <- <-.
    assert (st = foldl commit_one (w_store w) (range artifacts).*2) as Hsteq.
    { rewrite <-(foldl_commit_step _ (tx_artifacts t)). by rewrite Hf. }
    destruct (foldl_commit_frame (w_store w) (range artifacts).*2) as (_ & Hf2 & Hf3). rewrite <-Hsteq in Hf2, Hf3.
    split; simpl.
    + done.
    + eexists. split; [by rewrite (sg_txs _ _ _ _ Hs), insert_insert_eq|done].
    + eexists. rewrite (sg_snaps _ _ _ _ Hs). split; [done|done].
    + rewrite (sg_snaps _ _ _ _ Hs). apply lookup_fresh.
    + apply Hs.
    + rewrite Hf2, Hf3, (sg_store _ _ _ _ Hs). simpl. split; lia.
    + intros Hcol p a Ha.
      destruct (commit_reads limits w tid t (range artifacts) _ _ p a Hlimits Hw Htx ltac:(rewrite Ht; apply Hrange) Hcommit)
        as (s & o & Hsn & _ & Hd & Ho & Hdata); [|by rewrite Ht|].
      * intros x y Hx Hy. apply Hcol.
        -- destruct Hx as [(n & b & Hb & <-)|(d & o & Ho & <-)].
           { right. exists n. rewrite Ht in Hb. by apply (Hst n b Hb). }
           left. exists d, o. by rewrite (sg_store _ _ _ _ Hs) in Ho.
        -- destruct Hy as [(n & b & Hb & <-)|(d & o & Ho & <-)].
           { right. exists n. rewrite Ht in Hb. by apply (Hst n b Hb). }
           left. exists d, o. by rewrite (sg_store _ _ _ _ Hs) in Ho.
      * unfold world_Read. rewrite Hsn. unfold Snapshot_Read. rewrite Hd, Ho. simpl. by rewrite Hdata.
  - right. unfold world_commit in Hc. rewrite Htx in Hc. unfold commit in Hc. rewrite (sg_open _ _ _ _ Hs) in Hc.
    assert (rtc step w0 w1) as Hsteps by (eapply rtc_r; [apply Hs|done]).
    destruct (_ >? _) in Hc; [|by destruct (foldl commit_step _ _)]. injection Hc as <- <-. split; simpl.
    + done.
    + eexists. split; [by rewrite (sg_txs _ _ _ _ Hs), insert_insert_eq|done].
    + apply Hs.
    + apply Hs.
    + by apply unreserve_staging with tid.
Qed.
End phases.

(** ** Lemmas: the normalised record *)

Section normalized.
Context `{TextOps} `{UnicodeTables} `{LowerCase} `{YamlDecoder} `{MimeTable}.
Context (manifest : Manifest) (dig : string) (artifacts : gmap string stagedArtifact).

Definition described (a : Artifact) : Prop :=
  ∃ st, artifacts !! af_Path a = Some st ∧ af_Bytes a = zlen (sa_data st) ∧ af_SHA256 a = hex_encode (sa_digest st).
Definition refs_ok (refs : gmap string Artifact) : Prop := map_Forall (λ ref a, af_Ref a = ref ∧ described a) refs.
Definition listed (refs : gmap string Artifact) (a : Artifact) : Prop := is_Some (refs !! af_Ref a).

Lemma descriptor_described kind id path :
  is_Some (artifacts !! path) → described (descriptor manifest dig artifacts kind id path).
Proof. intros [st Hst]. exists st. unfold descriptor, staged_at. rewrite Hst. done. Qed.

Lemma refs_insert refs kind id path :
  is_Some (artifacts !! path) → refs_ok refs →
  refs_ok (<[af_Ref (descriptor manifest dig artifacts kind id path) := descriptor manifest dig artifacts kind id path]> refs).
Proof. intros Hp Hr. apply map_Forall_insert_2; [|done]. split; [done|by apply descriptor_described]. Qed.

Lemma listed_insert refs ref b a : listed refs a → listed (<[ref := b]> refs) a.
Proof. unfold listed. intros Ha. destruct (decide (ref = af_Ref a)) as [->|]; [by rewrite lookup_insert_eq|by rewrite lookup_insert_ne]. Qed.

Lemma listed_self refs b : listed (<[af_Ref b := b]> refs) b.
Proof. unfold listed. by rewrite lookup_insert_eq. Qed.

Lemma resource_loop resources skillPath : ∀ acc refs acc' refs',
  Forall (λ r, is_Some (artifacts !! path_Join [skillPath; sr_Path r])) resources → refs_ok refs → Forall (listed refs) acc →
  rfold (resource_artifact manifest dig artifacts skillPath) (acc, refs) resources = Ok (acc', refs') →
  refs_ok refs' ∧ Forall (listed refs') acc' ∧ (∀ a, listed refs a → listed refs' a) ∧
  map (λ a, (af_ID a, af_Path a)) acc' =
    map (λ a, (af_ID a, af_Path a)) acc ++ map (λ r, (sr_ID r, path_Join [skillPath; sr_Path r])) resources.
Proof.
  induction resources as [|r l IH]; intros acc refs acc' refs' Hin Hr Hacc Hf; simpl in Hf.
  { simplify_eq. rewrite app_nil_r. auto. }
  apply Forall_cons in Hin as [Hr0 Hin]. unfold resource_artifact at 1 in Hf.
  destruct (negb _) in Hf; [done|]. cbn [guardE rbind] in Hf. apply IH in Hf as (H1' & H2' & H3' & H4').
  - split_and!; [done|done| |].
    + intros a Ha. apply H3'. by apply listed_insert.
    + rewrite H4', map_app, <-app_assoc. done.
  - done.
  - by apply refs_insert.
  - apply Forall_snoc_2; [|apply listed_self]. eapply Forall_impl; [exact Hacc|]. intros a. apply listed_insert.
Qed.

(** The skill of a declaration. *)
Definition skill_of (refs : gmap string Artifact) (d : SkillDeclaration) (s : Skill) : Prop :=
  ∃ doc, ParseSkill (sa_data (staged_at artifacts (skill_file (sd_Path d)))) (sd_Path d) = Ok doc ∧
    sk_Path s = sd_Path d ∧ sk_Metadata s = doc_Metadata doc ∧
    af_ID (sk_Artifact s) = sm_Name (doc_Metadata doc) ∧ af_Path (sk_Artifact s) = skill_file (sd_Path d) ∧
    map (λ a, (af_ID a, af_Path a)) (sk_Resources s) = map (λ r, (sr_ID r, path_Join [sd_Path d; sr_Path r])) (sd_Resources d) ∧
    Forall (listed refs) (sk_Artifact s :: sk_Resources s).

Definition spec_staged (spec : artifactSpec) : Prop := is_Some (artifacts !! as_path spec).

Lemma skill_loop decls : ∀ done_ acc refs acc' refs',
  Forall spec_staged (flat_map skill_specs decls) → refs_ok refs → Forall2 (skill_of refs) done_ acc →
  rfold (skill_artifact manifest dig artifacts) (acc, refs) decls = Ok (acc', refs') →
  refs_ok refs' ∧ Forall2 (skill_of refs') (done_ ++ decls) acc' ∧ (∀ a, listed refs a → listed refs' a).
Proof.
  induction decls as [|d l IH]; intros done_ acc refs acc' refs' Hin Hr Hacc Hf; simpl in Hf.
  { simplify_eq. rewrite app_nil_r. auto. }
  cbn [flat_map] in Hin. apply Forall_app in Hin as [[Hfile Hres]%Forall_cons Hin].
  unfold skill_artifact at 1 in Hf. destruct (ParseSkill _ _) as [doc|] eqn:Hdoc; [|done]. cbn [rbind] in Hf.
  destruct (rfold (resource_artifact _ _ _ _) _ _) as [[rs refs1]|] eqn:Hrs; [|done]. cbn [rbind] in Hf.
  apply resource_loop in Hrs as (H1' & H2' & H3' & H4');
    [|rewrite Forall_map in Hres; exact Hres|by apply refs_insert|constructor].
  assert (∀ a, listed refs a → listed refs1 a) as Hmono by (intros a Ha; by apply H3', listed_insert).
  assert (∀ refs refs' d s, (∀ a, listed refs a → listed refs' a) → skill_of refs d s → skill_of refs' d s) as Hsk.
  { intros r1 r2 d0 s0 Hm (doc0 & ? & ? & ? & ? & ? & ? & Hl). exists doc0. split_and!; try done. by eapply Forall_impl. }
  apply (IH (done_ ++ [d])) in Hf as (H5' & H6' & H7').
  - split_and!; [done|by rewrite <-app_assoc in H6'|]. intros a Ha. by apply H7', Hmono.
  - done.
  - done.
  - apply Forall2_app; [eapply Forall2_impl; [exact Hacc|]; intros; by eapply Hsk|]. constructor; [|constructor].
    exists doc. split_and!; try done. constructor; [|done]. apply H3', listed_self.
Qed.

Lemma context_loop l : ∀ acc refs acc' refs',
  Forall spec_staged (map context_spec l) → refs_ok refs → Forall (listed refs) acc →
  rfold (context_artifact manifest dig artifacts) (acc, refs) l = Ok (acc', refs') →
  refs_ok refs' ∧ Forall (listed refs') acc' ∧ (∀ a, listed refs a → listed refs' a) ∧
  map (λ a, (af_ID a, af_Path a)) acc' = map (λ a, (af_ID a, af_Path a)) acc ++ map (λ c, (cr_ID c, cr_Path c)) l.
Proof.
  induction l as [|c l IH]; intros acc refs acc' refs' Hin Hr Hacc Hf; simpl in Hf.
  { simplify_eq. rewrite app_nil_r. auto. }
  cbn [map] in Hin. apply Forall_cons in Hin as [Hc Hin]. unfold context_artifact at 1 in Hf.
  destruct (negb _) in Hf; [done|]. cbn [guardE rbind] in Hf. apply IH in Hf as (H1' & H2' & H3' & H4').
  - split_and!; [done|done| |].
    + intros a Ha. apply H3'. by apply listed_insert.
    + rewrite H4', map_app, <-app_assoc. done.
  - done.
  - by apply refs_insert.
  - apply Forall_snoc_2; [|apply listed_self]. eapply Forall_impl; [exact Hacc|]. intros a. apply listed_insert.
Qed.
End normalized.

(** What a record holds of its manifest and of the staged artifacts. *)
Record record_of `{TextOps} `{UnicodeTables} `{LowerCase} `{YamlDecoder} (m : Manifest)
    (artifacts : gmap string stagedArtifact) (r : CapRecord) : Prop := {
  rf_metadata : rec_metadata r = mf_Metadata m ∧ rec_parent r = sp_Parent (mf_Spec m);
  rf_digest : rec_manifestDigest r = hex_encode (sa_digest (staged_at artifacts manifestFileName));
  rf_operations : rec_operations r = sort_by op_ID (sp_Operations (mf_Spec m));
  rf_providers : rec_providers r = sort_by pb_ID (sp_Providers (mf_Spec m));
  rf_skills : ∃ skills, Forall2 (skill_of artifacts (rec_artifacts r)) (sp_Skills (mf_Spec m)) skills ∧
    rec_skills r = map (λ s, mkSkill (sk_Path s) (sk_Metadata s) (sk_Artifact s) (sort_by af_ID (sk_Resources s))) (sort_by sk_Path skills);
  rf_context : map (λ a, (af_ID a, af_Path a)) (rec_context r) ≡ₚ map (λ c, (cr_ID c, cr_Path c)) (sp_Context (mf_Spec m)) ∧
    Forall (listed (rec_artifacts r)) (rec_context r);
  rf_artifacts : refs_ok artifacts (rec_artifacts r);
}.

Lemma normalizeStagedPackage_spec `{TextOps} `{UnicodeTables} `{LowerCase} `{YamlDecoder} `{MimeTable} m artifacts r :
  is_Some (artifacts !! manifestFileName) →
  Forall (spec_staged artifacts) (flat_map skill_specs (sp_Skills (mf_Spec m)) ++ map context_spec (sp_Context (mf_Spec m))) →
  normalizeStagedPackage m artifacts = Ok r → record_of m artifacts r.
Proof.
  intros Hm [Hs Hc]%Forall_app Hn. unfold normalizeStagedPackage in Hn. cbv zeta in Hn.
  set (dig := hex_encode _) in Hn. set (d := descriptor _ _ _ _ _ _) in Hn.
  destruct (rfold (skill_artifact _ _ _) _ _) as [[skills refs]|] eqn:Hsk; [|done]. cbn [rbind] in Hn.
  destruct (rfold (context_artifact _ _ _) _ _) as [[context refs']|] eqn:Hcx; [|done]. cbn [rbind] in Hn.
  apply (skill_loop _ _ _ _ []) in Hsk as (Hr1 & Hs1 & _);
    [|done|by apply (refs_insert m dig artifacts ∅); [|apply map_Forall_empty]|constructor].
  apply context_loop in Hcx as (Hr2 & Hl2 & Hmono & Hids); [|done|done|constructor].
  injection Hn as <-. split; simpl; try done.
  - exists skills. split; [|done]. eapply Forall2_impl; [exact Hs1|].
    intros d0 s0 (doc0 & ? & ? & ? & ? & ? & ? & Hl). exists doc0. split_and!; try done. by eapply Forall_impl.
  - split.
    + cbn [map app] in Hids. rewrite <-Hids. by rewrite sort_by_perm.
    + apply Forall_forall. intros a Ha. rewrite Forall_forall in Hl2. apply Hl2. by rewrite sort_by_perm in Ha.
Qed.

(** ** Lemmas: descending below a directory *)

(** Each step opens one safe component of the directory reached so far. *)
Inductive descends `{UnixFiles} : fd → list string → fd → Prop :=
| descends_here d : descends d [] d
| descends_step d c next rest d' :
    safe_component c → openat_directory d c = Ok next → descends next rest d' → descends d (c :: rest) d'.

Lemma wrapping_Ok {A} fmt args (r : result error A) x : wrapping fmt args r = Ok x ↔ r = Ok x.
Proof. destruct r; simpl; naive_solver. Qed.

Lemma open_directories_descends `{UnixFiles} components : ∀ d d',
  Forall safe_component components → open_directories d components = Ok d' → descends d components d'.
Proof.
  induction components as [|c l IH]; intros d d' Hc Ho; simpl in Ho; [injection Ho as <-; constructor|].
  apply Forall_cons in Hc as [Hc Hl]. apply rbind_Ok in Ho as (next & Hn%wrapping_Ok & Ho). econstructor; eauto.
Qed.

(** A file is opened below the directory it is asked of, and is regular. *)
Definition opened_below `{UnixFiles} (directory : fd) (parts : list string) (f : packageFile) : Prop :=
  ∃ copy parent file size, Dup directory = Ok copy ∧ descends copy (removelast parts) parent ∧
    openat_file parent (List.last parts "") = Ok file ∧ fstat_regular file = Ok (true, size) ∧
    f = mkFile (fd_reader file) size (fd_close file).

Lemma OpenRegularFile_below `{UnixFiles} directory relative f :
  OpenRegularFile directory relative = Ok f →
  ∃ parts, splitSafePath relative = Ok parts ∧ opened_below directory parts f.
Proof.
  intros Ho. unfold OpenRegularFile in Ho. apply rbind_Ok in Ho as (parts & Hp & Ho).
  apply rbind_Ok in Ho as (copy & Hc%wrapping_Ok & Ho). apply rbind_Ok in Ho as (parent & Hpar & Ho).
  apply rbind_Ok in Ho as (file & Hf%wrapping_Ok & Ho). apply rbind_Ok in Ho as ([[] size] & Hs%wrapping_Ok & Ho); [|done].
  injection Ho as <-. exists parts. split; [done|]. exists copy, parent, file, size. split_and!; try done.
  apply open_directories_descends; [|done]. apply splitSafePath_spec in Hp as (_ & _ & _ & _ & _ & Hsafe).
  rewrite Forall_forall in *. intros c Hin. apply Hsafe. destruct parts as [|x l]; [done|].
  rewrite (app_removelast_last "" (l := x :: l)) by done. apply elem_of_app. by left.
Qed.

(** ** Properties *)

(** C14. The files a load opens are those of the package: for an accepted manifest
    every artifact path passes [splitSafePath], so it is opened component by
    component below the package's directory with no empty, dot, dot-dot or
    slashed component, and is a regular file; no path is used twice or is the
    manifest itself; and there are a bounded number of them, each with a
    bounded size. *)
Theorem manifest_paths_safe `{TextLaws} `{YamlDecoder} `{UnixFiles} data m specs :
  ParseManifest data = Ok m → artifactSpecs m = Ok specs →
  Forall (λ s, ∃ parts, splitSafePath (as_path s) = Ok parts ∧ Forall safe_component parts ∧
    as_path s = Join parts "/" ∧ 0 ≤ as_maximum s ≤ ArtifactMaxBytes ∧
    ∀ directory f, OpenRegularFile directory (as_path s) = Ok f → opened_below directory parts f) specs ∧
  NoDup (manifestFileName :: map as_path specs) ∧
  zlen specs ≤ MaxSkills + MaxSkillResources + MaxContextReferences.
Proof.
  intros Hm Hs. assert (manifest_ok m) as Hok by (eapply rspec_Ok; [apply ParseManifest_spec|exact Hm]).
  destruct (rspec_Ok _ _ _ _ (artifactSpecs_spec m Hok) Hs) as (_ & Hpaths & Hnd & Hcount). split_and!; [|done|done].
  eapply Forall_impl; [exact Hpaths|]. intros s (Hp & Hc & Hmax). exists (Split (as_path s) "/").
  split_and!; [done|done|by rewrite (Join_Split _ "/"%char)|lia|lia|].
  intros directory f Ho. apply OpenRegularFile_below in Ho as (parts & Hp' & Hbelow). congruence.
Qed.

(** A directory whose only file is empty. *)
Definition demo_files : UnixFiles := {|
  fd := string; filepath_Abs := Ok; EvalSymlinks := Ok; open_directory := Ok; Dup := Ok; ReadDir _ := Ok [];
  openat_directory d c := Ok (d +:+ "/" +:+ c); openat_file d c := Ok (d +:+ "/" +:+ c); fstat_regular _ := Ok (true, 0);
  fd_reader _ := mkReader [] None; fd_close _ := None;
|}.

Lemma manifest_paths_safe_witness :
  ∃ specs, artifactSpecs echo_manifest = Ok specs ∧
    map as_path specs = ["skills/echo/SKILL.md"; "skills/echo/docs/guide.md"; "context/notes.md"] ∧
    NoDup (manifestFileName :: map as_path specs).
Proof.
  eexists. split; [vm_compute; reflexivity|]. split; [reflexivity|].
  refine (proj1 (proj2 (@manifest_paths_safe ascii_text ascii_text_laws demo_decoder demo_files echo_yaml echo_manifest _ _ _))); vm_compute; reflexivity.
Defined.
