(* ===== verification/LoaderSteps.v ===== *)
(** * What loading does to the store

    A load of one package, and of every package of a root, as a run of the
    snapshot store of Snapshot.v: on success the records own live snapshots
    that read back the files, on failure the store is what it was. *)
From stdpp Require Import relations.
From Stdlib Require Import Ascii String.
From S2P Require Import Prelude GoStrings Limits Sha256 Regex Utf8 Json Text Snapshot SnapshotService Records Registry RegistrySteps Yaml Manifest Skill Loader.
Local Open Scope string_scope.
Local Open Scope list_scope.
Local Open Scope Z_scope.

(** ** One package *)

Definition root_ok (root : packageRoot) : Prop :=
  ∀ name directory, pr_OpenPackage root name = Ok directory → files_ok directory.

(** What a loaded record promises. *)
Record loaded `{TextOps} `{UnicodeTables} `{LowerCase} `{YamlDecoder} (w0 : World) (tid : nat)
    (directory : packageDirectory) (packageName : string) (r : CapRecord) (w : World) : Prop := {
  ld_parts : ∃ data m artifacts sid,
    content directory manifestFileName data ∧ ParseManifest data = Ok m ∧ md_ID (mf_Metadata m) = packageName ∧
    artifacts !! manifestFileName = Some (mkStaged data (sha256 data)) ∧ staged_from directory artifacts ∧
    Forall (spec_staged artifacts) (flat_map skill_specs (sp_Skills (mf_Spec m)) ++ map context_spec (sp_Context (mf_Spec m))) ∧
    record_of m artifacts r ∧ committed w0 tid directory artifacts sid w ∧ rec_snapshot r = Some sid;
}.

Section load.
Context `{TextOps} `{!TextLaws} `{UnicodeTables} `{LowerCase} `{YamlDecoder} `{MimeTable}.
Context (range : gmap string stagedArtifact → list (string * stagedArtifact)).
Context (Hrange : ∀ m, range m ≡ₚ map_to_list m).
Context (limits : StoreLimits) (Hlimits : limits_ok limits).

Lemma record_of_snapshot m artifacts r s :
  record_of m artifacts r →
  record_of m artifacts (mkRecord (rec_metadata r) (rec_parent r) (rec_manifestDigest r) (rec_skills r)
    (rec_operations r) (rec_context r) (rec_providers r) (rec_artifacts r) s).
Proof. intros []. by split. Qed.

Lemma load_package_spec w0 tid directory packageName :
  inv limits w0 → files_ok directory →
  mspec w0 tid (holds_staged w0 tid ∅) (load_package range tid directory packageName) (loaded w0 tid directory packageName).
Proof.
  intros Hinv Hfiles. unfold load_package.
  eapply mspec_bind; [by eapply stage_manifest_spec|]. intros m w (data & Hw & Hst & Hparse & Hid). revert w Hw.
  set (A0 := {[manifestFileName := mkStaged data (sha256 data)]}) in *.
  change (mspec w0 tid (holds_staged w0 tid A0)
    (specs <-- lift (artifactSpecs m) ;;;
     sources <-- lift (rfold (open_source directory packageName) ([], 0) specs) ;;;
     wrap "package_staging_capacity_exhausted" packageName (tx_reserve tid sources.2) >>>
     stage_sources tid packageName sources.1 >>>
     artifacts <-- tx_staged tid ;;;
     record <-- lift (normalizeStagedPackage m artifacts) ;;;
     commit_record range tid packageName record) (loaded w0 tid directory packageName)).
  assert (manifest_ok m) as Hm by (eapply rspec_Ok; [apply ParseManifest_spec|exact Hparse]).
  eapply mspec_bind; [apply mspec_lift|]. intros specs; cbn beta. apply mspec_pure. intros Hspecs.
  destruct (rspec_Ok _ _ _ _ (artifactSpecs_spec m Hm) Hspecs) as (Hlist & Hsok & _ & Hcount).
  assert (Forall (λ s, 0 ≤ as_maximum s ≤ ArtifactMaxBytes) specs) as Hmax by (eapply Forall_impl; [exact Hsok|]; by intros s (_ & _ & ?)).
  eapply mspec_bind; [apply mspec_lift|]. intros [sources total]; cbn beta. apply mspec_pure. intros Hsrc.
  assert (Forall (source_ok directory) sources ∧ map src_spec sources = specs ∧ 0 ≤ total ≤ zlen sources * ArtifactMaxBytes) as (Hok & Hmap & Htot).
  { destruct (open_sources_spec directory packageName Hfiles specs [] 0 sources total) as (new & -> & Hnew & Hok & Htot).
    - done.
    - apply Forall_nil_2.
    - done.
    - change (zlen (@nil artifactSource)) with 0. etrans; [|exact (proj1 (Z.leb_le 288 (2 ^ 32)) eq_refl)].
      etrans; [|exact Hcount]. lia.
    - exact Hsrc.
    - done. }
  assert (zlen sources = zlen specs) as Hlen by (rewrite <-Hmap; unfold zlen; by rewrite length_map).
  cbn [fst snd]. eapply mspec_bind.
  { eapply mspec_wrap, mspec_reserve; [exact Hlimits|exact Hinv|]. etrans; [apply Htot|]. apply Z.mul_le_mono_nonneg_r; [done|lia]. }
  intros ?; cbn beta. eapply mspec_bind.
  { apply stage_sources_spec; [done| |done]. rewrite <-Hmap in Hmax. apply Forall_map in Hmax.
    eapply Forall_impl; [exact Hmax|]. intros s [_ ?]. done. }
  intros ? w (A & Hw & Hfrom & Hsub & Hin). revert w Hw.
  change (mspec w0 tid (holds_staged w0 tid A)
    (artifacts <-- tx_staged tid ;;; record <-- lift (normalizeStagedPackage m artifacts) ;;;
     commit_record range tid packageName record) (loaded w0 tid directory packageName)).
  eapply mspec_bind; [apply mspec_staged|]. intros ?; cbn beta. apply mspec_pure. intros ->.
  eapply mspec_bind; [apply mspec_lift|]. intros record; cbn beta. apply mspec_pure. intros Hnorm.
  assert (A !! manifestFileName = Some (mkStaged data (sha256 data))) as HA.
  { eapply lookup_weaken; [|exact Hsub]. apply lookup_singleton_eq. }
  assert (Forall (spec_staged A) (flat_map skill_specs (sp_Skills (mf_Spec m)) ++ map context_spec (sp_Context (mf_Spec m)))) as Hall.
  { rewrite <-Hlist, <-Hmap. apply Forall_map, Forall_forall. intros s Hs. by apply Hin. }
  apply normalizeStagedPackage_spec in Hnorm.
  - intros w Hw. pose proof (commit_record_spec range Hrange limits Hlimits w0 Hinv tid directory packageName A record Hfrom w Hw) as Hc.
    destruct (commit_record range tid packageName record w) as [w' [r|e]]; [|done].
    destruct Hc as (sid & Hcm & Hsid & ->). split. exists data, m, A, sid. split_and!; try done.
    + exact (proj1 (Hst _ _ (lookup_singleton_eq manifestFileName (mkStaged data (sha256 data))))).
    + by apply record_of_snapshot.
  - by eexists.
  - done.
Qed.

Lemma begin_staging w tid : tid = fresh (dom (w_txs w)) → holds_staged w tid ∅ (exec w ABegin).
Proof.
  intros ->. exists begin. split; [|done]. split; simpl; try done.
  - apply rtc_once. by exists ABegin.
  - rewrite (store_eta (w_store w)) at 1. f_equal; simpl; lia.
Qed.

(** A load either commits a record or leaves nothing but a closed transaction. *)
Lemma loadFromRoot_spec root name w w' r :
  inv limits w → root_ok root → loadFromRoot range root name w = (w', r) →
  match r with
  | Ok rec => ∃ directory, pr_OpenPackage root name = Ok directory ∧ loaded w (fresh (dom (w_txs w))) directory name rec w'
  | Err _ => w' = w ∨ aborted w (fresh (dom (w_txs w))) w'
  end.
Proof.
  intros Hinv Hroot Hl. unfold loadFromRoot in Hl. destruct (validatePackageComponent name); [|by simplify_eq; left].
  destruct (pr_OpenPackage root name) as [directory|] eqn:Ho; [|by simplify_eq; left].
  pose proof (load_package_spec w (fresh (dom (w_txs w))) directory name Hinv (Hroot _ _ Ho) _ (begin_staging w _ eq_refl)) as Hs.
  cbv zeta in Hl. destruct (load_package range _ _ _ _) as [w1 [rec|e]]; simplify_eq.
  - by exists directory.
  - right. by apply abort_unfinished.
Qed.
End load.

(** ** Every package *)

(** What loads leave of a world besides the snapshots in [live]. *)
Record extended (w0 w : World) (live : list nat) : Prop := {
  ex_steps : rtc step w0 w;
  ex_txs : ∀ tid t, w_txs w !! tid = Some t → tx_closed t = true ∨ w_txs w0 !! tid = Some t;
  ex_old : w_snaps w0 ⊆ w_snaps w;
  ex_new : ∀ sid s, w_snaps w !! sid = Some s → w_snaps w0 !! sid = None → snap_once s = negb (bool_decide (sid ∈ live));
  ex_live : ∀ sid, sid ∈ live → w_snaps w0 !! sid = None ∧ is_Some (w_snaps w !! sid);
  ex_distinct : NoDup live;
  ex_leases : w_leases w = w_leases w0;
  ex_limits : ss_limits (w_store w) = ss_limits (w_store w0);
  ex_reserved : ss_stagingReserved (w_store w) = ss_stagingReserved (w_store w0) ∧
    ss_snapshotReserved (w_store w) = ss_snapshotReserved (w_store w0);
}.

Lemma extended_refl w : extended w w [].
Proof. split; try done; [by right|congruence|by intros ? ?%not_elem_of_nil|constructor]. Qed.

Lemma extended_aborted w0 w live tid w' :
  extended w0 w live → tid ∉ dom (w_txs w) → aborted w tid w' → extended w0 w' live.
Proof.
  intros [] Htid [Hr (t & Htx & Hc) Hsn Hl Hst]. split; rewrite ?Hsn, ?Hl, ?Hst; try done.
  - by etrans.
  - intros i t' Ht'. rewrite Htx in Ht'. apply lookup_insert_Some in Ht' as [[_ <-]|[_ Ht']]; [by left|by apply ex_txs0].
Qed.

Section all.
Context (limits : StoreLimits) (Hlimits : limits_ok limits).

Lemma limits_kept w w' : inv limits w → rtc step w w' → ss_limits (w_store w') = ss_limits (w_store w).
Proof. intros Hw Hr. rewrite (inv_limits _ _ Hw). apply (inv_limits limits). by eapply steps_inv. Qed.

Lemma extended_committed w0 w live tid directory artifacts sid w' :
  inv limits w → extended w0 w live → committed w tid directory artifacts sid w' → extended w0 w' (live ++ [sid]).
Proof.
  intros Hinv [] [Hr (t & Htx & Hc) (s & Hsn & Honce) Hfresh Hl Hres _].
  assert (w_snaps w0 !! sid = None) as H0'.
  { destruct (w_snaps w0 !! sid) eqn:E; [|done]. eapply lookup_weaken in E; [|exact ex_old0]. congruence. }
  assert (sid ∉ live) as Hnl by (intros Hin; destruct (ex_live0 _ Hin) as [_ [? ?]]; congruence).
  split.
  - by etrans.
  - intros i t' Ht'. rewrite Htx in Ht'. apply lookup_insert_Some in Ht' as [[_ <-]|[_ Ht']]; [by left|by apply ex_txs0].
  - rewrite Hsn. by apply insert_subseteq_r.
  - intros i s' Hs' Hi. rewrite Hsn in Hs'. apply lookup_insert_Some in Hs' as [[<- <-]|[Hne Hs']].
    + rewrite Honce, bool_decide_eq_true_2; [done|]. set_solver.
    + rewrite (ex_new0 i s' Hs' Hi). f_equal. apply bool_decide_ext. set_solver.
  - intros i [Hi| ->%list_elem_of_singleton]%elem_of_app.
    + destruct (ex_live0 _ Hi) as [? [? ?]]. split; [done|]. rewrite Hsn, lookup_insert_ne by congruence. by eexists.
    + split; [done|]. rewrite Hsn, lookup_insert_eq. by eexists.
  - apply NoDup_app. split; [done|]. split; [|apply NoDup_singleton]. intros i Hi ->%list_elem_of_singleton. done.
  - by rewrite Hl.
  - by rewrite (limits_kept w w').
  - destruct Hres as [-> ->]. done.
Qed.

Lemma extended_release w0 w live sid : extended w0 w live → sid ∈ live →
  extended w0 (world_release_snapshot w sid) (filter (λ i, i ≠ sid) live).
Proof.
  intros [] Hin. destruct (ex_live0 _ Hin) as [Hnone [s Hs]]. pose proof (ex_new0 _ _ Hs Hnone) as Honce.
  rewrite bool_decide_eq_true_2 in Honce by done.
  assert (step w (world_release_snapshot w sid)) as Hstep by (by exists (AReleaseSnapshot sid)).
  unfold world_release_snapshot in *. rewrite Hs in *. unfold Snapshot_release in *. rewrite Honce in *. cbn [negb] in *.
  destruct (foldl_drop_frame (w_store w) (map_to_list (snap_digests s)).*2) as (Hf1 & Hf2 & Hf3).
  split; simpl; rewrite ?Hf1, ?Hf2, ?Hf3; try done.
  - by eapply rtc_r.
  - apply map_subseteq_spec. intros i s' Hs'. rewrite lookup_insert_ne by congruence. by eapply lookup_weaken.
  - intros i s' Hs' Hi. apply lookup_insert_Some in Hs' as [[<- <-]|[Hne Hs']]; simpl.
    + rewrite bool_decide_eq_false_2; [done|]. rewrite list_elem_of_filter. naive_solver.
    + rewrite (ex_new0 i s' Hs' Hi). f_equal. apply bool_decide_ext. rewrite list_elem_of_filter. naive_solver.
  - intros i [Hne Hi]%list_elem_of_filter. destruct (ex_live0 _ Hi) as [? [? ?]]. split; [done|].
    rewrite lookup_insert_ne by done. by eexists.
  - by apply NoDup_filter.
Qed.

Definition snapshots (records : list CapRecord) : list nat := omap rec_snapshot records.

Lemma extended_release_all records : ∀ w0 w live,
  extended w0 w live → NoDup (snapshots records) → (∀ i, i ∈ snapshots records → i ∈ live) →
  ∃ live', extended w0 (release_all records w) live' ∧ ∀ i, i ∈ live' ↔ i ∈ live ∧ i ∉ snapshots records.
Proof.
  induction records as [|r l IH]; intros w0 w live Hex Hnd Hin; simpl.
  { exists live. split; [done|]. intros i. split; [intros ?; split; [done|apply not_elem_of_nil]|by intros []]. }
  unfold release_all in *. cbn [foldl]. unfold record_release at 2. unfold snapshots in *. cbn [omap list_omap] in *.
  destruct (rec_snapshot r) as [sid|] eqn:Hs; [|by apply IH].
  apply NoDup_cons in Hnd as [Hni Hnd].
  destruct (IH w0 (world_release_snapshot w sid) (filter (λ i, i ≠ sid) live)) as (live' & Hex' & Hl').
  - apply extended_release; [done|]. apply Hin. by left.
  - done.
  - intros i Hi. apply list_elem_of_filter. split; [by intros ->|]. apply Hin. by right.
  - exists live'. split; [exact Hex'|]. intros i. rewrite Hl', list_elem_of_filter, not_elem_of_cons. tauto.
Qed.
End all.

(** ** A world whose loads are all undone *)

Lemma map_sum_subseteq {K A} `{Countable K} (f : A → Z) (m1 m2 : gmap K A) :
  m1 ⊆ m2 → (∀ k x, m2 !! k = Some x → m1 !! k = None → f x = 0) → map_sum f m2 = map_sum f m1.
Proof.
  revert m2. induction m1 as [|k x m1 Hk IH] using map_ind; intros m2 Hsub Hf.
  - rewrite map_sum_empty, (map_sum_ext f (λ _, 0) m2); [by rewrite map_sum_const|]. intros k x Hx. by eapply Hf.
  - assert (m2 !! k = Some x) as Hx by (eapply lookup_weaken; [apply lookup_insert_eq|done]).
    rewrite map_sum_insert by done. pose proof (map_sum_delete f m2 k x Hx) as Hd.
    rewrite (IH (delete k m2)) in Hd; [lia| |].
    + apply map_subseteq_spec. intros i y Hy. assert (i ≠ k) by congruence. rewrite lookup_delete_ne by done.
      eapply lookup_weaken; [|exact Hsub]. by rewrite lookup_insert_ne.
    + intros i y [Hne Hy]%lookup_delete_Some Hi. eapply Hf; [done|]. by rewrite lookup_insert_ne.
Qed.

Lemma map_sum_pos {K A} `{Countable K} (f : A → Z) (m : gmap K A) :
  (∀ k x, m !! k = Some x → 0 ≤ f x) → 0 < map_sum f m → ∃ k x, m !! k = Some x ∧ 0 < f x.
Proof.
  induction m as [|k x m Hk IH] using map_ind; intros Hf Hs; [by rewrite map_sum_empty in Hs|].
  rewrite map_sum_insert in Hs by done. destruct (Z.lt_ge_cases 0 (f x)) as [|Hx].
  - exists k, x. by rewrite lookup_insert_eq.
  - destruct IH as (k' & x' & Hx' & Hp); [|lia|].
    + intros k' y Hy. apply (Hf k'). rewrite lookup_insert_ne by congruence. done.
    + exists k', x'. rewrite lookup_insert_ne by congruence. done.
Qed.

Lemma occurs_pos d l : 0 < occurs d l → d ∈ l.
Proof.
  induction l as [|x l IH]; [by rewrite occurs_nil|]. rewrite occurs_cons. case_bool_decide; [subst; by left|]. right. apply IH. lia.
Qed.

(** Every referenced object is held by a live snapshot or lease. *)
Lemma refs_holder w d :
  0 < refs w d →
  (∃ sid s name, w_snaps w !! sid = Some s ∧ snap_once s = false ∧ snap_digests s !! name = Some d) ∨
  (∃ lid l, w_leases w !! lid = Some l ∧ lease_once l = false ∧ lease_digest l = d).
Proof.
  unfold refs. intros Hp. destruct (Z.lt_ge_cases 0 (map_sum (snap_refs d) (w_snaps w))) as [Hs|Hs].
  - left. apply map_sum_pos in Hs as (sid & s & Hs & Hr).
    + unfold snap_refs in Hr. destruct (snap_once s) eqn:Ho; [lia|]. apply occurs_pos, list_elem_of_fmap in Hr as ([n d'] & -> & Hn).
      apply elem_of_map_to_list in Hn. by exists sid, s, n.
    + intros k x _. unfold snap_refs. case_match; [lia|apply occurs_nonneg].
  - right. destruct (map_sum_pos (lease_refs d) (w_leases w)) as (lid & l & Hl & Hr); [|lia|].
    + intros k x _. unfold lease_refs. repeat case_match; lia.
    + unfold lease_refs in Hr. destruct (lease_once l) eqn:Ho; [lia|]. case_bool_decide; [|lia]. by exists lid, l.
Qed.

Lemma extended_nil_store limits w0 w :
  limits_ok limits → inv limits w0 → extended w0 w [] → w_store w = w_store w0.
Proof.
  intros HL Hinv [Hsteps Htxs Hold Hnew _ _ Hleases Hlimits [Hres1 Hres2]].
  assert (inv limits w) as Hinv' by by eapply steps_inv.
  assert (∀ d, refs w d = refs w0 d) as Hrefs.
  { intros d. unfold refs. rewrite Hleases. f_equal. apply map_sum_subseteq; [done|]. intros k s Hs Hk.
    unfold snap_refs. by rewrite (Hnew k s Hs Hk). }
  assert (ss_objects (w_store w) = ss_objects (w_store w0)) as Hobj.
  { apply map_eq. intros d. destruct (inv_store _ _ Hinv) as [Ho _]. destruct (inv_store _ _ Hinv') as [Ho' _].
    specialize (Ho d). specialize (Ho' d). unfold object_ok in *. rewrite Hrefs in Ho'.
    destruct (ss_objects (w_store w) !! d) as [o'|] eqn:Eo', (ss_objects (w_store w0) !! d) as [o|] eqn:Eo; [|lia..|done].
    destruct Ho as (Hr & Hp & _), Ho' as (Hr' & _ & _). f_equal. destruct o as [data n], o' as [data' n']. simpl in *. subst.
    assert (∃ o', ss_objects (w_store w) !! d = Some o' ∧ obj_data o' = data) as (o2 & Ho2 & Hd).
    { destruct (refs_holder w0 d Hp) as [(sid & s & name & Hs & Hlive & Hd)|(lid & l & Hl & Hlive & <-)].
      - destruct (steps_snap_data limits w0 w sid s s name d (mkObject data (refs w0 d)) HL Hinv Hsteps Hs) as (o2 & ? & ?);
          [by eapply lookup_weaken|done|done|done|by exists o2].
      - destruct (steps_lease_data limits w0 w lid l l (mkObject data (refs w0 (lease_digest l))) HL Hinv Hsteps Hl) as (o2 & ? & ?);
          [by rewrite Hleases|done|done|by exists o2]. }
    rewrite Eo' in Ho2. simplify_eq. done. }
  rewrite (store_eta (w_store w)), (store_eta (w_store w0)), Hobj, Hlimits, Hres1, Hres2.
  destruct (inv_store _ _ Hinv) as [_ ->]. destruct (inv_store _ _ Hinv') as [_ ->]. by rewrite Hobj.
Qed.

Section load_all.
Context `{TextOps} `{!TextLaws} `{UnicodeTables} `{LowerCase} `{YamlDecoder} `{MimeTable}.
Context (range : gmap string stagedArtifact → list (string * stagedArtifact)).
Context (Hrange : ∀ m, range m ≡ₚ map_to_list m).
Context (limits : StoreLimits) (Hlimits : limits_ok limits).
Context (root : packageRoot) (Hroot : root_ok root).

Lemma extended_inv w0 w live : inv limits w0 → extended w0 w live → inv limits w.
Proof. intros Hw []. by eapply steps_inv. Qed.

Lemma no_members (l : list nat) : (∀ i, i ∈ l → False) → l = [].
Proof. destruct l as [|x l]; [done|]. intros Hl. destruct (Hl x). by left. Qed.

Lemma release_everything w0 w records :
  extended w0 w (snapshots records) → extended w0 (release_all records w) [].
Proof.
  intros Hex. destruct (extended_release_all records w0 w _ Hex (ex_distinct _ _ _ Hex)) as (live & Hex' & Hl); [done|].
  rewrite (no_members live) in Hex'; [done|]. intros i Hi. apply Hl in Hi as [? ?]. done.
Qed.

Lemma snapshots_snoc records r sid : rec_snapshot r = Some sid → snapshots (records ++ [r]) = snapshots records ++ [sid].
Proof. intros Hr. unfold snapshots. rewrite omap_app. simpl. by rewrite Hr. Qed.

Lemma sort_NoDup {A} (key : A → string) l : NoDup (map key l) → NoDup (map key (sort_by key l)).
Proof. intros Hl. assert (map key (sort_by key l) ≡ₚ map key l) as -> by (by rewrite sort_by_perm). done. Qed.

Lemma record_operations_ok m artifacts r : manifest_ok m → record_of m artifacts r → operations_ok r.
Proof.
  intros [_ _ _ [_ (_ & _ & Hpn) (_ & Hop & Hon) _ _] _ _ _] [_ _ Ho Hp _ _ _]. split; rewrite ?Ho, ?Hp.
  - by apply sort_NoDup.
  - by apply sort_NoDup.
  - intros o Hin. rewrite sort_by_perm in Hin. rewrite Forall_forall in Hop. destruct (Hop _ Hin) as [[_ Hid] _ _ _].
    by apply local_id_no_dot, localIDPattern_spec.
  - intros o Hin. rewrite sort_by_perm in Hin. rewrite Forall_forall in Hop. destruct (Hop _ Hin) as [_ _ [_ Hprov] _].
    apply list_elem_of_fmap in Hprov as (b & -> & Hb). exists b. split; [by rewrite sort_by_perm|done].
Qed.

(** The packages loaded: their names, in order, and their records. *)
Definition loads (name : string) (r : CapRecord) : Prop := record_id r = name ∧ is_Some (rec_snapshot r) ∧ operations_ok r.

Lemma load_names_spec names : ∀ done_ records seen w0 w,
  inv limits w0 → extended w0 w (snapshots records) → Forall2 loads done_ records →
  (∀ id, id ∈ seen ↔ id ∈ map record_id records) → NoDup (map record_id records) →
  match load_names range root names records seen w with
  | (w', Ok rs) => extended w0 w' (snapshots rs) ∧ Forall2 loads (done_ ++ names) rs ∧ NoDup (map record_id rs)
  | (w', Err _) => extended w0 w' []
  end.
Proof.
  induction names as [|name names IH]; intros done_ records seen w0 w Hinv Hex Hrec Hseen Hnd; simpl.
  { by rewrite app_nil_r. }
  pose proof (extended_inv w0 w _ Hinv Hex) as Hw.
  destruct (loadFromRoot range root name w) as [w1 r] eqn:Hl.
  pose proof (loadFromRoot_spec range Hrange limits Hlimits root name w w1 r Hw Hroot Hl) as Hs. destruct r as [r|e].
  - destruct Hs as (directory & _ & [(data & m & A & sid & _ & Hparse & Hid & _ & _ & _ & Hof & Hcm & Hsid)]).
    assert (manifest_ok m) as Hm by (eapply rspec_Ok; [apply ParseManifest_spec|exact Hparse]).
    assert (record_id r = name) as Hname by (unfold record_id; rewrite (proj1 (rf_metadata _ _ _ Hof)); done).
    pose proof (extended_committed limits Hlimits w0 w _ _ _ _ _ _ Hw Hex Hcm) as Hex1. change (md_ID (rec_metadata r)) with (record_id r).
    destruct (bool_decide_reflect (record_id r ∈ seen)) as [Hdup|Hnew].
    + apply release_everything. unfold record_release. rewrite Hsid. simpl.
      pose proof (extended_release w0 w1 _ sid Hex1 ltac:(set_solver)) as Hrel.
      assert (filter (λ i, i ≠ sid) (snapshots records ++ [sid]) = snapshots records) as <-; [|done].
      pose proof (ex_distinct _ _ _ Hex1) as Hd. apply NoDup_app in Hd as (_ & Hd & _).
      rewrite filter_app, filter_cons, filter_nil, decide_False by auto. rewrite app_nil_r.
      clear -Hd. induction (snapshots records) as [|x l IH]; [done|].
      rewrite filter_cons, decide_True by (intros ->; apply (Hd sid); [by left|by left]).
      f_equal. apply IH. intros y Hy. apply Hd. by right.
    + rewrite <-(snapshots_snoc records r sid Hsid) in Hex1.
      pose proof (IH (done_ ++ [name]) (records ++ [r]) ({[record_id r]} ∪ seen) w0 w1 Hinv Hex1) as Hrest.
      rewrite <-app_assoc in Hrest. apply Hrest.
      * apply Forall2_app; [done|]. constructor; [|constructor]. split; [done|]. split; [by exists sid|by eapply record_operations_ok].
      * intros id. rewrite map_app, elem_of_union, elem_of_singleton, Hseen, elem_of_app. simpl. set_solver.
      * rewrite map_app. apply NoDup_app. split; [done|]. split; [|apply NoDup_singleton].
        intros id Hin ->%list_elem_of_singleton. by apply Hnew, Hseen.
  - apply release_everything. destruct Hs as [->|Ha]; [done|]. eapply extended_aborted; [exact Hex| |exact Ha]. apply is_fresh.
Qed.
End load_all.

(** ** Lemmas: what a loaded record is to the registry *)

Section registrable.
Context `{TextOps} `{!TextLaws} `{UnicodeTables} `{LowerCase} `{YamlDecoder} `{MimeTable}.

Lemma capability_plain_path id : id ≠ "" → MatchString capabilityIDPattern id = true → plain_path id.
Proof.
  intros Hne Hm. split; [done|]. apply capabilityIDPattern_spec in Hm. eapply Forall_impl; [exact Hm|].
  intros seg Hl. split; [by apply local_id_no_dot|]. destruct Hl as (Hall & _). clear -Hall. induction seg as [|a seg IH]; [done|].
  cbn [to_bytes list_ascii_of_string] in Hall. apply Forall_cons in Hall as [Ha Hall]. simpl. apply orb_false_iff. split; [|by apply IH].
  apply Ascii.eqb_neq. by intros ->.
Qed.

Lemma committed_live w0 tid directory artifacts sid w s :
  committed w0 tid directory artifacts sid w → snap_live w0 s = true → snap_live w s = true.
Proof.
  intros [_ _ (sn & Hsn & _) Hfresh _ _ _] Hs. unfold snap_live in *. rewrite Hsn, lookup_insert_ne; [done|]. intros ->. by rewrite Hfresh in Hs.
Qed.

Lemma committed_self w0 tid directory artifacts sid w : committed w0 tid directory artifacts sid w → snap_live w sid = true.
Proof. intros [_ _ (sn & Hsn & Ho) _ _ _ _]. unfold snap_live. by rewrite Hsn, lookup_insert_eq, Ho. Qed.

Lemma owned_live g sn : reg_reachable g → owns g sn → snap_live (g_world g) sn = true.
Proof.
  intros Hg%reg_reachable_inv (a & x & Hx & Hr & Hs). destruct (rv_heap _ Hg) as (E & Hi & _).
  destruct (hi_snap _ _ Hi a x Hx Hr) as (sn' & Hs' & Hl). by simplify_eq.
Qed.

(** A successful load leaves the snapshots the registry owns alone, and hands
    over one it does not own. *)
Lemma loaded_world g directory name r w :
  reg_reachable g → loaded (g_world g) (fresh (dom (w_txs (g_world g)))) directory name r w →
  rtc step (g_world g) w ∧ (∀ sn, owns g sn → snap_live w sn = true) ∧
  ∃ sid, rec_snapshot r = Some sid ∧ snap_live w sid = true ∧ ¬ owns g sid.
Proof.
  intros Hg [(data & m & A & sid & _ & _ & _ & _ & _ & _ & _ & Hcm & Hsid)]. split_and!.
  - by apply Hcm.
  - intros sn Hown. eapply committed_live; [exact Hcm|by apply owned_live].
  - exists sid. split_and!; [done|by eapply committed_self|]. intros Hown%owned_live; [|done].
    unfold snap_live in Hown. by rewrite (cm_fresh _ _ _ _ _ _ Hcm) in Hown.
Qed.

(** What adding a fresh record to an open registry does. *)
Lemma Add_fresh (g : RState World) r sid :
  r_closed (g_reg g) = false → r_entries (g_reg g) !! record_id r = None → rec_snapshot r = Some sid →
  ∃ g2 a i, Add g (Some r) = (g2, None) ∧ live_entry g2 (record_id r) = Some (a, mkGen i r 1 false) ∧ r_closed (g_reg g2) = false.
Proof.
  intros Hc He Hs. unfold Add, addLocked, usable. rewrite Hc, Hs. unfold record_id in *. rewrite He.
  eexists _, (fresh (dom (g_heap g))), _. split; [done|]. split; [|done].
  unfold live_entry. simpl. rewrite lookup_insert_eq. simpl. rewrite lookup_insert_eq. done.
Qed.
End registrable.

(** ** Properties *)

Lemma LoadAll_spec `{TextLaws} `{UnicodeTables} `{LowerCase} `{YamlDecoder} `{MimeTable}
    range limits root rootPath names w w' r :
  (∀ m, range m ≡ₚ map_to_list m) → limits_ok limits → inv limits w → root_ok root → pr_PackageNames root = Ok names →
  LoadAll range rootPath (Ok root) w = (w', r) →
  match r with
  | Err e => w_store w' = w_store w ∧ extended w w' []
  | Ok records =>
      extended w w' (snapshots records) ∧ map record_id records ≡ₚ names ∧ NoDup names ∧
      StronglySorted (key_le record_id) records ∧ Forall (λ r, is_Some (rec_snapshot r) ∧ operations_ok r) records
  end.
Proof.
  intros Hrange Hlimits Hinv Hroot Hnames Hl. unfold LoadAll, bind, wrap, lift, ret in Hl. rewrite Hnames in Hl.
  pose proof (load_names_spec range Hrange limits Hlimits root Hroot names [] [] ∅ w w Hinv (extended_refl w) (proj2 (Forall2_nil loads) I)) as Hs.
  destruct (load_names range root names [] ∅ w) as [w1 [rs|e]]; simplify_eq.
  - destruct Hs as (Hex & Hf & Hnd); [set_solver|constructor|]. simpl in Hf.
    assert (map record_id rs = names) as Hids by (clear -Hf; induction Hf as [|n r ? ? [? _] _ IH]; simpl; congruence).
    assert (sort_by (λ r, md_ID (rec_metadata r)) rs ≡ₚ rs) as Hp by apply sort_by_perm.
    split_and!.
    + destruct Hex as [e1 e2 e3 e4 e5 e6 e7 e8 e9].
      assert (snapshots (sort_by (λ r, md_ID (rec_metadata r)) rs) ≡ₚ snapshots rs) as Hsp by (unfold snapshots; by rewrite Hp).
      split; try done.
      * intros sid s Hs Hn. rewrite (e4 sid s Hs Hn). f_equal. apply bool_decide_ext. by rewrite Hsp.
      * intros sid. rewrite Hsp. apply e5.
      * by rewrite Hsp.
    + rewrite <-Hids. by rewrite Hp.
    + by rewrite <-Hids.
    + apply sort_by_sorted.
    + rewrite Hp. clear -Hf. induction Hf as [|n r ? ? [_ ?] _ IH]; by constructor.
  - assert (extended w w' []) as Hex by (apply Hs; [set_solver|constructor]).
    split; [by eapply extended_nil_store|done].
Qed.

(** C12. Loading the packages of a root is all or nothing. When it fails, for
    whatever reason and at whatever point, the snapshot store is exactly what
    it was: no reservation, object or reference is left behind. When it
    succeeds there is one record per package, sorted by capability, no two
    with the same identifier, and the only new live snapshots are theirs, one
    each. *)
Theorem load_all_or_nothing `{TextLaws} `{UnicodeTables} `{LowerCase} `{YamlDecoder} `{MimeTable}
    range limits root rootPath names w w' r :
  (∀ m, range m ≡ₚ map_to_list m) → limits_ok limits → inv limits w → root_ok root → pr_PackageNames root = Ok names →
  LoadAll range rootPath (Ok root) w = (w', r) →
  match r with
  | Err e => w_store w' = w_store w ∧ extended w w' []
  | Ok records =>
      extended w w' (snapshots records) ∧ map record_id records ≡ₚ names ∧ NoDup names ∧
      StronglySorted (key_le record_id) records ∧ Forall (λ r, is_Some (rec_snapshot r)) records
  end.
Proof.
  intros Hrange Hlimits Hinv Hroot Hnames Hl. pose proof (LoadAll_spec range limits root rootPath names w w' r Hrange Hlimits Hinv Hroot Hnames Hl) as Hs.
  destruct r as [records|e]; [|done]. destruct Hs as (? & ? & ? & ? & Hf). split_and!; try done. eapply Forall_impl; [exact Hf|]. by intros r [? _].
Qed.


(** A loaded package can be installed: loading keeps the registry's
    invariants, since it touches no snapshot the registry owns; the record's
    identifier can be browsed to and its operations name their providers; and
    an open registry that has no capability of that name accepts it, after
    which it is reachable and every operation resolves to a lease on the new
    generation. *)
Theorem loaded_record_installs `{TextLaws} `{UnicodeTables} `{LowerCase} `{YamlDecoder} `{MimeTable}
    range root name (g : RState World) w' r :
  (∀ m, range m ≡ₚ map_to_list m) → root_ok root → reg_reachable g →
  loadFromRoot range root name (g_world g) = (w', Ok r) →
  let g1 := reg_exec g (RWorld w') in
  reg_reachable g1 ∧ plain_path name ∧ record_id r = name ∧ operations_ok r ∧
  (r_closed (g_reg g) = false → r_entries (g_reg g) !! name = None → Z.of_nat (size (g_heap g)) < 2 ^ 64 - 1 →
   ∃ g2 a gen, Add g1 (Some r) = (g2, None) ∧ reg_reachable g2 ∧ live_entry g2 name = Some (a, gen) ∧ gen_record gen = r ∧
     ∀ o, o ∈ rec_operations r → resolved g2 a gen name o (ResolveOperation g2 name (op_ID o))).
Proof.
  intros Hrange Hroot Hg Hl g1. pose proof (reg_reachable_inv _ Hg) as Hginv. destruct (rv_heap _ Hginv) as (E & Hheap & _).
  destruct (hi_world _ _ Hheap) as (limits & Hlimits & Hinv).
  destruct (loadFromRoot_spec range Hrange limits Hlimits root name (g_world g) w' _ Hinv Hroot Hl) as (directory & _ & Hloaded).
  destruct (loaded_world g directory name r w' Hg Hloaded) as (Hev & Hown & sid & Hsid & Hlive & Hnew).
  destruct Hloaded as [(data & m & A & _ & _ & Hparse & Hid & _ & _ & _ & Hof & _)].
  assert (manifest_ok m) as Hm by (eapply rspec_Ok; [apply ParseManifest_spec|exact Hparse]).
  assert (record_id r = name) as Hname by (unfold record_id; rewrite (proj1 (rf_metadata _ _ _ Hof)); done).
  assert (reg_reachable g1) as Hg1.
  { destruct Hg as (g0 & Hg0 & Hr). exists g0. split; [done|]. eapply rtc_r; [exact Hr|]. by exists (RWorld w'). }
  pose proof (record_operations_ok m A r Hm Hof) as Hops.
  split_and!; [done| |done|done|].
  - rewrite <-Hid. destruct (fo_metadata _ Hm) as [[[Hne _] Hmatch] _ _ _ _]. by apply capability_plain_path.
  - intros Hc He Hsize. rewrite <-Hname in *. destruct (Add_fresh g1 r sid Hc He Hsid) as (g2 & a & i & Hadd & Hentry & Hc2).
    exists g2, a, (mkGen i r 1 false). split_and!; try done.
    + destruct Hg1 as (g0 & Hg0 & Hr). exists g0. split; [done|]. eapply rtc_r; [exact Hr|]. exists (RAdd (Some r)).
      split; [|by change (g2 = (Add g1 (Some r)).1); rewrite Hadd]. split; [done|]. intros r' sn [= <-] Hsn. simplify_eq. split; [done|].
      intros (b & x & Hx & Hrest). apply Hnew. by exists b, x.
    + intros o Ho. by apply ResolveOperation_resolved.
Qed.

(** ** Witnesses *)

(** A root with the one package of [echo_manifest], and a decoder that knows
    its manifest and the front matter of its skill. *)
Definition echo_files : list (string * bytes) :=
  [("tappet.yaml", echo_yaml); ("skills/echo/SKILL.md", echo_skill); ("skills/echo/docs/guide.md", to_bytes "Say it.");
   ("context/notes.md", to_bytes "hello")].
Definition files_directory (files : list (string * bytes)) : packageDirectory := mkDirectory (λ path,
  match List.find (λ f, String.eqb f.1 path) files with
  | Some f => Ok (mkFile (mkReader f.2 None) (zlen f.2) None)
  | None => Err (ErrorNew "no such file or directory")
  end).
Definition echo_root : packageRoot := mkRoot (Ok ["everything.echo"]) (λ name,
  if String.eqb name "everything.echo" then Ok (files_directory echo_files) else Err (ErrorNew "no such file or directory")).
Definition package_decoder : YamlDecoder := {|
  decode_first data :=
    match @decode_first skill_decoder data with Ok n => Ok n | Err _ => @decode_first demo_decoder data end;
  decode_second _ := Err (Sentinel "EOF");
|}.
#[local] Existing Instance package_decoder.
#[local] Existing Instance ascii_text.
#[local] Existing Instance ascii_text_laws.
#[local] Existing Instance ascii_tables.
#[local] Existing Instance ascii_lowercase.
#[local] Instance markdown_mime : MimeTable := λ _, "text/markdown; charset=utf-8".

Definition w_empty : World := initial_world DefaultStoreLimits.

(** The same root with the name of a package that is not there. *)
Definition broken_root : packageRoot := mkRoot (Ok ["everything.echo"; "everything.ping"]) (pr_OpenPackage echo_root).

Lemma files_directory_open files path f :
  pd_OpenRegularFile (files_directory files) path = Ok f →
  rd_content (fl_reader f) ∈ map snd files ∧ fl_size f = zlen (rd_content (fl_reader f)).
Proof.
  simpl. destruct (List.find _ _) as [p|] eqn:Hfind; [|done]. intros [= <-]. apply find_some in Hfind as [Hin _].
  split; [|done]. apply list_elem_of_In. by apply (in_map snd).
Qed.

Lemma echo_root_ok : root_ok echo_root.
Proof.
  intros name directory Hd path f Hf. unfold echo_root, pr_OpenPackage in Hd. destruct (String.eqb _ _); [|done]. injection Hd as <-.
  apply files_directory_open in Hf as [_ ->]. apply zlen_nonneg.
Qed.

Lemma empty_inv : inv DefaultStoreLimits w_empty.
Proof. apply inv_reachable; [done|apply rtc_refl]. Qed.

Lemma load_all_or_nothing_witness :
  match LoadAll map_to_list "/packages" (Ok echo_root) w_empty with
  | (w', Ok records) => map record_id records = ["everything.echo"] ∧ extended w_empty w' (snapshots records)
  | (_, Err _) => False
  end ∧
  match LoadAll map_to_list "/packages" (Ok broken_root) w_empty with
  | (_, Ok _) => False
  | (w', Err e) => w_store w' = w_store w_empty
  end.
Proof.
  split.
  - assert (match LoadAll map_to_list "/packages" (Ok echo_root) w_empty with
            | (_, Ok records) => map record_id records = ["everything.echo"] | (_, Err _) => False end) as Hids
      by (vm_compute; reflexivity).
    pose proof (load_all_or_nothing map_to_list DefaultStoreLimits echo_root "/packages" ["everything.echo"] w_empty) as Hclaim.
    destruct (LoadAll map_to_list "/packages" (Ok echo_root) w_empty) as [w' [records|e]]; [|exact Hids].
    split; [exact Hids|]. refine (proj1 (Hclaim w' (Ok records) _ _ empty_inv echo_root_ok eq_refl eq_refl)); done.
  - assert (match LoadAll map_to_list "/packages" (Ok broken_root) w_empty with (_, Ok _) => False | (_, Err _) => True end) as Hfail
      by (vm_compute; exact I).
    pose proof (load_all_or_nothing map_to_list DefaultStoreLimits broken_root "/packages" ["everything.echo"; "everything.ping"] w_empty) as Hclaim.
    destruct (LoadAll map_to_list "/packages" (Ok broken_root) w_empty) as [w' [records|e]]; [exact Hfail|].
    refine (proj1 (Hclaim w' (Err e) _ _ empty_inv echo_root_ok eq_refl eq_refl)); done.
Defined.


Definition registry_empty : RState World := (NewRegistry w_empty []).1.
Lemma registry_empty_reachable : reg_reachable registry_empty.
Proof. exists registry_empty. split; [|apply rtc_refl]. apply empty_initial. exists DefaultStoreLimits. split; [done|apply empty_inv]. Qed.

Lemma loaded_record_installs_witness :
  match loadFromRoot map_to_list echo_root "everything.echo" w_empty with
  | (w', Ok r) => operations_ok r ∧ ∃ g2, Add (reg_exec registry_empty (RWorld w')) (Some r) = (g2, None) ∧ reg_reachable g2
  | (_, Err _) => False
  end.
Proof.
  assert (match loadFromRoot map_to_list echo_root "everything.echo" w_empty with (_, Ok _) => True | (_, Err _) => False end) as Hok
    by (vm_compute; exact I).
  pose proof (loaded_record_installs map_to_list echo_root "everything.echo" registry_empty) as Hclaim.
  change (g_world registry_empty) with w_empty in Hclaim.
  destruct (loadFromRoot map_to_list echo_root "everything.echo" w_empty) as [w' [r|e]]; [|exact Hok].
  destruct (Hclaim w' r ltac:(done) echo_root_ok registry_empty_reachable eq_refl) as (_ & _ & _ & Hops & Hadd).
  split; [exact Hops|]. destruct Hadd as (g2 & _ & _ & Hadd & Hg2 & _); [done|done|done|]. by exists g2.
Defined.
