(* ===== verification/JsonScan.v ===== *)
(** * Validation of provider JSON

    Models the scanner of [internal/client/json_validation.go]: the bounds and
    the duplicate member check a provider's message passes before it is
    decoded. The scanner drives [json.Decoder] token by token; the decoder is
    modelled with its token states. Which of several errors malformed text
    gets is not: every syntax error is [SyntaxError]. *)
From Stdlib Require Import Ascii String.
From S2P Require Import Prelude GoStrings Limits Sha256 Regex Utf8 Json.
Local Open Scope string_scope.
Local Open Scope list_scope.
Local Open Scope Z_scope.

(** ** [json.Decoder.Token] *)

Inductive tokenState :=
| tokenTopValue | tokenArrayStart | tokenArrayValue | tokenArrayComma
| tokenObjectStart | tokenObjectKey | tokenObjectColon | tokenObjectValue | tokenObjectComma.

Global Instance tokenState_eq_dec : EqDecision tokenState.
Proof. solve_decision. Defined.

(** The bytes that are left, the token state and the stack of the states
    around it. *)
Record decoder := mkDecoder { dec_rest : bytes; dec_state : tokenState; dec_stack : list tokenState }.

(** A delimiter, or a string, number, boolean or null. *)
Inductive token := TDelim (c : ascii) | TScalar (v : json).

Definition EOF : error := Sentinel "EOF".
Definition SyntaxError : error := ErrorNew "invalid character or unexpected end of JSON input".

Definition lbracket : ascii := "[".
Definition rbracket : ascii := "]".
Definition lbrace : ascii := "{".
Definition rbrace : ascii := "}".
Definition colon : ascii := ":".
Definition comma : ascii := ",".

(** A value that is neither an array nor an object, at the front of [l]. *)
Definition parse_scalar (l : bytes) : option (json * bytes) :=
  match l with
  | [] => None
  | a :: _ =>
      if Ascii.eqb a quote then '(s, rest) ← parse_string l; Some (JStr s, rest)
      else if Ascii.eqb a "t" then rest ← strip "true" l; Some (JBool true, rest)
      else if Ascii.eqb a "f" then rest ← strip "false" l; Some (JBool false, rest)
      else if Ascii.eqb a "n" then rest ← strip "null" l; Some (JNull, rest)
      else '(n, rest) ← parse_number l; Some (JNum n, rest)
  end.

Definition tokenValueAllowed (s : tokenState) : bool :=
  bool_decide (s = tokenTopValue ∨ s = tokenArrayStart ∨ s = tokenArrayValue ∨ s = tokenObjectValue).

Definition tokenValueEnd (s : tokenState) : tokenState :=
  match s with
  | tokenArrayStart | tokenArrayValue => tokenArrayComma
  | tokenObjectValue => tokenObjectComma
  | s => s
  end.

(** The colon or comma the state asks for: the branches of [Token] that go
    round its loop once more. *)
Definition separate (d : decoder) : decoder :=
  match skip_ws (dec_rest d) with
  | c :: l =>
      if Ascii.eqb c colon && bool_decide (dec_state d = tokenObjectColon) then mkDecoder l tokenObjectValue (dec_stack d)
      else if Ascii.eqb c comma && bool_decide (dec_state d = tokenArrayComma) then mkDecoder l tokenArrayValue (dec_stack d)
      else if Ascii.eqb c comma && bool_decide (dec_state d = tokenObjectComma) then mkDecoder l tokenObjectKey (dec_stack d)
      else d
  | [] => d
  end.

(** The opening of an array or object; its closing, which ends a value of the
    state around it. *)
Definition open_token (d : decoder) (c : ascii) (l : bytes) (s : tokenState) : result error (token * decoder) :=
  fail_if negb (tokenValueAllowed (dec_state d)) with SyntaxError else
  Ok (TDelim c, mkDecoder l s (dec_state d :: dec_stack d)).
Definition close_token (d : decoder) (c : ascii) (l : bytes) (s1 s2 : tokenState) : result error (token * decoder) :=
  fail_if negb (bool_decide (dec_state d = s1 ∨ dec_state d = s2)) with SyntaxError else
  match dec_stack d with
  | s :: stack => Ok (TDelim c, mkDecoder l (tokenValueEnd s) stack)
  | [] => Err (Sentinel "runtime error: index out of range")
  end.

Definition Token (d : decoder) : result error (token * decoder) :=
  let d := separate d in
  match skip_ws (dec_rest d) with
  | [] => Err EOF
  | c :: l =>
      if Ascii.eqb c lbracket then open_token d c l tokenArrayStart
      else if Ascii.eqb c rbracket then close_token d c l tokenArrayStart tokenArrayComma
      else if Ascii.eqb c lbrace then open_token d c l tokenObjectStart
      else if Ascii.eqb c rbrace then close_token d c l tokenObjectStart tokenObjectComma
      else if Ascii.eqb c quote && bool_decide (dec_state d = tokenObjectStart ∨ dec_state d = tokenObjectKey) then
        match parse_string (c :: l) with
        | Some (s, rest) => Ok (TScalar (JStr s), mkDecoder rest tokenObjectColon (dec_stack d))
        | None => Err SyntaxError
        end
      else
        fail_if negb (tokenValueAllowed (dec_state d)) with SyntaxError else
        match parse_scalar (c :: l) with
        | Some (v, rest) => Ok (TScalar v, mkDecoder rest (tokenValueEnd (dec_state d)) (dec_stack d))
        | None => Err SyntaxError
        end
  end.

Definition More (d : decoder) : bool :=
  match skip_ws (dec_rest d) with
  | [] => false
  | c :: _ => negb (Ascii.eqb c rbracket) && negb (Ascii.eqb c rbrace)
  end.

(** ** The scanner *)

Definition ErrDuplicateJSONMember : error := Sentinel "duplicate JSON object member".
Definition ErrJSONDepthExceeded : error := Sentinel "provider message JSON depth exceeded".
Definition ErrJSONNodesExceeded : error := Sentinel "provider message JSON node count exceeded".

Definition maxProviderJSONDepth : Z := 128.
Definition maxProviderJSONNodes : Z := 1048576.

(** The fuel of the mutual recursion ran out; see [scan_enough_fuel]. *)
Definition out_of_fuel : error := Sentinel "out of fuel".

Section scanner.
Context (maxDepth maxNodes : Z).

(** [jsonScanState.addNode]; the state is the count. *)
Definition addNode (nodes : Z) : result error Z :=
  fail_if nodes + 1 >? maxNodes with Wrapf "%w: maximum %d" [FInt maxNodes] ErrJSONNodesExceeded else Ok (nodes + 1).

Fixpoint scanJSONValue (fuel : nat) (d : decoder) (nodes depth : Z) : result error (decoder * Z) :=
  match fuel with
  | O => Err out_of_fuel
  | S fuel =>
      let! '(tok, d) := Token d in
      match tok with
      | TScalar _ => let! nodes := addNode nodes in Ok (d, nodes)
      | TDelim delimiter =>
          fail_if depth >? maxDepth with Wrapf "%w: maximum %d" [FInt maxDepth] ErrJSONDepthExceeded else
          let! nodes := addNode nodes in
          let! '(d, nodes) :=
            (if Ascii.eqb delimiter lbrace then scan_members fuel ∅ d nodes depth
             else if Ascii.eqb delimiter lbracket then scan_elements fuel d nodes depth
             else Err (ErrorNew "unexpected JSON delimiter")) in
          let! '(closingToken, d) := Token d in
          match closingToken with
          | TDelim closingDelimiter =>
              fail_if (Ascii.eqb delimiter lbrace && negb (Ascii.eqb closingDelimiter rbrace))
                      || (Ascii.eqb delimiter lbracket && negb (Ascii.eqb closingDelimiter rbracket))
                with ErrorNew "mismatched JSON delimiter" else
              Ok (d, nodes)
          | TScalar _ => Err (ErrorNew "mismatched JSON delimiter")
          end
      end
  end
with scan_members (fuel : nat) (members : gset string) (d : decoder) (nodes depth : Z) : result error (decoder * Z) :=
  match fuel with
  | O => Err out_of_fuel
  | S fuel =>
      if negb (More d) then Ok (d, nodes)
      else
        let! '(keyToken, d) := Token d in
        match keyToken with
        | TScalar (JStr key) =>
            let! nodes := addNode nodes in
            fail_if bool_decide (key ∈ members) with Wrapf "%w %q" [FStr key] ErrDuplicateJSONMember else
            let! '(d, nodes) := scanJSONValue fuel d nodes (depth + 1) in
            scan_members fuel ({[key]} ∪ members) d nodes depth
        | _ => Err (ErrorNew "JSON object member name is not a string")
        end
  end
with scan_elements (fuel : nat) (d : decoder) (nodes depth : Z) : result error (decoder * Z) :=
  match fuel with
  | O => Err out_of_fuel
  | S fuel =>
      if negb (More d) then Ok (d, nodes)
      else
        let! '(d, nodes) := scanJSONValue fuel d nodes (depth + 1) in
        scan_elements fuel d nodes depth
  end.
End scanner.

(** Two calls consume a byte. *)
Definition scan_fuel (data : bytes) : nat := S (S (2 * length data)).

Definition rejectJSONMembersWithLimits (data : bytes) (maxDepth maxNodes : Z) : result error unit :=
  let! '(d, _) := scanJSONValue maxDepth maxNodes (scan_fuel data) (mkDecoder data tokenTopValue []) 0 1 in
  match Token d with
  | Err e => fail_if negb (errors_Is e "EOF") with e else Ok tt
  | Ok _ => Err (ErrorNew "multiple JSON values")
  end.

Definition RejectDuplicateJSONMembers (data : bytes) : result error unit :=
  rejectJSONMembersWithLimits data maxProviderJSONDepth maxProviderJSONNodes.

Example scan_ok : RejectDuplicateJSONMembers (requote "{'a':[1,{'b':null}],'c':'x'}") = Ok tt.
Proof. by vm_compute. Qed.
Example scan_duplicate :
  RejectDuplicateJSONMembers (requote "{'a':1,'\u0061':2}") = Err (Wrapf "%w %q" [FStr "a"] ErrDuplicateJSONMember).
Proof. by vm_compute. Qed.
Example scan_trailing_comma : RejectDuplicateJSONMembers (requote "[1,]") = Err SyntaxError.
Proof. by vm_compute. Qed.

(** ** Specification: JSON texts *)

(** [reads depth l v rest]: [l] starts with the value [v], nested in [depth]
    arrays and objects, and [rest] follows it. *)
Inductive reads : Z → bytes → json → bytes → Prop :=
| reads_scalar depth l v rest : parse_scalar (skip_ws l) = Some (v, rest) → reads depth l v rest
| reads_empty_array depth l l' rest :
    skip_ws l = lbracket :: l' → depth < max_depth → skip_ws l' = rbracket :: rest → reads depth l (JArr []) rest
| reads_array depth l l' vs rest :
    skip_ws l = lbracket :: l' → depth < max_depth → reads_elements (depth + 1) l' vs rest → reads depth l (JArr vs) rest
| reads_empty_object depth l l' rest :
    skip_ws l = lbrace :: l' → depth < max_depth → skip_ws l' = rbrace :: rest → reads depth l (JObj []) rest
| reads_object depth l l' ms rest :
    skip_ws l = lbrace :: l' → depth < max_depth → reads_members (depth + 1) l' ms rest → reads depth l (JObj ms) rest
with reads_elements : Z → bytes → list json → bytes → Prop :=
| reads_last depth l v r rest :
    reads depth l v r → skip_ws r = rbracket :: rest → reads_elements depth l [v] rest
| reads_next depth l v r l' vs rest :
    reads depth l v r → skip_ws r = comma :: l' → reads_elements depth l' vs rest → reads_elements depth l (v :: vs) rest
with reads_members : Z → bytes → list (string * json) → bytes → Prop :=
| reads_last_member depth l k r l' v r' rest :
    parse_string (skip_ws l) = Some (k, r) → skip_ws r = colon :: l' → reads depth l' v r' →
    skip_ws r' = rbrace :: rest → reads_members depth l [(k, v)] rest
| reads_next_member depth l k r l' v r' l2 ms rest :
    parse_string (skip_ws l) = Some (k, r) → skip_ws r = colon :: l' → reads depth l' v r' →
    skip_ws r' = comma :: l2 → reads_members depth l2 ms rest → reads_members depth l ((k, v) :: ms) rest.

Scheme reads_ind' := Induction for reads Sort Prop
with reads_elements_ind' := Induction for reads_elements Sort Prop
with reads_members_ind' := Induction for reads_members Sort Prop.
Combined Scheme reads_mutind from reads_ind', reads_elements_ind', reads_members_ind'.

(** The measures the scanner bounds: the nesting of arrays and objects, and
    the values and member names. *)
Fixpoint json_depth (v : json) : Z :=
  match v with
  | JArr l => 1 + foldr (λ v n, Z.max (json_depth v) n) 0 l
  | JObj l => 1 + foldr (λ m n, Z.max (json_depth m.2) n) 0 l
  | _ => 0
  end.
Fixpoint json_nodes (v : json) : Z :=
  match v with
  | JArr l => 1 + foldr (λ v n, json_nodes v + n) 0 l
  | JObj l => 1 + foldr (λ m n, 1 + json_nodes m.2 + n) 0 l
  | _ => 1
  end.
(** No object names a member twice. *)
Fixpoint distinct_members (v : json) : Prop :=
  match v with
  | JArr l => foldr (λ v P, distinct_members v ∧ P) True l
  | JObj l => NoDup (map fst l) ∧ foldr (λ m P, distinct_members m.2 ∧ P) True l
  | _ => True
  end.

(** ** Lemmas: the decoder *)

Lemma parse_scalar_plain v l rest : parse_scalar l = Some (v, rest) → json_depth v = 0 ∧ json_nodes v = 1 ∧ distinct_members v.
Proof.
  unfold parse_scalar. destruct l as [|a l]; [done|]. intros Hp.
  repeat case_match; simplify_option_eq; try done; repeat case_match; by simplify_eq.
Qed.

Lemma parse_scalar_head c l r :
  parse_scalar (c :: l) = Some r → c ≠ lbracket ∧ c ≠ rbracket ∧ c ≠ lbrace ∧ c ≠ rbrace ∧ c ≠ colon ∧ c ≠ comma.
Proof. intros Hp. split_and!; intros ->; by vm_compute in Hp. Qed.

Lemma parse_string_head l r : parse_string l = Some r → ∃ l', l = quote :: l'.
Proof. unfold parse_string. destruct l as [|a l]; [done|]. destruct (Ascii.eqb_spec a quote); [|done]. subst. by exists l. Qed.

Lemma parse_string_scalar l s rest : parse_string l = Some (s, rest) → parse_scalar l = Some (JStr s, rest).
Proof. intros Hp. destruct (parse_string_head _ _ Hp) as [l' ->]. unfold parse_scalar. by rewrite Hp. Qed.

(** What a value in its place starts with. *)
Inductive value_token (e : decoder) : token → decoder → Prop :=
| vt_scalar v rest :
    parse_scalar (skip_ws (dec_rest e)) = Some (v, rest) →
    value_token e (TScalar v) (mkDecoder rest (tokenValueEnd (dec_state e)) (dec_stack e))
| vt_array l :
    skip_ws (dec_rest e) = lbracket :: l →
    value_token e (TDelim lbracket) (mkDecoder l tokenArrayStart (dec_state e :: dec_stack e))
| vt_object l :
    skip_ws (dec_rest e) = lbrace :: l →
    value_token e (TDelim lbrace) (mkDecoder l tokenObjectStart (dec_state e :: dec_stack e)).

(** The decoder is where the scanner looks for a value. *)
Definition value_position (d : decoder) : Prop :=
  dec_state d = tokenTopValue ∨ dec_state d = tokenObjectColon ∨
  (More d = true ∧ (dec_state d = tokenArrayStart ∨ dec_state d = tokenArrayComma)).

Lemma separate_cases d :
  separate d = d ∨
  (dec_state d = tokenObjectColon ∧ skip_ws (dec_rest d) = colon :: dec_rest (separate d) ∧
     dec_state (separate d) = tokenObjectValue ∧ dec_stack (separate d) = dec_stack d) ∨
  (dec_state d = tokenArrayComma ∧ skip_ws (dec_rest d) = comma :: dec_rest (separate d) ∧
     dec_state (separate d) = tokenArrayValue ∧ dec_stack (separate d) = dec_stack d) ∨
  (dec_state d = tokenObjectComma ∧ skip_ws (dec_rest d) = comma :: dec_rest (separate d) ∧
     dec_state (separate d) = tokenObjectKey ∧ dec_stack (separate d) = dec_stack d).
Proof.
  unfold separate. destruct (skip_ws (dec_rest d)) as [|c l] eqn:Hs; [by left|].
  destruct (Ascii.eqb_spec c colon) as [->|]; cbn [andb].
  - destruct (bool_decide_reflect (dec_state d = tokenObjectColon)); [right; left; by split_and!|].
    change (Ascii.eqb colon comma) with false. by left.
  - destruct (Ascii.eqb_spec c comma) as [->|]; cbn [andb]; [|by left].
    destruct (bool_decide_reflect (dec_state d = tokenArrayComma)); [right; right; left; by split_and!|].
    destruct (bool_decide_reflect (dec_state d = tokenObjectComma)); [right; right; right; by split_and!|by left].
Qed.

Lemma allowed_value s : tokenValueAllowed s = true ↔ s = tokenTopValue ∨ s = tokenArrayStart ∨ s = tokenArrayValue ∨ s = tokenObjectValue.
Proof. apply bool_decide_eq_true. Qed.

(** [Token] where a value is expected. *)
Lemma Token_value d t d1 :
  value_position d → Token d = Ok (t, d1) → tokenValueAllowed (dec_state (separate d)) = true ∧ value_token (separate d) t d1.
Proof.
  intros Hpos Ht. unfold Token in Ht. set (e := separate d) in *.
  assert (dec_state e ≠ tokenObjectStart ∧ dec_state e ≠ tokenObjectKey ∧ dec_state e ≠ tokenObjectComma ∧
    ((dec_state e = tokenArrayStart ∨ dec_state e = tokenArrayComma) → More e = true)) as (H1 & H2 & H3 & H4).
  { destruct (separate_cases d) as [He|[(Hs & _ & He & _)|[(Hs & _ & He & _)|(Hs & _ & He & _)]]]; fold e in He.
    - rewrite He. destruct Hpos as [Hs|[Hs|[Hm [Hs|Hs]]]]; rewrite Hs; split_and!; try done; by intros [].
    - rewrite He. split_and!; try done; by intros [].
    - rewrite He. split_and!; try done; by intros [].
    - destruct Hpos as [Hp|[Hp|[_ [Hp|Hp]]]]; congruence. }
  unfold More in H4. destruct (skip_ws (dec_rest e)) as [|c l] eqn:Hl; [done|].
  destruct (Ascii.eqb_spec c lbracket) as [->|_].
  { unfold open_token in Ht. apply guardE_Ok in Ht as [Ha Ht]. injection Ht as <- <-. apply negb_false_iff in Ha. split; [done|]. by constructor. }
  destruct (Ascii.eqb_spec c rbracket) as [->|_].
  { unfold close_token in Ht. apply guardE_Ok in Ht as [Ha _]. apply negb_false_iff, bool_decide_eq_true in Ha. by apply H4 in Ha. }
  destruct (Ascii.eqb_spec c lbrace) as [->|_].
  { unfold open_token in Ht. apply guardE_Ok in Ht as [Ha Ht]. injection Ht as <- <-. apply negb_false_iff in Ha. split; [done|]. by constructor. }
  destruct (Ascii.eqb_spec c rbrace) as [->|_].
  { unfold close_token in Ht. apply guardE_Ok in Ht as [Ha _]. apply negb_false_iff, bool_decide_eq_true in Ha as [|]; done. }
  destruct (_ && _) eqn:Hq in Ht.
  { apply andb_true_iff in Hq as [_ Hq]. apply bool_decide_eq_true in Hq as [|]; done. }
  apply guardE_Ok in Ht as [Ha Ht]. apply negb_false_iff in Ha. split; [done|].
  destruct (parse_scalar (c :: l)) as [[v rest]|] eqn:Hp; [|done]. injection Ht as <- <-. constructor. by rewrite Hl.
Qed.

Lemma Token_value_complete d t d1 :
  tokenValueAllowed (dec_state (separate d)) = true → value_token (separate d) t d1 → Token d = Ok (t, d1).
Proof.
  intros Ha Hv. unfold Token. set (e := separate d) in *. destruct Hv as [v rest Hp|l Hl|l Hl].
  - destruct (skip_ws (dec_rest e)) as [|c l] eqn:Hl; [done|].
    destruct (parse_scalar_head _ _ _ Hp) as (N1 & N2 & N3 & N4 & _). apply Ascii.eqb_neq in N1, N2, N3, N4. rewrite N1, N2, N3, N4.
    destruct (_ && _) eqn:Hq.
    { apply andb_true_iff in Hq as [_ Hq]. apply bool_decide_eq_true in Hq. apply allowed_value in Ha. destruct Hq, Ha as [|[|[|]]]; congruence. }
    rewrite Ha, Hp. done.
  - rewrite Hl. unfold open_token. by rewrite Ascii.eqb_refl, Ha.
  - rewrite Hl. unfold open_token. change (Ascii.eqb lbrace lbracket) with false. change (Ascii.eqb lbrace rbracket) with false.
    by rewrite Ascii.eqb_refl, Ha.
Qed.

(** [Token] where a member name is expected. *)
Lemma Token_key d t d1 :
  More d = true → dec_state d = tokenObjectStart ∨ dec_state d = tokenObjectComma → Token d = Ok (t, d1) →
  (dec_state (separate d) = tokenObjectStart ∨ dec_state (separate d) = tokenObjectKey) ∧
  ∃ s rest, t = TScalar (JStr s) ∧ parse_string (skip_ws (dec_rest (separate d))) = Some (s, rest) ∧
    d1 = mkDecoder rest tokenObjectColon (dec_stack d).
Proof.
  intros Hm Hpos Ht. unfold Token in Ht. set (e := separate d) in *.
  assert (dec_stack e = dec_stack d ∧ (e = d ∨ dec_state e = tokenObjectKey)) as [Hstk He].
  { destruct (separate_cases d) as [He|[(Hs & _)|[(Hs & _)|(_ & _ & He & Hst)]]]; unfold e;
      [rewrite He; auto|destruct Hpos; congruence|destruct Hpos; congruence|auto]. }
  assert (tokenValueAllowed (dec_state e) = false) as Hna.
  { apply not_true_iff_false. rewrite allowed_value. intros Hx. destruct He as [He|Hk]; [rewrite He in Hx; destruct Hpos, Hx as [|[|[|]]]|destruct Hx as [|[|[|]]]]; congruence. }
  destruct (skip_ws (dec_rest e)) as [|c l] eqn:Hl; [done|]. unfold open_token, close_token in Ht. rewrite Hna in Ht.
  destruct (Ascii.eqb_spec c lbracket) as [->|_]; [done|].
  destruct (Ascii.eqb_spec c rbracket) as [->|Nr].
  { apply guardE_Ok in Ht as [Ha _]. apply negb_false_iff, bool_decide_eq_true in Ha. exfalso.
    destruct He as [He|He]; [rewrite He in Ha|]; destruct Ha, Hpos; congruence. }
  destruct (Ascii.eqb_spec c lbrace) as [->|_]; [done|].
  destruct (Ascii.eqb_spec c rbrace) as [->|_].
  { apply guardE_Ok in Ht as [Ha _]. apply negb_false_iff, bool_decide_eq_true in Ha. exfalso.
    destruct He as [He|He]; [|destruct Ha; congruence]. rewrite He in Hl. unfold More in Hm. by rewrite Hl in Hm. }
  destruct (_ && _) eqn:Hq in Ht; [|done]. apply andb_true_iff in Hq as [_ Hq]. apply bool_decide_eq_true in Hq. split; [done|].
  destruct (parse_string (c :: l)) as [[s rest]|]; [|done]. injection Ht as <- <-. exists s, rest. by rewrite Hstk.
Qed.

Lemma Token_key_complete d s rest :
  dec_state (separate d) = tokenObjectStart ∨ dec_state (separate d) = tokenObjectKey →
  parse_string (skip_ws (dec_rest (separate d))) = Some (s, rest) →
  Token d = Ok (TScalar (JStr s), mkDecoder rest tokenObjectColon (dec_stack (separate d))).
Proof.
  intros Hst Hp. unfold Token. destruct (parse_string_head _ _ Hp) as [l Hl]. rewrite Hl in *.
  change (Ascii.eqb quote lbracket) with false. change (Ascii.eqb quote rbracket) with false.
  change (Ascii.eqb quote lbrace) with false. change (Ascii.eqb quote rbrace) with false.
  rewrite Ascii.eqb_refl, bool_decide_eq_true_2 by done. cbn [andb]. by rewrite Hp.
Qed.

(** [Token] after the last element or member. *)
Definition closing (d : decoder) (c : ascii) : Prop :=
  c = rbracket ∧ (dec_state d = tokenArrayStart ∨ dec_state d = tokenArrayComma) ∨
  c = rbrace ∧ (dec_state d = tokenObjectStart ∨ dec_state d = tokenObjectComma).

Lemma separate_closing d c l : skip_ws (dec_rest d) = c :: l → c = rbracket ∨ c = rbrace → separate d = d.
Proof. intros Hl Hc. unfold separate. rewrite Hl. by destruct Hc as [-> | ->]. Qed.

Lemma Token_close d t d1 s stack :
  More d = false → dec_stack d = s :: stack → Token d = Ok (t, d1) →
  ∃ c l, t = TDelim c ∧ closing d c ∧ skip_ws (dec_rest d) = c :: l ∧ d1 = mkDecoder l (tokenValueEnd s) stack.
Proof.
  intros Hm Hs Ht. unfold Token in Ht. destruct (skip_ws (dec_rest d)) as [|c l] eqn:Hl.
  - assert (separate d = d) as He by (unfold separate; by rewrite Hl). by rewrite He, Hl in Ht.
  - assert (c = rbracket ∨ c = rbrace) as Hc.
    { unfold More in Hm. rewrite Hl in Hm. apply andb_false_iff in Hm. rewrite !negb_false_iff, !Ascii.eqb_eq in Hm. done. }
    rewrite (separate_closing d c l Hl Hc), Hl in Ht. unfold close_token in Ht. rewrite Hs in Ht. exists c, l.
    destruct Hc as [-> | ->].
    + change (Ascii.eqb rbracket lbracket) with false in Ht. rewrite Ascii.eqb_refl in Ht. apply guardE_Ok in Ht as [Ha Ht].
      injection Ht as <- <-. apply negb_false_iff, bool_decide_eq_true in Ha. split_and!; try done. by left.
    + change (Ascii.eqb rbrace lbracket) with false in Ht. change (Ascii.eqb rbrace rbracket) with false in Ht.
      change (Ascii.eqb rbrace lbrace) with false in Ht. rewrite Ascii.eqb_refl in Ht. apply guardE_Ok in Ht as [Ha Ht].
      injection Ht as <- <-. apply negb_false_iff, bool_decide_eq_true in Ha. split_and!; try done. by right.
Qed.

Lemma Token_close_complete d c l s stack :
  closing d c → skip_ws (dec_rest d) = c :: l → dec_stack d = s :: stack →
  More d = false ∧ Token d = Ok (TDelim c, mkDecoder l (tokenValueEnd s) stack).
Proof.
  intros Hc Hl Hs. assert (c = rbracket ∨ c = rbrace) as Hc' by (destruct Hc as [[-> _]|[-> _]]; auto). split.
  - unfold More. rewrite Hl. by destruct Hc' as [-> | ->].
  - unfold Token. rewrite (separate_closing d c l Hl Hc'), Hl. unfold close_token. rewrite Hs.
    destruct Hc as [[-> Hst]|[-> Hst]]; rewrite (bool_decide_eq_true_2 _ Hst); done.
Qed.

(** ** Lemmas: input is consumed *)

Lemma skip_ws_length l : (length (skip_ws l) ≤ length l)%nat.
Proof. induction l as [|a l IH]; simpl; [lia|]. destruct (is_ws a); simpl; lia. Qed.

Lemma prepend_Some x r s rest : prepend x r = Some (s, rest) → ∃ s', r = Some (s', rest).
Proof. unfold prepend. destruct r as [[s' rest']|]; simpl; [|done]. intros [= _ <-]. by exists s'. Qed.

Lemma parse_chars_length n : ∀ l s rest, (length l < n)%nat → parse_chars l = Some (s, rest) → (length rest < length l)%nat.
Proof.
  induction n as [|n IH]; intros l s rest Hn Hp; [lia|]. destruct l as [|a l]; [done|]. simpl in Hn, Hp.
  assert (∀ x l', (length l' ≤ length l)%nat → prepend x (parse_chars l') = Some (s, rest) → (length rest < S (length l))%nat) as Hrec.
  { intros x l' Hl Hx. apply prepend_Some in Hx as (s' & Hx). apply IH in Hx; lia. }
  destruct (Ascii.eqb a quote); [simplify_eq; simpl; lia|]. destruct (byte_Z a <? 32); [done|].
  destruct (negb (Ascii.eqb a backslash)); [by eapply Hrec|].
  destruct l as [|b l2]; [done|]. destruct (negb (Ascii.eqb b "u")).
  { destruct (simple_escape b); [|done]. eapply Hrec; [|done]. simpl. lia. }
  destruct l2 as [|h1 [|h2 [|h3 [|h4 l3]]]]; try done. destruct (hex4 h1 h2 h3 h4) as [r|]; [|done].
  assert (prepend (encode_rune r) (parse_chars l3) = Some (s, rest) → (length rest < S (length (b :: h1 :: h2 :: h3 :: h4 :: l3)))%nat) as H3
    by (intros Hx; eapply Hrec; [|done]; simpl; lia).
  destruct l3 as [|e [|u [|g1 [|g2 [|g3 [|g4 l4]]]]]]; try by apply H3.
  destruct (hex4 g1 g2 g3 g4) as [r'|]; [|by apply H3]. destruct (_ && _); [|by apply H3].
  eapply Hrec; [|done]. simpl. lia.
Qed.

Lemma parse_string_length l s rest : parse_string l = Some (s, rest) → (length rest < length l)%nat.
Proof.
  unfold parse_string. destruct l as [|a l]; [done|]. destruct (Ascii.eqb a quote); [|done].
  destruct (parse_chars l) as [[x y]|] eqn:Hp; [|done]. intros [= _ <-]. apply (parse_chars_length (S (length l))) in Hp; simpl; lia.
Qed.

Lemma strip_length w l rest : w ≠ "" → strip w l = Some rest → (length rest < length l)%nat.
Proof.
  unfold strip. intros Hw. case_bool_decide as Ht; [|done]. intros [= <-]. rewrite length_drop.
  assert (length (take (String.length w) l) = String.length w) as Hl by (rewrite Ht; clear; induction w; simpl; congruence).
  rewrite length_take in Hl. destruct w; [done|]. cbn [String.length] in *. lia.
Qed.

Lemma take_while_length p l x rest : take_while p l = (x, rest) → (length l = length x + length rest)%nat.
Proof.
  revert x rest. induction l as [|a l IH]; intros x rest Ht; simpl in Ht; [by simplify_eq|].
  destruct (p a); [|by simplify_eq]. destruct (take_while p l) as [y z] eqn:Hl. simplify_eq. simpl. by rewrite (IH y rest).
Qed.

Lemma parse_number_length l n rest : parse_number l = Some (n, rest) → (length rest < length l)%nat.
Proof.
  unfold parse_number. destruct (take_while number_char l) as [x y] eqn:Ht. destruct (match_bytes number_re x) eqn:Hm; [|done].
  intros [= _ <-]. apply take_while_length in Ht. destruct x; [by vm_compute in Hm|]. simpl in Ht. lia.
Qed.

Lemma parse_scalar_length l v rest : parse_scalar l = Some (v, rest) → (length rest < length l)%nat.
Proof.
  unfold parse_scalar. destruct l as [|a l]; [done|]. intros Hp. destruct (Ascii.eqb a quote).
  { destruct (parse_string (a :: l)) as [[s r]|] eqn:Hs; [|done]. simpl in Hp. injection Hp as _ <-. by apply parse_string_length in Hs. }
  destruct (Ascii.eqb a "t"); [destruct (strip _ _) eqn:Hs in Hp; [|done]; simpl in Hp; injection Hp as _ <-; by apply strip_length in Hs|].
  destruct (Ascii.eqb a "f"); [destruct (strip _ _) eqn:Hs in Hp; [|done]; simpl in Hp; injection Hp as _ <-; by apply strip_length in Hs|].
  destruct (Ascii.eqb a "n"); [destruct (strip _ _) eqn:Hs in Hp; [|done]; simpl in Hp; injection Hp as _ <-; by apply strip_length in Hs|].
  destruct (parse_number (a :: l)) as [[n r]|] eqn:Hn; [|done]. simpl in Hp. injection Hp as _ <-. by apply parse_number_length in Hn.
Qed.

Lemma skip_ws_rest l c l' : skip_ws l = c :: l' → (length l' < length l)%nat.
Proof. intros Hs. pose proof (skip_ws_length l) as Hl. rewrite Hs in Hl. simpl in Hl. lia. Qed.

Lemma reads_consume :
  (∀ depth l v rest, reads depth l v rest → (length rest < length l)%nat) ∧
  (∀ depth l vs rest, reads_elements depth l vs rest → (length rest < length l)%nat) ∧
  (∀ depth l ms rest, reads_members depth l ms rest → (length rest < length l)%nat).
Proof.
  apply reads_mutind; intros;
    repeat match goal with
    | H : skip_ws _ = _ :: _ |- _ => apply skip_ws_rest in H
    | H : parse_string (skip_ws ?l) = _ |- _ => apply parse_string_length in H; pose proof (skip_ws_length l)
    | H : parse_scalar (skip_ws ?l) = _ |- _ => apply parse_scalar_length in H; pose proof (skip_ws_length l)
    end; lia.
Qed.

Lemma separate_length d : (length (dec_rest (separate d)) ≤ length (dec_rest d))%nat.
Proof.
  destruct (separate_cases d) as [->|[(_ & Hs & _)|[(_ & Hs & _)|(_ & Hs & _)]]]; [done|apply skip_ws_rest in Hs; lia..].
Qed.

Lemma Token_consumes d t d1 : Token d = Ok (t, d1) → (length (dec_rest d1) < length (dec_rest d))%nat.
Proof.
  intros Ht. pose proof (separate_length d) as Hsep. unfold Token in Ht. set (e := separate d) in *.
  destruct (skip_ws (dec_rest e)) as [|c l] eqn:Hl; [done|]. pose proof (skip_ws_rest _ _ _ Hl).
  pose proof (skip_ws_length (dec_rest e)) as Hle. rewrite Hl in Hle.
  assert (∀ s, open_token e c l s = Ok (t, d1) → length (dec_rest d1) = length l) as Hopen.
  { intros s Ho. unfold open_token in Ho. apply guardE_Ok in Ho as [_ Ho]. by injection Ho as _ <-. }
  assert (∀ s1 s2, close_token e c l s1 s2 = Ok (t, d1) → length (dec_rest d1) = length l) as Hclose.
  { intros s1 s2 Ho. unfold close_token in Ho. apply guardE_Ok in Ho as [_ Ho]. destruct (dec_stack e); [done|]. by injection Ho as _ <-. }
  destruct (Ascii.eqb c lbracket); [apply Hopen in Ht; lia|]. destruct (Ascii.eqb c rbracket); [apply Hclose in Ht; lia|].
  destruct (Ascii.eqb c lbrace); [apply Hopen in Ht; lia|]. destruct (Ascii.eqb c rbrace); [apply Hclose in Ht; lia|].
  destruct (_ && _) in Ht.
  - destruct (parse_string (c :: l)) as [[s r]|] eqn:Hs; [|done]. injection Ht as _ <-. apply parse_string_length in Hs. simpl in *. lia.
  - apply guardE_Ok in Ht as [_ Ht]. destruct (parse_scalar (c :: l)) as [[s r]|] eqn:Hs; [|done]. injection Ht as _ <-.
    apply parse_scalar_length in Hs. simpl in *. lia.
Qed.

(** ** Lemmas: [Json.parse] reads JSON texts *)

Lemma parse_value_S f depth l :
  parse_value (S f) depth l =
  match skip_ws l with
  | [] => None
  | a :: l' =>
      if Ascii.eqb a lbrace then
        if max_depth <=? depth then None else
        match skip_ws l' with
        | b :: rest => if Ascii.eqb b rbrace then Some (JObj [], rest)
                       else '(ms, rest) ← parse_members f (depth + 1) l'; Some (JObj ms, rest)
        | [] => None
        end
      else if Ascii.eqb a lbracket then
        if max_depth <=? depth then None else
        match skip_ws l' with
        | b :: rest => if Ascii.eqb b rbracket then Some (JArr [], rest)
                       else '(vs, rest) ← parse_elements f (depth + 1) l'; Some (JArr vs, rest)
        | [] => None
        end
      else parse_scalar (a :: l')
  end.
Proof.
  cbn [parse_value]. destruct (skip_ws l) as [|a l']; [done|]. unfold parse_scalar, lbrace, lbracket.
  destruct (Ascii.eqb_spec a quote) as [->|]; [done|]. destruct (Ascii.eqb a "{"); [done|]. by destruct (Ascii.eqb a "[").
Qed.

Lemma parse_reads f :
  (∀ depth l v rest, parse_value f depth l = Some (v, rest) → reads depth l v rest) ∧
  (∀ depth l vs rest, parse_elements f depth l = Some (vs, rest) → reads_elements depth l vs rest) ∧
  (∀ depth l ms rest, parse_members f depth l = Some (ms, rest) → reads_members depth l ms rest).
Proof.
  induction f as [|f (IHv & IHe & IHm)]; [done|]. split_and!; intros depth l x rest Hp.
  - rewrite parse_value_S in Hp. destruct (skip_ws l) as [|a l'] eqn:Hl; [done|].
    destruct (Ascii.eqb_spec a lbrace) as [->|_]; [|destruct (Ascii.eqb_spec a lbracket) as [->|_]; [|apply reads_scalar; by rewrite Hl]].
    + destruct (Z.leb_spec max_depth depth); [done|]. destruct (skip_ws l') as [|b r] eqn:Hl'; [done|].
      destruct (Ascii.eqb_spec b rbrace) as [->|_]; [injection Hp as <- <-; by eapply reads_empty_object|].
      destruct (parse_members f (depth + 1) l') as [[ms r']|] eqn:Hm; [|done]. injection Hp as <- <-. eapply reads_object; eauto.
    + destruct (Z.leb_spec max_depth depth); [done|]. destruct (skip_ws l') as [|b r] eqn:Hl'; [done|].
      destruct (Ascii.eqb_spec b rbracket) as [->|_]; [injection Hp as <- <-; by eapply reads_empty_array|].
      destruct (parse_elements f (depth + 1) l') as [[vs r']|] eqn:Hm; [|done]. injection Hp as <- <-. eapply reads_array; eauto.
  - cbn [parse_elements] in Hp. destruct (parse_value f depth l) as [[v r]|] eqn:Hv; [|done]. cbn in Hp.
    destruct (skip_ws r) as [|b r'] eqn:Hr; [done|].
    destruct (Ascii.eqb_spec b "]") as [->|_]; [injection Hp as <- <-; eapply reads_last; eauto|].
    destruct (Ascii.eqb_spec b ",") as [->|_]; [|done].
    destruct (parse_elements f depth r') as [[vs r2]|] eqn:He; [|done]. injection Hp as <- <-. eapply reads_next; eauto.
  - cbn [parse_members] in Hp. destruct (parse_string (skip_ws l)) as [[k r]|] eqn:Hk; [|done]. cbn in Hp.
    destruct (skip_ws r) as [|c r1] eqn:Hr; [done|]. destruct (Ascii.eqb_spec c ":") as [->|_]; [|done]. cbn [negb] in Hp.
    destruct (parse_value f depth r1) as [[v r2]|] eqn:Hv; [|done]. cbn in Hp. destruct (skip_ws r2) as [|b r3] eqn:Hr2; [done|].
    destruct (Ascii.eqb_spec b "}") as [->|_]; [injection Hp as <- <-; eapply reads_last_member; eauto|].
    destruct (Ascii.eqb_spec b ",") as [->|_]; [|done].
    destruct (parse_members f depth r3) as [[ms r4]|] eqn:He; [|done]. injection Hp as <- <-. eapply reads_next_member; eauto.
Qed.

(** What follows the start of an array or object is not its end. *)
Lemma reads_head depth l v rest : reads depth l v rest →
  ∃ a l', skip_ws l = a :: l' ∧ Ascii.eqb a rbracket = false ∧ Ascii.eqb a rbrace = false.
Proof.
  intros Hr. inversion Hr as [? ? ? ? Hs|? ? ? ? Hs|? ? ? ? ? Hs|? ? ? ? Hs|? ? ? ? ? Hs]; subst; [|by eexists _, _..].
  destruct (skip_ws l) as [|a l']; [done|]. destruct (parse_scalar_head _ _ _ Hs) as (_ & H1 & _ & H2 & _).
  exists a, l'. apply Ascii.eqb_neq in H1, H2. done.
Qed.
Lemma reads_elements_head depth l vs rest : reads_elements depth l vs rest →
  ∃ a l', skip_ws l = a :: l' ∧ Ascii.eqb a rbracket = false ∧ Ascii.eqb a rbrace = false.
Proof. intros Hr. destruct Hr as [? ? ? ? ? Hr|? ? ? ? ? ? ? Hr]; by eapply reads_head. Qed.
Lemma reads_members_head depth l ms rest : reads_members depth l ms rest → ∃ l', skip_ws l = quote :: l'.
Proof. intros Hr. destruct Hr as [? ? ? ? ? ? ? ? Hr|? ? ? ? ? ? ? ? ? ? Hr]; by eapply parse_string_head. Qed.

Lemma reads_parse :
  (∀ depth l v rest, reads depth l v rest → ∀ f, (2 * length l < f)%nat → parse_value f depth l = Some (v, rest)) ∧
  (∀ depth l vs rest, reads_elements depth l vs rest → ∀ f, (S (2 * length l) < f)%nat → parse_elements f depth l = Some (vs, rest)) ∧
  (∀ depth l ms rest, reads_members depth l ms rest → ∀ f, (S (2 * length l) < f)%nat → parse_members f depth l = Some (ms, rest)).
Proof.
  apply reads_mutind.
  - intros depth l v rest Hs [|f] Hf; [lia|]. rewrite parse_value_S. destruct (skip_ws l) as [|a l']; [done|].
    destruct (parse_scalar_head _ _ _ Hs) as (H1 & _ & H2 & _). apply Ascii.eqb_neq in H1, H2. by rewrite H1, H2.
  - intros depth l l' rest Hl Hd Hl' [|f] Hf; [lia|]. rewrite parse_value_S, Hl.
    apply Z.leb_gt in Hd. change (Ascii.eqb lbracket lbrace) with false. by rewrite Ascii.eqb_refl, Hd, Hl', Ascii.eqb_refl.
  - intros depth l l' vs rest Hl Hd He IH [|f] Hf; [lia|]. rewrite parse_value_S, Hl. apply Z.leb_gt in Hd.
    change (Ascii.eqb lbracket lbrace) with false. destruct (reads_elements_head _ _ _ _ He) as (a & l2 & Hs & Hb & _).
    rewrite Ascii.eqb_refl, Hd, Hs, Hb. pose proof (skip_ws_rest _ _ _ Hl). rewrite IH by lia. done.
  - intros depth l l' rest Hl Hd Hl' [|f] Hf; [lia|]. rewrite parse_value_S, Hl.
    apply Z.leb_gt in Hd. by rewrite Ascii.eqb_refl, Hd, Hl', Ascii.eqb_refl.
  - intros depth l l' vs rest Hl Hd He IH [|f] Hf; [lia|]. rewrite parse_value_S, Hl. apply Z.leb_gt in Hd.
    destruct (reads_members_head _ _ _ _ He) as (l2 & Hs). rewrite Ascii.eqb_refl, Hd, Hs. change (Ascii.eqb quote rbrace) with false.
    pose proof (skip_ws_rest _ _ _ Hl). rewrite IH by lia. done.
  - intros depth l v r rest Hr IH Hs [|f] Hf; [lia|]. cbn [parse_elements]. rewrite IH by lia. cbn. rewrite Hs. done.
  - intros depth l v r l' vs rest Hr IH Hs He IHe [|f] Hf; [lia|]. cbn [parse_elements]. rewrite IH by lia. cbn. rewrite Hs.
    apply (proj1 reads_consume) in Hr. pose proof (skip_ws_rest _ _ _ Hs). cbn. rewrite IHe by lia. done.
  - intros depth l k r l' v r' rest Hk Hs Hr IH Hs' [|f] Hf; [lia|]. cbn [parse_members]. rewrite Hk. cbn. rewrite Hs. cbn.
    apply parse_string_length in Hk. pose proof (skip_ws_length l). pose proof (skip_ws_rest _ _ _ Hs). rewrite IH by lia. cbn. by rewrite Hs'.
  - intros depth l k r l' v r' l2 ms rest Hk Hs Hr IH Hs' Hm IHm [|f] Hf; [lia|]. cbn [parse_members]. rewrite Hk. cbn. rewrite Hs. cbn.
    apply parse_string_length in Hk. pose proof (skip_ws_length l). pose proof (skip_ws_rest _ _ _ Hs).
    apply (proj1 reads_consume) in Hr. pose proof (skip_ws_rest _ _ _ Hs'). rewrite IH by lia. cbn. rewrite Hs'. cbn. rewrite IHm by lia. done.
Qed.

(** The parser of Json.v accepts exactly the JSON texts. *)
Lemma parse_exact data v : parse data = Some v ↔ ∃ rest, reads 0 data v rest ∧ skip_ws rest = [].
Proof.
  unfold parse. split.
  - destruct (parse_value _ 0 data) as [[w rest]|] eqn:Hp; [|done]. cbn. destruct (skip_ws rest) eqn:Hs; [|done]. intros [= ->].
    exists rest. split; [by eapply parse_reads|done].
  - intros (rest & Hr & Hs). rewrite (proj1 reads_parse _ _ _ _ Hr) by lia. cbn. by rewrite Hs.
Qed.

(** ** Lemmas: what the scanner accepts *)

Section scan.
Context (D N : Z).

Definition elements_nodes (vs : list json) : Z := foldr (λ v n, json_nodes v + n) 0 vs.
Definition members_nodes (ms : list (string * json)) : Z := foldr (λ m n, 1 + json_nodes m.2 + n) 0 ms.
Definition elements_depth (vs : list json) : Z := foldr (λ v n, Z.max (json_depth v) n) 0 vs.
Definition members_depth (ms : list (string * json)) : Z := foldr (λ m n, Z.max (json_depth m.2) n) 0 ms.
Definition elements_distinct (vs : list json) : Prop := foldr (λ v P, distinct_members v ∧ P) True vs.
Definition members_distinct (ms : list (string * json)) : Prop := foldr (λ m P, distinct_members m.2 ∧ P) True ms.

Lemma addNode_Ok n n' : addNode N n = Ok n' ↔ n' = n + 1 ∧ n + 1 ≤ N.
Proof. unfold addNode. rewrite guardE_Ok, Z.gtb_ltb, Z.ltb_ge. naive_solver. Qed.

(** What a scan over one value, some elements or some members has found. *)
Definition scanned_value (depth n : Z) (d d' : decoder) (n' : Z) (v : json) : Prop :=
  tokenValueAllowed (dec_state (separate d)) = true ∧
  (D ≤ max_depth → reads (depth - 1) (dec_rest (separate d)) v (dec_rest d')) ∧
  d' = mkDecoder (dec_rest d') (tokenValueEnd (dec_state (separate d))) (dec_stack (separate d)) ∧
  n' = n + json_nodes v ∧ n' ≤ N ∧ (0 < json_depth v → depth - 1 + json_depth v ≤ D) ∧ distinct_members v.

Lemma value_state d : value_position d → tokenValueAllowed (dec_state (separate d)) = true →
  dec_stack (separate d) = dec_stack d ∧
  (dec_state d = tokenArrayStart ∨ dec_state d = tokenArrayComma →
   tokenValueEnd (dec_state (separate d)) = tokenArrayComma ∧
   (dec_state d = tokenArrayComma → skip_ws (dec_rest d) = comma :: dec_rest (separate d))) ∧
  (dec_state d = tokenObjectColon → skip_ws (dec_rest d) = colon :: dec_rest (separate d) ∧
     tokenValueEnd (dec_state (separate d)) = tokenObjectComma).
Proof.
  intros Hpos Ha. apply allowed_value in Ha. destruct (separate_cases d) as [He|[(Hs & Hc & He & Hst)|[(Hs & Hc & He & Hst)|(Hs & Hc & He & Hst)]]].
  - rewrite He in *. split; [done|]. split.
    + intros [Hs|Hs]; rewrite Hs in *; [by split|]. destruct Ha as [|[|[|]]]; done.
    + intros Hs. rewrite Hs in *. destruct Ha as [|[|[|]]]; done.
  - rewrite He. split; [done|]. split; [intros []; congruence|done].
  - rewrite He. split; [done|]. split; [done|congruence].
  - rewrite He in Ha. destruct Ha as [|[|[|]]]; done.
Qed.

Lemma scan_value_depth v : 0 ≤ json_depth v ∧ 1 ≤ json_nodes v.
Proof.
  assert (∀ A (f : A → Z) l, 0 ≤ foldr (λ v n, Z.max (f v) n) 0 l) as Hmax by (intros A f l; induction l; simpl; lia).
  revert v. fix IH 1. intros [| | | |l|l]; simpl; try lia.
  - split; [pose proof (Hmax _ json_depth l); lia|]. assert (0 ≤ foldr (λ v n, json_nodes v + n) 0 l); [|lia].
    induction l as [|v l IHl]; simpl; [lia|]. destruct (IH v). lia.
  - split; [pose proof (Hmax _ (λ m : string * json, json_depth m.2) l); lia|]. assert (0 ≤ foldr (λ m n, 1 + json_nodes m.2 + n) 0 l); [|lia].
    induction l as [|v l IHl]; simpl; [lia|]. destruct (IH v.2). lia.
Qed.

Lemma scanJSONValue_S F d nodes depth :
  scanJSONValue D N (S F) d nodes depth =
  let! '(tok, d) := Token d in
  match tok with
  | TScalar _ => let! nodes := addNode N nodes in Ok (d, nodes)
  | TDelim delimiter =>
      fail_if depth >? D with Wrapf "%w: maximum %d" [FInt D] ErrJSONDepthExceeded else
      let! nodes := addNode N nodes in
      let! '(d, nodes) :=
        (if Ascii.eqb delimiter lbrace then scan_members D N F ∅ d nodes depth
         else if Ascii.eqb delimiter lbracket then scan_elements D N F d nodes depth
         else Err (ErrorNew "unexpected JSON delimiter")) in
      let! '(closingToken, d) := Token d in
      match closingToken with
      | TDelim closingDelimiter =>
          fail_if (Ascii.eqb delimiter lbrace && negb (Ascii.eqb closingDelimiter rbrace))
                  || (Ascii.eqb delimiter lbracket && negb (Ascii.eqb closingDelimiter rbracket))
            with ErrorNew "mismatched JSON delimiter" else
          Ok (d, nodes)
      | TScalar _ => Err (ErrorNew "mismatched JSON delimiter")
      end
  end.
Proof. reflexivity. Qed.

Lemma scan_members_S F members d nodes depth :
  scan_members D N (S F) members d nodes depth =
  if negb (More d) then Ok (d, nodes)
  else
    let! '(keyToken, d) := Token d in
    match keyToken with
    | TScalar (JStr key) =>
        let! nodes := addNode N nodes in
        fail_if bool_decide (key ∈ members) with Wrapf "%w %q" [FStr key] ErrDuplicateJSONMember else
        let! '(d, nodes) := scanJSONValue D N F d nodes (depth + 1) in
        scan_members D N F ({[key]} ∪ members) d nodes depth
    | _ => Err (ErrorNew "JSON object member name is not a string")
    end.
Proof. reflexivity. Qed.

Lemma scan_elements_S F d nodes depth :
  scan_elements D N (S F) d nodes depth =
  if negb (More d) then Ok (d, nodes)
  else let! '(d, nodes) := scanJSONValue D N F d nodes (depth + 1) in scan_elements D N F d nodes depth.
Proof. reflexivity. Qed.

Lemma scan_sound F :
  (∀ d n depth d' n', value_position d → scanJSONValue D N F d n depth = Ok (d', n') →
     ∃ v, scanned_value depth n d d' n' v) ∧
  (∀ members d n depth d' n', dec_state d = tokenObjectStart ∨ dec_state d = tokenObjectComma →
     scan_members D N F members d n depth = Ok (d', n') → n ≤ N → depth ≤ D →
     ∃ ms, More d' = false ∧ (dec_state d' = tokenObjectStart ∨ dec_state d' = tokenObjectComma) ∧ dec_stack d' = dec_stack d ∧
       n' = n + members_nodes ms ∧ n' ≤ N ∧ depth + members_depth ms ≤ D ∧ members_distinct ms ∧
       NoDup (map fst ms) ∧ (∀ k, k ∈ map fst ms → k ∉ members) ∧
       (ms = [] ∧ d' = d ∨
        (dec_state d = tokenObjectComma → skip_ws (dec_rest d) = comma :: dec_rest (separate d)) ∧
        (dec_state d = tokenObjectStart → separate d = d) ∧
        (D ≤ max_depth → ∀ rest, skip_ws (dec_rest d') = rbrace :: rest → reads_members depth (dec_rest (separate d)) ms rest))) ∧
  (∀ d n depth d' n', dec_state d = tokenArrayStart ∨ dec_state d = tokenArrayComma →
     scan_elements D N F d n depth = Ok (d', n') → n ≤ N → depth ≤ D →
     ∃ vs, More d' = false ∧ (dec_state d' = tokenArrayStart ∨ dec_state d' = tokenArrayComma) ∧ dec_stack d' = dec_stack d ∧
       n' = n + elements_nodes vs ∧ n' ≤ N ∧ depth + elements_depth vs ≤ D ∧ elements_distinct vs ∧
       (vs = [] ∧ d' = d ∨
        (dec_state d = tokenArrayComma → skip_ws (dec_rest d) = comma :: dec_rest (separate d)) ∧
        (dec_state d = tokenArrayStart → separate d = d) ∧
        (D ≤ max_depth → ∀ rest, skip_ws (dec_rest d') = rbracket :: rest → reads_elements depth (dec_rest (separate d)) vs rest))).
Proof.
  induction F as [|F (IHv & IHm & IHe)]; [done|]. split_and!.
  - intros d n depth d' n' Hpos Hs. rewrite scanJSONValue_S in Hs. apply rbind_Ok in Hs as ([t d1] & Ht & Hs).
    apply Token_value in Ht as [Ha Hv]; [|done]. destruct Hv as [v rest Hp|l Hl|l Hl].
    + apply rbind_Ok in Hs as (n1 & [-> Hn]%addNode_Ok & Hs). injection Hs as <- <-.
      destruct (parse_scalar_plain _ _ _ Hp) as (Hd & Hnodes & Hdist). exists v. split_and!; try done; [|lia..].
      intros _. by apply reads_scalar.
    + apply guardE_Ok in Hs as [Hdep Hs]. bool_hyps. apply rbind_Ok in Hs as (n1 & [-> Hn]%addNode_Ok & Hs).
      change (Ascii.eqb lbracket lbrace) with false in Hs. rewrite Ascii.eqb_refl in Hs. cbn [andb orb] in Hs.
      apply rbind_Ok in Hs as ([d2 n2] & He & Hs). apply IHe in He as (vs & Hm & Hst & Hstk & -> & Hn2 & Hd2 & Hdist & Hreads); [|by left|lia|lia].
      apply rbind_Ok in Hs as ([t d3] & Ht & Hs). destruct (Token_close _ _ _ _ _ Hm Hstk Ht) as (c & l3 & -> & Hc & Hl3 & ->).
      apply guardE_Ok in Hs as [Hc' Hs]. injection Hs as <- <-. apply negb_false_iff, Ascii.eqb_eq in Hc'. subst c.
      exists (JArr vs). fold (elements_nodes vs) (elements_depth vs). split_and!; try done; simpl; fold (elements_nodes vs) (elements_depth vs); try lia.
      * intros HD. destruct Hreads as [[-> ->]|(_ & Hsep & Hr)]; [eapply reads_empty_array; [exact Hl|lia|exact Hl3]|].
        eapply reads_array; [exact Hl|lia|]. rewrite Hsep in Hr by done. replace (depth - 1 + 1) with depth by lia. by apply Hr.
    + apply guardE_Ok in Hs as [Hdep Hs]. bool_hyps. apply rbind_Ok in Hs as (n1 & [-> Hn]%addNode_Ok & Hs).
      rewrite Ascii.eqb_refl in Hs. change (Ascii.eqb lbrace lbracket) with false in Hs. cbn [andb orb] in Hs.
      apply rbind_Ok in Hs as ([d2 n2] & He & Hs).
      apply IHm in He as (ms & Hm & Hst & Hstk & -> & Hn2 & Hd2 & Hdist & Hnd & _ & Hreads); [|by left|lia|lia].
      apply rbind_Ok in Hs as ([t d3] & Ht & Hs). destruct (Token_close _ _ _ _ _ Hm Hstk Ht) as (c & l3 & -> & Hc & Hl3 & ->).
      apply guardE_Ok in Hs as [Hc' Hs]. injection Hs as <- <-. rewrite orb_false_r in Hc'. apply negb_false_iff, Ascii.eqb_eq in Hc'. subst c.
      exists (JObj ms). split_and!; try done; simpl; fold (members_nodes ms) (members_depth ms); try lia.
      * intros HD. destruct Hreads as [[-> ->]|(_ & Hsep & Hr)]; [eapply reads_empty_object; [exact Hl|lia|exact Hl3]|].
        eapply reads_object; [exact Hl|lia|]. rewrite Hsep in Hr by done. replace (depth - 1 + 1) with depth by lia. by apply Hr.
  - intros members d n depth d' n' Hst Hs Hn Hdep. rewrite scan_members_S in Hs. destruct (More d) eqn:Hm; cbn [negb] in Hs.
    2: { injection Hs as <- <-. exists []. simpl. split_and!; try done; try lia; [constructor|set_solver|by left]. }
    apply rbind_Ok in Hs as ([t d1] & Ht & Hs). apply Token_key in Ht as [Hse (k & r & -> & Hk & ->)]; [|done|done].
    apply rbind_Ok in Hs as (n1 & [-> Hn1]%addNode_Ok & Hs). apply guardE_Ok in Hs as [Hnew Hs]. apply bool_decide_eq_false in Hnew.
    apply rbind_Ok in Hs as ([d2 n2] & Hv & Hs). assert (value_position (mkDecoder r tokenObjectColon (dec_stack d))) as Hpos by (by right; left).
    apply IHv in Hv as (v & Ha & Hr & Hd2 & -> & Hn2 & Hvd & Hdist); [|done].
    destruct d2 as [r2 s2 k2]. injection Hd2 as -> ->. cbn [dec_rest] in *.
    destruct (value_state _ Hpos Ha) as (Hstk & _ & Hcol). destruct (Hcol eq_refl) as [Hcolon Hend]. rewrite Hend in Hs.
    apply IHm in Hs as (ms & Hm' & Hst' & Hstk' & -> & Hn' & Hd' & Hdist' & Hnd & Hfr & Hreads); [|by right|done|done].
    pose proof (scan_value_depth v) as [Hv0 _]. exists ((k, v) :: ms). split_and!; try done.
    + rewrite Hstk'. simpl. rewrite Hstk. done.
    + simpl. fold (members_nodes ms). lia.
    + simpl. fold (members_depth ms). lia.
    + simpl. constructor; [|done]. intros Hin. specialize (Hfr _ Hin). set_solver.
    + intros k' [->|Hin]%elem_of_cons; [done|]. specialize (Hfr _ Hin). set_solver.
    + right. split_and!.
      * intros Hc. destruct (separate_cases d) as [He|[(?&_)|[(?&_)|(_&?&_)]]]; [|congruence|congruence|done]. rewrite He in Hse. destruct Hse; congruence.
      * intros Hc. destruct (separate_cases d) as [He|[(?&_)|[(?&_)|(?&_)]]]; [done|congruence..].
      * intros HD rest Hrest. simpl in *. replace (depth + 1 - 1) with depth in Hr by lia.
        destruct Hreads as [[-> Hd2]|(Hcm & _ & Hr2)].
        -- rewrite Hd2 in Hrest. simpl in Hrest. eapply reads_last_member; [exact Hk|exact Hcolon|by apply Hr|exact Hrest].
        -- eapply reads_next_member; [exact Hk|exact Hcolon|by apply Hr|by apply Hcm|by apply Hr2].
  - intros d n depth d' n' Hst Hs Hn Hdep. rewrite scan_elements_S in Hs. destruct (More d) eqn:Hm; cbn [negb] in Hs.
    2: { injection Hs as <- <-. exists []. simpl. split_and!; try done; try lia. by left. }
    assert (value_position d) as Hpos by (by right; right). apply rbind_Ok in Hs as ([d2 n2] & Hv & Hs).
    apply IHv in Hv as (v & Ha & Hr & Hd2 & -> & Hn2 & Hvd & Hdist); [|done].
    destruct d2 as [r2 s2 k2]. injection Hd2 as -> ->. cbn [dec_rest] in *.
    destruct (value_state _ Hpos Ha) as (Hstk & Harr & _). destruct (Harr Hst) as [Hend Hcomma]. rewrite Hend in Hs.
    apply IHe in Hs as (vs & Hm' & Hst' & Hstk' & -> & Hn' & Hd' & Hdist' & Hreads); [|by right|done|done].
    pose proof (scan_value_depth v) as [Hv0 _]. exists (v :: vs). split_and!; try done.
    + rewrite Hstk'. simpl. done.
    + simpl. fold (elements_nodes vs). lia.
    + simpl. fold (elements_depth vs). lia.
    + right. split_and!.
      * exact Hcomma.
      * intros Hc. destruct (separate_cases d) as [He|[(?&_)|[(?&_)|(?&_)]]]; [done|congruence..].
      * intros HD rest Hrest. simpl in *. replace (depth + 1 - 1) with depth in Hr by lia.
        destruct Hreads as [[-> Hd2]|(Hcm & _ & Hr2)].
        -- rewrite Hd2 in Hrest. simpl in Hrest. eapply reads_last; [by apply Hr|exact Hrest].
        -- eapply reads_next; [by apply Hr|by apply Hcm|by apply Hr2].
Qed.

Lemma separate_start d : dec_state d = tokenArrayStart ∨ dec_state d = tokenObjectStart → separate d = d.
Proof. intros Hs. destruct (separate_cases d) as [He|[(?&_)|[(?&_)|(?&_)]]]; [done|destruct Hs; congruence..]. Qed.

Lemma separate_comma d l : skip_ws (dec_rest d) = comma :: l →
  (dec_state d = tokenArrayComma → separate d = mkDecoder l tokenArrayValue (dec_stack d)) ∧
  (dec_state d = tokenObjectComma → separate d = mkDecoder l tokenObjectKey (dec_stack d)).
Proof. intros Hl. unfold separate. rewrite Hl. by split; intros ->. Qed.

Lemma separate_colon l r s stack : skip_ws r = colon :: l → s = tokenObjectColon →
  separate (mkDecoder r s stack) = mkDecoder l tokenObjectValue stack.
Proof. intros Hl ->. unfold separate. simpl. by rewrite Hl. Qed.

Lemma More_head d a l : skip_ws (dec_rest d) = a :: l → Ascii.eqb a rbracket = false → Ascii.eqb a rbrace = false → More d = true.
Proof. intros Hl H1 H2. unfold More. by rewrite Hl, H1, H2. Qed.

(** Where the next element or member is read. *)
Definition at_element (d : decoder) (l : bytes) : Prop :=
  dec_state d = tokenArrayStart ∧ dec_rest d = l ∨ dec_state d = tokenArrayComma ∧ skip_ws (dec_rest d) = comma :: l.
Definition at_member (d : decoder) (l : bytes) : Prop :=
  dec_state d = tokenObjectStart ∧ dec_rest d = l ∨ dec_state d = tokenObjectComma ∧ skip_ws (dec_rest d) = comma :: l.

Lemma at_element_value d p l v rest : at_element d l → reads p l v rest →
  More d = true ∧ tokenValueAllowed (dec_state (separate d)) = true ∧ dec_rest (separate d) = l ∧
  tokenValueEnd (dec_state (separate d)) = tokenArrayComma ∧ dec_stack (separate d) = dec_stack d.
Proof.
  intros [[Hs <-]|[Hs Hc]] Hr.
  - rewrite separate_start, Hs by auto. destruct (reads_head _ _ _ _ Hr) as (a & l' & Ha & H1 & H2).
    split_and!; try done. by eapply More_head.
  - destruct (separate_comma _ _ Hc) as [He _]. rewrite He by done. split_and!; try done. by eapply More_head.
Qed.

Lemma at_member_key d l k r : at_member d l → parse_string (skip_ws l) = Some (k, r) →
  More d = true ∧ Token d = Ok (TScalar (JStr k), mkDecoder r tokenObjectColon (dec_stack d)).
Proof.
  intros [[Hs <-]|[Hs Hc]] Hk; destruct (parse_string_head _ _ Hk) as [l' Hl].
  - split; [by eapply More_head|]. rewrite (Token_key_complete d k r); rewrite separate_start; auto.
  - destruct (separate_comma _ _ Hc) as [_ He]. split; [by eapply More_head|]. rewrite (Token_key_complete d k r); rewrite He by done; auto.
Qed.

Lemma elements_bounds vs : 0 ≤ elements_nodes vs ∧ 0 ≤ elements_depth vs.
Proof. induction vs as [|v vs IH]; simpl; [done|]. fold (elements_nodes vs) (elements_depth vs). pose proof (scan_value_depth v). lia. Qed.
Lemma members_bounds ms : 0 ≤ members_nodes ms ∧ 0 ≤ members_depth ms.
Proof. induction ms as [|m ms IH]; simpl; [done|]. fold (members_nodes ms) (members_depth ms). pose proof (scan_value_depth m.2). lia. Qed.

Lemma addNode_step n : n + 1 ≤ N → addNode N n = Ok (n + 1).
Proof. intros Hn. by apply addNode_Ok. Qed.

Lemma scan_complete :
  (∀ p l v rest, reads p l v rest → ∀ d n F, tokenValueAllowed (dec_state (separate d)) = true → dec_rest (separate d) = l →
     (2 * length l < F)%nat → n + json_nodes v ≤ N → (0 < json_depth v → p + json_depth v ≤ D) → distinct_members v →
     scanJSONValue D N F d n (p + 1) =
       Ok (mkDecoder rest (tokenValueEnd (dec_state (separate d))) (dec_stack (separate d)), n + json_nodes v)) ∧
  (∀ p l vs rest, reads_elements p l vs rest → ∀ d n F, at_element d l → (S (2 * length l) < F)%nat →
     n + elements_nodes vs ≤ N → p + elements_depth vs ≤ D → elements_distinct vs →
     ∃ r, scan_elements D N F d n p = Ok (mkDecoder r tokenArrayComma (dec_stack d), n + elements_nodes vs) ∧ skip_ws r = rbracket :: rest) ∧
  (∀ p l ms rest, reads_members p l ms rest → ∀ d n F members, at_member d l → (S (2 * length l) < F)%nat →
     n + members_nodes ms ≤ N → p + members_depth ms ≤ D → members_distinct ms →
     NoDup (map fst ms) → (∀ k, k ∈ map fst ms → k ∉ members) →
     ∃ r, scan_members D N F members d n p = Ok (mkDecoder r tokenObjectComma (dec_stack d), n + members_nodes ms) ∧ skip_ws r = rbrace :: rest).
Proof.
  apply reads_mutind.
  - intros p l v rest Hs d n [|F] Ha Hl HF Hn Hd Hdist; [lia|]. rewrite scanJSONValue_S.
    rewrite (Token_value_complete d _ _ Ha (vt_scalar _ v rest ltac:(by rewrite Hl))). cbn [rbind].
    destruct (parse_scalar_plain _ _ _ Hs) as (_ & Hnodes & _). rewrite Hnodes in *. by rewrite addNode_step.
  - intros p l l' rest Hl Hp Hl' d n [|F] Ha Hd HF Hn Hdep Hdist; [lia|]. rewrite scanJSONValue_S. simpl in Hn, Hdep.
    rewrite (Token_value_complete d _ _ Ha (vt_array _ l' ltac:(by rewrite Hd))). cbn [rbind guardE].
    destruct (Z.gtb_spec (p + 1) D); [lia|]. cbn [guardE]. rewrite addNode_step by lia. cbn [rbind].
    change (Ascii.eqb lbracket lbrace) with false. rewrite Ascii.eqb_refl. cbn [andb orb].
    destruct F as [|F]; [pose proof (skip_ws_rest _ _ _ Hl); lia|]. rewrite scan_elements_S.
    destruct (Token_close_complete (mkDecoder l' tokenArrayStart (dec_state (separate d) :: dec_stack (separate d))) rbracket rest
      (dec_state (separate d)) (dec_stack (separate d))) as [Hm Ht]; [left; by auto|done|done|]. rewrite Hm. cbn [negb rbind]. rewrite Ht. done.
  - intros p l l' vs rest Hl Hp He IH d n [|F] Ha Hd HF Hn Hdep Hdist; [lia|]. rewrite scanJSONValue_S. simpl in Hn, Hdep, Hdist.
    fold (elements_nodes vs) in Hn. fold (elements_depth vs) in Hdep. fold (elements_distinct vs) in Hdist. pose proof (elements_bounds vs).
    rewrite (Token_value_complete d _ _ Ha (vt_array _ l' ltac:(by rewrite Hd))). cbn [rbind guardE].
    destruct (Z.gtb_spec (p + 1) D); [lia|]. cbn [guardE]. rewrite addNode_step by lia. cbn [rbind].
    change (Ascii.eqb lbracket lbrace) with false. rewrite Ascii.eqb_refl. cbn [andb orb]. pose proof (skip_ws_rest _ _ _ Hl).
    destruct (IH (mkDecoder l' tokenArrayStart (dec_state (separate d) :: dec_stack (separate d))) (n + 1) F) as (r & -> & Hr); [left; by auto|lia..|done|].
    cbn [rbind dec_stack].
    destruct (Token_close_complete (mkDecoder r tokenArrayComma (dec_state (separate d) :: dec_stack (separate d))) rbracket rest
      (dec_state (separate d)) (dec_stack (separate d))) as [_ Ht]; [left; by auto|done|done|]. rewrite Ht. cbn [rbind].
    rewrite Ascii.eqb_refl. cbn [negb guardE]. simpl. fold (elements_nodes vs). do 2 f_equal. lia.
  - intros p l l' rest Hl Hp Hl' d n [|F] Ha Hd HF Hn Hdep Hdist; [lia|]. rewrite scanJSONValue_S. simpl in Hn, Hdep.
    rewrite (Token_value_complete d _ _ Ha (vt_object _ l' ltac:(by rewrite Hd))). cbn [rbind guardE].
    destruct (Z.gtb_spec (p + 1) D); [lia|]. cbn [guardE]. rewrite addNode_step by lia. cbn [rbind].
    rewrite Ascii.eqb_refl. change (Ascii.eqb lbrace lbracket) with false. cbn [andb orb].
    destruct F as [|F]; [pose proof (skip_ws_rest _ _ _ Hl); lia|]. rewrite scan_members_S.
    destruct (Token_close_complete (mkDecoder l' tokenObjectStart (dec_state (separate d) :: dec_stack (separate d))) rbrace rest
      (dec_state (separate d)) (dec_stack (separate d))) as [Hm Ht]; [right; by auto|done|done|]. rewrite Hm. cbn [negb rbind]. rewrite Ht. done.
  - intros p l l' ms rest Hl Hp He IH d n [|F] Ha Hd HF Hn Hdep Hdist; [lia|]. rewrite scanJSONValue_S. simpl in Hn, Hdep, Hdist.
    fold (members_nodes ms) in Hn. fold (members_depth ms) in Hdep. fold (members_distinct ms) in Hdist. pose proof (members_bounds ms).
    rewrite (Token_value_complete d _ _ Ha (vt_object _ l' ltac:(by rewrite Hd))). cbn [rbind guardE].
    destruct (Z.gtb_spec (p + 1) D); [lia|]. cbn [guardE]. rewrite addNode_step by lia. cbn [rbind].
    rewrite Ascii.eqb_refl. change (Ascii.eqb lbrace lbracket) with false. cbn [andb orb]. pose proof (skip_ws_rest _ _ _ Hl).
    destruct (IH (mkDecoder l' tokenObjectStart (dec_state (separate d) :: dec_stack (separate d))) (n + 1) F ∅) as (r & -> & Hr);
      [left; by auto|lia..|apply Hdist|apply Hdist|set_solver|].
    cbn [rbind dec_stack].
    destruct (Token_close_complete (mkDecoder r tokenObjectComma (dec_state (separate d) :: dec_stack (separate d))) rbrace rest
      (dec_state (separate d)) (dec_stack (separate d))) as [_ Ht]; [right; by auto|done|done|]. rewrite Ht. cbn [rbind].
    rewrite Ascii.eqb_refl. cbn [negb guardE]. simpl. fold (members_nodes ms). do 2 f_equal. lia.
  - intros p l v r rest Hr IH Hs d n [|F] Hat HF Hn Hdep [Hdist _]; [lia|]. rewrite scan_elements_S. simpl in Hn, Hdep.
    destruct (at_element_value _ _ _ _ _ Hat Hr) as (Hm & Ha & Hl & Hend & Hstk). rewrite Hm. cbn [negb].
    pose proof (scan_value_depth v). rewrite (IH d n F Ha Hl) by (try done; lia). cbn [rbind]. rewrite Hend, Hstk. exists r. split; [|done].
    destruct F as [|F]; [lia|]. rewrite scan_elements_S. unfold More. simpl. rewrite Hs. simpl. do 2 f_equal. lia.
  - intros p l v r l' vs rest Hr IH Hs He IHe d n [|F] Hat HF Hn Hdep [Hdist Hdist']; [lia|]. rewrite scan_elements_S. simpl in Hn, Hdep.
    fold (elements_nodes vs) in Hn. fold (elements_depth vs) in Hdep. fold (elements_distinct vs) in Hdist'. pose proof (elements_bounds vs).
    destruct (at_element_value _ _ _ _ _ Hat Hr) as (Hm & Ha & Hl & Hend & Hstk). rewrite Hm. cbn [negb].
    pose proof (scan_value_depth v). rewrite (IH d n F Ha Hl) by (try done; lia). cbn [rbind]. rewrite Hend, Hstk.
    apply (proj1 reads_consume) in Hr. pose proof (skip_ws_rest _ _ _ Hs).
    destruct (IHe (mkDecoder r tokenArrayComma (dec_stack d)) (n + json_nodes v) F) as (r2 & -> & Hr2); [right; by auto|lia..|done|].
    exists r2. split; [|done]. simpl. fold (elements_nodes vs). do 2 f_equal. lia.
  - intros p l k r l' v r' rest Hk Hc Hr IH Hs d n [|F] members Hat HF Hn Hdep [Hdist _] Hnd Hfr; [lia|]. rewrite scan_members_S. simpl in Hn, Hdep, Hdist.
    destruct (at_member_key _ _ _ _ Hat Hk) as [Hm ->]. rewrite Hm. cbn [negb rbind]. pose proof (scan_value_depth v). rewrite addNode_step by lia. cbn [rbind].
    rewrite bool_decide_eq_false_2 by (apply Hfr; by left). cbn [guardE].
    apply parse_string_length in Hk. pose proof (skip_ws_length l). pose proof (skip_ws_rest _ _ _ Hc).
    rewrite (IH (mkDecoder r tokenObjectColon (dec_stack d)) (n + 1) F) by (rewrite ?(separate_colon l') by done; try done; lia).
    rewrite (separate_colon l') by done. cbn [rbind dec_state dec_stack tokenValueEnd]. exists r'. split; [|done].
    destruct F as [|F]; [lia|]. rewrite scan_members_S. unfold More. simpl. rewrite Hs. simpl. do 2 f_equal. lia.
  - intros p l k r l' v r' l2 ms rest Hk Hc Hr IH Hs He IHm d n [|F] members Hat HF Hn Hdep [Hdist Hdist'] Hnd Hfr; [lia|].
    rewrite scan_members_S. simpl in Hn, Hdep, Hdist. fold (members_nodes ms) in Hn. fold (members_depth ms) in Hdep. fold (members_distinct ms) in Hdist'.
    pose proof (members_bounds ms). destruct (at_member_key _ _ _ _ Hat Hk) as [Hm ->]. rewrite Hm. cbn [negb rbind].
    pose proof (scan_value_depth v). rewrite addNode_step by lia. cbn [rbind]. simpl in Hnd. apply NoDup_cons in Hnd as [Hk' Hnd].
    rewrite bool_decide_eq_false_2 by (apply Hfr; by left). cbn [guardE].
    apply parse_string_length in Hk. pose proof (skip_ws_length l). pose proof (skip_ws_rest _ _ _ Hc).
    rewrite (IH (mkDecoder r tokenObjectColon (dec_stack d)) (n + 1) F) by (rewrite ?(separate_colon l') by done; try done; lia).
    rewrite (separate_colon l') by done. cbn [rbind dec_state dec_stack tokenValueEnd].
    apply (proj1 reads_consume) in Hr. pose proof (skip_ws_rest _ _ _ Hs).
    destruct (IHm (mkDecoder r' tokenObjectComma (dec_stack d)) (n + 1 + json_nodes v) F ({[k]} ∪ members)) as (r2 & -> & Hr2);
      [right; by auto|lia..|done|done| |].
    { intros k2 Hk2. assert (k2 ∉ members) by (apply Hfr; by right). intros [->%elem_of_singleton|]%elem_of_union; done. }
    exists r2. split; [|done]. simpl. fold (members_nodes ms). do 2 f_equal. lia.
Qed.
End scan.

(** ** Lemmas: the scanner returns *)

Lemma Token_errors d e : Token d = Err e → e ≠ out_of_fuel.
Proof.
  unfold Token. set (x := separate d). destruct (skip_ws (dec_rest x)) as [|c l]; [intros [= <-]; done|].
  unfold open_token, close_token, guardE. intros Ht ->.
  repeat (case_match; try done); simplify_eq.
Qed.

Lemma Token_EOF d e : Token d = Err e → errors_Is e "EOF" = true → skip_ws (dec_rest (separate d)) = [].
Proof.
  unfold Token. set (x := separate d). destruct (skip_ws (dec_rest x)) as [|c l]; [done|].
  unfold open_token, close_token, guardE. intros Ht He.
  repeat (case_match; try done); simplify_eq.
Qed.

Lemma separate_top r : separate (mkDecoder r tokenTopValue []) = mkDecoder r tokenTopValue [].
Proof. by destruct (separate_cases (mkDecoder r tokenTopValue [])) as [?|[(?&_)|[(?&_)|(?&_)]]]. Qed.

Definition returns (n : nat) (r : result error (decoder * Z)) : Prop :=
  rspec (λ e, e ≠ out_of_fuel) (λ p, (length (dec_rest p.1) ≤ n)%nat) r.

Lemma scan_enough_fuel D N F :
  (∀ d n depth, (2 * length (dec_rest d) < F)%nat → returns (length (dec_rest d) - 1) (scanJSONValue D N F d n depth)) ∧
  (∀ members d n depth, (S (2 * length (dec_rest d)) < F)%nat → returns (length (dec_rest d)) (scan_members D N F members d n depth)) ∧
  (∀ d n depth, (S (2 * length (dec_rest d)) < F)%nat → returns (length (dec_rest d)) (scan_elements D N F d n depth)).
Proof.
  assert (∀ d, rspec (λ e, e ≠ out_of_fuel) (λ p, length (dec_rest p.2) < length (dec_rest d))%nat (Token d)) as Htok.
  { intros d. destruct (Token d) as [[t d']|e] eqn:Ht; simpl; [by eapply Token_consumes|by eapply Token_errors]. }
  assert (∀ n, rspec (λ e, e ≠ out_of_fuel) (λ _, True) (addNode N n)) as Hadd.
  { intros n. unfold addNode. by destruct (n + 1 >? N). }
  induction F as [|F (IHv & IHm & IHe)]; [split_and!; intros; lia|]. unfold returns in *. split_and!.
  - intros d n depth HF. rewrite scanJSONValue_S. eapply rspec_bind; [apply Htok|]. intros [[c|v] d1] _; cbn [snd]; intros Hd1.
    + apply rspec_guard; [done|]. intros _. eapply rspec_bind; [apply Hadd|]. intros n1 _ _.
      eapply (rspec_bind _ (λ p, length (dec_rest p.1) ≤ length (dec_rest d1))%nat).
      { destruct (Ascii.eqb c lbrace); [apply IHm; lia|]. destruct (Ascii.eqb c lbracket); [apply IHe; lia|done]. }
      intros [d2 n2] _; cbn [fst]; intros Hd2. eapply rspec_bind; [apply Htok|]. intros [[c'|v'] d3] _; cbn [snd]; intros Hd3; [|done].
      apply rspec_guard; [done|]. intros _. simpl. lia.
    + eapply rspec_bind; [apply Hadd|]. intros n1 _ _. simpl. lia.
  - intros members d n depth HF. rewrite scan_members_S. destruct (negb (More d)); [simpl; lia|].
    eapply rspec_bind; [apply Htok|]. intros [[c|[]] d1] _; cbn [snd]; intros Hd1; try done.
    eapply rspec_bind; [apply Hadd|]. intros n1 _ _. apply rspec_guard; [done|]. intros _.
    eapply rspec_bind; [apply IHv; lia|]. intros [d2 n2] _; cbn [fst]; intros Hd2.
    eapply rspec_mono; [apply IHm; lia|]. intros [d3 n3]; cbn [fst]. lia.
  - intros d n depth HF. rewrite scan_elements_S. destruct (negb (More d)) eqn:Hm; [simpl; lia|].
    assert (0 < length (dec_rest d))%nat as Hpos.
    { unfold More in Hm. destruct (dec_rest d) eqn:Hr; [done|simpl; lia]. }
    eapply rspec_bind; [apply IHv; lia|]. intros [d2 n2] _; cbn [fst]; intros Hd2.
    eapply rspec_mono; [apply IHe; lia|]. intros [d3 n3]; cbn [fst]. lia.
Qed.

(** ** Properties *)

(** The scan of a provider's message always returns: no input, whatever its
    bytes and the limits, exhausts the fuel that stands for Go's unbounded
    recursion. *)
Theorem json_scan_terminates data maxDepth maxNodes :
  rejectJSONMembersWithLimits data maxDepth maxNodes ≠ Err out_of_fuel.
Proof.
  unfold rejectJSONMembersWithLimits. set (d := mkDecoder data tokenTopValue []).
  pose proof (proj1 (scan_enough_fuel maxDepth maxNodes (scan_fuel data)) d 0 1) as Hs. unfold returns in Hs.
  destruct (scanJSONValue _ _ _ _ _ _) as [[d1 n]|e]; simpl in *.
  - destruct (Token d1) as [p|e] eqn:Ht; [done|]. apply Token_errors in Ht. destruct (negb (errors_Is e "EOF")); simpl; congruence.
  - assert (e ≠ out_of_fuel) by (apply Hs; unfold scan_fuel; lia). congruence.
Qed.

(** What the whole scan accepts. *)
Lemma members_exact data maxDepth maxNodes :
  0 < maxDepth ≤ max_depth →
  rejectJSONMembersWithLimits data maxDepth maxNodes = Ok tt ↔
  ∃ v, parse data = Some v ∧ json_depth v ≤ maxDepth ∧ json_nodes v ≤ maxNodes ∧ distinct_members v.
Proof.
  intros HD. unfold rejectJSONMembersWithLimits. set (d := mkDecoder data tokenTopValue []).
  assert (separate d = d) as Hsep by apply separate_top.
  rewrite rbind_Ok. split.
  - intros ([d1 n] & Hs & Ht). apply scan_sound in Hs as (v & _ & Hr & Hd1 & -> & Hn & Hdep & Hdist); [|by left].
    rewrite Hsep in *. exists v. rewrite parse_exact. pose proof (scan_value_depth v).
    split; [|split; [destruct (Z.le_gt_cases (json_depth v) 0); lia|split; [lia|done]]].
    exists (dec_rest d1). split; [by apply Hr, HD|]. rewrite Hd1 in Ht.
    destruct (Token _) as [|e] eqn:Htok in Ht; [done|]. destruct (errors_Is e "EOF") eqn:He; cbn [negb guardE] in Ht; [|done].
    apply Token_EOF in Htok; [|done]. simpl in Htok. by rewrite separate_top in Htok.
  - intros (v & (rest & Hr & Hrest)%parse_exact & Hdep & Hn & Hdist).
    pose proof (proj1 (scan_complete maxDepth maxNodes) 0 data v rest Hr d 0 (scan_fuel data)) as Hs. rewrite Hsep in Hs.
    eexists. split; [apply Hs; try done; unfold scan_fuel; lia|].
    simpl. unfold Token. rewrite separate_top. simpl. by rewrite Hrest.
Qed.

(** C17. A provider's message is accepted exactly when it is one JSON text
    within the bounds: nothing but white space around one value, whose arrays
    and objects nest at most [maxDepth] deep, that has at most [maxNodes]
    values and member names, and in which no object names a member twice,
    names being compared after their escapes are decoded. *)
Theorem json_members_exact data maxDepth maxNodes :
  0 < maxDepth ≤ max_depth →
  rejectJSONMembersWithLimits data maxDepth maxNodes = Ok tt ↔
  ∃ v, parse data = Some v ∧ json_depth v ≤ maxDepth ∧ json_nodes v ≤ maxNodes ∧ distinct_members v.
Proof. apply members_exact. Qed.

Lemma json_members_exact_witness :
  rejectJSONMembersWithLimits (requote "{'a':[1,{'b':null}]}") 3 7 = Ok tt ∧
  ¬ rejectJSONMembersWithLimits (requote "{'a':[1,{'b':null}]}") 3 5 = Ok tt.
Proof.
  split.
  - apply (json_members_exact (requote "{'a':[1,{'b':null}]}") 3 7); [by vm_compute|].
    eexists. split; [vm_compute; reflexivity|]. split; [by vm_compute|]. split; [by vm_compute|].
    repeat split; repeat constructor; set_solver.
  - intros Hs. apply (json_members_exact (requote "{'a':[1,{'b':null}]}") 3 5) in Hs as (v & Hp & _ & Hn & _); [|by vm_compute].
    vm_compute in Hp. injection Hp as <-. by vm_compute in Hn.
Defined.
