(* ===== verification/ResponseLimit.v ===== *)
(** * Bounding and validating what providers send

    Models [internal/client/response_limit.go], the message validation of
    [json_validation.go] and [response_validation_transport.go]: the readers
    that stand between a provider's output and its decoder and release a frame
    (a line, a server-sent event, a whole response) only when it is within
    the byte limit and valid, and the transport that turns what they find into
    the errors of a request. [validation] is shared by the reader and the
    requests; channels and [sync.Once] are the options they set. *)
From stdpp Require Import relations.
From Stdlib Require Import Ascii String.
From S2P Require Import Prelude GoStrings Limits Sha256 Utf8 Json JsonScan Snapshot Yaml.
Local Open Scope string_scope.
Local Open Scope list_scope.
Local Open Scope Z_scope.

(** ** RPC errors kept in their original bytes *)

Record ProviderRPCError := mkRPCError { pe_Code : Z; pe_Message : string; pe_Data : bytes }.

(** [responseValidation]: [rv_err] is set once, when [done] is closed. *)
Record responseValidation := mkValidation { rv_err : option error; rv_rpcErrors : gmap string ProviderRPCError }.
Definition newResponseValidation : responseValidation := mkValidation None ∅.

Definition validation_fail (v : option responseValidation) (err : error) : option responseValidation :=
  v ← v; Some (match rv_err v with None => mkValidation (Some err) (rv_rpcErrors v) | Some _ => v end).

(** The members of an object after its opening brace, each with the bytes of
    its value, as [json.RawMessage] keeps them. *)
Fixpoint raw_members (fuel : nat) (l : bytes) : option (list (string * bytes)) :=
  match fuel with
  | O => None
  | S fuel =>
      '(k, rest) ← parse_string (skip_ws l);
      match skip_ws rest with
      | c :: rest =>
          if negb (Ascii.eqb c colon) then None else
          let value := skip_ws rest in
          '(_, rest) ← parse_value (S (2 * length value)) 1 value;
          let raw := take (length value - length rest) value in
          match skip_ws rest with
          | b :: rest =>
              if Ascii.eqb b comma then ms ← raw_members fuel rest; Some ((k, raw) :: ms) else Some [(k, raw)]
          | [] => None
          end
      | [] => None
      end
  end.

(** The members of a valid JSON text that is an object or [null]; other
    values do not decode into a struct. *)
Definition raw_object (data : bytes) : option (list (string * bytes)) :=
  match parse data with
  | Some (JObj []) | Some JNull => Some []
  | Some (JObj _) =>
      match skip_ws data with
      | _ :: l => raw_members (length l) l
      | [] => None
      end
  | _ => None
  end.

(** A struct field of type [json.RawMessage]: the last member of that name,
    even if [null]. *)
Definition raw_field (name : string) (members : list (string * bytes)) (current : bytes) : bytes :=
  foldl (λ r m, if names_match name m.1 then m.2 else r) current members.

(** The other fields decode from the value. *)
Definition decoded (members : list (string * bytes)) : list (string * json) :=
  map (λ m, (m.1, default JNull (parse m.2))) members.

(** [Error *struct{...}] of the envelope: [null] clears the pointer, and a
    second object decodes into the first one's struct. *)
Fixpoint error_field (members : list (string * bytes)) (current : option ProviderRPCError) :
    option (option ProviderRPCError) :=
  match members with
  | [] => Some current
  | (k, raw) :: members =>
      if negb (names_match "error" k) then error_field members current
      else match parse raw with
           | Some JNull => error_field members None
           | Some (JObj _) =>
               fields ← raw_object raw;
               let e := default (mkRPCError 0 "" []) current in
               code ← field decode_int "code" (decoded fields) (pe_Code e);
               message ← field decode_string "message" (decoded fields) (pe_Message e);
               error_field members (Some (mkRPCError code message (raw_field "data" fields (pe_Data e))))
           | _ => None
           end
  end.

(** [json.Compact]: white space outside strings is dropped. *)
Fixpoint compact (in_string escaped : bool) (l : bytes) : bytes :=
  match l with
  | [] => []
  | c :: l =>
      if in_string then
        c :: (if escaped then compact true false l
              else if Ascii.eqb c backslash then compact true true l
              else compact (negb (Ascii.eqb c quote)) false l)
      else if is_ws c then compact false false l
      else c :: compact (Ascii.eqb c quote) false l
  end.

Definition canonicalJSON (data : bytes) : option string :=
  _ ← parse data; Some (of_bytes (compact false false data)).

Definition recordRPCError (v : option responseValidation) (data : bytes) : option responseValidation :=
  match v with
  | None => None
  | Some v => Some (default v (
      members ← raw_object data;
      e ← error_field members None;
      rpcErr ← e;
      let id := raw_field "id" members [] in
      guard (id ≠ []);;
      key ← canonicalJSON id;
      Some (mkValidation (rv_err v) (<[key := rpcErr]> (rv_rpcErrors v)))))
  end.

(** [encoded] is the identifier's encoding, [None] when [Marshal] fails. *)
Definition takeRPCError (v : option responseValidation) (encoded : option bytes) :
    option responseValidation * option ProviderRPCError :=
  match v with
  | None => (None, None)
  | Some v =>
      match e ← encoded; canonicalJSON e with
      | None => (Some v, None)
      | Some key => (Some (mkValidation (rv_err v) (delete key (rv_rpcErrors v))), rv_rpcErrors v !! key)
      end
  end.

(** ** One message *)

Definition validateJSONMessage (data : bytes) (v : option responseValidation) : option responseValidation * option error :=
  let trimmed := to_bytes (TrimSpace (of_bytes data)) in
  match trimmed with
  | [] => (v, None)
  | c :: _ =>
      if negb (Ascii.eqb c lbrace) && negb (Ascii.eqb c lbracket) then (v, None)
      else match RejectDuplicateJSONMembers trimmed with
           | Err e => (validation_fail v e, Some e)
           | Ok _ => (recordRPCError v trimmed, None)
           end
  end.

(** ** Server-sent events *)

Fixpoint replace_crlf (l : bytes) : bytes :=
  match l with
  | [] => []
  | c :: l' =>
      match l' with
      | d :: l'' => if Ascii.eqb c CR && Ascii.eqb d NL then NL :: replace_crlf l'' else c :: replace_crlf l'
      | [] => [c]
      end
  end.
Definition normalize_lines (event : bytes) : bytes :=
  map (λ c, if Ascii.eqb c CR then NL else c) (replace_crlf event).

(** The data of a line, if it is a data line. *)
Definition data_line (line : string) : option string :=
  if negb (HasPrefix line "data:") then None
  else
    let data := slice_from line 5 in
    Some (if HasPrefix data " " then slice_from data 1 else data).

Definition event_data (event : bytes) : bytes :=
  to_bytes (Join (omap data_line (Split (of_bytes (normalize_lines event)) NL)) (String NL "")).

Definition validateSSEEvent (event : bytes) (v : option responseValidation) : option responseValidation * option error :=
  validateJSONMessage (event_data event) v.

Definition ErrResponseLimitExceeded : error := Sentinel "downstream response exceeds configured byte limit".
Definition sse_limit (maxBytes : Z) : error := Wrapf "%w: SSE event exceeds %d bytes" [FInt maxBytes] ErrResponseLimitExceeded.

(** What is read from: the bytes to come, the error after them, and whether
    the body has been closed. What the buffer still yields after that is not
    modelled. *)
Record source := mkSource { so_rest : bytes; so_err : error; so_closed : bool }.
Definition closed_at (s : source) (rest : bytes) : source := mkSource rest (so_err s) true.
Definition read_to (s : source) (rest : bytes) : source := mkSource rest (so_err s) (so_closed s).

(** A source with the validation that goes with it. *)
Definition stream : Type := source * option responseValidation.

(** The loop of [readEvent]; [rest] are the bytes the reader still has. *)
Fixpoint read_event (maxBytes : Z) (s : stream) (rest event : bytes) (atLineStart : bool) :
    stream * (bytes * option error) :=
  match rest with
  | [] => ((read_to s.1 [], s.2), (event, Some (so_err s.1)))
  | character :: rest =>
      if zlen event =? maxBytes then ((closed_at s.1 rest, s.2), ([], Some (sse_limit maxBytes)))
      else
        let event := event ++ [character] in
        if negb (Ascii.eqb character CR) && negb (Ascii.eqb character NL) then read_event maxBytes s rest event false
        else
          let line_end rest event :=
            if atLineStart then
              match validateSSEEvent event s.2 with
              | (v, Some e) => ((closed_at s.1 rest, v), ([], Some e))
              | (v, None) => ((read_to s.1 rest, v), (event, None))
              end
            else read_event maxBytes s rest event true in
          match rest with
          | next :: rest' =>
              if Ascii.eqb character CR && Ascii.eqb next NL then
                if zlen event =? maxBytes then ((closed_at s.1 rest, s.2), ([], Some (sse_limit maxBytes)))
                else line_end rest' (event ++ [NL])
              else line_end rest event
          | [] => line_end rest event
          end
  end.

Definition readEvent (maxBytes : Z) (s : stream) : stream * (bytes * option error) :=
  read_event maxBytes s (so_rest s.1) [] true.

(** ** Lines *)

(** [bufio.Reader.ReadSlice('\n')] with its default buffer: a whole line, a
    full buffer, or what is left before the error. *)
Definition buffer_size : nat := 4096.
Inductive slice_end := SliceLine | SliceFull | SliceError.

Fixpoint line_length (l : bytes) : option nat :=
  match l with
  | [] => None
  | c :: l => if Ascii.eqb c NL then Some 1%nat else S <$> line_length l
  end.

Definition ReadSlice (rest : bytes) : bytes * slice_end * bytes :=
  match line_length (take buffer_size rest) with
  | Some n => (take n rest, SliceLine, drop n rest)
  | None =>
      if (buffer_size <=? length rest)%nat then (take buffer_size rest, SliceFull, drop buffer_size rest)
      else (rest, SliceError, [])
  end.

Definition line_limit (maxBytes : Z) : error := Wrapf "%w: stdio frame exceeds %d bytes" [FInt maxBytes] ErrResponseLimitExceeded.

Definition validateLine (line : bytes) (readErr : option error) (s : stream) : stream * (bytes * option error) :=
  match line with
  | [] => (s, ([], readErr))
  | _ =>
      match validateJSONMessage line s.2 with
      | (v, Some e) => ((s.1, v), ([], Some e))
      | (v, None) => ((s.1, v), (line, readErr))
      end
  end.

(** The loop of [readLine]. The fuel bounds the fragments, each of which
    consumes a buffer; [so_closed] here says that [onLimit] has been called. *)
Fixpoint read_line (fuel : nat) (maxBytes : Z) (s : stream) (line : bytes) : stream * (bytes * option error) :=
  match fuel with
  | O => (s, ([], Some out_of_fuel))
  | S fuel =>
      let '(fragment, how, rest) := ReadSlice (so_rest s.1) in
      if zlen line + zlen fragment >? maxBytes
      then ((closed_at s.1 rest, s.2), ([], Some (line_limit maxBytes)))
      else
        let s := (read_to s.1 rest, s.2) in
        let line := line ++ fragment in
        match how with
        | SliceLine => validateLine line None s
        | SliceFull => read_line fuel maxBytes s line
        | SliceError => validateLine line (Some (so_err s.1)) s
        end
  end.

Definition readLine (maxBytes : Z) (s : stream) : stream * (bytes * option error) :=
  read_line (S (length (so_rest s.1))) maxBytes s [].

(** ** Releasing frames *)

(** [sseEventLimitedBody] and [boundedLineReader] around what fetches a frame
    from a stream of any kind. *)
Record framedReader (S : Type) := mkFramed { fr_stream : S; fr_pending : bytes; fr_pendingErr : option error }.
Arguments mkFramed {S}.
Arguments fr_stream {S}.
Arguments fr_pending {S}.
Arguments fr_pendingErr {S}.
Definition newFramed {S} (s : S) : framedReader S := mkFramed s [] None.

Definition framed_Read {S} (next : S → S * (bytes * option error)) (r : framedReader S) (size : nat) :
    framedReader S * (bytes * option error) :=
  let deliver r :=
    (mkFramed (fr_stream r) (drop size (fr_pending r)) (fr_pendingErr r), (take size (fr_pending r), None)) in
  match size with
  | O => (r, ([], None))
  | _ =>
      match fr_pending r with
      | [] =>
          match fr_pendingErr r with
          | Some err => (mkFramed (fr_stream r) [] None, ([], Some err))
          | None =>
              match next (fr_stream r) with
              | (s, ([], err)) => (mkFramed s [] None, ([], err))
              | (s, (frame, err)) => deliver (mkFramed s frame err)
              end
          end
      | _ => deliver r
      end
  end.

Definition sse_Read (maxBytes : Z) := framed_Read (readEvent maxBytes).
Definition line_Read (maxBytes : Z) := framed_Read (readLine maxBytes).

(** ** Whole responses *)

Definition response_limit (maxBytes : Z) : error := Wrapf "%w: response exceeds %d bytes" [FInt maxBytes] ErrResponseLimitExceeded.

Record responseLimitedBody := mkBody {
  bo_reader : reader; bo_validation : option responseValidation; bo_loaded : bool; bo_closed : bool;
  bo_pending : bytes; bo_pendingErr : option error }.

Definition body_load (maxBytes : Z) (b : responseLimitedBody) : responseLimitedBody :=
  match read_limited (bo_reader b) (wrap64 (maxBytes + 1)) with
  | Err e => mkBody (bo_reader b) (bo_validation b) true (bo_closed b) (bo_pending b) (Some e)
  | Ok data =>
      if zlen data >? maxBytes
      then mkBody (bo_reader b) (bo_validation b) true true (bo_pending b) (Some (response_limit maxBytes))
      else match validateJSONMessage data (bo_validation b) with
           | (v, Some e) => mkBody (bo_reader b) v true true (bo_pending b) (Some e)
           | (v, None) => mkBody (bo_reader b) v true (bo_closed b) data (bo_pendingErr b)
           end
  end.

Definition body_Read (maxBytes : Z) (b : responseLimitedBody) (size : nat) : responseLimitedBody * (bytes * option error) :=
  match size with
  | O => (b, ([], None))
  | _ =>
      let b := if bo_loaded b then b else body_load maxBytes b in
      match bo_pending b, bo_pendingErr b with
      | [], Some e => (mkBody (bo_reader b) (bo_validation b) (bo_loaded b) (bo_closed b) [] None, ([], Some e))
      | [], None => (b, ([], Some EOF))
      | p, _ => (mkBody (bo_reader b) (bo_validation b) (bo_loaded b) (bo_closed b) (drop size p) (bo_pendingErr b), (take size p, None))
      end
  end.

(** [RoundTrip] chooses among them by the media type and the declared length. *)
Inductive limitedBody := BodySSE (r : framedReader stream) | BodyWhole (b : responseLimitedBody).

Definition content_limit (contentLength maxBytes : Z) : error :=
  Wrapf "%w: content length %d exceeds %d bytes" [FInt contentLength; FInt maxBytes] ErrResponseLimitExceeded.

Definition limit_response (maxBytes : Z) (mediaType : string) (contentLength : Z) (body : reader) (v : option responseValidation) :
    result error limitedBody :=
  if String.eqb mediaType "text/event-stream"
  then Ok (BodySSE (newFramed (mkSource (rd_content body) (default EOF (rd_err body)) false, v)))
  else
    fail_if contentLength >? maxBytes with content_limit contentLength maxBytes else
    Ok (BodyWhole (mkBody body v false false [] None)).

(** ** Specification: the frames a stream is cut into *)

(** The length of the first event: up to the first empty line, lines ending
    in a carriage return, a line feed or both. *)
Fixpoint event_length (atLineStart : bool) (l : bytes) : option nat :=
  match l with
  | [] => None
  | c :: l =>
      if negb (Ascii.eqb c CR) && negb (Ascii.eqb c NL) then S <$> event_length false l
      else
        let single := if atLineStart then Some 1%nat else S <$> event_length true l in
        match l with
        | d :: l' =>
            if Ascii.eqb c CR && Ascii.eqb d NL
            then if atLineStart then Some 2%nat else (λ n, S (S n)) <$> event_length true l'
            else single
        | [] => single
        end
  end.

Section released.
(** How to find the first frame, how a complete and a last, unterminated
    frame are checked, and the errors. *)
Context (cut : bytes → option nat).
Context (check check_last : bytes → option responseValidation → option responseValidation * option error).
Context (maxBytes : Z) (limit err : error).

(** [released v rest frames e v']: of the stream [rest] exactly [frames] are
    released, then [e] is reported. *)
Inductive released : option responseValidation → bytes → list bytes → error → option responseValidation → Prop :=
| released_invalid v rest n e v' :
    cut rest = Some n → Z.of_nat n ≤ maxBytes → check (take n rest) v = (v', Some e) → released v rest [] e v'
| released_long v rest n :
    cut rest = Some n → maxBytes < Z.of_nat n → released v rest [] limit v
| released_frame v rest n v1 frames e v' :
    cut rest = Some n → Z.of_nat n ≤ maxBytes → check (take n rest) v = (v1, None) →
    released v1 (drop n rest) frames e v' → released v rest (take n rest :: frames) e v'
| released_long_last v rest :
    cut rest = None → maxBytes < zlen rest → released v rest [] limit v
| released_invalid_last v rest e v' :
    cut rest = None → zlen rest ≤ maxBytes → check_last rest v = (v', Some e) → released v rest [] e v'
| released_last v rest v' :
    cut rest = None → zlen rest ≤ maxBytes → check_last rest v = (v', None) →
    released v rest (match rest with [] => [] | _ => [rest] end) err v'.

Lemma released_prefix v rest frames e v' :
  released v rest frames e v' → (∃ tail, rest = mjoin frames ++ tail) ∧ Forall (λ f, zlen f ≤ maxBytes) frames.
Proof.
  induction 1 as [v rest| |v rest n v1 frames e v' Hn Hmax _ _ [[tail Ht] IH]| | |v rest v' _ Hmax _]; try (split; [by eexists|constructor]).
  - split.
    + exists tail. simpl. by rewrite <-app_assoc, <-Ht, take_drop.
    + constructor; [|done]. rewrite zlen_take. lia.
  - destruct rest as [|c l]; [split; [by exists []|constructor]|]. split; [exists []; simpl; by rewrite !app_nil_r|by constructor].
Qed.
End released.

(** A stream read frame by frame: its frames and the error after them. *)
Inductive yields {S} (next : S → S * (bytes * option error)) : S → list bytes → error → S → Prop :=
| yields_error s s' e : next s = (s', ([], Some e)) → yields next s [] e s'
| yields_last s s' f e : f ≠ [] → next s = (s', (f, Some e)) → yields next s [f] e s'
| yields_frame s s1 f fs e s' :
    f ≠ [] → next s = (s1, (f, None)) → yields next s1 fs e s' → yields next s (f :: fs) e s'.

(** A consumer that reads with buffers of the given sizes, until an error:
    the reader afterwards, what has been got, and the error. *)
Fixpoint drain {S} (read : framedReader S → nat → framedReader S * (bytes * option error)) (r : framedReader S) (sizes : list nat) :
    framedReader S * (bytes * option error) :=
  match sizes with
  | [] => (r, ([], None))
  | size :: sizes =>
      let '(r', (out, err)) := read r size in
      match err with
      | Some e => (r', (out, Some e))
      | None => let '(r', (more, err)) := drain read r' sizes in (r', (out ++ more, err))
      end
  end.
Definition consume {S} (read : framedReader S → nat → framedReader S * (bytes * option error)) (r : framedReader S) (sizes : list nat) :
    bytes * option error := (drain read r sizes).2.

(** What is still to be delivered, and the stream in the end. *)
Inductive remaining {S} (next : S → S * (bytes * option error)) : framedReader S → bytes → error → S → Prop :=
| remaining_frames s p fs e s' : yields next s fs e s' → remaining next (mkFramed s p None) (p ++ mjoin fs) e s'
| remaining_last s p e : remaining next (mkFramed s p (Some e)) p e s.

Lemma framed_Read_spec {A} (next : A → A * (bytes * option error)) r rest e s' size :
  remaining next r rest e s' → (0 < size)%nat →
  match framed_Read next r size with
  | (r', (out, None)) => out ≠ [] ∧ ∃ rest', rest = out ++ rest' ∧ remaining next r' rest' e s'
  | (r', (out, Some err)) => err = e ∧ out = [] ∧ rest = [] ∧ fr_stream r' = s'
  end.
Proof.
  intros Hr Hs. destruct size as [|k]; [lia|].
  assert (∀ s c p err rest2, (∀ q, remaining next (mkFramed s q err) (q ++ rest2) e s') →
    take (S k) (c :: p) ≠ [] ∧ ∃ rest', (c :: p) ++ rest2 = take (S k) (c :: p) ++ rest' ∧
      remaining next (mkFramed s (drop (S k) (c :: p)) err) rest' e s') as Hdeliver.
  { intros s c p err rest2 Hq. split; [done|]. exists (drop (S k) (c :: p) ++ rest2). by rewrite app_assoc, take_drop. }
  destruct Hr as [s p fs e s' Hy|s p e]; unfold framed_Read; cbn [fr_pending fr_pendingErr fr_stream].
  - destruct p as [|c p].
    + simpl. destruct Hy as [s s' e Hn|s s' f e Hf Hn|s s1 f fs e s' Hf Hn Hy]; rewrite Hn; [done|..].
      * destruct f as [|c f]; [done|]. cbn [fr_pending fr_pendingErr fr_stream].
        destruct (Hdeliver s' c f (Some e) []) as [H1 H2]; [intros q; rewrite app_nil_r; constructor|].
        split; [done|]. simpl. rewrite app_nil_r. by rewrite app_nil_r in H2.
      * destruct f as [|c f]; [done|]. cbn [fr_pending fr_pendingErr fr_stream].
        apply (Hdeliver s1 c f None (mjoin fs)). intros q. by econstructor.
    + apply (Hdeliver s c p None (mjoin fs)). intros q. by econstructor.
  - destruct p as [|c p]; [done|]. destruct (Hdeliver s c p (Some e) []) as [H1 H2]; [intros q; rewrite app_nil_r; constructor|].
    split; [done|]. by rewrite app_nil_r in H2.
Qed.

Lemma drain_spec {A} (next : A → A * (bytes * option error)) sizes : ∀ r rest e s',
  remaining next r rest e s' → Forall (λ n, 0 < n)%nat sizes →
  match drain (framed_Read next) r sizes with
  | (r', (out, Some err)) => err = e ∧ out = rest ∧ fr_stream r' = s'
  | (_, (out, None)) => (length sizes ≤ length out)%nat ∧ ∃ rest', rest = out ++ rest'
  end.
Proof.
  induction sizes as [|n sizes IH]; intros r rest e s' Hr Hs; simpl; [split; [lia|by exists rest]|].
  apply Forall_cons in Hs as [Hn Hs]. pose proof (framed_Read_spec next r rest e s' n Hr Hn) as Hstep.
  destruct (framed_Read next r n) as [r' [out [err|]]].
  - by destruct Hstep as (-> & -> & -> & ->).
  - destruct Hstep as (Hout & rest1 & -> & Hr1). pose proof (IH r' rest1 e s' Hr1 Hs) as Hc.
    destruct (drain _ r' sizes) as [r2 [more [err|]]].
    + destruct Hc as (-> & -> & ->). done.
    + destruct Hc as [Hl (rest2 & ->)]. rewrite length_app. destruct out; [done|]. simpl. split; [lia|]. exists rest2. by rewrite app_assoc.
Qed.

(** ** Lemmas: fetching an event *)

Definition event_result (s : stream) (rest frame : bytes) : stream * (bytes * option error) :=
  match validateSSEEvent frame s.2 with
  | (v, Some e) => ((closed_at s.1 rest, v), ([], Some e))
  | (v, None) => ((read_to s.1 rest, v), (frame, None))
  end.
Definition limited (s : stream) (e : error) (r : stream * (bytes * option error)) : Prop :=
  ∃ rest, r = ((closed_at s.1 rest, s.2), ([], Some e)).

(** [read_event] on what is left, given the length of the event's rest. *)
Definition event_spec (maxBytes : Z) (s : stream) (rest event : bytes) (len : option nat) (r : stream * (bytes * option error)) : Prop :=
  match len with
  | Some n =>
      if zlen event + Z.of_nat n <=? maxBytes then r = event_result s (drop n rest) (event ++ take n rest)
      else limited s (sse_limit maxBytes) r
  | None =>
      if zlen event + zlen rest <=? maxBytes then r = ((read_to s.1 [], s.2), (event ++ rest, Some (so_err s.1)))
      else limited s (sse_limit maxBytes) r
  end.

Lemma event_spec_step maxBytes s c rest event len r :
  event_spec maxBytes s rest (event ++ [c]) len r → event_spec maxBytes s (c :: rest) event (S <$> len) r.
Proof.
  unfold event_spec. destruct len as [n|]; simpl; rewrite zlen_app; change (zlen [c]) with 1.
  - rewrite <-app_assoc. replace (zlen event + Z.of_nat (S n)) with (zlen event + 1 + Z.of_nat n) by lia. done.
  - rewrite <-app_assoc. assert (zlen (c :: rest) = 1 + zlen rest) as -> by (unfold zlen; simpl; lia).
    by rewrite Z.add_assoc.
Qed.

Lemma event_spec_end maxBytes s rest event r :
  zlen event ≤ maxBytes → r = event_result s rest event → event_spec maxBytes s rest event (Some 0%nat) r.
Proof.
  intros Hl ->. unfold event_spec. destruct (Z.leb_spec (zlen event + Z.of_nat 0) maxBytes); [|lia].
  rewrite take_0, drop_0. by rewrite app_nil_r.
Qed.

Lemma event_spec_limit maxBytes s c rest event len :
  zlen event = maxBytes → (∀ n, len = Some n → (0 < n)%nat) →
  ∀ r, limited s (sse_limit maxBytes) r → event_spec maxBytes s (c :: rest) event len r.
Proof.
  intros Hl Hn r Hr. unfold event_spec. destruct len as [n|].
  - specialize (Hn n eq_refl). destruct (Z.leb_spec (zlen event + Z.of_nat n) maxBytes); [lia|done].
  - destruct (Z.leb_spec (zlen event + zlen (c :: rest)) maxBytes); [unfold zlen in *; simpl in *; lia|done].
Qed.

Lemma event_length_pos b l n : event_length b l = Some n → (0 < n ≤ length l)%nat.
Proof.
  revert b n. induction l as [l IH] using (induction_ltof1 _ (@length _)); unfold ltof in IH. intros b n.
  destruct l as [|c l]; [done|]. simpl. destruct (negb _ && negb _).
  { destruct (event_length false l) as [m|] eqn:Hm; [|done]. intros [= <-]. apply IH in Hm; simpl; lia. }
  assert (∀ n, (if b then Some 1%nat else S <$> event_length true l) = Some n → (0 < n ≤ S (length l))%nat) as Hsingle.
  { intros k. destruct b; [intros [= <-]; lia|]. destruct (event_length true l) as [m|] eqn:Hm; [|done]. intros [= <-]. apply IH in Hm; simpl; lia. }
  destruct l as [|d l']; [apply Hsingle|]. destruct (_ && _); [|apply Hsingle]. destruct b; [intros [= <-]; simpl; lia|].
  destruct (event_length true l') as [m|] eqn:Hm; [|done]. intros [= <-]. apply IH in Hm; simpl; lia.
Qed.

Lemma read_event_spec maxBytes rest : ∀ s event b,
  zlen event ≤ maxBytes → event_spec maxBytes s rest event (event_length b rest) (read_event maxBytes s rest event b).
Proof.
  induction rest as [rest IH] using (induction_ltof1 _ (@length _)); unfold ltof in IH. intros s event b Hl.
  destruct rest as [|c rest].
  { simpl. unfold event_spec. rewrite app_nil_r. change (zlen (@nil ascii)) with 0. destruct (Z.leb_spec (zlen event + 0) maxBytes); [done|lia]. }
  cbn [read_event]. destruct (Z.eqb_spec (zlen event) maxBytes) as [He|He].
  { apply event_spec_limit; [done|intros n Hn; apply event_length_pos in Hn; lia|by eexists]. }
  assert (zlen (event ++ [c]) ≤ maxBytes) as Hl1 by (rewrite zlen_app; change (zlen [c]) with 1; lia). cbn [event_length].
  destruct (negb (Ascii.eqb c CR) && negb (Ascii.eqb c NL)) eqn:Hc.
  { apply event_spec_step, IH; [simpl; lia|done]. }
  assert (event_spec maxBytes s (c :: rest) event (if b then Some 1%nat else S <$> event_length true rest)
    (if b then match validateSSEEvent (event ++ [c]) s.2 with
               | (v, Some e) => ((closed_at s.1 rest, v), ([], Some e))
               | (v, None) => ((read_to s.1 rest, v), (event ++ [c], None)) end
     else read_event maxBytes s rest (event ++ [c]) true)) as Hsingle.
  { destruct b.
    - apply (event_spec_step maxBytes s c rest event (Some 0%nat)). by apply event_spec_end.
    - apply event_spec_step, IH; [simpl; lia|done]. }
  destruct rest as [|d rest]; [exact Hsingle|]. destruct (Ascii.eqb c CR && Ascii.eqb d NL) eqn:Hcd; [|exact Hsingle].
  apply andb_true_iff in Hcd as [_ Hd%Ascii.eqb_eq]. subst d.
  destruct (Z.eqb_spec (zlen (event ++ [c])) maxBytes) as [He1|He1].
  { destruct b.
    - apply (event_spec_step maxBytes s c _ event (Some 1%nat)). apply event_spec_limit; [done|intros n [= <-]; lia|by eexists].
    - replace ((λ n, S (S n)) <$> event_length true rest) with (S <$> (S <$> event_length true rest)) by (by destruct (event_length true rest)).
      apply event_spec_step, event_spec_limit; [done| |by eexists]. intros n Hn. apply fmap_Some in Hn as (m & _ & ->). lia. }
  assert (zlen ((event ++ [c]) ++ [NL]) ≤ maxBytes) as Hl2 by (rewrite zlen_app; change (zlen [NL]) with 1; lia).
  destruct b.
  - apply (event_spec_step maxBytes s c _ event (Some 1%nat)), (event_spec_step maxBytes s NL _ _ (Some 0%nat)). by apply event_spec_end.
  - replace ((λ n, S (S n)) <$> event_length true rest) with (S <$> (S <$> event_length true rest)) by (by destruct (event_length true rest)).
    apply event_spec_step, event_spec_step, IH; [simpl; lia|done].
Qed.

Lemma readEvent_spec maxBytes s : 0 ≤ maxBytes →
  event_spec maxBytes s (so_rest s.1) [] (event_length true (so_rest s.1)) (readEvent maxBytes s).
Proof. intros Hm. by apply read_event_spec. Qed.

(** ** Lemmas: fetching a line *)

Lemma line_length_pos l n : line_length l = Some n → (0 < n ≤ length l)%nat.
Proof.
  revert n. induction l as [|c l IH]; simpl; intros n; [done|]. destruct (Ascii.eqb c NL); [intros [= <-]; lia|].
  destruct (line_length l) as [m|]; [|done]. intros [= <-]. specialize (IH m eq_refl). lia.
Qed.

Lemma line_length_take k l n : line_length (take k l) = Some n → line_length l = Some n ∧ (n ≤ k)%nat.
Proof.
  revert l n. induction k as [|k IH]; intros l n; [done|]. destruct l as [|c l]; [done|]. simpl. destruct (Ascii.eqb c NL); [intros [= <-]; split; [done|lia]|].
  destruct (line_length (take k l)) as [m|] eqn:Hm; [|done]. intros [= <-]. apply IH in Hm as [-> ?]. split; [done|lia].
Qed.

Lemma line_length_drop k l : line_length (take k l) = None → line_length l = Nat.add (min k (length l)) <$> line_length (drop k l).
Proof.
  revert l. induction k as [|k IH]; intros l; [intros _; rewrite drop_0; simpl; by destruct (line_length l)|]. destruct l as [|c l]; [done|]. simpl.
  destruct (Ascii.eqb c NL); [done|]. destruct (line_length (take k l)) eqn:Hm; [done|]. intros _. rewrite IH by done.
  by destruct (line_length (drop k l)).
Qed.

Definition line_result (s : stream) (rest frame : bytes) (err : option error) : stream * (bytes * option error) :=
  validateLine frame err (read_to s.1 rest, s.2).

Lemma buffer_size_pos : (0 < buffer_size)%nat.
Proof. apply Nat.ltb_lt. vm_compute. reflexivity. Qed.

Lemma read_line_spec maxBytes fuel : ∀ s line,
  (length (so_rest s.1) < fuel)%nat → zlen line ≤ maxBytes →
  match line_length (so_rest s.1) with
  | Some n =>
      if zlen line + Z.of_nat n <=? maxBytes
      then read_line fuel maxBytes s line = line_result s (drop n (so_rest s.1)) (line ++ take n (so_rest s.1)) None
      else limited s (line_limit maxBytes) (read_line fuel maxBytes s line)
  | None =>
      if zlen line + zlen (so_rest s.1) <=? maxBytes
      then read_line fuel maxBytes s line = line_result s [] (line ++ so_rest s.1) (Some (so_err s.1))
      else limited s (line_limit maxBytes) (read_line fuel maxBytes s line)
  end.
Proof.
  induction fuel as [|fuel IH]; intros [[rest err closed] v] line Hf Hl; cbn [fst so_rest so_err] in *; [lia|]. cbn [read_line fst so_rest]. unfold ReadSlice.
  destruct (line_length (take buffer_size rest)) as [n|] eqn:Hn.
  - apply line_length_take in Hn as [Hn _]. rewrite Hn. pose proof (line_length_pos _ _ Hn) as Hp. rewrite zlen_take.
    rewrite (Z.min_l (Z.of_nat n)) by (unfold zlen; lia).
    rewrite Z.gtb_ltb, Z.ltb_antisym. destruct (Z.leb_spec (zlen line + Z.of_nat n) maxBytes); cbn [negb]; [|by eexists].
    done.
  - destruct (Nat.leb_spec buffer_size (length rest)) as [Hb|Hb].
    + assert (zlen (take buffer_size rest) = Z.of_nat buffer_size) as Hlen by (unfold zlen; rewrite length_take; lia).
      rewrite Hlen. rewrite (line_length_drop _ _ Hn), (Nat.min_l buffer_size) by done.
      destruct (Z.gtb_spec (zlen line + Z.of_nat buffer_size) maxBytes) as [Hx|Hx].
      * destruct (line_length (drop buffer_size rest)) as [m|]; cbn [fmap option_fmap option_map].
        -- destruct (Z.leb_spec (zlen line + Z.of_nat (buffer_size + m)) maxBytes); [lia|]. by eexists.
        -- destruct (Z.leb_spec (zlen line + zlen rest) maxBytes); [unfold zlen in *; lia|]. by eexists.
      * pose proof (IH (mkSource (drop buffer_size rest) err closed, v) (line ++ take buffer_size rest)) as Hrec. cbn [fst so_rest so_err snd] in Hrec.
        rewrite zlen_app, Hlen, length_drop, <-app_assoc in Hrec.
        assert (length rest - buffer_size < fuel)%nat as Hlt by (pose proof buffer_size_pos; lia).
        specialize (Hrec Hlt Hx). destruct (line_length (drop buffer_size rest)) as [m|]; cbn [fmap option_fmap option_map].
        -- rewrite Nat2Z.inj_add, Z.add_assoc. rewrite <-app_assoc, take_take_drop, drop_drop in Hrec. exact Hrec.
        -- rewrite take_drop in Hrec. assert (zlen (drop buffer_size rest) = zlen rest - Z.of_nat buffer_size) as Hd
             by (unfold zlen; rewrite length_drop; lia). rewrite Hd in Hrec.
           replace (zlen line + Z.of_nat buffer_size + (zlen rest - Z.of_nat buffer_size)) with (zlen line + zlen rest) in Hrec by lia. exact Hrec.
    + assert (line_length rest = None) as -> by (rewrite take_ge in Hn by lia; done).
      rewrite Z.gtb_ltb, Z.ltb_antisym. destruct (Z.leb_spec (zlen line + zlen rest) maxBytes); cbn [negb]; [|by eexists]. done.
Qed.

(** ** Lemmas: whole streams *)

Definition unchecked (_ : bytes) (v : option responseValidation) : option responseValidation * option error := (v, None).
Definition check_line (line : bytes) (v : option responseValidation) : option responseValidation * option error :=
  match line with [] => (v, None) | _ => validateJSONMessage line v end.

Definition sse_released (maxBytes : Z) (err : error) :=
  released (event_length true) validateSSEEvent unchecked maxBytes (sse_limit maxBytes) err.
Definition line_released (maxBytes : Z) (err : error) :=
  released line_length check_line check_line maxBytes (line_limit maxBytes) err.

Lemma take_nonempty (rest : bytes) n : (0 < n ≤ length rest)%nat → take n rest ≠ [].
Proof. intros Hn Ht. apply (f_equal length) in Ht. rewrite length_take in Ht. simpl in Ht. lia. Qed.

Lemma sse_stream maxBytes : 0 ≤ maxBytes → ∀ k s, (length (so_rest s.1) ≤ k)%nat →
  ∃ fs e s', yields (readEvent maxBytes) s fs e s' ∧ sse_released maxBytes (so_err s.1) s.2 (so_rest s.1) fs e s'.2.
Proof.
  intros Hmax. induction k as [k IH] using lt_wf_ind. intros s Hk. pose proof (readEvent_spec maxBytes s Hmax) as Hs. unfold event_spec in Hs.
  change (zlen (@nil ascii)) with 0 in Hs. rewrite !Z.add_0_l in Hs.
  destruct (event_length true (so_rest s.1)) as [n|] eqn:Hn.
  - rewrite Z.add_0_l in Hs. destruct (Z.leb_spec (Z.of_nat n) maxBytes) as [Hle|Hgt].
    + pose proof (event_length_pos _ _ _ Hn) as Hp. pose proof (take_nonempty _ _ Hp) as Hne. unfold event_result in Hs. cbn [app] in Hs.
      destruct (validateSSEEvent (take n (so_rest s.1)) s.2) as [v [e|]] eqn:Hv.
      * exists [], e, (closed_at s.1 (drop n (so_rest s.1)), v). split; [by constructor|]. by eapply released_invalid.
      * destruct (IH (length (drop n (so_rest s.1))) ltac:(rewrite length_drop; lia) (read_to s.1 (drop n (so_rest s.1)), v) ltac:(done))
          as (fs & e & s' & Hy & Hr).
        exists (take n (so_rest s.1) :: fs), e, s'. split; [by eapply yields_frame|]. by eapply released_frame.
    + destruct Hs as [r Hs]. exists [], (sse_limit maxBytes), (closed_at s.1 r, s.2). split; [by constructor|]. by eapply released_long.
  - destruct (Z.leb_spec (zlen (so_rest s.1)) maxBytes) as [Hle|Hgt].
    + cbn [app] in Hs. exists (match so_rest s.1 with [] => [] | _ => [so_rest s.1] end), (so_err s.1), (read_to s.1 [], s.2). split.
      * destruct (so_rest s.1) as [|c l] eqn:Hr; [by constructor|by apply yields_last].
      * by apply released_last.
    + destruct Hs as [r Hs]. exists [], (sse_limit maxBytes), (closed_at s.1 r, s.2). split; [by constructor|]. by eapply released_long_last.
Qed.

Lemma line_stream maxBytes : 0 ≤ maxBytes → ∀ k s, (length (so_rest s.1) ≤ k)%nat →
  ∃ fs e s', yields (readLine maxBytes) s fs e s' ∧ line_released maxBytes (so_err s.1) s.2 (so_rest s.1) fs e s'.2.
Proof.
  intros Hmax. induction k as [k IH] using lt_wf_ind. intros s Hk.
  pose proof (read_line_spec maxBytes (S (length (so_rest s.1))) s [] ltac:(lia) ltac:(done)) as Hs. fold (readLine maxBytes s) in Hs.
  change (zlen (@nil ascii)) with 0 in Hs. rewrite !Z.add_0_l in Hs. unfold line_result, validateLine in Hs. cbn [app fst snd] in Hs.
  destruct (line_length (so_rest s.1)) as [n|] eqn:Hn.
  - rewrite Z.add_0_l in Hs. destruct (Z.leb_spec (Z.of_nat n) maxBytes) as [Hle|Hgt].
    + pose proof (line_length_pos _ _ Hn) as Hp. pose proof (take_nonempty _ _ Hp) as Hne.
      assert (check_line (take n (so_rest s.1)) s.2 = validateJSONMessage (take n (so_rest s.1)) s.2) as Hcheck
        by (unfold check_line; by destruct (take n (so_rest s.1))).
      destruct (take n (so_rest s.1)) as [|c l] eqn:Ht; [done|]. rewrite <-Ht in *.
      destruct (validateJSONMessage (take n (so_rest s.1)) s.2) as [v [e|]] eqn:Hv.
      * exists [], e, (read_to s.1 (drop n (so_rest s.1)), v). split; [by constructor|]. by eapply released_invalid.
      * destruct (IH (length (drop n (so_rest s.1))) ltac:(rewrite length_drop; lia) (read_to s.1 (drop n (so_rest s.1)), v) ltac:(done))
          as (fs & e & s' & Hy & Hr).
        exists (take n (so_rest s.1) :: fs), e, s'. split; [by eapply yields_frame|]. by eapply released_frame.
    + destruct Hs as [r Hs]. exists [], (line_limit maxBytes), (closed_at s.1 r, s.2). split; [by constructor|]. by eapply released_long.
  - destruct (Z.leb_spec (zlen (so_rest s.1)) maxBytes) as [Hle|Hgt].
    + destruct (so_rest s.1) as [|c l] eqn:Hr.
      * exists [], (so_err s.1), (read_to s.1 [], s.2). split; [by constructor|].
        by apply (released_last line_length check_line check_line maxBytes (line_limit maxBytes) (so_err s.1) s.2 []).
      * destruct (validateJSONMessage (c :: l) s.2) as [v [e|]] eqn:Hv.
        -- exists [], e, (read_to s.1 [], v). split; [by constructor|]. by eapply released_invalid_last.
        -- exists [c :: l], (so_err s.1), (read_to s.1 [], v). split; [by apply yields_last|].
           by apply (released_last line_length check_line check_line maxBytes (line_limit maxBytes) (so_err s.1) s.2 (c :: l)).
    + destruct Hs as [r Hs]. exists [], (line_limit maxBytes), (closed_at s.1 r, s.2). split; [by constructor|]. by eapply released_long_last.
Qed.

(** ** Properties *)

(** What a consumer with buffers of the given sizes sees of a stream that is
    cut into [frames] followed by [e]: the frames' bytes in order, all of them
    before [e], and at least a byte or [e] for every buffer. *)
Definition delivered (frames : list bytes) (e : error) (sizes : list nat) (got : bytes * option error) : Prop :=
  match got with
  | (out, Some err) => err = e ∧ out = mjoin frames
  | (out, None) => (length sizes ≤ length out)%nat ∧ out `prefix_of` mjoin frames
  end.

Lemma frames_delivered {A} (next : A → A * (bytes * option error)) s frames e s' sizes :
  yields next s frames e s' → Forall (λ n, 0 < n)%nat sizes →
  delivered frames e sizes (consume (framed_Read next) (newFramed s) sizes).
Proof.
  intros Hy Hs. pose proof (drain_spec next sizes (newFramed s) (mjoin frames) e s' (remaining_frames next s [] frames e s' Hy) Hs) as Hc.
  unfold delivered, consume. destruct (drain _ _ _) as [r [out [err|]]]; cbn [snd]; [by destruct Hc as (-> & -> & _)|].
  destruct Hc as [Hl [rest Hr]]. split; [done|by exists rest].
Qed.


(** ** Witnesses *)

Definition demo_stream (text : string) : stream := (mkSource (requote text) EOF false, Some newResponseValidation).
Definition LF2 : string := String NL (String NL "").
Definition demo_events : stream := demo_stream ("data: {'id':1}" +:+ LF2 +:+ "data: {'a':1,'a':2}" +:+ LF2).


(** An event that the stream ends within is released unchecked. *)
Example unterminated_event :
  consume (sse_Read 64) (newFramed (demo_stream "data: {'a':1,'a':2}")) [100; 100]%nat =
    (requote "data: {'a':1,'a':2}", Some EOF).
Proof. by vm_compute. Qed.
