(* ===== verification/ProviderEvents.v ===== *)
(** * Provider notifications and validated requests

    Models [internal/client/provider_events.go] and
    [response_validation_transport.go]: the bounded queue between the reader
    of a provider's messages and the goroutines that handle its
    notifications, as a step relation over the critical sections and channel
    operations of all of them, and the transport's requests, which race an
    answer against the connection's validation and the caller's context. *)
From stdpp Require Import relations.
From Stdlib Require Import Ascii String.
From S2P Require Import Prelude GoStrings Limits Json JsonScan ResponseLimit.
Local Open Scope string_scope.
Local Open Scope list_scope.
Local Open Scope Z_scope.

Definition ErrProviderEventOverflow : error := Sentinel "provider event queue overflow".
Definition maxProviderQueuedEvents : nat := 256.
Definition maxProviderQueuedEventBytes : Z := 16777216.
Definition maxProviderEventHandlers : nat := 16.

(** ** The event queue *)

Section queue.
(** Notifications are mcp-go's; [marshal] is their encoding. *)
Context {N : Type} (marshal : N → result error bytes).

Record queuedProviderEvent := mkEvent { ev_notification : N; ev_bytes : Z }.

(** The fields of the Go type, and what its goroutines hold: the events
    received from the channel but not yet accounted for, and those being
    handled. [pq_overflows] counts the calls of [overflow]; [pq_accepted] and
    [pq_finished] are the history of accepted and of handled events. *)
Record providerEventQueue := mkQueue {
  pq_validation : option responseValidation;
  pq_queue : list queuedProviderEvent;
  pq_done : bool;
  pq_started : bool;
  pq_overflowed : bool;
  pq_overflows : nat;
  pq_queuedBytes : Z;
  pq_handler : bool;
  pq_received : list queuedProviderEvent;
  pq_running : list queuedProviderEvent;
  pq_accepted : list queuedProviderEvent;
  pq_finished : list queuedProviderEvent;
}.

Definition newProviderEventQueue (v : option responseValidation) : providerEventQueue :=
  mkQueue v [] false false false 0 0 false [] [] [] [].

Definition queue_start (q : providerEventQueue) : providerEventQueue :=
  mkQueue (pq_validation q) (pq_queue q) (pq_done q) true (pq_overflowed q) (pq_overflows q) (pq_queuedBytes q) (pq_handler q)
    (pq_received q) (pq_running q) (pq_accepted q) (pq_finished q).
Definition queue_stop (q : providerEventQueue) : providerEventQueue :=
  mkQueue (pq_validation q) (pq_queue q) true (pq_started q) (pq_overflowed q) (pq_overflows q) (pq_queuedBytes q) (pq_handler q)
    (pq_received q) (pq_running q) (pq_accepted q) (pq_finished q).
Definition setHandler (q : providerEventQueue) (handler : bool) : providerEventQueue :=
  mkQueue (pq_validation q) (pq_queue q) (pq_done q) (pq_started q) (pq_overflowed q) (pq_overflows q) (pq_queuedBytes q) handler
    (pq_received q) (pq_running q) (pq_accepted q) (pq_finished q).

(** [errors.Join(ErrProviderEventOverflow, err)]: the part of it that
    [errors.Is] is asked about. *)
Definition join_overflow (err : error) : error := Wrapf "%w" [] ErrProviderEventOverflow.

Definition queue_fail (q : providerEventQueue) (err : error) : providerEventQueue :=
  let err := if errors_Is err "provider event queue overflow" then err else join_overflow err in
  let v := validation_fail (pq_validation q) err in
  if pq_overflowed q
  then mkQueue v (pq_queue q) (pq_done q) (pq_started q) true (pq_overflows q) (pq_queuedBytes q) (pq_handler q)
         (pq_received q) (pq_running q) (pq_accepted q) (pq_finished q)
  else mkQueue v (pq_queue q) true (pq_started q) true (S (pq_overflows q)) (pq_queuedBytes q) (pq_handler q)
         (pq_received q) (pq_running q) (pq_accepted q) (pq_finished q).

(** [enqueue]; when the channel has room and [done] is closed, [select] takes
    either branch: [done_first] is its choice. *)
Definition enqueue (done_first : bool) (q : providerEventQueue) (notification : N) : providerEventQueue :=
  match marshal notification with
  | Err e => queue_fail q e
  | Ok encoded =>
      let event := mkEvent notification (zlen encoded) in
      if (ev_bytes event >? maxProviderQueuedEventBytes)
         || (pq_queuedBytes q >? maxProviderQueuedEventBytes - ev_bytes event)
      then queue_fail q ErrProviderEventOverflow
      else
        let room := (length (pq_queue q) <? maxProviderQueuedEvents)%nat in
        if pq_done q && (done_first || negb room) then q
        else if room
        then mkQueue (pq_validation q) (pq_queue q ++ [event]) (pq_done q) (pq_started q) (pq_overflowed q) (pq_overflows q)
               (pq_queuedBytes q + ev_bytes event) (pq_handler q) (pq_received q) (pq_running q) (pq_accepted q ++ [event]) (pq_finished q)
        else queue_fail q ErrProviderEventOverflow
  end.

(** The three parts of a turn of [run]: the receive, the critical section,
    and the return of the handler. *)
Definition run_receive (q : providerEventQueue) : providerEventQueue :=
  match pq_queue q with
  | [] => q
  | event :: queue =>
      mkQueue (pq_validation q) queue (pq_done q) (pq_started q) (pq_overflowed q) (pq_overflows q) (pq_queuedBytes q) (pq_handler q)
        (pq_received q ++ [event]) (pq_running q) (pq_accepted q) (pq_finished q)
  end.

Definition without {A} (i : nat) (l : list A) : list A := take i l ++ drop (S i) l.

(** Without a handler the event is dropped: it counts as finished. *)
Definition run_account (i : nat) (q : providerEventQueue) : providerEventQueue :=
  match pq_received q !! i with
  | None => q
  | Some event =>
      mkQueue (pq_validation q) (pq_queue q) (pq_done q) (pq_started q) (pq_overflowed q) (pq_overflows q)
        (pq_queuedBytes q - ev_bytes event) (pq_handler q) (without i (pq_received q))
        (if pq_handler q then pq_running q ++ [event] else pq_running q) (pq_accepted q)
        (if pq_handler q then pq_finished q else pq_finished q ++ [event])
  end.
Definition run_finish (i : nat) (q : providerEventQueue) : providerEventQueue :=
  match pq_running q !! i with
  | None => q
  | Some event =>
      mkQueue (pq_validation q) (pq_queue q) (pq_done q) (pq_started q) (pq_overflowed q) (pq_overflows q) (pq_queuedBytes q) (pq_handler q)
        (pq_received q) (without i (pq_running q)) (pq_accepted q) (pq_finished q ++ [event])
  end.

(** Every step anyone can make; a receive needs a started goroutine that is
    free, and there are [maxProviderEventHandlers] of them. *)
Inductive queue_step : providerEventQueue → providerEventQueue → Prop :=
| step_start q : queue_step q (queue_start q)
| step_stop q : queue_step q (queue_stop q)
| step_setHandler q handler : queue_step q (setHandler q handler)
| step_enqueue q done_first n : queue_step q (enqueue done_first q n)
| step_receive q :
    pq_started q = true → (length (pq_received q) + length (pq_running q) < maxProviderEventHandlers)%nat →
    queue_step q (run_receive q)
| step_account q i : queue_step q (run_account i q)
| step_finish q i : queue_step q (run_finish i q).

Definition queue_reachable (q : providerEventQueue) : Prop :=
  ∃ v, rtc queue_step (newProviderEventQueue v) q.

(** ** Invariant *)

Definition event_bytes (l : list queuedProviderEvent) : Z := foldr (λ e n, ev_bytes e + n) 0 l.

Record queue_inv (q : providerEventQueue) : Prop := {
  qi_bytes : pq_queuedBytes q = event_bytes (pq_queue q ++ pq_received q);
  qi_max : 0 ≤ pq_queuedBytes q ≤ maxProviderQueuedEventBytes;
  qi_length : (length (pq_queue q) ≤ maxProviderQueuedEvents)%nat;
  qi_handlers : (length (pq_received q) + length (pq_running q) ≤ maxProviderEventHandlers)%nat;
  qi_events : Forall (λ e, 0 ≤ ev_bytes e) (pq_queue q ++ pq_received q);
  qi_accepted : pq_accepted q ≡ₚ pq_finished q ++ pq_running q ++ pq_received q ++ pq_queue q;
  qi_overflow : pq_overflows q = (if pq_overflowed q then 1 else 0)%nat;
  qi_done : pq_overflowed q = true → pq_done q = true ∧ ∀ v, pq_validation q = Some v → is_Some (rv_err v);
}.

Lemma event_bytes_app l1 l2 : event_bytes (l1 ++ l2) = event_bytes l1 + event_bytes l2.
Proof. induction l1 as [|e l1 IH]; simpl; [done|]. unfold event_bytes in *. lia. Qed.

Lemma event_bytes_nonneg l : Forall (λ e, 0 ≤ ev_bytes e) l → 0 ≤ event_bytes l.
Proof. induction 1 as [|e l He _ IH]; simpl; [lia|]. unfold event_bytes in *. lia. Qed.

Lemma without_perm {A} (l : list A) i x : l !! i = Some x → l ≡ₚ x :: without i l.
Proof. intros Hx. rewrite <-(take_drop_middle l i x Hx) at 1. unfold without. by rewrite <-Permutation_middle. Qed.

Lemma event_bytes_perm l1 l2 : l1 ≡ₚ l2 → event_bytes l1 = event_bytes l2.
Proof. unfold event_bytes. induction 1; simpl; lia. Qed.

Lemma queue_fail_inv q err : queue_inv q → queue_inv (queue_fail q err).
Proof.
  intros [Hb Hm Hl Hh He Ha Ho Hd]. unfold queue_fail. set (e := if errors_Is err _ then err else _).
  assert (∀ v, validation_fail (pq_validation q) e = Some v → is_Some (rv_err v)) as Hv.
  { intros v. destruct (pq_validation q) as [v0|]; [|done]. simpl. intros [= <-]. destruct (rv_err v0) eqn:Hr; [by rewrite Hr|by eexists]. }
  destruct (pq_overflowed q) eqn:Hov; split; simpl; try done.
  - intros _. split; [by apply Hd|done].
  - by rewrite Ho.
Qed.

Lemma enqueue_inv done_first q n : queue_inv q → queue_inv (enqueue done_first q n).
Proof.
  intros Hq. unfold enqueue. destruct (marshal n) as [encoded|e]; [|by apply queue_fail_inv].
  destruct (_ || _) eqn:Hover; [by apply queue_fail_inv|]. destruct (pq_done q && _); [done|].
  destruct (Nat.ltb_spec (length (pq_queue q)) maxProviderQueuedEvents); [|by apply queue_fail_inv].
  simpl in Hover. bool_hyps. destruct Hq as [Hb Hm Hl Hh He Ha Ho Hd]. pose proof (zlen_nonneg encoded).
  split; simpl; try done.
  - rewrite Hb, <-app_assoc, !event_bytes_app. simpl. lia.
  - lia.
  - rewrite length_app. simpl. lia.
  - rewrite <-app_assoc. apply Forall_app in He as [? ?]. apply Forall_app. split; [done|]. by constructor.
  - rewrite Ha. by rewrite <-!app_assoc.
Qed.

Lemma run_receive_inv q : queue_inv q → (length (pq_received q) + length (pq_running q) < maxProviderEventHandlers)%nat →
  queue_inv (run_receive q).
Proof.
  intros Hq Hfree. unfold run_receive. destruct (pq_queue q) as [|e l] eqn:Hqueue; [done|]. destruct Hq as [Hb Hm Hl Hh He Ha Ho Hd].
  rewrite Hqueue in *. assert ((e :: l) ++ pq_received q ≡ₚ l ++ pq_received q ++ [e]) as Hperm.
  { rewrite app_assoc. simpl. by rewrite Permutation_cons_append. }
  split; simpl; try done.
  - rewrite Hb. by apply event_bytes_perm.
  - simpl in Hl. lia.
  - rewrite length_app. simpl. lia.
  - by rewrite <-Hperm.
  - rewrite Ha. do 2 f_equiv. rewrite <-app_assoc. done.
Qed.

Lemma run_account_inv i q : queue_inv q → queue_inv (run_account i q).
Proof.
  intros Hq. unfold run_account. destruct (pq_received q !! i) as [e|] eqn:Hi; [|done]. destruct Hq as [Hb Hm Hl Hh He Ha Ho Hd].
  pose proof (without_perm _ _ _ Hi) as Hperm. set (w := without i (pq_received q)) in *. clearbody w.
  pose proof (Permutation_length Hperm) as Hlen. simpl in Hlen.
  assert (pq_queue q ++ pq_received q ≡ₚ e :: pq_queue q ++ w) as Hall by (rewrite Hperm; by rewrite Permutation_middle).
  rewrite (event_bytes_perm _ _ Hall) in Hb. rewrite Hall in He. apply Forall_cons in He as [He0 He]. pose proof (event_bytes_nonneg _ He).
  simpl in Hb. fold (event_bytes (pq_queue q ++ w)) in Hb.
  split; simpl; try done; try lia.
  - destruct (pq_handler q); rewrite ?length_app; simpl; lia.
  - rewrite Ha, Hperm. destruct (pq_handler q); rewrite <-!app_assoc; simpl; [done|].
    f_equiv. by rewrite <-Permutation_middle.
Qed.

Lemma run_finish_inv i q : queue_inv q → queue_inv (run_finish i q).
Proof.
  intros Hq. unfold run_finish. destruct (pq_running q !! i) as [e|] eqn:Hi; [|done]. destruct Hq as [Hb Hm Hl Hh He Ha Ho Hd].
  pose proof (without_perm _ _ _ Hi) as Hperm. set (w := without i (pq_running q)) in *. clearbody w.
  pose proof (Permutation_length Hperm) as Hlen. simpl in Hlen.
  split; simpl; try done; try lia. rewrite Ha, Hperm. by rewrite <-!app_assoc.
Qed.

Lemma queue_step_inv q q' : queue_inv q → queue_step q q' → queue_inv q'.
Proof.
  intros Hq Hs. destruct Hs; [| | |by apply enqueue_inv|by apply run_receive_inv|by apply run_account_inv|by apply run_finish_inv];
    destruct Hq; split; simpl; try done; intros Hov; split; [done|by apply qi_done0].
Qed.

Lemma queue_reachable_inv q : queue_reachable q → queue_inv q.
Proof.
  intros [v Hr]. assert (queue_inv (newProviderEventQueue v)) as H0.
  { split; simpl; try done; try lia; by constructor. }
  induction Hr as [|q1 q2 q3 Hs _ IH]; [done|]. apply IH. by eapply queue_step_inv.
Qed.
End queue.

(** ** Requests *)

(** What a [select] over the validation (or the limit), the answer and the
    context takes; when several are ready, any of them. *)
Inductive branch := BFailed | BAnswer | BContext.

(** [awaitLimitedStdioResponse] and the [select] of [sendRequestOnce]: [first]
    is the failure if its channel is closed when the branch is taken, [again]
    if it is when the other branches look again. *)
Definition await {A} (b : branch) (first again : option error) (answer : result error A) (ctxErr : error) : result error A :=
  match b with
  | BFailed => match first with Some e => Err e | None => answer end
  | BAnswer => match again with Some e => Err e | None => answer end
  | BContext => match again with Some e => Err e | None => Err ctxErr end
  end.

Definition awaitLimitedStdioResponse {A} (b : branch) (first again : bool) : result error A → error → result error A :=
  await b (if first then Some ErrResponseLimitExceeded else None) (if again then Some ErrResponseLimitExceeded else None).
Definition sendRequestOnce {A} (b : branch) (first again : responseValidation) : result error A → error → result error A :=
  await b (rv_err first) (rv_err again).

Section send.
(** mcp-go's: the decoding of [UnsupportedProtocolVersionData] into its
    supported versions and the requested one, the code and the method. *)
Context (decode_versions : bytes → option (list string * string)) (UNSUPPORTED_PROTOCOL_VERSION : Z) (MethodToolsCall : string).

(** [transport.JSONRPCResponse] with the encodings of its identifier and of
    its error's data. *)
Record rpcError := mkRpcError { re_Code : Z; re_Message : string; re_Data : bytes }.
Record rpcResponse := mkRpcResponse { rr_ID : option bytes; rr_Error : option rpcError }.

Inductive reply :=
| Reply (response : option rpcResponse)
| ReplyFailed (e : error)
| ReplyUnsupported (version : string) (supported : list string)
| ReplyRPC (e : ProviderRPCError).

Definition unsupportedVersionData (encoded : bytes) : option (list string * string) :=
  match encoded with
  | [] => None
  | _ => match decode_versions encoded with
         | Some (x :: supported, requested) => Some (x :: supported, requested)
         | _ => None
         end
  end.

(** The body of the loop after a response with an error; [None] is
    [continue]. *)
Definition answer_error (attempt : nat) (method : string) (response : rpcResponse) (e : rpcError) (rpcErr : option ProviderRPCError) :
    option reply :=
  let data :=
    if re_Code e =? UNSUPPORTED_PROTOCOL_VERSION
    then match r ← rpcErr; unsupportedVersionData (pe_Data r) with
         | Some d => Some d
         | None => unsupportedVersionData (re_Data e)
         end
    else None in
  match data with
  | Some (supported, requested) =>
      if (attempt =? 0)%nat && bool_decide (requested ∈ supported) then None else Some (ReplyUnsupported requested supported)
  | None =>
      Some (if String.eqb method MethodToolsCall
            then ReplyRPC (match rpcErr with Some r => r | None => mkRPCError (re_Code e) (re_Message e) (re_Data e) end)
            else Reply (Some response))
  end.

(** [SendRequest], given what each attempt returns. *)
Fixpoint send_attempts (once : nat → option responseValidation → option responseValidation * result error (option rpcResponse))
    (method : string) (attempts : list nat) (v : option responseValidation) : option responseValidation * reply :=
  match attempts with
  | [] => (v, ReplyUnsupported "" [])
  | attempt :: attempts =>
      match once attempt v with
      | (v, Err e) => (v, ReplyFailed e)
      | (v, Ok None) => (v, Reply None)
      | (v, Ok (Some response)) =>
          match rr_Error response with
          | None => (v, Reply (Some response))
          | Some e =>
              let '(v, rpcErr) := takeRPCError v (rr_ID response) in
              match answer_error attempt method response e rpcErr with
              | Some r => (v, r)
              | None => send_attempts once method attempts v
              end
          end
      end
  end.
Definition SendRequest once method := send_attempts once method [0; 1]%nat.
End send.

(** ** The other methods of the transport *)

Section transport.
Context {N : Type}.

(** [responseValidatingTransport]: its event queue, which has the validation
    of the connection; [inner] is the inner transport's error. *)
Definition validating_Start (q : @providerEventQueue N) (inner : option error) : @providerEventQueue N * option error :=
  match inner with
  | Some err => (q, Some err)
  | None => (queue_start q, None)
  end.
Definition validating_SendNotification (v : responseValidation) (inner : option error) : option error :=
  match rv_err v with
  | Some err => Some err
  | None => inner
  end.
Definition validating_SetNotificationHandler (q : @providerEventQueue N) (handler : bool) : @providerEventQueue N := setHandler q handler.
Definition validating_Close (q : @providerEventQueue N) (inner : option error) : @providerEventQueue N * option error := (queue_stop q, inner).

(** However they are called, the queue stays within its bounds. *)
Lemma validating_reachable marshal q inner handler : queue_reachable marshal q →
  queue_reachable marshal (validating_Start q inner).1 ∧ queue_reachable marshal (validating_SetNotificationHandler q handler) ∧
  queue_reachable marshal (validating_Close q inner).1.
Proof.
  intros [v Hr]. assert (∀ q', queue_step marshal q q' → queue_reachable marshal q') as Hs by (intros q' Hq; exists v; by eapply rtc_r).
  split_and!; [|apply Hs, step_setHandler|apply Hs, step_stop]. unfold validating_Start. destruct inner; [by exists v|apply Hs, step_start].
Qed.
End transport.

(** A tool call's error keeps the bytes of its data. *)
Example tool_error_bytes :
  let '(v, err) := validateJSONMessage (requote "{'jsonrpc':'2.0', 'id': 7, 'error': {'code':-3,'message':'no','data': {'x': 1.0} }}")
                     (Some newResponseValidation) in
  err = None ∧
  (SendRequest (λ _, None) (-32000) "tools/call"
     (λ _ v, (v, Ok (Some (mkRpcResponse (Some (to_bytes "7")) (Some (mkRpcError (-3) "no" (requote "{'x':1}"))))))) "tools/call" v).2 =
  ReplyRPC (mkRPCError (-3) "no" (requote "{'x': 1.0}")).
Proof. vm_compute. split; reflexivity. Qed.

(** A request never reports success once the connection's failure is
    known: if the validation (or the frame limit) has failed by the time the
    answer or the end of the context is taken, the request returns that
    failure, whichever branch the select picks; otherwise it returns the
    answer or the context's error. *)
Lemma failure_wins {A} b (first again : responseValidation) e (answer : result error A) ctxErr :
  rv_err again = Some e → (∀ e', rv_err first = Some e' → e' = e) → (b = BFailed → is_Some (rv_err first)) →
  sendRequestOnce b first again answer ctxErr = Err e.
Proof. unfold sendRequestOnce, await. intros Ha Hf Hb. destruct b; rewrite ?Ha; try done. destruct (Hb eq_refl) as [e' He]. by rewrite He, (Hf e' He). Qed.

(** ** Properties *)

(** C19. However the reader, the handlers and the connection interleave, a
    provider's notifications cost a bounded amount of memory and none is lost
    unnoticed: the bytes and the number of queued events stay within their
    limits and the bytes are accounted for exactly; at most sixteen events
    are being handled; every accepted event is finished, being handled or
    waiting, once; and an overflow closes the connection exactly once, after
    the failure has been recorded for its requests. *)
Theorem event_queue_bounded {N} (marshal : N → result error bytes) q :
  queue_reachable marshal q →
  pq_queuedBytes q = event_bytes (pq_queue q ++ pq_received q) ∧ 0 ≤ pq_queuedBytes q ≤ maxProviderQueuedEventBytes ∧
  (length (pq_queue q) ≤ maxProviderQueuedEvents)%nat ∧
  (length (pq_received q) + length (pq_running q) ≤ maxProviderEventHandlers)%nat ∧
  pq_accepted q ≡ₚ pq_finished q ++ pq_running q ++ pq_received q ++ pq_queue q ∧
  pq_overflows q = (if pq_overflowed q then 1 else 0)%nat ∧
  (pq_overflowed q = true → pq_done q = true ∧ ∀ v, pq_validation q = Some v → is_Some (rv_err v)).
Proof. intros [Hb Hm Hl Hh _ Ha Ho Hd]%queue_reachable_inv. done. Qed.

(** ** Witnesses *)

Definition demo_queue : @providerEventQueue string :=
  run_receive (queue_start (enqueue (λ s, Ok (to_bytes s)) false (enqueue (λ s, Ok (to_bytes s)) false
    (newProviderEventQueue (Some newResponseValidation)) "abc") "de")).

Lemma event_queue_bounded_witness :
  pq_queuedBytes demo_queue = 5 ∧ pq_overflows demo_queue = 0%nat ∧
  pq_accepted demo_queue ≡ₚ pq_finished demo_queue ++ pq_running demo_queue ++ pq_received demo_queue ++ pq_queue demo_queue.
Proof.
  split; [by vm_compute|]. split; [by vm_compute|].
  apply (event_queue_bounded (λ s, Ok (to_bytes s))). exists (Some newResponseValidation). unfold demo_queue.
  eapply rtc_l; [apply step_enqueue|]. eapply rtc_l; [apply step_enqueue|]. eapply rtc_l; [apply step_start|].
  apply rtc_once. apply step_receive; [done|]. vm_compute. lia.
Defined.
