(* ===== verification/ProviderRegistry.v ===== *)
(** * Connections to providers

    Models the [ServerRegistry] of [internal/hierarchy/hierarchy.go]: lazy
    loading of one client per configured server, shared by the callers that
    ask for it meanwhile, and the closing of the registry. The two
    critical sections of [GetOrLoadServer], its waits and the closing of a
    client are steps, so that any number of callers interleave. *)
From stdpp Require Import relations.
From Stdlib Require Import Ascii String.
From S2P Require Import Prelude GoStrings Limits.
Local Open Scope string_scope.
Local Open Scope list_scope.
Local Open Scope Z_scope.

(** ** State *)

Record providerLoad := mkLoad {
  pl_server : string; pl_done : bool; pl_client : option nat; pl_err : option error; pl_initiatingCallerCanceled : bool }.

(** A client that has been started: in use, about to be closed by whoever
    took it out of use, or closed. *)
Inductive clientPhase := ClientLive | ClientDoomed | ClientClosed.
Record providerClient := mkClient { pc_server : string; pc_phase : clientPhase }.

Global Instance clientPhase_eq_dec : EqDecision clientPhase.
Proof. solve_decision. Defined.

(** A call of [GetOrLoadServer]: waiting for a load, running one, or returned. *)
Inductive caller :=
| CallerWaiting (server : string) (load : nat)
| CallerLoading (server : string) (load : nat)
| CallerDone (server : string) (r : result error nat).

(** The registry, the loads and clients it and its callers point to, and the
    callers. *)
Record ServerRegistry := mkServers {
  sr_clients : gmap string nat;
  sr_clientLoads : gmap string nat;
  sr_serverConfigs : gset string;
  sr_closed : bool;
  sr_load : gmap nat providerLoad;
  sr_client : gmap nat providerClient;
  sr_callers : gmap nat caller;
}.

Definition newServerRegistry (configs : gset string) : ServerRegistry := mkServers ∅ ∅ configs false ∅ ∅ ∅.

Definition registry_closed : error := ErrorNew "server registry is closed".
Definition closed_while_starting : error := ErrorNew "server registry closed while provider was starting".
Definition errProviderLoadCanceledByInitiator : error := Sentinel "provider load canceled by initiating caller".
Definition markProviderLoadCanceledByInitiator (err : error) : error := Wrapf "%w: %w" [] errProviderLoadCanceledByInitiator.

(** ** [GetOrLoadServer] *)

Definition with_caller (s : ServerRegistry) (i : nat) (c : caller) : ServerRegistry :=
  mkServers (sr_clients s) (sr_clientLoads s) (sr_serverConfigs s) (sr_closed s) (sr_load s) (sr_client s) (<[i := c]> (sr_callers s)).

(** The first critical section. *)
Definition enter (s : ServerRegistry) (serverName : string) : ServerRegistry * caller :=
  if sr_closed s then (s, CallerDone serverName (Err registry_closed))
  else match sr_clients s !! serverName with
       | Some client => (s, CallerDone serverName (Ok client))
       | None =>
           match sr_clientLoads s !! serverName with
           | Some load => (s, CallerWaiting serverName load)
           | None =>
               if bool_decide (serverName ∈ sr_serverConfigs s)
               then
                 let load := fresh (dom (sr_load s)) in
                 (mkServers (sr_clients s) (<[serverName := load]> (sr_clientLoads s)) (sr_serverConfigs s) (sr_closed s)
                    (<[load := mkLoad serverName false None None false]> (sr_load s)) (sr_client s) (sr_callers s),
                  CallerLoading serverName load)
               else (s, CallerDone serverName (Err (Errorf "server config not found: %s" [FStr serverName])))
           end
       end.

(** The second critical section, with the factory's client, if it made one,
    and error. A client that comes with an error is closed after it. *)
Definition finish (s : ServerRegistry) (serverName : string) (load : nat) (made : bool) (err : option error) :
    ServerRegistry * caller :=
  let client := fresh (dom (sr_client s)) in
  let initiatingCallerCanceled := match err with Some e => errors_Is e "provider load canceled by initiating caller" | None => false end in
  let err := match err with None => if sr_closed s then Some closed_while_starting else None | Some e => Some e end in
  let kept := match err with None => true | Some _ => false end in
  (mkServers (if kept then <[serverName := client]> (sr_clients s) else sr_clients s)
     (delete serverName (sr_clientLoads s)) (sr_serverConfigs s) (sr_closed s)
     (<[load := mkLoad serverName true (if kept then Some client else None) err initiatingCallerCanceled]> (sr_load s))
     (if made then <[client := mkClient serverName (if kept then ClientLive else ClientDoomed)]> (sr_client s) else sr_client s)
     (sr_callers s),
   CallerDone serverName (match err with None => Ok client | Some e => Err e end)).

Definition nil_client : error := Sentinel "nil client".

(** What a waiter does when its load is done: another round of the loop, or
    the load's outcome. *)
Definition woken (s : ServerRegistry) (serverName : string) (load : providerLoad) : ServerRegistry * caller :=
  if pl_initiatingCallerCanceled load then enter s serverName
  else (s, CallerDone serverName
             (match pl_err load, pl_client load with
              | Some e, _ => Err e
              | None, Some c => Ok c
              | None, None => Err nil_client
              end)).

(** ** [Close] *)

Definition doom (s : ServerRegistry) (c : nat) (pc : providerClient) : option providerClient :=
  Some (if bool_decide (c ∈ (map_to_list (sr_clients s)).*2) then mkClient (pc_server pc) ClientDoomed else pc).

(** The critical section of [Close]; the loop over the clients it took
    follows as steps of [close_client]. *)
Definition registry_Close (s : ServerRegistry) : ServerRegistry :=
  if sr_closed s then s
  else mkServers ∅ ∅ (sr_serverConfigs s) true (sr_load s) (map_imap (doom s) (sr_client s)) (sr_callers s).

Definition close_client (s : ServerRegistry) (c : nat) : ServerRegistry :=
  match sr_client s !! c with
  | Some (mkClient server ClientDoomed) =>
      mkServers (sr_clients s) (sr_clientLoads s) (sr_serverConfigs s) (sr_closed s) (sr_load s)
        (<[c := mkClient server ClientClosed]> (sr_client s)) (sr_callers s)
  | _ => s
  end.

(** ** Steps *)

Definition resumed (i : nat) (r : ServerRegistry * caller) : ServerRegistry := with_caller r.1 i r.2.

Inductive server_step (s : ServerRegistry) : ServerRegistry → Prop :=
| server_call i serverName :
    sr_callers s !! i = None → server_step s (resumed i (enter s serverName))
| server_factory i serverName load made err :
    sr_callers s !! i = Some (CallerLoading serverName load) → (err = None → made = true) →
    server_step s (resumed i (finish s serverName load made err))
| server_wake i serverName l load :
    sr_callers s !! i = Some (CallerWaiting serverName l) → sr_load s !! l = Some load → pl_done load = true →
    server_step s (resumed i (woken s serverName load))
| server_cancel i serverName l e :
    sr_callers s !! i = Some (CallerWaiting serverName l) → server_step s (with_caller s i (CallerDone serverName (Err e)))
| server_close : server_step s (registry_Close s)
| server_close_client c : server_step s (close_client s c).

Definition servers_reachable (s : ServerRegistry) : Prop := ∃ configs, rtc server_step (newServerRegistry configs) s.

(** ** Invariant *)

Definition live_client (s : ServerRegistry) (c : nat) (server : string) : Prop :=
  sr_client s !! c = Some (mkClient server ClientLive).
Definition running (s : ServerRegistry) (l : nat) (server : string) : Prop :=
  ∃ ld, sr_load s !! l = Some ld ∧ pl_done ld = false ∧ pl_server ld = server.

Record servers_inv (s : ServerRegistry) : Prop := {
  vi_clients server c : sr_clients s !! server = Some c ↔ live_client s c server;
  vi_loads server l : sr_clientLoads s !! server = Some l → running s l server ∧ sr_clients s !! server = None;
  vi_running server l : running s l server → sr_closed s = false → sr_clientLoads s !! server = Some l;
  vi_loading i server l : sr_callers s !! i = Some (CallerLoading server l) → running s l server;
  vi_loader server l : running s l server → ∃ i, sr_callers s !! i = Some (CallerLoading server l);
  vi_one_loader i j server server' l : sr_callers s !! i = Some (CallerLoading server l) →
    sr_callers s !! j = Some (CallerLoading server' l) → i = j;
  vi_waiting i server l : sr_callers s !! i = Some (CallerWaiting server l) →
    ∃ ld, sr_load s !! l = Some ld ∧ pl_server ld = server;
  vi_done l ld : sr_load s !! l = Some ld → pl_done ld = true →
    match pl_err ld with
    | None => ∃ c pc, pl_client ld = Some c ∧ sr_client s !! c = Some pc ∧ pc_server pc = pl_server ld
    | Some _ => True
    end;
  vi_result i server c : sr_callers s !! i = Some (CallerDone server (Ok c)) →
    ∃ pc, sr_client s !! c = Some pc ∧ pc_server pc = server;
  vi_closed : sr_closed s = true → sr_clients s = ∅ ∧ sr_clientLoads s = ∅;
}.

(** ** Preservation *)

Lemma servers_inv_init configs : servers_inv (newServerRegistry configs).
Proof.
  split; cbn; unfold live_client, running; cbn; intros *; try setoid_rewrite lookup_empty; try naive_solver.
Qed.

(** What a caller may become without another change of state. *)
Definition caller_ok (s : ServerRegistry) (c : caller) : Prop :=
  match c with
  | CallerWaiting server l => ∃ ld, sr_load s !! l = Some ld ∧ pl_server ld = server
  | CallerLoading _ _ => False
  | CallerDone server (Ok c) => ∃ pc, sr_client s !! c = Some pc ∧ pc_server pc = server
  | CallerDone _ (Err _) => True
  end.

Definition not_loading (s : ServerRegistry) (i : nat) : Prop :=
  ∀ server l, sr_callers s !! i ≠ Some (CallerLoading server l).

Lemma with_caller_inv s i c : servers_inv s → not_loading s i → caller_ok s c → servers_inv (with_caller s i c).
Proof.
  intros [Hc Hl Hr Hld Hlr H1 Hw Hd Hres Hcl] Hi Hok.
  split; cbn; unfold live_client, running in *; cbn; try assumption; intros *.
  - intros H. destruct (decide (i = i0)) as [<-|Hne].
    + rewrite lookup_insert in H. case_decide; [|done]. injection H as ->. by destruct Hok.
    + rewrite lookup_insert_ne in H by done. by apply (Hld i0).
  - intros H. destruct (Hlr _ _ H) as [j Hj]. exists j. rewrite lookup_insert_ne; [done|].
    intros ->. by eapply Hi.
  - intros Ha Hb.
    destruct (decide (i = i0)) as [<-|Hne]; [rewrite lookup_insert in Ha; case_decide; [|done]; injection Ha as ->; by destruct Hok|].
    destruct (decide (i = j)) as [<-|Hne']; [rewrite lookup_insert in Hb; case_decide; [|done]; injection Hb as ->; by destruct Hok|].
    rewrite lookup_insert_ne in Ha, Hb by done. by eapply H1.
  - intros H. destruct (decide (i = i0)) as [<-|Hne].
    + rewrite lookup_insert in H. case_decide; [|done]. injection H as ->. exact Hok.
    + rewrite lookup_insert_ne in H by done. by eapply Hw.
  - intros H. destruct (decide (i = i0)) as [<-|Hne].
    + rewrite lookup_insert in H. case_decide; [|done]. injection H as ->. exact Hok.
    + rewrite lookup_insert_ne in H by done. by eapply Hres.
Qed.

(** A load begins. *)
Lemma enter_loads_inv s i server :
  let load := fresh (dom (sr_load s)) in
  servers_inv s → not_loading s i → sr_closed s = false → sr_clients s !! server = None → sr_clientLoads s !! server = None →
  servers_inv (mkServers (sr_clients s) (<[server := load]> (sr_clientLoads s)) (sr_serverConfigs s) (sr_closed s)
    (<[load := mkLoad server false None None false]> (sr_load s)) (sr_client s) (<[i := CallerLoading server load]> (sr_callers s))).
Proof.
  intros load [Hc Hl Hr Hld Hlr H1 Hw Hd Hres Hcl] Hi Hopen Hno Hnl.
  assert (Hfresh : sr_load s !! load = None) by (apply not_elem_of_dom, is_fresh). clearbody load.
  assert (Hkeep : ∀ l server', running s l server' → l ≠ load) by (intros l ? (ld & E & _) ->; congruence).
  assert (Hmore : ∀ l server', running s l server' →
    ∃ ld, <[load := mkLoad server false None None false]> (sr_load s) !! l = Some ld ∧ pl_done ld = false ∧ pl_server ld = server').
  { intros l server' H. specialize (Hkeep _ _ H). destruct H as (ld & ? & ?). exists ld. by rewrite lookup_insert_ne by congruence. }
  split; cbn; unfold live_client, running in *; cbn; try assumption; intros *.
  - destruct (decide (server = server0)) as [<-|Hne].
    + rewrite lookup_insert_eq. intros [= <-]. split; [|done]. eexists. by rewrite lookup_insert_eq.
    + rewrite lookup_insert_ne by done. intros H. destruct (Hl _ _ H) as [Hrun ?]. split; [|done]. by apply Hmore.
  - intros (ld & E & Hnd & Hs) _. destruct (decide (l = load)) as [->|Hne].
    + rewrite lookup_insert_eq in E. injection E as <-. cbn in Hs. subst. by rewrite lookup_insert_eq.
    + rewrite lookup_insert_ne in E by done. rewrite lookup_insert_ne; [naive_solver|].
      intros <-. rewrite (Hr server l) in Hnl; [done|naive_solver|done].
  - destruct (decide (i = i0)) as [<-|Hne].
    + rewrite lookup_insert_eq. intros [= <- <-]. eexists. by rewrite lookup_insert_eq.
    + rewrite lookup_insert_ne by done. intros H. by apply Hmore, (Hld i0).
  - intros (ld & E & Hnd & Hs). destruct (decide (l = load)) as [->|Hne].
    + rewrite lookup_insert_eq in E. injection E as <-. cbn in Hs. subst. exists i. by rewrite lookup_insert_eq.
    + rewrite lookup_insert_ne in E by done. destruct (Hlr server0 l) as [j Hj]; [naive_solver|].
      exists j. rewrite lookup_insert_ne; [done|]. intros ->. by eapply Hi.
  - intros Ha Hb. destruct (decide (i = i0)) as [<-|Hne], (decide (i = j)) as [<-|Hne']; [done|..].
    + rewrite lookup_insert_eq in Ha. injection Ha as <- <-. rewrite lookup_insert_ne in Hb by done.
      destruct (Hkeep _ _ (Hld _ _ _ Hb)). done.
    + rewrite lookup_insert_eq in Hb. injection Hb as <- <-. rewrite lookup_insert_ne in Ha by done.
      destruct (Hkeep _ _ (Hld _ _ _ Ha)). done.
    + rewrite lookup_insert_ne in Ha, Hb by done. by eapply H1.
  - destruct (decide (i = i0)) as [<-|Hne]; [by rewrite lookup_insert_eq|]. rewrite lookup_insert_ne by done.
    intros H. destruct (Hw _ _ _ H) as (ld & E & ?). exists ld. rewrite lookup_insert_ne; [done|]. intros <-. congruence.
  - destruct (decide (l = load)) as [->|Hne].
    + rewrite lookup_insert_eq. by intros [= <-].
    + rewrite lookup_insert_ne by done. apply Hd.
  - destruct (decide (i = i0)) as [<-|Hne]; [by rewrite lookup_insert_eq|]. rewrite lookup_insert_ne by done. apply Hres.
  - congruence.
Qed.

Lemma enter_inv s i server : servers_inv s → not_loading s i → servers_inv (resumed i (enter s server)).
Proof.
  intros HI Hi. unfold resumed, enter. destruct (sr_closed s) eqn:Hcl; [by apply with_caller_inv|].
  destruct (sr_clients s !! server) as [c|] eqn:Hc.
  { apply with_caller_inv; [done..|]. cbn. exists (mkClient server ClientLive). split; [|done]. by apply (vi_clients s HI). }
  destruct (sr_clientLoads s !! server) as [l|] eqn:Hl.
  { apply with_caller_inv; [done..|]. cbn. destruct (vi_loads s HI _ _ Hl) as [(ld & ? & ? & ?) _]. by exists ld. }
  case_bool_decide; [|by apply with_caller_inv].
  cbn. unfold with_caller. cbn. pose proof (enter_loads_inv s i server HI Hi Hcl Hc Hl) as H'.
  cbn zeta in H'. by rewrite Hcl in H'.
Qed.

Lemma woken_inv s i server l ld :
  servers_inv s → not_loading s i → sr_load s !! l = Some ld → pl_server ld = server → pl_done ld = true →
  servers_inv (resumed i (woken s server ld)).
Proof.
  intros HI Hi Hl Hs Hd. unfold woken. destruct (pl_initiatingCallerCanceled ld); [by apply enter_inv|].
  unfold resumed. cbn. apply with_caller_inv; [done..|]. pose proof (vi_done s HI _ _ Hl Hd) as Hok.
  destruct (pl_err ld); [done|]. destruct Hok as (c & pc & -> & ? & ?). cbn. exists pc. split; congruence.
Qed.

(** A load ends. *)
Lemma finish_running s i server load l server' ld' :
  servers_inv s → sr_callers s !! i = Some (CallerLoading server load) → pl_done ld' = true →
  (∃ ld, <[load := ld']> (sr_load s) !! l = Some ld ∧ pl_done ld = false ∧ pl_server ld = server') →
  l ≠ load ∧ running s l server'.
Proof.
  intros HI Hi Hd (ld & E & Hnd & Hs). destruct (decide (l = load)) as [->|Hne].
  - rewrite lookup_insert_eq in E. injection E as <-. congruence.
  - rewrite lookup_insert_ne in E by done. split; [done|]. by exists ld.
Qed.

Section finish_step.
Context (s : ServerRegistry) (i : nat) (server : string) (load : nat) (made : bool) (err : option error).
Hypothesis HI : servers_inv s.
Hypothesis Hcaller : sr_callers s !! i = Some (CallerLoading server load).
Hypothesis Hmade : err = None → made = true.

Let s' := resumed i (finish s server load made err).
Let kept : bool := match err with None => negb (sr_closed s) | Some _ => false end.
Let client := fresh (dom (sr_client s)).

Local Lemma finish_fresh : sr_client s !! client = None.
Proof. apply not_elem_of_dom, is_fresh. Qed.

Local Lemma finish_free : kept = true → sr_clients s !! server = None ∧ made = true ∧ sr_closed s = false.
Proof.
  unfold kept. intros Hk. destruct err; [done|]. destruct (sr_closed s) eqn:Hcl; [done|].
  split_and!; [|by apply Hmade|done]. eapply (vi_loads s HI server load), (vi_running s HI); [|done].
  by eapply (vi_loading s HI).
Qed.

Local Lemma finish_maps :
  sr_clients s' = (if kept then <[server := client]> (sr_clients s) else sr_clients s) ∧
  sr_clientLoads s' = delete server (sr_clientLoads s) ∧ sr_closed s' = sr_closed s ∧
  sr_callers s' = <[i := CallerDone server (if kept then Ok client else Err (default closed_while_starting err))]> (sr_callers s).
Proof.
  unfold s', kept, client, resumed, finish, with_caller. cbn. destruct err; [done|]. by destruct (sr_closed s).
Qed.

Local Lemma finish_client : sr_client s' =
  if made then <[client := mkClient server (if kept then ClientLive else ClientDoomed)]> (sr_client s) else sr_client s.
Proof.
  unfold s', kept, client, resumed, finish. cbn. destruct err; [done|]. by destruct (sr_closed s).
Qed.

Local Lemma finish_load : ∃ ld, sr_load s' = <[load := ld]> (sr_load s) ∧ pl_server ld = server ∧ pl_done ld = true ∧
  (pl_err ld = None → kept = true ∧ pl_client ld = Some client).
Proof.
  unfold s', kept, client, resumed, finish. cbn. eexists. split_and!; [reflexivity|done..|].
  cbn. destruct err; [done|]. by destruct (sr_closed s).
Qed.

Local Lemma finish_client_keeps c pc : sr_client s !! c = Some pc → sr_client s' !! c = Some pc.
Proof.
  intros H. rewrite finish_client. case_match; [|done]. rewrite lookup_insert_ne; [done|].
  intros <-. by rewrite finish_fresh in H.
Qed.

Local Lemma finish_kept_client : kept = true → sr_client s' !! client = Some (mkClient server ClientLive).
Proof. intros Hk. destruct (finish_free Hk) as (_ & Hm & _). rewrite finish_client, Hk, Hm. by rewrite lookup_insert_eq. Qed.

Local Lemma finish_live c server' :
  sr_clients s' !! server' = Some c ↔ live_client s' c server'.
Proof.
  unfold live_client. rewrite finish_client, (proj1 finish_maps).
  pose proof finish_fresh as Hf. pose proof (vi_clients s HI) as Hc. unfold live_client in Hc.
  destruct kept eqn:Hk.
  - destruct (finish_free Hk) as (Hn & Hm & _). rewrite Hm.
    destruct (decide (server = server')) as [<-|Hs], (decide (client = c)) as [<-|Hc'];
      rewrite ?lookup_insert_eq, ?lookup_insert_ne by done; [done|..].
    + split; [congruence|]. rewrite <- Hc. congruence.
    + split; [rewrite Hc; congruence|]. congruence.
    + apply Hc.
  - case_match; [|apply Hc]. destruct (decide (client = c)) as [<-|Hc'].
    + rewrite lookup_insert_eq. split; [rewrite Hc; congruence|done].
    + rewrite lookup_insert_ne by done. apply Hc.
Qed.

Lemma finish_inv : servers_inv s'.
Proof.
  destruct finish_maps as (Emaps & Eloads & Ecl & Ecallers).
  destruct finish_load as (ld & Eld & Hsrv & Hdone & Herr).
  pose proof (λ l server', finish_running s i server load l server' ld HI Hcaller Hdone) as Hrun.
  split; [intros; apply finish_live|..]; unfold running in *; rewrite ?Eld, ?Eloads, ?Ecl, ?Ecallers; intros *.
  - intros H. apply lookup_delete_Some in H as [Hne H].
    destruct (vi_loads s HI _ _ H) as [Hr Hn]. split.
    + destruct Hr as (ld' & ? & ? & ?). exists ld'. rewrite lookup_insert_ne; [done|]. intros <-.
      destruct (vi_loading s HI _ _ _ Hcaller) as (? & ? & ? & ?). congruence.
    + rewrite Emaps. destruct kept; [by rewrite lookup_insert_ne|done].
  - intros H. apply Hrun in H as [Hne H]. intros Hcl.
    rewrite lookup_delete_ne; [by apply (vi_running s HI)|]. intros <-.
    pose proof (vi_running s HI _ _ H Hcl). pose proof (vi_running s HI _ _ (vi_loading s HI _ _ _ Hcaller) Hcl). congruence.
  - intros H. apply lookup_insert_Some in H as [[_ ?]|[Hne H]]; [done|].
    destruct (vi_loading s HI _ _ _ H) as (ld' & ? & ? & ?). exists ld'. rewrite lookup_insert_ne; [done|].
    intros <-. apply Hne. by eapply (vi_one_loader s HI).
  - intros H. apply Hrun in H as [Hne H]. destruct (vi_loader s HI _ _ H) as [j Hj]. exists j.
    rewrite lookup_insert_ne; [done|]. intros <-. congruence.
  - intros Ha Hb. apply lookup_insert_Some in Ha as [[_ ?]|[_ Ha]]; [done|].
    apply lookup_insert_Some in Hb as [[_ ?]|[_ Hb]]; [done|]. by eapply (vi_one_loader s HI).
  - intros H. apply lookup_insert_Some in H as [[_ ?]|[_ H]]; [done|].
    destruct (decide (load = l)) as [<-|Hne].
    + exists ld. rewrite lookup_insert_eq. split; [done|].
      destruct (vi_waiting s HI _ _ _ H) as (ld1 & E1 & ?). destruct (vi_loading s HI _ _ _ Hcaller) as (ld2 & E2 & ? & ?). congruence.
    + rewrite lookup_insert_ne by done. by apply (vi_waiting s HI i0).
  - intros H Hd. apply lookup_insert_Some in H as [[<- <-]|[Hne H]].
    + destruct (pl_err ld) eqn:E; [done|]. destruct (Herr eq_refl) as [Hk ->].
      exists client, (mkClient server ClientLive). split_and!; [done|by apply finish_kept_client|done].
    + pose proof (vi_done s HI _ _ H Hd) as Hok. destruct (pl_err ld0); [done|].
      destruct Hok as (c & pc & ? & ? & ?). exists c, pc. split_and!; [done|by apply finish_client_keeps|done].
  - intros H. apply lookup_insert_Some in H as [[_ H]|[_ H]].
    + destruct kept eqn:Hk; [|done]. injection H as <- <-. exists (mkClient server ClientLive).
      split; [by apply finish_kept_client|done].
    + destruct (vi_result s HI _ _ _ H) as (pc & ? & ?). exists pc. split; [by apply finish_client_keeps|done].
  - intros Hcl. destruct (vi_closed s HI Hcl) as [Ha Hb].
    destruct kept eqn:Hk; [by destruct (finish_free Hk) as (_ & _ & ?); congruence|]. by rewrite Emaps, Hb, delete_empty.
Qed.
End finish_step.

(** [Close] dooms every client in use and forgets the loads. *)
Lemma close_doomed s c pc :
  servers_inv s → map_imap (doom s) (sr_client s) !! c = Some pc →
  pc_phase pc ≠ ClientLive ∧ ∃ pc0, sr_client s !! c = Some pc0 ∧ pc_server pc0 = pc_server pc.
Proof.
  intros HI H. rewrite map_lookup_imap in H. destruct (sr_client s !! c) as [[server phase]|] eqn:E; cbn in H; [|done].
  injection H as <-. case_bool_decide as Hin; cbn; [by eauto|]. split; [|by eauto].
  intros ->. apply Hin. apply list_elem_of_fmap. exists (server, c). split; [done|].
  apply elem_of_map_to_list. by apply (vi_clients s HI).
Qed.

Lemma close_keeps s c pc :
  sr_client s !! c = Some pc → ∃ pc', map_imap (doom s) (sr_client s) !! c = Some pc' ∧ pc_server pc' = pc_server pc.
Proof. intros H. rewrite map_lookup_imap, H. cbn. eexists. split; [done|]. by case_bool_decide. Qed.

Lemma registry_Close_inv s : servers_inv s → servers_inv (registry_Close s).
Proof.
  intros HI. unfold registry_Close. destruct (sr_closed s) eqn:Hcl; [done|].
  pose proof HI as [Hc Hl Hr Hld Hlr H1 Hw Hd Hres _].
  split; cbn; unfold live_client, running in *; cbn; try assumption; try done; intros *.
  - rewrite lookup_empty. split; [done|]. intros H. by destruct (close_doomed _ _ _ HI H).
  - intros H Hdone. pose proof (Hd _ _ H Hdone) as Hok. destruct (pl_err ld); [done|].
    destruct Hok as (c & pc & ? & Hpc & <-). destruct (close_keeps _ _ _ Hpc) as (pc' & ? & ?). by exists c, pc'.
  - intros H. destruct (Hres _ _ _ H) as (pc & Hpc & <-). by apply close_keeps.
Qed.

Lemma close_client_inv s c : servers_inv s → servers_inv (close_client s c).
Proof.
  intros HI. unfold close_client. destruct (sr_client s !! c) as [[server phase]|] eqn:E; [|done]. destruct phase; [done| |done].
  assert (Hkeep : ∀ c' pc, sr_client s !! c' = Some pc →
    ∃ pc', <[c := mkClient server ClientClosed]> (sr_client s) !! c' = Some pc' ∧ pc_server pc' = pc_server pc).
  { intros c' pc H. destruct (decide (c = c')) as [<-|Hne].
    - rewrite lookup_insert_eq. eexists. split; [done|]. rewrite E in H. by injection H as <-.
    - rewrite lookup_insert_ne by done. by exists pc. }
  pose proof HI as [Hc Hl Hr Hld Hlr H1 Hw Hd Hres Hcl].
  split; cbn; unfold live_client, running in *; cbn; try assumption; intros *.
  - rewrite Hc. destruct (decide (c = c0)) as [<-|Hne]; [rewrite lookup_insert_eq; by rewrite E|by rewrite lookup_insert_ne].
  - intros H Hdone. pose proof (Hd _ _ H Hdone) as Hok. destruct (pl_err ld); [done|].
    destruct Hok as (c' & pc & ? & Hpc & <-). destruct (Hkeep _ _ Hpc) as (pc' & ? & ?). by exists c', pc'.
  - intros H. destruct (Hres _ _ _ H) as (pc & Hpc & <-). by apply Hkeep.
Qed.

Lemma server_step_inv s s' : servers_inv s → server_step s s' → servers_inv s'.
Proof.
  intros HI [i server Hi|i server l made err Hi Hm|i server l ld Hi Hl Hd|i server l e Hi| |c].
  - apply enter_inv; [done|]. intros ?? H. congruence.
  - by apply finish_inv.
  - apply (woken_inv s i server l ld HI); [|done| |done].
    + intros ?? H. congruence.
    + destruct (vi_waiting s HI _ _ _ Hi) as (ld' & ? & ?). congruence.
  - apply with_caller_inv; [done| |done]. intros ?? H. congruence.
  - by apply registry_Close_inv.
  - by apply close_client_inv.
Qed.

Lemma servers_reachable_inv s : servers_reachable s → servers_inv s.
Proof.
  intros [configs H]. remember (newServerRegistry configs) as s0 eqn:E0.
  assert (servers_inv s0) by (subst; apply servers_inv_init). clear E0.
  induction H; eauto using server_step_inv.
Qed.

(** C20. However the calls, loads, cancellations and closings of the server
    registry interleave: a server has at most one client in use, and it is
    the one the registry hands out; while the registry is open a server has
    at most one start in flight; every start in flight is being run by
    exactly one call, so that no call waits for a start nobody will finish;
    a call that returns a client returns one of the server it asked for; and
    once the registry is closed no client is in use. *)
Theorem provider_singletons (s : ServerRegistry) (H : servers_reachable s) :
  (∀ server c, sr_clients s !! server = Some c ↔ live_client s c server) ∧
  (∀ server c c', live_client s c server → live_client s c' server → c = c') ∧
  (sr_closed s = false → ∀ server l l', running s l server → running s l' server → l = l') ∧
  (∀ i server l, sr_callers s !! i = Some (CallerWaiting server l) →
     (∃ ld, sr_load s !! l = Some ld ∧ pl_done ld = true) ∨
     (∃ j, sr_callers s !! j = Some (CallerLoading server l) ∧
           ∀ k server', sr_callers s !! k = Some (CallerLoading server' l) → k = j)) ∧
  (∀ i server c, sr_callers s !! i = Some (CallerDone server (Ok c)) →
     ∃ pc, sr_client s !! c = Some pc ∧ pc_server pc = server) ∧
  (sr_closed s = true → ∀ server c, ¬ live_client s c server).
Proof.
  pose proof (servers_reachable_inv s H) as HI. split_and!.
  - apply HI.
  - intros server c c' Ha%(vi_clients s HI) Hb%(vi_clients s HI). congruence.
  - intros Hcl server l l' Ha Hb. pose proof (vi_running s HI _ _ Ha Hcl). pose proof (vi_running s HI _ _ Hb Hcl). congruence.
  - intros i server l Hi. destruct (vi_waiting s HI _ _ _ Hi) as (ld & E & Hs).
    destruct (pl_done ld) eqn:Hd; [left; by eauto|]. right.
    destruct (vi_loader s HI server l) as [j Hj]; [by exists ld|]. exists j. split; [done|].
    intros k server' Hk. by eapply (vi_one_loader s HI).
  - apply HI.
  - intros Hcl server c Hl%(vi_clients s HI). destruct (vi_closed s HI Hcl) as [E _]. by rewrite E, lookup_empty in Hl.
Qed.

(** Two calls for one server, the second waiting for the first, which makes
    a client; the second then gets the same client. *)
Definition shared_start : ServerRegistry :=
  let s := newServerRegistry {["search"]} in
  let s := resumed 0 (enter s "search") in
  let s := resumed 1 (enter s "search") in
  let s := resumed 0 (finish s "search" 0 true None) in
  resumed 1 (woken s "search" (mkLoad "search" true (Some 0%nat) None false)).

Lemma shared_start_reachable : servers_reachable shared_start.
Proof.
  exists {["search"]}. eapply rtc_l; [by apply (server_call _ 0 "search")|].
  eapply rtc_l; [by apply (server_call _ 1 "search")|].
  eapply rtc_l; [by apply (server_factory _ 0 "search" 0 true None)|].
  eapply rtc_l; [|apply rtc_refl]. by eapply (server_wake _ 1 "search" 0).
Qed.

Lemma provider_singletons_witness :
  sr_callers shared_start !! 0%nat = Some (CallerDone "search" (Ok 0%nat)) ∧
  sr_callers shared_start !! 1%nat = Some (CallerDone "search" (Ok 0%nat)) ∧
  (∀ c, live_client shared_start c "search" → c = 0%nat).
Proof.
  split_and!; [vm_compute; reflexivity|vm_compute; reflexivity|].
  intros c Hc. apply (proj1 (proj2 (provider_singletons shared_start shared_start_reachable)) "search" c 0%nat Hc).
  vm_compute. reflexivity.
Defined.
