(* ===== verification/JsonStruct.v ===== *)
(** * Decoding JSON into structs

    [encoding/json]'s decoding into Go structs, maps, slices and pointers, for
    the types of [internal/hierarchy/hierarchy.go] and
    [structure_generator/capability_candidates.go]: a decoder takes what the
    destination holds and the value, and is [None] where [Unmarshal] reports a
    type error. [null] empties maps, slices and pointers and leaves strings
    alone; a repeated field decodes over what the first occurrence left. *)
From Stdlib Require Import Ascii String.
From S2P Require Import Prelude GoStrings Utf8 Json.
Local Open Scope string_scope.
Local Open Scope list_scope.
Local Open Scope Z_scope.

(** ** Decoders *)

Definition into_string (current : string) (v : json) : option string :=
  match v with JStr s => Some s | JNull => Some current | _ => None end.

(** A slice: an element is decoded over the element it replaces. *)
Fixpoint into_elements {A} (zero : A) (into : A → json → option A) (current : list A) (vs : list json) : option (list A) :=
  match vs with
  | [] => Some []
  | v :: vs => x ← into (default zero (head current)) v; xs ← into_elements zero into (tail current) vs; Some (x :: xs)
  end.
Definition into_list {A} (zero : A) (into : A → json → option A) (current : list A) (v : json) : option (list A) :=
  match v with JArr vs => into_elements zero into current vs | JNull => Some [] | _ => None end.
Definition into_strings : list string → json → option (list string) := into_list "" into_string.

(** A map: each member into a zero element, the last of a name winning. *)
Fixpoint into_entries {A} (into : json → option A) (current : gmap string A) (members : list (string * json)) :
    option (gmap string A) :=
  match members with
  | [] => Some current
  | (k, v) :: members => x ← into v; into_entries into (<[k := x]> current) members
  end.
Definition into_map {A} (into : json → option A) (current : gmap string A) (v : json) : option (gmap string A) :=
  match v with JObj members => into_entries into current members | JNull => Some ∅ | _ => None end.

(** [map[string]interface{}] as the members last written, [None] when nil. *)
Definition into_object (current : option (gmap string json)) (v : json) : option (option (gmap string json)) :=
  match v with
  | JObj members => Some <$> into_entries Some (default ∅ current) members
  | JNull => Some None
  | _ => None
  end.

(** A struct's field: every member that names it, in order. *)
Fixpoint into_field {A} (into : A → json → option A) (name : string) (current : A) (members : list (string * json)) : option A :=
  match members with
  | [] => Some current
  | (k, v) :: members =>
      if names_match name k then x ← into current v; into_field into name x members
      else into_field into name current members
  end.

(** A pointer to a struct whose fields [into_members] decodes. *)
Definition into_pointer {A} (zero : A) (into_members : A → list (string * json) → option A) (current : option A) (v : json) :
    option (option A) :=
  match v with
  | JObj members => Some <$> into_members (default zero current) members
  | JNull => Some None
  | _ => None
  end.

(** A struct: [null] changes nothing. *)
Definition into_struct {A} (into_members : A → list (string * json) → option A) (current : A) (v : json) : option A :=
  match v with JObj members => into_members current members | JNull => Some current | _ => None end.

(** ** Lemmas *)

Lemma into_entries_app {A} (into : json → option A) ms1 ms2 current :
  into_entries into current (ms1 ++ ms2) = m ← into_entries into current ms1; into_entries into m ms2.
Proof.
  revert current. induction ms1 as [|[k v] ms1 IH]; intros current; simpl; [done|].
  destruct (into v); simpl; auto.
Qed.

(** A map holds exactly what its members decode to, the last of a name
    winning. *)
Lemma into_entries_lookup {A} (into : json → option A) members : ∀ current m k x,
  into_entries into current members = Some m → m !! k = Some x →
  current !! k = Some x ∨ ∃ v, (k, v) ∈ members ∧ into v = Some x.
Proof.
  induction members as [|[k0 v0] members IH]; intros current m k x Hm Hk; simpl in Hm; [left; congruence|].
  destruct (into v0) as [x0|] eqn:E; simpl in Hm; [|done].
  destruct (IH _ _ _ _ Hm Hk) as [Hc|(v & Hv & ?)].
  - apply lookup_insert_Some in Hc as [[-> ->]|[_ ?]]; [right; exists v0; split; [by left|done]|by left].
  - right. exists v. split; [by right|done].
Qed.
