(* ===== verification/JsonRound.v ===== *)
(** * JSON texts are read back

    Everything [encoding/json] writes here is read back as it was: the
    compact text of [Marshal] and the indented text of an [Encoder] with
    [SetIndent] are the same printer with different white space, and the
    parser of [Json.v] inverts it on every value whose strings are valid
    UTF-8, whose numbers are JSON numbers, and which is not nested too deep. *)
From Stdlib Require Import Ascii String.
From S2P Require Import Prelude GoStrings Sha256 Regex Utf8 Json JsonScan.
Local Open Scope string_scope.
Local Open Scope list_scope.
Local Open Scope Z_scope.

(** ** The printer *)

Section printer.
(** The white space around the items of an array or object nested [d] deep,
    and after a colon. *)
Context (ws : nat → bytes) (colon_ws : bytes).

Fixpoint items (sep : bytes) (l : list bytes) : bytes :=
  match l with
  | [] => []
  | [x] => x
  | x :: l => x ++ sep ++ items sep l
  end.

Definition bracketed (d : nat) (opening closing : ascii) (l : list bytes) : bytes :=
  match l with
  | [] => [opening; closing]
  | _ => opening :: ws (S d) ++ items (comma :: ws (S d)) l ++ ws d ++ [closing]
  end.

Fixpoint print (d : nat) (v : json) : bytes :=
  match v with
  | JNull => to_bytes "null"
  | JBool b => to_bytes (if b then "true" else "false")
  | JNum n => to_bytes n
  | JStr s => render_string s
  | JArr l => bracketed d lbracket rbracket (map (print (S d)) l)
  | JObj l => bracketed d lbrace rbrace (map (λ f, render_string f.1 ++ colon :: colon_ws ++ print (S d) f.2) l)
  end.
End printer.

Definition newline : ascii := Z_byte 10.

(** [json.NewEncoder] with [SetIndent] of two spaces: the text of [Encode]. *)
Definition indent_ws (d : nat) : bytes := newline :: mjoin (replicate d (to_bytes "  ")).
Definition Encode_indented (v : json) : bytes := print indent_ws (to_bytes " ") 0 v ++ [newline].

(** Values that JSON can carry. *)
Fixpoint valid_json (v : json) : Prop :=
  match v with
  | JNum n => re_lang number_re (to_bytes n)
  | JStr s => ValidString s = true
  | JArr l => foldr (λ v P, valid_json v ∧ P) True l
  | JObj l => foldr (λ f P, ValidString f.1 = true ∧ valid_json f.2 ∧ P) True l
  | _ => True
  end.

(** What becomes of any other: a byte that is not UTF-8 is read back as U+FFFD. *)
Definition clean (s : string) : string := to_valid (to_bytes s).
Fixpoint clean_json (v : json) : json :=
  match v with
  | JStr s => JStr (clean s)
  | JArr l => JArr (map clean_json l)
  | JObj l => JObj (map (λ f, (clean f.1, clean_json f.2)) l)
  | _ => v
  end.
Fixpoint numbers_ok (v : json) : Prop :=
  match v with
  | JNum n => re_lang number_re (to_bytes n)
  | JArr l => foldr (λ v P, numbers_ok v ∧ P) True l
  | JObj l => foldr (λ f P, numbers_ok f.2 ∧ P) True l
  | _ => True
  end.

(** ** Lemmas: strings *)

Lemma to_valid_valid x : ValidString (to_valid x) = true.
Proof.
  apply of_runes_valid, Forall_map. eapply Forall_impl; [apply decode_spec|]. intros c. unfold chunk_ok.
  destruct (ch_valid c); [by intros [_ ?]|by intros [-> _]].
Qed.
Lemma clean_valid s : ValidString s = true → clean s = s.
Proof. apply of_runes_runes. Qed.

Lemma clean_empty s : clean s = "" → s = "".
Proof.
  unfold clean, to_valid, of_runes. intros E%(f_equal to_bytes). rewrite to_of_bytes in E. rewrite <- (of_to_bytes s).
  rewrite <- (proj1 (decode_spec (to_bytes s))). destruct (decode (to_bytes s)) as [|c cs]; [done|].
  change (encode_rune (ch_rune c) ++ mjoin (map encode_rune (map ch_rune cs)) = []) in E. apply app_eq_nil in E as [E _].
  unfold encode_rune in E. by repeat case_match.
Qed.

Lemma valid_json_clean v : valid_json v → numbers_ok v ∧ clean_json v = v.
Proof.
  revert v. fix IH 1. intros [|b|n|s|l|l]; cbn [valid_json numbers_ok clean_json]; try done.
  - intros Hs. by rewrite clean_valid.
  - intros Hl. assert (foldr (λ v P, numbers_ok v ∧ P) True l ∧ map clean_json l = l) as [? ->]; [|done].
    induction l as [|v l IHl]; [done|]. destruct Hl as [[? E]%IH Hl]. destruct (IHl Hl) as [? El]. cbn. by rewrite E, El.
  - intros Hl. assert (foldr (λ f P, numbers_ok f.2 ∧ P) True l ∧ map (λ f, (clean f.1, clean_json f.2)) l = l) as [? ->]; [|done].
    induction l as [|[k v] l IHl]; [done|]. destruct Hl as (Hk & [? E]%IH & Hl). destruct (IHl Hl) as [? El]. cbn [map foldr fst snd] in *.
    by rewrite E, El, clean_valid.
Qed.

Lemma hex4_escape r : 0 ≤ r < 65536 → ∃ a b c d,
  hex_byte (Z.shiftr r 8) ++ hex_byte (Z.land r 255) = [a; b; c; d] ∧ hex4 a b c d = Some r.
Proof.
  intros Hr.
  assert (∀ x, 0 ≤ x < 16 → hex_value (hex_digit x) = Some x) as Hd.
  { intros x Hx. assert (x = 0 ∨ x = 1 ∨ x = 2 ∨ x = 3 ∨ x = 4 ∨ x = 5 ∨ x = 6 ∨ x = 7 ∨ x = 8 ∨ x = 9 ∨ x = 10 ∨
      x = 11 ∨ x = 12 ∨ x = 13 ∨ x = 14 ∨ x = 15) as Hx' by lia.
    repeat (destruct Hx' as [->|Hx']; [vm_compute; reflexivity|]). subst. vm_compute. reflexivity. }
  unfold hex_byte. do 4 eexists. split; [reflexivity|]. unfold hex4.
  change 15 with (Z.ones 4). change 255 with (Z.ones 8). rewrite !Z.land_ones, !Z.shiftr_div_pow2 by lia.
  rewrite !Hd by (Z.to_euclidean_division_equations; lia). cbn [mbind option_bind]. f_equal.
  Z.to_euclidean_division_equations; lia.
Qed.

Lemma prepend_app x y r : prepend (x ++ y) r = prepend x (prepend y r).
Proof. destruct r as [[s rest]|]; [|done]. cbn. by rewrite app_assoc. Qed.
Lemma prepend_nil r : prepend [] r = r.
Proof. by destruct r as [[s rest]|]. Qed.

(** Bytes of a string that stand for themselves. *)
Definition literal_byte (a : ascii) : Prop := 32 ≤ byte_Z a ∧ a ≠ quote ∧ a ≠ backslash.

Lemma parse_chars_literal x l : Forall literal_byte x → parse_chars (x ++ l) = prepend x (parse_chars l).
Proof.
  induction 1 as [|a x (Ha & Hq & Hb) Hx IH]; [by rewrite prepend_nil|].
  cbn [app parse_chars]. apply Ascii.eqb_neq in Hq, Hb. rewrite Hq, Hb, (proj2 (Z.ltb_ge _ _) Ha). cbn [negb].
  rewrite IH. by rewrite <- (prepend_app [a]).
Qed.

Lemma parse_chars_simple b c l : Ascii.eqb b "u" = false → simple_escape b = Some c →
  parse_chars (backslash :: b :: l) = prepend [c] (parse_chars l).
Proof.
  intros Hu Hc. cbn [parse_chars]. change (Ascii.eqb backslash quote) with false. change (byte_Z backslash <? 32) with false.
  change (Ascii.eqb backslash backslash) with true. cbn [negb]. by rewrite Hu, Hc.
Qed.

Lemma parse_chars_escape_u r l :
  0 ≤ r < 65536 → is_high r = false → parse_chars (escape_u r ++ l) = prepend (encode_rune r) (parse_chars l).
Proof.
  intros Hr Hh. unfold escape_u. destruct (hex4_escape r Hr) as (a & b & c & d & -> & Hhex).
  change (to_bytes "\u") with [backslash; "u"%char]. cbn [app parse_chars].
  change (Ascii.eqb backslash quote) with false. change (byte_Z backslash <? 32) with false.
  change (Ascii.eqb backslash backslash) with true. change (Ascii.eqb "u" "u") with true. cbn [negb].
  rewrite Hhex. destruct l as [|e [|u [|g1 [|g2 [|g3 [|g4 l]]]]]]; try done.
  destruct (hex4 g1 g2 g3 g4); [|done]. by rewrite Hh, !andb_false_r.
Qed.

(** A rune beyond ASCII is encoded in bytes beyond ASCII. *)
Lemma encode_rune_literal r : valid_rune r = true → r ≠ 34 → r ≠ 92 → 32 ≤ r → Forall literal_byte (encode_rune r).
Proof.
  intros Hv Hq Hb Hr. unfold encode_rune. rewrite Hv. unfold valid_rune in Hv.
  assert (∀ z, 0 ≤ z < 256 → z ≠ 34 → z ≠ 92 → 32 ≤ z → literal_byte (Z_byte z)) as Hlit.
  { intros z Hz H1 H2 H3. unfold literal_byte. rewrite byte_Z_byte by done. split_and!; [done| |];
      intros E%(f_equal byte_Z); rewrite byte_Z_byte in E by done; vm_compute in E; congruence. }
  repeat case_match; bool_hyps; repeat constructor; apply Hlit; Z.to_euclidean_division_equations; lia.
Qed.

Lemma parse_chars_chunk c l : chunk_ok c → parse_chars (escape_chunk c ++ l) = prepend (encode_rune (ch_rune c)) (parse_chars l).
Proof.
  unfold chunk_ok, escape_chunk. destruct (ch_valid c); cbn [negb]; [|by intros [-> _]; apply parse_chars_escape_u]. intros [Hb Hv]. rewrite <- Hb.
  set (r := ch_rune c) in *.
  destruct (Z.eqb_spec r 34) as [->|H34]; [by apply parse_chars_simple|].
  destruct (Z.eqb_spec r 92) as [->|H92]; [by apply parse_chars_simple|]. cbn [orb].
  destruct (Z.eqb_spec r 8) as [->|_]; [by apply parse_chars_simple|].
  destruct (Z.eqb_spec r 12) as [->|_]; [by apply parse_chars_simple|].
  destruct (Z.eqb_spec r 10) as [->|_]; [by apply parse_chars_simple|].
  destruct (Z.eqb_spec r 13) as [->|_]; [by apply parse_chars_simple|].
  destruct (Z.eqb_spec r 9) as [->|_]; [by apply parse_chars_simple|].
  destruct ((r <? 32) || _ || _ || _ || _ || _) eqn:E.
  - apply parse_chars_escape_u; unfold valid_rune, is_high in *; lia.
  - apply parse_chars_literal, encode_rune_literal; [done..|]. lia.
Qed.

Lemma parse_chars_chunks cs rest :
  Forall chunk_ok cs → parse_chars (flat_map escape_chunk cs ++ quote :: rest) = Some (mjoin (map encode_rune (map ch_rune cs)), rest).
Proof.
  induction 1 as [|c cs Hok Hcs IH]; [done|]. cbn [flat_map]. rewrite <- app_assoc, parse_chars_chunk, IH by done. done.
Qed.

Lemma parse_string_render s rest : parse_string (render_string s ++ rest) = Some (clean s, rest).
Proof.
  unfold render_string, parse_string. cbn [app]. change (Ascii.eqb quote quote) with true. cbn iota.
  rewrite <- app_assoc. cbn [app]. rewrite parse_chars_chunks by apply decode_spec. cbn [mbind option_bind]. do 2 f_equal.
  transitivity (clean (clean s)); [unfold clean, to_valid, of_runes; by rewrite to_of_bytes|apply clean_valid, to_valid_valid].
Qed.

(** ** Lemmas: values *)

(** What may follow a value: nothing that a number could go on with. *)
Definition ends (rest : bytes) : Prop := ∀ a l, rest = a :: l → number_char a = false.

Lemma take_while_ends p x rest :
  Forall (λ b, p b = true) x → (∀ a l, rest = a :: l → p a = false) → take_while p (x ++ rest) = (x, rest).
Proof.
  intros Hx Hr. destruct rest as [|a l].
  - rewrite app_nil_r. induction Hx as [|b x Hb Hx IH]; [done|]. cbn. by rewrite Hb, IH.
  - apply take_while_all; [done|]. by eapply Hr.
Qed.

Lemma parse_number_ends n rest :
  re_lang number_re (to_bytes n) → ends rest → parse_number (to_bytes n ++ rest) = Some (n, rest).
Proof.
  intros Hn Hr. unfold parse_number. rewrite take_while_ends by (done || by apply number_chars).
  rewrite (proj2 (match_bytes_spec _ _) Hn). by rewrite of_to_bytes.
Qed.

(** The text of a scalar. *)
Lemma parse_scalar_print ws cw d v rest :
  numbers_ok v → match v with JArr _ | JObj _ => False | _ => True end → ends rest →
  skip_ws (print ws cw d v ++ rest) = print ws cw d v ++ rest ∧
  parse_scalar (print ws cw d v ++ rest) = Some (clean_json v, rest).
Proof.
  intros Hv Hs Hr. destruct v as [|b|n|s| |]; try done; cbn [print].
  - by destruct b.
  - pose proof (parse_number_ends n rest Hv Hr) as Hp. destruct (number_head _ Hv) as (a & l & Heq & Ha%digit_starts).
    rewrite Heq in *. cbn [app] in *. unfold starts_number in Ha. bool_hyps. split; [by apply skip_ws_char|].
    unfold parse_scalar. repeat match goal with H : Ascii.eqb a _ = false |- _ => rewrite H; clear H end. by rewrite Hp.
  - split; [done|]. by apply parse_string_scalar, parse_string_render.
Qed.

Definition white (w : bytes) : Prop := Forall (λ a, is_ws a = true) w.

Lemma skip_ws_white w l : white w → skip_ws (w ++ l) = skip_ws l.
Proof. induction 1 as [|a w Ha Hw IH]; [done|]. cbn. by rewrite Ha. Qed.

(** Reading a value starts with skipping white space. *)
Lemma reads_skip depth l l' v rest : skip_ws l = skip_ws l' → reads depth l v rest → reads depth l' v rest.
Proof.
  intros He Hr. inversion Hr; subst;
    [apply reads_scalar|eapply reads_empty_array|eapply reads_array|eapply reads_empty_object|eapply reads_object]; try done;
    rewrite <- He; done.
Qed.
Lemma reads_elements_skip depth l l' vs rest : skip_ws l = skip_ws l' → reads_elements depth l vs rest → reads_elements depth l' vs rest.
Proof.
  intros He Hr. inversion Hr; subst; [eapply reads_last|eapply reads_next]; try done; by eapply reads_skip.
Qed.
Lemma reads_members_skip depth l l' ms rest : skip_ws l = skip_ws l' → reads_members depth l ms rest → reads_members depth l' ms rest.
Proof.
  intros He Hr. inversion Hr; subst; [eapply reads_last_member|eapply reads_next_member]; try done; rewrite <- He; done.
Qed.

Lemma white_no_number a : is_ws a = true → number_char a = false.
Proof.
  intros Ha. unfold is_ws in Ha. rewrite <- (Z_byte_Z a).
  assert (byte_Z a = 32 ∨ byte_Z a = 9 ∨ byte_Z a = 10 ∨ byte_Z a = 13) as [-> | [-> | [-> | ->]]] by lia; done.
Qed.

Lemma white_ends w rest : white w → ends rest → ends (w ++ rest).
Proof. intros [|b w' Hb _] Hr; [done|]. intros a l [= <- _]. by apply white_no_number. Qed.
Lemma comma_ends l : ends (comma :: l).
Proof. by intros a l' [= <- _]. Qed.
Lemma close_ends c l : c = rbrace ∨ c = rbracket → ends (c :: l).
Proof. by intros [-> | ->] a l' [= <- _]. Qed.
#[local] Hint Resolve white_ends comma_ends close_ends : core.

Lemma items_map {A} sep (f : A → bytes) x y l : items sep (map f (x :: y :: l)) = f x ++ sep ++ items sep (map f (y :: l)).
Proof. done. Qed.

Section reading.
Context (ws : nat → bytes) (cw : bytes).
Hypothesis Hws : ∀ d, white (ws d).
Hypothesis Hcw : white cw.

(** A value printed at any nesting reads back. *)
Definition reads_back (v : json) : Prop := ∀ d depth rest,
  numbers_ok v → 0 ≤ depth → depth + json_depth v ≤ max_depth → ends rest → reads depth (print ws cw d v ++ rest) (clean_json v) rest.

Lemma print_elements d depth l rest : l ≠ [] → 
  Forall reads_back l → foldr (λ v P, numbers_ok v ∧ P) True l → 0 ≤ depth →
  depth + foldr (λ v n, Z.max (json_depth v) n) 0 l ≤ max_depth →
  reads_elements depth (items (comma :: ws (S d)) (map (print ws cw (S d)) l) ++ ws d ++ rbracket :: rest) (map clean_json l) rest.
Proof.
  intros Hne Hb Hv Hd Hdep. induction Hb as [|v l Hv1 Hl IH]; [done|]. cbn [foldr] in Hv, Hdep. destruct Hv as [Hv Hvl].
  destruct l as [|v2 l].
  - cbn [map items]. eapply reads_last; [apply Hv1; [done..|lia|]|].
    + auto.
    + by rewrite skip_ws_white.
  - specialize (IH ltac:(done) Hvl ltac:(lia)). rewrite items_map, <- app_assoc. cbn [app].
    eapply reads_next; [apply Hv1; [done..|lia|]| |].
    + auto.
    + done.
    + eapply reads_elements_skip; [|exact IH]. rewrite <- app_assoc. by rewrite (skip_ws_white (ws (S d))).
Qed.

Definition print_member (d : nat) (f : string * json) : bytes := render_string f.1 ++ colon :: cw ++ print ws cw d f.2.

Lemma print_members d depth l rest : l ≠ [] →
  Forall (λ f, reads_back f.2) l → foldr (λ f P, numbers_ok f.2 ∧ P) True l → 0 ≤ depth →
  depth + foldr (λ f n, Z.max (json_depth f.2) n) 0 l ≤ max_depth →
  reads_members depth (items (comma :: ws (S d)) (map (print_member (S d)) l) ++ ws d ++ rbrace :: rest) (map (λ f, (clean f.1, clean_json f.2)) l) rest.
Proof.
  intros Hne Hb Hv Hd Hdep. induction Hb as [|[k v] l Hv1 Hl IH]; [done|]. cbn [foldr fst snd] in Hv, Hdep, Hv1. destruct Hv as [Hv Hvl].
  assert (∀ x, skip_ws (render_string k ++ x) = render_string k ++ x) as Hskip by done.
  destruct l as [|v2 l].
  - cbn [map items]. unfold print_member. cbn [fst snd]. rewrite <- app_assoc. cbn [app].
    eapply reads_last_member; [rewrite Hskip; by apply parse_string_render|done| |].
    + eapply reads_skip; [|apply (Hv1 (S d) depth (ws d ++ rbrace :: rest)); [done..|lia|auto]].
      rewrite <- app_assoc. by rewrite (skip_ws_white cw).
    + by rewrite skip_ws_white.
  - specialize (IH ltac:(done) Hvl ltac:(lia)). rewrite items_map. set (tl := items _ (map _ (v2 :: l))) in *.
    unfold print_member at 1. cbn [fst snd]. rewrite <- !app_assoc. cbn [app].
    eapply reads_next_member; [rewrite Hskip; by apply parse_string_render|done| | |].
    + eapply reads_skip; [|apply (Hv1 (S d) depth (comma :: ws (S d) ++ tl ++ ws d ++ rbrace :: rest)); [done..|lia|]].
      * rewrite <- !app_assoc. by rewrite (skip_ws_white cw).
      * auto.
    + done.
    + eapply reads_members_skip; [|exact IH]. by rewrite (skip_ws_white (ws (S d))).
Qed.
End reading.

Section reading_all.
Context (ws : nat → bytes) (cw : bytes).
Hypothesis Hws : ∀ d, white (ws d).
Hypothesis Hcw : white cw.

Lemma read_array l : Forall (reads_back ws cw) l → reads_back ws cw (JArr l).
Proof.
  intros Hl d depth rest Hv Hd Hdep _. pose proof (scan_value_depth (JArr l)) as [Hpos _]. cbn [numbers_ok json_depth clean_json] in *.
  assert (0 ≤ foldr (λ v n, Z.max (json_depth v) n) 0 l) by (clear; induction l; cbn; lia).
  destruct l as [|v l]; [by eapply reads_empty_array; [done|lia|]|]. cbn [print map]. unfold bracketed. cbn [app].
  eapply reads_array; [done|lia|]. eapply reads_elements_skip; [|eapply (print_elements ws cw Hws d (depth + 1) (v :: l)); [done..|lia|lia]].
  rewrite <- !app_assoc. by rewrite (skip_ws_white (ws (S d))).
Qed.

Lemma read_object l : Forall (λ f, reads_back ws cw f.2) l → reads_back ws cw (JObj l).
Proof.
  intros Hl d depth rest Hv Hd Hdep _. pose proof (scan_value_depth (JObj l)) as [Hpos _]. cbn [numbers_ok json_depth clean_json] in *.
  assert (0 ≤ foldr (λ f n, Z.max (json_depth f.2) n) 0 l) by (clear; induction l; cbn; lia).
  destruct l as [|v l]; [by eapply reads_empty_object; [done|lia|]|]. cbn [print map]. unfold bracketed. cbn [app].
  eapply reads_object; [done|lia|]. eapply reads_members_skip; [|eapply (print_members ws cw Hws Hcw d (depth + 1) (v :: l)); [done..|lia|lia]].
  rewrite <- !app_assoc. by rewrite (skip_ws_white (ws (S d))).
Qed.

Lemma read_all v : reads_back ws cw v.
Proof.
  revert v. fix IH 1. intros [|b|n|s|l|l].
  1-4: intros d depth rest Hv Hd Hdep He; apply reads_scalar;
    destruct (parse_scalar_print ws cw d _ rest Hv I He) as [-> ->]; done.
  - apply read_array. induction l as [|v l IHl]; constructor; [apply IH|apply IHl].
  - apply read_object. induction l as [|[k v] l IHl]; constructor; [apply IH|apply IHl].
Qed.

Lemma parse_print v tail : numbers_ok v → json_depth v ≤ max_depth → white tail → parse (print ws cw 0 v ++ tail) = Some (clean_json v).
Proof.
  intros Hv Hd Ht. apply parse_exact. exists tail. split; [apply read_all; [done..|]|].
  - rewrite <- (app_nil_r tail). apply white_ends; [done|by intros ? ?].
  - rewrite <- (app_nil_r tail). by rewrite skip_ws_white.
Qed.
End reading_all.

(** The compact text is the printer's without white space. *)
Lemma commas_items l : commas l = items [comma] l.
Proof. induction l as [|x [|y l] IH]; [done..|]. cbn [commas items app]. cbn [commas] in IH. by rewrite IH. Qed.

Lemma bracketed_compact d o c l : bracketed (λ _, []) d o c l = o :: commas l ++ [c].
Proof. destruct l as [|x l]; [done|]. by rewrite commas_items. Qed.

Lemma render_print v d : render v = print (λ _, []) [] d v.
Proof.
  revert v d. fix IH 1. intros [|b|n|s|l|l] d; [done..| |]; cbn [render print]; rewrite bracketed_compact; do 3 f_equal.
  - induction l as [|v l IHl]; [done|]. cbn [map]. f_equal; [apply IH|exact IHl].
  - induction l as [|[k v] l IHl]; [done|]. cbn [map fst snd]. f_equal; [do 2 f_equal; apply IH|exact IHl].
Qed.

Lemma indent_white d : white (indent_ws d).
Proof. constructor; [done|]. induction d as [|d IH]; [constructor|]. repeat constructor. exact IH. Qed.

Lemma marshalled_cleans v : numbers_ok v → json_depth v ≤ max_depth → parse (Marshal v) = Some (clean_json v).
Proof.
  intros Hv Hd. unfold Marshal. rewrite (render_print v 0), <- (app_nil_r (print _ _ _ _)). apply parse_print; try done; repeat constructor.
Qed.
Lemma encoded_cleans v : numbers_ok v → json_depth v ≤ max_depth → parse (Encode_indented v) = Some (clean_json v).
Proof. intros Hv Hd. apply parse_print; [apply indent_white|by repeat constructor|done|done|by repeat constructor]. Qed.
Lemma marshalled_parses v : valid_json v → json_depth v ≤ max_depth → parse (Marshal v) = Some v.
Proof. intros [Hn E]%valid_json_clean Hd. by rewrite marshalled_cleans, E. Qed.
Lemma encoded_parses v : valid_json v → json_depth v ≤ max_depth → parse (Encode_indented v) = Some v.
Proof. intros [Hn E]%valid_json_clean Hd. by rewrite encoded_cleans, E. Qed.

(** ** What is read can be written *)

Lemma parse_string_valid l s rest : parse_string l = Some (s, rest) → ValidString s = true.
Proof.
  unfold parse_string. destruct l as [|a l]; [done|]. destruct (Ascii.eqb a quote); [|done]. destruct (parse_chars l) as [[x r]|]; [|done].
  intros [= <- _]. apply to_valid_valid.
Qed.

Lemma parse_scalar_valid l v rest : parse_scalar l = Some (v, rest) → valid_json v.
Proof.
  unfold parse_scalar. destruct l as [|a l]; [done|]. destruct (Ascii.eqb a quote).
  { destruct (parse_string (a :: l)) as [[s r]|] eqn:E; [|done]. intros [= <- _]. by eapply parse_string_valid. }
  destruct (Ascii.eqb a "t"); [destruct (strip "true" _); [by intros [= <- _]|done]|].
  destruct (Ascii.eqb a "f"); [destruct (strip "false" _); [by intros [= <- _]|done]|].
  destruct (Ascii.eqb a "n"); [destruct (strip "null" _); [by intros [= <- _]|done]|].
  unfold parse_number. destruct (take_while number_char (a :: l)) as [x r]. destruct (match_bytes number_re x) eqn:E; [|done].
  intros [= <- _]. cbn [valid_json]. rewrite to_of_bytes. by apply match_bytes_spec.
Qed.

Lemma reads_valid :
  (∀ depth l v rest, reads depth l v rest → valid_json v ∧ (depth ≤ max_depth → depth + json_depth v ≤ max_depth)) ∧
  (∀ depth l vs rest, reads_elements depth l vs rest →
     foldr (λ v P, valid_json v ∧ P) True vs ∧ (depth ≤ max_depth → depth + foldr (λ v n, Z.max (json_depth v) n) 0 vs ≤ max_depth)) ∧
  (∀ depth l ms rest, reads_members depth l ms rest →
     foldr (λ f P, ValidString f.1 = true ∧ valid_json f.2 ∧ P) True ms ∧
     (depth ≤ max_depth → depth + foldr (λ f n, Z.max (json_depth f.2) n) 0 ms ≤ max_depth)).
Proof.
  apply reads_mutind.
  - intros depth l v rest Hs. split; [by eapply parse_scalar_valid|]. destruct (parse_scalar_plain _ _ _ Hs) as [-> _]. lia.
  - intros depth l l' rest _ Hd _. split; [done|]. cbn. lia.
  - intros depth l l' vs rest _ Hd _ [Hv Hm]. split; [done|]. cbn [json_depth]. lia.
  - intros depth l l' rest _ Hd _. split; [done|]. cbn. lia.
  - intros depth l l' ms rest _ Hd _ [Hv Hm]. split; [done|]. cbn [json_depth]. lia.
  - intros depth l v r rest _ [Hv Hm] _. cbn [foldr]. split; [done|]. lia.
  - intros depth l v r l' vs rest _ [Hv Hm] _ _ [Hvs Hms]. cbn [foldr]. split; [done|]. lia.
  - intros depth l k r l' v r' rest Hk _ _ [Hv Hm] _. cbn [foldr fst snd]. split; [by split; [eapply parse_string_valid|]|]. lia.
  - intros depth l k r l' v r' l2 ms rest Hk _ _ [Hv Hm] _ _ [Hvs Hms]. cbn [foldr fst snd]. split; [by split; [eapply parse_string_valid|]|]. lia.
Qed.

(** What was parsed is valid and within the depth, and so can be written. *)
Lemma parse_valid data v : parse data = Some v → valid_json v ∧ json_depth v ≤ max_depth.
Proof.
  intros (rest & Hr & _)%parse_exact. destruct (proj1 reads_valid _ _ _ _ Hr) as [Hv Hd]. split; [done|]. unfold max_depth in *. lia.
Qed.

(** ** Properties *)

(** A JSON value is read back as it was written, from the compact text of
    [Marshal] and from the indented text of the encoder alike: strings with
    their escapes, members in their order and empty arrays and objects, as long
    as the strings are UTF-8 and the nesting is one that [encoding/json] reads. *)
Theorem json_roundtrip v :
  valid_json v → json_depth v ≤ max_depth → parse (Marshal v) = Some v ∧ parse (Encode_indented v) = Some v.
Proof. intros Hv Hd. split; [by apply marshalled_parses|by apply encoded_parses]. Qed.

Definition sample_json : json :=
  JObj [("overview", JStr "a <b> & \c"); ("tools", JObj []); ("list", JArr [JNum "-1.5e3"; JBool true; JNull; JArr []])].

Lemma json_roundtrip_witness :
  valid_json sample_json ∧ json_depth sample_json ≤ max_depth ∧
  (parse (Marshal sample_json) = Some sample_json ∧ parse (Encode_indented sample_json) = Some sample_json).
Proof.
  assert (valid_json sample_json) as Hv.
  { cbn. split_and!; try done; [by vm_compute..|]. apply match_bytes_spec. by vm_compute. }
  split; [exact Hv|]. split; [by vm_compute|]. apply (json_roundtrip sample_json); [exact Hv|by vm_compute].
Defined.
