(* ===== verification/Hierarchy.v ===== *)
(** * The tool hierarchy

    Models the [Hierarchy] of [internal/hierarchy/hierarchy.go]: loading the
    JSON nodes of a directory tree, listing a category, and resolving a tool's
    path to its definition and the server that runs it. *)
From Stdlib Require Import Ascii String.
From S2P Require Import Prelude GoStrings Limits Regex Utf8 Json JsonStruct.
Local Open Scope string_scope.
Local Open Scope list_scope.
Local Open Scope Z_scope.

(** ** Data *)

Record ToolDefinition := mkTool {
  td_Description : string; td_MapsTo : string; td_Server : string; td_InputSchema : option (gmap string json) }.
Record MCPServerRef := mkServerRef {
  sv_Name : string; sv_Type : string; sv_Command : string; sv_Args : list string; sv_Env : gmap string string;
  sv_URL : string; sv_Headers : gmap string string; sv_ToolMappings : gmap string string }.
Record HierarchyNodeData := mkNodeData {
  nd_Overview : string; nd_Tools : gmap string json; nd_MCPServer : option MCPServerRef }.
Record HierarchyNode := mkHNode {
  hy_Overview : string; hy_Tools : gmap string ToolDefinition; hy_MCPServer : option MCPServerRef }.

(** [Hierarchy.nodes], which nothing changes after [LoadHierarchy]. *)
Definition Hierarchy : Type := gmap string HierarchyNode.

(** ** [loadNode] *)

Definition zero_server : MCPServerRef := mkServerRef "" "" "" [] ∅ "" ∅ ∅.
Definition server_members (c : MCPServerRef) (ms : list (string * json)) : option MCPServerRef :=
  name ← into_field into_string "name" (sv_Name c) ms;
  type ← into_field into_string "type" (sv_Type c) ms;
  command ← into_field into_string "command" (sv_Command c) ms;
  args ← into_field into_strings "args" (sv_Args c) ms;
  env ← into_field (into_map (into_string "")) "env" (sv_Env c) ms;
  url ← into_field into_string "url" (sv_URL c) ms;
  headers ← into_field (into_map (into_string "")) "headers" (sv_Headers c) ms;
  mappings ← into_field (into_map (into_string "")) "tool_mappings" (sv_ToolMappings c) ms;
  Some (mkServerRef name type command args env url headers mappings).
Definition node_members (c : HierarchyNodeData) (ms : list (string * json)) : option HierarchyNodeData :=
  overview ← into_field into_string "overview" (nd_Overview c) ms;
  tools ← into_field (into_map Some) "tools" (nd_Tools c) ms;
  server ← into_field (into_pointer zero_server server_members) "mcp_server" (nd_MCPServer c) ms;
  Some (mkNodeData overview tools server).

Definition unmarshal_error : error := Sentinel "json: cannot unmarshal".

(** [toolMap[name]] of a decoded [map[string]interface{}]. *)
Definition entry (toolMap : list (string * json)) (name : string) : option json :=
  (default ∅ (into_entries Some ∅ toolMap) : gmap string json) !! name.
Definition entry_string (toolMap : list (string * json)) (name : string) : option string :=
  match entry toolMap name with Some (JStr s) => Some s | _ => None end.

Definition tool_of (toolName : string) (toolData : json) : option ToolDefinition :=
  match toolData with
  | JObj toolMap =>
      Some (mkTool (default "" (entry_string toolMap "description")) (default toolName (entry_string toolMap "maps_to"))
        (default "" (entry_string toolMap "server"))
        (match entry toolMap "inputSchema" with Some (JObj schema) => into_entries Some ∅ schema | _ => None end))
  | _ => None
  end.

Definition loadNode (data : result error bytes) : result error HierarchyNode :=
  let! data := data in
  match v ← parse data; into_struct node_members (mkNodeData "" ∅ None) v with
  | None => Err unmarshal_error
  | Some d => Ok (mkHNode (nd_Overview d) (map_imap tool_of (nd_Tools d)) (nd_MCPServer d))
  end.

(** ** [LoadHierarchy] *)

(** What [filepath.Walk] meets: a file with what reading it gives, a
    directory with its entries in the lexical order of the walk, a directory
    that cannot be listed or an entry that cannot be inspected. *)
Inductive tree :=
| TFile (data : result error bytes)
| TDir (entries : list (string * tree))
| TUnreadable (err : error).

Definition ReplaceByte (s : string) (old new : ascii) : string :=
  of_bytes (map (λ c, if Ascii.eqb c old then new else c) (to_bytes s)).
Definition TrimSuffix (s suffix : string) : string :=
  if HasSuffix s suffix then slice_to s (slen s - slen suffix) else s.

(** The key of a file, from the directories that lead to it from the root,
    the last component of the root's path and the file's name. *)
Definition hierarchy_key (rootBase : string) (dirs : list string) (name : string) : string :=
  let relPath := match dirs with [] => "." | _ => Join dirs "/" end in
  let filename := TrimSuffix name ".json" in
  let dirname := default rootBase (last dirs) in
  let dirKey := ReplaceByte relPath "/" "." in
  if String.eqb filename dirname then (if String.eqb dirKey "." then "" else dirKey)
  else if String.eqb dirKey "." || String.eqb dirKey "" then filename
  else dirKey +:+ "." +:+ filename.

(** The callback of the walk on a file. *)
Definition load_file (rootBase : string) (dirs : list string) (name : string) (data : result error bytes) (nodes : Hierarchy) : Hierarchy :=
  if negb (HasSuffix name ".json") || String.eqb name "root.json" then nodes
  else match loadNode data with
       | Err _ => nodes
       | Ok node => <[hierarchy_key rootBase dirs name := node]> nodes
       end.

Fixpoint load_tree (rootBase : string) (dirs : list string) (name : string) (t : tree) (nodes : Hierarchy) : result error Hierarchy :=
  match t with
  | TUnreadable err => Err err
  | TFile data => Ok (load_file rootBase dirs name data nodes)
  | TDir entries =>
      (fix load_entries (entries : list (string * tree)) (nodes : Hierarchy) : result error Hierarchy :=
         match entries with
         | [] => Ok nodes
         | (child, t) :: entries => let! nodes := load_tree rootBase (dirs ++ [name]) child t nodes in load_entries entries nodes
         end) entries nodes
  end.
Definition load_entries (rootBase : string) (dirs : list string) : list (string * tree) → Hierarchy → result error Hierarchy :=
  fix load_entries entries nodes :=
    match entries with
    | [] => Ok nodes
    | (child, t) :: entries => let! nodes := load_tree rootBase dirs child t nodes in load_entries entries nodes
    end.

(** The root directory is [root], whose [root.json] reads as [rootFile]. *)
Definition LoadHierarchy (hierarchyPath : string) (rootFile : result error bytes) (root : tree) : result error Hierarchy :=
  let! rootNode := match loadNode rootFile with Ok n => Ok n | Err e => Err (Wrapf "failed to load root node: %w" [] e) end in
  let nodes : Hierarchy := <["/" := rootNode]> {["" := rootNode]} in
  match (match root with
         | TDir entries => load_entries (path_Base (path_Clean hierarchyPath)) [] entries nodes
         | TFile _ => Ok nodes
         | TUnreadable err => Err err
         end) with
  | Ok nodes => Ok nodes
  | Err e => Err (Wrapf "failed to walk hierarchy: %w" [] e)
  end.

Definition GetRootNode (h : Hierarchy) : option HierarchyNode := h !! "".

(** ** [HandleGetToolsInCategory] *)

(** The maps of the response. *)
Inductive childInfo := ChildLeaf (tool_count : Z) | ChildBranch (overview : string).
Record toolInfo := mkToolInfo { ti_description : string; ti_tool_path : string }.
Record category := mkCategory {
  ct_path : string; ct_overview : string; ct_children : gmap string childInfo; ct_tools : gmap string toolInfo }.

Definition category_path (path : string) : string := Trim (if String.eqb path "/" then "" else path) ".".

(** The name under which a node is a direct child of [path]. *)
Definition direct_child (path nodePath : string) : option string :=
  if String.eqb nodePath path || String.eqb nodePath "" then None
  else if String.eqb path "" then (if negb (ContainsByte nodePath ".") then Some nodePath else None)
  else if HasPrefix nodePath (path +:+ ".") then
    let remainder := TrimPrefix nodePath (path +:+ ".") in
    if negb (ContainsByte remainder ".") then Some remainder else None
  else None.

Definition child_info (n : HierarchyNode) : childInfo :=
  if decide (hy_Tools n = ∅) then ChildBranch (hy_Overview n) else ChildLeaf (Z.of_nat (size (hy_Tools n))).

(** One turn of the loop over [h.nodes]: the children found, whether all are
    leaves, and their tools. *)
Definition child_step (path : string) (s : gmap string childInfo * bool * gmap string toolInfo) (e : string * HierarchyNode) :
    gmap string childInfo * bool * gmap string toolInfo :=
  let '(children, leaves, tools) := s in
  match direct_child path e.1 with
  | None => s
  | Some childName =>
      (<[childName := child_info e.2]> children, leaves && bool_decide (hy_Tools e.2 ≠ ∅),
       ((λ t, mkToolInfo (td_Description t) e.1) <$> hy_Tools e.2) ∪ tools)
  end.

Definition tool_path (path toolName : string) : string :=
  if String.eqb path "" then toolName else path +:+ "." +:+ toolName.

(** [order] is the order in which [range] visits [h.nodes]. *)
Definition HandleGetToolsInCategory (order : list (string * HierarchyNode)) (h : Hierarchy) (path : string) : result error category :=
  let path := category_path path in
  match h !! path with
  | None => Err (Errorf "category not found: %s" [FStr path])
  | Some node =>
      let '(children, leaves, aggregated) := foldl (child_step path) (∅, true, ∅) order in
      Ok (mkCategory path (hy_Overview node) children
            (if decide (hy_Tools node = ∅) then (if leaves then aggregated else ∅)
             else map_imap (λ toolName t, Some (mkToolInfo (td_Description t) (tool_path path toolName))) (hy_Tools node)))
  end.

(** ** [ResolveToolPath] and [HandleExecuteTool] *)

Definition node_tool (h : Hierarchy) (categoryPath toolName : string) : option ToolDefinition :=
  node ← h !! categoryPath; hy_Tools node !! toolName.

(** The loop from the longest prefix down; [i] is the number of parts of the
    category's path. *)
Fixpoint resolve_from (h : Hierarchy) (parts : list string) (i : nat) : option ToolDefinition :=
  match i with
  | O => node_tool h "" (default "" (head parts))
  | S i' =>
      match node_tool h (Join (take i parts) ".") (default "" (last parts)) with
      | Some tool => Some tool
      | None => resolve_from h parts i'
      end
  end.

Definition ResolveToolPath (h : Hierarchy) (toolPath : string) : result error (ToolDefinition * string) :=
  let parts := Split toolPath "." in
  match (match node_tool h toolPath (default "" (last parts)) with
         | Some tool => Some tool
         | None => resolve_from h parts (length parts - 1)
         end) with
  | None => Err (Errorf "tool not found: %s" [FStr toolPath])
  | Some tool => Ok (tool, td_Server tool)
  end.

(** What [HandleExecuteTool] passes to [ExecuteMappedTool]: the server, the
    tool's name there and the schema for error messages. *)
Definition HandleExecuteTool (h : Hierarchy) (toolPath : string) : result error (string * string * option (gmap string json)) :=
  let! '(toolDef, serverName) := ResolveToolPath h toolPath in
  fail_if String.eqb serverName "" with Errorf "no MCP server configured for tool: %s" [FStr toolPath] else
  let actualToolName := if String.eqb (td_MapsTo toolDef) "" then default "" (last (Split toolPath ".")) else td_MapsTo toolDef in
  Ok (serverName, actualToolName, td_InputSchema toolDef).

(** ** Specification *)

(** The path of a child. *)
Definition child_path (path child : string) : string := if String.eqb path "" then child else path +:+ "." +:+ child.

(** [node] is the node of a direct child of [path], called [child]. *)
Definition child_of (h : Hierarchy) (path child : string) (node : HierarchyNode) : Prop :=
  h !! child_path path child = Some node ∧ ContainsByte child "." = false ∧ child_path path child ≠ "".

(** A tool of a child, as listed. *)
Definition aggregated_tool (h : Hierarchy) (path toolName : string) (i : toolInfo) : Prop :=
  ∃ child node tool, child_of h path child node ∧ hy_Tools node !! toolName = Some tool ∧
    i = mkToolInfo (td_Description tool) (child_path path child).

(** ** Lemmas *)

Lemma HasPrefix_app p r : HasPrefix (p +:+ r) p = true.
Proof. apply HasPrefix_spec. by exists r. Qed.

Lemma str_app_neq_self p c r : p +:+ String c r ≠ p.
Proof. intros H. apply (f_equal slen) in H. rewrite slen_app in H. unfold slen in H. cbn [String.length] in H. lia. Qed.

Lemma direct_child_spec path nodePath child :
  direct_child path nodePath = Some child ↔
  nodePath = child_path path child ∧ ContainsByte child "." = false ∧ nodePath ≠ "".
Proof.
  unfold direct_child, child_path. destruct (String.eqb_spec path "") as [->|Hp].
  - destruct (String.eqb_spec nodePath "") as [->|Hn]; cbn [orb]; [naive_solver|].
    destruct (ContainsByte nodePath ".") eqn:E; cbn; [naive_solver congruence|naive_solver].
  - split.
    + destruct (String.eqb_spec nodePath path); [done|]. destruct (String.eqb_spec nodePath ""); [done|]. cbn [orb].
      destruct (HasPrefix nodePath (path +:+ ".")) eqn:E; [|done].
      apply HasPrefix_spec in E as [r ->]. rewrite TrimPrefix_app.
      destruct (ContainsByte r ".") eqn:Er; [done|]. intros [= <-]. split_and!; [by rewrite str_app_assoc|done..].
    + intros (-> & Hc & Hne). destruct (String.eqb_spec (path +:+ "." +:+ child) path) as [E|_].
      { exfalso. revert E. cbn. apply str_app_neq_self. }
      destruct (String.eqb_spec (path +:+ "." +:+ child) ""); [done|]. cbn [orb].
      rewrite <- str_app_assoc, HasPrefix_app, TrimPrefix_app, Hc. done.
Qed.

Lemma child_path_inj path c c' : child_path path c = child_path path c' → c = c'.
Proof.
  unfold child_path. destruct (String.eqb path ""); [done|]. intros H. apply str_app_inv_l in H. by injection H.
Qed.

(** What the loop over the nodes has found. *)
Record listed (path : string) (visited : list (string * HierarchyNode)) (children : gmap string childInfo) (leaves : bool)
    (tools : gmap string toolInfo) : Prop := {
  li_children c i : children !! c = Some i ↔ ∃ e, e ∈ visited ∧ direct_child path e.1 = Some c ∧ i = child_info e.2;
  li_leaves : leaves = true ↔ ∀ e c, e ∈ visited → direct_child path e.1 = Some c → hy_Tools e.2 ≠ ∅;
  li_sound t i : tools !! t = Some i → ∃ e c tool, e ∈ visited ∧ direct_child path e.1 = Some c ∧
    hy_Tools e.2 !! t = Some tool ∧ i = mkToolInfo (td_Description tool) e.1;
  li_complete e c t : e ∈ visited → direct_child path e.1 = Some c → is_Some (hy_Tools e.2 !! t) → is_Some (tools !! t);
}.

Lemma listed_skip path visited children leaves tools e :
  listed path visited children leaves tools → direct_child path e.1 = None → listed path (visited ++ [e]) children leaves tools.
Proof.
  intros [Hc Hl Hs Hp] He.
  assert (∀ e' c, e' ∈ visited ++ [e] → direct_child path e'.1 = Some c → e' ∈ visited) as Hin.
  { intros e' c [?| ->%list_elem_of_singleton]%elem_of_app ?; [done|congruence]. }
  split; intros *.
  - rewrite Hc. split; intros (e' & ? & ? & ?); exists e'; split_and!; try done; [by apply elem_of_app; left|by eapply Hin].
  - rewrite Hl. split; intros H e' c Hv Hd; eapply H; try done; [by eapply Hin|by apply elem_of_app; left].
  - intros (e' & c & tool & ? & ? & ? & ?)%Hs. exists e', c, tool. split_and!; try done. apply elem_of_app. by left.
  - intros Hv Hd. apply Hp with c; [by eapply Hin|done].
Qed.

Lemma listed_child path visited children leaves tools e c :
  listed path visited children leaves tools → direct_child path e.1 = Some c → e.1 ∉ visited.*1 →
  listed path (visited ++ [e]) (<[c := child_info e.2]> children) (leaves && bool_decide (hy_Tools e.2 ≠ ∅))
    (((λ t, mkToolInfo (td_Description t) e.1) <$> hy_Tools e.2) ∪ tools).
Proof.
  intros [Hc Hl Hs Hp] He Hnew. split; intros *.
  - destruct (decide (c = c0)) as [<-|Hne].
    + rewrite lookup_insert_eq. split.
      * intros [= <-]. exists e. split_and!; [apply elem_of_app; right; by left|done..].
      * intros (e' & [Hin| ->%list_elem_of_singleton]%elem_of_app & Hd & ->); [|done]. exfalso.
        apply Hnew. apply list_elem_of_fmap. exists e'. split; [|done].
        apply direct_child_spec in He as (-> & _), Hd as (-> & _). done.
    + rewrite lookup_insert_ne by done. rewrite Hc. split.
      * intros (e' & ? & ? & ?). exists e'. split_and!; try done. apply elem_of_app. by left.
      * intros (e' & [?| ->%list_elem_of_singleton]%elem_of_app & Hd & ?); [by exists e'|congruence].
  - rewrite andb_true_iff, bool_decide_eq_true, Hl. split.
    + intros [Ha Hb] e' c' [?| ->%list_elem_of_singleton]%elem_of_app Hd; [by eapply Ha|done].
    + intros H. split; [|eapply H; [apply elem_of_app; right; by left|done]].
      intros e' c' ? ?. eapply H; [apply elem_of_app; by left|done].
  - intros [H|[_ H]]%lookup_union_Some_raw.
    + apply lookup_fmap_Some in H as (tool & <- & Ht). exists e, c, tool. split_and!; try done. apply elem_of_app. right. by left.
    + destruct (Hs _ _ H) as (e' & c' & tool & ? & ? & ? & ?). exists e', c', tool. split_and!; try done. apply elem_of_app. by left.
  - intros [Hin| ->%list_elem_of_singleton]%elem_of_app Hd Ht; apply lookup_union_is_Some; [right; by eapply Hp|left].
    by rewrite lookup_fmap, fmap_is_Some.
Qed.

Lemma child_loop path order :
  NoDup order.*1 →
  let '(children, leaves, tools) := foldl (child_step path) (∅, true, ∅) order in listed path order children leaves tools.
Proof.
  induction order as [|e order IH] using rev_ind; intros Hnd.
  { simpl. split; intros *; [rewrite lookup_empty; split; [done|by intros (? & ?%elem_of_nil & _)]|
      split; [intros _ ? ? ?%elem_of_nil; done|done]|by rewrite lookup_empty|by intros ?%elem_of_nil]. }
  rewrite fmap_app, NoDup_app in Hnd. destruct Hnd as (Hnd & Hdis & _). specialize (IH Hnd). rewrite foldl_app. cbn [foldl].
  destruct (foldl (child_step path) (∅, true, ∅) order) as [[children leaves] tools]. unfold child_step.
  destruct (direct_child path e.1) as [c|] eqn:E; [|by apply listed_skip].
  apply listed_child; [done..|]. intros Hin. eapply Hdis; [done|]. by left.
Qed.

Lemma order_elem (h : Hierarchy) order e : order ≡ₚ map_to_list h → e ∈ order ↔ h !! e.1 = Some e.2.
Proof. intros Ho. rewrite Ho. destruct e as [k x]. unfold Hierarchy in *. apply elem_of_map_to_list. Qed.

Lemma order_NoDup (h : Hierarchy) order : order ≡ₚ map_to_list h → NoDup order.*1.
Proof. intros ->. apply NoDup_fst_map_to_list. Qed.

(** The direct children among the visited nodes are the children by the
    specification. *)
Lemma visited_child (h : Hierarchy) order path c :
  order ≡ₚ map_to_list h → ∀ node, child_of h path c node ↔ ∃ e, e ∈ order ∧ direct_child path e.1 = Some c ∧ e.2 = node.
Proof.
  intros Ho node. unfold child_of. split.
  - intros (Hh & Hc & Hne). exists (child_path path c, node). split_and!; [by apply (order_elem h)|by apply direct_child_spec|done].
  - intros ([k n] & He & (Hk & ? & ?)%direct_child_spec & <-). apply (order_elem h) in He; [|done]. simpl in *. by subst.
Qed.

(** ** Lemmas: paths of tools *)

Lemma Split_tool_path p t :
  ContainsByte t "." = false → Split (tool_path p t) "." = (if String.eqb p "" then [] else Split p ".") ++ [t].
Proof.
  intros Ht. unfold tool_path. destruct (String.eqb p ""); [by apply Split_no_byte|].
  change (p +:+ "." +:+ t) with (p +:+ String "." t). rewrite Split_app_sep_any. by rewrite (Split_no_byte t).
Qed.

Lemma last_tool_path p t : ContainsByte t "." = false → last (Split (tool_path p t) ".") = Some t.
Proof. intros Ht. by rewrite Split_tool_path, last_snoc. Qed.

Lemma resolve_from_S h parts i :
  resolve_from h parts (S i) =
  match node_tool h (Join (take (S i) parts) ".") (default "" (last parts)) with
  | Some tool => Some tool
  | None => resolve_from h parts i
  end.
Proof. done. Qed.

(** The first category that [ResolveToolPath] tries for a tool's path, once
    the path itself is no node with the tool, is the tool's own. *)
Lemma resolve_from_own h p t :
  ContainsByte t "." = false →
  is_Some (node_tool h p t) →
  resolve_from h (Split (tool_path p t) ".") (length (Split (tool_path p t) ".") - 1) = node_tool h p t.
Proof.
  intros Ht [tool Htool]. rewrite Split_tool_path by done. destruct (String.eqb_spec p "") as [->|Hp]; [done|].
  rewrite length_app. cbn [length]. replace (length (Split p ".") + 1 - 1)%nat with (length (Split p ".")) by lia.
  destruct (length (Split p ".")) as [|i] eqn:E; [apply nil_length_inv in E; by apply Split_ne_nil in E|].
  rewrite resolve_from_S, last_snoc, <- E, take_app_length, (Join_Split p "."). change (default "" (Some t)) with t.
  by rewrite Htool.
Qed.

Lemma ResolveToolPath_own h p t tool :
  ContainsByte t "." = false → node_tool h p t = Some tool → node_tool h (tool_path p t) t = None →
  ResolveToolPath h (tool_path p t) = Ok (tool, td_Server tool).
Proof.
  intros Ht Htool Hnone. unfold ResolveToolPath. rewrite last_tool_path by done. change (default "" (Some t)) with t.
  by rewrite Hnone, resolve_from_own, Htool.
Qed.

Lemma ResolveToolPath_node h path t tool :
  last (Split path ".") = Some t → node_tool h path t = Some tool → ResolveToolPath h path = Ok (tool, td_Server tool).
Proof. intros Hl Htool. unfold ResolveToolPath. rewrite Hl. change (default "" (Some t)) with t. by rewrite Htool. Qed.

(** A listed tool is one of the category's own or one of a child's. *)
Lemma category_tools order h path c t i :
  order ≡ₚ map_to_list h → HandleGetToolsInCategory order h path = Ok c → ct_tools c !! t = Some i →
  (∃ node tool, h !! ct_path c = Some node ∧ hy_Tools node !! t = Some tool ∧
     i = mkToolInfo (td_Description tool) (tool_path (ct_path c) t)) ∨
  aggregated_tool h (ct_path c) t i.
Proof.
  intros Ho. unfold HandleGetToolsInCategory. set (p := category_path path). destruct (h !! p) as [node|] eqn:Hn; [|done].
  pose proof (child_loop p order (order_NoDup h order Ho)) as Hloop.
  destruct (foldl (child_step p) (∅, true, ∅) order) as [[children leaves] tools]. destruct Hloop as [_ _ Hs _].
  intros [= <-]. cbn [ct_tools ct_path]. case_decide.
  - intros Ht. right. destruct leaves; [|by rewrite lookup_empty in Ht].
    destruct (Hs _ _ Ht) as (e & c & tool & Hin & Hd & ? & ->). exists c, e.2, tool. split_and!; [|done|].
    + apply (visited_child h order p c Ho). by exists e.
    + by apply direct_child_spec in Hd as (-> & _).
  - rewrite map_lookup_imap. intros Ht. left. destruct (hy_Tools node !! t) as [tool|] eqn:E; [|done].
    simpl in Ht. injection Ht as <-. by exists node, tool.
Qed.

(** When all children of a category without tools are leaves, every tool of
    theirs is listed. *)
Lemma aggregated_listed order h path node :
  order ≡ₚ map_to_list h → h !! category_path path = Some node → hy_Tools node = ∅ →
  (∀ child n, child_of h (category_path path) child n → hy_Tools n ≠ ∅) →
  ∃ c, HandleGetToolsInCategory order h path = Ok c ∧ ct_path c = category_path path ∧
    ∀ t i, aggregated_tool h (category_path path) t i → is_Some (ct_tools c !! t).
Proof.
  intros Ho Hn He Hall. unfold HandleGetToolsInCategory. set (p := category_path path) in *. rewrite Hn.
  pose proof (child_loop p order (order_NoDup h order Ho)) as Hloop.
  destruct (foldl (child_step p) (∅, true, ∅) order) as [[children leaves] tools]. destruct Hloop as [_ Hl _ Hp].
  eexists. split_and!; [reflexivity|done|]. cbn [ct_tools]. rewrite decide_True by done.
  assert (leaves = true) as ->.
  { apply Hl. intros e c Hin Hd. apply (Hall c). apply (visited_child h order p c Ho). by exists e. }
  intros t i (c & n & tool & (e & Hin & Hd & <-)%(visited_child h order p c Ho) & Ht & _). by eapply Hp.
Qed.

(** ** Lemmas: valid texts *)

(** A hierarchy whose texts are valid UTF-8, and a category's answer that is. *)
Record valid_entry (k : string) (n : HierarchyNode) : Prop := {
  ve_key : ValidString k = true;
  ve_overview : ValidString (hy_Overview n) = true;
  ve_tools : map_Forall (λ name t, ValidString name = true ∧ ValidString (td_Description t) = true) (hy_Tools n);
}.
Definition valid_hierarchy (h : Hierarchy) : Prop := map_Forall valid_entry h.
Record valid_category (c : category) : Prop := {
  vc_path : ValidString (ct_path c) = true;
  vc_overview : ValidString (ct_overview c) = true;
  vc_children : map_Forall (λ k i, ValidString k = true ∧ match i with ChildBranch o => ValidString o = true | _ => True end) (ct_children c);
  vc_tools : map_Forall (λ k i, Forall (λ s, ValidString s = true) [k; ti_description i; ti_tool_path i]) (ct_tools c);
}.

Lemma child_path_valid p c : ValidString p = true → ValidString (child_path p c) = ValidString c.
Proof.
  intros Hp. unfold child_path. destruct (String.eqb p ""); [done|]. by rewrite !ValidString_app.
Qed.
Lemma child_valid (h : Hierarchy) order path e c : order ≡ₚ map_to_list h → valid_hierarchy h → ValidString path = true →
  e ∈ order → direct_child path e.1 = Some c → valid_entry e.1 e.2 ∧ ValidString c = true.
Proof.
  intros Ho Hv Hp He (Ek & _)%direct_child_spec. apply (order_elem h) in He; [|done]. pose proof (Hv _ _ He) as Hve. split; [done|].
  pose proof (ve_key _ _ Hve) as Hk. by rewrite Ek, child_path_valid in Hk.
Qed.

Lemma category_valid order h path c : order ≡ₚ map_to_list h → valid_hierarchy h → HandleGetToolsInCategory order h path = Ok c → valid_category c.
Proof.
  intros Ho Hv. unfold HandleGetToolsInCategory. set (p := category_path path). destruct (h !! p) as [node|] eqn:Hn; [|done].
  pose proof (Hv _ _ Hn) as [Hp Hov Ht]. pose proof (child_loop p order (order_NoDup h order Ho)) as Hloop.
  destruct (foldl (child_step p) (∅, true, ∅) order) as [[children leaves] tools]. destruct Hloop as [Hc _ Hs _]. intros [= <-].
  split; cbn [ct_path ct_overview ct_children ct_tools]; [done..| |].
  - intros k i (e & He & Hd & ->)%Hc. destruct (child_valid h order p e k Ho Hv Hp He Hd) as [Hve Hk]. split; [done|].
    unfold child_info. case_decide; [by apply ve_overview in Hve|done].
  - assert (map_Forall (λ k i, Forall (λ s, ValidString s = true) [k; ti_description i; ti_tool_path i]) tools) as Htools.
    { intros k i (e & cn & tool & He & Hd & Htool & ->)%Hs. destruct (child_valid h order p e cn Ho Hv Hp He Hd) as [[Hk _ Hts] _].
      destruct (Hts _ _ Htool). repeat constructor; done. }
    case_decide; [destruct leaves; [done|apply map_Forall_empty]|]. intros k i. rewrite map_lookup_imap. destruct (hy_Tools node !! k) as [tool|] eqn:E; [|done].
    cbn. intros [= <-]. destruct (Ht _ _ E) as [Hk Hd]. pose proof (child_path_valid p k Hp) as Htp. rewrite Hk in Htp. repeat constructor; done.
Qed.

(** ** Properties *)

(** C21. Browsing a category of the hierarchy answers exactly what is below it,
    whatever order Go visits the nodes in: its direct children, each a leaf
    with its number of tools or a branch with its overview; its own tools
    under their paths if it has any; otherwise, when every child is a leaf,
    the tools of the children, each listed for a child that has it; and no
    tools when some child is a branch. A path without a node is refused. *)
Theorem category_exact order h path :
  order ≡ₚ map_to_list h →
  let p := category_path path in
  match h !! p with
  | None => HandleGetToolsInCategory order h path = Err (Errorf "category not found: %s" [FStr p])
  | Some node => ∃ c, HandleGetToolsInCategory order h path = Ok c ∧ ct_path c = p ∧ ct_overview c = hy_Overview node ∧
      (∀ child i, ct_children c !! child = Some i ↔ ∃ n, child_of h p child n ∧ i = child_info n) ∧
      (hy_Tools node ≠ ∅ → ∀ t, ct_tools c !! t = (λ d, mkToolInfo (td_Description d) (tool_path p t)) <$> hy_Tools node !! t) ∧
      (hy_Tools node = ∅ → (∀ child n, child_of h p child n → hy_Tools n ≠ ∅) → ∀ t,
         (∀ i, ct_tools c !! t = Some i → aggregated_tool h p t i) ∧
         (∀ i, aggregated_tool h p t i → is_Some (ct_tools c !! t))) ∧
      (hy_Tools node = ∅ → ∀ child n, child_of h p child n → hy_Tools n = ∅ → ct_tools c = ∅)
  end.
Proof.
  intros Ho p. unfold HandleGetToolsInCategory. fold p. destruct (h !! p) as [node|]; [|done].
  pose proof (child_loop p order (order_NoDup h order Ho)) as Hloop.
  destruct (foldl (child_step p) (∅, true, ∅) order) as [[children leaves] tools]. destruct Hloop as [Hc Hl Hs Hp].
  eexists. split_and!; [reflexivity|done..| | | |]; cbn [ct_children ct_tools].
  - intros child i. rewrite Hc. split.
    + intros (e & ? & ? & ->). exists e.2. split; [|done]. apply (visited_child h order p child Ho). by exists e.
    + intros (n & (e & ? & ? & <-)%(visited_child h order p child Ho) & ->). by exists e.
  - intros Hne t. rewrite decide_False by done. rewrite map_lookup_imap. by destruct (hy_Tools node !! t).
  - intros He Hall t. rewrite decide_True by done.
    assert (leaves = true) as ->.
    { apply Hl. intros e c Hin Hd. apply (Hall c). apply (visited_child h order p c Ho). by exists e. }
    split; intros i.
    + intros (e & c & tool & Hin & Hd & ? & ->)%Hs. exists c, e.2, tool. split_and!; [|done|].
      * apply (visited_child h order p c Ho). by exists e.
      * by apply direct_child_spec in Hd as (-> & _).
    + intros (c & n & tool & (e & Hin & Hd & <-)%(visited_child h order p c Ho) & Ht & _). by eapply Hp.
  - intros He child n (e & Hin & Hd & <-)%(visited_child h order p child Ho) Hn. rewrite decide_True by done.
    destruct leaves; [|done]. exfalso. by eapply (proj1 Hl).
Qed.

(** The layout the structure generator writes: a tool is in the node whose
    path ends with its name, nothing is below such a node, and it names its
    server. *)
Record flat_hierarchy (h : Hierarchy) : Prop := {
  fl_names k n t : h !! k = Some n → is_Some (hy_Tools n !! t) → last (Split k ".") = Some t ∧ t ≠ "";
  fl_leaves k n c : h !! k = Some n → hy_Tools n ≠ ∅ → h !! (k +:+ "." +:+ c) = None;
  fl_servers k n t tool : h !! k = Some n → hy_Tools n !! t = Some tool → td_Server tool ≠ "";
}.

Lemma flat_root h n : flat_hierarchy h → h !! "" = Some n → hy_Tools n = ∅.
Proof.
  intros Hf Hn. apply map_empty. intros t. apply eq_None_not_Some. intros Ht.
  destruct (fl_names h Hf "" n t Hn Ht) as [[= <-] ?]. done.
Qed.

Lemma execute_resolved h path tool :
  ResolveToolPath h path = Ok (tool, td_Server tool) → td_Server tool ≠ "" → ∀ t, last (Split path ".") = Some t →
  HandleExecuteTool h path = Ok (td_Server tool, if String.eqb (td_MapsTo tool) "" then t else td_MapsTo tool, td_InputSchema tool).
Proof.
  intros Hr Hs t Ht. unfold HandleExecuteTool. rewrite Hr. simpl. destruct (String.eqb_spec (td_Server tool) ""); [done|].
  simpl. by rewrite Ht.
Qed.

Lemma last_part_no_dot k t : last (Split k ".") = Some t → ContainsByte t "." = false.
Proof. intros [l Hl]%last_Some. apply (Split_no_sep k). rewrite Hl. apply elem_of_app. right. by left. Qed.

(** In a hierarchy laid out as the structure generator lays it out, a
    tool that browsing any category lists can be executed under the path it
    is listed with: the path resolves to that very tool's definition, so the
    call goes to its server, under its name there. *)
Theorem listed_tool_executes order h path c t i :
  order ≡ₚ map_to_list h → flat_hierarchy h →
  HandleGetToolsInCategory order h path = Ok c → ct_tools c !! t = Some i →
  ∃ k n tool, h !! k = Some n ∧ hy_Tools n !! t = Some tool ∧ (k = ct_path c ∨ child_of h (ct_path c) t n) ∧
    ti_description i = td_Description tool ∧
    HandleExecuteTool h (ti_tool_path i) =
      Ok (td_Server tool, if String.eqb (td_MapsTo tool) "" then t else td_MapsTo tool, td_InputSchema tool).
Proof.
  intros Ho Hf Hc Ht. destruct (category_tools _ _ _ _ _ _ Ho Hc Ht) as [(n & tool & Hn & Htool & ->)|(child & n & tool & Hch & Htool & ->)].
  - destruct (fl_names h Hf _ n t Hn) as [Hlast Hne]; [by eexists|]. pose proof (last_part_no_dot _ _ Hlast) as Hdot.
    exists (ct_path c), n, tool. split_and!; [done..|by left|done|]. cbn [ti_tool_path].
    apply execute_resolved; [|by eapply fl_servers|by apply last_tool_path].
    apply ResolveToolPath_own; [done|unfold node_tool; by rewrite Hn|]. unfold node_tool, tool_path.
    destruct (String.eqb_spec (ct_path c) "") as [E|_].
    { rewrite E in Hn. apply flat_root in Hn; [|done]. by rewrite Hn, lookup_empty in Htool. }
    rewrite (fl_leaves h Hf _ n); [done..|]. intros E. by rewrite E, lookup_empty in Htool.
  - pose proof Hch as (Hh & Hdot & Hne). destruct (fl_names h Hf _ n t Hh) as [Hlast _]; [by eexists|].
    pose proof (last_tool_path (ct_path c) child Hdot) as Hl. change (tool_path (ct_path c) child) with (child_path (ct_path c) child) in Hl.
    assert (child = t) as -> by congruence.
    exists (child_path (ct_path c) t), n, tool. split_and!; [done..|by right|done|]. cbn [ti_tool_path].
    apply execute_resolved; [|by eapply fl_servers|done].
    apply (ResolveToolPath_node h _ t); [done|]. unfold node_tool. by rewrite Hh.
Qed.

(** ** Witnesses *)

Definition file (text : string) : tree := TFile (Ok (requote text)).
Definition demo_root : result error bytes := Ok (requote "{'overview':'Root'}").
Definition demo_tree : tree := TDir [
  ("everything", TDir [
     ("echo.json", file "{'tools':{'echo':{'description':'Echoes','maps_to':'echo','server':'every'}}}");
     ("everything.json", file "{'overview':'Everything'}")]);
  ("notes.txt", file "not a node"); ("root.json", file "{'overview':'Root'}")].
Definition demo_hierarchy : Hierarchy := match LoadHierarchy "./tree" demo_root demo_tree with Ok h => h | Err _ => ∅ end.

Lemma demo_nodes k n : demo_hierarchy !! k = Some n →
  (k = "" ∨ k = "/" ∨ k = "everything") ∧ hy_Tools n = ∅ ∨
  k = "everything.echo" ∧ hy_Tools n = {["echo" := mkTool "Echoes" "echo" "every" None]}.
Proof.
  intros H. assert ((k, n) ∈ map_to_list demo_hierarchy) as Hin by by apply elem_of_map_to_list.
  vm_compute in Hin.
  repeat (apply elem_of_cons in Hin as [Hin|Hin]; [injection Hin as -> ->|]); [..|by apply elem_of_nil in Hin].
  all: first [right; split; [done|vm_compute; reflexivity]|left; split; [naive_solver|vm_compute; reflexivity]].
Qed.

Lemma demo_flat : flat_hierarchy demo_hierarchy.
Proof.
  split; intros *.
  - intros [[_ He]|[-> He]]%demo_nodes Ht; rewrite He in Ht; [by destruct Ht|].
    apply lookup_singleton_is_Some in Ht as <-. done.
  - intros [[_ He]|[-> He]]%demo_nodes Ht; [done|]. apply eq_None_not_Some. intros [m Hm].
    apply demo_nodes in Hm as [[[E|[E|E]] _]|[E _]]; cbn in E; discriminate E.
  - intros [[_ He]|[-> He]]%demo_nodes Ht; rewrite He in Ht; [done|]. by apply lookup_singleton_Some in Ht as [<- <-].
Qed.

Lemma category_exact_witness :
  (∃ c, HandleGetToolsInCategory (map_to_list demo_hierarchy) demo_hierarchy ".everything" = Ok c ∧
     ct_children c !! "echo" = Some (ChildLeaf 1)) ∧
  HandleGetToolsInCategory (map_to_list demo_hierarchy) demo_hierarchy "none" = Err (Errorf "category not found: %s" [FStr "none"]).
Proof.
  split.
  - destruct (category_exact (map_to_list demo_hierarchy) demo_hierarchy ".everything") as (c & Hc & _ & _ & Hch & _); [done|].
    exists c. split; [done|]. apply Hch.
    exists (mkHNode "" {["echo" := mkTool "Echoes" "echo" "every" None]} None). split; [|vm_compute; reflexivity].
    split_and!; vm_compute; [reflexivity|reflexivity|discriminate].
  - apply (category_exact (map_to_list demo_hierarchy) demo_hierarchy "none"). done.
Defined.

Lemma listed_tool_executes_witness :
  ∃ c i, HandleGetToolsInCategory (map_to_list demo_hierarchy) demo_hierarchy "everything" = Ok c ∧ ct_tools c !! "echo" = Some i ∧
    HandleExecuteTool demo_hierarchy (ti_tool_path i) = Ok ("every", "echo", None).
Proof.
  set (r := HandleGetToolsInCategory (map_to_list demo_hierarchy) demo_hierarchy "everything").
  assert (∃ c, r = Ok c ∧ ct_tools c !! "echo" = Some (mkToolInfo "Echoes" "everything.echo")) as (c & Hc & Hi).
  { eexists. split; vm_compute; reflexivity. }
  exists c, (mkToolInfo "Echoes" "everything.echo"). split_and!; [done|done|].
  destruct (listed_tool_executes (map_to_list demo_hierarchy) demo_hierarchy "everything" c "echo" _ (reflexivity _) demo_flat Hc Hi)
    as (k & n & tool & Hk & Ht & _ & _ & ->).
  apply demo_nodes in Hk as [[_ He]|[_ He]]; rewrite He in Ht; [done|]. by apply lookup_singleton_Some in Ht as [_ <-].
Defined.

(** ** What the layout is needed for *)

(** A nested leaf with several tools: each is listed with the path of its
    node, which does not resolve. *)
Definition nested_hierarchy : Hierarchy :=
  {["" := mkHNode "Root" ∅ None; "/" := mkHNode "Root" ∅ None; "serena" := mkHNode "Serena" ∅ None;
    "serena.search" := mkHNode "" {["find_symbol" := mkTool "Finds" "find_symbol" "serena" None;
                                     "find_file" := mkTool "Finds" "find_file" "serena" None]} None]}.
Example nested_tool_unreachable :
  (∃ c, HandleGetToolsInCategory (map_to_list nested_hierarchy) nested_hierarchy "serena" = Ok c ∧
     ct_tools c !! "find_symbol" = Some (mkToolInfo "Finds" "serena.search")) ∧
  HandleExecuteTool nested_hierarchy "serena.search" = Err (Errorf "tool not found: %s" [FStr "serena.search"]).
Proof. split; [eexists; split; vm_compute; reflexivity|vm_compute; reflexivity]. Qed.

(** The root is listed among its own children. *)
Example root_lists_itself :
  ∃ c, HandleGetToolsInCategory (map_to_list demo_hierarchy) demo_hierarchy "" = Ok c ∧
    ct_children c !! "/" = Some (ChildBranch "Root").
Proof. eexists. split; vm_compute; reflexivity. Qed.

(** At the root the first part of the path is looked up, not the last. *)
Example root_tool_by_first_part :
  let h : Hierarchy := {["" := mkHNode "" {["echo" := mkTool "" "echo" "every" None; "run" := mkTool "" "run" "shell" None]} None]} in
  HandleExecuteTool h "echo.run" = Ok ("every", "echo", None).
Proof. vm_compute. reflexivity. Qed.
