(* ===== verification/Generator.v ===== *)
(** * Generating a hierarchy

    Models the core of [structure_generator/generator.go]: the validation of
    the names that become files, the paths they become, the texts of the
    overviews, and the nodes that are written for the tools of a set of
    servers; with [Hierarchy.v], what a broker that loads the result does with
    them. The portable checks are those of a Unix build, where a path has no
    volume name. *)
From Stdlib Require Import Ascii String.
From S2P Require Import Prelude GoStrings Limits Sha256 Regex Utf8 Text Json Loader Hierarchy.
Local Open Scope string_scope.
Local Open Scope list_scope.
Local Open Scope Z_scope.

(** ** Data *)

Record Tool := mkGenTool {
  tl_Name : string; tl_Title : string; tl_Description : string; tl_InputSchema : gmap string json;
  tl_OutputSchema : gmap string json; tl_Annotations : gmap string json }.
Record ServerTools := mkServerTools { se_ServerName : string; se_Tools : list Tool }.
Record NodeTool := mkNodeTool {
  nt_Title : string; nt_Description : string; nt_MapsTo : string; nt_Server : string;
  nt_InputSchema : gmap string json; nt_OutputSchema : gmap string json; nt_Annotations : gmap string json }.
Record ToolNode := mkToolNode { tn_Path : string; tn_Overview : string; tn_Tools : gmap string NodeTool }.

(** ** Names *)

(** [strings.ToUpper] *)
Class UpperCase := ToUpper : string → string.

(** The characters of the raw string constant. *)
Definition forbidden : string := of_bytes (map Z_byte [47; 92; 92; 60; 62; 58; 34; 124; 63; 42]).

Definition isReservedWindowsDeviceName `{UpperCase} (name : string) : bool :=
  let upperName := ToUpper name in
  if existsb (String.eqb upperName) ["CON"; "PRN"; "AUX"; "NUL"; "CONIN$"; "CONOUT$"] then true
  else match runes upperName with
       | [a; b; c; d] =>
           let prefix := of_runes [a; b; c] in
           if negb (String.eqb prefix "COM") && negb (String.eqb prefix "LPT") then false
           else ((49 <=? d) && (d <=? 57)) || (d =? 185) || (d =? 178) || (d =? 179)
       | _ => false
       end.

Section names.
Context `{TextOps} `{UpperCase}.

Definition foldGeneratedName (name : string) : string := NFC (Fold (NFC name)).

Definition name_error (fmt kind name : string) : error := Errorf fmt [FStr kind; FStr name].

Definition validateGeneratedComponent (kind name : string) : result error unit :=
  fail_if String.eqb name "" || String.eqb name "." || String.eqb name ".." || HasPrefix name "/" || ContainsAny name forbidden
    with name_error "invalid %s name for generated path: %q" kind name else
  fail_if existsb (λ r, r <? 32) (runes name)
    with name_error "invalid %s name for generated path: control characters are not portable: %q" kind name else
  fail_if HasSuffix name "." || HasSuffix name " "
    with name_error "invalid %s name for generated path: trailing periods and spaces are not portable: %q" kind name else
  fail_if ContainsByte name "."
    with name_error "invalid %s name for generated path: periods conflict with the hierarchy delimiter: %q" kind name else
  fail_if isReservedWindowsDeviceName name
    with name_error "invalid %s name for generated path: reserved Windows device name: %q" kind name else
  Ok tt.

Definition root_key : string := foldGeneratedName "root".

(** One tool of a server; [seen] are the names of the tools before it, by
    their foldings and as they are. *)
Definition check_tool (server : string) (seen : gset string * gmap string string) (tool : Tool) : result error (gset string * gmap string string) :=
  let '(toolNames, folded) := seen in
  let! _ := match validateGeneratedComponent "tool" (tl_Name tool) with
            | Err e => Err (Wrapf "provider %s: %w" [FStr server] e)
            | Ok _ => Ok tt
            end in
  let key := foldGeneratedName (tl_Name tool) in
  fail_if String.eqb key root_key
    with Errorf "provider %s: tool name is reserved for the hierarchy root: %s" [FStr server; FStr (tl_Name tool)] else
  fail_if String.eqb (tl_Name tool) server
    with Errorf "provider %s: tool name collides with provider index: %s" [FStr server; FStr (tl_Name tool)] else
  fail_if String.eqb key (foldGeneratedName server)
    with Errorf "provider %s: tool name %q has a case-folding collision with the provider index" [FStr server; FStr (tl_Name tool)] else
  fail_if bool_decide (tl_Name tool ∈ toolNames)
    with Errorf "provider %s: duplicate tool name: %s" [FStr server; FStr (tl_Name tool)] else
  match folded !! key with
  | Some existing => Err (Errorf "provider %s: tool name %q has a case-folding collision with %q" [FStr server; FStr (tl_Name tool); FStr existing])
  | None => Ok ({[tl_Name tool]} ∪ toolNames, <[key := tl_Name tool]> folded)
  end.

Definition check_server (seen : gset string * gmap string string) (server : ServerTools) : result error (gset string * gmap string string) :=
  let '(serverNames, folded) := seen in
  let name := se_ServerName server in
  let! _ := validateGeneratedComponent "provider" name in
  let key := foldGeneratedName name in
  fail_if String.eqb key root_key with ErrorNew "provider name is reserved for the hierarchy root: root.json" else
  fail_if bool_decide (name ∈ serverNames) with Errorf "duplicate provider name: %s" [FStr name] else
  match folded !! key with
  | Some existing => Err (Errorf "provider name %q has a case-folding collision with %q" [FStr name; FStr existing])
  | None =>
      let! _ := rfold (check_tool name) (∅, ∅) (se_Tools server) in
      Ok ({[name]} ∪ serverNames, <[key := name]> folded)
  end.

Definition validateGeneratedNames (servers : list ServerTools) : result error unit :=
  let! _ := rfold check_server (∅, ∅) servers in Ok tt.
End names.

(** ** Paths *)

(** [filepath.Rel] of two clean absolute paths: what they share is taken off
    and the rest of the base becomes parents. *)
Fixpoint rel_parts (base target : list string) : list string :=
  match base, target with
  | x :: base', y :: target' => if String.eqb x y then rel_parts base' target' else map (λ _, "..") base ++ target
  | _, _ => map (λ _, "..") base ++ target
  end.
Definition path_parts (p : string) : list string := List.filter (λ e, negb (String.eqb e "")) (Split p "/").
Definition filepath_Rel (base target : string) : string :=
  match rel_parts (path_parts base) (path_parts target) with [] => "." | l => Join l "/" end.

(** [root] as [filepath.Abs] returns it: absolute and clean. *)
Definition generatedPath (rootPath : string) (components : list string) : result error string :=
  let candidate := path_Join (rootPath :: components) in
  let relative := filepath_Rel rootPath candidate in
  fail_if String.eqb relative ".." || HasPrefix relative "../" || HasPrefix relative "/"
    with Errorf "generated path escapes staging directory: %s" [FStr candidate] else
  Ok candidate.

(** ** Overviews *)

(** [strings.Index]: -1 when absent. *)
Fixpoint Index (s sub : string) : Z :=
  if String.prefix sub s then 0
  else match s with
       | EmptyString => -1
       | String _ s' => let i := Index s' sub in if i <? 0 then -1 else i + 1
       end.

Fixpoint joinWithCommas_loop (result : string) (items : list string) : string :=
  match items with [] => result | item :: items => joinWithCommas_loop (result +:+ ", " +:+ item) items end.
Definition joinWithCommas (items : list string) : string :=
  match items with [] => "" | [item] => item | item :: items => joinWithCommas_loop item items end.

Definition extractBriefDescription (text : string) : string :=
  if String.eqb text "" then ""
  else if negb (Index text ";" =? -1) then TrimSpace (slice_to text (Index text ";"))
  else if negb (Index text ". " =? -1) then TrimSpace (slice_to text (Index text ". " + 1))
  else if slen text >? 100 then slice_to text 97 +:+ "..."
  else text.

(** ** Nodes *)

Definition tool_node (serverName : string) (tool : Tool) : ToolNode :=
  mkToolNode (path_Join [serverName; tl_Name tool]) ""
    {[tl_Name tool := mkNodeTool (tl_Title tool) (tl_Description tool) (tl_Name tool) serverName
                        (tl_InputSchema tool) (tl_OutputSchema tool) (tl_Annotations tool)]}.

Definition child_summary (tool : Tool) : string :=
  let brief := extractBriefDescription (tl_Description tool) in
  let brief := if String.eqb brief "" then "Tool: " +:+ tl_Name tool else brief in
  tl_Name tool +:+ " -> " +:+ brief.

Definition server_overview (server : ServerTools) : string :=
  match se_Tools server with
  | [] => se_ServerName server +:+ " MCP server with no tools"
  | [tool] => se_ServerName server +:+ ": 1 tool; " +:+ child_summary tool
  | tools => se_ServerName server +:+ ": " +:+ FormatInt (zlen tools) +:+ " tools; " +:+ joinWithCommas (map child_summary tools)
  end.

Definition server_node (server : ServerTools) : ToolNode := mkToolNode (se_ServerName server) (server_overview server) ∅.

(** [generateToolFile] and [generateServerStructure]: the path of each file,
    in the order they are written, and its node. *)
Definition generateToolFile (rootPath serverName : string) (tool : Tool) : result error (string * ToolNode) :=
  let! jsonPath := generatedPath rootPath [serverName; tl_Name tool +:+ ".json"] in
  Ok (jsonPath, tool_node serverName tool).

Definition generateServerStructure (rootPath : string) (server : ServerTools) : result error (list (string * ToolNode)) :=
  let name := se_ServerName server in
  let! _ := generatedPath rootPath [name] in
  let! files := rfold (λ files tool,
      match generateToolFile rootPath name tool with
      | Err e => Err (Wrapf "failed to generate tool file for %s: %w" [FStr (tl_Name tool)] e)
      | Ok f => Ok (files ++ [f])
      end) [] (se_Tools server) in
  let! jsonPath := generatedPath rootPath [name; name +:+ ".json"] in
  Ok (files ++ [(jsonPath, server_node server)]).

Definition generate_servers (rootPath : string) (servers : list ServerTools) : result error (list (string * ToolNode)) :=
  rfold (λ files server,
    match generateServerStructure rootPath server with
    | Err e => Err (Wrapf "failed to generate structure for server %s: %w" [FStr (se_ServerName server)] e)
    | Ok fs => Ok (files ++ fs)
    end) [] servers.

(** ** Specification *)

(** A name that is a file name on every platform and a part of a path. *)
Record portable_name `{UpperCase} (name : string) : Prop := {
  pn_nonempty : name ≠ "";
  pn_chars : ContainsAny name forbidden = false;
  pn_control : Forall (λ r, 32 ≤ r) (runes name);
  pn_space : HasSuffix name " " = false;
  pn_period : ContainsByte name "." = false;
  pn_device : isReservedWindowsDeviceName name = false;
}.

Record tool_name_ok `{TextOps} `{UpperCase} (server : string) (tool : Tool) : Prop := {
  tk_portable : portable_name (tl_Name tool);
  tk_root : foldGeneratedName (tl_Name tool) ≠ root_key;
  tk_server : foldGeneratedName (tl_Name tool) ≠ foldGeneratedName server;
}.
Record server_names_ok `{TextOps} `{UpperCase} (server : ServerTools) : Prop := {
  sn_portable : portable_name (se_ServerName server);
  sn_root : foldGeneratedName (se_ServerName server) ≠ root_key;
  sn_tools : Forall (tool_name_ok (se_ServerName server)) (se_Tools server);
  sn_distinct : NoDup (map (λ t, foldGeneratedName (tl_Name t)) (se_Tools server));
}.

(** ** Lemmas: names *)

Lemma ContainsAny_byte s chars c : ContainsAny s chars = false → ContainsByte chars c = true → ContainsByte s c = false.
Proof.
  intros Hs Hc. induction s as [|a s IH]; [done|]. cbn in *. apply orb_false_iff in Hs as [Ha Hs].
  apply orb_false_iff. split; [|by apply IH]. apply Ascii.eqb_neq. intros ->. congruence.
Qed.

Lemma HasSuffix_byte s c : ContainsByte s c = false → HasSuffix s (String c "") = false.
Proof.
  intros Hs. apply not_true_iff_false. unfold HasSuffix. intros [r Hr]%HasPrefix_spec.
  apply (f_equal to_bytes) in Hr. rewrite to_bytes_app in Hr. unfold str_rev in Hr. rewrite !to_of_bytes in Hr. cbn in Hr.
  assert (c ∈ to_bytes s) as Hin by (rewrite <- (rev_involutive (to_bytes s)), Hr; apply list_elem_of_In, in_rev; rewrite rev_involutive; by left).
  apply ContainsByte_elem in Hin. congruence.
Qed.

Lemma HasPrefix_byte s c : ContainsByte s c = false → HasPrefix s (String c "") = false.
Proof.
  intros Hs. apply not_true_iff_false. intros [r ->]%HasPrefix_spec.
  assert (ContainsByte (String c "" +:+ r) c = true) by (apply ContainsByte_elem; rewrite to_bytes_app; by left). congruence.
Qed.

Lemma portable_slash `{UpperCase} name : portable_name name → ContainsByte name "/" = false.
Proof. intros Hn. eapply ContainsAny_byte; [by apply pn_chars|]. by vm_compute. Qed.

Lemma portable_kept `{UpperCase} name : portable_name name → kept name.
Proof.
  intros Hn. split_and!; [by apply pn_nonempty| | |by apply portable_slash];
    intros ->; by pose proof (pn_period _ Hn).
Qed.

Lemma control_runes rs : existsb (λ r, r <? 32) rs = false ↔ Forall (λ r, 32 ≤ r) rs.
Proof.
  induction rs as [|r rs IH]; cbn; [done|]. rewrite orb_false_iff, Forall_cons, IH, Z.ltb_ge. done.
Qed.

Lemma component_exact `{UpperCase} kind name : validateGeneratedComponent kind name = Ok tt ↔ portable_name name.
Proof.
  unfold validateGeneratedComponent. rewrite !guardE_Ok, !orb_false_iff, !String.eqb_neq. split.
  - intros (((((Hne & _) & _) & _) & Hc) & Hr & (_ & Hs) & Hp & Hd & _). split; [done|done|by apply control_runes|done..].
  - intros Hn. pose proof (portable_kept name Hn) as (? & ? & ? & Hsl). destruct Hn as [Hne Hc Hr Hs Hp Hd].
    split_and!; try done; [by apply HasPrefix_byte|by apply control_runes|by apply HasSuffix_byte].
Qed.

Section accepted.
Context `{TextOps} `{UpperCase}.

Definition folded_tool (t : Tool) : string := foldGeneratedName (tl_Name t).
Definition folded_server (s : ServerTools) : string := foldGeneratedName (se_ServerName s).

Lemma component_wrapped server name (r : result error (gset string * gmap string string)) x :
  (let! _ := match validateGeneratedComponent "tool" name with
             | Err e => Err (Wrapf "provider %s: %w" [FStr server] e)
             | Ok _ => Ok tt
             end in r) = Ok x ↔ portable_name name ∧ r = Ok x.
Proof.
  rewrite <- (component_exact "tool"). destruct (validateGeneratedComponent "tool" name) as [[]|e]; cbn; naive_solver.
Qed.

(** What the maps of the loop know of the names before. *)
Definition knows (names : gset string) (folded : gmap string string) : Prop :=
  ∀ n, n ∈ names → is_Some (folded !! foldGeneratedName n).

Lemma check_tool_spec server names folded tool s :
  knows names folded →
  check_tool server (names, folded) tool = Ok s ↔
  tool_name_ok server tool ∧ folded !! folded_tool tool = None ∧
  s = ({[tl_Name tool]} ∪ names, <[folded_tool tool := tl_Name tool]> folded).
Proof.
  intros Hk. unfold check_tool. rewrite component_wrapped, !guardE_Ok, !String.eqb_neq, bool_decide_eq_false. fold (folded_tool tool).
  split.
  - intros (Hp & Hr & _ & Hs & Hn & Hf). destruct (folded !! folded_tool tool) eqn:E; [done|]. injection Hf as <-. by split_and!.
  - intros ([Hp Hr Hs] & E & ->). rewrite E. split_and!; try done.
    + intros Heq. apply Hs. by rewrite Heq.
    + intros Hin. apply Hk in Hin as [x Hx]. unfold folded_tool in E. congruence.
Qed.

Lemma knows_insert names folded n : knows names folded → knows ({[n]} ∪ names) (<[foldGeneratedName n := n]> folded).
Proof.
  intros Hk m [->%elem_of_singleton|Hm]%elem_of_union; [rewrite lookup_insert_eq; by eexists|].
  apply lookup_insert_is_Some'. right. by apply Hk.
Qed.

(** A loop that records each name and refuses one whose folding it has seen. *)
Lemma distinct_loop {A} (f : gset string * gmap string string → A → result error (gset string * gmap string string))
    (name : A → string) (ok : A → Prop) :
  (∀ names folded x s, knows names folded → f (names, folded) x = Ok s ↔
     ok x ∧ folded !! foldGeneratedName (name x) = None ∧ s = ({[name x]} ∪ names, <[foldGeneratedName (name x) := name x]> folded)) →
  ∀ l names folded, knows names folded →
  is_Ok (rfold f (names, folded) l) ↔
  Forall ok l ∧ NoDup (map (λ x, foldGeneratedName (name x)) l) ∧ Forall (λ x, folded !! foldGeneratedName (name x) = None) l.
Proof.
  intros Hf l. induction l as [|x l IH]; intros names folded Hk; cbn [rfold].
  { split; [intros _; split_and!; constructor|intros _; by eexists]. }
  split.
  - intros [y Hy]. apply rbind_Ok in Hy as (s & Hs & Hy). apply Hf in Hs as (Hok & Hnew & ->); [|done].
    destruct (proj1 (IH _ _ (knows_insert _ _ (name x) Hk)) (ex_intro _ y Hy)) as (Hall & Hnd & Hfree).
    rewrite Forall_forall in Hfree. split_and!; [by constructor| |].
    + cbn [map]. apply NoDup_cons. split; [|done]. intros (z & Hz & Hin)%list_elem_of_In%in_map_iff.
      apply list_elem_of_In, Hfree in Hin. by rewrite Hz, lookup_insert_eq in Hin.
    + constructor; [done|]. apply Forall_forall. intros z Hz. specialize (Hfree z Hz). by apply lookup_insert_None in Hfree as [? _].
  - intros (Hall & Hnd & Hfree). apply Forall_cons in Hall as [Hok Hall]. apply Forall_cons in Hfree as [Hnew Hfree].
    cbn [map] in Hnd. apply NoDup_cons in Hnd as [Hin Hnd].
    rewrite (proj2 (Hf names folded x _ Hk) (conj Hok (conj Hnew eq_refl))). cbn [rbind].
    apply (IH _ _ (knows_insert _ _ (name x) Hk)). split_and!; [done..|].
    apply Forall_forall. intros z Hz. apply lookup_insert_None. rewrite Forall_forall in Hfree. split; [by apply Hfree|].
    intros E. apply Hin. rewrite E. apply list_elem_of_In, in_map_iff. exists z. split; [done|]. by apply list_elem_of_In.
Qed.

Lemma check_server_spec names folded server s :
  knows names folded →
  check_server (names, folded) server = Ok s ↔
  server_names_ok server ∧ folded !! folded_server server = None ∧
  s = ({[se_ServerName server]} ∪ names, <[folded_server server := se_ServerName server]> folded).
Proof.
  intros Hk. unfold check_server. rewrite rbind_Ok. fold (folded_server server).
  assert (knows ∅ ∅) as Hk0 by (intros n Hn; by apply not_elem_of_empty in Hn).
  pose proof (distinct_loop (check_tool (se_ServerName server)) tl_Name _
    (λ names folded tool s, check_tool_spec (se_ServerName server) names folded tool s) (se_Tools server) ∅ ∅ Hk0) as Ht. split.
  - intros ([] & Hp & [Hr [Hn Hf]%guardE_Ok]%guardE_Ok). apply component_exact in Hp. apply String.eqb_neq in Hr.
    destruct (folded !! folded_server server) eqn:E; [done|]. apply rbind_Ok in Hf as (x & Hx & [= <-]).
    destruct (proj1 Ht (ex_intro _ x Hx)) as (Hall & Hnd & _). by split_and!.
  - intros ([Hp Hr Hall Hnd] & E & ->). exists tt. split; [by apply component_exact|]. apply guardE_Ok. split; [by apply String.eqb_neq|].
    apply guardE_Ok. split.
    + apply bool_decide_eq_false. intros Hin. apply Hk in Hin as [x Hx]. unfold folded_server in E. congruence.
    + rewrite E. destruct (proj2 Ht) as [x ->]; [|done]. split_and!; [done..|]. apply Forall_forall. intros t _. apply lookup_empty.
Qed.

(** The generator accepts a set of servers exactly when each name is a
    portable file name without a period, and no two files it would write can
    meet. *)
Lemma validated_iff servers :
  validateGeneratedNames servers = Ok tt ↔ Forall server_names_ok servers ∧ NoDup (map folded_server servers).
Proof.
  assert (knows ∅ ∅) as Hk0 by (intros n Hn; by apply not_elem_of_empty in Hn).
  pose proof (distinct_loop check_server se_ServerName _ check_server_spec servers ∅ ∅ Hk0) as Hs.
  unfold validateGeneratedNames. rewrite rbind_Ok. split.
  - intros (x & Hx & _). destruct (proj1 Hs (ex_intro _ x Hx)) as (? & ? & _). by split.
  - intros [Hall Hnd]. destruct (proj2 Hs) as [x Hx]; [|by exists x].
    split_and!; [done..|]. apply Forall_forall. intros s _. apply lookup_empty.
Qed.

End accepted.

(** ** Lemmas: paths *)

Definition abs_path (parts : list string) : string := "/" +:+ Join parts "/".

Lemma clean_fold_rooted parts : ∀ stack, Forall kept parts → fold_left (clean_step true) parts stack = rev parts ++ stack.
Proof.
  induction parts as [|p parts IH]; intros stack Hp; [done|]. apply Forall_cons in Hp as [(H1 & H2 & H3 & _) Hp]. simpl.
  rewrite IH by done. unfold clean_step. apply String.eqb_neq in H1, H2, H3. rewrite H1, H2, H3. simpl. by rewrite <-app_assoc.
Qed.

Lemma Split_kept l : l ≠ [] → Forall kept l → Split (Join l "/") "/" = l.
Proof.
  intros Hne Hl. apply (Split_Join l "/"); [done|]. eapply Forall_impl; [exact Hl|]. by intros x (_ & _ & _ & ?).
Qed.

(** The parts of an absolute path, behind the empty one before its slash. *)
Lemma Split_abs parts : Forall kept parts → Split (abs_path parts) "/" = "" :: match parts with [] => [""] | _ => parts end.
Proof.
  intros Hp. etransitivity; [by apply (Split_app_sep "" (Join parts "/") "/")|]. f_equal.
  destruct parts as [|x l]; [done|]. by apply Split_kept.
Qed.

Lemma filter_nonempty l : Forall kept l → List.filter (λ e, negb (String.eqb e "")) l = l.
Proof.
  induction 1 as [|x l (Hx & _) Hl IH]; [done|]. cbn. apply String.eqb_neq in Hx. by rewrite Hx, IH.
Qed.

Lemma path_parts_abs parts : Forall kept parts → path_parts (abs_path parts) = parts.
Proof.
  intros Hp. unfold path_parts. rewrite Split_abs by done. destruct parts as [|x l]; [done|].
  change (List.filter (λ e, negb (String.eqb e "")) (x :: l) = x :: l). by apply filter_nonempty.
Qed.

Lemma path_Join_abs parts comps :
  Forall kept parts → Forall kept comps → comps ≠ [] → path_Join (abs_path parts :: comps) = abs_path (parts ++ comps).
Proof.
  intros Hp Hc Hne. unfold path_Join. cbn [List.filter]. rewrite filter_nonempty by done.
  change (negb (abs_path parts =? "")%string) with true. cbn iota. rewrite Join_cons by done.
  unfold path_Clean. change (String.eqb (abs_path parts +:+ "/" +:+ Join comps "/") "") with false.
  assert (HasPrefix (abs_path parts +:+ "/" +:+ Join comps "/") "/" = true) as ->.
  { apply HasPrefix_spec. exists (Join parts "/" +:+ "/" +:+ Join comps "/"). unfold abs_path. by rewrite str_app_assoc. }
  cbn iota.
  change (abs_path parts +:+ "/" +:+ Join comps "/") with (abs_path parts +:+ String "/" (Join comps "/")).
  rewrite Split_app_sep_any, Split_abs, Split_kept, fold_left_app by done. cbn [fold_left].
  change (clean_step true [] "") with (@nil string). unfold abs_path. do 2 f_equal.
  assert (fold_left (clean_step true) (match parts with [] => [""] | _ => parts end) [] = rev parts) as ->.
  { destruct parts as [|x l] eqn:E; [done|]. rewrite clean_fold_rooted, app_nil_r; [done|]. by subst. }
  by rewrite clean_fold_rooted, <- rev_app_distr, rev_involutive.
Qed.

Lemma rel_parts_below base comps : rel_parts base (base ++ comps) = comps.
Proof. induction base as [|x base IH]; [by destruct comps|]. cbn. by rewrite String.eqb_refl. Qed.

Lemma generatedPath_below parts comps :
  Forall kept parts → Forall kept comps → comps ≠ [] →
  generatedPath (abs_path parts) comps = Ok (abs_path (parts ++ comps)).
Proof.
  intros Hp Hc Hne. unfold generatedPath. rewrite path_Join_abs by done. unfold filepath_Rel.
  rewrite !path_parts_abs, rel_parts_below by (done || by apply Forall_app). destruct comps as [|x l] eqn:E; [done|].
  rewrite <- E in *. apply guardE_Ok. split; [|done]. rewrite !orb_false_iff. split_and!.
  - apply String.eqb_neq. intros Hj. pose proof (Split_kept comps Hne Hc) as Hs. rewrite Hj in Hs. subst comps. injection Hs as <- <-.
    apply Forall_cons in Hc as [(_ & _ & ? & _) _]. done.
  - apply not_true_iff_false. intros [r Hj]%HasPrefix_spec. pose proof (Split_kept comps Hne Hc) as Hs. rewrite Hj in Hs.
    change ("../" +:+ r) with (".." +:+ String "/" r) in Hs. rewrite Split_app_sep in Hs by done. subst comps. injection Hs as <- _.
    apply Forall_cons in Hc as [(_ & _ & ? & _) _]. done.
  - by apply kept_no_root.
Qed.

Lemma json_file_kept name : ContainsByte name "/" = false → kept (name +:+ ".json").
Proof.
  intros Hn. split_and!.
  - intros E%(f_equal slen). rewrite slen_app in E. pose proof (slen_nonneg name). change (slen ".json") with 5 in E. change (slen "") with 0 in E. lia.
  - intros E%(f_equal slen). rewrite slen_app in E. pose proof (slen_nonneg name). change (slen ".json") with 5 in E. change (slen ".") with 1 in E. lia.
  - intros E%(f_equal slen). rewrite slen_app in E. pose proof (slen_nonneg name). change (slen ".json") with 5 in E. change (slen "..") with 2 in E. lia.
  - by rewrite ContainsByte_app, Hn.
Qed.

(** ** The files of a server *)

Section files.
Context `{TextOps} `{UpperCase}.

(** Directory and stem of each file, and what is written. *)
Definition server_stems (s : ServerTools) : list (string * string) :=
  map (λ t, (se_ServerName s, tl_Name t)) (se_Tools s) ++ [(se_ServerName s, se_ServerName s)].
Definition stem_path (parts : list string) (f : string * string) : string := abs_path (parts ++ [f.1; f.2 +:+ ".json"]).
Definition server_nodes (s : ServerTools) : list ToolNode :=
  map (tool_node (se_ServerName s)) (se_Tools s) ++ [server_node s].
Definition server_files (parts : list string) (s : ServerTools) : list (string * ToolNode) :=
  zip (map (stem_path parts) (server_stems s)) (server_nodes s).
Definition folded_stem (f : string * string) : string * string := (foldGeneratedName f.1, foldGeneratedName f.2).

Lemma stem_generated parts dir stem :
  Forall kept parts → kept dir → ContainsByte stem "/" = false →
  generatedPath (abs_path parts) [dir; stem +:+ ".json"] = Ok (stem_path parts (dir, stem)).
Proof.
  intros Hp Hd Hs. apply generatedPath_below; [done| |done]. repeat constructor; try apply Hd. all: by apply json_file_kept.
Qed.

Lemma tool_files parts name tools : Forall kept parts → kept name → Forall (tool_name_ok name) tools → ∀ files,
  rfold (λ files tool,
      match generateToolFile (abs_path parts) name tool with
      | Err e => Err (Wrapf "failed to generate tool file for %s: %w" [FStr (tl_Name tool)] e)
      | Ok f => Ok (files ++ [f])
      end) files tools =
  Ok (files ++ map (λ t, (stem_path parts (name, tl_Name t), tool_node name t)) tools).
Proof.
  intros Hp Hn Ht. induction Ht as [|tool tools Htool Hts IH]; intros files; [cbn; by rewrite app_nil_r|]. cbn [rfold].
  unfold generateToolFile at 1. rewrite stem_generated by (done || by eapply portable_slash, tk_portable).
  cbn [rbind]. rewrite IH. by rewrite <- app_assoc.
Qed.

Lemma generateServerStructure_files parts s :
  Forall kept parts → server_names_ok s → generateServerStructure (abs_path parts) s = Ok (server_files parts s).
Proof.
  intros Hp [Hn _ Ht _]. pose proof (portable_kept _ Hn) as Hk. unfold generateServerStructure.
  rewrite generatedPath_below by (done || by repeat constructor; apply Hk). cbn [rbind].
  rewrite tool_files by done. cbn [rbind]. rewrite stem_generated by (done || by apply portable_slash). cbn [rbind].
  f_equal. unfold server_files, server_stems, server_nodes. rewrite map_app, zip_with_app by (by rewrite !length_map).
  rewrite app_nil_l. f_equal. clear Ht. induction (se_Tools s) as [|t ts IH]; [done|]. cbn. by f_equal.
Qed.

Lemma folded_stems_NoDup servers :
  Forall server_names_ok servers → NoDup (map folded_server servers) → NoDup (map folded_stem (flat_map server_stems servers)).
Proof.
  induction 1 as [|s servers [Hn _ Ht Hd] Hs IH]; intros Hnd; [constructor|]. cbn [map] in Hnd. apply NoDup_cons in Hnd as [Hnew Hnd].
  cbn [flat_map]. rewrite map_app. apply NoDup_app. split_and!; [| |by apply IH].
  - unfold server_stems. rewrite map_app, !map_map. cbn [map]. apply NoDup_app. split_and!.
    + change (map _ (se_Tools s)) with (map (λ t, (folded_server s, foldGeneratedName (tl_Name t))) (se_Tools s)).
      rewrite <- (map_map (λ t, foldGeneratedName (tl_Name t)) (pair (folded_server s))).
      apply (NoDup_fmap_2 (pair (folded_server s))). exact Hd.
    + intros x (t & <- & Hin)%list_elem_of_In%in_map_iff Hx. apply list_elem_of_singleton in Hx. injection Hx as E.
      apply list_elem_of_In in Hin. rewrite Forall_forall in Ht. by apply (tk_server _ _ (Ht t Hin)).
    + apply NoDup_singleton.
  - intros x (f & <- & Hf)%list_elem_of_In%in_map_iff (g & E & Hg)%list_elem_of_In%in_map_iff.
    apply in_flat_map in Hg as (s' & Hs' & Hg). injection E as E _.
    assert (∀ s f, In f (server_stems s) → f.1 = se_ServerName s) as Hdir.
    { intros s0 f0 [(? & <- & _)%in_map_iff|[<-|[]]]%in_app_iff; done. }
    rewrite (Hdir _ _ Hf), (Hdir _ _ Hg) in E. apply Hnew. apply list_elem_of_In, in_map_iff. by exists s'.
Qed.

Lemma all_server_files parts servers :
  Forall kept parts → Forall server_names_ok servers → ∀ files,
  rfold (λ files server,
    match generateServerStructure (abs_path parts) server with
    | Err e => Err (Wrapf "failed to generate structure for server %s: %w" [FStr (se_ServerName server)] e)
    | Ok fs => Ok (files ++ fs)
    end) files servers = Ok (files ++ flat_map (server_files parts) servers).
Proof.
  intros Hp. induction 1 as [|s servers Hs _ IH]; intros files; [cbn; by rewrite app_nil_r|]. cbn [rfold flat_map].
  rewrite generateServerStructure_files by done. cbn [rbind]. rewrite IH. by rewrite <- app_assoc.
Qed.

(** The generator accepts a set of servers exactly when each name is a
    portable file name without a period, and the servers' names, the tools'
    names of a server and that server's own name differ, even up to case
    folding and Unicode normalisation, from each other and from the root
    file's. What it then writes stays in its directory and nothing overwrites
    anything: every file is the server's directory's and the tool's or the
    server's own name below the root, holding its node, and the names of all
    files differ even on a file system that ignores case. *)
Theorem generated_files parts servers :
  Forall kept parts →
  match validateGeneratedNames servers with
  | Ok _ =>
      Forall server_names_ok servers ∧ NoDup (map folded_server servers) ∧
      generate_servers (abs_path parts) servers = Ok (flat_map (server_files parts) servers) ∧
      NoDup (map folded_stem (flat_map server_stems servers))
  | Err _ => ¬ (Forall server_names_ok servers ∧ NoDup (map folded_server servers))
  end.
Proof.
  intros Hp. pose proof (validated_iff servers) as Hv. destruct (validateGeneratedNames servers) as [[]|e].
  - destruct (proj1 Hv eq_refl) as [Hok Hnd]. split_and!; [done..| |by apply folded_stems_NoDup].
    unfold generate_servers. by rewrite all_server_files.
  - by intros [=]%Hv.
Qed.
End files.

(** ** A concrete generation *)

#[local] Existing Instance ascii_text.
#[local] Instance ascii_upper : UpperCase := λ s,
  of_runes (map (λ r, if (97 <=? r) && (r <=? 122) then r - 32 else r) (runes s)).

Definition sample_tool (name description : string) : Tool := mkGenTool name "" description ∅ ∅ ∅.
Definition sample_servers : list ServerTools :=
  [mkServerTools "serena" [sample_tool "find_symbol" "Finds symbols. Slow."; sample_tool "edit" ""]; mkServerTools "notes" []].

Lemma generated_files_witness :
  validateGeneratedNames sample_servers = Ok tt ∧
  generate_servers "/tmp/out" sample_servers = Ok
    [("/tmp/out/serena/find_symbol.json", tool_node "serena" (sample_tool "find_symbol" "Finds symbols. Slow."));
     ("/tmp/out/serena/edit.json", tool_node "serena" (sample_tool "edit" ""));
     ("/tmp/out/serena/serena.json", mkToolNode "serena" "serena: 2 tools; find_symbol -> Finds symbols., edit -> Tool: edit" ∅);
     ("/tmp/out/notes/notes.json", mkToolNode "notes" "notes MCP server with no tools" ∅)].
Proof.
  assert (Forall kept ["tmp"; "out"]) as Hp by (by repeat constructor).
  pose proof (generated_files ["tmp"; "out"] sample_servers Hp) as H. assert (validateGeneratedNames sample_servers = Ok tt) as Hv by (vm_compute; reflexivity).
  rewrite Hv in H. destruct H as (_ & _ & H & _). split; [exact Hv|]. etransitivity; [exact H|]. vm_compute. reflexivity.
Defined.

(** Names that differ in case only, or by the root's, are refused, whatever
    order they come in. *)
Example case_collision :
  validateGeneratedNames [mkServerTools "a" [sample_tool "Edit" ""; sample_tool "edit" ""]] =
    Err (Errorf "provider %s: tool name %q has a case-folding collision with %q" [FStr "a"; FStr "edit"; FStr "Edit"]) ∧
  validateGeneratedNames [mkServerTools "ROOT" []] = Err (ErrorNew "provider name is reserved for the hierarchy root: root.json") ∧
  validateGeneratedNames [mkServerTools "com1" []] =
    Err (name_error "invalid %s name for generated path: reserved Windows device name: %q" "provider" "com1").
Proof. by vm_compute. Qed.

(** A long text without a sentence is cut at a byte, which may be in the
    middle of a character. *)
Example brief_cuts_character :
  let text := Join (replicate 40 (of_runes [8364])) "" in
  ValidString text = true ∧ ValidString (extractBriefDescription text) = false.
Proof. by vm_compute. Qed.
