(* ===== verification/Generated.v ===== *)
(** * From the generator to the broker

    The files the structure generator writes ([structure_generator/types.go]'s
    [MarshalJSON] and [generator.go]'s [writeNodeToJSON]), loaded by
    [LoadHierarchy] of [internal/hierarchy/hierarchy.go]: the composition of
    [Generator.v], [JsonRound.v] and [Hierarchy.v]. A value that the code holds
    as [interface{}] is the JSON it marshals to. *)
From Stdlib Require Import Ascii String.
From S2P Require Import Prelude GoStrings Limits Regex Utf8 Text Json JsonScan JsonStruct JsonRound Records Hierarchy Loader Generator.
Local Open Scope string_scope.
Local Open Scope list_scope.
Local Open Scope Z_scope.

(** ** The JSON of a node *)

(** A map marshals with its keys sorted. *)
Definition object_json (m : gmap string json) : json := JObj (sort_by fst (map_to_list m)).
Definition omit_object (name : string) (m : gmap string json) : list (string * json) :=
  if decide (m = ∅) then [] else [(name, object_json m)].

Definition definition_json (d : NodeTool) : json := JObj (
  omit_string "title" (nt_Title d) ++ omit_string "description" (nt_Description d) ++ omit_string "maps_to" (nt_MapsTo d) ++
  [("server", JStr (nt_Server d))] ++ omit_object "inputSchema" (nt_InputSchema d) ++
  omit_object "outputSchema" (nt_OutputSchema d) ++ omit_object "annotations" (nt_Annotations d)).

Definition MarshalJSON (n : ToolNode) : json := JObj (
  omit_string "overview" (tn_Overview n) ++ omit_object "tools" (definition_json <$> tn_Tools n)).

Definition writeNodeToJSON (n : ToolNode) : bytes := Encode_indented (MarshalJSON n).

(** ** What JSON carries *)

(** Values nested no deeper than [d]. *)
Definition carried (d : Z) (v : json) : Prop := valid_json v ∧ json_depth v ≤ d.
Definition carried_object (d : Z) (m : gmap string json) : Prop :=
  map_Forall (λ k v, ValidString k = true ∧ carried d v) m.
Record carried_tool (d : NodeTool) : Prop := {
  ca_strings : Forall (λ s, ValidString s = true) [nt_Title d; nt_Description d; nt_MapsTo d; nt_Server d];
  ca_objects : Forall (carried_object (max_depth - 4)) [nt_InputSchema d; nt_OutputSchema d; nt_Annotations d];
}.
Definition carried_node (n : ToolNode) : Prop := map_Forall (λ k d, ValidString k = true ∧ carried_tool d) (tn_Tools n).

Lemma carried_members d l :
  0 ≤ d → Forall (λ f, ValidString f.1 = true ∧ carried d f.2) l → carried (d + 1) (JObj l).
Proof.
  intros Hd Hl. unfold carried. cbn [valid_json json_depth]. induction Hl as [|f l (Hk & Hv & Hn) Hl IH]; cbn [foldr]; [split; [done|lia]|].
  destruct IH. split; [done|]. lia.
Qed.

Lemma carried_object_json d m : 0 ≤ d → carried_object d m → carried (d + 1) (object_json m).
Proof.
  intros Hd Hm. apply carried_members; [done|]. apply Forall_forall. intros [k v] Hin. rewrite sort_by_perm in Hin.
  apply elem_of_map_to_list in Hin. by apply (Hm k v).
Qed.

Lemma omit_string_carried d name s :
  0 ≤ d → ValidString name = true → ValidString s = true → Forall (λ f, ValidString f.1 = true ∧ carried d f.2) (omit_string name s).
Proof. intros Hd Hn Hs. unfold omit_string. case_match; [constructor|]. by apply Forall_singleton. Qed.
Lemma omit_object_carried d name m :
  0 ≤ d → ValidString name = true → carried_object d m →
  Forall (λ f, ValidString f.1 = true ∧ carried (d + 1) f.2) (omit_object name m).
Proof. intros Hd Hn Hm. unfold omit_object. case_decide; [constructor|]. apply Forall_singleton. split; [done|by apply carried_object_json]. Qed.

Lemma definition_carried d : carried_tool d → carried (max_depth - 2) (definition_json d).
Proof.
  intros [Hs Ho].
  apply Forall_cons in Hs as [? [? [? [? _]%Forall_cons]%Forall_cons]%Forall_cons].
  apply Forall_cons in Ho as [? [? [? _]%Forall_cons]%Forall_cons].
  replace (max_depth - 2) with (max_depth - 4 + 1 + 1) by lia. assert (0 ≤ max_depth - 4) by (unfold max_depth; lia).
  apply carried_members; [lia|]. rewrite !Forall_app, Forall_singleton. split_and!;
    first [apply omit_string_carried; solve [done|lia]|apply omit_object_carried; done|done|split; cbn; solve [done|lia]].
Qed.

(** A node is read back but for its overview, which need not be UTF-8: a long
    description is cut between any two bytes. *)
Definition clean_node (n : ToolNode) : ToolNode := mkToolNode (tn_Path n) (clean (tn_Overview n)) (tn_Tools n).

Lemma node_carried n : carried_node n →
  numbers_ok (MarshalJSON n) ∧ json_depth (MarshalJSON n) ≤ max_depth ∧ clean_json (MarshalJSON n) = MarshalJSON (clean_node n).
Proof.
  intros Ht. set (l := omit_object "tools" (definition_json <$> tn_Tools n)). assert (carried max_depth (JObj l)) as [Hl Hd].
  { replace max_depth with (max_depth - 2 + 1 + 1) by lia. assert (0 ≤ max_depth - 2) by (unfold max_depth; lia).
    apply carried_members; [lia|]. apply omit_object_carried; [done|done|]. intros k v Hv. apply lookup_fmap_Some in Hv as (d & <- & Hd).
    destruct (Ht k d Hd). split; [done|]. by apply definition_carried. }
  apply valid_json_clean in Hl as [Hn Hc]. injection Hc as Hc. unfold MarshalJSON, omit_string. cbn [clean_node tn_Overview tn_Tools]. fold l.
  destruct (String.eqb_spec (tn_Overview n) "") as [->|Hne]; [by cbn [app clean_json]; rewrite Hc|].
  assert (clean (tn_Overview n) ≠ "") as E%String.eqb_neq by (by intros ?%clean_empty). rewrite E. cbn [app numbers_ok json_depth foldr map clean_json fst snd].
  rewrite Hc. split; [done|]. split; [|done]. cbn [json_depth] in Hd. unfold max_depth in *. lia.
Qed.

(** ** A node read back *)

(** What [loadNode] makes of a generated tool and of a generated node. *)
Definition loaded_tool (name : string) (d : NodeTool) : ToolDefinition :=
  mkTool (nt_Description d) (if String.eqb (nt_MapsTo d) "" then name else nt_MapsTo d) (nt_Server d)
    (if decide (nt_InputSchema d = ∅) then None else Some (nt_InputSchema d)).
Definition loaded_node (n : ToolNode) : HierarchyNode :=
  mkHNode (clean (tn_Overview n)) (map_imap (λ name d, Some (loaded_tool name d)) (tn_Tools n)) None.

(** Members in any order are the map they came from. *)
Lemma into_entries_foldr (l : list (string * json)) : ∀ m, into_entries Some m l = Some (foldl (λ m f, <[f.1 := f.2]> m) m l).
Proof. induction l as [|[k v] l IH]; intros m; [done|]. apply IH. Qed.

Lemma foldl_list_to_map {A} (l : list (string * A)) (m : gmap string A) :
  NoDup l.*1 → foldl (λ m f, <[f.1 := f.2]> m) m l = list_to_map l ∪ m.
Proof.
  revert m. induction l as [|[k v] l IH]; intros m Hnd; [by rewrite list_to_map_nil, (left_id_L ∅ (∪))|]. cbn [foldl fst snd].
  apply NoDup_cons in Hnd as [Hk Hnd]. rewrite IH, list_to_map_cons by done.
  rewrite <- insert_union_l, insert_union_r; [done|]. by apply not_elem_of_list_to_map_1.
Qed.

Lemma sorted_members (m : gmap string json) : list_to_map (sort_by fst (map_to_list m)) = m ∧ NoDup (sort_by fst (map_to_list m)).*1.
Proof.
  assert (NoDup (sort_by fst (map_to_list m)).*1) as Hnd by (rewrite sort_by_perm; apply NoDup_fst_map_to_list).
  split; [|done]. rewrite (list_to_map_proper _ (map_to_list m)); [apply list_to_map_to_list|done|by rewrite sort_by_perm].
Qed.

Lemma into_object_json (m : gmap string json) current :
  into_map Some current (object_json m) = Some (m ∪ current) .
Proof.
  unfold object_json. cbn [into_map]. rewrite into_entries_foldr. f_equal. destruct (sorted_members m) as [Hm Hnd].
  rewrite foldl_list_to_map by done. by rewrite Hm.
Qed.

Lemma entry_members (l : list (string * json)) name :
  NoDup l.*1 → entry l name = (list_to_map l : gmap string json) !! name.
Proof.
  intros Hl. unfold entry. rewrite into_entries_foldr, foldl_list_to_map by done. cbn [default]. unfold default, id.
  by rewrite (right_id_L ∅ (∪)).
Qed.

Definition members_of (l : list (string * json)) : gmap string json := list_to_map l.

Lemma members_of_app l1 l2 k : members_of (l1 ++ l2) !! k = match members_of l1 !! k with Some v => Some v | None => members_of l2 !! k end.
Proof. unfold members_of. rewrite list_to_map_app, lookup_union. by destruct (_ !! k), (_ !! k). Qed.
Lemma members_of_one n v k : members_of [(n, v)] !! k = if String.eqb n k then Some v else None.
Proof.
  unfold members_of. rewrite list_to_map_cons, list_to_map_nil, insert_empty.
  destruct (String.eqb_spec n k) as [->|]; [by rewrite lookup_singleton_eq|by rewrite lookup_singleton_ne].
Qed.
Lemma omit_string_lookup n s k :
  members_of (omit_string n s) !! k = if String.eqb n k then (if String.eqb s "" then None else Some (JStr s)) else None.
Proof. unfold omit_string. destruct (String.eqb s ""); [by case_match|apply members_of_one]. Qed.
Lemma omit_object_lookup n m k :
  members_of (omit_object n m) !! k = if String.eqb n k then (if decide (m = ∅) then None else Some (object_json m)) else None.
Proof. unfold omit_object. destruct (decide (m = ∅)); [by case_match|apply members_of_one]. Qed.

Lemma omit_string_keys n s : (omit_string n s).*1 `sublist_of` [n].
Proof. unfold omit_string. case_match; [apply sublist_nil_l|done]. Qed.
Lemma omit_object_keys n m : (omit_object n m).*1 `sublist_of` [n].
Proof. unfold omit_object. case_decide; [apply sublist_nil_l|done]. Qed.

Definition definition_keys : list string :=
  ["title"] ++ ["description"] ++ ["maps_to"] ++ ["server"] ++ ["inputSchema"] ++ ["outputSchema"] ++ ["annotations"].

Lemma tool_of_definition name d : tool_of name (definition_json d) = Some (loaded_tool name d).
Proof.
  unfold definition_json, tool_of, entry_string, loaded_tool.
  set (l := _ ++ _). assert (NoDup l.*1) as Hnd.
  { apply (sublist_NoDup _ definition_keys); [by apply (bool_decide_unpack _); vm_compute|].
    unfold l, definition_keys. rewrite !fmap_app. repeat apply sublist_app; auto using omit_string_keys, omit_object_keys. }
  rewrite !entry_members by done. fold (members_of l). unfold l.
  rewrite !members_of_app, !omit_string_lookup, !omit_object_lookup, !members_of_one. cbn.
  assert (∀ x, default "" (match (if String.eqb x "" then None else Some (JStr x)) with Some (JStr s) => Some s | _ => None end) = x) as Hx.
  { intros x. by destruct (String.eqb_spec x "") as [->|]. }
  do 2 f_equal.
  - rewrite <- (Hx (nt_Description d)) at 3. by destruct (nt_Description d =? "")%string.
  - by destruct (nt_MapsTo d =? "")%string.
  - destruct (decide (nt_InputSchema d = ∅)); [done|]. pose proof (into_object_json (nt_InputSchema d) ∅) as Hi.
    by rewrite (right_id_L ∅ (∪)) in Hi.
Qed.

Lemma node_members_written overview tools :
  node_members (mkNodeData "" ∅ None) (omit_string "overview" overview ++ omit_object "tools" tools) = Some (mkNodeData overview tools None).
Proof.
  pose proof (into_object_json tools ∅) as Ht. rewrite (right_id_L ∅ (∪)) in Ht.
  unfold node_members, omit_string, omit_object.
  destruct (String.eqb_spec overview "") as [->|]; destruct (decide (tools = ∅)) as [->|]; cbn [app into_field];
    change (names_match "overview" "tools") with false; change (names_match "overview" "overview") with true; change (names_match "tools" "tools") with true;
    change (names_match "tools" "overview") with false; change (names_match "mcp_server" "tools") with false;
    change (names_match "mcp_server" "overview") with false; cbn [nd_Overview nd_Tools nd_MCPServer into_string];
    rewrite ?Ht; done.
Qed.

Lemma loadNode_written n : carried_node n → loadNode (Ok (writeNodeToJSON n)) = Ok (loaded_node n).
Proof.
  intros Hn. destruct (node_carried n Hn) as (Hv & Hd & Hc). unfold loadNode, writeNodeToJSON. cbn [rbind].
  rewrite encoded_cleans, Hc by done. cbn [mbind option_bind]. unfold MarshalJSON. cbn [into_struct clean_node tn_Overview tn_Tools].
  rewrite node_members_written. unfold loaded_node. do 2 f_equal. cbn [nd_Tools]. apply map_eq. intros k.
  rewrite !map_lookup_imap, lookup_fmap. destruct (tn_Tools n !! k) as [d|]; [|done]. apply tool_of_definition.
Qed.

(** A node the generator writes is the node the broker reads: its overview,
    with U+FFFD for what was cut inside a character, and, of every tool, the
    description, the name it maps to, the server and the schema, whatever
    characters the texts hold and however many tools there are. *)
Theorem node_roundtrip n : carried_node n → loadNode (Ok (writeNodeToJSON n)) = Ok (loaded_node n).
Proof. apply loadNode_written. Qed.

Definition two_tools : ToolNode := mkToolNode "serena/search" "Finds <things>; \fast"
  {["find_symbol" := mkNodeTool "" "" "find" "serena" ∅ ∅ ∅; "edit" := mkNodeTool "Edit" "" "" "serena" {["type" := JStr "object"]} ∅ ∅]}.

Lemma object_carried : carried_object (max_depth - 4) ∅ ∧ carried_object (max_depth - 4) {["type" := JStr "object"]}.
Proof.
  split; [apply map_Forall_empty|]. apply map_Forall_singleton. split; [by vm_compute|]. split; by vm_compute.
Qed.

(** The checks of a concrete tool. *)
Ltac carried_tool :=
  pose proof object_carried as [? ?];
  split; [repeat (apply Forall_cons; split; [by vm_compute|]); apply Forall_nil_2|
          repeat (apply Forall_cons; split; [assumption|]); apply Forall_nil_2].

Lemma node_roundtrip_witness :
  carried_node two_tools ∧
  match loadNode (Ok (writeNodeToJSON two_tools)) with
  | Ok h => hy_Overview h = "Finds <things>; \fast" ∧
            hy_Tools h !! "edit" = Some (mkTool "" "edit" "serena" (Some {["type" := JStr "object"]}))
  | Err _ => False
  end.
Proof.
  assert (carried_node two_tools) as Hc.
  { intros k d Hd. unfold two_tools in Hd. cbn [tn_Tools] in Hd. apply lookup_insert_Some in Hd as [[<- <-]|[_ [<- <-]%lookup_singleton_Some]];
      (split; [by vm_compute|carried_tool]). }
  split; [exact Hc|]. rewrite (node_roundtrip two_tools Hc). split; vm_compute; reflexivity.
Defined.

(** ** The directory that is loaded *)

Section loaded.
Context `{TextOps} `{UpperCase}.
(** The index of a server: a node without tools, whose overview may have been
    rewritten since. *)
Context (index : ServerTools → ToolNode) (index_empty : ∀ s, tn_Tools (index s) = ∅).

(** The files of a server's directory. *)
Definition indexed_nodes (s : ServerTools) : list ToolNode := map (tool_node (se_ServerName s)) (se_Tools s) ++ [index s].
Definition server_entries (s : ServerTools) : list (string * tree) :=
  map (λ f, (f.1.2 +:+ ".json", TFile (Ok (writeNodeToJSON f.2)))) (zip (server_stems s) (indexed_nodes s)).

(** A directory as it is listed, in any order. *)
Definition generated_directory (listing : ServerTools → list (string * tree)) (root : tree) (servers : list ServerTools) : list (string * tree) :=
  map (λ s, match s with Some s => (se_ServerName s, TDir (listing s)) | None => ("root.json", root) end) (map Some servers ++ [None]).

(** The nodes of the hierarchy. *)
Definition tool_key (s : ServerTools) (t : Tool) : string := se_ServerName s +:+ "." +:+ tl_Name t.
Definition server_pairs (s : ServerTools) : list (string * HierarchyNode) :=
  map (λ t, (tool_key s t, loaded_node (tool_node (se_ServerName s) t))) (se_Tools s) ++
  [(se_ServerName s, loaded_node (index s))].
Definition generated_hierarchy (root : HierarchyNode) (servers : list ServerTools) : Hierarchy :=
  (list_to_map (flat_map server_pairs servers) : gmap string HierarchyNode) ∪ <["/" := root]> {["" := root]}.

(** A step of the walk adds the nodes [pairs]. *)
Definition adds_nodes (f : Hierarchy → result error Hierarchy) (pairs : list (string * HierarchyNode)) : Prop :=
  ∀ nodes : gmap string HierarchyNode, f nodes = Ok ((list_to_map pairs : gmap string HierarchyNode) ∪ nodes).

Lemma adds_nothing f : (∀ nodes, f nodes = Ok nodes) → adds_nodes f [].
Proof. intros Hf nodes. by rewrite Hf, list_to_map_nil, (left_id_L ∅ (∪)). Qed.
Lemma adds_one f k n : (∀ nodes, f nodes = Ok (<[k := n]> nodes)) → adds_nodes f [(k, n)].
Proof. intros Hf nodes. rewrite Hf, list_to_map_cons, list_to_map_nil, <- insert_union_l. by rewrite (left_id_L ∅ (∪)). Qed.

(** The entries of a directory, each adding its nodes. *)
Lemma adds_entries rootBase dirs entries pairs :
  Forall2 (λ e ps, adds_nodes (load_tree rootBase dirs e.1 e.2) ps) entries pairs →
  adds_nodes (load_entries rootBase dirs entries) (concat (rev pairs)).
Proof.
  induction 1 as [|[name t] ps entries pairs Hf _ IH]; [by apply adds_nothing|intros nodes].
  cbn [load_entries]. cbn [fst snd] in Hf. rewrite Hf. cbn [rbind]. rewrite IH. cbn [rev].
  rewrite concat_app, list_to_map_app. cbn [concat]. by rewrite app_nil_r, (assoc_L (∪)).
Qed.

Lemma load_tree_dir rootBase dirs name entries : load_tree rootBase dirs name (TDir entries) = load_entries rootBase (dirs ++ [name]) entries.
Proof. done. Qed.

Lemma TrimSuffix_json x : HasSuffix (x +:+ ".json") ".json" = true ∧ TrimSuffix (x +:+ ".json") ".json" = x.
Proof.
  assert (HasSuffix (x +:+ ".json") ".json" = true) as Hs.
  { unfold HasSuffix. apply HasPrefix_spec. exists (str_rev x). unfold str_rev.
    apply (inj to_bytes). by rewrite !to_bytes_app, !to_of_bytes, rev_app_distr. }
  split; [done|]. unfold TrimSuffix. rewrite Hs, slen_app. replace (slen x + slen ".json" - slen ".json") with (slen x) by lia. apply slice_to_app.
Qed.

Lemma ReplaceByte_none x old new : ContainsByte x old = false → ReplaceByte x old new = x.
Proof.
  intros Hx. unfold ReplaceByte. rewrite <- (of_to_bytes x) at 2. f_equal.
  induction x as [|a x IH]; [done|]. cbn in *. apply orb_false_iff in Hx as [Ha Hx]. by rewrite Ha, IH.
Qed.

Lemma generated_key rootBase s t :
  portable_name s → hierarchy_key rootBase [s] (t +:+ ".json") = if String.eqb t s then s else s +:+ "." +:+ t.
Proof.
  intros Hs. unfold hierarchy_key. cbn [Join last default]. rewrite (proj2 (TrimSuffix_json t)), ReplaceByte_none by (by apply portable_slash).
  assert (String.eqb s "." = false ∧ String.eqb s "" = false) as [-> ->].
  { pose proof (portable_kept s Hs) as (? & ? & _). by split; apply String.eqb_neq. }
  done.
Qed.
Lemma NoDup_map_inj {A B} (f : A → B) l x y : NoDup (map f l) → x ∈ l → y ∈ l → f x = f y → x = y.
Proof.
  intros Hnd [i Hx]%list_elem_of_lookup [j Hy]%list_elem_of_lookup E.
  assert (i = j) as ->; [|congruence]. eapply (NoDup_lookup (f <$> l)); [exact Hnd|by rewrite list_lookup_fmap, Hx|].
  by rewrite list_lookup_fmap, Hy, E.
Qed.

(** The key of a file, by its directory and stem. *)
Definition stem_key (f : string * string) : string := if String.eqb f.2 f.1 then f.1 else f.1 +:+ "." +:+ f.2.

Lemma adds_file rootBase s t n :
  portable_name s → t ≠ "root" → carried_node n →
  adds_nodes (load_tree rootBase [s] (t +:+ ".json") (TFile (Ok (writeNodeToJSON n)))) [(stem_key (s, t), loaded_node n)].
Proof.
  intros Hs Ht Hn. apply adds_one. intros nodes. cbn [load_tree]. unfold load_file. rewrite (proj1 (TrimSuffix_json t)). cbn [negb orb].
  destruct (String.eqb_spec (t +:+ ".json") "root.json") as [E|_].
  { destruct Ht. rewrite <- (proj2 (TrimSuffix_json t)), E. by vm_compute. }
  by rewrite loadNode_written, generated_key.
Qed.

Lemma adds_permuted {A} rootBase dirs (f : A → string * tree) (p : A → list (string * HierarchyNode)) l entries :
  entries ≡ₚ map f l → Forall (λ x, adds_nodes (load_tree rootBase dirs (f x).1 (f x).2) (p x)) l →
  NoDup (flat_map p l).*1 → adds_nodes (load_entries rootBase dirs entries) (flat_map p l).
Proof.
  intros He Hl Hnd. apply Permutation_map_inv in He as (l' & -> & Hp). rewrite Hp in Hl.
  assert (Forall2 (λ e ps, adds_nodes (load_tree rootBase dirs e.1 e.2) ps) (map f l') (map p l')) as Hf2.
  { clear Hp. induction Hl; constructor; done. }
  intros nodes. rewrite (adds_entries _ _ _ _ Hf2). do 2 f_equal. symmetry. apply list_to_map_proper; [done|].
  rewrite flat_map_concat_map, Hp. by rewrite <- (Permutation_rev (map p l')).
Qed.

Lemma zip_server s : zip (server_stems s) (indexed_nodes s) =
  map (λ t, ((se_ServerName s, tl_Name t), tool_node (se_ServerName s) t)) (se_Tools s) ++
  [((se_ServerName s, se_ServerName s), index s)].
Proof.
  unfold server_stems, indexed_nodes. rewrite zip_with_app by (by rewrite !length_map). f_equal.
  induction (se_Tools s) as [|t ts IH]; [done|]. cbn. by f_equal.
Qed.

Lemma not_root_key name : foldGeneratedName name ≠ root_key → name ≠ "root".
Proof. by intros Hn ->. Qed.
Lemma tool_not_server server t : tool_name_ok server t → tl_Name t ≠ server.
Proof. by intros [_ _ Hs] <-. Qed.

Lemma server_pairs_zip s : server_names_ok s →
  flat_map (λ x, [(stem_key x.1, loaded_node x.2)]) (zip (server_stems s) (indexed_nodes s)) = server_pairs s.
Proof.
  intros [_ _ Ht _]. rewrite zip_server, flat_map_app. unfold server_pairs. f_equal.
  - induction Ht as [|t ts Hok%tool_not_server _ IH]; [done|]. cbn [map flat_map fst snd]. rewrite IH. unfold stem_key, tool_key. cbn [fst snd app].
    by rewrite (proj2 (String.eqb_neq _ _) Hok).
  - cbn. unfold stem_key. cbn. by rewrite String.eqb_refl.
Qed.
(** Servers whose names, texts and schemas JSON carries. *)
Definition carried_server (s : ServerTools) : Prop :=
  ValidString (se_ServerName s) = true ∧ Forall (λ t, carried_node (tool_node (se_ServerName s) t)) (se_Tools s).

Lemma server_files_carried s : carried_server s → Forall (λ x, carried_node x.2) (zip (server_stems s) (indexed_nodes s)).
Proof.
  intros [_ Ht]. rewrite zip_server. apply Forall_app. split; [by apply Forall_map|].
  apply Forall_singleton. unfold carried_node. cbn [snd]. rewrite index_empty. apply map_Forall_empty.
Qed.

Definition portable_stem (f : string * string) : Prop := portable_name f.1 ∧ portable_name f.2 ∧ f.2 ≠ "root".

Lemma stems_portable s : server_names_ok s → Forall (λ f, f.1 = se_ServerName s ∧ portable_stem f) (server_stems s).
Proof.
  intros [Hn Hr Ht _]. apply not_root_key in Hr. unfold server_stems. apply Forall_app. split; [|by apply Forall_singleton].
  apply Forall_map. eapply Forall_impl; [exact Ht|]. intros t [Hp Hk _]. apply not_root_key in Hk. done.
Qed.

Lemma stem_key_inj f g : portable_stem f → portable_stem g → stem_key f = stem_key g → f = g.
Proof.
  assert (∀ f, portable_stem f → Split (stem_key f) "." = if String.eqb f.2 f.1 then [f.1] else [f.1; f.2]) as Hsplit.
  { intros [d t] (Hd%pn_period & Ht%pn_period & _). unfold stem_key. cbn [fst snd] in *. destruct (String.eqb t d); [by apply Split_no_byte|].
    change (d +:+ "." +:+ t) with (d +:+ String "." t). rewrite Split_app_sep by done. by rewrite (Split_no_byte t). }
  intros Hf Hg E. apply (f_equal (λ k, Split k ".")) in E. rewrite (Hsplit f Hf), (Hsplit g Hg) in E.
  destruct f as [d t], g as [d' t']. cbn [fst snd] in E.
  destruct (String.eqb_spec t d) as [->|], (String.eqb_spec t' d') as [->|]; congruence.
Qed.

Lemma NoDup_map_finer {A B C} (f : A → B) (g : A → C) l :
  (∀ x y, x ∈ l → y ∈ l → f x = f y → g x = g y) → NoDup (map g l) → NoDup (map f l).
Proof.
  induction l as [|x l IH]; intros Hfg Hnd; [constructor|]. cbn [map] in *. apply NoDup_cons in Hnd as [Hx Hnd]. constructor.
  - intros (y & E & Hy)%list_elem_of_In%in_map_iff. apply Hx. apply list_elem_of_In, in_map_iff. exists y. split; [|done].
    apply Hfg; [right; by apply list_elem_of_In|by left|done].
  - apply IH; [|done]. intros y z Hy Hz. apply Hfg; by right.
Qed.

Lemma server_pairs_keys s : server_names_ok s → (server_pairs s).*1 = map stem_key (server_stems s).
Proof.
  intros Hs. rewrite <- server_pairs_zip by done. rewrite zip_server. unfold server_stems.
  rewrite flat_map_app, fmap_app, map_app. f_equal. induction (se_Tools s) as [|t ts IH]; [done|]. cbn. by f_equal.
Qed.

Lemma generated_keys servers :
  Forall server_names_ok servers → NoDup (map folded_server servers) → NoDup (flat_map server_pairs servers).*1.
Proof.
  intros Hok Hnd. assert ((flat_map server_pairs servers).*1 = map stem_key (flat_map server_stems servers)) as ->.
  { clear Hnd. induction Hok as [|s servers Hs _ IH]; [done|]. cbn [flat_map]. by rewrite fmap_app, map_app, server_pairs_keys, IH. }
  apply (NoDup_map_finer _ folded_stem); [|by apply folded_stems_NoDup].
  assert (∀ f, f ∈ flat_map server_stems servers → portable_stem f) as Hp.
  { intros f (s & Hs & Hf)%list_elem_of_In%in_flat_map. rewrite Forall_forall in Hok. apply list_elem_of_In, Hok, stems_portable in Hs.
    rewrite Forall_forall in Hs. by apply list_elem_of_In, Hs in Hf as [_ ?]. }
  intros f g Hf Hg E. f_equal. apply stem_key_inj; auto.
Qed.

Lemma server_pairs_NoDup s servers : s ∈ servers → NoDup (flat_map server_pairs servers).*1 → NoDup (server_pairs s).*1.
Proof.
  intros (l1 & l2 & ->)%list_elem_of_split Hnd. rewrite flat_map_app, fmap_app in Hnd. cbn [flat_map] in Hnd.
  rewrite fmap_app in Hnd. by apply NoDup_app in Hnd as (_ & _ & [? _]%NoDup_app).
Qed.

Lemma adds_server rootBase s entries :
  server_names_ok s → carried_server s → NoDup (server_pairs s).*1 → entries ≡ₚ server_entries s →
  adds_nodes (load_entries rootBase [se_ServerName s] entries) (server_pairs s).
Proof.
  intros Hs Hc Hnd He. rewrite <- server_pairs_zip in * by done. eapply adds_permuted; [exact He| |done].
  pose proof (server_files_carried s Hc) as Hcar. pose proof (stems_portable s Hs) as Hst.
  apply Forall_forall. intros [[d t] n] Hin. rewrite Forall_forall in Hcar. rewrite Forall_forall in Hst. specialize (Hcar _ Hin).
  apply elem_of_zip_l in Hin. destruct (Hst _ Hin) as [Hd (Hp & _ & Ht)]. cbn [fst snd] in *. subst d. by apply adds_file.
Qed.

Lemma adds_generated rootBase listing root servers :
  Forall server_names_ok servers → NoDup (map folded_server servers) → Forall carried_server servers →
  (∀ s, s ∈ servers → listing s ≡ₚ server_entries s) → ∀ entries, entries ≡ₚ generated_directory listing root servers →
  (∀ nodes, load_tree rootBase [] "root.json" root nodes = Ok nodes) →
  adds_nodes (load_entries rootBase [] entries) (flat_map server_pairs servers).
Proof.
  intros Hok Hnd Hc Hl entries He Hr. pose proof (generated_keys servers Hok Hnd) as Hkeys.
  set (p := λ o : option ServerTools, match o with Some s => server_pairs s | None => [] end).
  assert (flat_map server_pairs servers = flat_map p (map Some servers ++ [None])) as E.
  { rewrite flat_map_app. cbn. rewrite app_nil_r. clear. induction servers as [|s l IH]; [done|]. cbn. by f_equal. }
  rewrite E in *. eapply adds_permuted; [exact He| |done]. apply Forall_app. split; [|apply Forall_singleton; by apply adds_nothing].
  apply Forall_map. apply Forall_forall. intros s Hs. rewrite Forall_forall in Hok. rewrite Forall_forall in Hc. cbn [fst snd]. rewrite load_tree_dir.
  rewrite <- E in Hkeys. apply adds_server; auto. by eapply server_pairs_NoDup.
Qed.

(** *** What is in the hierarchy *)

Definition root_node (overview : string) : ToolNode := mkToolNode "root" overview ∅.

Lemma pairs_elem k n servers : (k, n) ∈ flat_map server_pairs servers ↔ ∃ s, s ∈ servers ∧
  ((∃ t, t ∈ se_Tools s ∧ k = tool_key s t ∧ n = loaded_node (tool_node (se_ServerName s) t)) ∨
   (k = se_ServerName s ∧ n = loaded_node (index s))).
Proof.
  rewrite list_elem_of_In, in_flat_map. split.
  - intros (s & Hs & [(t & [= <- <-] & Ht)%in_map_iff|[[= <- <-]|[]]]%in_app_iff); exists s;
      (split; [by apply list_elem_of_In|]); [left; exists t; split; [by apply list_elem_of_In|done]|by right].
  - intros (s & Hs & Hin). exists s. split; [by apply list_elem_of_In|]. apply in_app_iff.
    destruct Hin as [(t & Ht & -> & ->)|[-> ->]]; [left; apply in_map_iff; exists t; split; [done|by apply list_elem_of_In]|by right; left].
Qed.

Section hierarchy.
Context (root : HierarchyNode) (servers : list ServerTools).
Hypothesis Hok : Forall server_names_ok servers.
Hypothesis Hnd : NoDup (map folded_server servers).

Lemma server_ok s : s ∈ servers → server_names_ok s.
Proof. revert s. by apply Forall_forall. Qed.
Lemma tool_ok s t : s ∈ servers → t ∈ se_Tools s → tool_name_ok (se_ServerName s) t.
Proof. intros Hs%server_ok. destruct Hs as [_ _ Ht _]. revert t. by apply Forall_forall. Qed.

Lemma hierarchy_pairs k n : (k, n) ∈ flat_map server_pairs servers → generated_hierarchy root servers !! k = Some n.
Proof.
  intros Hin. unfold generated_hierarchy. apply lookup_union_Some_raw. left.
  apply elem_of_list_to_map; [by apply generated_keys|done].
Qed.

Lemma hierarchy_lookup k n : generated_hierarchy root servers !! k = Some n →
  (k, n) ∈ flat_map server_pairs servers ∨ (k = "" ∨ k = "/") ∧ n = root.
Proof.
  unfold generated_hierarchy. intros [Hk|[_ Hk]]%lookup_union_Some_raw; [left; by apply elem_of_list_to_map_2|right].
  apply lookup_insert_Some in Hk as [[<- <-]|[_ [<- <-]%lookup_singleton_Some]]; auto.
Qed.

Lemma loaded_tool_node s t : tl_Name t ≠ "" →
  hy_Tools (loaded_node (tool_node s t)) =
  {[tl_Name t := mkTool (tl_Description t) (tl_Name t) s (if decide (tl_InputSchema t = ∅) then None else Some (tl_InputSchema t))]}.
Proof.
  intros Hne. unfold loaded_node, tool_node. cbn [hy_Tools tn_Tools]. apply map_eq. intros k. rewrite map_lookup_imap.
  destruct (decide (tl_Name t = k)) as [<-|?]; [|by rewrite !lookup_singleton_ne]. rewrite !lookup_singleton_eq. cbn.
  unfold loaded_tool. cbn. by destruct (String.eqb_spec (tl_Name t) "").
Qed.

Lemma loaded_index s : hy_Tools (loaded_node (index s)) = ∅.
Proof. unfold loaded_node. cbn [hy_Tools]. by rewrite index_empty. Qed.

Lemma Split_tool_key s t : s ∈ servers → t ∈ se_Tools s → Split (tool_key s t) "." = [se_ServerName s; tl_Name t].
Proof.
  intros Hs Ht. pose proof (tool_ok s t Hs Ht) as [Htp _ _]. pose proof (server_ok s Hs) as [Hsp _ _ _].
  unfold tool_key. change (se_ServerName s +:+ "." +:+ tl_Name t) with (se_ServerName s +:+ String "." (tl_Name t)).
  rewrite Split_app_sep by by apply pn_period. by rewrite (Split_no_byte (tl_Name t)) by by apply pn_period.
Qed.

(** A node with tools is a tool's own. *)
Lemma node_with_tools k n : hy_Tools root = ∅ → generated_hierarchy root servers !! k = Some n → hy_Tools n ≠ ∅ →
  ∃ s t, s ∈ servers ∧ t ∈ se_Tools s ∧ k = tool_key s t ∧ n = loaded_node (tool_node (se_ServerName s) t).
Proof.
  intros Hr [(s & Hs & [(t & Ht & -> & ->)|[-> ->]])%pairs_elem|[_ ->]]%hierarchy_lookup Hne; [by exists s, t|by rewrite loaded_index in Hne|done].
Qed.

Lemma generated_flat : hy_Tools root = ∅ → flat_hierarchy (generated_hierarchy root servers).
Proof.
  intros Hr. split.
  - intros k n u Hn Hu. destruct (node_with_tools k n Hr Hn) as (s & t & Hs & Ht & -> & ->).
    { intros E. rewrite E, lookup_empty in Hu. by destruct Hu. }
    pose proof (pn_nonempty _ (tk_portable _ _ (tool_ok s t Hs Ht))) as Hne. rewrite loaded_tool_node in Hu by done.
    apply lookup_singleton_is_Some in Hu as <-. by rewrite Split_tool_key.
  - intros k n c Hn Hne. destruct (node_with_tools k n Hr Hn Hne) as (s & t & Hs & Ht & -> & _). apply eq_None_not_Some. intros [m Hm].
    assert (Split (tool_key s t +:+ "." +:+ c) "." = [se_ServerName s; tl_Name t] ++ Split c ".") as Hsp.
    { change (tool_key s t +:+ "." +:+ c) with (tool_key s t +:+ String "." c). by rewrite Split_app_sep_any, Split_tool_key. }
    apply hierarchy_lookup in Hm as [(s' & Hs' & [(t' & Ht' & E & _)|[E _]])%pairs_elem|[[E|E] _]].
    + rewrite E, Split_tool_key in Hsp by done. injection Hsp as _ _ Hsp. by apply (Split_ne_nil c ".").
    + rewrite E, Split_no_byte in Hsp; [done|]. by apply pn_period, server_ok.
    + by rewrite E in Hsp.
    + by rewrite E in Hsp.
  - intros k n u tool Hn Hu. destruct (node_with_tools k n Hr Hn) as (s & t & Hs & Ht & -> & ->).
    { intros E. by rewrite E, lookup_empty in Hu. }
    pose proof (pn_nonempty _ (tk_portable _ _ (tool_ok s t Hs Ht))) as Hne. rewrite loaded_tool_node in Hu by done.
    apply lookup_singleton_Some in Hu as [_ <-]. by apply pn_nonempty, server_ok.
Qed.

Lemma trim_left_none x c : ContainsByte x c = false → trim_left x c = x.
Proof. destruct x as [|a x]; [done|]. cbn. intros [Ha _]%orb_false_iff. by rewrite Ha. Qed.
Lemma category_path_server s : s ∈ servers → category_path (se_ServerName s) = se_ServerName s.
Proof.
  intros [Hp _ _ _]%server_ok. pose proof (portable_slash _ Hp) as Hsl. pose proof (pn_period _ Hp) as Hdot. unfold category_path.
  destruct (String.eqb_spec (se_ServerName s) "/") as [E|_]; [by rewrite E in Hsl|].
  unfold Trim. rewrite (trim_left_none (se_ServerName s)) by done. unfold str_rev. rewrite trim_left_none.
  - by rewrite to_of_bytes, rev_involutive, of_to_bytes.
  - apply not_true_iff_false. intros Hc. apply ContainsByte_elem in Hc. rewrite to_of_bytes in Hc.
    apply list_elem_of_In, in_rev, list_elem_of_In, ContainsByte_elem in Hc. congruence.
Qed.

(** A tool is executed under its key, and browsing its server lists it there. *)
Lemma generated_executes s t : hy_Tools root = ∅ → s ∈ servers → t ∈ se_Tools s →
  HandleExecuteTool (generated_hierarchy root servers) (tool_key s t) =
    Ok (se_ServerName s, tl_Name t, if decide (tl_InputSchema t = ∅) then None else Some (tl_InputSchema t)).
Proof.
  intros Hr Hs Ht. pose proof (pn_nonempty _ (tk_portable _ _ (tool_ok s t Hs Ht))) as Hne.
  pose proof (pn_nonempty _ (sn_portable _ (server_ok s Hs))) as Hsn.
  set (tool := mkTool (tl_Description t) (tl_Name t) (se_ServerName s) (if decide (tl_InputSchema t = ∅) then None else Some (tl_InputSchema t))).
  rewrite (execute_resolved _ _ tool) with (t := tl_Name t); [|..|by rewrite Split_tool_key].
  - cbn. by destruct (String.eqb_spec (tl_Name t) "").
  - apply (ResolveToolPath_node _ _ (tl_Name t)); [by rewrite Split_tool_key|]. unfold node_tool.
    rewrite (hierarchy_pairs (tool_key s t) (loaded_node (tool_node (se_ServerName s) t))) by (apply pairs_elem; exists s; split; [done|left; by exists t]).
    cbn [mbind option_bind]. by rewrite loaded_tool_node, lookup_singleton_eq.
  - done.
Qed.

Lemma generated_listed s t order : hy_Tools root = ∅ → s ∈ servers → t ∈ se_Tools s → order ≡ₚ map_to_list (generated_hierarchy root servers) →
  ∃ c, HandleGetToolsInCategory order (generated_hierarchy root servers) (se_ServerName s) = Ok c ∧
    ct_tools c !! tl_Name t = Some (mkToolInfo (tl_Description t) (tool_key s t)).
Proof.
  intros Hr Hs Ht Ho. set (h := generated_hierarchy root servers) in *.
  pose proof (pn_nonempty _ (sn_portable _ (server_ok s Hs))) as Hsn.
  assert (∀ c, child_path (se_ServerName s) c = se_ServerName s +:+ String "." c) as Hcp.
  { intros c. unfold child_path. by destruct (String.eqb_spec (se_ServerName s) ""). }
  assert (∀ c n, child_of h (se_ServerName s) c n → ∃ u, u ∈ se_Tools s ∧ c = tl_Name u ∧ n = loaded_node (tool_node (se_ServerName s) u)) as Hchild.
  { intros c n (Hh & Hdot & _). rewrite Hcp in Hh. assert (Split (se_ServerName s +:+ String "." c) "." = [se_ServerName s; c]) as Hsp.
    { rewrite Split_app_sep by (by apply pn_period, sn_portable, server_ok). by rewrite (Split_no_byte c). }
    apply hierarchy_lookup in Hh as [(s' & Hs' & [(u & Hu & E & ->)|[E _]])%pairs_elem|[[E|E] _]].
    - pose proof Hsp as Hsp'. rewrite E, Split_tool_key in Hsp' by done. injection Hsp' as En <-.
      assert (s' = s) as ->; [|by exists u].
      eapply (NoDup_map_inj folded_server); [done..|]. unfold folded_server. by rewrite En.
    - rewrite E, Split_no_byte in Hsp; [done|]. by apply pn_period, sn_portable, server_ok.
    - by rewrite E in Hsp.
    - by rewrite E in Hsp. }
  assert (∀ u, u ∈ se_Tools s → hy_Tools (loaded_node (tool_node (se_ServerName s) u)) =
    {[tl_Name u := mkTool (tl_Description u) (tl_Name u) (se_ServerName s) (if decide (tl_InputSchema u = ∅) then None else Some (tl_InputSchema u))]}) as Hut.
  { intros u Hu. by apply loaded_tool_node, pn_nonempty, (tk_portable (se_ServerName s)), tool_ok. }
  destruct (aggregated_listed order h (se_ServerName s) (loaded_node (index s)) Ho) as (c & Hc & Hp & Hall).
  - rewrite category_path_server by done. apply hierarchy_pairs, pairs_elem. exists s. split; [done|by right].
  - apply loaded_index.
  - rewrite category_path_server by done. intros c n (u & Hu & _ & ->)%Hchild. rewrite Hut by done. apply map_non_empty_singleton.
  - exists c. split; [done|]. rewrite category_path_server in * by done.
    destruct (Hall (tl_Name t) (mkToolInfo (tl_Description t) (tool_key s t))) as [i Hi].
    { eexists (tl_Name t), _, _. split_and!; [split_and!|..].
      - unfold child_path. destruct (String.eqb_spec (se_ServerName s) ""); [done|]. apply hierarchy_pairs, pairs_elem. exists s. split; [done|left; by exists t].
      - by apply pn_period, (tk_portable (se_ServerName s)), tool_ok.
      - rewrite Hcp. by destruct (se_ServerName s).
      - rewrite Hut by done. apply lookup_singleton_eq.
      - by rewrite Hcp. }
    rewrite Hi. f_equal. destruct (category_tools _ _ _ _ _ _ Ho Hc Hi) as [(n & tool & Hn & Htool & _)|(c' & n & tool & Hch & Htool & ->)].
    + assert (h !! se_ServerName s = Some (loaded_node (index s))) as E; [|rewrite Hp, E in Hn; injection Hn as <-; by rewrite loaded_index in Htool].
      apply hierarchy_pairs, pairs_elem. exists s. split; [done|by right].
    + rewrite Hp in *. apply Hchild in Hch as (u & Hu & -> & ->). rewrite Hut in Htool by done.
      apply lookup_singleton_Some in Htool as [En <-]. rewrite Hcp, En.
      assert (u = t) as ->; [|done]. destruct (server_ok s Hs) as [_ _ _ Hd]. eapply (NoDup_map_inj _ _ _ _ Hd); [done..|]. cbn. by rewrite En.
Qed.
End hierarchy.

(** Its texts are valid. *)
Lemma loaded_valid k n : ValidString k = true → carried_node n → valid_entry k (loaded_node n).
Proof.
  intros Hk Hn. split; [done|apply to_valid_valid|]. intros name t. unfold loaded_node. cbn [hy_Tools]. rewrite map_lookup_imap.
  destruct (tn_Tools n !! name) as [d|] eqn:E; [|done]. cbn. intros [= <-]. destruct (Hn _ _ E) as [Hname [Hs _]]. split; [done|].
  rewrite !Forall_cons in Hs. apply Hs.
Qed.
Lemma tool_key_valid s t : carried_server s → t ∈ se_Tools s → ValidString (tool_key s t) = true.
Proof.
  intros [Hs Ht] Hin. rewrite Forall_forall in Ht. specialize (Ht t Hin). unfold carried_node, tool_node in Ht. cbn [tn_Tools] in Ht. apply map_Forall_singleton in Ht as [Hname _]. unfold tool_key. by rewrite !ValidString_app.
Qed.
Lemma generated_valid overview servers : Forall carried_server servers → valid_hierarchy (generated_hierarchy (loaded_node (root_node overview)) servers).
Proof.
  intros Hc k n Hk. apply hierarchy_lookup in Hk as [(s & Hs & [(t & Ht & -> & ->)|[-> ->]])%pairs_elem|[Hk ->]].
  - rewrite Forall_forall in Hc. pose proof (Hc s Hs) as Hcs. apply loaded_valid; [by apply tool_key_valid|]. destruct Hcs as [_ Hcs]. rewrite Forall_forall in Hcs. by apply Hcs.
  - rewrite Forall_forall in Hc. apply loaded_valid; [by apply Hc|]. unfold carried_node. rewrite index_empty. apply map_Forall_empty.
  - apply loaded_valid; [by destruct Hk as [-> | ->]|apply map_Forall_empty].
Qed.

(** Loading what was written gives the hierarchy, in whatever order the
    directories list their entries. *)
Lemma generated_loads path listing overview servers entries :
  Forall server_names_ok servers → NoDup (map folded_server servers) → Forall carried_server servers →
  (∀ s, s ∈ servers → listing s ≡ₚ server_entries s) →
  entries ≡ₚ generated_directory listing (TFile (Ok (writeNodeToJSON (root_node overview)))) servers →
  LoadHierarchy path (Ok (writeNodeToJSON (root_node overview))) (TDir entries) =
    Ok (generated_hierarchy (loaded_node (root_node overview)) servers).
Proof.
  intros Hok Hnd Hc Hl He. unfold LoadHierarchy. rewrite loadNode_written by apply map_Forall_empty. cbn [rbind].
  by rewrite (adds_generated _ listing (TFile (Ok (writeNodeToJSON (root_node overview)))) servers) by done.
Qed.

(** What the generator writes for a set of servers, the broker serves, whatever
    overview the index of a server has been given since: the files of accepted
    servers, listed in any order, load as a hierarchy in which browsing a
    server lists each of its tools with its description, and executing the
    tool under the path it is listed with calls that tool on that server with
    its schema. *)
Lemma generated_served path listing overview servers entries :
  validateGeneratedNames servers = Ok tt → Forall carried_server servers →
  (∀ s, s ∈ servers → listing s ≡ₚ server_entries s) →
  entries ≡ₚ generated_directory listing (TFile (Ok (writeNodeToJSON (root_node overview)))) servers →
  ∃ h, LoadHierarchy path (Ok (writeNodeToJSON (root_node overview))) (TDir entries) = Ok h ∧ flat_hierarchy h ∧ valid_hierarchy h ∧
    ∀ s t, s ∈ servers → t ∈ se_Tools s →
      HandleExecuteTool h (tool_key s t) =
        Ok (se_ServerName s, tl_Name t, if decide (tl_InputSchema t = ∅) then None else Some (tl_InputSchema t)) ∧
      ∀ order, order ≡ₚ map_to_list h → ∃ c, HandleGetToolsInCategory order h (se_ServerName s) = Ok c ∧
        ct_tools c !! tl_Name t = Some (mkToolInfo (tl_Description t) (tool_key s t)).
Proof.
  intros [Hok Hnd]%validated_iff Hc Hl He. eexists. split; [by eapply generated_loads|]. split; [by apply generated_flat|]. split; [by apply generated_valid|].
  intros s t Hs Ht. split; [by apply generated_executes|]. intros order Ho. by apply generated_listed.
Qed.
End loaded.

(** ** A concrete hierarchy *)

#[local] Existing Instance ascii_text.
#[local] Existing Instance ascii_upper.

Definition schema_tool : Tool := mkGenTool "find_symbol" "" "Finds <symbols>. Slow." {["type" := JStr "object"]} ∅ ∅.
Definition small_servers : list ServerTools := [mkServerTools "serena" [schema_tool]; mkServerTools "notes" []].

Lemma small_carried : Forall carried_server small_servers.
Proof.
  apply Forall_cons. split; [|apply Forall_singleton; split; [done|constructor]]. split; [done|].
  apply Forall_singleton. apply map_Forall_singleton. split; [by vm_compute|carried_tool].
Qed.

Definition small_root : tree := TFile (Ok (writeNodeToJSON (root_node "Root"))).

Example small_served :
  ∃ h, LoadHierarchy "./structure" (Ok (writeNodeToJSON (root_node "Root")))
      (TDir (generated_directory (server_entries server_node) small_root small_servers)) = Ok h ∧
    HandleExecuteTool h "serena.find_symbol" = Ok ("serena", "find_symbol", Some {["type" := JStr "object"]}).
Proof.
  destruct (generated_served server_node (λ _, eq_refl) "./structure" (server_entries server_node) "Root" small_servers (generated_directory (server_entries server_node) small_root small_servers))
    as (h & Hh & _ & _ & Hs).
  - vm_compute. reflexivity.
  - exact small_carried.
  - intros s _. reflexivity.
  - reflexivity.
  - exists h. split; [exact Hh|]. destruct (Hs (mkServerTools "serena" [schema_tool]) schema_tool) as [He _]; [by left|by left|].
    etransitivity; [exact He|]. by rewrite decide_False by (apply map_non_empty_singleton).
Qed.
