(* ===== verification/Candidates.v ===== *)
(** * Capability candidates

    Models [structure_generator/capability_candidates.go]: the identifiers a
    hierarchy's names are turned into, the search of a hierarchy for the tools
    to migrate, and the package that is written for each. The tree a hierarchy
    is read from and the encoding of a manifest ([gopkg.in/yaml.v3]) are
    arguments; the manifest is read back by [ParseManifest] as the code does. *)
From stdpp Require Import sorting.
From Stdlib Require Import Ascii String.
From S2P Require Import Prelude GoStrings Limits Sha256 Regex Utf8 Text Json JsonScan JsonStruct SnapshotService Records Yaml Manifest Generator.
Local Open Scope string_scope.
Local Open Scope list_scope.
Local Open Scope Z_scope.

(** ** Identifiers *)

(** [unicode.ToLower] *)
Class RuneLower := ToLowerRune : Z → Z.

Section identifiers.
Context `{TextOps} `{UnicodeTables} `{RuneLower}.

Definition ascii_id_rune (r : Z) : bool := ((97 <=? r) && (r <=? 122)) || ((48 <=? r) && (r <=? 57)).
Definition hyphen : ascii := "-"%char.

(** The first part of a turn: the hyphen before an upper-case letter that
    begins a word, and its lower case. *)
Definition split_word (previous next : option Z) (result : bytes) (lastHyphen : bool) (character : Z) : bytes * Z :=
  if IsUpper character then
    let previousIsLowerOrDigit := match previous with Some r => IsLower r || IsDigit r | None => false end in
    let nextIsLower := match next with Some r => IsLower r | None => false end in
    (if negb (Nat.eqb (length result) 0) && negb lastHyphen && (previousIsLowerOrDigit || nextIsLower)
     then result ++ [hyphen] else result, ToLowerRune character)
  else (result, character).

Definition identifier_step (previous next : option Z) (s : bytes * bool) (character : Z) : bytes * bool :=
  let '(result, lastHyphen) := s in
  let '(result, character) := split_word previous next result lastHyphen character in
  if ascii_id_rune character then (result ++ encode_rune character, false)
  else if negb (Nat.eqb (length result) 0) && negb lastHyphen then (result ++ [hyphen], true)
  else (result, lastHyphen).

Fixpoint identifier_loop (previous : option Z) (rs : list Z) (s : bytes * bool) : bytes * bool :=
  match rs with
  | [] => s
  | character :: rest => identifier_loop (Some character) rest (identifier_step previous (head rest) s character)
  end.

Definition normalizeCandidateIdentifier (value : string) : string :=
  Trim (of_bytes (identifier_loop None (runes (NFKC value)) ([], false)).1) "-".

Definition identifier_segment (segment : string) : result error string :=
  let segment := normalizeCandidateIdentifier segment in
  fail_if String.eqb segment "" with ErrorNew "identifier segment has no letters or digits" else Ok segment.

Definition normalizeCapabilityID (value : string) : result error string :=
  let! segments := rfold (λ done_ segment, let! x := identifier_segment segment in Ok (done_ ++ [x])) [] (Split value ".") in
  Ok (Join segments ".").
End identifiers.

Example acronyms_together :
  let _ := ascii_text in let _ := ascii_tables in let _ : RuneLower := λ r, if (65 <=? r) && (r <=? 90) then r + 32 else r in
  map normalizeCandidateIdentifier ["HTTPServer_v2"; "getURL"; "--x"; "!?"] = ["http-server-v2"; "get-url"; "x"; ""].
Proof. vm_compute. reflexivity. Qed.

(** ** Nodes of a hierarchy *)

Record candidateToolDefinition := mkCandTool {
  ca_Title : string; ca_Description : string; ca_MapsTo : string; ca_Server : string;
  ca_InputSchema : option (gmap string json); ca_OutputSchema : option (gmap string json); ca_Annotations : option (gmap string json) }.
Record candidateHierarchyNode := mkCandNode {
  cn_Overview : string; cn_Tools : gmap string candidateToolDefinition; cn_MCPServer : option json }.
Record candidateSource := mkCandidate {
  cs_capabilityID : string; cs_sourcePath : string; cs_toolName : string; cs_tool : candidateToolDefinition }.

Definition known_fields (names : list string) (ms : list (string * json)) : bool :=
  forallb (λ m, existsb (λ n, names_match n m.1) names) ms.

(** [DisallowUnknownFields]: a field the struct does not have is an error. *)
Definition cand_tool_members (c : candidateToolDefinition) (ms : list (string * json)) : option candidateToolDefinition :=
  if negb (known_fields ["title"; "description"; "maps_to"; "server"; "inputSchema"; "outputSchema"; "annotations"] ms) then None else
  title ← into_field into_string "title" (ca_Title c) ms;
  description ← into_field into_string "description" (ca_Description c) ms;
  mapsTo ← into_field into_string "maps_to" (ca_MapsTo c) ms;
  server ← into_field into_string "server" (ca_Server c) ms;
  input ← into_field into_object "inputSchema" (ca_InputSchema c) ms;
  output ← into_field into_object "outputSchema" (ca_OutputSchema c) ms;
  annotations ← into_field into_object "annotations" (ca_Annotations c) ms;
  Some (mkCandTool title description mapsTo server input output annotations).
Definition zero_cand_tool : candidateToolDefinition := mkCandTool "" "" "" "" None None None.
Definition cand_node_members (c : candidateHierarchyNode) (ms : list (string * json)) : option candidateHierarchyNode :=
  if negb (known_fields ["overview"; "tools"; "mcp_server"] ms) then None else
  overview ← into_field into_string "overview" (cn_Overview c) ms;
  tools ← into_field (into_map (into_struct cand_tool_members zero_cand_tool)) "tools" (cn_Tools c) ms;
  server ← into_field (λ _ v, Some (Some v)) "mcp_server" (cn_MCPServer c) ms;
  Some (mkCandNode overview tools server).

Definition decode_error : error := Sentinel "json: cannot decode".
Definition decode_node (data : bytes) : result error candidateHierarchyNode :=
  match v ← parse data; into_struct cand_node_members (mkCandNode "" ∅ None) v with
  | None => Err decode_error
  | Some n => Ok n
  end.

(** ** [readHierarchyCandidates] *)

(** What [filepath.WalkDir] meets below the root: a symbolic link, an entry
    that is no directory with what [Info] and [ReadFile] give, a directory
    with its entries in lexical order, or one that cannot be listed. *)
Record fileInfo := mkInfo { fi_regular : bool; fi_size : Z }.
Inductive sourceTree :=
| SLink
| SFile (info : result error fileInfo) (data : result error bytes)
| SDir (entries : list (string * sourceTree))
| SUnlistable (err : error).

(** [filepath.Ext] of a name. *)
Definition Ext (name : string) : string :=
  let i := LastIndexByte name "." in if i <? 0 then "" else slice_from name i.

(** The path of a file from the directories above it, last first. *)
Definition relative_path (dirs : list string) (name : string) : string := Join (dirs ++ [name]) "/".

Definition hierarchyNodePath (dirs : list string) (name : string) : string :=
  let fileName := slice_to name (slen name - slen (Ext name)) in
  match last dirs with
  | None => fileName
  | Some base =>
      let directoryPath := Join dirs "." in
      if String.eqb fileName base then directoryPath else directoryPath +:+ "." +:+ fileName
  end.

Definition maxNodeBytes : Z := 16777216.

Section candidates.
Context `{TextOps} `{UnicodeTables} `{RuneLower}.

(** The hierarchy's name for a tool of a node. *)
Definition source_id (nodePath : string) (tools : gmap string candidateToolDefinition) (toolName : string) : string :=
  let separator := LastIndexByte nodePath "." in
  let lastNodeSegment := if 0 <=? separator then slice_from nodePath (separator + 1) else nodePath in
  if negb (Nat.eqb (size tools) 1) || negb (String.eqb lastNodeSegment toolName) then nodePath +:+ "." +:+ toolName else nodePath.

(** One tool: the candidates so far and the sources of their identifiers. *)
Definition add_candidate (nodePath path : string) (tools : gmap string candidateToolDefinition)
    (s : list candidateSource * gmap string string) (toolName : string) : result error (list candidateSource * gmap string string) :=
  let '(candidates, seenIDs) := s in
  let tool := default zero_cand_tool (tools !! toolName) in
  fail_if String.eqb (ca_Server tool) "" with Errorf "hierarchy tool %s.%s has no server mapping" [FStr nodePath; FStr toolName] else
  let sourceID := source_id nodePath tools toolName in
  match normalizeCapabilityID sourceID with
  | Err e => Err (Wrapf "normalize hierarchy tool %s: %w" [FStr sourceID] e)
  | Ok capabilityID =>
      match seenIDs !! capabilityID with
      | Some previous =>
          Err (Errorf "hierarchy paths %q and %q normalize to duplicate capability ID %q" [FStr previous; FStr sourceID; FStr capabilityID])
      | None => Ok (candidates ++ [mkCandidate capabilityID path toolName tool], <[capabilityID := sourceID]> seenIDs)
      end
  end.

Definition read_node (path : string) (info : result error fileInfo) (data : result error bytes) : result error candidateHierarchyNode :=
  let! info := info in
  fail_if negb (fi_regular info) || (fi_size info >? maxNodeBytes)
    with Errorf "hierarchy node is not a bounded regular file: %s" [FStr path] else
  let! data := data in
  match RejectDuplicateJSONMembers data with
  | Err e => Err (Wrapf "invalid hierarchy node %s: %w" [FStr path] e)
  | Ok _ => match decode_node data with
            | Err e => Err (Wrapf "decode hierarchy node %s: %w" [FStr path] e)
            | Ok node => Ok node
            end
  end.

(** The callback on a file. *)
Definition read_file (dirs : list string) (name : string) (info : result error fileInfo) (data : result error bytes)
    (s : list candidateSource * gmap string string) : result error (list candidateSource * gmap string string) :=
  if negb (String.eqb (Ext name) ".json") || String.eqb name "root.json" then Ok s
  else
    let path := relative_path dirs name in
    let! node := read_node path info data in
    rfold (add_candidate (hierarchyNodePath dirs name) path (cn_Tools node)) s (merge_sort str_le (map_to_list (cn_Tools node)).*1).

Fixpoint read_tree (dirs : list string) (name : string) (t : sourceTree) (s : list candidateSource * gmap string string) :
    result error (list candidateSource * gmap string string) :=
  match t with
  | SLink => Err (Errorf "hierarchy contains symlink: %s" [FStr (relative_path dirs name)])
  | SUnlistable e => Err e
  | SFile info data => read_file dirs name info data s
  | SDir entries => rfold (λ s e, read_tree (dirs ++ [name]) e.1 e.2 s) s entries
  end.

Definition readHierarchyCandidates (root : sourceTree) : result error (list candidateSource) :=
  match root with
  | SDir entries =>
      let! s := rfold (λ s e, read_tree [] e.1 e.2 s) ([], ∅) entries in
      Ok (sort_by cs_capabilityID s.1)
  | SUnlistable e => Err e
  | _ => Err (ErrorNew "hierarchy root must be a real directory")
  end.

(** ** [writeCapabilityCandidate] *)

Definition candidateHeader : string := "# Generated capability candidate. Review before installation." +:+ String NL "".

(** The identifiers a candidate's package is made of: parent, operation. *)
Definition split_id (capabilityID : string) : string * string :=
  let lastSeparator := LastIndexByte capabilityID "." in
  if 0 <=? lastSeparator then (slice_to capabilityID lastSeparator, slice_from capabilityID (lastSeparator + 1)) else ("", capabilityID).

Definition candidate_manifest (candidate : candidateSource) : result error Manifest :=
  let tool := cs_tool candidate in
  let '(parent, operationID) := split_id (cs_capabilityID candidate) in
  let providerID := normalizeCandidateIdentifier (ca_Server tool) in
  fail_if String.eqb providerID "" with Errorf "provider name %q cannot form a package identifier" [FStr (ca_Server tool)] else
  let target := if String.eqb (ca_MapsTo tool) "" then cs_toolName candidate else ca_MapsTo tool in
  let description := TrimSpace (ca_Description tool) in
  let description := if String.eqb description "" then "Invoke the " +:+ target +:+ " MCP tool." else description in
  let name := TrimSpace (ca_Title tool) in
  let name := if String.eqb name "" then cs_toolName candidate else name in
  Ok (mkManifest "tappet.gearboxlogic.dev/v1alpha1" "Capability"
        (mkMetadata (cs_capabilityID candidate) name "0.1.0" description ["mcp"; providerID])
        (mkSpec parent [] [mkOperation operationID description providerID target] [] [mkProviderBinding providerID "mcp" (ca_Server tool)])).

(** The file written and its path below [root], an absolute clean directory:
    [encode] is [yaml.Marshal]. Creating the directory and writing the file
    are the operating system's. *)
Definition candidate_file `{YamlDecoder} (encode : Manifest → result error bytes) (root : string) (candidate : candidateSource) :
    result error (string * bytes) :=
  let! manifest := candidate_manifest candidate in
  match encode manifest with
  | Err e => Err (Wrapf "encode candidate %s: %w" [FStr (cs_capabilityID candidate)] e)
  | Ok encoded =>
      let complete := to_bytes (candidateHeader +:+ "# Source hierarchy node: " +:+ cs_sourcePath candidate +:+ String NL "") ++ encoded in
      match ParseManifest complete with
      | Err e => Err (Wrapf "generated candidate %s failed validation: %w" [FStr (cs_capabilityID candidate)] e)
      | Ok _ =>
          let! directory := generatedPath root [cs_capabilityID candidate] in
          let! manifestPath := generatedPath directory ["tappet.yaml"] in
          Ok (manifestPath, complete)
      end
  end.
End candidates.

(** ** Lemmas: trimming *)

Lemma trim_left_spec s c :
  (∃ n, to_bytes s = replicate n c ++ to_bytes (trim_left s c)) ∧ head (to_bytes (trim_left s c)) ≠ Some c.
Proof.
  induction s as [|a s [[n IH] Hh]]; [split; [by exists 0%nat|done]|]. cbn [trim_left].
  destruct (Ascii.eqb_spec a c) as [->|Hne].
  - split; [|done]. exists (S n). cbn. by rewrite <- IH.
  - split; [by exists 0%nat|]. cbn. congruence.
Qed.

Lemma to_bytes_rev s : to_bytes (str_rev s) = rev (to_bytes s).
Proof. unfold str_rev. by rewrite to_of_bytes. Qed.

(** [Trim] takes a prefix and a suffix of [c]s off, and leaves none. *)
Lemma Trim_spec s c :
  (∃ n m, to_bytes s = replicate n c ++ to_bytes (Trim s c) ++ replicate m c) ∧
  head (to_bytes (Trim s c)) ≠ Some c ∧ last (to_bytes (Trim s c)) ≠ Some c.
Proof.
  unfold Trim. destruct (trim_left_spec s c) as [[n Hn] Hh]. set (t := trim_left s c) in *.
  destruct (trim_left_spec (str_rev t) c) as [[m Hm] Hl]. set (u := trim_left (str_rev t) c) in *.
  assert (to_bytes t = to_bytes (str_rev u) ++ replicate m c) as Ht.
  { rewrite to_bytes_rev in Hm. rewrite to_bytes_rev, <- (rev_involutive (to_bytes t)), Hm, rev_app_distr. f_equal.
    clear. induction m as [|m IH]; [done|]. cbn. rewrite IH. clear. induction m as [|m IH]; [done|]. cbn. by rewrite IH. }
  split_and!.
  - exists n, m. by rewrite Hn, Ht.
  - intros H. apply Hh. rewrite Ht. by destruct (to_bytes (str_rev u)).
  - rewrite to_bytes_rev. intros H. apply Hl. destruct (to_bytes u) as [|a l]; [done|]. cbn in H |- *.
    by rewrite last_snoc in H.
Qed.

(** ** Lemmas: identifiers *)

Lemma id_end_hyphen a : id_char a = true → a ≠ hyphen → id_end a = true.
Proof.
  unfold id_char, hyphen. intros [H|H%Ascii.eqb_eq]%orb_true_iff Hne; [done|congruence].
Qed.

Lemma ascii_id_end r : ascii_id_rune r = true → ∃ a, encode_rune r = [a] ∧ id_end a = true.
Proof.
  intros H. assert (0 ≤ r < 128) as Hr by (unfold ascii_id_rune in H; lia).
  unfold encode_rune. assert (valid_rune r = true) as -> by (unfold valid_rune; lia).
  rewrite (proj2 (Z.ltb_lt r 128)) by lia. exists (Z_byte r). split; [done|].
  pose proof (byte_Z_byte r ltac:(lia)) as E. unfold byte_Z in E. unfold id_end, is_lower, is_digit, in_range.
  unfold ascii_id_rune in H. set (n := N_of_ascii (Z_byte r)) in *.
  change (N_of_ascii "a") with 97%N. change (N_of_ascii "z") with 122%N.
  change (N_of_ascii "0") with 48%N. change (N_of_ascii "9") with 57%N. clearbody n.
  rewrite orb_true_iff, !andb_true_iff, !N.leb_le. apply orb_true_iff in H as [H|H]; bool_hyps; lia.
Qed.

Section identifier_lemmas.
Context `{TextOps} `{UnicodeTables} `{RuneLower}.

(** Every prefix the loop builds: identifier characters, beginning with a
    letter or a digit. *)
Definition id_prefix (l : bytes) : Prop := Forall (λ a, id_char a = true) l ∧ ∀ a, head l = Some a → id_end a = true.

Lemma id_prefix_snoc l a : id_prefix l → id_char a = true → (l = [] → id_end a = true) → id_prefix (l ++ [a]).
Proof.
  intros [Hl Hh] Ha He. split; [apply Forall_app; split; [done|by constructor]|].
  intros b. destruct l; [intros [= <-]; by apply He|]. apply Hh.
Qed.

Lemma id_prefix_hyphen l : id_prefix l → negb (Nat.eqb (length l) 0) = true → id_prefix (l ++ [hyphen]).
Proof. intros Hl Hne. apply id_prefix_snoc; [done|done|]. intros ->. done. Qed.

Lemma identifier_step_prefix previous next s character :
  id_prefix s.1 → id_prefix (identifier_step previous next s character).1.
Proof.
  destruct s as [l lastHyphen]. cbn [fst]. intros Hl. unfold identifier_step.
  assert (id_prefix (split_word previous next l lastHyphen character).1) as Hw.
  { unfold split_word. destruct (IsUpper character); [|done]. cbn [fst].
    destruct (negb _ && _ && _) eqn:E; [|done]. bool_hyps. apply id_prefix_hyphen; [done|]. by apply negb_true_iff. }
  destruct (split_word _ _ _ _ _) as [l' r]. cbn [fst] in Hw. destruct (ascii_id_rune r) eqn:E.
  - destruct (ascii_id_end r E) as (a & -> & Ha). apply id_prefix_snoc; [done|by apply id_end_char|done].
  - destruct (negb _ && _) eqn:E'; [|done]. bool_hyps. apply id_prefix_hyphen; [done|]. by apply negb_true_iff.
Qed.

Lemma identifier_loop_prefix rs : ∀ previous s, id_prefix s.1 → id_prefix (identifier_loop previous rs s).1.
Proof. induction rs as [|r rs IH]; intros previous s Hs; [done|]. apply IH. by apply identifier_step_prefix. Qed.

Lemma normalized_local value :
  normalizeCandidateIdentifier value = "" ∨ local_id (to_bytes (normalizeCandidateIdentifier value)).
Proof.
  unfold normalizeCandidateIdentifier. set (l := (identifier_loop None _ _).1).
  assert (id_prefix l) as [Hl _] by (apply identifier_loop_prefix; split; [constructor|done]).
  destruct (Trim_spec (of_bytes l) "-") as ((n & m & Hb) & Hh & Ht). rewrite to_of_bytes in Hb.
  set (x := to_bytes (Trim (of_bytes l) "-")) in *.
  assert (Forall (λ a, id_char a = true) x) as Hx.
  { rewrite Hb in Hl. apply Forall_app in Hl as [_ Hl]. by apply Forall_app in Hl as [? _]. }
  destruct x as [|a y] eqn:E.
  - left. rewrite <- (of_to_bytes (Trim (of_bytes l) "-")). fold x. by rewrite E.
  - right. split; [done|]. split.
    + exists a. split; [done|]. apply id_end_hyphen; [by apply Forall_cons in Hx as [? _]|]. intros ->. by apply Hh.
    + destruct (last (a :: y)) as [b|] eqn:Eb; [|by apply last_None in Eb]. exists b. split; [done|].
      apply id_end_hyphen; [|intros ->; by apply Ht]. apply last_Some in Eb as [z Ez]. rewrite Ez in Hx.
      apply Forall_app in Hx as [_ Hx]. by apply Forall_cons in Hx as [? _].
Qed.

Lemma identifier_segment_Ok segment x :
  identifier_segment segment = Ok x → x = normalizeCandidateIdentifier segment ∧ local_id (to_bytes x).
Proof.
  unfold identifier_segment. intros [Hne [= <-]]%guardE_Ok. apply String.eqb_neq in Hne.
  split; [done|]. by destruct (normalized_local segment).
Qed.

Lemma segments_loop segments : ∀ done_ out,
  rfold (λ done_ segment, let! x := identifier_segment segment in Ok (done_ ++ [x])) done_ segments = Ok out →
  out = done_ ++ map normalizeCandidateIdentifier segments ∧
  Forall (λ s, local_id (to_bytes (normalizeCandidateIdentifier s))) segments.
Proof.
  induction segments as [|s segments IH]; intros done_ out; simpl.
  - intros [= <-]. split; [by rewrite app_nil_r|constructor].
  - destruct (identifier_segment s) as [x|] eqn:E; [|done]. simpl. intros Hf.
    destruct (identifier_segment_Ok _ _ E) as [-> Hx]. destruct (IH _ _ Hf) as [-> Hall]. split.
    + by rewrite <- app_assoc.
    + by constructor.
Qed.

Lemma normalizeCapabilityID_Ok value id :
  normalizeCapabilityID value = Ok id →
  Split id "." = map normalizeCandidateIdentifier (Split value ".") ∧ Forall (λ p, local_id (to_bytes p)) (Split id ".").
Proof.
  unfold normalizeCapabilityID. intros (out & Hf & [= <-])%rbind_Ok. apply segments_loop in Hf as [-> Hall].
  rewrite app_nil_l.
  assert (Forall (λ p, local_id (to_bytes p)) (map normalizeCandidateIdentifier (Split value "."))) as Hids
    by (by apply List.Forall_map).
  rewrite (Split_Join (map normalizeCandidateIdentifier (Split value ".")) ".").
  - done.
  - intros E%map_eq_nil. by apply Split_ne_nil in E.
  - eapply Forall_impl; [exact Hids|]. intros p Hp. by apply local_id_no_dot.
Qed.
End identifier_lemmas.

(** ** Lemmas: the search *)

(** A tree by its entries, each again a tree. *)
Lemma sourceTree_nested (P : sourceTree → Prop) :
  P SLink → (∀ info data, P (SFile info data)) → (∀ e, P (SUnlistable e)) →
  (∀ entries, Forall (λ e, P e.2) entries → P (SDir entries)) → ∀ t, P t.
Proof.
  intros Hl Hf Hu Hd. fix IH 1. intros [|info data|entries|e]; [done|apply Hf| |apply Hu].
  apply Hd. induction entries as [|[name t] entries IHe]; constructor; [apply IH|done].
Qed.

Section search.
Context `{TextOps} `{UnicodeTables} `{RuneLower}.

Definition found_state : Type := list candidateSource * gmap string string.

(** The candidates have distinct identifiers and all are in [seenIDs]. *)
Definition recorded (s : found_state) : Prop :=
  NoDup (map cs_capabilityID s.1) ∧ ∀ id, is_Some (s.2 !! id) ↔ id ∈ map cs_capabilityID s.1.

(** A part of the search that adds the candidates of [F] and no others. *)
Definition adds (F : candidateSource → Prop) (s : found_state) (r : result error found_state) : Prop :=
  ∀ s', r = Ok s' → recorded s → recorded s' ∧ ∀ c, c ∈ s'.1 ↔ c ∈ s.1 ∨ F c.

Lemma adds_none s : adds (λ _, False) s (Ok s).
Proof. intros s' [= <-] Hs. split; [done|]. naive_solver. Qed.

Lemma adds_iff (F G : candidateSource → Prop) s r : (∀ c, F c ↔ G c) → adds F s r → adds G s r.
Proof. intros HFG HF s' Hr Hs. destruct (HF s' Hr Hs) as [? Hc]. split; [done|]. intros c. by rewrite Hc, HFG. Qed.

Lemma adds_fold {A} (F : A → candidateSource → Prop) (f : found_state → A → result error found_state) l :
  Forall (λ x, ∀ s, adds (F x) s (f s x)) l → ∀ s, adds (λ c, ∃ x, x ∈ l ∧ F x c) s (rfold f s l).
Proof.
  induction 1 as [|x l Hx Hl IH]; intros s s' Hr Hs; cbn [rfold] in Hr.
  - injection Hr as <-. split; [done|]. intros c. split; [by left|]. intros [?|(x & Hin & _)]; [done|by apply elem_of_nil in Hin].
  - apply rbind_Ok in Hr as (s1 & Hr1 & Hr2). destruct (Hx _ _ Hr1 Hs) as [Hs1 Hc1]. destruct (IH _ _ Hr2 Hs1) as [Hs' Hc'].
    split; [done|]. intros c. rewrite Hc', Hc1. split.
    + intros [[?|?]|(y & ? & ?)]; [by left|right; exists x; split; [by left|done]|right; exists y; split; [by right|done]].
    + intros [?|(y & [->|?]%elem_of_cons & ?)]; [by left; left|by left; right|right; by exists y].
Qed.

(** The candidate of a tool. *)
Definition candidate_of (nodePath path : string) (tools : gmap string candidateToolDefinition) (toolName : string) (c : candidateSource) : Prop :=
  ∃ tool, tools !! toolName = Some tool ∧ ca_Server tool ≠ "" ∧
    normalizeCapabilityID (source_id nodePath tools toolName) = Ok (cs_capabilityID c) ∧
    c = mkCandidate (cs_capabilityID c) path toolName tool.

Lemma add_candidate_adds nodePath path tools toolName s :
  is_Some (tools !! toolName) → adds (candidate_of nodePath path tools toolName) s (add_candidate nodePath path tools s toolName).
Proof.
  intros [tool Htool]. unfold add_candidate, candidate_of. destruct s as [cs seen]. rewrite Htool.
  change (default zero_cand_tool (Some tool)) with tool. intros s' Hr [Hnd Hseen].
  apply guardE_Ok in Hr as [Hsrv%String.eqb_neq Hr].
  destruct (normalizeCapabilityID (source_id nodePath tools toolName)) as [id|e] eqn:Hid; [|done].
  destruct (seen !! id) as [previous|] eqn:Hs; [done|]. injection Hr as <-.
  assert (id ∉ map cs_capabilityID cs) as Hnew by (intros Hin%Hseen; cbn in Hin; rewrite Hs in Hin; by destruct Hin).
  split; [split|]; cbn [fst snd].
  - rewrite map_app. apply NoDup_app. split; [done|]. split; [|by apply NoDup_singleton].
    intros x Hx ->%list_elem_of_singleton. by apply Hnew.
  - intros i. rewrite map_app, elem_of_app, lookup_insert_is_Some'. cbn in Hseen. rewrite Hseen. cbn [map]. rewrite list_elem_of_singleton.
    cbn. naive_solver.
  - intros c. rewrite elem_of_app, list_elem_of_singleton. split; (intros [?|Hc]; [by left|right]).
    + subst c. exists tool. by split_and!.
    + destruct Hc as (tool' & [= <-] & _ & [= Hc] & Hcc). by rewrite Hcc, <- Hc.
Qed.

(** A tool of a file of the tree, by its candidate. *)
Inductive found : list string → string → sourceTree → candidateSource → Prop :=
| found_file dirs name info data node toolName c :
    Ext name = ".json" → name ≠ "root.json" → read_node (relative_path dirs name) info data = Ok node →
    candidate_of (hierarchyNodePath dirs name) (relative_path dirs name) (cn_Tools node) toolName c →
    found dirs name (SFile info data) c
| found_entry dirs name entries child t c :
    (child, t) ∈ entries → found (dirs ++ [name]) child t c → found dirs name (SDir entries) c.

Lemma read_file_adds dirs name info data s : adds (found dirs name (SFile info data)) s (read_file dirs name info data s).
Proof.
  unfold read_file. destruct (negb _ || _) eqn:Hskip.
  { apply (adds_iff (λ _, False)); [|apply adds_none]. intros c. split; [done|]. intros Hf.
    inversion Hf as [? ? ? ? ? ? ? Hext Hname|]; subst. apply orb_true_iff in Hskip as [Hs|Hs].
    - rewrite Hext in Hs. by vm_compute in Hs.
    - by apply String.eqb_eq in Hs. }
  bool_hyps. intros s' Hr Hs. apply rbind_Ok in Hr as (node & Hn & Hr).
  match goal with E : String.eqb (Ext name) _ = true |- _ => apply String.eqb_eq in E as Hext end.
  match goal with E : String.eqb name _ = false |- _ => apply String.eqb_neq in E as Hname end.
  assert (adds (λ c, ∃ toolName, toolName ∈ merge_sort str_le (map_to_list (cn_Tools node)).*1 ∧
    candidate_of (hierarchyNodePath dirs name) (relative_path dirs name) (cn_Tools node) toolName c) s
    (rfold (add_candidate (hierarchyNodePath dirs name) (relative_path dirs name) (cn_Tools node)) s
       (merge_sort str_le (map_to_list (cn_Tools node)).*1))) as Hadd.
  { apply adds_fold. apply Forall_forall. intros toolName Hin s1. apply add_candidate_adds.
    rewrite merge_sort_Permutation in Hin. apply list_elem_of_fmap in Hin as ([k v] & -> & Hin).
    apply elem_of_map_to_list in Hin. by eexists. }
  destruct (Hadd s' Hr Hs) as [Hs' Hc]. split; [done|]. intros c. rewrite Hc. f_equiv. split.
  - intros (toolName & _ & Hcand). by econstructor.
  - intros Hf. inversion Hf as [? ? ? ? node' toolName ? _ _ Hn' Hcand|]; subst. rewrite Hn in Hn'. injection Hn' as <-.
    exists toolName. split; [|done]. rewrite merge_sort_Permutation. destruct Hcand as (tool & Ht & _).
    apply list_elem_of_fmap. exists (toolName, tool). split; [done|]. by apply elem_of_map_to_list.
Qed.

Lemma read_tree_adds t : ∀ dirs name s, adds (found dirs name t) s (read_tree dirs name t s).
Proof.
  induction t as [|info data|e|entries IH] using sourceTree_nested; intros dirs name s; cbn [read_tree]; try done.
  - apply read_file_adds.
  - apply (adds_iff (λ c, ∃ e, e ∈ entries ∧ found (dirs ++ [name]) e.1 e.2 c)).
    + intros c. split; [intros ([child t] & ? & ?); by econstructor|].
      intros Hf. inversion Hf as [|? ? ? child t]; subst. by exists (child, t).
    + apply (adds_fold (λ e, found (dirs ++ [name]) e.1 e.2)). eapply Forall_impl; [exact IH|]. intros e He s1. apply He.
Qed.

(** Migrating a hierarchy finds every tool of it and nothing else: when
    the search succeeds, its candidates are exactly the tools of the JSON
    nodes below the root, each with its definition, the file it comes from
    and the identifier its path normalises to; every identifier is one a
    manifest may have, no two candidates share one, and they are in the order
    of their identifiers. *)
Theorem hierarchy_candidates entries candidates :
  readHierarchyCandidates (SDir entries) = Ok candidates →
  (∀ c, c ∈ candidates ↔ ∃ name t, (name, t) ∈ entries ∧ found [] name t c) ∧
  NoDup (map cs_capabilityID candidates) ∧ StronglySorted (key_le cs_capabilityID) candidates ∧
  Forall (λ c, MatchString capabilityIDPattern (cs_capabilityID c) = true) candidates.
Proof.
  unfold readHierarchyCandidates. intros (s & Hr & [= <-])%rbind_Ok.
  assert (adds (λ c, ∃ e, e ∈ entries ∧ found [] e.1 e.2 c) ([], ∅) (rfold (λ s e, read_tree [] e.1 e.2 s) ([], ∅) entries)) as Hadd.
  { apply (adds_fold (λ e, found [] e.1 e.2)). apply Forall_forall. intros e _ s1. apply read_tree_adds. }
  destruct (Hadd s Hr) as [[Hnd _] Hc].
  { split; [constructor|]. intros id. cbn. rewrite lookup_empty. split; [by intros [? ?]|by intros ?%elem_of_nil]. }
  assert (∀ c, c ∈ s.1 ↔ ∃ name t, (name, t) ∈ entries ∧ found [] name t c) as Hfound.
  { intros c. rewrite Hc. split.
    - intros [?%elem_of_nil|([name t] & ? & ?)]; [done|by exists name, t].
    - intros (name & t & ? & ?). right. by exists (name, t). }
  split_and!.
  - intros c. by rewrite sort_by_perm.
  - by rewrite sort_by_perm.
  - apply sort_by_sorted.
  - apply Forall_forall. intros c. rewrite sort_by_perm. intros (name & t & _ & Hf)%Hfound. clear - Hf.
    induction Hf as [? ? ? ? ? ? ? _ _ _ (tool & _ & _ & Hid & _)|]; [|done].
    apply capabilityIDPattern_spec. by apply (normalizeCapabilityID_Ok _ _ Hid).
Qed.
End search.

(** ** The manifest of a candidate *)

Section manifest.
Context `{TextLaws} `{UnicodeTables} `{RuneLower}.

Lemma id_char_ascii a : id_char a = true → byte_Z a < 128.
Proof.
  unfold id_char, id_end, is_lower, is_digit, in_range, byte_Z. set (n := N_of_ascii a).
  change (N_of_ascii "a") with 97%N. change (N_of_ascii "z") with 122%N.
  change (N_of_ascii "0") with 48%N. change (N_of_ascii "9") with 57%N.
  intros [[Ha|Ha]%orb_true_iff|Ha%Ascii.eqb_eq]%orb_true_iff.
  - apply andb_true_iff in Ha as [_ Ha%N.leb_le]. lia.
  - apply andb_true_iff in Ha as [_ Ha%N.leb_le]. lia.
  - unfold n. rewrite Ha. by vm_compute.
Qed.

Definition ascii_string (s : string) : Prop := Forall (λ a, byte_Z a < 128) (to_bytes s).

Lemma local_id_ascii s : local_id (to_bytes s) → ascii_string s.
Proof. intros (Hall & _). eapply Forall_impl; [exact Hall|]. intros a. apply id_char_ascii. Qed.

Lemma ascii_Join l : Forall ascii_string l → ascii_string (Join l ".").
Proof.
  induction 1 as [|x l Hx Hl IH]; [constructor|]. destruct l as [|y l]; [done|].
  rewrite Join_cons by done. unfold ascii_string. rewrite !to_bytes_app. apply Forall_app. split; [done|].
  apply Forall_app. split; [repeat constructor|done].
Qed.

Lemma capability_id_ascii s : Forall (λ p, local_id (to_bytes p)) (Split s ".") → ascii_string s.
Proof.
  intros Hs. rewrite <- (Join_Split s "."). apply ascii_Join. eapply Forall_impl; [exact Hs|]. intros p. apply local_id_ascii.
Qed.
Lemma ascii_valid s : ascii_string s → ValidString s = true.
Proof.
  unfold ascii_string, ValidString. induction (to_bytes s) as [|a l IH]; [done|]. intros [Ha Hl]%Forall_cons.
  cbn [decode]. rewrite (proj2 (Z.ltb_lt _ _) Ha). cbn. by apply IH.
Qed.

Lemma ascii_text_ok s max : ascii_string s → s ≠ "" → text_ok s max ↔ slen s ≤ max.
Proof.
  intros Hs Hne. unfold text_ok. split; [by intros (_ & _ & ? & _)|]. intros Hl.
  split_and!; [done|by apply ascii_valid|done|by apply NFC_ascii].
Qed.

Lemma local_id_ok s max : local_id (to_bytes s) → id_ok s max ↔ slen s ≤ max.
Proof.
  intros Hs. destruct (local_id_no_dot s Hs) as [Hne _]. unfold id_ok.
  rewrite ascii_text_ok by (done || by apply local_id_ascii). rewrite localIDPattern_spec. tauto.
Qed.

Lemma split_id_spec id :
  Forall (λ p, local_id (to_bytes p)) (Split id ".") →
  local_id (to_bytes (split_id id).2) ∧ slen (split_id id).2 ≤ slen id ∧
  ((split_id id).1 = "" ∨
   id = (split_id id).1 +:+ "." +:+ (split_id id).2 ∧ Forall (λ p, local_id (to_bytes p)) (Split (split_id id).1 ".")).
Proof.
  intros Hid. unfold split_id. destruct (Z.leb_spec 0 (LastIndexByte id ".")) as [Hi|Hi]; cbn [fst snd].
  - destruct (cut_last_spec id "." Hi) as [E Hdot]. set (parent := slice_to _ _) in *. set (op := slice_from _ _) in *.
    rewrite E, Split_app_sep_any, (Split_no_byte op) in Hid by done. apply Forall_app in Hid as [Hp Ho].
    apply Forall_cons in Ho as [Ho _]. split_and!; [done| |by right].
    rewrite E, slen_app. unfold slen. cbn [String.length]. lia.
  - split_and!; [|done|by left]. rewrite Split_no_byte in Hid; [by apply Forall_cons in Hid as [? _]|].
    destruct (ContainsByte id ".") eqn:E; [|done]. destruct (last_split id "." E) as (a & b & -> & Hb).
    rewrite LastIndexByte_app in Hi by done. unfold slen in Hi. lia.
Qed.

Lemma split_id_parent id :
  Forall (λ p, local_id (to_bytes p)) (Split id ".") → slen id ≤ MaxCapabilityIDBytes → parent_ok id (split_id id).1.
Proof.
  intros Hid Hl. destruct (split_id_spec id Hid) as (_ & _ & [?|[E Hp]]); [by left|right]. split_and!.
  - assert (slen id = slen (split_id id).1 + slen ("." +:+ (split_id id).2)) as El by (rewrite <- slen_app; by f_equal).
    unfold MaxCapabilityIDBytes, MaxHierarchyPathBytes in *. pose proof (slen_nonneg ("." +:+ (split_id id).2)). lia.
  - by apply capabilityIDPattern_spec.
  - apply NFC_ascii. by apply capability_id_ascii.
  - by eexists.
Qed.

(** A candidate is a package that loads, except for what cannot be helped
    and one oversight: the manifest written for a tool is accepted by the
    package loader's rules exactly when the tool's texts are within the
    manifest's limits and its provider is not called "mcp", since that name
    is used as a tag twice. *)
Theorem candidate_accepted candidate m :
  MatchString capabilityIDPattern (cs_capabilityID candidate) = true → candidate_manifest candidate = Ok m →
  manifest_ok m ↔
  let provider := normalizeCandidateIdentifier (ca_Server (cs_tool candidate)) in
  provider ≠ "mcp" ∧ slen provider ≤ MaxTagBytes ∧ slen (cs_capabilityID candidate) ≤ MaxCapabilityIDBytes ∧
  text_ok (md_Name (mf_Metadata m)) MaxNameBytes ∧ text_ok (md_Description (mf_Metadata m)) MaxDescriptionBytes ∧
  Forall (λ o, text_ok (op_Target o) MaxOperationTargetBytes) (sp_Operations (mf_Spec m)) ∧
  text_ok (ca_Server (cs_tool candidate)) MaxServerRefBytes ∧
  marshal_size (base_card_json m) ≤ MaxBaseCardBytes ∧
  Forall (λ j, marshal_size j ≤ MaxStructureItemBytes) (structure_items m) ∧
  foldr (λ j n, marshal_size j + n) 0 (structure_items m) ≤ MaxStructureBytes.
Proof.
  intros Hid%capabilityIDPattern_spec. unfold candidate_manifest.
  destruct (split_id_spec _ Hid) as (Hop & Hopl & _). pose proof (split_id_parent _ Hid) as Hparent.
  destruct (split_id (cs_capabilityID candidate)) as [parent op]. cbn [fst snd] in *.
  set (provider := normalizeCandidateIdentifier _). intros [Hne%String.eqb_neq Hm]%guardE_Ok.
  set (target := if String.eqb (ca_MapsTo _) _ then _ else _) in Hm.
  set (name := if String.eqb (TrimSpace (ca_Title _)) _ then _ else _) in Hm.
  set (description := if String.eqb (TrimSpace _) _ then _ else _) in Hm.
  injection Hm as <-. cbn [mf_Metadata mf_Spec md_Name md_Description sp_Operations].
  assert (local_id (to_bytes provider)) as Hprov by (unfold provider in *; by destruct (normalized_local (ca_Server (cs_tool candidate)))).
  assert (cs_capabilityID candidate ≠ "") as Hidne.
  { intros E. rewrite E in Hid. apply Forall_cons in Hid as [(_ & (a & Ha & _) & _) _]. done. }
  clearbody provider target description name.
  assert (slen provider ≤ MaxTagBytes → slen provider ≤ MaxProviderIDBytes ∧ slen provider ≤ MaxProviderAliasBytes) as Htagid.
  { unfold MaxTagBytes, MaxProviderIDBytes, MaxProviderAliasBytes. lia. }
  split.
  - intros [_ _ [[Hidok _] Hname _ Hdesc (_ & Htag & Hnd & _)] [_ (_ & Hp & _) (_ & Ho & _) _ _] Hc Hi Ht]. cbn in Hidok, Hname, Hdesc, Htag, Hnd, Hp, Ho.
    apply Forall_cons in Hp as [[_ _ Hsrv] _]. apply Forall_cons in Ho as [[_ _ _ Htarget] _].
    apply Forall_cons in Htag as [_ [(_ & Htag & _) _]%Forall_cons]. cbn in Hsrv, Htarget.
    split_and!; try done; [|by apply Hidok|by constructor].
    intros ->. apply NoDup_cons in Hnd as [Hin _]. apply Hin. by left.
  - intros (Hmcp & Htag & Hidl & Hname & Hdesc & Htarget & Hsrv & Hc & Hi & Ht). apply Forall_cons in Htarget as [Htarget _].
    specialize (Htagid Htag) as [Hpl Hal]. cbn in Htarget.
    assert (slen op ≤ MaxOperationIDBytes) as Hopl' by (unfold MaxCapabilityIDBytes, MaxOperationIDBytes in *; lia).
    constructor; try done.
    + constructor; cbn [md_ID md_Name md_Version md_Description md_Tags mf_Metadata]; [|done| |done|].
      * split; [by apply ascii_text_ok; [apply capability_id_ascii|..]|by apply capabilityIDPattern_spec].
      * split; [|by vm_compute]. apply ascii_text_ok; [repeat constructor|done|by vm_compute].
      * split_and!; [by vm_compute| | |].
        -- constructor; [split_and!; [done|by vm_compute|by apply NFC_ascii; repeat constructor]|].
           constructor; [|constructor]. split_and!; [done|done|]. by apply NFC_ascii, local_id_ascii.
        -- apply NoDup_cons. split; [intros Hin%list_elem_of_singleton; congruence|]. apply NoDup_singleton.
        -- cbn [tag_bytes foldr]. unfold MaxTagBytes, MaxAllTagsBytes in *. change (slen "mcp") with 3. lia.
    + constructor; cbn; [by apply Hparent| | | |].
      * split_and!; [by vm_compute|constructor; [|constructor]|apply NoDup_singleton].
        constructor; cbn; [by apply local_id_ok|done|done].
      * split_and!; [by vm_compute|constructor; [|constructor]|apply NoDup_singleton].
        constructor; cbn; [by apply local_id_ok|done|split; [by apply local_id_ok|by left]|done].
      * split_and!; [by vm_compute|constructor|constructor|by vm_compute].
      * split_and!; [by vm_compute|constructor|constructor|constructor].
Qed.
End manifest.

(** ** Witnesses *)

Definition ascii_rune_lower : RuneLower := λ r, if (65 <=? r) && (r <=? 90) then r + 32 else r.
#[local] Existing Instance ascii_text.
#[local] Existing Instance ascii_text_laws.
#[local] Existing Instance ascii_tables.
#[local] Existing Instance ascii_rune_lower.

Definition node_file (text : string) : sourceTree := SFile (Ok (mkInfo true (slen text))) (Ok (requote text)).
Definition echo_tool : candidateToolDefinition := mkCandTool "Echo" "Echoes a message" "echo" "Every" None None None.
Definition echo_candidate : candidateSource := mkCandidate "every-thing.echo" "EveryThing/echo.json" "echo" echo_tool.
Definition demo_entries : list (string * sourceTree) := [
  ("EveryThing", SDir [
     ("EveryThing.json", node_file "{'overview':'Everything'}");
     ("echo.json", node_file "{'tools':{'echo':{'title':'Echo','description':'Echoes a message','maps_to':'echo','server':'Every'}}}")]);
  ("README.md", node_file "notes"); ("root.json", node_file "{'overview':'Root'}")].

Lemma hierarchy_candidates_witness :
  readHierarchyCandidates (SDir demo_entries) = Ok [echo_candidate] ∧
  ∃ name t, (name, t) ∈ demo_entries ∧ found [] name t echo_candidate.
Proof.
  assert (readHierarchyCandidates (SDir demo_entries) = Ok [echo_candidate]) as Hr by (vm_compute; reflexivity).
  split; [done|]. apply (hierarchy_candidates demo_entries [echo_candidate] Hr). by left.
Defined.

Definition echo_package : Manifest :=
  mkManifest "tappet.gearboxlogic.dev/v1alpha1" "Capability"
    (mkMetadata "every-thing.echo" "Echo" "0.1.0" "Echoes a message" ["mcp"; "every"])
    (mkSpec "every-thing" [] [mkOperation "echo" "Echoes a message" "every" "echo"] [] [mkProviderBinding "every" "mcp" "Every"]).

Lemma candidate_accepted_witness : candidate_manifest echo_candidate = Ok echo_package ∧ manifest_ok echo_package.
Proof.
  assert (candidate_manifest echo_candidate = Ok echo_package) as Hm by (vm_compute; reflexivity).
  split; [done|]. apply (candidate_accepted echo_candidate echo_package); [vm_compute; reflexivity|done|].
  split_and!; try (repeat constructor; vm_compute; done); vm_compute; congruence.
Defined.

(** A hierarchy whose server is called [mcp] cannot be migrated: its
    candidate's tags are the same twice. *)
Example mcp_provider_refused :
  ∃ m, candidate_manifest (mkCandidate "a.echo" "a/echo.json" "echo" (mkCandTool "Echo" "Echoes" "echo" "MCP" None None None)) = Ok m ∧
    ¬ manifest_ok m.
Proof.
  eexists. split; [vm_compute; reflexivity|]. intros [_ _ [_ _ _ _ (_ & _ & Hnd & _)] _ _ _ _]. cbn in Hnd.
  apply NoDup_cons in Hnd as [Hin _]. apply Hin. by left.
Qed.

(** A letter that is upper case but not ASCII is hyphenated twice: the first
    hyphen is not remembered. *)
Example doubled_hyphen :
  let tables : UnicodeTables :=
    {| IsLetter r := true; IsNumber r := false; IsDigit r := false; IsLower r := (97 <=? r) && (r <=? 122); IsUpper r := r =? 201 |} in
  let lower : RuneLower := λ r, if r =? 201 then 233 else r in
  normalizeCandidateIdentifier "aÉb" = "a--b".
Proof. vm_compute. reflexivity. Qed.
