(* ===== verification/Config.v ===== *)
(** * Configuration

    Models [internal/config/config.go] and [config_deprecated.go], the
    conversion of [MCPServerRef]s in [internal/hierarchy/hierarchy.go] and the
    overrides of [cmd/tappet/main.go]. A configuration arrives decoded
    ([github.com/go-sphere/confstore] reads and decodes it); a pointer is an
    [option], and so is a slice whose being [nil] the code looks at. *)
From Stdlib Require Import Ascii String.
From S2P Require Import Prelude GoStrings Limits Sha256 Utf8 Json JsonStruct Hierarchy.
Local Open Scope string_scope.
Local Open Scope list_scope.
Local Open Scope Z_scope.

(** ** Data *)

Record StdioMCPClientConfig := mkStdio { sc_Command : string; sc_Env : gmap string string; sc_Args : list string }.
Record SSEMCPClientConfig := mkSSE { ec_URL : string; ec_Headers : gmap string string }.
Record StreamableMCPClientConfig := mkStreamable { hc_URL : string; hc_Headers : gmap string string; hc_Timeout : Z }.
(** What [ParseMCPClientConfigV1] and [V2] return as [any]. *)
Inductive clientInfo :=
| InfoStdio (c : StdioMCPClientConfig)
| InfoSSE (c : SSEMCPClientConfig)
| InfoStreamable (c : StreamableMCPClientConfig).

Definition MCPClientTypeStdio : string := "stdio".
Definition MCPClientTypeSSE : string := "sse".
Definition MCPClientTypeStreamable : string := "streamable-http".
Definition MCPServerTypeStdio : string := "stdio".
Definition MCPServerTypeSSE : string := "sse".
Definition MCPServerTypeStreamable : string := "streamable-http".

Record ToolFilterConfig := mkFilter { tf_Mode : string; tf_List : list string }.
(** [optional.Field[bool]] is [None] when it is not present. *)
Record OptionsV2 := mkOptions {
  ov_PanicIfInvalid : option bool; ov_LogEnabled : option bool; ov_LazyLoad : option bool; ov_RecursiveLazyLoad : option bool;
  ov_AuthTokens : option (list string); ov_ToolFilter : option ToolFilterConfig }.
Definition zero_options : OptionsV2 := mkOptions None None None None None None.

Record MCPProxyConfigV2 := mkProxy {
  px_BaseURL : string; px_Addr : string; px_Name : string; px_Version : string; px_Type : string;
  px_HierarchyPath : string; px_CapabilityPath : string; px_Options : option OptionsV2 }.
Record MCPClientConfigV2 := mkClientConfig {
  cc_TransportType : string; cc_Command : string; cc_Args : list string; cc_Env : gmap string string;
  cc_URL : string; cc_Headers : gmap string string; cc_Timeout : Z; cc_Options : option OptionsV2 }.

Record Config := mkConfig { cf_McpProxy : MCPProxyConfigV2; cf_McpServers : gmap string MCPClientConfigV2 }.

(** The deprecated half; [v1_Config] is [None] when the raw message is absent. *)
Record MCPClientConfigV1 := mkClientV1 {
  v1_Type : string; v1_Config : option json; v1_PanicIfInvalid : bool; v1_LogEnabled : bool; v1_AuthTokens : option (list string) }.
Record MCPProxyConfigV1 := mkProxyV1 {
  p1_BaseURL : string; p1_Addr : string; p1_Name : string; p1_Version : string; p1_GlobalAuthTokens : option (list string) }.
Record FullConfig := mkFull {
  fc_ServerV1 : option MCPProxyConfigV1; fc_ClientsV1 : gmap string (option MCPClientConfigV1);
  fc_McpProxy : option MCPProxyConfigV2; fc_McpServers : gmap string (option MCPClientConfigV2) }.

(** ** Transports *)

Definition invalid_server_type : error := ErrorNew "invalid server type".

Definition ParseMCPClientConfigV2 (conf : MCPClientConfigV2) : result error clientInfo :=
  if negb (String.eqb (cc_Command conf) "") || String.eqb (cc_TransportType conf) MCPClientTypeStdio then
    fail_if String.eqb (cc_Command conf) "" with ErrorNew "command is required for stdio transport" else
    Ok (InfoStdio (mkStdio (cc_Command conf) (cc_Env conf) (cc_Args conf)))
  else if negb (String.eqb (cc_URL conf) "") then
    if String.eqb (cc_TransportType conf) MCPClientTypeStreamable
    then Ok (InfoStreamable (mkStreamable (cc_URL conf) (cc_Headers conf) (cc_Timeout conf)))
    else Ok (InfoSSE (mkSSE (cc_URL conf) (cc_Headers conf)))
  else Err invalid_server_type.

(** [json.Unmarshal] into the three structs. *)
Definition stdio_members (c : StdioMCPClientConfig) (ms : list (string * json)) : option StdioMCPClientConfig :=
  command ← into_field into_string "command" (sc_Command c) ms;
  env ← into_field (into_map (into_string "")) "env" (sc_Env c) ms;
  args ← into_field into_strings "args" (sc_Args c) ms;
  Some (mkStdio command env args).
Definition sse_members (c : SSEMCPClientConfig) (ms : list (string * json)) : option SSEMCPClientConfig :=
  url ← into_field into_string "url" (ec_URL c) ms;
  headers ← into_field (into_map (into_string "")) "headers" (ec_Headers c) ms;
  Some (mkSSE url headers).
Definition into_int (current : Z) (v : json) : option Z :=
  match v with JNull => Some current | _ => decode_int v end.
Definition streamable_members (c : StreamableMCPClientConfig) (ms : list (string * json)) : option StreamableMCPClientConfig :=
  url ← into_field into_string "url" (hc_URL c) ms;
  headers ← into_field (into_map (into_string "")) "headers" (hc_Headers c) ms;
  timeout ← into_field into_int "timeout" (hc_Timeout c) ms;
  Some (mkStreamable url headers timeout).

Definition unmarshal {A B} (into_members : A → list (string * json) → option A) (zero : A) (info : A → B) (config : option json) :
    result error B :=
  match v ← config; into_struct into_members zero v with
  | Some c => Ok (info c)
  | None => Err unmarshal_error
  end.

Definition ParseMCPClientConfigV1 (conf : option MCPClientConfigV1) : result error clientInfo :=
  match conf with
  | None => Err nil_pointer
  | Some conf =>
      if String.eqb (v1_Type conf) MCPClientTypeStdio then unmarshal stdio_members (mkStdio "" ∅ []) InfoStdio (v1_Config conf)
      else if String.eqb (v1_Type conf) MCPClientTypeSSE then unmarshal sse_members (mkSSE "" ∅) InfoSSE (v1_Config conf)
      else if String.eqb (v1_Type conf) MCPClientTypeStreamable
      then unmarshal streamable_members (mkStreamable "" ∅ 0) InfoStreamable (v1_Config conf)
      else Err (ErrorNew "invalid client type")
  end.

(** ** The deprecated half *)

Definition adapted_proxy (v1 : MCPProxyConfigV1) : MCPProxyConfigV2 :=
  mkProxy (p1_BaseURL v1) (p1_Addr v1) (p1_Name v1) (p1_Version v1) "" "" ""
    (Some (mkOptions None None None None (p1_GlobalAuthTokens v1) None)).

(** [append] to the client's tokens of the server's. *)
Definition adapted_tokens (server : option MCPProxyConfigV1) (tokens : option (list string)) : option (list string) :=
  match server with
  | Some s => match default [] (p1_GlobalAuthTokens s) with
              | [] => tokens
              | global => Some (default [] tokens ++ global)
              end
  | None => tokens
  end.

Definition adapted_client (options : OptionsV2) (info : clientInfo) : MCPClientConfigV2 :=
  match info with
  | InfoStdio v => mkClientConfig "" (sc_Command v) (sc_Args v) (sc_Env v) "" ∅ 0 (Some options)
  | InfoSSE v => mkClientConfig "" "" [] ∅ (ec_URL v) (ec_Headers v) 0 (Some options)
  | InfoStreamable v => mkClientConfig "" "" [] ∅ (hc_URL v) (hc_Headers v) (hc_Timeout v) (Some options)
  end.

(** One turn of the loop over the deprecated clients; a client that does not
    parse is skipped, and a null one panics. *)
Definition adapt_client (server : option MCPProxyConfigV1) (servers : gmap string (option MCPClientConfigV2))
    (e : string * option MCPClientConfigV1) : result error (gmap string (option MCPClientConfigV2)) :=
  match e.2 with
  | None => Err nil_pointer
  | Some c =>
      match ParseMCPClientConfigV1 (Some c) with
      | Err _ => Ok servers
      | Ok info =>
          let options := mkOptions None None None None (adapted_tokens server (v1_AuthTokens c)) None in
          Ok (<[e.1 := Some (adapted_client options info)]> servers)
      end
  end.

(** [order] is the order in which [range] visits the deprecated clients. *)
Definition adaptMCPClientConfigV1ToV2 (order : list (string * option MCPClientConfigV1)) (conf : FullConfig) : result error FullConfig :=
  let proxy := match fc_McpProxy conf, fc_ServerV1 conf with None, Some v1 => Some (adapted_proxy v1) | p, _ => p end in
  let! servers :=
    if bool_decide (fc_ClientsV1 conf ≠ ∅) && bool_decide (fc_McpServers conf = ∅)
    then rfold (adapt_client (fc_ServerV1 conf)) ∅ order
    else Ok (fc_McpServers conf) in
  Ok (mkFull None ∅ proxy servers).

(** ** [Load] *)

(** One turn of the loop over the servers: what a server does not say it has
    from the proxy. *)
Definition inherited (proxy : OptionsV2) (c : MCPClientConfigV2) : MCPClientConfigV2 :=
  let o := default zero_options (cc_Options c) in
  let o := mkOptions
    (match ov_PanicIfInvalid o with None => ov_PanicIfInvalid proxy | x => x end)
    (match ov_LogEnabled o with None => ov_LogEnabled proxy | x => x end)
    (match ov_LazyLoad o with None => ov_LazyLoad proxy | x => x end)
    (ov_RecursiveLazyLoad o)
    (match ov_AuthTokens o with None => ov_AuthTokens proxy | x => x end)
    (ov_ToolFilter o) in
  mkClientConfig (cc_TransportType c) (cc_Command c) (cc_Args c) (cc_Env c) (cc_URL c) (cc_Headers c) (cc_Timeout c) (Some o).

Definition inherit_options (proxy : OptionsV2) (servers : gmap string MCPClientConfigV2) (e : string * option MCPClientConfigV2) :
    result error (gmap string MCPClientConfigV2) :=
  match e.2 with
  | None => Err nil_pointer
  | Some c => Ok (<[e.1 := inherited proxy c]> servers)
  end.

(** [Load] of what the provider and the codec give; [clients] and [servers]
    are the orders in which the two loops visit their maps. *)
Definition Load (clients : list (string * option MCPClientConfigV1)) (servers : list (string * option MCPClientConfigV2))
    (loaded : result error FullConfig) : result error Config :=
  let! conf := loaded in
  let! conf := adaptMCPClientConfigV1ToV2 clients conf in
  match fc_McpProxy conf with
  | None => Err (ErrorNew "mcpProxy is required")
  | Some proxy =>
      let options := default zero_options (px_Options proxy) in
      let! settled := rfold (inherit_options options) ∅ servers in
      Ok (mkConfig
            (mkProxy (px_BaseURL proxy) (px_Addr proxy) (px_Name proxy) (px_Version proxy)
               (if String.eqb (px_Type proxy) "" then MCPServerTypeSSE else px_Type proxy)
               (px_HierarchyPath proxy) (px_CapabilityPath proxy) (Some options))
            settled)
  end.

(** The headers of the [-http-headers] flag, in order: what is not a key and a
    value around a colon is ignored. *)
Fixpoint cut_at (s : string) (sep : ascii) : option (string * string) :=
  match s with
  | EmptyString => None
  | String c s' => if Ascii.eqb c sep then Some ("", s') else '(a, b) ← cut_at s' sep; Some (String c a, b)
  end.
Definition header_of (kv : string) : option (string * string) :=
  '(key, value) ← cut_at kv ":";
  let key := TrimSpace key in
  let value := TrimSpace value in
  if String.eqb key "" || String.eqb value "" then None else Some (key, value).
Definition http_headers (httpHeaders : string) : list (string * string) :=
  if String.eqb httpHeaders "" then [] else omap header_of (Split httpHeaders ";").

(** *** [http.Header] *)

(** The bytes of a token; a key with any other stays as it is. *)
Definition validHeaderFieldByte (c : ascii) : bool :=
  let z := byte_Z c in
  ((48 <=? z) && (z <=? 57)) || ((65 <=? z) && (z <=? 90)) || ((97 <=? z) && (z <=? 122)) || ContainsByte "!#$%&'*+-.^_`|~" c.
Fixpoint canonical_bytes (upper : bool) (l : bytes) : bytes :=
  match l with
  | [] => []
  | c :: l =>
      let z := byte_Z c in
      let c' := if upper && (97 <=? z) && (z <=? 122) then Z_byte (z - 32)
                else if negb upper && (65 <=? z) && (z <=? 90) then Z_byte (z + 32) else c in
      c' :: canonical_bytes (Ascii.eqb c "-") l
  end.
Definition CanonicalMIMEHeaderKey (key : string) : string :=
  if forallb validHeaderFieldByte (to_bytes key) then of_bytes (canonical_bytes true (to_bytes key)) else key.

Definition Header : Type := gmap string (list string).
Definition header_Add (h : Header) (key value : string) : Header :=
  let key := CanonicalMIMEHeaderKey key in <[key := default [] (h !! key) ++ [value]]> h.
Definition header_Set (h : Header) (key value : string) : Header := <[CanonicalMIMEHeaderKey key := [value]]> h.

(** *** [newConfProvider] *)

(** The client a remote configuration is read with: the process's default one
    or its own that skips the verification of certificates. *)
Inductive confClient := DefaultClient | InsecureClient (timeout : Z).
Inductive confProvider :=
| RemoteConf (url : string) (client : confClient) (headers : option Header) (expandEnv : bool)
| LocalConf (path : string) (expandEnv : bool).

(** [isRemote] and [isLocal] are confstore's; the state is the timeout of the
    default client, which is set through the pointer to it. *)
Definition newConfProvider (isRemote isLocal : string → bool) (defaultTimeout : Z) (path : string) (insecure expandEnv : bool)
    (httpHeaders : string) (httpTimeout : Z) : Z * result error confProvider :=
  if isRemote path then
    let timeout := wrap64 (httpTimeout * 1000000000) in
    let '(defaultTimeout, client) :=
      if insecure then (defaultTimeout, InsecureClient (if 0 <? httpTimeout then timeout else 0))
      else (if 0 <? httpTimeout then timeout else defaultTimeout, DefaultClient) in
    let headers := if String.eqb httpHeaders "" then None
                   else Some (foldl (λ h kv, header_Add h kv.1 kv.2) ∅ (http_headers httpHeaders)) in
    (defaultTimeout, Ok (RemoteConf path client headers expandEnv))
  else if isLocal path then (defaultTimeout, Ok (LocalConf path expandEnv))
  else (defaultTimeout, Err (ErrorNew "unsupported config path")).

(** ** [MCPServerRef.ToClientConfig] *)

Definition ToClientConfig (m : MCPServerRef) : MCPClientConfigV2 :=
  let options := Some zero_options in
  if String.eqb (sv_Type m) "stdio" then mkClientConfig MCPClientTypeStdio (sv_Command m) (sv_Args m) (sv_Env m) "" ∅ 0 options
  else if String.eqb (sv_Type m) "sse" then mkClientConfig MCPClientTypeSSE "" [] ∅ (sv_URL m) (sv_Headers m) 0 options
  else if String.eqb (sv_Type m) "streamable-http"
  then mkClientConfig MCPClientTypeStreamable "" [] ∅ (sv_URL m) (sv_Headers m) 0 options
  else mkClientConfig "" "" [] ∅ "" ∅ 0 options.

(** ** [applyOverrides] of the command *)

Definition applyOverrides (proxy : MCPProxyConfigV2) (port hierarchyPath capabilityPath : string) : MCPProxyConfigV2 :=
  let addr := match port with
              | EmptyString => px_Addr proxy
              | String c _ => if negb (Ascii.eqb c ":") then ":" +:+ port else port
              end in
  let '(hierarchy, capability) :=
    if negb (String.eqb capabilityPath "") then ("", capabilityPath)
    else if negb (String.eqb hierarchyPath "") then (hierarchyPath, "")
    else (px_HierarchyPath proxy, px_CapabilityPath proxy) in
  mkProxy (px_BaseURL proxy) addr (px_Name proxy) (px_Version proxy) (px_Type proxy) hierarchy capability (px_Options proxy).

(** ** Specification *)

(** The proxy and the servers that a configuration settles: the deprecated
    half counts where the current one is absent. *)
Definition effective_proxy (conf : FullConfig) : option MCPProxyConfigV2 :=
  match fc_McpProxy conf with Some p => Some p | None => adapted_proxy <$> fc_ServerV1 conf end.
Definition uses_v1 (conf : FullConfig) : bool := bool_decide (fc_ClientsV1 conf ≠ ∅) && bool_decide (fc_McpServers conf = ∅).
Definition adapted_of (server : option MCPProxyConfigV1) (c : option MCPClientConfigV1) : option MCPClientConfigV2 :=
  c ← c;
  match ParseMCPClientConfigV1 (Some c) with
  | Ok info => Some (adapted_client (mkOptions None None None None (adapted_tokens server (v1_AuthTokens c)) None) info)
  | Err _ => None
  end.
Definition effective_servers (conf : FullConfig) : gmap string (option MCPClientConfigV2) :=
  if uses_v1 conf then omap (λ c, Some <$> adapted_of (fc_ServerV1 conf) c) (fc_ClientsV1 conf) else fc_McpServers conf.

(** A null entry, which the loops over a map run into. *)
Definition has_null {A} (m : gmap string (option A)) : bool :=
  existsb (λ e, match e.2 with None => true | Some _ => false end) (map_to_list m).

(** ** Lemmas *)

Lemma has_null_spec {A} (m : gmap string (option A)) : has_null m = true ↔ ∃ k, m !! k = Some None.
Proof.
  unfold has_null. rewrite existsb_exists. split.
  - intros ([k [x|]] & Hin & Hx); [done|]. exists k. apply elem_of_map_to_list. by apply list_elem_of_In.
  - intros [k Hk]. exists (k, None). split; [|done]. apply list_elem_of_In. by apply elem_of_map_to_list.
Qed.

(** A loop over a map that inserts what each entry gives, or stops at the
    first entry that is null, whatever the order. *)
Section loops.
Context {A B : Type} (f : gmap string B → string * option A → result error (gmap string B)) (g : A → option B).
Hypothesis Hnull : ∀ m k, f m (k, None) = Err nil_pointer.
Hypothesis Hsome : ∀ m k x, f m (k, Some x) = Ok (match g x with Some y => <[k := y]> m | None => m end).

Lemma loop_null order m : (∃ k, (k, None) ∈ order) → rfold f m order = Err nil_pointer.
Proof.
  intros [k Hk]. revert m. induction order as [|[k' [x|]] order IH]; intros m; [by apply elem_of_nil in Hk| |].
  - cbn [rfold]. rewrite Hsome. cbn [rbind]. apply IH. by apply elem_of_cons in Hk as [|].
  - cbn [rfold]. by rewrite Hnull.
Qed.

Lemma loop_inserts order m :
  (∀ k, (k, None) ∉ order) → NoDup order.*1 → (∀ k, k ∈ order.*1 → m !! k = None) →
  ∃ m', rfold f m order = Ok m' ∧ ∀ k, m' !! k = match (list_to_map order : gmap string (option A)) !! k with Some (Some x) => g x | _ => m !! k end.
Proof.
  revert m. induction order as [|[k' [x|]] order IH]; intros m Hn Hnd Hm; [by exists m| |by destruct (Hn k'); left].
  cbn [rfold fmap list_fmap fst] in *. rewrite Hsome. cbn [rbind]. apply NoDup_cons in Hnd as [Hk' Hnd].
  assert (∀ k, k ∈ order.*1 → (match g x with Some y => <[k' := y]> m | None => m end) !! k = None) as Hm'.
  { intros k Hk. assert (k' ≠ k) by (intros ->; done). destruct (g x); [rewrite lookup_insert_ne by done|]; apply Hm; by right. }
  destruct (IH _ ltac:(intros k Hk; apply (Hn k); by right) Hnd Hm') as (m' & -> & Hl). exists m'. split; [done|].
  intros k. rewrite Hl, list_to_map_cons. destruct (decide (k' = k)) as [->|Hne].
  - rewrite lookup_insert_eq, (not_elem_of_list_to_map_1 order) by done. destruct (g x); [by rewrite lookup_insert_eq|].
    apply Hm. by left.
  - rewrite lookup_insert_ne by done. destruct (g x); [by rewrite lookup_insert_ne|done].
Qed.

Lemma loop_exact (src : gmap string (option A)) order : order ≡ₚ map_to_list src →
  rfold f ∅ order = if has_null src then Err nil_pointer else Ok (omap (λ x, x ← x; g x) src).
Proof.
  intros Ho. pose proof (has_null_spec src) as Hs. destruct (has_null src).
  - apply loop_null. destruct (proj1 Hs eq_refl) as [k Hk]. exists k. rewrite Ho. by apply elem_of_map_to_list.
  - assert (NoDup order.*1) as Hnd by (rewrite Ho; apply NoDup_fst_map_to_list).
    destruct (loop_inserts order ∅) as (m' & -> & Hl); [|done|intros k _; apply lookup_empty|].
    + intros k. rewrite Ho. intros Hk%elem_of_map_to_list. by discriminate (proj2 Hs (ex_intro _ k Hk)).
    + f_equal. apply map_eq. intros k. rewrite Hl, lookup_omap, lookup_empty.
      rewrite (list_to_map_proper order (map_to_list src)) by done. rewrite list_to_map_to_list.
      destruct (src !! k) as [[x|]|]; done.
Qed.
End loops.

Lemma adapt_exact order conf : order ≡ₚ map_to_list (fc_ClientsV1 conf) →
  adaptMCPClientConfigV1ToV2 order conf =
    if uses_v1 conf && has_null (fc_ClientsV1 conf) then Err nil_pointer
    else Ok (mkFull None ∅ (effective_proxy conf) (effective_servers conf)).
Proof.
  intros Ho. unfold adaptMCPClientConfigV1ToV2, effective_servers, effective_proxy. fold (uses_v1 conf).
  destruct (uses_v1 conf) eqn:Hu; cbn [andb].
  - rewrite (loop_exact (adapt_client (fc_ServerV1 conf)) (λ c, Some <$> adapted_of (fc_ServerV1 conf) (Some c))) with (src := fc_ClientsV1 conf); [|done| |done].
    + destruct (has_null (fc_ClientsV1 conf)); [done|]. cbn [rbind]. do 2 f_equal.
      apply map_eq. intros k. rewrite !lookup_omap. by destruct (fc_ClientsV1 conf !! k) as [[c|]|].
    + intros m k c. unfold adapt_client, adapted_of. cbn [fst snd mbind option_bind].
      by destruct (ParseMCPClientConfigV1 (Some c)).
  - done.
Qed.

(** What [Load] gives, declaratively. *)
Definition settled (conf : FullConfig) : result error Config :=
  if uses_v1 conf && has_null (fc_ClientsV1 conf) then Err nil_pointer
  else match effective_proxy conf with
       | None => Err (ErrorNew "mcpProxy is required")
       | Some proxy =>
           if has_null (effective_servers conf) then Err nil_pointer
           else
             let options := default zero_options (px_Options proxy) in
             Ok (mkConfig
               (mkProxy (px_BaseURL proxy) (px_Addr proxy) (px_Name proxy) (px_Version proxy)
                  (if String.eqb (px_Type proxy) "" then MCPServerTypeSSE else px_Type proxy)
                  (px_HierarchyPath proxy) (px_CapabilityPath proxy) (Some options))
               (omap (λ c, inherited options <$> c) (effective_servers conf)))
       end.

Lemma Load_settled clients servers conf :
  clients ≡ₚ map_to_list (fc_ClientsV1 conf) → servers ≡ₚ map_to_list (effective_servers conf) →
  Load clients servers (Ok conf) = settled conf.
Proof.
  intros Hc Hs. unfold Load, settled. cbn [rbind]. rewrite adapt_exact by done.
  destruct (uses_v1 conf && has_null (fc_ClientsV1 conf)); [done|]. cbn [rbind fc_McpProxy].
  destruct (effective_proxy conf) as [proxy|]; [|done].
  rewrite (loop_exact _ (λ c, Some (inherited (default zero_options (px_Options proxy)) c))) with (src := effective_servers conf) by done.
  by destruct (has_null (effective_servers conf)).
Qed.

(** The transport of an adapted client, whatever it inherits. *)
Definition legacy_transport (info : clientInfo) : result error clientInfo :=
  match info with
  | InfoStdio c => if String.eqb (sc_Command c) "" then Err invalid_server_type else Ok (InfoStdio c)
  | InfoSSE c => if String.eqb (ec_URL c) "" then Err invalid_server_type else Ok (InfoSSE c)
  | InfoStreamable c => if String.eqb (hc_URL c) "" then Err invalid_server_type else Ok (InfoSSE (mkSSE (hc_URL c) (hc_Headers c)))
  end.

Lemma adapted_transport proxy options info :
  ParseMCPClientConfigV2 (inherited proxy (adapted_client options info)) = legacy_transport info.
Proof.
  unfold ParseMCPClientConfigV2.
  destruct info as [[command env args]|[url headers]|[url headers timeout]]; cbn;
    [by destruct (String.eqb_spec command "")|by destruct (String.eqb_spec url "")..].
Qed.

Definition settled_options (c : MCPClientConfigV2) : OptionsV2 := default zero_options (cc_Options c).

(** A server reference of a hierarchy keeps its transport. *)
Lemma converted_transport m :
  ParseMCPClientConfigV2 (ToClientConfig m) =
  if String.eqb (sv_Type m) "stdio" then
    if String.eqb (sv_Command m) "" then Err (ErrorNew "command is required for stdio transport")
    else Ok (InfoStdio (mkStdio (sv_Command m) (sv_Env m) (sv_Args m)))
  else if String.eqb (sv_Type m) "sse" then
    if String.eqb (sv_URL m) "" then Err invalid_server_type else Ok (InfoSSE (mkSSE (sv_URL m) (sv_Headers m)))
  else if String.eqb (sv_Type m) "streamable-http" then
    if String.eqb (sv_URL m) "" then Err invalid_server_type else Ok (InfoStreamable (mkStreamable (sv_URL m) (sv_Headers m) 0))
  else Err invalid_server_type.
Proof.
  unfold ToClientConfig. destruct (String.eqb (sv_Type m) "stdio"); [|destruct (String.eqb (sv_Type m) "sse");
    [|destruct (String.eqb (sv_Type m) "streamable-http"); [|done]]]; unfold ParseMCPClientConfigV2; cbn.
  - by destruct (String.eqb_spec (sv_Command m) "").
  - by destruct (String.eqb (sv_URL m) "").
  - by destruct (String.eqb (sv_URL m) "").
Qed.

(** ** Properties *)


(** What the deprecated clients become: in a configuration that has only
    those, each one that parses is served with its own tokens followed by the
    deprecated server's, or the proxy's if it has neither; one that runs a
    command still runs it, one that names a URL is still reached there with its
    headers, and one that says neither is refused; but the transport is not
    carried over, so that a streamable HTTP client comes back as a
    server-sent-events client, without its timeout. *)
Theorem legacy_transports clients servers conf c name v1 info :
  clients ≡ₚ map_to_list (fc_ClientsV1 conf) → servers ≡ₚ map_to_list (effective_servers conf) →
  fc_McpServers conf = ∅ → Load clients servers (Ok conf) = Ok c →
  fc_ClientsV1 conf !! name = Some (Some v1) → ParseMCPClientConfigV1 (Some v1) = Ok info →
  ∃ server, cf_McpServers c !! name = Some server ∧ ParseMCPClientConfigV2 server = legacy_transport info ∧
    ov_AuthTokens (settled_options server) =
      match adapted_tokens (fc_ServerV1 conf) (v1_AuthTokens v1) with
      | Some tokens => Some tokens
      | None => px_Options (cf_McpProxy c) ≫= ov_AuthTokens
      end.
Proof.
  intros Hc Hs Hn HL Hv1 Hinfo. rewrite (Load_settled clients servers conf Hc Hs) in HL.
  assert (uses_v1 conf = true) as Hu.
  { unfold uses_v1. rewrite !bool_decide_eq_true_2; [done|done|]. intros E. by rewrite E, lookup_empty in Hv1. }
  unfold settled in HL. rewrite Hu in HL. destruct (has_null (fc_ClientsV1 conf)); [done|]. cbn [andb] in HL.
  destruct (effective_proxy conf) as [proxy|]; [|done]. destruct (has_null (effective_servers conf)); [done|]. injection HL as <-.
  unfold effective_servers. rewrite Hu. eexists. split; [|split; [apply adapted_transport|]].
  - cbn [cf_McpServers]. rewrite !lookup_omap, Hv1. cbn [mbind option_bind adapted_of]. by rewrite Hinfo.
  - unfold settled_options, inherited. destruct info; cbn [cc_Options adapted_client default]; cbn -[adapted_tokens]; by destruct (adapted_tokens _ _).
Qed.

(** ** Concrete configurations *)

Definition legacy_config : FullConfig := mkFull
  (Some (mkProxyV1 "" ":9090" "tappet" "1" (Some ["secret"])))
  {["files" := Some (mkClientV1 "streamable-http" (parse (requote "{'url':'http://h/mcp','timeout':5}")) false false None);
    "shell" := Some (mkClientV1 "stdio" (parse (requote "{'command':'sh','args':['-c']}")) false false (Some ["own"]))]}
  None ∅.
Definition visit {A} (m : gmap string A) : list (string * A) := map_to_list m.


Lemma legacy_transports_witness :
  ∃ c server, Load (visit (fc_ClientsV1 legacy_config)) (visit (effective_servers legacy_config)) (Ok legacy_config) = Ok c ∧
    cf_McpServers c !! "files" = Some server ∧
    ParseMCPClientConfigV2 server = Ok (InfoSSE (mkSSE "http://h/mcp" ∅)) ∧ ov_AuthTokens (settled_options server) = Some ["secret"].
Proof.
  set (v1 := mkClientV1 "streamable-http" (parse (requote "{'url':'http://h/mcp','timeout':5}")) false false None).
  destruct (Load (visit (fc_ClientsV1 legacy_config)) (visit (effective_servers legacy_config)) (Ok legacy_config)) as [c|e] eqn:E;
    [|vm_compute in E; discriminate E].
  destruct (legacy_transports (visit (fc_ClientsV1 legacy_config)) (visit (effective_servers legacy_config)) legacy_config c "files" v1
    (InfoStreamable (mkStreamable "http://h/mcp" ∅ 5))) as (server & Hs & Ht & Ha).
  - reflexivity.
  - reflexivity.
  - vm_compute. reflexivity.
  - exact E.
  - vm_compute. reflexivity.
  - vm_compute. reflexivity.
  - exists c, server. split; [done|]. split; [exact Hs|]. split; [rewrite Ht; vm_compute; reflexivity|rewrite Ha; vm_compute; reflexivity].
Defined.

Example canonical_header : map CanonicalMIMEHeaderKey ["x-api-KEY"; "a b"; "_x"; ""] = ["X-Api-Key"; "a b"; "_x"; ""].
Proof. by vm_compute. Qed.
Example header_values :
  (newConfProvider (λ p, HasPrefix p "http") (λ _, true) 0 "https://c" false true "a:1; A : 2;b:;c" 3).2 =
  Ok (RemoteConf "https://c" DefaultClient (Some {["A" := ["1"; "2"]]}) true).
Proof. vm_compute. reflexivity. Qed.
