(* ===== verification/Protocol.v ===== *)
(** * Validating modern requests

    Models [internal/server/protocol_validation.go]: which messages the broker
    answers itself before mcp-go sees them, the filter on its standard input
    and the middleware of its HTTP transports. The names, codes and protocol
    versions of [github.com/mark3labs/mcp-go/mcp] are the interface [Mcp]. *)
From Stdlib Require Import Ascii String.
From S2P Require Import Prelude GoStrings Limits Sha256 Utf8 Json JsonScan JsonStruct Snapshot Yaml ResponseLimit.
Local Open Scope string_scope.
Local Open Scope list_scope.
Local Open Scope Z_scope.

(** ** mcp-go *)

Class Mcp := {
  IsModernProtocol : string → bool;
  MetaKeyProtocolVersion : string;
  MetaKeyClientCapabilities : string;
  MethodSubscriptionsListen : string;
  (** [json.Unmarshal] of parameters into a struct with a [_meta] of type
      [mcp.Meta], and its [ProtocolVersion]. *)
  MetaProtocolVersion : json → option string;
  JSONRPC_VERSION : string;
  INVALID_PARAMS : Z;
  METHOD_NOT_FOUND : Z;
  LATEST_PROTOCOL_VERSION : string;
  HeaderProtocolVersion : string;
  HeaderMethod : string;
  HeaderLastEventID : string;
}.

Section protocol.
Context `{Mcp}.

(** ** Messages refused *)

(** A [json.RawMessage] as it is written: without white space and with the
    characters of HTML escaped. *)
Fixpoint escape_html (l : bytes) : bytes :=
  match l with
  | [] => []
  | c :: l' =>
      match l' with
      | d :: e :: l'' =>
          if (byte_Z c =? 226) && (byte_Z d =? 128) && ((byte_Z e =? 168) || (byte_Z e =? 169))
          then escape_u (byte_Z e - 168 + 8232) ++ escape_html l''
          else (if (byte_Z c =? 60) || (byte_Z c =? 62) || (byte_Z c =? 38) then escape_u (byte_Z c) else [c]) ++ escape_html l'
      | _ => (if (byte_Z c =? 60) || (byte_Z c =? 62) || (byte_Z c =? 38) then escape_u (byte_Z c) else [c]) ++ escape_html l'
      end
  end.
Definition raw_text (raw : bytes) : bytes := escape_html (compact false false raw).

(** An object from the texts of its members. *)
Definition object_text (members : list (string * bytes)) : bytes :=
  lbrace :: commas (map (λ m, render_string m.1 ++ colon :: m.2) members) ++ [rbrace].

Definition modernProtocolErrorResponse (id : bytes) (code : Z) (message : string) : bytes :=
  object_text
    [("jsonrpc", render_string JSONRPC_VERSION); ("id", match id with [] => to_bytes "null" | _ => raw_text id end);
     ("error", object_text [("code", to_bytes (FormatInt code)); ("message", render_string message)])].

Definition meta_members (current : gmap string json) (ms : list (string * json)) : option (gmap string json) :=
  into_field (into_map Some) "_meta" current ms.
(** The envelope's [_meta]. *)
Definition envelope_meta (members : list (string * bytes)) : option (gmap string json) :=
  into_field (into_struct meta_members) "params" ∅ (decoded members).

(** [json.Unmarshal] of a raw message that may be absent. *)
Definition raw_string (v : option json) : option string :=
  match v with Some (JStr s) => Some s | Some JNull => Some "" | _ => None end.
(** Whether it decodes into a map that is not nil. *)
Definition raw_map (v : option json) : bool := match v with Some (JObj _) => true | _ => false end.

Definition invalid_metadata : string := "missing or invalid _meta field " +:+ MetaKeyClientCapabilities.

(** The identifier to answer to and the message, when the metadata is invalid. *)
Definition modernMetadataError (message : bytes) : option (bytes * string) :=
  members ← raw_object message;
  meta ← envelope_meta members;
  version ← raw_string (meta !! MetaKeyProtocolVersion);
  if negb (IsModernProtocol version) then None
  else if raw_map (meta !! MetaKeyClientCapabilities) then None
  else Some (raw_field "id" members [], invalid_metadata).

(** The identifier and the version, when a subscription is asked for. *)
Definition modernUnsupportedSubscription (message : bytes) : option (bytes * string) :=
  members ← raw_object message;
  method ← into_field into_string "method" "" (decoded members);
  if negb (String.eqb method MethodSubscriptionsListen) then None
  else
    params ← parse (raw_field "params" members []);
    version ← MetaProtocolVersion params;
    if negb (IsModernProtocol version) then None else Some (raw_field "id" members [], version).

(** ** Standard input *)

(** The response that a line of standard input is answered with, if it is
    not passed on. *)
Definition refusal (line : bytes) : option bytes :=
  let messageBytes := to_bytes (TrimSpace (of_bytes line)) in
  match modernMetadataError messageBytes with
  | Some (id, message) => Some (modernProtocolErrorResponse id INVALID_PARAMS message ++ [NL])
  | None =>
      match modernUnsupportedSubscription messageBytes with
      | Some (id, _) => Some (modernProtocolErrorResponse id METHOD_NOT_FOUND "Method not found" ++ [NL])
      | None => None
      end
  end.

(** What is read from, the error after it, and what has been written. *)
Record stdio := mkStdioState { st_rest : bytes; st_err : error; st_out : list bytes }.

(** [ReadBytes('\n')] *)
Definition ReadBytes (rest : bytes) (err : error) : bytes * option error * bytes :=
  match line_length rest with
  | Some n => (take n rest, None, drop n rest)
  | None => (rest, Some err, [])
  end.

(** The writer: the error that writing gives, after what has been written. *)
Context (write_error : list bytes → bytes → option error).

(** The loop of [Read] when nothing is pending. The fuel bounds the lines. *)
Fixpoint next_line (fuel : nat) (s : stdio) : stdio * (bytes * option error) :=
  match fuel with
  | O => (s, ([], Some out_of_fuel))
  | S fuel =>
      let '(line, err, rest) := ReadBytes (st_rest s) (st_err s) in
      let s := mkStdioState rest (st_err s) (st_out s) in
      match line with
      | [] => (s, ([], err))
      | _ =>
          match refusal line with
          | Some response =>
              match write_error (st_out s) response with
              | Some e => (s, ([], Some e))
              | None =>
                  let s := mkStdioState rest (st_err s) (st_out s ++ [response]) in
                  match err with
                  | Some e => (s, ([], Some e))
                  | None => next_line fuel s
                  end
              end
          | None => (s, (line, err))
          end
      end
  end.

Definition protocol_next (s : stdio) : stdio * (bytes * option error) := next_line (S (length (st_rest s))) s.
(** [protocolValidationReader.Read] *)
Definition protocol_Read : framedReader stdio → nat → framedReader stdio * (bytes * option error) := framed_Read protocol_next.

(** ** HTTP *)

(** A request; [rq_MediaType] is what [mime.ParseMediaType] makes of its
    content type, and [rq_Body] what reading the body gives, if it has one. *)
Record httpRequest := mkRequest {
  rq_Method : string; rq_Body : option (result error bytes); rq_Header : string → string; rq_MediaType : string }.
(** What the middleware does: it answers, or passes the request on. *)
Inductive served :=
| Answered (status : Z) (headers : list (string * string)) (body : bytes)
| Passed (r : httpRequest).

Definition with_body (r : httpRequest) (body : bytes) : httpRequest :=
  mkRequest (rq_Method r) (Some (Ok body)) (rq_Header r) (rq_MediaType r).

Definition modernMetadataValidationMiddleware (r : httpRequest) : served :=
  match rq_Body r with
  | None => Passed r
  | Some content =>
      if negb (String.eqb (rq_Method r) "POST") then Passed r
      else match content with
      | Err _ => Answered 400 [("Content-Type", "text/plain; charset=utf-8"); ("X-Content-Type-Options", "nosniff")] (to_bytes ("invalid request body" +:+ String NL ""))
      | Ok body =>
          let r := with_body r body in
          match modernMetadataError body with
          | Some (id, message) =>
              Answered 400 [("Content-Type", "application/json"); (HeaderProtocolVersion, LATEST_PROTOCOL_VERSION)]
                (modernProtocolErrorResponse id INVALID_PARAMS message)
          | None =>
              match modernUnsupportedSubscription body with
              | Some (id, version) =>
                  if String.eqb (rq_MediaType r) "application/json" &&
                     String.eqb (rq_Header r HeaderProtocolVersion) version &&
                     String.eqb (rq_Header r HeaderMethod) MethodSubscriptionsListen &&
                     String.eqb (rq_Header r HeaderLastEventID) ""
                  then Answered 404 [("Content-Type", "application/json"); (HeaderProtocolVersion, version)]
                         (modernProtocolErrorResponse id METHOD_NOT_FOUND "Method not found")
                  else Passed r
              | None => Passed r
              end
          end
      end
  end.

(** ** Specification *)

(** The lines of a stream, the last without its end. *)
Inductive lines_of : bytes → list bytes → Prop :=
| lines_none : lines_of [] []
| lines_last l : line_length l = None → l ≠ [] → lines_of l [l]
| lines_line l n ls : line_length l = Some n → lines_of (drop n l) ls → lines_of l (take n l :: ls).

(** What of them is passed on, the error after it and all that is written:
    each refused line is answered, until the writer fails. *)
Fixpoint filtered (err : error) (out ls : list bytes) : list bytes * error * list bytes :=
  match ls with
  | [] => ([], err, out)
  | line :: ls =>
      match refusal line with
      | None => let '(frames, e, out) := filtered err out ls in (line :: frames, e, out)
      | Some response =>
          match write_error out response with
          | Some e => ([], e, out)
          | None => filtered err (out ++ [response]) ls
          end
      end
  end.

(** ** Lemmas *)

Lemma lines_exist rest : ∃ ls, lines_of rest ls.
Proof.
  induction rest as [rest IH] using (induction_ltof1 _ (@length _)); unfold ltof in IH.
  destruct (line_length rest) as [n|] eqn:Hn.
  - pose proof (line_length_pos _ _ Hn). destruct (IH (drop n rest)) as [ls Hls]; [rewrite length_drop; lia|].
    exists (take n rest :: ls). by constructor.
  - destruct rest as [|c l]; [exists []; constructor|]. exists [c :: l]. by constructor.
Qed.

Lemma lines_join rest ls : lines_of rest ls → rest = mjoin ls.
Proof.
  induction 1 as [|l|l n ls Hn _ IH]; [done|by simpl; rewrite app_nil_r|]. simpl. by rewrite <- IH, take_drop.
Qed.

Lemma next_line_fuel f1 f2 s :
  (length (st_rest s) < f1)%nat → (length (st_rest s) < f2)%nat → next_line f1 s = next_line f2 s.
Proof.
  revert f2 s. induction f1 as [|f1 IH]; intros f2 s H1 H2; [lia|]. destruct f2 as [|f2]; [lia|]. cbn [next_line]. unfold ReadBytes.
  destruct (line_length (st_rest s)) as [n|] eqn:Hn.
  - pose proof (line_length_pos _ _ Hn). destruct (take n (st_rest s)) eqn:Ht; [done|].
    destruct (refusal _); [|done]. destruct (write_error _ _); [done|]. apply IH; cbn [st_rest]; rewrite length_drop; lia.
  - destruct (st_rest s); [done|]. destruct (refusal _); [|done]. by destruct (write_error _ _).
Qed.

(** A stream whose first line is refused goes on as the stream behind it. *)
Lemma yields_same {A} (next : A → A * (bytes * option error)) s1 s2 fs e s' :
  next s1 = next s2 → yields next s2 fs e s' → yields next s1 fs e s'.
Proof.
  intros E Hy. inversion Hy; subst; [apply yields_error|eapply yields_last|eapply yields_frame]; eauto; by rewrite E.
Qed.

Lemma protocol_yields rest ls : lines_of rest ls → ∀ err out,
  let '(frames, e, out') := filtered err out ls in
  ∃ rest', yields protocol_next (mkStdioState rest err out) frames e (mkStdioState rest' err out').
Proof.
  induction 1 as [|l Hl Hne|l n ls Hn _ IH]; intros err out; cbn [filtered].
  - exists []. by constructor.
  - assert (∀ r, refusal l = r → protocol_next (mkStdioState l err out) =
      match r with
      | Some response => match write_error out response with
                         | Some e => (mkStdioState [] err out, ([], Some e))
                         | None => (mkStdioState [] err (out ++ [response]), ([], Some err))
                         end
      | None => (mkStdioState [] err out, (l, Some err))
      end) as Hnext.
    { intros r <-. unfold protocol_next. cbn [next_line st_rest]. unfold ReadBytes. cbn [st_rest]. rewrite Hl. destruct l; [done|].
      cbn [st_err st_out]. destruct (refusal _); [|done]. by destruct (write_error _ _). }
    specialize (Hnext _ eq_refl). destruct (refusal l) as [response|].
    + destruct (write_error out response); exists []; by constructor.
    + exists []. by apply yields_last.
  - pose proof (line_length_pos _ _ Hn) as Hp. pose proof (take_nonempty _ _ Hp) as Hne.
    assert (∀ r, refusal (take n l) = r → protocol_next (mkStdioState l err out) =
      match r with
      | Some response => match write_error out response with
                         | Some e => (mkStdioState (drop n l) err out, ([], Some e))
                         | None => protocol_next (mkStdioState (drop n l) err (out ++ [response]))
                         end
      | None => (mkStdioState (drop n l) err out, (take n l, None))
      end) as Hnext.
    { intros r <-. unfold protocol_next at 1. cbn [next_line st_rest]. unfold ReadBytes. cbn [st_rest]. rewrite Hn.
      destruct (take n l) eqn:Ht; [done|]. rewrite <- Ht. cbn [st_err st_out]. destruct (refusal _); [|done].
      destruct (write_error _ _); [done|]. apply next_line_fuel; cbn [st_rest]; rewrite length_drop; lia. }
    specialize (Hnext _ eq_refl). destruct (refusal (take n l)) as [response|].
    + destruct (write_error out response) as [e|]; [exists (drop n l); by constructor|].
      specialize (IH err (out ++ [response])). destruct (filtered err _ ls) as [[frames e] out']. destruct IH as [rest' Hy].
      exists rest'. by eapply yields_same.
    + specialize (IH err out). destruct (filtered err out ls) as [[frames e] out']. destruct IH as [rest' Hy].
      exists rest'. by eapply yields_frame.
Qed.

(** ** Properties *)

(** C25. The filter on standard input takes out exactly the malformed modern
    requests, and answers them. Whatever the sizes of the buffers mcp-go reads
    with, what it gets are the lines that are not refused, byte for byte and
    in order, until the input ends or an answer cannot be written; and when it
    sees that end, each refused line before it has been answered, once and in
    order, and nothing else has been written. *)
Theorem stdio_filtered s sizes : Forall (λ n, 0 < n)%nat sizes →
  ∃ ls, st_rest s = mjoin ls ∧ lines_of (st_rest s) ls ∧
  let '(frames, e, out) := filtered (st_err s) (st_out s) ls in
  let '(r, got) := drain protocol_Read (newFramed s) sizes in
  delivered frames e sizes got ∧ (is_Some got.2 → st_out (fr_stream r) = out).
Proof.
  intros Hs. destruct (lines_exist (st_rest s)) as [ls Hls]. exists ls. split; [by apply lines_join|]. split; [done|].
  destruct s as [rest err out]. cbn [st_rest st_err st_out] in *. pose proof (protocol_yields rest ls Hls err out) as Hy.
  destruct (filtered err out ls) as [[frames e] out']. destruct Hy as [rest' Hy].
  pose proof (frames_delivered _ _ _ _ _ _ Hy Hs) as Hd. unfold consume in Hd.
  pose proof (drain_spec _ sizes _ _ _ _ (remaining_frames _ _ [] _ _ _ Hy) Hs) as Hf. fold (newFramed (mkStdioState rest err out)) in Hf.
  unfold protocol_Read. destruct (drain _ _ sizes) as [r [got [e'|]]]; (split; [done|]); [|by intros [? ?]].
  intros _. by destruct Hf as (_ & _ & ->).
Qed.

(** The transports agree on what is malformed: a body that the HTTP
    middleware answers is, as a line of standard input, answered with the very
    same text; and a body it passes on is passed on unchanged, and either it
    would be passed on from standard input too, or it asks for a subscription
    and its headers are not those of that request, which mcp-go then refuses. *)
Theorem transports_agree line r :
  rq_Method r = "POST" → rq_Body r = Some (Ok (to_bytes (TrimSpace (of_bytes line)))) →
  match modernMetadataValidationMiddleware r with
  | Answered status headers body =>
      refusal line = Some (body ++ [NL]) ∧ In ("Content-Type", "application/json") headers ∧ (status = 400 ∨ status = 404)
  | Passed r' =>
      rq_Body r' = rq_Body r ∧ rq_Method r' = rq_Method r ∧ rq_Header r' = rq_Header r ∧
      (refusal line = None ∨
       ∃ id version, modernUnsupportedSubscription (to_bytes (TrimSpace (of_bytes line))) = Some (id, version) ∧
         ¬ (rq_MediaType r = "application/json" ∧ rq_Header r HeaderProtocolVersion = version ∧
            rq_Header r HeaderMethod = MethodSubscriptionsListen ∧ rq_Header r HeaderLastEventID = ""))
  end.
Proof.
  intros Hm Hb. unfold modernMetadataValidationMiddleware, refusal. rewrite Hm, Hb. cbn [negb String.eqb].
  change (negb ("POST" =? "POST")%string) with false. cbn iota.
  destruct (modernMetadataError _) as [[id message]|]; [split_and!; [done|by left|by left]|].
  destruct (modernUnsupportedSubscription _) as [[id version]|]; [|by split_and!; [..|left]].
  cbn [rq_MediaType rq_Header with_body]. destruct (_ && _) eqn:E; [split_and!; [done|by left|by right]|].
  split_and!; [done..|]. right. exists id, version. split; [done|]. rewrite <- !String.eqb_eq. intros (H1 & H2 & H3 & H4).
  by rewrite H1, H2, H3, H4 in E.
Qed.
End protocol.

(** ** Witnesses *)

Definition demo_mcp : Mcp := {|
  IsModernProtocol v := String.eqb v "2026-06-30";
  MetaKeyProtocolVersion := "io/protocolVersion";
  MetaKeyClientCapabilities := "io/clientCapabilities";
  MethodSubscriptionsListen := "subscriptions/listen";
  MetaProtocolVersion v := match v with JObj [("version", JStr version)] => Some version | _ => None end;
  JSONRPC_VERSION := "2.0";
  INVALID_PARAMS := -32602;
  METHOD_NOT_FOUND := -32601;
  LATEST_PROTOCOL_VERSION := "2026-06-30";
  HeaderProtocolVersion := "Mcp-Protocol-Version";
  HeaderMethod := "Mcp-Method";
  HeaderLastEventID := "Last-Event-Id" |}.

(** A request with malformed metadata, a subscription and one to pass on. *)
Definition malformed_line : bytes := requote "{'id':7,'method':'tools/list','params':{'_meta':{'io/protocolVersion':'2026-06-30'}}}".
Definition subscription_line : bytes := requote "{'id':8,'method':'subscriptions/listen','params':{'version':'2026-06-30'}}".
Definition good_line : bytes := requote "{'id':9,'method':'tools/list'}".
Definition demo_stdio : stdio := mkStdioState (malformed_line ++ [NL] ++ good_line ++ [NL] ++ subscription_line ++ [NL]) EOF [].
Definition demo_post : httpRequest := mkRequest "POST" (Some (Ok malformed_line)) (λ _, "") "application/json".

Lemma stdio_filtered_witness :
  let '(r, got) := drain (@protocol_Read demo_mcp (λ _ _, None)) (newFramed demo_stdio) [64; 64]%nat in
  got = (good_line ++ [NL], Some EOF) ∧ length (st_out (fr_stream r)) = 2%nat ∧ ∃ ls, st_rest demo_stdio = mjoin ls.
Proof.
  destruct (@stdio_filtered demo_mcp (λ _ _, None) demo_stdio [64; 64]%nat) as (ls & E & _).
  { by repeat (apply Forall_cons; split; [lia|]). }
  split; [by vm_compute|]. split; [by vm_compute|]. by exists ls.
Defined.

Lemma transports_agree_witness :
  ∃ body, @refusal demo_mcp (malformed_line ++ [NL]) = Some (body ++ [NL]) ∧
  @modernMetadataValidationMiddleware demo_mcp demo_post =
    Answered 400 [("Content-Type", "application/json"); ("Mcp-Protocol-Version", "2026-06-30")] body.
Proof.
  pose proof (@transports_agree demo_mcp (malformed_line ++ [NL]) demo_post eq_refl ltac:(vm_compute; reflexivity)) as Hp.
  destruct (@modernMetadataValidationMiddleware demo_mcp demo_post) as [status headers body|] eqn:E; [|vm_compute in E; discriminate E].
  exists body. destruct Hp as [Hr _]. split; [exact Hr|]. vm_compute in E. injection E as <- <- <-. reflexivity.
Defined.
