(* ===== verification/Inventory.v ===== *)
(** * Taking the inventory of a provider

    Models [structure_generator/cmd/main.go]: how the generator reads a
    provider's tools page by page within the limits of an inventory, what it
    keeps of each tool, the fetching from all the servers of a configuration,
    and the decoding of inventories read from files. A client is an interface;
    [mcp.Tool]'s decoding and the validation of its annotations are mcp-go's,
    and the decoding of a configuration file is that of its option types. *)
From Stdlib Require Import Ascii String.
From S2P Require Import Prelude GoStrings Limits Sha256 Utf8 Text Json JsonScan JsonStruct ResponseLimit Hierarchy Config Generator Generated.
Local Open Scope string_scope.
Local Open Scope list_scope.
Local Open Scope Z_scope.

(** ** Pages *)

Record catalogToolsPage := mkPage { pg_NextCursor : string; pg_Tools : list bytes }.

(** The elements of a non-empty array after its bracket, as
    [[]json.RawMessage] keeps them, and those of a JSON text. *)
Fixpoint raw_elements (fuel : nat) (l : bytes) : option (list bytes) :=
  match fuel with
  | O => None
  | S fuel =>
      let value := skip_ws l in
      '(_, rest) ← parse_value (S (2 * length value)) 1 value;
      let raw := take (length value - length rest) value in
      match skip_ws rest with
      | b :: rest => if Ascii.eqb b comma then es ← raw_elements fuel rest; Some (raw :: es) else Some [raw]
      | [] => None
      end
  end.
Definition raw_array (data : bytes) : option (list bytes) :=
  match parse data with
  | Some (JArr []) => Some []
  | Some (JArr _) => match skip_ws data with _ :: l => raw_elements (length l) l | [] => None end
  | _ => None
  end.

Definition UnmarshalJSON (data : bytes) : result error catalogToolsPage :=
  let! _ := match RejectDuplicateJSONMembers data with
            | Err e => Err (Wrapf "invalid tools/list result: %w" [] e)
            | Ok _ => Ok tt
            end in
  match members ← raw_object data; next ← into_field into_string "nextCursor" "" (decoded members); Some (members, next) with
  | None => Err unmarshal_error
  | Some (members, next) =>
      let encodedTools := raw_field "tools" members [] in
      fail_if bool_decide (encodedTools = []) || bool_decide (encodedTools = to_bytes "null")
        with ErrorNew (of_bytes (requote "tools/list result is missing required 'tools' array")) else
      match raw_array encodedTools with
      | None => Err (Wrapf (of_bytes (requote "tools/list result field 'tools' must be an array: %w")) [] unmarshal_error)
      | Some tools => Ok (mkPage next tools)
      end
  end.

(** ** Tools *)

(** [mcp.Tool], its decoding, name and the validation of its annotations. *)
Class McpTools := {
  mcpTool : Type;
  mcpTool_Name : mcpTool → string;
  UnmarshalTool : bytes → option mcpTool;
  ValidateParamHeaderAnnotations : mcpTool → option error;
}.

(** The fields of a tool as they are decoded: [None] is a nil map. *)
Record toolFields := mkFields {
  fd_Name : string; fd_Title : string; fd_Description : string;
  fd_InputSchema : option (gmap string json); fd_OutputSchema : option (gmap string json); fd_Annotations : option (gmap string json) }.
Definition zero_fields : toolFields := mkFields "" "" "" None None None.

Definition tool_members (c : toolFields) (ms : list (string * json)) : option toolFields :=
  name ← into_field into_string "name" (fd_Name c) ms;
  title ← into_field into_string "title" (fd_Title c) ms;
  description ← into_field into_string "description" (fd_Description c) ms;
  input ← into_field into_object "inputSchema" (fd_InputSchema c) ms;
  output ← into_field into_object "outputSchema" (fd_OutputSchema c) ms;
  annotations ← into_field into_object "annotations" (fd_Annotations c) ms;
  Some (mkFields name title description input output annotations).

(** A [generator.Tool]; where the code reads its maps a nil one is empty. *)
Definition tool_of_fields (title : string) (f : toolFields) : Tool :=
  mkGenTool (fd_Name f) title (fd_Description f) (default ∅ (fd_InputSchema f)) (default ∅ (fd_OutputSchema f)) (default ∅ (fd_Annotations f)).

(** What [json.Marshal] makes of one: an absent input schema is [null]. *)
Definition fields_json (f : toolFields) : json := JObj (
  [("name", JStr (fd_Name f))] ++ omit_string "title" (fd_Title f) ++ omit_string "description" (fd_Description f) ++
  [("inputSchema", match fd_InputSchema f with Some m => object_json m | None => JNull end)] ++
  omit_object "outputSchema" (default ∅ (fd_OutputSchema f)) ++ omit_object "annotations" (default ∅ (fd_Annotations f))).
Definition tool_json (t : Tool) : json :=
  fields_json (mkFields (tl_Name t) (tl_Title t) (tl_Description t) (Some (tl_InputSchema t)) (Some (tl_OutputSchema t)) (Some (tl_Annotations t))).

(** The title of a converted tool: one that is not given is the annotations'. *)
Definition annotated_title (f : toolFields) : string :=
  if negb (String.eqb (fd_Title f) "") then fd_Title f
  else match default ∅ (fd_Annotations f) !! "title" with Some (JStr s) => s | _ => "" end.

Section inventory.
Context {mcp : McpTools}.

Definition convertTool (data : bytes) : result error Tool :=
  let! _ := match RejectDuplicateJSONMembers data with
            | Err e => Err (Wrapf "invalid tool metadata: %w" [] e)
            | Ok _ => Ok tt
            end in
  match UnmarshalTool data with
  | None => Err unmarshal_error
  | Some providerTool =>
      match ValidateParamHeaderAnnotations providerTool with
      | Some e => Err (Wrapf "tool %q has invalid x-mcp-header annotations: %w" [FStr (mcpTool_Name providerTool)] e)
      | None =>
          match v ← parse data; into_struct tool_members zero_fields v with
          | None => Err unmarshal_error
          | Some fields =>
              match fd_InputSchema fields with
              | None => Err (Errorf "tool %q is missing required object inputSchema" [FStr (fd_Name fields)])
              | Some _ => Ok (tool_of_fields (annotated_title fields) fields)
              end
          end
      end
  end.

(** *** [decodeServerTools] *)

Definition server_tools_members (c : string * list toolFields) (ms : list (string * json)) : option (string * list toolFields) :=
  name ← into_field into_string "serverName" c.1 ms;
  tools ← into_field (into_list zero_fields (into_struct tool_members)) "tools" c.2 ms;
  Some (name, tools).

Definition validate_tool (i : Z) (_ : unit) (f : toolFields) : result error unit :=
  match UnmarshalTool (Marshal (fields_json f)) with
  | None => Err (Wrapf "failed to validate tool at index %d: %w" [FInt i] unmarshal_error)
  | Some providerTool =>
      match ValidateParamHeaderAnnotations providerTool with
      | Some e => Err (Wrapf "tool %q has invalid x-mcp-header annotations: %w" [FStr (fd_Name f)] e)
      | None => Ok tt
      end
  end.

Definition decodeServerTools (data : bytes) : result error ServerTools :=
  let! _ := match RejectDuplicateJSONMembers data with
            | Err e => Err (Wrapf "invalid pre-fetched server metadata: %w" [] e)
            | Ok _ => Ok tt
            end in
  match v ← parse data; into_struct server_tools_members ("", []) v with
  | None => Err unmarshal_error
  | Some (name, tools) =>
      let! _ := rfoldi validate_tool 0 tt tools in
      Ok (mkServerTools name (map (λ f, tool_of_fields (fd_Title f) f) tools))
  end.

(** ** Limits *)

Definition maxInventoryPages : Z := 128.
Definition maxInventoryTools : Z := 4096.
Definition maxInventoryPageBytes : Z := Z.shiftl 4 20.
Definition maxInventoryBytes : Z := Z.shiftl 32 20.
Record inventoryLimits := mkInventoryLimits { il_pages : Z; il_tools : Z; il_pageBytes : Z; il_totalBytes : Z }.
Definition defaultInventoryLimits : inventoryLimits :=
  mkInventoryLimits maxInventoryPages maxInventoryTools maxInventoryPageBytes maxInventoryBytes.

(** The subtraction is an [int]'s; the length of a slice and one more is one too. *)
Definition exceedsInventoryLimit (current additional limit : Z) : bool :=
  (current >? limit) || (additional >? wrap64 (limit - current)).

(** ** Fetching *)

(** [catalogClient]: its state, and what its methods make of it. *)
Class CatalogClient (C : Type) := {
  cat_Start : C → C * option error;
  cat_Initialize : C → C * option error;
  cat_ListToolsByPage : C → string → C * result error (option catalogToolsPage);
  cat_Close : C → C;
}.
Record catalogConnection (C : Type) := mkConnection { cn_client : C; cn_needStart : bool }.
#[global] Arguments mkConnection {C}.
#[global] Arguments cn_client {C}.
#[global] Arguments cn_needStart {C}.

(** One tool of a page: what the page has so far, its bytes and the total. *)
Definition add_page_tool (limits : inventoryLimits) (allTools : list Tool) (toolIndex : Z) (s : list Tool * Z * Z) (rawTool : bytes) :
    result error (list Tool * Z * Z) :=
  let '(pageTools, pageBytes, totalBytes) := s in
  match convertTool rawTool with
  | Err e => Err (Wrapf "failed to preserve metadata for tool at index %d: %w" [FInt toolIndex] e)
  | Ok tool =>
      let encodedTool := Marshal (tool_json tool) in
      let pageSeparator := if zlen pageTools >? 0 then 1 else 0 in
      fail_if exceedsInventoryLimit pageBytes (zlen encodedTool + pageSeparator) (il_pageBytes limits)
        with Errorf "failed to list tools: inventory page byte limit exceeded: maximum %d encoded bytes" [FInt (il_pageBytes limits)] else
      let totalSeparator := if zlen allTools + zlen pageTools >? 0 then 1 else 0 in
      fail_if exceedsInventoryLimit totalBytes (zlen encodedTool + totalSeparator) (il_totalBytes limits)
        with Errorf "failed to list tools: inventory byte limit exceeded: maximum %d encoded bytes" [FInt (il_totalBytes limits)] else
      Ok (pageTools ++ [tool], wrap64 (pageBytes + (zlen encodedTool + pageSeparator)), wrap64 (totalBytes + (zlen encodedTool + totalSeparator)))
  end.

Section client.
Context {C : Type} {catalog : CatalogClient C}.

(** The loop over the pages; its fuel bounds them. *)
Fixpoint list_pages (fuel : nat) (limits : inventoryLimits) (c : C) (cursor : string) (allTools : list Tool) (seen : gset string)
    (pageCount totalBytes : Z) : C * result error (list Tool) :=
  match fuel with
  | O => (c, Err out_of_fuel)
  | S fuel =>
      if il_pages limits <=? pageCount
      then (c, Err (Errorf "failed to list tools: inventory page limit exceeded: maximum %d pages" [FInt (il_pages limits)]))
      else
        let '(c, page) := cat_ListToolsByPage c cursor in
        match page with
        | Err e => (c, Err (Wrapf "failed to list tools: %w" [] e))
        | Ok None => (c, Err (ErrorNew "failed to list tools: provider returned no tools/list result"))
        | Ok (Some page) =>
            if zlen (pg_Tools page) >? il_tools limits - zlen allTools
            then (c, Err (Errorf "failed to list tools: inventory tool limit exceeded: maximum %d tools" [FInt (il_tools limits)]))
            else if negb (String.eqb (pg_NextCursor page) "") && bool_decide (pg_NextCursor page ∈ seen)
            then (c, Err (Errorf "failed to list tools: repeated pagination cursor %q" [FStr (pg_NextCursor page)]))
            else
              match rfoldi (add_page_tool limits allTools) 0 ([], 2, totalBytes) (pg_Tools page) with
              | Err e => (c, Err e)
              | Ok (pageTools, _, totalBytes) =>
                  let allTools := allTools ++ pageTools in
                  if String.eqb (pg_NextCursor page) "" then (c, Ok allTools)
                  else list_pages fuel limits c (pg_NextCursor page) allTools ({[pg_NextCursor page]} ∪ seen) (pageCount + 1) totalBytes
              end
        end
  end.

Definition page_fuel (limits : inventoryLimits) : nat := S (Z.to_nat (il_pages limits)).

(** The client is closed when the fetching ends, whichever way. *)
Definition fetchToolsFromServerWithLimits (name : string) (providerConfig : MCPClientConfigV2)
    (factory : string → MCPClientConfigV2 → result error (catalogConnection C)) (limits : inventoryLimits) :
    option C * result error ServerTools :=
  match factory name providerConfig with
  | Err e => (None, Err (Wrapf "failed to create client: %w" [] e))
  | Ok connection =>
      let '(c, err) := if cn_needStart connection then cat_Start (cn_client connection) else (cn_client connection, None) in
      match err with
      | Some e => (Some (cat_Close c), Err (Wrapf "failed to start client: %w" [] e))
      | None =>
          let '(c, err) := cat_Initialize c in
          match err with
          | Some e => (Some (cat_Close c), Err (Wrapf "failed to initialize: %w" [] e))
          | None =>
              let '(c, tools) := list_pages (page_fuel limits) limits c "" [] ∅ 0 2 in
              (Some (cat_Close c), let! tools := tools in Ok (mkServerTools name tools))
          end
      end
  end.

Definition fetchToolsFromServer (name : string) (providerConfig : MCPClientConfigV2)
    (factory : string → MCPClientConfigV2 → result error (catalogConnection C)) : option C * result error ServerTools :=
  fetchToolsFromServerWithLimits name providerConfig factory defaultInventoryLimits.

(** ** Configurations *)

Section config.
Context (Getenv : string → string).

(** *** [os.ExpandEnv] *)

Definition isShellSpecialVar (c : ascii) : bool := ContainsByte "*#$@!?-0123456789" c.
Definition isAlphaNum (c : ascii) : bool :=
  let z := byte_Z c in (z =? 95) || ((48 <=? z) && (z <=? 57)) || ((97 <=? z) && (z <=? 122)) || ((65 <=? z) && (z <=? 90)).
Fixpoint to_brace (l : bytes) : option bytes :=
  match l with
  | [] => None
  | c :: l => if Ascii.eqb c "}" then Some [] else name ← to_brace l; Some (c :: name)
  end.
(** The name after a dollar sign and how much of the text it takes. *)
Definition getShellName (s : bytes) : bytes * nat :=
  match s with
  | [] => ([], 0%nat)
  | c :: s' =>
      if Ascii.eqb c "{" then
        match s' with
        | v :: b :: _ =>
            if isShellSpecialVar v && Ascii.eqb b "}" then ([v], 3%nat)
            else match to_brace s' with
                 | Some [] => ([], 2%nat)
                 | Some name => (name, S (S (length name)))
                 | None => ([], 1%nat)
                 end
        | _ => match to_brace s' with Some _ => ([], 2%nat) | None => ([], 1%nat) end
        end
      else if isShellSpecialVar c then ([c], 1%nat)
      else let name := (take_while isAlphaNum s).1 in (name, length name)
  end.
(** [skip] bytes belong to the name before. *)
Fixpoint expand (skip : nat) (l : bytes) : bytes :=
  match l with
  | [] => []
  | c :: l =>
      match skip with
      | S skip => expand skip l
      | O =>
          if Ascii.eqb c "$" && negb (Nat.eqb (length l) 0) then
            let '(name, w) := getShellName l in
            match name, w with
            | [], S _ => []
            | [], O => [c]
            | _, _ => to_bytes (Getenv (of_bytes name))
            end ++ expand w l
          else c :: expand O l
      end
  end.
Definition ExpandEnv (s : string) : string := of_bytes (expand O (to_bytes s)).

Definition expandProviderConfig (c : MCPClientConfigV2) : MCPClientConfigV2 :=
  mkClientConfig (cc_TransportType c) (ExpandEnv (cc_Command c)) (map ExpandEnv (cc_Args c)) (ExpandEnv <$> cc_Env c)
    (ExpandEnv (cc_URL c)) (ExpandEnv <$> cc_Headers c) (cc_Timeout c) (cc_Options c).

(** *** [fetchFromConfigWithFactory] *)

(** One server; the clients made so far are kept, as they are when closed. *)
Definition fetch_server (factory : string → MCPClientConfigV2 → result error (catalogConnection C))
    (servers : gmap string (option MCPClientConfigV2)) (allServers : list ServerTools) (serverName : string) : result error (list ServerTools) :=
  match servers !! serverName with
  | Some (Some serverConfig) =>
      match (fetchToolsFromServer serverName (expandProviderConfig serverConfig) factory).2 with
      | Err e => Err (Wrapf "failed to fetch complete tool inventory from %s: %w" [FStr serverName] e)
      | Ok serverTools => Ok (allServers ++ [serverTools])
      end
  | _ => Err (Errorf "invalid provider config for %s: configuration is null" [FStr serverName])
  end.

(** [decode] is [json.Unmarshal] into the command's [Config]. *)
Definition fetchFromConfigWithFactory (decode : bytes → result error (gmap string (option MCPClientConfigV2))) (configData : result error bytes)
    (factory : string → MCPClientConfigV2 → result error (catalogConnection C)) : result error (list ServerTools) :=
  match configData with
  | Err e => Err (Wrapf "failed to read config: %w" [] e)
  | Ok configData =>
      match decode configData with
      | Err e => Err (Wrapf "failed to parse config: %w" [] e)
      | Ok servers => rfold (fetch_server factory servers) [] (merge_sort str_le (map_to_list servers).*1)
      end
  end.
End config.
End client.

(** ** Specification *)

(** What a client answers when the cursors it gives are followed. *)
Inductive listing {C} `{CatalogClient C} : C → string → list catalogToolsPage → C → Prop :=
| listing_last c cursor page c' :
    cat_ListToolsByPage c cursor = (c', Ok (Some page)) → pg_NextCursor page = "" → listing c cursor [page] c'
| listing_more c cursor page c1 pages c' :
    cat_ListToolsByPage c cursor = (c1, Ok (Some page)) → pg_NextCursor page ≠ "" → listing c1 (pg_NextCursor page) pages c' →
    listing c cursor (page :: pages) c'.

Definition cursors (pages : list catalogToolsPage) : list string := filter (λ s, s ≠ "") (map pg_NextCursor pages).
Definition converted (page : catalogToolsPage) (tools : list Tool) : Prop := Forall2 (λ raw t, convertTool raw = Ok t) (pg_Tools page) tools.
(** The size of an array of tools in JSON. *)
Definition tools_size (tools : list Tool) : Z := marshal_size (JArr (map tool_json tools)).

Record inventory_limits_ok (l : inventoryLimits) : Prop := {
  lo_tools : 0 ≤ il_tools l;
  lo_page : 2 ≤ il_pageBytes l ≤ MaxInt64;
  lo_total : 2 ≤ il_totalBytes l ≤ MaxInt64;
}.

(** ** Lemmas: sizes *)

Lemma zlen_snoc {A} (l : list A) x : zlen (l ++ [x]) = zlen l + 1.
Proof. unfold zlen. rewrite length_app. cbn. lia. Qed.

Lemma commas_snoc l x : zlen (commas (l ++ [x])) = zlen (commas l) + (if zlen l >? 0 then 1 else 0) + zlen x.
Proof.
  unfold zlen. induction l as [|y l IH]; [done|]. destruct l as [|z l].
  { change (commas ([y] ++ [x])) with (y ++ ","%char :: x). change (commas [y]) with y. rewrite length_app. cbn [length].
    change (Z.of_nat 1 >? 0) with true. lia. }
  change (commas ((y :: z :: l) ++ [x])) with (y ++ ","%char :: commas ((z :: l) ++ [x])).
  change (commas (y :: z :: l)) with (y ++ ","%char :: commas (z :: l)). rewrite !length_app. cbn [length]. cbn [length] in IH.
  replace (Z.of_nat (S (length l)) >? 0) with true in IH by (symmetry; apply Z.gtb_lt; lia).
  replace (Z.of_nat (S (S (length l))) >? 0) with true by (symmetry; apply Z.gtb_lt; lia). lia.
Qed.

Lemma tools_size_snoc ts t :
  tools_size (ts ++ [t]) = tools_size ts + (zlen (Marshal (tool_json t)) + (if zlen ts >? 0 then 1 else 0)).
Proof.
  unfold tools_size, marshal_size, Marshal. cbn [render]. rewrite !map_app. cbn [map].
  pose proof (commas_snoc (map render (map tool_json ts)) (render (tool_json t))) as Hc.
  unfold zlen in *. cbn [length] in *. rewrite !length_app. rewrite !length_map in Hc. lia.
Qed.

Lemma tools_size_grows ts us : tools_size ts ≤ tools_size (ts ++ us).
Proof.
  induction us as [|u us IH] using rev_ind; [by rewrite app_nil_r|]. rewrite app_assoc, tools_size_snoc.
  unfold zlen at 1. destruct (_ >? 0); lia.
Qed.

Lemma tools_size_min ts : 2 ≤ tools_size ts.
Proof. apply (tools_size_grows []). Qed.

Lemma exceeds_exact current additional limit : 0 ≤ current ≤ limit → limit ≤ MaxInt64 →
  exceedsInventoryLimit current additional limit = (current + additional >? limit).
Proof.
  intros Hc Hl. unfold exceedsInventoryLimit. rewrite wrap64_id by (unfold int64_ok, MinInt64, MaxInt64 in *; lia).
  rewrite !Z.gtb_ltb. destruct (Z.ltb_spec limit current); [lia|]. cbn.
  destruct (Z.ltb_spec (limit - current) additional), (Z.ltb_spec limit (current + additional)); lia || done.
Qed.

(** ** Lemmas: pages *)

Section pages.
Context {C : Type} `{CatalogClient C} (limits : inventoryLimits) (Hlimits : inventory_limits_ok limits).

Lemma add_page_tool_spec all i ts raw s :
  tools_size ts ≤ il_pageBytes limits → tools_size (all ++ ts) ≤ il_totalBytes limits →
  add_page_tool limits all i (ts, tools_size ts, tools_size (all ++ ts)) raw = Ok s ↔
  ∃ t, convertTool raw = Ok t ∧ tools_size (ts ++ [t]) ≤ il_pageBytes limits ∧ tools_size (all ++ ts ++ [t]) ≤ il_totalBytes limits ∧
    s = (ts ++ [t], tools_size (ts ++ [t]), tools_size (all ++ ts ++ [t])).
Proof using Hlimits.
  intros Hp Ht. destruct Hlimits as [_ [_ Hpm] [_ Htm]]. unfold add_page_tool. destruct (convertTool raw) as [t|e]; [|naive_solver].
  pose proof (tools_size_min ts). pose proof (tools_size_min (all ++ ts)).
  rewrite !guardE_Ok, !exceeds_exact by lia.
  replace (zlen all + zlen ts) with (zlen (all ++ ts)) by (unfold zlen; rewrite length_app; lia).
  pose proof (tools_size_snoc ts t) as Ea. pose proof (tools_size_snoc (all ++ ts) t) as Eb. rewrite <- app_assoc in Eb.
  set (a := zlen (Marshal (tool_json t)) + (if zlen ts >? 0 then 1 else 0)) in *.
  set (b := zlen (Marshal (tool_json t)) + (if zlen (all ++ ts) >? 0 then 1 else 0)) in *. rewrite !Z.gtb_ltb, !Z.ltb_ge, <- Ea, <- Eb.
  split.
  - intros (Hx & Hy & [= <-]). exists t. split_and!; [done..|]. rewrite !wrap64_id by (unfold int64_ok, MinInt64; pose proof (tools_size_min (ts ++ [t])); pose proof (tools_size_min (all ++ ts ++ [t])); lia). done.
  - intros (t' & [= <-] & Hx & Hy & ->). split_and!; [done..|].
    rewrite !wrap64_id by (unfold int64_ok, MinInt64; pose proof (tools_size_min (ts ++ [t])); pose proof (tools_size_min (all ++ ts ++ [t])); lia). done.
Qed.

(** The loop over a page's tools: all are converted and both sizes fit. *)
Lemma page_spec all raws : ∀ i ts s,
  tools_size ts ≤ il_pageBytes limits → tools_size (all ++ ts) ≤ il_totalBytes limits →
  rfoldi (add_page_tool limits all) i (ts, tools_size ts, tools_size (all ++ ts)) raws = Ok s ↔
  ∃ us, Forall2 (λ raw t, convertTool raw = Ok t) raws us ∧ tools_size (ts ++ us) ≤ il_pageBytes limits ∧
    tools_size (all ++ ts ++ us) ≤ il_totalBytes limits ∧ s = (ts ++ us, tools_size (ts ++ us), tools_size (all ++ ts ++ us)).
Proof using Hlimits.
  induction raws as [|raw raws IH]; intros i ts s Hp Ht; cbn [rfoldi].
  { split; [intros [= <-]; exists []; rewrite !app_nil_r; by split_and!|].
    intros (us & ->%Forall2_nil_inv_l & _ & _ & ->). by rewrite !app_nil_r. }
  rewrite rbind_Ok. split.
  - intros (s1 & (t & Hc & Hx & Hy & ->)%add_page_tool_spec & Hr); [|done..].
    apply IH in Hr as (us & Hus & Hr); [|done..]. rewrite <- !app_assoc in Hr. exists (t :: us). split; [by constructor|]. exact Hr.
  - intros (us & Hus & Hx & Hy & ->). apply Forall2_cons_inv_l in Hus as (t & us' & Hc & Hus & ->).
    assert (tools_size (ts ++ [t]) ≤ il_pageBytes limits ∧ tools_size (all ++ ts ++ [t]) ≤ il_totalBytes limits) as [Hx' Hy'].
    { pose proof (tools_size_grows (ts ++ [t]) us'). pose proof (tools_size_grows (all ++ ts ++ [t]) us').
      rewrite <- !app_assoc in *. cbn [app] in *. lia. }
    eexists. split; [apply add_page_tool_spec; [done..|by exists t]|]. apply IH; [done..|]. exists us'. rewrite <- !app_assoc. by split_and!.
Qed.

Definition page_ok (page : catalogToolsPage) (ts : list Tool) : Prop := converted page ts ∧ tools_size ts ≤ il_pageBytes limits.

Lemma page_done all page s : tools_size all ≤ il_totalBytes limits →
  rfoldi (add_page_tool limits all) 0 ([], 2, tools_size all) (pg_Tools page) = Ok s ↔
  ∃ ts, page_ok page ts ∧ tools_size (all ++ ts) ≤ il_totalBytes limits ∧ s = (ts, tools_size ts, tools_size (all ++ ts)).
Proof using Hlimits.
  intros Hall. pose proof (page_spec all (pg_Tools page) 0 [] s) as Hs. rewrite app_nil_r in Hs. change (tools_size []) with 2 in Hs.
  rewrite Hs; [|by apply Hlimits|done]. unfold page_ok, converted. cbn [app]. naive_solver.
Qed.

Lemma cursors_cons page pages :
  cursors (page :: pages) = if decide (pg_NextCursor page = "") then cursors pages else pg_NextCursor page :: cursors pages.
Proof. unfold cursors. cbn [map]. rewrite filter_cons. by destruct (decide (_ = "")), (decide (_ ≠ "")). Qed.

Lemma list_pages_spec fuel : ∀ c cursor all seen count c' ts,
  (Z.to_nat (il_pages limits - count) < fuel)%nat → 0 ≤ count → tools_size all ≤ il_totalBytes limits →
  list_pages fuel limits c cursor all seen count (tools_size all) = (c', Ok ts) ↔
  ∃ pages tss, listing c cursor pages c' ∧ Forall2 page_ok pages tss ∧ count + zlen pages ≤ il_pages limits ∧
    zlen all + zlen (concat tss) ≤ il_tools limits ∧ NoDup (cursors pages) ∧ Forall (λ s, s ∉ seen) (cursors pages) ∧
    tools_size (all ++ concat tss) ≤ il_totalBytes limits ∧ ts = all ++ concat tss.
Proof using Hlimits.
  induction fuel as [|fuel IH]; intros c cursor all seen count c' ts Hf Hcount Hall; [lia|]. cbn [list_pages].
  destruct (Z.leb_spec (il_pages limits) count) as [Hpages|Hpages].
  { split; [done|]. intros (pages & tss & Hl & _ & Hn & _). inversion Hl; subst; unfold zlen in Hn; cbn [length] in Hn; lia. }
  destruct (cat_ListToolsByPage c cursor) as [c1 [[page|]|e]] eqn:Hlist; cycle 1.
  { split; [done|]. intros (pages & tss & Hl & _). inversion Hl; congruence. }
  { split; [done|]. intros (pages & tss & Hl & _). inversion Hl; congruence. }
  assert (∀ pages tss, count + zlen (page :: pages) = count + 1 + zlen pages ∧ ∀ us, zlen all + zlen (concat (us :: tss)) = zlen (all ++ us) + zlen (concat tss)) as Hz.
  { intros pages tss. unfold zlen. cbn [length concat]. split; [lia|]. intros us. rewrite !length_app. lia. }
  split.
  - destruct (_ >? _) eqn:Htools; [done|]. destruct (negb _ && _) eqn:Hseen; [done|].
    destruct (rfoldi _ _ _ _) as [[[us pb] tb]|e] eqn:Hr; [|done]. apply page_done in Hr as (us' & Hok & Ht & [= -> -> ->]); [|done].
    rewrite Z.gtb_ltb, Z.ltb_ge in Htools. pose proof (Forall2_length _ _ _ (proj1 Hok)) as Hlen.
    destruct (String.eqb_spec (pg_NextCursor page) "") as [Hlast|Hmore].
    + intros [= -> <-]. exists [page], [us']. cbn [concat]. rewrite app_nil_r, cursors_cons, decide_True by done.
      split_and!; [by apply listing_last|constructor; [done|constructor]|unfold zlen; cbn; lia|unfold zlen in *; lia|constructor|constructor|done|done].
    + intros Hrec. apply IH in Hrec as (pages & tss & Hl & Hoks & Hn & Htl & Hnd & Hfresh & Hsz & ->); [|lia..|done].
      destruct (Hz pages tss) as [Hz1 Hz2]. exists (page :: pages), (us' :: tss). rewrite cursors_cons, decide_False, Hz1, Hz2 by done.
      cbn [concat]. rewrite <- app_assoc in *. cbn [negb andb] in Hseen. apply bool_decide_eq_false in Hseen. rewrite Forall_forall in Hfresh.
      assert (pg_NextCursor page ∉ cursors pages) by (intros Hin%Hfresh; set_solver).
      split_and!; [by eapply listing_more|by constructor|lia|lia|by apply NoDup_cons|constructor; [done|]|done|done].
      apply Forall_forall. set_solver.
  - intros (pages & tss & Hl & Hoks & Hn & Htl & Hnd & Hfresh & Hsz & ->).
    assert (∃ pages' us tss', pages = page :: pages' ∧ tss = us :: tss' ∧ page_ok page us ∧ Forall2 page_ok pages' tss') as (pages' & us & tss' & -> & -> & Hok & Hoks').
    { inversion Hl as [? ? page' ? Hstep|? ? page' ? ? ? Hstep]; subst; apply Forall2_cons_inv_l in Hoks as (us & tss' & ? & ? & ->);
      rewrite Hlist in Hstep; injection Hstep as -> ->; eexists _, us, tss'; by split_and!. }
    destruct (Hz pages' tss') as [Hz1 Hz2]. specialize (Hz2 us). cbn [concat] in *. pose proof (Forall2_length _ _ _ (proj1 Hok)) as Hlen.
    assert (tools_size (all ++ us) ≤ il_totalBytes limits) as Ht.
    { pose proof (tools_size_grows (all ++ us) (concat tss')). rewrite <- app_assoc in *. lia. }
    replace (zlen (pg_Tools page) >? il_tools limits - zlen all) with false.
    2: { symmetry. rewrite Z.gtb_ltb. apply Z.ltb_ge. unfold zlen in *. rewrite length_app in *. lia. }
    assert (negb (pg_NextCursor page =? "")%string && bool_decide (pg_NextCursor page ∈ seen) = false) as ->.
    { destruct (String.eqb_spec (pg_NextCursor page) ""); [done|]. rewrite cursors_cons, decide_False in Hfresh by done.
      apply Forall_cons in Hfresh as [? _]. by apply bool_decide_eq_false. }
    rewrite (proj2 (page_done all page (us, tools_size us, tools_size (all ++ us)) Hall)) by eauto.
    inversion Hl as [? ? ? ? Hstep Hlast|? ? ? ? ? ? Hstep Hmore Hrest]; subst; rewrite Hlist in Hstep; injection Hstep as ->.
    + rewrite Hlast. cbn [String.eqb]. inversion Hoks'; subst. cbn [concat]. by rewrite app_nil_r.
    + apply String.eqb_neq in Hmore as Hm. rewrite Hm. apply IH; [lia|lia|done|]. rewrite cursors_cons, decide_False in Hnd, Hfresh by done.
      apply NoDup_cons in Hnd as [Hnin Hnd]. apply Forall_cons in Hfresh as [_ Hfresh]. rewrite Forall_forall in Hfresh.
      exists pages', tss'. rewrite <- app_assoc. split_and!; [done|done|lia|lia|done| |done|done].
      apply Forall_forall. intros x Hx Hin. apply elem_of_union in Hin as [->%elem_of_singleton|Hin]; [done|]. by apply (Hfresh x).
Qed.
End pages.

(** A client that counts the requests for pages. *)
Definition counted {C} `{CatalogClient C} : CatalogClient (C * Z) := {|
  cat_Start c := let '(c1, e) := cat_Start c.1 in ((c1, c.2), e);
  cat_Initialize c := let '(c1, e) := cat_Initialize c.1 in ((c1, c.2), e);
  cat_ListToolsByPage c cursor := let '(c1, r) := cat_ListToolsByPage c.1 cursor in ((c1, c.2 + 1), r);
  cat_Close c := (cat_Close c.1, c.2) |}.

Lemma pages_counted {C} `{CatalogClient C} limits f1 : ∀ f2 (c : C) n cursor all seen count total,
  (Z.to_nat (il_pages limits - count) < f1)%nat → (Z.to_nat (il_pages limits - count) < f2)%nat →
  let '(c1, r) := list_pages f1 limits c cursor all seen count total in
  ∃ m, list_pages (catalog := counted) f2 limits (c, n) cursor all seen count total = ((c1, m), r) ∧ n ≤ m ≤ n + Z.max 0 (il_pages limits - count).
Proof.
  induction f1 as [|f1 IH]; intros f2 c n cursor all seen count total Hf1 Hf2; [lia|]. destruct f2 as [|f2]; [lia|]. cbn [list_pages].
  destruct (Z.leb_spec (il_pages limits) count); [exists n; split; [done|lia]|]. cbn [cat_ListToolsByPage counted fst snd].
  destruct (cat_ListToolsByPage c cursor) as [c1 [[page|]|e]]; cycle 1; [exists (n + 1); split; [done|lia]..|].
  destruct (_ >? _); [exists (n + 1); split; [done|lia]|]. destruct (negb _ && _); [exists (n + 1); split; [done|lia]|].
  destruct (rfoldi _ _ _ _) as [[[us pb] tb]|e]; [|exists (n + 1); split; [done|lia]].
  destruct (String.eqb _ _); [exists (n + 1); split; [done|lia]|].
  specialize (IH f2 c1 (n + 1) (pg_NextCursor page) (all ++ us) ({[pg_NextCursor page]} ∪ seen) (count + 1) tb ltac:(lia) ltac:(lia)).
  destruct (list_pages f1 _ _ _ _ _ _ _) as [c2 r]. destruct IH as (m & -> & Hm). exists m. split; [done|lia].
Qed.

Lemma inventory_spec {C} `{CatalogClient C} name cfg (factory : string → MCPClientConfigV2 → result error (catalogConnection C)) limits
    (Hl : inventory_limits_ok limits) c' st :
  fetchToolsFromServerWithLimits name cfg factory limits = (Some c', Ok st) ↔
  ∃ connection c0 c1 c2 pages tss,
    factory name cfg = Ok connection ∧
    (if cn_needStart connection then cat_Start (cn_client connection) else (cn_client connection, None)) = (c0, None) ∧
    cat_Initialize c0 = (c1, None) ∧ listing c1 "" pages c2 ∧ c' = cat_Close c2 ∧
    zlen pages ≤ il_pages limits ∧ NoDup (cursors pages) ∧
    Forall2 (λ page ts, converted page ts ∧ tools_size ts ≤ il_pageBytes limits) pages tss ∧
    zlen (concat tss) ≤ il_tools limits ∧ tools_size (concat tss) ≤ il_totalBytes limits ∧ st = mkServerTools name (concat tss).
Proof.
  unfold fetchToolsFromServerWithLimits. destruct (factory name cfg) as [connection|e]; [|naive_solver].
  destruct (if cn_needStart connection then _ else _) as [c0 [e|]] eqn:Hstart.
  { split; [done|]. intros (? & ? & ? & ? & ? & ? & [= <-] & Hs & _). congruence. }
  destruct (cat_Initialize c0) as [c1 [e|]] eqn:Hinit.
  { split; [done|]. intros (? & ? & ? & ? & ? & ? & [= <-] & Hs & Hi & _). congruence. }
  pose proof (λ c' ts, list_pages_spec limits Hl (page_fuel limits) c1 "" [] ∅ 0 c' ts ltac:(unfold page_fuel; lia) ltac:(lia) ltac:(apply Hl)) as Hspec.
  change (tools_size []) with 2 in Hspec. destruct (list_pages _ _ _ _ _ _ _ _) as [c2 r]. split.
  - intros Hr. destruct r as [ts|e]; [|done]. cbn [rbind] in Hr. injection Hr as <- <-.
    destruct (proj1 (Hspec c2 ts) eq_refl) as (pages & tss & ? & ? & ? & ? & ? & ? & ? & ->). by exists connection, c0, c1, c2, pages, tss.
  - intros (? & ? & ? & c2' & pages & tss & [= <-] & Hs & Hi & Hlist & -> & Hp & Hnd & Hoks & Ht & Hsz & ->).
    assert ((c2, r) = (c2', Ok (concat tss))) as [= -> ->]; [|done]. apply Hspec. exists pages, tss.
    rewrite Hstart in Hs. injection Hs as <-. rewrite Hinit in Hi. injection Hi as <-.
    split_and!; try done. apply Forall_forall. set_solver.
Qed.

(** The servers of a configuration, each with its complete inventory. *)
Lemma fetched_all {C} `{CatalogClient C} Getenv (factory : string → MCPClientConfigV2 → result error (catalogConnection C)) servers names done_ all :
  rfold (fetch_server Getenv factory servers) done_ names = Ok all ↔
  ∃ fetched, all = done_ ++ fetched ∧
    Forall2 (λ name s, ∃ cfg c, servers !! name = Some (Some cfg) ∧
      fetchToolsFromServer name (expandProviderConfig Getenv cfg) factory = (Some c, Ok s)) names fetched.
Proof.
  apply rfold_collect. intros ys name r. unfold fetch_server. split.
  - destruct (servers !! name) as [[cfg|]|] eqn:E; [|done..].
    destruct (fetchToolsFromServer name _ factory) as [[c|] [s|e]] eqn:Ef; [by intros [= <-]; exists s; split; [|exists cfg, c]|done| |done].
    exfalso. revert Ef. unfold fetchToolsFromServer, fetchToolsFromServerWithLimits.
    destruct (factory _ _); [|done]. destruct (if cn_needStart _ then _ else _) as [? [|]]; [done|]. destruct (cat_Initialize _) as [? [|]]; [done|].
    by destruct (list_pages _ _ _ _ _ _ _ _).
  - intros (s & -> & cfg & c & -> & Hf). by rewrite Hf.
Qed.

(** ** Properties *)

(** C28. The inventory of a provider is all of its tools or an error. It
    succeeds exactly when the client is made, started and initialised, and
    following its cursors to the end takes no more pages than the limit, with
    no cursor given twice, every tool converts, and neither the number of the
    tools nor the JSON of a page or of the whole exceeds its limit; and then
    the tools are those of the pages in order and the client is closed. The
    sums of the sizes wrap around in the code; within the limits they do not. *)
Theorem inventory_exact {C} `{CatalogClient C} name cfg (factory : string → MCPClientConfigV2 → result error (catalogConnection C)) limits
    (Hl : inventory_limits_ok limits) c' st :
  fetchToolsFromServerWithLimits name cfg factory limits = (Some c', Ok st) ↔
  ∃ connection c0 c1 c2 pages tss,
    factory name cfg = Ok connection ∧
    (if cn_needStart connection then cat_Start (cn_client connection) else (cn_client connection, None)) = (c0, None) ∧
    cat_Initialize c0 = (c1, None) ∧ listing c1 "" pages c2 ∧ c' = cat_Close c2 ∧
    zlen pages ≤ il_pages limits ∧ NoDup (cursors pages) ∧
    Forall2 (λ page ts, converted page ts ∧ tools_size ts ≤ il_pageBytes limits) pages tss ∧
    zlen (concat tss) ≤ il_tools limits ∧ tools_size (concat tss) ≤ il_totalBytes limits ∧ st = mkServerTools name (concat tss).
Proof. by apply inventory_spec. Qed.

(** C29. However a provider answers, and even if its cursors never end, taking
    its inventory ends: no more pages are asked for than the limit, and with
    any more fuel for the loop the outcome is the same. *)
Theorem inventory_terminates {C} `{CatalogClient C} limits fuel (c : C) : (page_fuel limits ≤ fuel)%nat →
  let '(c1, r) := list_pages (page_fuel limits) limits c "" [] ∅ 0 2 in
  ∃ m, list_pages (catalog := counted) fuel limits (c, 0) "" [] ∅ 0 2 = ((c1, m), r) ∧ 0 ≤ m ≤ Z.max 0 (il_pages limits).
Proof.
  intros Hf. pose proof (pages_counted limits (page_fuel limits) fuel c 0 "" [] ∅ 0 2) as Hp. unfold page_fuel in *.
  specialize (Hp ltac:(lia) ltac:(lia)). destruct (list_pages _ _ _ _ _ _ _ _) as [c1 r]. by rewrite Z.sub_0_r in Hp.
Qed.
End inventory.

(** ** Witnesses *)

Definition demo_tools : McpTools := {|
  mcpTool := unit; mcpTool_Name _ := ""; UnmarshalTool _ := Some tt; ValidateParamHeaderAnnotations _ := None |}.

(** A provider of two pages. *)
Definition demo_tool (name : string) : bytes := requote ("{'name':'" +:+ name +:+ "','inputSchema':{'type':'object'},'annotations':{'title':'T'}}").
Definition demo_catalog : CatalogClient nat := {|
  cat_Start c := (c, None);
  cat_Initialize c := (c, None);
  cat_ListToolsByPage c cursor :=
    (S c, Ok (Some (if String.eqb cursor "" then mkPage "next" [demo_tool "a"; demo_tool "b"] else mkPage "" [demo_tool "c"])));
  cat_Close c := c |}.
(** A provider whose cursors never end. *)
Definition endless_catalog : CatalogClient nat := {|
  cat_Start c := (c, None);
  cat_Initialize c := (c, None);
  cat_ListToolsByPage c _ := (S c, Ok (Some (mkPage (FormatInt (Z.of_nat c)) [])));
  cat_Close c := c |}.
Definition demo_config : MCPClientConfigV2 := mkClientConfig "stdio" "server" [] ∅ "" ∅ 0 None.
Definition demo_factory (_ : string) (_ : MCPClientConfigV2) : result error (catalogConnection nat) := Ok (mkConnection O true).
Definition demo_servertools : ServerTools :=
  mkServerTools "notes" (map (λ n, mkGenTool n "T" "" {["type" := JStr "object"]} ∅ {["title" := JStr "T"]}) ["a"; "b"; "c"]).

Example pages_fetched :
  fetchToolsFromServer (mcp := demo_tools) (catalog := demo_catalog) "notes" demo_config demo_factory = (Some 2%nat, Ok demo_servertools).
Proof. vm_compute. reflexivity. Qed.

Example page_decoded : UnmarshalJSON (requote "{'nextCursor':'n','tools':[ {'name':'a'} ,{'name':'b'}]}") =
  Ok (mkPage "n" [requote "{'name':'a'}"; requote "{'name':'b'}"]).
Proof. by vm_compute. Qed.

Example environment_expanded :
  ExpandEnv (λ n, if String.eqb n "HOME" then "/root" else "") "${HOME}/x$HOME.d$ ${A" = "/root/x/root.d$ A".
Proof. by vm_compute. Qed.

Lemma inventory_exact_witness : inventory_limits_ok defaultInventoryLimits ∧
  ∃ pages tss, @listing nat demo_catalog 0%nat "" pages 2%nat ∧ demo_servertools = mkServerTools "notes" (concat tss).
Proof.
  assert (inventory_limits_ok defaultInventoryLimits) as Hl by (split; vm_compute; split_and?; discriminate).
  split; [exact Hl|].
  destruct (proj1 (@inventory_exact demo_tools nat demo_catalog "notes" demo_config demo_factory _ Hl 2%nat demo_servertools) ltac:(vm_compute; reflexivity))
    as (connection & c0 & c1 & c2 & pages & tss & Hf & Hs & Hi & Hlist & Hc & _ & _ & _ & _ & _ & Hst).
  injection Hf as <-. injection Hs as <-. injection Hi as <-. exists pages, tss. by rewrite Hc.
Defined.

Lemma inventory_terminates_witness :
  ∃ m, (@list_pages demo_tools (nat * Z) (@counted nat endless_catalog) 300 defaultInventoryLimits (1%nat, 0) "" [] ∅ 0 2).1 = (129%nat, m) ∧ m ≤ 128.
Proof.
  pose proof (@inventory_terminates demo_tools nat endless_catalog defaultInventoryLimits 300 1%nat ltac:(apply Nat.leb_le; vm_compute; reflexivity)) as Ht.
  destruct (list_pages _ _ _ _ _ _ _ _) as [c1 r] eqn:E. destruct Ht as (m & -> & Hm). exists m. split; [|exact (proj2 Hm)].
  vm_compute in E. injection E as <- _. reflexivity.
Defined.
