(* ===== verification/Regenerate.v ===== *)
(** * Regenerating a hierarchy

    Models [Regenerate], [RegenerateDirectory] and [countTotalTools] of
    [structure_generator/generator.go]: the overviews of a hierarchy rebuilt
    bottom-up from the files below them. A directory is a list of entries as
    [os.ReadDir] gives them; the files written are recorded in order, and
    [create] is the error that creating a file gives where the operating
    system refuses it. *)
From Stdlib Require Import Ascii String.
From S2P Require Import Prelude GoStrings Limits Regex Utf8 Text Json JsonScan JsonStruct JsonRound Records Hierarchy Generator Generated.
Local Open Scope string_scope.
Local Open Scope list_scope.
Local Open Scope Z_scope.

(** ** Nodes read back *)

Definition definition_members (c : NodeTool) (ms : list (string * json)) : option NodeTool :=
  title ← into_field into_string "title" (nt_Title c) ms;
  description ← into_field into_string "description" (nt_Description c) ms;
  mapsTo ← into_field into_string "maps_to" (nt_MapsTo c) ms;
  server ← into_field into_string "server" (nt_Server c) ms;
  input ← into_field (into_map Some) "inputSchema" (nt_InputSchema c) ms;
  output ← into_field (into_map Some) "outputSchema" (nt_OutputSchema c) ms;
  annotations ← into_field (into_map Some) "annotations" (nt_Annotations c) ms;
  Some (mkNodeTool title description mapsTo server input output annotations).
Definition zero_definition : NodeTool := mkNodeTool "" "" "" "" ∅ ∅ ∅.
Definition tool_node_members (c : ToolNode) (ms : list (string * json)) : option ToolNode :=
  path ← into_field into_string "path" (tn_Path c) ms;
  overview ← into_field into_string "overview" (tn_Overview c) ms;
  tools ← into_field (into_map (into_struct definition_members zero_definition)) "tools" (tn_Tools c) ms;
  Some (mkToolNode path overview tools).
(** [json.Unmarshal] into a [ToolNode]. *)
Definition decode_tool_node (data : bytes) : option ToolNode :=
  v ← parse data; into_struct tool_node_members (mkToolNode "" "" ∅) v.

(** ** Directories *)

Fixpoint entry_of (name : string) (entries : list (string * tree)) : option tree :=
  match entries with
  | [] => None
  | (n, t) :: entries => if String.eqb n name then Some t else entry_of name entries
  end.
(** The entry of a name written, in the order of names. *)
Fixpoint set_entry (name : string) (t : tree) (entries : list (string * tree)) : list (string * tree) :=
  match entries with
  | [] => [(name, t)]
  | (n, t0) :: entries =>
      if String.eqb n name then (name, t) :: entries
      else if str_lt name n && match entry_of name entries with None => true | Some _ => false end then (name, t) :: (n, t0) :: entries
      else (n, t0) :: set_entry name t entries
  end.
Definition is_dir (t : tree) : bool := match t with TFile _ => false | _ => true end.

(** [os.ReadFile] of a file of a directory. *)
Definition read_entry (name : string) (entries : list (string * tree)) : option bytes :=
  match entry_of name entries with Some (TFile (Ok data)) => Some data | _ => None end.
Definition read_node (name : string) (entries : list (string * tree)) : option ToolNode :=
  data ← read_entry name entries; decode_tool_node data.

(** ** Counting *)

Fixpoint countTotalTools (dirName : string) (t : tree) : Z :=
  match t with
  | TDir entries =>
      (fix count (entries : list (string * tree)) : Z :=
         match entries with
         | [] => 0
         | (name, t) :: entries =>
             match t with
             | TFile data =>
                 if negb (HasSuffix name ".json") || String.eqb name (dirName +:+ ".json") then 0
                 else match data with
                      | Ok data => match decode_tool_node data with Some node => Z.of_nat (size (tn_Tools node)) | None => 0 end
                      | Err _ => 0
                      end
             | TDir sub =>
                 match read_node (name +:+ ".json") sub with
                 | Some node => if negb (Nat.eqb (size (tn_Tools node)) 0) then Z.of_nat (size (tn_Tools node)) else countTotalTools name t
                 | None => 0
                 end
             | TUnreadable _ => 0
             end + count entries
         end) entries
  | _ => 0
  end.

(** The files written, each with its path and node. *)
Abbreviation writes := (list (list string * ToolNode)).

Section regenerate.
(** The tool that ranging over a map visits first, and the error of creating
    a file. *)
Context (first : gmap string NodeTool → option NodeTool) (create : list string → option error).

(** ** One directory *)

(** The node that an entry of the directory has as a child. *)
Definition child_node (nodeName : string) (e : string * tree) : option (string * ToolNode) :=
  match e.2 with
  | TDir sub => node ← read_node (e.1 +:+ ".json") sub; Some (e.1, node)
  | TFile data =>
      if negb (HasSuffix e.1 ".json") || String.eqb e.1 (nodeName +:+ ".json") then None
      else match data with
           | Ok data => node ← decode_tool_node data; Some (TrimSuffix e.1 ".json", node)
           | Err _ => None
           end
  | TUnreadable _ => None
  end.

(** One turn of the loop: the summaries of the children and their tools. *)
Definition add_child (nodeName : string) (s : list string * Z) (e : string * tree) : list string * Z :=
  match child_node nodeName e with
  | None => s
  | Some (childName, node) =>
      if negb (Nat.eqb (size (tn_Tools node)) 0) then
        let brief := match first (tn_Tools node) with Some tool => extractBriefDescription (nt_Description tool) | None => "" end in
        (s.1 ++ [childName +:+ " -> " +:+ brief], s.2 + Z.of_nat (size (tn_Tools node)))
      else if is_dir e.2 then
        (s.1 ++ [childName +:+ " -> " +:+ extractBriefDescription (tn_Overview node)], s.2 + countTotalTools childName e.2)
      else s
  end.

Definition generated_overview (nodeName : string) (entries : list (string * tree)) : string :=
  let '(childSummaries, totalTools) := foldl (add_child nodeName) ([], 0) entries in
  match childSummaries with
  | [] => nodeName +:+ " with no items"
  | _ => if totalTools >? 0 then nodeName +:+ ": " +:+ FormatInt totalTools +:+ " tools; " +:+ joinWithCommas childSummaries
         else nodeName +:+ ": " +:+ joinWithCommas childSummaries
  end.

(** Whether an overview looks like one that was generated. *)
Definition isAutoGenerated (overview : string) : bool :=
  Contains overview ":" && (Contains overview "tools;" || Contains overview "with").

Definition final_overview (existing : option ToolNode) (generated : string) : string :=
  match existing with
  | Some node =>
      if negb (String.eqb (tn_Overview node) "") && negb (String.eqb (tn_Overview node) generated)
      then if negb (isAutoGenerated (tn_Overview node)) then tn_Overview node else generated
      else generated
  | None => generated
  end.

(** ** Writing *)

Definition is_a_directory : error := Sentinel "is a directory".

Definition write_node (dirs : list string) (name : string) (node : ToolNode) (entries : list (string * tree)) :
    list (string * tree) * writes * option error :=
  let failed e := (entries, [], Some (Wrapf "failed to create file: %w" [] e)) in
  match entry_of name entries, create (dirs ++ [name]) with
  | Some (TDir _), _ | Some (TUnreadable _), _ => failed is_a_directory
  | _, Some e => failed e
  | _, None => (set_entry name (TFile (Ok (writeNodeToJSON node))) entries, [(dirs ++ [name], node)], None)
  end.

(** ** The recursion *)

(** The loop over the entries that are directories, until one fails. *)
Definition each_dir (f : string → tree → tree * writes * option error) (wrap : string → error → error) :
    list (string * tree) → list (string * tree) * writes * option error :=
  fix loop entries :=
    match entries with
    | [] => ([], [], None)
    | (name, t) :: entries =>
        match t with
        | TFile _ => let '(entries, ws, err) := loop entries in ((name, t) :: entries, ws, err)
        | _ =>
            let '(t, ws, err) := f name t in
            match err with
            | Some e => ((name, t) :: entries, ws, Some (wrap name e))
            | None => let '(entries, ws', err) := loop entries in ((name, t) :: entries, ws ++ ws', err)
            end
        end
    end.

(** The node of a directory, once the directories in it are done. *)
Definition finish_directory (dirs : list string) (nodeName : string) (entries : list (string * tree)) :
    list (string * tree) * writes * option error :=
  let existing := read_node (nodeName +:+ ".json") entries in
  if match existing with Some node => negb (Nat.eqb (size (tn_Tools node)) 0) | None => false end then (entries, [], None)
  else write_node dirs (nodeName +:+ ".json")
         (mkToolNode nodeName (final_overview existing (generated_overview nodeName entries)) ∅) entries.

Definition then_finish (finish : list (string * tree) → list (string * tree) * writes * option error)
    (r : list (string * tree) * writes * option error) : tree * writes * option error :=
  let '(entries, ws, err) := r in
  match err with
  | Some e => (TDir entries, ws, Some e)
  | None => let '(entries, ws', err) := finish entries in (TDir entries, ws ++ ws', err)
  end.

Fixpoint RegenerateDirectory (dirs : list string) (nodeName : string) (t : tree) : tree * writes * option error :=
  match t with
  | TFile _ => (t, [], Some (Wrapf "failed to read directory: %w" [] (Sentinel "not a directory")))
  | TUnreadable e => (t, [], Some (Wrapf "failed to read directory: %w" [] e))
  | TDir entries =>
      then_finish (finish_directory dirs nodeName)
        (each_dir (λ name t, RegenerateDirectory (dirs ++ [name]) name t) (λ name, Wrapf "failed to regenerate subdirectory %s: %w" [FStr name]) entries)
  end.

(** ** The root *)

Definition add_server (s : list string * Z) (e : string * tree) : list string * Z :=
  match e.2 with
  | TDir sub =>
      match read_node (e.1 +:+ ".json") sub with
      | Some node => (s.1 ++ [e.1 +:+ " -> " +:+ extractBriefDescription (tn_Overview node)], s.2 + countTotalTools e.1 e.2)
      | None => s
      end
  | _ => s
  end.
Definition root_overview (entries : list (string * tree)) : string :=
  let '(childSummaries, totalTools) := foldl add_server ([], 0) entries in
  match childSummaries with
  | [] => "Tappet hierarchical tool index. Use get_tools_in_category to explore categories and execute_tool to run tools."
  | _ => "Root: " +:+ FormatInt (zlen childSummaries) +:+ " servers, " +:+ FormatInt totalTools +:+ " tools; " +:+ joinWithCommas childSummaries
  end.
Definition finish_root (entries : list (string * tree)) : list (string * tree) * writes * option error :=
  write_node [] "root.json" (mkToolNode "root" (root_overview entries) ∅) entries.

Definition Regenerate (t : tree) : tree * writes * option error :=
  match t with
  | TFile _ => (t, [], Some (Wrapf "failed to read output directory: %w" [] (Sentinel "not a directory")))
  | TUnreadable e => (t, [], Some (Wrapf "failed to read output directory: %w" [] e))
  | TDir entries =>
      then_finish finish_root
        (each_dir (λ name t, RegenerateDirectory [name] name t) (λ name, Wrapf "failed to regenerate directory %s: %w" [FStr name]) entries)
  end.
End regenerate.

(** ** Specification *)

(** What a file of a hierarchy reads as, and the node in it. *)
Fixpoint file_at (path : list string) (t : tree) : option (result error bytes) :=
  match path, t with
  | [], TFile d => Some d
  | n :: path, TDir es => t ← entry_of n es; file_at path t
  | _, _ => None
  end.
Definition node_at (path : list string) (t : tree) : option ToolNode :=
  match file_at path t with Some (Ok data) => decode_tool_node data | _ => None end.

(** No two entries of a directory have the same name. *)
Fixpoint distinct_names (t : tree) : Prop :=
  match t with
  | TDir es => NoDup es.*1 ∧ foldr (λ e P, distinct_names e.2 ∧ P) True es
  | _ => True
  end.

(** A node written at [p]: the index of the root, or the index of a directory
    that was no leaf, with the overview its author gave it. *)
Definition index_written (p : list string) (n : ToolNode) (old : option ToolNode) : Prop :=
  p = ["root.json"] ∨
  (∃ dirs d, p = dirs ++ [d; d +:+ ".json"]) ∧
  match old with
  | Some old => tn_Tools old = ∅ ∧ (tn_Overview old ≠ "" → isAutoGenerated (tn_Overview old) = false → tn_Overview n = tn_Overview old)
  | None => True
  end.

(** ** Lemmas: entries *)

Lemma tree_nested_ind (P : tree → Prop) :
  (∀ d, P (TFile d)) → (∀ e, P (TUnreadable e)) → (∀ es, Forall (λ e, P e.2) es → P (TDir es)) → ∀ t, P t.
Proof.
  intros Hf Hu Hd. refine (fix go t := match t with TFile d => Hf d | TUnreadable e => Hu e | TDir es => Hd es _ end).
  exact ((fix each es : Forall (λ e, P e.2) es :=
    match es with [] => Forall_nil_2 _ | e :: es => Forall_cons_2 _ _ _ (go e.2) (each es) end) es).
Qed.

Lemma entry_set_same n t es : entry_of n (set_entry n t es) = Some t.
Proof.
  induction es as [|[m t0] es IH]; cbn; [by rewrite String.eqb_refl|]. destruct (String.eqb_spec m n) as [->|Hne]; cbn.
  - by rewrite String.eqb_refl.
  - destruct (str_lt n m && _); cbn; [by rewrite String.eqb_refl|]. apply String.eqb_neq in Hne. by rewrite Hne.
Qed.
Lemma entry_set_other n m t es : n ≠ m → entry_of m (set_entry n t es) = entry_of m es.
Proof.
  intros Hne%String.eqb_neq. induction es as [|[k t0] es IH]; cbn; [by rewrite Hne|]. destruct (String.eqb_spec k n) as [->|Hk]; cbn.
  - by rewrite Hne.
  - destruct (str_lt n k && _); cbn; [by rewrite Hne|]. by rewrite IH.
Qed.
Lemma set_set n t t' es : set_entry n t (set_entry n t' es) = set_entry n t es.
Proof.
  induction es as [|[m t0] es IH]; cbn; [by rewrite String.eqb_refl|]. destruct (String.eqb_spec m n) as [->|Hne]; cbn.
  - by rewrite String.eqb_refl.
  - destruct (str_lt n m && _) eqn:E; cbn; [by rewrite String.eqb_refl|]. apply String.eqb_neq in Hne.
    by rewrite Hne, IH, entry_set_same, andb_false_r.
Qed.

(** No directory has the name. *)
Definition file_name (n : string) (es : list (string * tree)) : Prop := match entry_of n es with Some t => is_dir t = false | None => True end.

(** Writing a file is invisible to a loop that passes over it. *)
Lemma foldl_set {A} (step : A → string * tree → A) n d es : ∀ s,
  file_name n es → (∀ s d, step s (n, TFile d) = s) → foldl step s (set_entry n (TFile d) es) = foldl step s es.
Proof.
  induction es as [|[m t] es IH]; intros s Hn Hs; cbn; [apply Hs|]. unfold file_name in *. cbn in Hn. destruct (String.eqb_spec m n) as [->|Hne].
  - destruct t; [|done|done]. cbn. by rewrite !Hs.
  - destruct (str_lt n m && _); cbn; [by rewrite Hs|]. by apply IH.
Qed.

Section regenerated.
Context (first : gmap string NodeTool → option NodeTool) (create : list string → option error).

Lemma each_dir_file f wrap n d es :
  each_dir f wrap ((n, TFile d) :: es) = let '(entries, ws, err) := each_dir f wrap es in ((n, TFile d) :: entries, ws, err).
Proof. done. Qed.

Lemma each_dir_set f wrap n d es : ∀ ws,
  file_name n es → each_dir f wrap es = (es, ws, None) →
  each_dir f wrap (set_entry n (TFile d) es) = (set_entry n (TFile d) es, ws, None).
Proof.
  unfold file_name. induction es as [|[m t] es IH]; intros ws Hn He; cbn [set_entry]; [cbn in He |- *; congruence|]. cbn [entry_of] in Hn.
  destruct (String.eqb_spec m n) as [->|Hne].
  - destruct t; [|done|done]. cbn in He |- *. destruct (each_dir f wrap es) as [[es' ws'] err']. congruence.
  - destruct (str_lt n m && _).
    + by rewrite each_dir_file, He.
    + cbn [each_dir] in He |- *. fold (each_dir f wrap) in He |- *. destruct t as [x|es0|x]; [destruct (each_dir f wrap es) as [[es' ws'] err'] eqn:E; simplify_eq; by rewrite (IH _ Hn eq_refl)|..];
        destruct (f m _) as [[t1 ws1] [e|]]; try done; destruct (each_dir f wrap es) as [[es' ws'] err'] eqn:E; simplify_eq;
        by rewrite (IH _ Hn eq_refl).
Qed.

Definition valid_writes (ws : writes) : Prop := Forall (λ w, ValidString (tn_Overview w.2) = true) ws.

Lemma each_dir_again f wrap es : ∀ es1 ws,
  (∀ n t t1 ws, is_dir t = true → f n t = (t1, ws, None) → is_dir t1 = true) →
  Forall (λ e, ∀ n t1 ws, f n e.2 = (t1, ws, None) → valid_writes ws → f n t1 = (t1, ws, None)) es →
  each_dir f wrap es = (es1, ws, None) → valid_writes ws → each_dir f wrap es1 = (es1, ws, None).
Proof.
  intros es1 ws Hd Hall. revert es1 ws. induction Hall as [|[n t] es Hf Hall IH]; intros es1 ws; cbn [each_dir]; fold (each_dir f wrap).
  { by intros [= <- <-]. }
  destruct (each_dir f wrap es) as [[es' ws'] err'] eqn:E. cbn [snd] in Hf. destruct t as [x|es0|x].
  { intros [= <- <- ->] Hv. cbn [each_dir]. fold (each_dir f wrap). by rewrite (IH _ _ eq_refl Hv). }
  all: destruct (f n _) as [[t1 ws1] [e|]] eqn:E1; [done|]; intros [= <- <- ->] [Hv1 Hv]%Forall_app; assert (is_dir t1 = true) by (eapply Hd; [|exact E1]; done);
    cbn [each_dir]; fold (each_dir f wrap); destruct t1; [done|..]; by rewrite (Hf _ _ _ E1 Hv1), (IH _ _ eq_refl Hv).
Qed.

(** ** Lemmas: nodes *)

Lemma decode_index path o : decode_tool_node (writeNodeToJSON (mkToolNode path o ∅)) = Some (mkToolNode "" (clean o) ∅).
Proof.
  assert (carried_node (mkToolNode path o ∅)) as Hc by apply map_Forall_empty.
  destruct (node_carried _ Hc) as (Hn & Hd & E). unfold decode_tool_node, writeNodeToJSON. rewrite encoded_cleans, E by done.
  unfold MarshalJSON, omit_string, omit_object, clean_node. cbn [tn_Overview tn_Tools]. rewrite fmap_empty, decide_True by done.
  generalize (clean o). intros c. destruct (String.eqb_spec c "") as [->|]; by vm_compute.
Qed.
Lemma decode_written path o : ValidString o = true →
  decode_tool_node (writeNodeToJSON (mkToolNode path o ∅)) = Some (mkToolNode "" o ∅).
Proof. intros Ho. by rewrite decode_index, clean_valid. Qed.

Lemma read_set_node n path o es : ValidString o = true →
  read_node n (set_entry n (TFile (Ok (writeNodeToJSON (mkToolNode path o ∅)))) es) = Some (mkToolNode "" o ∅).
Proof. intros Ho. unfold read_node, read_entry. rewrite entry_set_same. cbn. by apply (decode_written path). Qed.

Lemma child_self nodeName d : child_node nodeName (nodeName +:+ ".json", TFile d) = None.
Proof. unfold child_node. cbn [fst snd]. rewrite String.eqb_refl, orb_true_r. done. Qed.

Lemma overview_set name d es : file_name (name +:+ ".json") es →
  generated_overview first name (set_entry (name +:+ ".json") (TFile d) es) = generated_overview first name es.
Proof.
  intros Hn. unfold generated_overview. rewrite foldl_set; [done|done|]. intros s d'. unfold add_child. by rewrite child_self.
Qed.

(** ** Lemmas: writing a node *)

Lemma write_node_ok dirs name node es es' ws : write_node create dirs name node es = (es', ws, None) →
  file_name name es ∧ create (dirs ++ [name]) = None ∧ es' = set_entry name (TFile (Ok (writeNodeToJSON node))) es ∧ ws = [(dirs ++ [name], node)].
Proof.
  unfold write_node, file_name. destruct (entry_of name es) as [[]|], (create _) eqn:E; try done; by intros [= <- <-].
Qed.
Lemma write_node_again dirs name node d es : create (dirs ++ [name]) = None →
  write_node create dirs name node (set_entry name (TFile d) es) =
    (set_entry name (TFile (Ok (writeNodeToJSON node))) es, [(dirs ++ [name], node)], None).
Proof. intros Hc. unfold write_node. by rewrite entry_set_same, Hc, set_set. Qed.

Lemma final_again existing g : final_overview (Some (mkToolNode "" (final_overview existing g) ∅)) g = final_overview existing g.
Proof.
  unfold final_overview. cbn [tn_Overview]. destruct existing as [node|]; [|by rewrite String.eqb_refl, andb_false_r].
  destruct (negb (tn_Overview node =? "")%string && negb (tn_Overview node =? g)%string) eqn:E; [|by rewrite String.eqb_refl, andb_false_r].
  destruct (isAutoGenerated (tn_Overview node)) eqn:A; cbn [negb]; [by rewrite String.eqb_refl, andb_false_r|].
  by rewrite E, A.
Qed.

(** Finishing a directory once more changes nothing. *)
Lemma finish_again dirs name f wrap es es' ws ws' :
  each_dir f wrap es = (es, ws, None) → finish_directory first create dirs name es = (es', ws', None) → valid_writes ws' →
  each_dir f wrap es' = (es', ws, None) ∧ finish_directory first create dirs name es' = (es', ws', None).
Proof.
  intros He Hf Hv. unfold finish_directory in Hf. destruct (match read_node _ es with Some _ => _ | None => false end) eqn:Hleaf.
  { injection Hf as <- <-. split; [done|]. unfold finish_directory. by rewrite Hleaf. }
  apply write_node_ok in Hf as (Hn & Hc & -> & ->). split; [by apply each_dir_set|].
  unfold valid_writes in Hv. rewrite Forall_singleton in Hv. cbn [snd tn_Overview] in Hv. unfold finish_directory. rewrite read_set_node by done. cbn [tn_Tools]. rewrite map_size_empty.
  cbn [Nat.eqb negb]. rewrite overview_set, final_again by done. by apply write_node_again.
Qed.

Lemma regenerated_dir dirs name t t1 ws : RegenerateDirectory first create dirs name t = (t1, ws, None) → is_dir t1 = true.
Proof.
  destruct t as [|es|]; [done| |done]. cbn [RegenerateDirectory]. destruct (each_dir _ _ es) as [[es1 ws1] [e|]]; [done|]. cbn [then_finish].
  destruct (finish_directory _ _ _ _ _) as [[es2 ws2] err]. by intros [= <- _ _].
Qed.

(** Regenerating what was just regenerated changes nothing. *)
Lemma again {finish each es t1 ws} : 
  (∀ es1 ws1, each es = (es1, ws1, None) → valid_writes ws1 → each es1 = (es1, ws1, None)) →
  (∀ es1 es2 ws1 ws2, each es1 = (es1, ws1, None) → finish es1 = (es2, ws2, None) → valid_writes ws2 →
     each es2 = (es2, ws1, None) ∧ finish es2 = (es2, ws2, None)) →
  then_finish finish (each es) = (t1, ws, None) → valid_writes ws →
  ∃ es1, t1 = TDir es1 ∧ then_finish finish (each es1) = (t1, ws, None).
Proof.
  intros Heach Hfinish. unfold then_finish at 1. destruct (each es) as [[es1 ws1] [e|]]; [done|].
  destruct (finish es1) as [[es2 ws2] err] eqn:Hf. intros [= <- <- ->] [Hv1 Hv2]%Forall_app.
  destruct (Hfinish es1 es2 ws1 ws2 (Heach es1 ws1 eq_refl Hv1) Hf Hv2) as [He Hf2]. exists es2. split; [done|].
  unfold then_finish. by rewrite He, Hf2.
Qed.

Lemma directory_again t : ∀ dirs name t1 ws,
  RegenerateDirectory first create dirs name t = (t1, ws, None) → valid_writes ws → RegenerateDirectory first create dirs name t1 = (t1, ws, None).
Proof.
  induction t as [d|e|es IH] using tree_nested_ind; intros dirs name t1 ws; [done|done|]. cbn [RegenerateDirectory]. intros Ht Hv.
  eapply again in Ht as (es1 & -> & Ht); [done| | |done].
  - intros es1 ws1. apply each_dir_again; [intros; by eapply regenerated_dir|]. eapply Forall_impl; [exact IH|]. intros e He n. apply He.
  - intros es1 es2 ws1 ws2. apply finish_again.
Qed.

Lemma finish_root_again f wrap es es' ws ws' :
  each_dir f wrap es = (es, ws, None) → finish_root create es = (es', ws', None) →
  each_dir f wrap es' = (es', ws, None) ∧ finish_root create es' = (es', ws', None).
Proof.
  intros He Hf. unfold finish_root in Hf. apply write_node_ok in Hf as (Hn & Hc & -> & ->). split; [by apply each_dir_set|].
  unfold finish_root, root_overview. rewrite foldl_set; [|done|done]. by apply write_node_again.
Qed.

(** ** Lemmas: what is written *)

(** Below [dirs], what is not written is kept, and what is written is an
    index; the paths written have at least [k] parts. *)
Definition kept_below (k : nat) (dirs : list string) (t t' : tree) (ws : writes) : Prop :=
  (∀ q, dirs ++ q ∉ ws.*1 → file_at q t' = file_at q t) ∧
  ∀ p n, (p, n) ∈ ws → ∃ q, p = dirs ++ q ∧ (k ≤ length q)%nat ∧ file_at q t' = Some (Ok (writeNodeToJSON n)) ∧ tn_Tools n = ∅ ∧
    index_written p n (node_at q t).

Lemma kept_refl k dirs t : kept_below k dirs t t [].
Proof. split; [done|]. by intros p n Hn%elem_of_nil. Qed.

Lemma kept_weaken dirs t t' ws : kept_below 2 dirs t t' ws → kept_below 1 dirs t t' ws.
Proof. intros [Hk Hw]. split; [done|]. intros p n Hx. apply Hw in Hx as (q & E & Hl & Hx). exists q. split; [done|]. split; [lia|done]. Qed.

Lemma entry_elem n es t : entry_of n es = Some t → n ∈ es.*1.
Proof.
  induction es as [|[m t0] es IH]; [done|]. cbn. destruct (String.eqb_spec m n) as [->|]; [by left|]. intros Hn. right. by apply IH.
Qed.

Lemma kept_cons dirs n t t1 ws1 es es' ws :
  kept_below 1 (dirs ++ [n]) t t1 ws1 → kept_below 2 dirs (TDir es) (TDir es') ws → n ∉ es'.*1 →
  kept_below 2 dirs (TDir ((n, t) :: es)) (TDir ((n, t1) :: es')) (ws1 ++ ws).
Proof.
  intros [Hk1 Hw1] [Hk Hw] Hn. split.
  - intros [|m q] Hq; [done|]. rewrite fmap_app, not_elem_of_app in Hq. destruct Hq as [Hq1 Hq]. cbn [file_at entry_of].
    destruct (String.eqb_spec n m) as [->|]; [|by apply (Hk (m :: q))]. cbn. apply Hk1. by rewrite <- app_assoc.
  - intros p x [Hx|Hx]%elem_of_app.
    + apply Hw1 in Hx as (q & -> & Hl & Hf & Ht & Hi). exists (n :: q). rewrite <- app_assoc in *. cbn [length file_at entry_of app].
      rewrite String.eqb_refl. cbn [mbind option_bind]. split_and!; [done|lia|done|done|]. unfold node_at in *. cbn [file_at entry_of]. by rewrite String.eqb_refl.
    + apply Hw in Hx as (q & -> & Hl & Hf & Ht & Hi). exists q. destruct q as [|m q]; [done|].
      assert (n ≠ m) as Hne%String.eqb_neq.
      { intros ->. cbn [file_at] in Hf. destruct (entry_of m es') eqn:E; [|done]. by apply entry_elem in E. }
      split_and!; [done|done| |done|].
      * cbn [file_at entry_of]. by rewrite Hne.
      * unfold node_at in *. cbn [file_at entry_of]. by rewrite Hne.
Qed.

Lemma each_dir_names f wrap es : (each_dir f wrap es).1.1.*1 = es.*1.
Proof.
  induction es as [|[n t] es IH]; [done|]. cbn [each_dir]. fold (each_dir f wrap). destruct t as [x|es0|x].
  { destruct (each_dir f wrap es) as [[es' ws] err]. cbn in *. by f_equal. }
  all: destruct (f n _) as [[t1 ws1] [e|]]; [done|]; destruct (each_dir f wrap es) as [[es' ws] err]; cbn in *; by f_equal.
Qed.

Lemma each_dir_kept f wrap dirs es :
  NoDup es.*1 → Forall (λ e, is_dir e.2 = true → ∀ t1 ws err, f e.1 e.2 = (t1, ws, err) → kept_below 1 (dirs ++ [e.1]) e.2 t1 ws) es →
  ∀ es' ws err, each_dir f wrap es = (es', ws, err) → kept_below 2 dirs (TDir es) (TDir es') ws.
Proof.
  intros Hnd Hall. induction Hall as [|[n t] es Hf Hall IH]; intros es' ws err; cbn [each_dir]; fold (each_dir f wrap).
  { intros [= <- <- _]. apply kept_refl. }
  cbn [fmap list_fmap fst] in Hnd. apply NoDup_cons in Hnd as [Hn Hnd]. cbn [fst snd] in Hf. pose proof (each_dir_names f wrap es) as Hnames.
  destruct (each_dir f wrap es) as [[es1 ws1] err1] eqn:E. cbn [fst] in Hnames. specialize (IH Hnd _ _ _ eq_refl). destruct t as [x|es0|x].
  { intros [= <- <- _]. apply (kept_cons dirs n _ _ [] es es1 ws1); [apply kept_refl|done|]. by rewrite Hnames. }
  all: destruct (f n _) as [[t1 ws2] [e|]]; intros [= <- <- _];
    [rewrite <- (app_nil_r ws2); apply kept_cons; [by eapply Hf|apply kept_refl|done]|apply kept_cons; [by eapply Hf|done|by rewrite Hnames]].
Qed.

(** Writing the index of a directory, in which only directories were done. *)
Lemma write_kept dirs nm node es es1 ws1 es2 ws2 err :
  kept_below 2 dirs (TDir es) (TDir es1) ws1 → write_node create dirs nm node es1 = (es2, ws2, err) → tn_Tools node = ∅ →
  index_written (dirs ++ [nm]) node (node_at [nm] (TDir es1)) →
  kept_below 1 dirs (TDir es) (TDir es2) (ws1 ++ ws2).
Proof.
  intros [Hk Hw] Hwrite Ht Hi. destruct err as [e|].
  { assert (es2 = es1 ∧ ws2 = []) as [-> ->] by (unfold write_node in Hwrite; repeat case_match; by simplify_eq).
    rewrite app_nil_r. by apply kept_weaken. }
  apply write_node_ok in Hwrite as (Hn & _ & -> & ->).
  assert (∀ q, q ≠ [nm] →
    file_at q (TDir (set_entry nm (TFile (Ok (writeNodeToJSON node))) es1)) = file_at q (TDir es1)) as Hframe.
  { intros [|m q] Hq; [done|]. cbn [file_at]. destruct (decide (nm = m)) as [<-|Hne]; [|by rewrite entry_set_other].
    rewrite entry_set_same. cbn. unfold file_name in Hn. destruct q as [|x q]; [done|]. by destruct (entry_of nm es1) as [[]|]. }
  split.
  - intros q Hq. rewrite fmap_app, not_elem_of_app in Hq. destruct Hq as [Hq1 Hq2]. rewrite Hframe; [by apply Hk|].
    intros ->. apply Hq2. by left.
  - intros p n [Hx|[= -> ->]%list_elem_of_singleton]%elem_of_app.
    + apply Hw in Hx as (q & -> & Hl & Hf & Hx). exists q. split_and!; [done|lia| |apply Hx..]. rewrite Hframe; [done|].
      intros ->. cbn in Hl. lia.
    + exists [nm]. split_and!; [done|cbn; lia| |done|].
      * cbn [file_at]. by rewrite entry_set_same.
      * unfold node_at in *. rewrite <- Hk; [done|]. intros ([p x] & Hp & Hin)%list_elem_of_fmap. cbn in Hp. subst p.
        apply Hw in Hin as (q & Hq & Hl & _). apply app_inv_head in Hq. subst q. cbn in Hl. lia.
Qed.

Lemma then_finish_kept finish each dirs es :
  (∀ es1 ws1 err, each es = (es1, ws1, err) → kept_below 2 dirs (TDir es) (TDir es1) ws1) →
  (∀ es1 ws1 es2 ws2 err, kept_below 2 dirs (TDir es) (TDir es1) ws1 → finish es1 = (es2, ws2, err) → kept_below 1 dirs (TDir es) (TDir es2) (ws1 ++ ws2)) →
  ∀ t' ws err, then_finish finish (each es) = (t', ws, err) → kept_below 1 dirs (TDir es) t' ws.
Proof.
  intros Heach Hfinish t' ws err. destruct (each es) as [[es1 ws1] err1] eqn:E. specialize (Heach _ _ _ eq_refl). unfold then_finish.
  destruct err1 as [e|].
  - intros [= <- <- _]. by apply kept_weaken.
  - destruct (finish es1) as [[es2 ws2] err2] eqn:F. intros [= <- <- _]. by eapply Hfinish.
Qed.

Lemma read_node_at nm es : read_node nm es = node_at [nm] (TDir es).
Proof. unfold read_node, read_entry, node_at. cbn [file_at]. by destruct (entry_of nm es) as [[[]| |]|]. Qed.

Lemma final_kept (o : ToolNode) g :
  tn_Overview o ≠ "" → isAutoGenerated (tn_Overview o) = false → final_overview (Some o) g = tn_Overview o.
Proof.
  intros Hne%String.eqb_neq Ha. unfold final_overview. rewrite Hne, Ha. cbn. destruct (String.eqb_spec (tn_Overview o) g) as [->|]; done.
Qed.

Lemma finish_kept dirs name es es1 ws1 es2 ws2 err :
  kept_below 2 (dirs ++ [name]) (TDir es) (TDir es1) ws1 → finish_directory first create (dirs ++ [name]) name es1 = (es2, ws2, err) →
  kept_below 1 (dirs ++ [name]) (TDir es) (TDir es2) (ws1 ++ ws2).
Proof.
  intros Hk. unfold finish_directory. destruct (match read_node _ es1 with Some _ => _ | None => false end) eqn:Hleaf.
  { intros [= <- <- _]. rewrite app_nil_r. by apply kept_weaken. }
  intros Hwrite. eapply write_kept; [done|done|done|]. right. split; [exists dirs, name; by rewrite <- app_assoc|].
  rewrite <- read_node_at. destruct (read_node _ es1) as [old|]; [|done]. apply negb_false_iff, Nat.eqb_eq, map_size_empty_iff in Hleaf.
  split; [done|]. cbn [tn_Overview]. apply final_kept.
Qed.

Lemma distinct_entries es : foldr (λ (e : string * tree) P, distinct_names e.2 ∧ P) True es → Forall (λ e, distinct_names e.2) es.
Proof. induction es as [|e es IH]; [constructor|]. intros [He Hes]. constructor; [done|by apply IH]. Qed.

Lemma directory_kept t : ∀ dirs name t1 ws err, distinct_names t →
  RegenerateDirectory first create (dirs ++ [name]) name t = (t1, ws, err) → kept_below 1 (dirs ++ [name]) t t1 ws.
Proof.
  induction t as [d|e|es IH] using tree_nested_ind; intros dirs name t1 ws err Hd; cbn [RegenerateDirectory].
  { intros [= <- <- _]. apply kept_refl. }
  { intros [= <- <- _]. apply kept_refl. }
  destruct Hd as [Hnd Hes%distinct_entries]. apply then_finish_kept.
  - apply each_dir_kept; [done|]. apply Forall_forall. intros e He _ t2 ws2 err2. rewrite Forall_forall in IH, Hes. apply IH; auto.
  - intros es1 ws1 es2 ws2 err2. apply finish_kept.
Qed.

(** ** Properties *)

(** Regenerating is idempotent: once it has succeeded, doing it again
    writes the same files with the same bytes and leaves the hierarchy as it
    is, whatever was in it and whichever overviews its author had written, as
    long as the overviews written are valid UTF-8 and the tool that stands for
    a leaf of several tools is the same. *)
Theorem regenerate_idempotent t t1 ws :
  Regenerate first create t = (t1, ws, None) → valid_writes ws → Regenerate first create t1 = (t1, ws, None).
Proof.
  destruct t as [|es|]; [done| |done]. cbn [Regenerate]. intros Ht Hv. eapply again in Ht as (es1 & -> & Ht); [done| | |done].
  - intros es1 ws1. apply each_dir_again; [intros; by eapply regenerated_dir|]. apply Forall_forall. intros e _ n t2 ws'. apply directory_again.
  - intros es1 es2 ws1 ws2 He Hf _. by eapply finish_root_again.
Qed.

(** C30. Regenerating keeps what its user wrote. However it ends, a file that
    it does not write reads as before; what it writes is the index of the root
    or of a directory, an overview without tools; such a file was no leaf, and
    if it had an overview that does not look generated, it keeps it. *)
Theorem regenerate_keeps t t' ws err : distinct_names t → Regenerate first create t = (t', ws, err) →
  (∀ p, p ∉ ws.*1 → file_at p t' = file_at p t) ∧
  ∀ p n, (p, n) ∈ ws → file_at p t' = Some (Ok (writeNodeToJSON n)) ∧ tn_Tools n = ∅ ∧ index_written p n (node_at p t).
Proof.
  intros Hd Ht. assert (kept_below 1 [] t t' ws) as [Hk Hw].
  { destruct t as [d|es|e]; cbn [Regenerate] in Ht; [injection Ht as <- <- _; apply kept_refl| |injection Ht as <- <- _; apply kept_refl].
    destruct Hd as [Hnd Hes%distinct_entries]. revert Ht. apply then_finish_kept.
    - apply each_dir_kept; [done|]. apply Forall_forall. intros e He _ t2 ws2 err2. rewrite Forall_forall in Hes. apply (directory_kept _ []). auto.
    - intros es1 ws1 es2 ws2 err2 Hk Hf. eapply write_kept; [done|exact Hf|done|by left]. }
  split; [done|]. intros p n Hx. apply Hw in Hx as (q & -> & _ & Hx). exact Hx.
Qed.
End regenerated.

(** ** Witnesses *)

(** A hierarchy of a server whose overview was written by hand and one whose
    overview was generated before a tool was moved to it. *)
Definition tool_file (server : string) (tool : Tool) : string * tree :=
  (tl_Name tool +:+ ".json", TFile (Ok (writeNodeToJSON (tool_node server tool)))).
Definition index_file (name overview : string) : string * tree :=
  (name +:+ ".json", TFile (Ok (writeNodeToJSON (mkToolNode name overview ∅)))).
Definition moved_hierarchy : tree := TDir [
  ("notes", TDir [tool_file "serena" (mkGenTool "find" "" "Finds things; fast" ∅ ∅ ∅); index_file "notes" "notes: 0 tools; stale"]);
  ("serena", TDir [tool_file "serena" (mkGenTool "edit" "" "Edits. Slow." ∅ ∅ ∅); index_file "serena" "Our own words"])].
Definition any_tool (m : gmap string NodeTool) : option NodeTool := snd <$> head (map_to_list m).
Definition creatable (_ : list string) : option error := None.
Definition regenerated_hierarchy : tree * writes * option error := Regenerate any_tool creatable moved_hierarchy.

Example regenerated_overviews : map (λ w, (w.1, tn_Overview w.2)) regenerated_hierarchy.1.2 =
  [(["notes"; "notes.json"], "notes: 1 tools; find -> Finds things");
   (["serena"; "serena.json"], "Our own words");
   (["root.json"], "Root: 2 servers, 2 tools; notes -> notes: 1 tools, serena -> Our own words")].
Proof. vm_compute. reflexivity. Qed.

Lemma regenerate_idempotent_witness :
  regenerated_hierarchy.2 = None ∧ valid_writes regenerated_hierarchy.1.2 ∧
  Regenerate any_tool creatable regenerated_hierarchy.1.1 = regenerated_hierarchy.
Proof.
  assert (regenerated_hierarchy = (regenerated_hierarchy.1.1, regenerated_hierarchy.1.2, None)) as E by (vm_compute; reflexivity).
  assert (valid_writes regenerated_hierarchy.1.2) as Hv by (unfold valid_writes; apply (bool_decide_unpack _); vm_compute; exact I).
  split; [by vm_compute|]. split; [exact Hv|]. rewrite E at 2. exact (regenerate_idempotent any_tool creatable _ _ _ E Hv).
Defined.

Lemma regenerate_keeps_witness : distinct_names moved_hierarchy ∧
  file_at ["serena"; "edit.json"] regenerated_hierarchy.1.1 = file_at ["serena"; "edit.json"] moved_hierarchy.
Proof.
  assert (distinct_names moved_hierarchy) as Hd by (cbn; repeat split; apply (bool_decide_unpack _); vm_compute; exact I).
  split; [exact Hd|].
  assert (regenerated_hierarchy = (regenerated_hierarchy.1.1, regenerated_hierarchy.1.2, regenerated_hierarchy.2)) as E by (vm_compute; reflexivity).
  apply (proj1 (regenerate_keeps any_tool creatable _ _ _ _ Hd E)). apply (bool_decide_unpack _). vm_compute. exact I.
Defined.
