(* ===== verification/Publish.v ===== *)
(** * Publishing what was generated

    Models the rest of [structure_generator/generator.go] and of
    [capability_candidates.go]: where output may go, which directories may be
    replaced, the staging directory and the renames that publish it. The
    contents of a directory are those of [Candidates.v]'s [sourceTree], which
    knows links and modes; what the operating system may refuse is an argument. *)
From Stdlib Require Import Ascii String.
From S2P Require Import Prelude GoStrings Limits Sha256 Regex Utf8 Text Json JsonScan JsonStruct JsonRound Records Yaml Manifest Loader Hierarchy Generator Generated Candidates Regenerate.
Local Open Scope string_scope.
Local Open Scope list_scope.
Local Open Scope Z_scope.

(** ** Where output may go *)

(** The absolute forms of the output, the working and the temporary directory. *)
Definition validateOutputLocation (outputDir : string) (absOutput absWorkingDir absTempDir : result error string) : result error unit :=
  let named (what : string) (r : result error string) := match r with Ok p => Ok p | Err e => Err (Wrapf what [] e) end in
  let! absOutput := named "failed to resolve output path: %w" absOutput in
  let! absWorkingDir := named "failed to resolve working directory: %w" absWorkingDir in
  let relativeWorkingDir := filepath_Rel absOutput absWorkingDir in
  let outputContainsWorkingDir :=
    String.eqb relativeWorkingDir "." || (negb (String.eqb relativeWorkingDir "..") && negb (HasPrefix relativeWorkingDir "../")) in
  let! absTempDir := named "failed to resolve temporary directory: %w" absTempDir in
  fail_if outputContainsWorkingDir || String.eqb absOutput absTempDir
    with Errorf "output path must be a dedicated hierarchy directory: %s" [FStr outputDir] else
  Ok tt.

(** ** What may be replaced *)

(** [os.Lstat] of the output: [None] when it does not exist. *)
Abbreviation lstat := (result error (option sourceTree)).

Definition unrecognized (what path : string) : error := Errorf ("refusing to replace unrecognized output directory: " +:+ what) [FStr path].

Definition regular (t : sourceTree) : bool := match t with SFile (Ok info) _ => fi_regular info | _ => false end.
Fixpoint source_entry (name : string) (entries : list (string * sourceTree)) : option sourceTree :=
  match entries with
  | [] => None
  | (n, t) :: entries => if String.eqb n name then Some t else source_entry name entries
  end.

(** One turn of the loop over the entries: whether the root was found. *)
Definition check_entry (outputDir : string) (rootFound : bool) (e : string * sourceTree) : result error bool :=
  let '(name, t) := e in
  if String.eqb name "root.json" then
    let recognized :=
      match t with
      | SFile _ (Ok data) =>
          regular t && match decode_tool_node data with
                       | Some root => negb (String.eqb (tn_Overview root) "") && Nat.eqb (size (tn_Tools root)) 0
                       | None => false
                       end
      | _ => false
      end in
    if recognized then Ok true else Err (unrecognized "invalid root.json in %s" outputDir)
  else
    match t with
    | SDir sub =>
        let index := name +:+ ".json" in
        if match source_entry index sub with Some i => regular i | None => false end then Ok rootFound
        else Err (unrecognized "missing provider index %s" (path_Join [outputDir; name; index]))
    | SUnlistable _ => Err (unrecognized "missing provider index %s" (path_Join [outputDir; name; name +:+ ".json"]))
    | _ => Err (unrecognized "unexpected file %s" (path_Join [outputDir; name]))
    end.

Definition validateExistingHierarchyDirectory (outputDir : string) (out : lstat) : result error unit :=
  match out with
  | Ok None => Ok tt
  | Err e => Err (Wrapf "failed to inspect output path: %w" [] e)
  | Ok (Some SLink) => Err (Errorf "refusing to replace symlinked output directory: %s" [FStr outputDir])
  | Ok (Some (SFile _ _)) => Err (Errorf "refusing to replace non-directory output path: %s" [FStr outputDir])
  | Ok (Some (SUnlistable e)) => Err (Wrapf "failed to inspect output directory: %w" [] e)
  | Ok (Some (SDir [])) => Ok tt
  | Ok (Some (SDir entries)) =>
      let! rootFound := rfold (check_entry outputDir) false entries in
      fail_if negb rootFound with Errorf "refusing to replace unrecognized output directory without root.json: %s" [FStr outputDir] else Ok tt
  end.

Definition check_candidate (_ : unit) (e : string * sourceTree) : result error unit :=
  let refused := Errorf "refusing to replace reviewed or unrecognized package: %s" [FStr e.1] in
  match e.2 with
  | SDir sub =>
      match source_entry "tappet.yaml" sub with
      | Some (SFile _ (Ok data)) => fail_if negb (HasPrefix (of_bytes data) candidateHeader) with refused else Ok tt
      | _ => Err refused
      end
  | SUnlistable _ => Err refused
  | _ => Err (ErrorNew "refusing to replace unrecognized candidate output")
  end.
Definition validateExistingCandidateDirectory (outputDir : string) (out : lstat) : result error unit :=
  match out with
  | Ok None => Ok tt
  | Err e => Err e
  | Ok (Some SLink) | Ok (Some (SFile _ _)) => Err (Errorf "refusing to replace non-directory or symlinked candidate output: %s" [FStr outputDir])
  | Ok (Some (SUnlistable e)) => Err e
  | Ok (Some (SDir entries)) => rfold check_candidate tt entries
  end.

(** ** Replacing *)

(** The three places: the output, the staging directory and the backup. *)
Record places := mkPlaces { pl_output : option sourceTree; pl_staging : option sourceTree; pl_backup : option sourceTree }.
(** What may fail: looking at the output, moving it away, moving the staging
    directory to its place, moving the output back, and removing the backup,
    of which something may then be left. *)
Record failures := mkFailures {
  fl_lstat : option error; fl_backup : option error; fl_publish : option error; fl_restore : option error;
  fl_cleanup : option (error * option sourceTree) }.

Definition replaceGeneratedDirectory (outputDir : string) (fl : failures) (p : places) : places * option error :=
  match fl_lstat fl with
  | Some e => (p, Some e)
  | None =>
      match pl_output p with
      | None =>
          match fl_publish fl with
          | Some e => (p, Some e)
          | None => (mkPlaces (pl_staging p) None (pl_backup p), None)
          end
      | Some SLink => (p, Some (Errorf "refusing to replace symlinked output directory: %s" [FStr outputDir]))
      | Some old =>
          match fl_backup fl with
          | Some e => (p, Some e)
          | None =>
              let p := mkPlaces None (pl_staging p) (Some old) in
              match fl_publish fl with
              | Some e =>
                  match fl_restore fl with
                  | Some r => (p, Some (Wrapf "replace failed: %w; restoring previous output also failed: %v" [] e))
                  | None => (mkPlaces (pl_backup p) (pl_staging p) None, Some e)
                  end
              | None =>
                  let p := mkPlaces (pl_staging p) None (pl_backup p) in
                  match fl_cleanup fl with
                  | Some (e, rest) => (mkPlaces (pl_output p) None rest, Some (Wrapf "generated output is complete but previous output cleanup failed: %w" [] e))
                  | None => (mkPlaces (pl_output p) None None, None)
                  end
              end
          end
      end
  end.

(** ** Generating *)

(** What the operating system answers: the absolute paths, the state of the
    output, the staging directory, and what fails. [ev_write] is the error of
    a directory or file of a server that cannot be created. *)
Record environment := mkEnvironment {
  ev_absOutput : result error string; ev_workingDir : result error string; ev_tempDir : result error string;
  ev_inspect : option error; ev_parent : option error; ev_staging : result error string; ev_chmod : option error;
  ev_write : option error; ev_create : list string → option error; ev_failures : failures }.

Definition inspected (env : environment) (p : places) : lstat :=
  match ev_inspect env with Some e => Err e | None => Ok (pl_output p) end.
Definition failed (e : option error) (what : string) : result error unit :=
  match e with Some e => Err (Wrapf what [] e) | None => Ok tt end.

(** A file put at a path below a directory, the directories made on the way. *)
Fixpoint put (path : list string) (data : bytes) (t : tree) : tree :=
  match path with
  | [] => TFile (Ok data)
  | n :: path =>
      let entries := match t with TDir es => es | _ => [] end in
      TDir (set_entry n (put path data (default (TDir []) (entry_of n entries))) entries)
  end.
Definition staged (root : string) (files : list (string * ToolNode)) : tree :=
  foldl (λ t f, put (drop (length (path_parts root)) (path_parts f.1)) (writeNodeToJSON f.2) t) (TDir []) files.

Fixpoint on_disk (t : tree) : sourceTree :=
  match t with
  | TFile data => SFile (Ok (mkInfo true (match data with Ok d => zlen d | Err _ => 0 end))) data
  | TDir es => SDir (map (λ e, (e.1, on_disk e.2)) es)
  | TUnreadable e => SUnlistable e
  end.

Section generate.
Context `{TextOps} `{UpperCase} (first : gmap string NodeTool → option NodeTool).

Definition generateStructure (env : environment) (root : string) (servers : list ServerTools) : result error tree :=
  let! files := generate_servers root servers in
  let! _ := failed (ev_write env) "failed to generate structure for server: %w" in
  match Regenerate first (ev_create env) (staged root files) with
  | (t, _, None) => Ok t
  | (_, _, Some e) => Err (Wrapf "failed to generate root.json: %w" [] e)
  end.

(** The staging directory is removed when the function returns. *)
Definition without_staging (r : places * option error) : places * option error :=
  (mkPlaces (pl_output r.1) None (pl_backup r.1), r.2).
Definition publish (outputDir what : string) (env : environment) (content : sourceTree) (p : places) : places * option error :=
  let '(p, err) := replaceGeneratedDirectory outputDir (ev_failures env) (mkPlaces (pl_output p) (Some content) (pl_backup p)) in
  (p, match err with Some e => Some (Wrapf what [] e) | None => None end).

Definition GenerateStructure (env : environment) (servers : list ServerTools) (outputDir : string) (p : places) : places * option error :=
  let outputDir := path_Clean outputDir in
  match (let! _ := validateOutputLocation outputDir (ev_absOutput env) (ev_workingDir env) (ev_tempDir env) in
         let! _ := validateGeneratedNames servers in
         let! _ := failed (ev_parent env) "failed to create output parent directory: %w" in
         validateExistingHierarchyDirectory outputDir (inspected env p)) with
  | Err e => (p, Some e)
  | Ok _ =>
      match ev_staging env with
      | Err e => (p, Some (Wrapf "failed to create staging directory: %w" [] e))
      | Ok stagingDir =>
          without_staging
            match (let! _ := failed (ev_chmod env) "failed to set staging directory permissions: %w" in generateStructure env stagingDir servers) with
            | Err e => (p, Some e)
            | Ok t => publish outputDir "failed to publish generated structure: %w" env (on_disk t) p
            end
      end
  end.
End generate.

Section candidates.
Context `{TextOps} `{UnicodeTables} `{RuneLower} `{YamlDecoder} (encode : Manifest → result error bytes).

(** The directory of a candidate's package. *)
Definition writeCapabilityCandidate (root : string) (entries : list (string * sourceTree)) (candidate : candidateSource) :
    result error (list (string * sourceTree)) :=
  let! f := candidate_file encode root candidate in
  Ok (entries ++ [(cs_capabilityID candidate, SDir [("tappet.yaml", SFile (Ok (mkInfo true (zlen f.2))) (Ok f.2))])]).

Definition GenerateCapabilityCandidates (env : environment) (hierarchy : sourceTree) (outputDir : string) (p : places) : places * option error :=
  let outputDir := path_Clean outputDir in
  match (let! _ := validateOutputLocation outputDir (ev_absOutput env) (ev_workingDir env) (ev_tempDir env) in
         let! _ := validateExistingCandidateDirectory outputDir (inspected env p) in
         let! candidates := readHierarchyCandidates hierarchy in
         let! _ := failed (ev_parent env) "create candidate output parent: %w" in
         Ok candidates) with
  | Err e => (p, Some e)
  | Ok candidates =>
      match ev_staging env with
      | Err e => (p, Some (Wrapf "create candidate staging directory: %w" [] e))
      | Ok stagingDir =>
          without_staging
            match (let! _ := failed (ev_chmod env) "set candidate staging permissions: %w" in
                   let! entries := rfold (writeCapabilityCandidate stagingDir) [] candidates in
                   let! _ := failed (ev_write env) "write candidate: %w" in
                   Ok entries) with
            | Err e => (p, Some e)
            | Ok entries => publish outputDir "publish capability candidates: %w" env (SDir entries) p
            end
      end
  end.
End candidates.

(** ** Lemmas: locations *)

Lemma rel_parts_outside base target : ¬ base `prefix_of` target → ∃ n rest, rel_parts base target = ".." :: replicate n ".." ++ rest.
Proof.
  revert target. induction base as [|x base IH]; intros [|y target] Hp; cbn [rel_parts]; [by destruct Hp; apply prefix_nil|by destruct Hp; apply prefix_nil| |].
  - exists (length base), []. cbn. f_equal. clear. induction base as [|z base IH]; [done|]. cbn. by f_equal.
  - destruct (String.eqb_spec x y) as [->|Hne].
    + apply IH. intros Hp'. apply Hp. by apply prefix_cons.
    + exists (length base), (y :: target). cbn. f_equal. clear. induction base as [|z base IH]; [done|]. cbn. by f_equal.
Qed.

(** The names that the check of the working directory looks for. *)
Definition inside (relative : string) : bool :=
  String.eqb relative "." || (negb (String.eqb relative "..") && negb (HasPrefix relative "../")).

Lemma inside_below l : Forall Loader.kept l → inside (match l with [] => "." | _ => Join l "/" end) = true.
Proof.
  intros Hl. destruct l as [|x l]; [done|]. apply Forall_cons in Hl as [(Hne & Hd & Hdd & Hs) Hl]. unfold inside. apply orb_true_iff. right.
  apply andb_true_iff. rewrite !negb_true_iff. destruct l as [|y l].
  - change (Join [x] "/") with x. split; [by apply String.eqb_neq|]. apply not_true_iff_false. intros [r ->]%HasPrefix_spec.
    assert (ContainsByte ("../" +:+ r) "/" = true) by (apply ContainsByte_elem; rewrite to_bytes_app; do 2 right; left). congruence.
  - rewrite Join_cons by done. split.
    + apply String.eqb_neq. intros E. assert (ContainsByte ".." "/" = true) as Hc; [|by vm_compute in Hc].
      rewrite <- E. apply ContainsByte_elem. rewrite !to_bytes_app. apply elem_of_app. right. by left.
    + apply not_true_iff_false. intros [r E]%HasPrefix_spec.
      assert (head_part : ∀ a b c d : string, ContainsByte a "/" = false → ContainsByte c "/" = false → a +:+ String "/" b = c +:+ String "/" d → a = c).
      { clear. induction a as [|z a IH]; intros b [|w c] d Ha Hc; cbn in *; [done| | |].
        - intros [= <- _]. by rewrite Ascii.eqb_refl in Hc.
        - intros [= -> _]. by rewrite Ascii.eqb_refl in Ha.
        - apply orb_false_iff in Ha as [_ Ha]. apply orb_false_iff in Hc as [_ Hc]. intros [= -> E]. f_equal. by eapply IH. }
      by apply Hdd, (head_part x (Join (y :: l) "/") ".." r).
Qed.

Lemma inside_outside n rest : inside (Join (".." :: replicate n ".." ++ rest) "/") = false.
Proof.
  unfold inside. destruct (replicate n ".." ++ rest) as [|y l]; [done|]. rewrite Join_cons by done. apply orb_false_iff. split.
  - apply String.eqb_neq. by intros [=].
  - apply andb_false_iff. right. apply negb_false_iff, HasPrefix_spec. by exists (Join (y :: l) "/").
Qed.

Lemma location_iff o w tmp outputDir : Forall Loader.kept o → Forall Loader.kept w →
  validateOutputLocation outputDir (Ok (abs_path o)) (Ok (abs_path w)) (Ok tmp) = Ok tt ↔ ¬ o `prefix_of` w ∧ abs_path o ≠ tmp.
Proof.
  intros Ho Hw. unfold validateOutputLocation. cbn [rbind]. fold (inside (filepath_Rel (abs_path o) (abs_path w))). rewrite guardE_Ok, orb_false_iff, String.eqb_neq.
  unfold filepath_Rel. rewrite !path_parts_abs by done. split.
  - intros ([Hi Ht] & _). split; [|done]. intros [l ->]. rewrite rel_parts_below in Hi. apply Forall_app in Hw as [_ Hl]. pose proof (inside_below l Hl). destruct l; congruence.
  - intros [Hp Ht]. split; [|done]. split; [|done]. destruct (rel_parts_outside _ _ Hp) as (n & rest & ->). apply inside_outside.
Qed.

(** ** Lemmas: recognised output *)

Section recognised.
Context (first : gmap string NodeTool → option NodeTool) (create : list string → option error).

Lemma source_entry_disk n es : source_entry n (map (λ e : string * tree, (e.1, on_disk e.2)) es) = on_disk <$> entry_of n es.
Proof. induction es as [|[m t] es IH]; [done|]. cbn. by destruct (String.eqb m n). Qed.

(** A directory that was regenerated has its index. *)
Definition has_index (name : string) (t : tree) : Prop :=
  ∃ es data, t = TDir es ∧ entry_of (name +:+ ".json") es = Some (TFile (Ok data)).

Lemma regenerated_index dirs name t t1 ws : RegenerateDirectory first create dirs name t = (t1, ws, None) → has_index name t1.
Proof.
  destruct t as [|es|]; [done| |done]. cbn [RegenerateDirectory]. destruct (each_dir _ _ es) as [[es1 ws1] [e|]]; [done|]. cbn [then_finish].
  destruct (finish_directory _ _ _ _ _) as [[es2 ws2] err] eqn:F. intros [= <- _ ->]. unfold finish_directory in F.
  destruct (match read_node _ es1 with Some _ => _ | None => false end) eqn:Hleaf.
  - injection F as <- _. unfold read_node, read_entry in Hleaf. destruct (entry_of _ es1) as [[[data|]| |]|] eqn:E; try done. by exists es1, data.
  - apply write_node_ok in F as (_ & _ & -> & _). eexists _, _. split; [done|]. apply entry_set_same.
Qed.

Definition entry_ok (e : string * tree) : Prop := if is_dir e.2 then has_index e.1 e.2 else e.1 = "root.json".

Lemma each_dir_indexed f wrap es : ∀ es1 ws,
  (∀ n t t1 ws, f n t = (t1, ws, None) → has_index n t1) → Forall (λ e, is_dir e.2 = true ∨ e.1 = "root.json") es →
  each_dir f wrap es = (es1, ws, None) → Forall entry_ok es1.
Proof.
  intros es1 ws Hf Hall. revert es1 ws. induction Hall as [|[n t] es Ht Hall IH]; intros es1 ws; cbn [each_dir]; fold (each_dir f wrap); [by intros [= <- _]|].
  destruct (each_dir f wrap es) as [[es' ws'] err'] eqn:E. destruct t as [x|es0|x].
  { intros [= <- _ ->]. constructor; [by destruct Ht|by eapply IH]. }
  all: destruct (f n _) as [[t1 ws1] [e|]] eqn:E1; [done|]; intros [= <- _ ->]; constructor; [|by eapply IH];
    apply Hf in E1; unfold entry_ok; cbn [fst snd]; destruct t1; [by destruct E1 as (? & ? & ? & _)|done|by destruct E1 as (? & ? & ? & _)].
Qed.

Lemma entry_of_in n t es : entry_of n es = Some t → (n, t) ∈ es.
Proof.
  induction es as [|[m u] es IH]; [done|]. cbn. destruct (String.eqb_spec m n) as [->|]; [intros [= ->]; by left|intros; right; by apply IH].
Qed.
Lemma entry_of_none n es : entry_of n es = None → n ∉ es.*1.
Proof.
  induction es as [|[m u] es IH]; [by intros _ ?%elem_of_nil|]. cbn. destruct (String.eqb_spec m n) as [->|Hne]; [done|].
  intros Hn [->|Hin]%elem_of_cons; [done|by apply IH].
Qed.

Lemma set_entry_in n t es e : NoDup es.*1 → e ∈ set_entry n t es → e = (n, t) ∨ (e.1 ≠ n ∧ e ∈ es).
Proof.
  induction es as [|[m t0] es IH]; cbn [set_entry]; intros Hnd He; [left; by apply list_elem_of_singleton in He|].
  cbn [fmap list_fmap fst] in Hnd. apply NoDup_cons in Hnd as [Hm Hnd]. destruct (String.eqb_spec m n) as [->|Hne].
  - apply elem_of_cons in He as [->|He]; [by left|]. right. split; [|by right]. intros <-. apply Hm. by apply list_elem_of_fmap_2.
  - destruct (str_lt n m && _) eqn:E.
    + apply elem_of_cons in He as [->|He]; [by left|]. right. split; [|done]. apply andb_true_iff in E as [_ E].
      apply elem_of_cons in He as [->|He]; [done|]. intros <-. destruct (entry_of e.1 es) eqn:En; [done|].
      apply entry_of_none in En. apply En. by apply list_elem_of_fmap_2.
    + apply elem_of_cons in He as [->|He]; [by right; split; [|left]|]. destruct (IH Hnd He) as [?|[? ?]]; [by left|right; split; [done|by right]].
Qed.

Lemma checked_entries outputDir es : ∀ found,
  Forall (λ e, ∀ found, check_entry outputDir found e = Ok (found || String.eqb e.1 "root.json")) es →
  rfold (check_entry outputDir) found es = Ok (found || existsb (λ e, String.eqb e.1 "root.json") es).
Proof.
  induction es as [|e es IH]; intros found Hes; cbn [rfold existsb]; [by rewrite orb_false_r|]. apply Forall_cons in Hes as [He Hes].
  rewrite He. cbn [rbind]. by rewrite IH, orb_assoc.
Qed.

Lemma root_checked outputDir found es : ValidString (root_overview es) = true →
  check_entry outputDir found ("root.json", on_disk (TFile (Ok (writeNodeToJSON (mkToolNode "root" (root_overview es) ∅))))) = Ok (found || true).
Proof.
  intros Hv. cbn [on_disk]. unfold check_entry. rewrite String.eqb_refl, (decode_written "root") by done. cbn [tn_Overview tn_Tools regular fi_regular andb].
  rewrite map_size_empty, orb_true_r. cbn [Nat.eqb]. rewrite andb_true_r.
  assert (root_overview es ≠ "") as ->%String.eqb_neq; [|done]. unfold root_overview. destruct (foldl _ _ _) as [[|? ?] ?]; done.
Qed.

Lemma entry_checked outputDir found e : entry_ok e → e.1 ≠ "root.json" →
  check_entry outputDir found (e.1, on_disk e.2) = Ok (found || String.eqb e.1 "root.json").
Proof.
  intros He Hn. unfold entry_ok in He. destruct (is_dir e.2); [|done]. destruct He as (sub & data & -> & Hi). apply String.eqb_neq in Hn.
  cbn [on_disk check_entry]. rewrite Hn, source_entry_disk, Hi, orb_false_r. done.
Qed.

(** What was regenerated may be replaced by what is generated next. *)
Lemma regenerated_recognised outputDir es t' ws :
  NoDup es.*1 → Forall (λ e, is_dir e.2 = true ∨ e.1 = "root.json") es → Regenerate first create (TDir es) = (t', ws, None) → valid_writes ws →
  validateExistingHierarchyDirectory outputDir (Ok (Some (on_disk t'))) = Ok tt.
Proof.
  intros Hnd Hes. cbn [Regenerate]. destruct (each_dir _ _ es) as [[es1 ws1] [e|]] eqn:E; [done|]. cbn [then_finish].
  destruct (finish_root create es1) as [[es2 ws2] err] eqn:F. intros [= <- <- ->] [_ Hv]%Forall_app. unfold finish_root in F.
  apply write_node_ok in F as (Hf & _ & -> & ->). rewrite Forall_singleton in Hv. cbn [snd tn_Overview] in Hv.
  assert (es1.*1 = es.*1) as Hnames.
  { pose proof (each_dir_names (λ name t, RegenerateDirectory first create [name] name t) (λ name, Wrapf "failed to regenerate directory %s: %w" [FStr name]) es) as Hn. by rewrite E in Hn. }
  assert (Forall entry_ok es1) as Hok by (eapply each_dir_indexed; [|exact Hes|exact E]; intros n t t1 ws; apply regenerated_index).
  pose proof (entry_set_same "root.json" (TFile (Ok (writeNodeToJSON (mkToolNode "root" (root_overview es1) ∅)))) es1) as Hroot.
  set (es2 := set_entry _ _ es1) in *. assert (Forall (λ e, ∀ found, check_entry outputDir found e = Ok (found || String.eqb e.1 "root.json"))
    (map (λ e, (e.1, on_disk e.2)) es2)) as Hall.
  { apply Forall_forall. intros x (e & <- & He)%list_elem_of_In%in_map_iff found. apply list_elem_of_In in He. apply set_entry_in in He; [|by rewrite Hnames].
    destruct He as [->|[Hne He]]; [by apply root_checked|]. rewrite Forall_forall in Hok. by apply entry_checked; [apply Hok|]. }
  apply (checked_entries outputDir _ false) in Hall. cbn [on_disk]. unfold validateExistingHierarchyDirectory.
  destruct (map _ es2) as [|x l] eqn:Em; [done|]. rewrite Hall. cbn [rbind orb].
  replace (existsb _ (x :: l)) with true; [done|]. symmetry. rewrite <- Em. apply existsb_exists. exists ("root.json", on_disk (TFile (Ok (writeNodeToJSON (mkToolNode "root" (root_overview es1) ∅))))).
  split; [|done]. apply in_map_iff. eexists (_, _). split; [done|]. by apply list_elem_of_In, entry_of_in.
Qed.

Lemma set_entry_NoDup n t es : NoDup es.*1 → NoDup (set_entry n t es).*1.
Proof.
  induction es as [|[m u] es IH]; intros Hnd; [apply NoDup_singleton|]. cbn [set_entry]. destruct (String.eqb_spec m n) as [->|Hne]; [done|].
  destruct (str_lt n m && _) eqn:E.
  - apply NoDup_cons. split; [|done]. apply andb_true_iff in E as [_ E]. destruct (entry_of n es) eqn:En; [done|].
    cbn [fst]. intros [E'|Hin]%elem_of_cons; [by apply Hne|]. by apply entry_of_none in En.
  - cbn [fmap list_fmap fst] in *. apply NoDup_cons in Hnd as [Hm Hnd]. apply NoDup_cons. split; [|by apply IH].
    intros (e & E' & He)%list_elem_of_fmap. apply set_entry_in in He as [->|[_ He]]; [by apply Hne| |done]. apply Hm. rewrite E'. by apply list_elem_of_fmap_2.
Qed.

(** The files of servers are staged in directories of their own. *)
Definition directories (t : tree) : Prop := ∃ es, t = TDir es ∧ NoDup es.*1 ∧ Forall (λ e, is_dir e.2 = true) es.

Lemma put_directories d n data t : directories t → directories (put [d; n] data t).
Proof.
  intros (es & -> & Hnd & Hes). eexists. split; [done|]. split; [by apply set_entry_NoDup|]. apply Forall_forall. intros e He.
  apply set_entry_in in He as [->|[_ He]]; [done| |done]. rewrite Forall_forall in Hes. by apply Hes.
Qed.

Lemma staged_directories `{TextOps} `{UpperCase} parts servers : Forall Loader.kept parts → Forall server_names_ok servers →
  directories (staged (abs_path parts) (flat_map (server_files parts) servers)).
Proof.
  intros Hp Hs. unfold staged. assert (Forall (λ f, ∃ d n, Loader.kept d ∧ Loader.kept n ∧ f.1 = abs_path (parts ++ [d; n])) (flat_map (server_files parts) servers)) as Hall.
  { apply Forall_forall. intros f (s & Hin & Hf)%list_elem_of_In%in_flat_map. apply list_elem_of_In in Hin. rewrite Forall_forall in Hs.
    destruct (Hs s Hin) as [Hn _ Ht _]. destruct f as [path node]. apply in_combine_l, in_map_iff in Hf as (stem & <- & Hst).
    assert (portable_name stem.1 ∧ portable_name stem.2) as [H1 H2].
    { apply in_app_iff in Hst as [(t & <- & Hin')%in_map_iff|[<-|[]]]; [|done]. apply list_elem_of_In in Hin'. rewrite Forall_forall in Ht.
      split; [done|]. by eapply tk_portable, Ht. }
    exists stem.1, (stem.2 +:+ ".json"). split_and!; [by apply portable_kept|by apply json_file_kept, portable_slash|done]. }
  assert (directories (TDir [])) as Ht by (exists []; split_and!; [done|constructor|constructor]). revert Ht. generalize (TDir []).
  induction Hall as [|f fs (d & n & Hd & Hn & Hf) _ IH]; intros t Ht; [done|]. cbn [foldl]. apply IH.
  assert (Forall Loader.kept (parts ++ [d; n])) by (apply Forall_app; split; [done|by apply Forall_cons_2, Forall_singleton]).
  rewrite Hf, !path_parts_abs, drop_app_length by done. by apply put_directories.
Qed.
End recognised.

(** ** Lemmas: publishing *)

(** What publishing leaves: the new content; or, when it fails, the old one in
    its place or, if even moving it back failed, in the backup; or the new one
    with something left of the old. *)
Definition published (old : option sourceTree) (new : sourceTree) (p : places) (err : option error) : Prop :=
  match err with
  | None => p = mkPlaces (Some new) None None
  | Some _ =>
      (pl_output p = old ∧ pl_backup p = None) ∨ (pl_output p = None ∧ pl_backup p = old) ∨ pl_output p = Some new
  end.

Lemma publish_published d what env new p p' err : pl_backup p = None →
  without_staging (publish d what env new p) = (p', err) → published (pl_output p) new p' err ∧ pl_staging p' = None.
Proof.
  intros Hb. destruct p as [old st bk]. cbn in Hb. subst bk. unfold without_staging, publish, replaceGeneratedDirectory.
  destruct (ev_failures env) as [l b pu r c]. cbn. intros Hp.
  repeat case_match; simplify_eq; cbn; split; solve [done|auto].
Qed.

Lemma servers_written `{TextOps} `{UpperCase} parts servers : Forall Loader.kept parts → Forall server_names_ok servers →
  generate_servers (abs_path parts) servers = Ok (flat_map (server_files parts) servers).
Proof. intros Hp Hok. unfold generate_servers. by rewrite all_server_files. Qed.

(** How a generation ends. *)
Lemma structure_outcome `{TextOps} `{UpperCase} first env servers outputDir p p' err :
  pl_staging p = None → pl_backup p = None → GenerateStructure first env servers outputDir p = (p', err) →
  pl_staging p' = None ∧
  (p' = p ∨ validateExistingHierarchyDirectory (path_Clean outputDir) (Ok (pl_output p)) = Ok tt) ∧
  match err with
  | None => ∃ root files t ws, validateGeneratedNames servers = Ok tt ∧ ev_staging env = Ok root ∧ generate_servers root servers = Ok files ∧
      Regenerate first (ev_create env) (staged root files) = (t, ws, None) ∧ p' = mkPlaces (Some (on_disk t)) None None
  | Some _ => (pl_output p' = pl_output p ∧ pl_backup p' = None) ∨ (pl_output p' = None ∧ pl_backup p' = pl_output p) ∨
      ∃ root t, ev_staging env = Ok root ∧ generateStructure first env root servers = Ok t ∧ pl_output p' = Some (on_disk t)
  end.
Proof.
  intros Hs Hb. unfold GenerateStructure. set (d := path_Clean outputDir).
  destruct (validateOutputLocation _ _ _ _); [|intros [= <- <-]; cbn; auto]. cbn [rbind].
  destruct (validateGeneratedNames servers) as [[]|] eqn:Hnames; [|intros [= <- <-]; cbn; auto]. cbn [rbind].
  destruct (failed (ev_parent env) _); [|intros [= <- <-]; cbn; auto]. cbn [rbind].
  destruct (validateExistingHierarchyDirectory d (inspected env p)) as [[]|] eqn:Hv; [|intros [= <- <-]; cbn; auto].
  assert (validateExistingHierarchyDirectory d (Ok (pl_output p)) = Ok tt) as Hrec by (unfold inspected in Hv; by destruct (ev_inspect env)).
  destruct (ev_staging env) as [root|e]; [|intros [= <- <-]; auto].
  assert (∀ e, without_staging (p, Some e) = (p, Some e)) as Hsame by (intros e; destruct p; cbn in *; by subst).
  destruct (failed (ev_chmod env) _); [|cbn [rbind]; rewrite Hsame; intros [= <- <-]; auto]. cbn [rbind].
  destruct (generateStructure first env root servers) as [t|e] eqn:Hg; [|rewrite Hsame; intros [= <- <-]; auto].
  intros Hpub. destruct (publish_published _ _ _ _ _ _ _ Hb Hpub) as [Hp Hst]. split; [done|]. split; [by right|]. destruct err as [e|].
  { destruct Hp as [?|[?|?]]; [by left|by right; left|]. do 2 right. by exists root, t. }
  unfold generateStructure in Hg. apply rbind_Ok in Hg as (files & Hfiles & Hg). apply rbind_Ok in Hg as (_ & _ & Hg).
  destruct (Regenerate _ _ _) as [[t1 ws] [e|]] eqn:Hr; [done|]. injection Hg as ->. by exists root, files, t, ws.
Qed.

(** ** Properties *)

(** A directory is accepted as the place for output exactly when the
    working directory is not in it, however deep, and it is not the temporary
    directory; so no run can replace a directory that it works in. *)
Theorem output_location_exact o w tmp outputDir : Forall Loader.kept o → Forall Loader.kept w →
  validateOutputLocation outputDir (Ok (abs_path o)) (Ok (abs_path w)) (Ok tmp) = Ok tt ↔ ¬ o `prefix_of` w ∧ abs_path o ≠ tmp.
Proof. apply location_iff. Qed.

(** C31. Generating replaces a hierarchy as a whole or not at all. If it
    succeeds, the output is the servers' files with the regenerated overviews
    and nothing else is left; if it fails, whatever failed, the previous output
    is in its place or, when even that could not be restored, in the backup,
    or it has been replaced completely and only removing it failed. It touches
    only output that did not exist or that it recognises; and what it has
    published it recognises, so that it can be run again. *)
Theorem structure_published `{TextOps} `{UpperCase} first env servers outputDir p p' err :
  pl_staging p = None → pl_backup p = None → GenerateStructure first env servers outputDir p = (p', err) →
  pl_staging p' = None ∧
  (p' = p ∨ validateExistingHierarchyDirectory (path_Clean outputDir) (Ok (pl_output p)) = Ok tt) ∧
  match err with
  | None => ∃ root files t ws, ev_staging env = Ok root ∧ generate_servers root servers = Ok files ∧
      Regenerate first (ev_create env) (staged root files) = (t, ws, None) ∧ p' = mkPlaces (Some (on_disk t)) None None ∧
      (∀ parts, root = abs_path parts → Forall Loader.kept parts → valid_writes ws →
         validateExistingHierarchyDirectory (path_Clean outputDir) (Ok (pl_output p')) = Ok tt)
  | Some _ => (pl_output p' = pl_output p ∧ pl_backup p' = None) ∨ (pl_output p' = None ∧ pl_backup p' = pl_output p) ∨
      ∃ root t, ev_staging env = Ok root ∧ generateStructure first env root servers = Ok t ∧ pl_output p' = Some (on_disk t)
  end.
Proof.
  intros Hs Hb Hg. destruct (structure_outcome _ _ _ _ _ _ _ Hs Hb Hg) as (Hst & Hrec & Hout). split; [done|]. split; [done|].
  destruct err as [e|]; [done|]. destruct Hout as (root & files & t & ws & Hnames & Hroot & Hfiles & Hr & Hp). exists root, files, t, ws.
  split_and!; try done. intros parts -> Hparts Hws. rewrite Hp. cbn [pl_output]. pose proof (proj1 (validated_iff servers) Hnames) as [Hok _].
  rewrite (servers_written parts servers) in Hfiles by done. injection Hfiles as <-.
  destruct (staged_directories parts servers Hparts Hok) as (es & Hes & Hnd & Hdirs). rewrite Hes in Hr.
  eapply regenerated_recognised; [done| |done|done]. eapply Forall_impl; [exact Hdirs|]. by left.
Qed.

(** ** Witnesses *)

Lemma output_location_exact_witness :
  validateOutputLocation "out" (Ok (abs_path ["work"; "out"])) (Ok (abs_path ["work"])) (Ok "/tmp") = Ok tt ∧
  validateOutputLocation ".." (Ok (abs_path ["work"])) (Ok (abs_path ["work"; "deep"])) (Ok "/tmp") ≠ Ok tt.
Proof.
  assert (Forall Loader.kept ["work"; "out"] ∧ Forall Loader.kept ["work"; "deep"] ∧ Forall Loader.kept ["work"]) as (H1 & H2 & H3).
  { by repeat split; repeat (apply Forall_cons; split); try apply Forall_nil. }
  split.
  - apply (output_location_exact _ _ _ _ H1 H3). split; [intros [l Hl]; discriminate Hl|discriminate].
  - intros Hv. apply (output_location_exact _ _ _ _ H3 H2) in Hv as [Hv _]. apply Hv. by exists ["deep"].
Defined.

Definition all_well : failures := mkFailures None None None None None.
Definition demo_environment (fl : failures) : environment :=
  mkEnvironment (Ok "/work/out") (Ok "/work") (Ok "/tmp") None None (Ok (abs_path ["work"; ".out.tmp-1"])) None None creatable fl.
Definition nowhere : places := mkPlaces None None None.
Definition generate_small (fl : failures) (p : places) : places * option error :=
  @GenerateStructure ascii_text ascii_upper any_tool (demo_environment fl) small_servers "/work/out/" p.
Definition cannot_move : failures := mkFailures None None (Some (Sentinel "device busy")) None None.

(** Generated, refused a second time by the operating system, and generated
    again over itself. *)
Example generated_again :
  let '(p1, e1) := generate_small all_well nowhere in
  let '(p2, e2) := generate_small cannot_move p1 in
  let '(p3, e3) := generate_small all_well p2 in
  (e1, bool_decide (e2 = None), e3) = (None, false, None) ∧
  match pl_output p3 with Some (SDir es) => map fst es = ["notes"; "root.json"; "serena"] | _ => False end.
Proof. vm_compute. split; reflexivity. Qed.

Lemma structure_published_witness :
  (generate_small all_well nowhere).2 = None ∧ pl_backup (generate_small all_well nowhere).1 = None ∧
  pl_staging (generate_small all_well nowhere).1 = None.
Proof.
  assert ((generate_small all_well nowhere).2 = None) as He by (vm_compute; reflexivity). split; [exact He|].
  destruct (@structure_published ascii_text ascii_upper any_tool (demo_environment all_well) small_servers "/work/out/" nowhere
    (generate_small all_well nowhere).1 (generate_small all_well nowhere).2 eq_refl eq_refl) as (Hst & _ & Hp).
  { exact (surjective_pairing (generate_small all_well nowhere)). }
  rewrite He in Hp. destruct Hp as (root & files & t & ws & _ & _ & _ & Hp & _). split; [|exact Hst]. rewrite Hp. reflexivity.
Defined.
