(* ===== verification/Pipeline.v ===== *)
(** * From generated servers to a served hierarchy

    The composition of [GenerateStructure] of [structure_generator/generator.go]
    (staging, regenerated overviews, publishing: [Publish.v], [Regenerate.v])
    with [LoadHierarchy] of [internal/hierarchy/hierarchy.go]: what lies on
    disk after a successful run is what the broker loads, lists and executes. *)
From stdpp Require Import relations.
From Stdlib Require Import Ascii String.
From S2P Require Import Prelude GoStrings Limits Sha256 Regex Utf8 Text Json JsonScan JsonStruct JsonRound Records Loader Hierarchy Config Generator Generated Candidates Inventory Regenerate Publish.
Local Open Scope string_scope.
Local Open Scope list_scope.
Local Open Scope Z_scope.

(** ** Lemmas: entries *)

Lemma filter_id {A} (P : A → Prop) `{∀ x, Decision (P x)} l : Forall P l → filter P l = l.
Proof. induction 1 as [|x l Hx _ IH]; [done|]. by rewrite filter_cons, decide_True, IH. Qed.

Lemma set_entry_perm n t es : NoDup es.*1 → set_entry n t es ≡ₚ (n, t) :: filter (λ e, e.1 ≠ n) es.
Proof.
  induction es as [|[m u] es IH]; intros Hnd; [done|]. cbn [fmap list_fmap fst] in Hnd. apply NoDup_cons in Hnd as [Hm Hnd].
  cbn [set_entry]. rewrite filter_cons. cbn [fst]. destruct (String.eqb_spec m n) as [->|Hne].
  - rewrite decide_False by auto. rewrite filter_id; [done|]. apply Forall_forall. intros e He <-. apply Hm. by apply list_elem_of_fmap_2.
  - rewrite decide_True by done. destruct (str_lt n m && _) eqn:E; [|rewrite IH by done; by apply perm_swap].
    apply andb_true_iff in E as [_ E]. destruct (entry_of n es) eqn:En; [done|]. apply entry_of_none in En.
    rewrite filter_id; [done|]. apply Forall_forall. intros e He <-. apply En. by apply list_elem_of_fmap_2.
Qed.
Lemma set_entry_fresh n t es : NoDup es.*1 → n ∉ es.*1 → set_entry n t es ≡ₚ es ++ [(n, t)].
Proof.
  intros Hnd Hn. rewrite set_entry_perm, <- Permutation_cons_append by done. rewrite filter_id; [done|].
  apply Forall_forall. intros e He <-. apply Hn. by apply list_elem_of_fmap_2.
Qed.
Lemma set_entry_replaces n t u l es : NoDup es.*1 → es ≡ₚ l ++ [(n, u)] → set_entry n t es ≡ₚ l ++ [(n, t)].
Proof.
  intros Hnd He. rewrite set_entry_perm, He by done. rewrite He, fmap_app in Hnd. apply NoDup_app in Hnd as (_ & Hn & _).
  rewrite filter_app, filter_cons, filter_nil. cbn [fst]. rewrite decide_False by auto. rewrite app_nil_r, <- Permutation_cons_append.
  rewrite filter_id; [done|]. apply Forall_forall. intros e Hin <-. apply (Hn e.1); [by apply list_elem_of_fmap_2|by left].
Qed.

Definition set_entries (es : list (string * tree)) (l : list (string * tree)) : list (string * tree) :=
  foldl (λ es e, set_entry e.1 e.2 es) es l.
Lemma set_entries_perm l : ∀ es, NoDup (es ++ l).*1 → set_entries es l ≡ₚ es ++ l.
Proof.
  induction l as [|[n t] l IH]; intros es Hnd; [by rewrite app_nil_r|]. cbn [set_entries foldl fst snd]. fold (set_entries (set_entry n t es) l).
  assert (NoDup es.*1 ∧ n ∉ es.*1) as [He Hn].
  { rewrite fmap_app in Hnd. apply NoDup_app in Hnd as (He & Hd & _). split; [done|]. intros Hin. by apply (Hd n Hin); left. }
  rewrite IH; [|rewrite (fmap_Permutation fst _ _ (Permutation_app_tail l (set_entry_fresh n t es He Hn))), <- app_assoc; done].
  by rewrite set_entry_fresh, <- app_assoc.
Qed.

Lemma entry_of_elem n t es : NoDup es.*1 → (n, t) ∈ es → entry_of n es = Some t.
Proof.
  induction es as [|[m u] es IH]; intros Hnd Hin; [by apply elem_of_nil in Hin|]. cbn [fmap list_fmap fst] in Hnd. apply NoDup_cons in Hnd as [Hm Hnd]. cbn [entry_of].
  apply elem_of_cons in Hin as [[= -> ->]|Hin]; [by rewrite String.eqb_refl|]. destruct (String.eqb_spec m n) as [->|]; [|by apply IH].
  destruct Hm. apply list_elem_of_fmap. by exists (n, t).
Qed.

(** Directories whose results are known, one by one. *)
Lemma each_dir_results f wrap es : ∀ es1 ws, each_dir f wrap es = (es1, ws, None) → Forall (λ e, is_dir e.2 = true) es →
  es1 = map (λ e, (e.1, (f e.1 e.2).1.1)) es ∧ Forall (λ e, (f e.1 e.2).2 = None) es.
Proof.
  induction es as [|[n t] es IH]; intros es1 ws He Hd; [by injection He as <- _|]. apply Forall_cons in Hd as [Ht Hd].
  cbn [each_dir] in He. fold (each_dir f wrap) in He. cbn [map fst snd] in *. destruct t as [x|es0|x]; [done|..];
    destruct (f n _) as [[t1 ws1] [e|]] eqn:Ef; try done; destruct (each_dir f wrap es) as [[es' ws'] err] eqn:E; injection He as <- <- ->;
    destruct (IH _ _ eq_refl Hd) as [-> Hall]; (split; [done|]); (constructor; [by cbn [fst snd]; rewrite Ef|done]).
Qed.

(** ** Lemmas: what is staged *)

Section staged.
Context `{TextOps} `{UpperCase}.

(** The directory that is written for a server. *)
Definition server_content (s : ServerTools) : list (string * tree) := set_entries [] (server_entries server_node s).

Lemma server_file_names index s : (server_entries index s).*1 = map (λ f, f.2 +:+ ".json") (server_stems s).
Proof.
  unfold server_entries. rewrite zip_server. unfold server_stems. rewrite !map_app. f_equal.
  induction (se_Tools s) as [|t ts IH]; [done|]. cbn. by f_equal.
Qed.
Lemma json_name_inj x y : x +:+ ".json" = y +:+ ".json" → x = y.
Proof. intros E. rewrite <- (proj2 (TrimSuffix_json x)), E. apply TrimSuffix_json. Qed.

Lemma server_entries_NoDup index s : server_names_ok s → NoDup (server_entries index s).*1.
Proof.
  intros Hs. rewrite server_file_names. eapply (NoDup_map_finer _ id).
  - intros x y Hx Hy E%json_name_inj. pose proof (stems_portable s Hs) as Hst. rewrite Forall_forall in Hst.
    destruct (Hst x Hx) as [E1 _], (Hst y Hy) as [E2 _]. destruct x, y. cbn in *. congruence.
  - rewrite map_id. eapply (NoDup_fmap_1 folded_stem). pose proof (folded_stems_NoDup [s]) as Hnd. cbn [map flat_map] in Hnd. rewrite app_nil_r in Hnd.
    apply Hnd; [by apply Forall_singleton|apply NoDup_singleton].
Qed.

Lemma server_content_perm s : server_names_ok s → server_content s ≡ₚ server_entries server_node s.
Proof. intros Hs. unfold server_content. by rewrite set_entries_perm by by apply server_entries_NoDup. Qed.

(** A file put in a directory of the root. *)
Definition sub_entries (d : string) (es : list (string * tree)) : list (string * tree) :=
  match entry_of d es with Some (TDir sub) => sub | _ => [] end.
Lemma put_file d n data es : (∀ t, entry_of d es = Some t → is_dir t = true) →
  put [d; n] data (TDir es) = TDir (set_entry d (TDir (set_entry n (TFile (Ok data)) (sub_entries d es))) es).
Proof. intros Hd. unfold sub_entries. cbn [put]. destruct (entry_of d es) as [[]|] eqn:E; [by specialize (Hd _ eq_refl)|done..]. Qed.

Lemma put_files d l : l ≠ [] → ∀ es, (∀ t, entry_of d es = Some t → is_dir t = true) →
  foldl (λ t f, put [d; f.1] f.2 t) (TDir es) l =
  TDir (set_entry d (TDir (set_entries (sub_entries d es) (map (λ f, (f.1, TFile (Ok f.2))) l))) es).
Proof.
  intros Hne. induction l as [|[n data] l IH] using rev_ind; [done|]. intros es Hd. rewrite foldl_app, map_app. cbn [foldl map fst snd].
  unfold set_entries. rewrite foldl_app. cbn [foldl fst snd]. fold (set_entries (sub_entries d es) (map (λ f, (f.1, TFile (Ok f.2))) l)).
  destruct l as [|x l]; [cbn; by rewrite <- put_file|]. rewrite IH by done. rewrite put_file.
  - unfold sub_entries at 1. by rewrite entry_set_same, set_set.
  - intros t Ht. rewrite entry_set_same in Ht. by injection Ht as <-.
Qed.

(** The entry of a server below the root. *)
Definition server_directory (s : ServerTools) : string * tree := (se_ServerName s, TDir (server_content s)).

Lemma server_files_zip parts s :
  server_files parts s = map (λ x, (stem_path parts x.1, x.2)) (zip (server_stems s) (indexed_nodes server_node s)).
Proof.
  unfold server_files. change (server_nodes s) with (indexed_nodes server_node s). generalize (indexed_nodes server_node s).
  induction (server_stems s) as [|f fs IH]; intros [|n ns]; cbn; [done..|]. by f_equal.
Qed.

Lemma entry_of_absent n es : n ∉ es.*1 → entry_of n es = None.
Proof. intros Hn. destruct (entry_of n es) eqn:E; [|done]. by apply entry_elem in E. Qed.

Lemma foldl_agrees {A B C D} (f : A → B → A) (g : A → C → A) (k : D → B) (h : D → C) l :
  Forall (λ x, ∀ a, f a (k x) = g a (h x)) l → ∀ a, foldl f a (map k l) = foldl g a (map h l).
Proof. induction 1 as [|x l Hx _ IH]; intros a; [done|]. cbn. by rewrite Hx, IH. Qed.

Lemma staged_server parts s es : Forall Loader.kept parts → server_names_ok s → se_ServerName s ∉ es.*1 →
  foldl (λ t f, put (drop (length (path_parts (abs_path parts))) (path_parts f.1)) (writeNodeToJSON f.2) t) (TDir es) (server_files parts s) =
  TDir (set_entry (se_ServerName s) (TDir (server_content s)) es).
Proof.
  intros Hp Hs Hn. pose proof (entry_of_absent _ _ Hn) as He. rewrite server_files_zip, path_parts_abs by done.
  rewrite (foldl_agrees _ (λ t f, put [se_ServerName s; f.1] f.2 t) _ (λ x, (x.1.2 +:+ ".json", writeNodeToJSON x.2))).
  - rewrite put_files; [|by rewrite zip_server; intros [_ ?]%map_eq_nil%app_eq_nil|by rewrite He]. unfold sub_entries. by rewrite He, map_map.
  - apply Forall_forall. intros [f n] Hin%elem_of_zip_l a. pose proof (stems_portable s Hs) as Hst. rewrite Forall_forall in Hst.
    destruct (Hst f Hin) as [E (H1 & H2 & _)]. cbn [fst snd]. unfold stem_path.
    rewrite path_parts_abs, drop_app_length, E; [done|]. apply Forall_app. split; [done|].
    apply Forall_cons_2; [by apply portable_kept|]. by apply Forall_singleton, json_file_kept, portable_slash.
Qed.

Lemma staged_servers parts servers : Forall Loader.kept parts → Forall server_names_ok servers → NoDup (map folded_server servers) →
  staged (abs_path parts) (flat_map (server_files parts) servers) = TDir (set_entries [] (map server_directory servers)).
Proof.
  intros Hp Hok Hnd. unfold staged. assert (∀ n, n ∈ ([] : list (string * tree)).*1 → n ∉ map se_ServerName servers) as Hn by (by intros n ?%elem_of_nil).
  assert (NoDup (map se_ServerName servers)) as Hnames.
  { eapply NoDup_map_finer; [|exact Hnd]. intros x y _ _ E. unfold folded_server. by rewrite E. }
  clear Hnd. assert (NoDup ([] : list (string * tree)).*1) as He by constructor. revert Hn He. generalize ([] : list (string * tree)).
  induction Hok as [|s servers Hs _ IH]; intros es Hn He; [done|]. cbn [flat_map map] in *. apply NoDup_cons in Hnames as [Hnew Hnames].
  assert (se_ServerName s ∉ es.*1) as Hfresh by (intros Hin; apply (Hn _ Hin); by left).
  rewrite foldl_app, staged_server by done. cbn [set_entries foldl server_directory fst snd]. apply IH; [done| |by apply set_entry_NoDup].
  intros n Hin. rewrite (fmap_Permutation fst _ _ (set_entry_fresh _ _ es He Hfresh)), fmap_app in Hin.
  intros Hin'. apply elem_of_app in Hin as [Hin|Hin%list_elem_of_singleton]; [apply (Hn n Hin); by right|by subst].
Qed.

Lemma directories_NoDup servers : NoDup (map folded_server servers) → NoDup (map server_directory servers).*1.
Proof.
  intros Hnd. change ((map server_directory servers).*1) with (map fst (map server_directory servers)). rewrite map_map.
  eapply NoDup_map_finer; [|exact Hnd]. intros x y _ _ E. cbn in E. unfold folded_server. by rewrite E.
Qed.
End staged.

(** ** Lemmas: what is regenerated *)

Section regenerated.
Context `{TextOps} `{UpperCase} (first : gmap string NodeTool → option NodeTool) (create : list string → option error).

Definition regenerated_server (s : ServerTools) : tree * writes * option error :=
  RegenerateDirectory first create [se_ServerName s] (se_ServerName s) (TDir (server_content s)).
(** The index of a server after the run: its overview is the one written with
    it or the one made from its tools. *)
Definition regenerated_index (s : ServerTools) : ToolNode :=
  mkToolNode (se_ServerName s)
    (final_overview (Some (mkToolNode "" (clean (server_overview s)) ∅)) (generated_overview first (se_ServerName s) (server_content s))) ∅.

Lemma files_no_dir f wrap es : Forall (λ e, is_dir e.2 = false) es → each_dir f wrap es = (es, [], None).
Proof. induction 1 as [|[n t] es Ht _ IH]; [done|]. destruct t; [|done|done]. by rewrite each_dir_file, IH. Qed.

Lemma server_regenerated s : server_names_ok s → (regenerated_server s).2 = None →
  ∃ es, (regenerated_server s).1.1 = TDir es ∧ es ≡ₚ server_entries regenerated_index s.
Proof.
  intros Hs. pose proof (server_content_perm s Hs) as Hp. pose proof (server_entries_NoDup server_node s Hs) as Hnd.
  assert (NoDup (server_content s).*1) as Hnc by (by rewrite Hp).
  assert (∀ index, server_entries index s = map (λ t, (tl_Name t +:+ ".json", TFile (Ok (writeNodeToJSON (tool_node (se_ServerName s) t))))) (se_Tools s)
    ++ [(se_ServerName s +:+ ".json", TFile (Ok (writeNodeToJSON (index s))))]) as He.
  { intros index. unfold server_entries. by rewrite zip_server, map_app, map_map. }
  unfold regenerated_server. cbn [RegenerateDirectory]. rewrite files_no_dir.
  2: { rewrite Hp, He. apply Forall_app. split; [by apply Forall_map, Forall_true|by apply Forall_singleton]. }
  cbn [then_finish]. unfold finish_directory, read_node, read_entry.
  rewrite (entry_of_elem _ (TFile (Ok (writeNodeToJSON (server_node s))))); [|done|rewrite Hp, He; apply elem_of_app; right; by left].
  cbn [mbind option_bind]. unfold server_node. rewrite decode_index. cbn [tn_Tools]. rewrite map_size_empty. cbn [Nat.eqb negb].
  fold (regenerated_index s). destruct (write_node _ _ _ _ _) as [[es ws] err] eqn:Hw. cbn [fst snd]. intros ->.
  apply write_node_ok in Hw as (_ & _ & -> & ->). eexists. split; [done|].
  rewrite He. eapply set_entry_replaces; [done|]. by rewrite Hp, He.
Qed.

(** The whole directory: the servers with their indexes, and the root. *)
Lemma structure_regenerated parts servers t ws :
  Forall Loader.kept parts → Forall server_names_ok servers → NoDup (map folded_server servers) →
  Regenerate first create (staged (abs_path parts) (flat_map (server_files parts) servers)) = (t, ws, None) →
  ∃ entries overview listing, t = TDir entries ∧ NoDup entries.*1 ∧ (∀ s, s ∈ servers → listing s ≡ₚ server_entries regenerated_index s) ∧
    entries ≡ₚ generated_directory listing (TFile (Ok (writeNodeToJSON (root_node overview)))) servers.
Proof.
  intros Hparts Hok Hnd. rewrite staged_servers by done. set (dirs := map server_directory servers).
  pose proof (directories_NoDup servers Hnd) as Hdirs. pose proof (set_entries_perm dirs [] Hdirs) as Hperm. rewrite app_nil_l in Hperm.
  assert (NoDup (set_entries [] dirs).*1) as Hnames by (by rewrite Hperm). cbn [Regenerate].
  destruct (each_dir _ _ _) as [[es1 ws1] [e|]] eqn:E; [done|]. cbn [then_finish].
  destruct (finish_root create es1) as [[es2 ws2] err] eqn:F. intros [= <- <- ->].
  apply each_dir_results in E as [-> Hall]; [|rewrite Hperm; by apply Forall_map, Forall_true].
  unfold finish_root in F. apply write_node_ok in F as (_ & _ & -> & ->).
  set (es1 := map _ (set_entries [] dirs)) in *. assert (es1.*1 = (set_entries [] dirs).*1) as En.
  { unfold es1. change (map fst (map (λ e : string * tree, (e.1, (RegenerateDirectory first create [e.1] e.1 e.2).1.1)) (set_entries [] dirs)) = (set_entries [] dirs).*1). by rewrite map_map. }
  set (listing := λ s, match (regenerated_server s).1.1 with TDir es => es | _ => [] end).
  rewrite Forall_forall in Hok. rewrite Forall_forall in Hall.
  assert (∀ s, s ∈ servers → (regenerated_server s).1.1 = TDir (listing s) ∧ listing s ≡ₚ server_entries regenerated_index s) as Hserver.
  { intros s Hs. assert ((regenerated_server s).2 = None) as Herr.
    { apply (Hall (server_directory s)). rewrite Hperm. apply list_elem_of_In, in_map. by apply list_elem_of_In. }
    destruct (server_regenerated s (Hok s Hs) Herr) as (es & Ht & Hp). unfold listing. by rewrite Ht. }
  exists (set_entry "root.json" (TFile (Ok (writeNodeToJSON (mkToolNode "root" (root_overview es1) ∅)))) es1), (root_overview es1), listing.
  split_and!; [done|apply set_entry_NoDup; by rewrite En|intros s Hs; by apply Hserver|].
  assert (es1 ≡ₚ map (λ s, (se_ServerName s, TDir (listing s))) servers) as Hes1.
  { unfold es1. rewrite Hperm. unfold dirs. rewrite map_map. erewrite map_ext_in; [done|]. intros s Hs%list_elem_of_In.
    cbn [server_directory fst snd]. f_equal. by apply Hserver. }
  rewrite set_entry_fresh.
  - unfold generated_directory, root_node. rewrite map_app, map_map. generalize (TFile (Ok (writeNodeToJSON (mkToolNode "root" (root_overview es1) ∅)))) as root.
    intros root. by rewrite Hes1.
  - by rewrite En.
  - rewrite Hes1. intros (e & Ee & (s & <- & Hs%list_elem_of_In)%list_elem_of_In%in_map_iff)%list_elem_of_fmap. cbn [fst] in Ee.
    pose proof (pn_period _ (sn_portable _ (Hok s Hs))) as Hdot. by rewrite <- Ee in Hdot.
Qed.
End regenerated.

(** ** What the broker makes of it *)

Section served.
Context `{TextOps} `{UpperCase}.

(** The hierarchy in a directory, as the broker loads it in whatever order it
    is listed: it lists every tool of the servers below its server, and
    executing the tool calls it there by its own name with its schema. *)
Definition serves (servers : list ServerTools) (entries : list (string * tree)) : Prop :=
  ∃ root, entry_of "root.json" entries = Some (TFile (Ok root)) ∧
  ∀ path entries', entries' ≡ₚ entries → ∃ h, LoadHierarchy path (Ok root) (TDir entries') = Ok h ∧ flat_hierarchy h ∧ valid_hierarchy h ∧
    ∀ s t, s ∈ servers → t ∈ se_Tools s →
      HandleExecuteTool h (tool_key s t) =
        Ok (se_ServerName s, tl_Name t, if decide (tl_InputSchema t = ∅) then None else Some (tl_InputSchema t)) ∧
      ∀ order, order ≡ₚ map_to_list h → ∃ c, HandleGetToolsInCategory order h (se_ServerName s) = Ok c ∧
        ct_tools c !! tl_Name t = Some (mkToolInfo (tl_Description t) (tool_key s t)).

(** A successful run leaves a hierarchy that serves the servers it was given. *)
Lemma published_serves first env servers outputDir p p' parts :
  pl_staging p = None → pl_backup p = None → ev_staging env = Ok (abs_path parts) → Forall Loader.kept parts →
  Forall carried_server servers → GenerateStructure first env servers outputDir p = (p', None) →
  ∃ entries, p' = mkPlaces (Some (on_disk (TDir entries))) None None ∧ serves servers entries.
Proof.
  intros Hs Hb Hroot Hparts Hc Hg. destruct (structure_outcome _ _ _ _ _ _ _ Hs Hb Hg) as (_ & _ & root & files & t & ws & Hnames & Hr & Hf & Hreg & ->).
  rewrite Hroot in Hr. injection Hr as <-. destruct (proj1 (validated_iff servers) Hnames) as [Hok Hnd].
  rewrite (servers_written parts servers) in Hf by done. injection Hf as <-.
  destruct (structure_regenerated _ _ _ _ _ _ Hparts Hok Hnd Hreg) as (entries & overview & listing & -> & Hnde & Hl & He).
  exists entries. split; [done|]. exists (writeNodeToJSON (root_node overview)). split.
  - apply entry_of_elem; [done|]. rewrite He. unfold generated_directory. rewrite map_app. apply elem_of_app. right. by left.
  - intros path entries' Hp. eapply (generated_served (regenerated_index first)); [done..|]. by rewrite Hp.
Qed.
End served.

(** ** What a provider sends can be written *)

(** Whatever is decoded from a value within the bounds has valid texts and
    values within the bounds. *)
Lemma into_field_keeps {A} (P : A → Prop) (Q : json → Prop) into name ms :
  (∀ c v x, P c → Q v → into c v = Some x → P x) → Forall (λ f : string * json, Q f.2) ms →
  ∀ c x, P c → into_field into name c ms = Some x → P x.
Proof.
  intros Hinto. induction 1 as [|[k v] ms Hv _ IH]; intros c x Hc; cbn [into_field]; [by intros [= <-]|].
  destruct (names_match name k); [|by apply IH]. destruct (into c v) as [y|] eqn:E; [|done]. cbn [mbind option_bind]. apply IH. by eapply Hinto.
Qed.

Lemma carried_object_members d ms : carried d (JObj ms) → Forall (λ f, ValidString f.1 = true ∧ carried d f.2) ms.
Proof.
  unfold carried. cbn [valid_json json_depth]. intros [Hv Hd]. assert (foldr (λ (f : string * json) n, Z.max (json_depth f.2) n) 0 ms ≤ d) as Hm by lia. clear Hd.
  induction ms as [|f ms IH]; [constructor|]. cbn [foldr] in *. destruct Hv as (Hk & Hf & Hv). constructor; [split; [done|split; [done|lia]]|apply IH; [done|lia]].
Qed.
Lemma carried_elements d vs : carried d (JArr vs) → Forall (carried d) vs.
Proof.
  unfold carried. cbn [valid_json json_depth]. intros [Hv Hd]. assert (foldr (λ v n, Z.max (json_depth v) n) 0 vs ≤ d) as Hm by lia. clear Hd.
  induction vs as [|v vs IH]; [constructor|]. cbn [foldr] in *. destruct Hv as [Hf Hv]. constructor; [split; [done|lia]|apply IH; [done|lia]].
Qed.

Lemma string_keeps d c v x : ValidString c = true → carried d v → into_string c v = Some x → ValidString x = true.
Proof. intros Hc [Hv _]. destruct v; cbn; try done; by intros [= <-]. Qed.
Lemma object_keeps d c v x : carried_object d (default ∅ c) → carried d v → into_object c v = Some x → carried_object d (default ∅ x).
Proof.
  intros Hc Hv. destruct v as [| | | | |ms]; try done; cbn [into_object]; [by intros [= <-]; apply map_Forall_empty|].
  destruct (into_entries Some (default ∅ c) ms) as [m|] eqn:E; [|done]. intros [= <-]. intros k y Hk.
  destruct (into_entries_lookup _ _ _ _ _ _ E Hk) as [Hck|(w & Hw & [= <-])]; [by apply Hc|].
  apply carried_object_members in Hv. rewrite Forall_forall in Hv. by apply (Hv _ Hw).
Qed.
Lemma list_keeps {A} (P : A → Prop) (zero : A) into d c v x :
  (∀ c v x, P c → carried d v → into c v = Some x → P x) → P zero → Forall P c → carried d v → into_list zero into c v = Some x → Forall P x.
Proof.
  intros Hinto Hz Hc Hv. destruct v as [| | | |vs|]; try done; cbn [into_list]; [by intros [= <-]; constructor|]. apply carried_elements in Hv.
  revert c x Hc. induction Hv as [|v vs Hv _ IH]; intros c x Hc; cbn [into_elements]; [intros [= <-]; constructor|].
  destruct (into (default zero (head c)) v) as [y|] eqn:E; [|done]. destruct (into_elements zero into (tail c) vs) as [ys|] eqn:Es; [|done]. intros [= <-].
  destruct Hc as [|z c Hz' Hc]; constructor; [by eapply Hinto|by eapply IH|by eapply Hinto|by eapply IH].
Qed.

Record carried_fields (f : toolFields) : Prop := {
  cf_strings : Forall (λ s, ValidString s = true) [fd_Name f; fd_Title f; fd_Description f];
  cf_objects : Forall (λ m, carried_object maxProviderJSONDepth (default ∅ m)) [fd_InputSchema f; fd_OutputSchema f; fd_Annotations f];
}.
Lemma fields_keep f v x : carried_fields f → carried maxProviderJSONDepth v → into_struct tool_members f v = Some x → carried_fields x.
Proof.
  intros Hf Hv. destruct v as [| | | | |ms]; try done; cbn [into_struct]; [by intros [= <-]|]. apply carried_object_members in Hv.
  assert (Forall (λ f, carried maxProviderJSONDepth f.2) ms) as Hms by (eapply Forall_impl; [exact Hv|]; by intros ? []).
  destruct Hf as [Hs Ho]. rewrite !Forall_cons in Hs. rewrite !Forall_cons in Ho. destruct Hs as (H1 & H2 & H3 & _), Ho as (H4 & H5 & H6 & _). unfold tool_members.
  destruct (into_field into_string "name" _ ms) as [name|] eqn:E1; [|done]. destruct (into_field into_string "title" _ ms) as [title|] eqn:E2; [|done].
  destruct (into_field into_string "description" _ ms) as [description|] eqn:E3; [|done]. destruct (into_field into_object "inputSchema" _ ms) as [input|] eqn:E4; [|done].
  destruct (into_field into_object "outputSchema" _ ms) as [output|] eqn:E5; [|done]. destruct (into_field into_object "annotations" _ ms) as [annotations|] eqn:E6; [|done].
  intros [= <-]. split; rewrite !Forall_cons; split_and!; try apply Forall_nil_2; cbn [fd_Name fd_Title fd_Description fd_InputSchema fd_OutputSchema fd_Annotations].
  1-3: eapply (into_field_keeps (λ s, ValidString s = true)); [by intros ? ? ? ? ?; eapply string_keeps|exact Hms| |eassumption]; done.
  all: eapply (into_field_keeps (λ m, carried_object maxProviderJSONDepth (default ∅ m))); [by intros ? ? ? ? ?; eapply object_keeps|exact Hms| |eassumption]; done.
Qed.
Lemma zero_fields_carried : carried_fields zero_fields.
Proof. split; repeat (apply Forall_cons; split; [first [done|apply map_Forall_empty]|]); apply Forall_nil_2. Qed.

Lemma carried_weaken d d' m : d ≤ d' → carried_object d m → carried_object d' m.
Proof. intros Hd Hm k v Hk. destruct (Hm k v Hk) as [? [? ?]]. split; [done|]. split; [done|lia]. Qed.

Lemma fields_carried server title f : carried_fields f → ValidString server = true → ValidString title = true →
  carried_node (tool_node server (tool_of_fields title f)).
Proof.
  intros [Hs Ho] Hserver Htitle. rewrite !Forall_cons in Hs. rewrite !Forall_cons in Ho. destruct Hs as (H1 & H2 & H3 & _), Ho as (H4 & H5 & H6 & _).
  apply map_Forall_singleton. split; [done|]. split; rewrite !Forall_cons; split_and!; try apply Forall_nil_2; cbn; try done;
    (eapply carried_weaken; [|eassumption]); by vm_compute.
Qed.

Section converted.
Context {mcp : McpTools}.

Lemma scanned_carried data v : RejectDuplicateJSONMembers data = Ok tt → parse data = Some v → carried maxProviderJSONDepth v.
Proof.
  intros (w & Hw & Hd & _)%members_exact Hv; [|by vm_compute]. rewrite Hw in Hv. injection Hv as ->. split; [by eapply parse_valid|done].
Qed.

Lemma converted_carried server raw t : convertTool raw = Ok t → ValidString server = true → carried_node (tool_node server t).
Proof.
  unfold convertTool. destruct (RejectDuplicateJSONMembers raw) as [[]|] eqn:Hr; [|done]. cbn [rbind]. destruct (UnmarshalTool raw); [|done].
  destruct (ValidateParamHeaderAnnotations _); [done|]. destruct (parse raw) as [v|] eqn:Hp; [|done]. cbn [mbind option_bind].
  destruct (into_struct tool_members zero_fields v) as [f|] eqn:E; [|done]. destruct (fd_InputSchema f) eqn:Hi; [|done]. intros [= <-] Hserver.
  pose proof (fields_keep _ _ _ zero_fields_carried (scanned_carried _ _ Hr Hp) E) as Hf. apply fields_carried; [done..|].
  destruct Hf as [Hs Ho]. rewrite !Forall_cons in Hs. rewrite !Forall_cons in Ho. destruct Hs as (_ & H2 & _), Ho as (_ & _ & H6 & _). unfold annotated_title.
  destruct (negb _); [done|]. destruct (default ∅ (fd_Annotations f) !! "title") as [[]|] eqn:Ht; try done. destruct (H6 _ _ Ht) as [_ [Hs _]]. exact Hs.
Qed.

Lemma decoded_carried data s : decodeServerTools data = Ok s → carried_server s.
Proof.
  unfold decodeServerTools. destruct (RejectDuplicateJSONMembers data) as [[]|] eqn:Hr; [|done]. cbn [rbind]. destruct (parse data) as [v|] eqn:Hp; [|done]. cbn [mbind option_bind].
  pose proof (scanned_carried _ _ Hr Hp) as Hv. destruct (into_struct server_tools_members ("", []) v) as [[name fs]|] eqn:E; [|done].
  intros (_ & _ & [= <-])%rbind_Ok. assert (ValidString name = true ∧ Forall carried_fields fs) as [Hname Hfs].
  { destruct v as [| | | | |ms]; try done; cbn [into_struct] in E; [injection E as <- <-; by split; [|constructor]|]. apply carried_object_members in Hv.
    assert (Forall (λ f, carried maxProviderJSONDepth f.2) ms) as Hms by (eapply Forall_impl; [exact Hv|]; by intros ? []). unfold server_tools_members in E. cbn [fst snd] in E.
    destruct (into_field into_string "serverName" "" ms) as [n|] eqn:E1; [|done]. cbn [mbind option_bind] in E.
    destruct (into_field (into_list zero_fields (into_struct tool_members)) "tools" [] ms) as [l|] eqn:E2; [|done]. injection E as <- <-. split.
    - eapply (into_field_keeps (λ s, ValidString s = true)); [by intros ? ? ? ? ?; eapply string_keeps|exact Hms| |exact E1]; done.
    - eapply (into_field_keeps (Forall carried_fields)); [|exact Hms| |exact E2]; [|constructor].
      intros c v x Hc Hx. eapply list_keeps; [exact fields_keep|exact zero_fields_carried|done..]. }
  split; [done|]. cbn [se_ServerName se_Tools]. apply Forall_map. eapply Forall_impl; [exact Hfs|]. intros f Hf. apply fields_carried; [done..|].
  destruct Hf as [Hs _]. rewrite !Forall_cons in Hs. apply Hs.
Qed.
End converted.
