(* ===== verification/Backend.v ===== *)
(** * What the broker browses and executes

    Models [internal/server/backend.go]: the backend over the capability
    registry, which lists children and tools by name and executes a tool by the
    path it was listed with, and the backend over a hierarchy. Each call of a
    registry method is one step on its state; between them nothing else runs
    here. The call of a provider is an argument. *)
From Stdlib Require Import Ascii String.
From S2P Require Import Prelude GoStrings Limits Sha256 SnapshotService Records Registry RegistrySteps.
Local Open Scope string_scope.
Local Open Scope list_scope.
Local Open Scope Z_scope.

(** ** Names *)

Definition legacyToolPath (record : CapRecord) (operation : Operation) : string :=
  match rec_operations record with
  | [_] => if String.eqb (rec_parent record) "" then op_Target operation else rec_parent record +:+ "." +:+ op_Target operation
  | _ => md_ID (rec_metadata record) +:+ "." +:+ op_ID operation
  end.

Definition lastPathSegment (path : string) : string :=
  let separator := LastIndexByte path "." in
  if 0 <=? separator then slice_from path (separator + 1) else path.

(** ** Responses *)

(** The maps of the response. *)
Inductive childView := ChildCategory | ChildCapability (tool_count : Z) (capability : string).
Record toolView := mkToolView { tv_description : string; tv_tool_path : string; tv_capability_id : string; tv_operation_id : string }.
Record browseView := mkBrowseView { bv_path : string; bv_children : gmap string childView; bv_tools : gmap string toolView }.

Definition tool_view (record : CapRecord) (capabilityID : string) (operation : Operation) : toolView :=
  mkToolView (op_Description operation) (legacyToolPath record operation) capabilityID (op_ID operation).

Definition add_tool (path capabilityID : string) (record : CapRecord) (tools : gmap string toolView) (operation : Operation) :
    result error (gmap string toolView) :=
  match tools !! op_Target operation with
  | Some _ => Err (Errorf "duplicate operation target %q under %s" [FStr (op_Target operation); FStr path])
  | None => Ok (<[op_Target operation := tool_view record capabilityID operation]> tools)
  end.

(** The name a capability is listed under. *)
Definition child_name (path : string) (operations : list Operation) : string :=
  match operations with [operation] => op_Target operation | _ => lastPathSegment path end.

(** What the loop over the children has built. *)
Record browsing := mkBrowsing { bw_children : gmap string childView; bw_aggregatedTools : gmap string toolView; bw_allLeaves : bool }.

(** One child that is a capability, its record looked up. *)
Definition add_capability (viewPath : string) (child : HierarchyEntry) (record : CapRecord) (b : browsing) : result error browsing :=
  let operations := rec_operations record in
  let childName := child_name (he_Path child) operations in
  match bw_children b !! childName with
  | Some _ => Err (Errorf "duplicate hierarchy child name %q under %s" [FStr childName; FStr viewPath])
  | None =>
      let! tools := rfold (add_tool viewPath (he_CapabilityID child) record) (bw_aggregatedTools b) operations in
      Ok (mkBrowsing (<[childName := ChildCapability (zlen operations) (he_CapabilityID child)]> (bw_children b)) tools (bw_allLeaves b))
  end.

(** The tools of a capability listed at its own path. *)
Definition own_tools (capabilityID : string) (record : CapRecord) : gmap string toolView :=
  foldl (λ tools operation, <[op_Target operation := tool_view record capabilityID operation]> tools) ∅ (rec_operations record).

Section backend.
Context {W : Type} `{SnapshotOps W}.
Implicit Types s : RState W.

(** ** [capabilityBackend] *)

(** A record looked up, used and released. *)
Definition with_record {A} s (capabilityID : string) (use : CapRecord → result error A) : RState W * result error A :=
  let '(s, lease) := Lookup s capabilityID in
  match lease with
  | Err e => (s, Err e)
  | Ok l =>
      match lease_record s l with
      | None => (s, Err nil_pointer)
      | Some record => (lease_Release s l, use record)
      end
  end.

Fixpoint browse_children (viewPath : string) (children : list HierarchyEntry) s (b : browsing) : RState W * result error browsing :=
  match children with
  | [] => (s, Ok b)
  | child :: children =>
      if String.eqb (he_CapabilityID child) "" then
        browse_children viewPath children s
          (mkBrowsing (<[lastPathSegment (he_Path child) := ChildCategory]> (bw_children b)) (bw_aggregatedTools b) false)
      else
        let '(s, r) := with_record s (he_CapabilityID child) (λ record, add_capability viewPath child record b) in
        match r with
        | Err e => (s, Err e)
        | Ok b => browse_children viewPath children s b
        end
  end.

Definition capabilityBackend_Browse s (requestedPath : string) : RState W * result error browseView :=
  match Browse s requestedPath with
  | Err e => (s, Err e)
  | Ok view =>
      let '(s, r) := browse_children (hv_Path view) (hv_Children view) s (mkBrowsing ∅ ∅ (negb (Nat.eqb (length (hv_Children view)) 0))) in
      match r with
      | Err e => (s, Err e)
      | Ok b =>
          if negb (String.eqb (hv_CapabilityID view) "") then
            let '(s, r) := with_record s (hv_CapabilityID view) (λ record, Ok (own_tools (hv_CapabilityID view) record)) in
            (s, let! tools := r in Ok (mkBrowseView (hv_Path view) (bw_children b) tools))
          else (s, Ok (mkBrowseView (hv_Path view) (bw_children b) (if bw_allLeaves b then bw_aggregatedTools b else ∅)))
      end
  end.

(** What a call of [ExecuteMappedTool] is given. *)
Record mappedCall := mkCall { mc_logicalPath : string; mc_serverName : string; mc_toolName : string }.

Definition not_executable : error := ErrorNew "capability provider type is not executable by the MCP adapter".

(** [run] is the call of the provider, during which anything may happen; the
    lease is released when it returns. *)
Definition capabilityBackend_Execute {R} (run : RState W → mappedCall → RState W * result error R) (order : list (string * nat))
    s (toolPath : string) : RState W * result error R :=
  let '(s, lease) := ResolveToolPath order s toolPath in
  match lease with
  | Err e => (s, Err e)
  | Ok l =>
      match x ← g_leases s !! l; ls_target x with
      | None => (s, Err nil_pointer)
      | Some target =>
          let '(s, r) :=
            if negb (String.eqb (pb_Type (it_binding target)) "mcp") then (s, Err not_executable)
            else run s (mkCall (it_capabilityID target +:+ "/" +:+ op_ID (it_operation target)) (pb_ServerRef (it_binding target)) (op_Target (it_operation target))) in
          (lease_Release s l, r)
      end
  end.
End backend.

(** ** Specification *)

Section spec.
Context {W : Type} `{SnapshotOps W}.
Implicit Types s : RState W.

(** Nothing is left of a call but leases that are released. *)
Record quiet s s' : Prop := {
  qu_reg : g_reg s' = g_reg s;
  qu_heap : g_heap s' = g_heap s;
  qu_reclaimed : g_reclaimed s' = g_reclaimed s;
  qu_world : g_world s' = g_world s;
  qu_kept l x : g_leases s !! l = Some x → g_leases s' !! l = Some x;
  qu_new l x : g_leases s' !! l = Some x → g_leases s !! l = Some x ∨ ls_once x = true;
}.

(** The record installed under an ID. *)
Definition record_of s (id : string) : option CapRecord := (λ e, gen_record e.2) <$> live_entry s id.
Definition operations_of s (id : string) : list Operation := match record_of s id with Some r => rec_operations r | None => [] end.

Definition is_capability (c : HierarchyEntry) : bool := negb (String.eqb (he_CapabilityID c) "").
Definition name_of s (c : HierarchyEntry) : string :=
  if is_capability c then child_name (he_Path c) (operations_of s (he_CapabilityID c)) else lastPathSegment (he_Path c).
Definition view_of s (c : HierarchyEntry) : childView :=
  if is_capability c then ChildCapability (zlen (operations_of s (he_CapabilityID c))) (he_CapabilityID c) else ChildCategory.
(** The tools of a capability, by the names they are listed under. *)
Definition tools_of s (id : string) : list (string * toolView) :=
  match record_of s id with
  | Some r => map (λ o, (op_Target o, tool_view r id o)) (rec_operations r)
  | None => []
  end.
Definition child_tools s (c : HierarchyEntry) : list (string * toolView) := if is_capability c then tools_of s (he_CapabilityID c) else [].

(** No capability has the name of a child before it; a category may. *)
Fixpoint names_free s (seen : gset string) (children : list HierarchyEntry) : Prop :=
  match children with
  | [] => True
  | c :: children => (is_capability c = true → name_of s c ∉ seen) ∧ names_free s ({[name_of s c]} ∪ seen) children
  end.
Definition listed_children s (children : list HierarchyEntry) (m : gmap string childView) : gmap string childView :=
  foldl (λ m c, <[name_of s c := view_of s c]> m) m children.

(** ** Lemmas *)

Lemma quiet_refl s : quiet s s.
Proof. split; auto. Qed.
Lemma quiet_trans s1 s2 s3 : quiet s1 s2 → quiet s2 s3 → quiet s1 s3.
Proof.
  intros [R1 H1 C1 W1 K1 N1] [R2 H2 C2 W2 K2 N2]. split; try congruence; [by auto|]. intros l x Hl. destruct (N2 _ _ Hl) as [Hl'|]; [|by right]. by apply N1.
Qed.

Lemma quiet_live s s' id : quiet s s' → live_entry s' id = live_entry s id.
Proof. intros [R Hh _ _ _ _]. unfold live_entry. by rewrite R, Hh. Qed.

Lemma with_record_quiet {A} s id a g (use : CapRecord → result error A) :
  r_closed (g_reg s) = false → live_entry s id = Some (a, g) → 0 ≤ gen_refs g →
  ∃ s', with_record s id use = (s', use (gen_record g)) ∧ quiet s s'.
Proof.
  intros Hc Hl Hr. pose proof (live_entry_Some _ _ _ _ Hl) as (_ & Hg & Hret). unfold with_record, Lookup. rewrite Hc, Hl.
  set (l := fresh (dom (g_leases s))). assert (g_leases s !! l = None) as Hf by (apply not_elem_of_dom, is_fresh).
  cbn [new_lease]. fold l. unfold lease_record, lease_Release. cbn [g_leases with_lease with_gen g_heap mbind option_bind]. rewrite lookup_insert_eq. cbn [ls_once ls_generation mbind option_bind].
  rewrite lookup_insert_eq. cbn [fmap option_fmap option_map]. eexists. split; [done|]. unfold release. cbn [g_heap with_lease with_gen]. rewrite lookup_insert_eq.
  cbn [gen_refs gen_retired gen_id gen_record]. rewrite (proj2 (Z.leb_gt _ _)), Hret, andb_false_r by lia.
  assert (mkGen (gen_id g) (gen_record g) (gen_refs g + 1 - 1) false = g) as E by (destruct g; cbn in *; f_equal; [lia|done]).
  unfold with_gen, with_lease. cbn. rewrite E, !insert_insert_eq, insert_id by done. split; cbn; try done.
  - intros k x Hk. destruct (decide (k = l)) as [->|]; [congruence|]. by rewrite lookup_insert_ne.
  - intros k x. destruct (decide (k = l)) as [->|]; [rewrite lookup_insert_eq; intros [= <-]; by right|]. rewrite lookup_insert_ne by done. by left.
Qed.

(** A loop that inserts what is not there yet. *)
Lemma fresh_inserts {A V} (f : gmap string V → A → result error (gmap string V)) (k : A → string) (v : A → V) :
  (∀ m x m', f m x = Ok m' ↔ (m !! k x = None ∧ m' = <[k x := v x]> m)) → ∀ l m m',
  rfold f m l = Ok m' ↔
    NoDup (map k l) ∧ Forall (λ x, m !! k x = None) l ∧ m' = list_to_map (map (λ x, (k x, v x)) l) ∪ m.
Proof.
  intros Hf l. induction l as [|x l IH]; intros m m'; cbn [rfold map].
  { rewrite list_to_map_nil, (left_id_L ∅ (∪)). split; [intros [= ->]; split_and!; constructor|by intros (_ & _ & ->)]. }
  rewrite rbind_Ok, Forall_cons, NoDup_cons, list_to_map_cons. split.
  - intros (m1 & [Hx ->]%Hf & Hl). apply IH in Hl as (Hnd & Hfree & ->). rewrite Forall_forall in Hfree.
    assert (k x ∉ map k l) as Hn.
    { intros (y & E & Hy)%list_elem_of_In%in_map_iff. apply list_elem_of_In in Hy. specialize (Hfree y Hy). by rewrite E, lookup_insert_eq in Hfree. }
    split_and!; [done|done|done| |].
    + apply Forall_forall. intros y Hy. specialize (Hfree y Hy). by apply lookup_insert_None in Hfree as [? _].
    + rewrite <- insert_union_r; [by rewrite insert_union_l|]. apply not_elem_of_list_to_map_1. rewrite <- list_fmap_compose. exact Hn.
  - intros ([Hn Hnd] & [Hx Hfree] & ->). exists (<[k x := v x]> m). split; [by apply Hf|]. apply IH. rewrite Forall_forall in Hfree. split_and!; [done| |].
    + apply Forall_forall. intros y Hy. apply lookup_insert_None. split; [by apply Hfree|]. intros E. apply Hn. rewrite E.
      apply list_elem_of_In, in_map_iff. exists y. split; [done|]. by apply list_elem_of_In.
    + rewrite <- insert_union_r; [by rewrite insert_union_l|]. apply not_elem_of_list_to_map_1. rewrite <- list_fmap_compose. exact Hn.
Qed.

Lemma add_tool_iff path id record m o m' :
  add_tool path id record m o = Ok m' ↔ m !! op_Target o = None ∧ m' = <[op_Target o := tool_view record id o]> m.
Proof. unfold add_tool. destruct (m !! op_Target o); naive_solver. Qed.

Definition ready s (id : string) : Prop := ∃ a g, live_entry s id = Some (a, g) ∧ 0 ≤ gen_refs g.

Lemma add_capability_iff s path c b b' : is_capability c = true → ∀ r, record_of s (he_CapabilityID c) = Some r →
  add_capability path c r b = Ok b' ↔
    (name_of s c ∉ dom (bw_children b)) ∧ NoDup (child_tools s c).*1 ∧ Forall (λ p, bw_aggregatedTools b !! p.1 = None) (child_tools s c) ∧
    b' = mkBrowsing (<[name_of s c := view_of s c]> (bw_children b)) (list_to_map (child_tools s c) ∪ bw_aggregatedTools b) (bw_allLeaves b).
Proof.
  intros Hc r Hr. unfold add_capability, name_of, view_of, child_tools, operations_of, tools_of. rewrite Hc, Hr. set (name := child_name _ _).
  rewrite not_elem_of_dom. destruct (bw_children b !! name) eqn:En; [split; [done|by intros [? _]]|]. rewrite rbind_Ok.
  setoid_rewrite (fresh_inserts _ op_Target (tool_view r (he_CapabilityID c)) (add_tool_iff path (he_CapabilityID c) r)).
  rewrite <- list_fmap_compose, Forall_map. cbn. split.
  - intros (m & (Hnd & Hf & ->) & [= <-]). by split_and!.
  - intros (_ & Hnd & Hf & ->). eexists. by split_and!.
Qed.

Lemma union_fresh {A} (T R : list (string * A)) (m : gmap string A) :
  Forall (λ p, ((list_to_map T : gmap string A) ∪ m) !! p.1 = None) R ↔ (∀ x, x ∈ T.*1 → x ∉ R.*1) ∧ Forall (λ p, m !! p.1 = None) R.
Proof.
  rewrite !Forall_forall. setoid_rewrite lookup_union_None. setoid_rewrite <- not_elem_of_list_to_map. split.
  - intros Hr. split; [|intros p Hp; by apply Hr]. intros x Hx (p & -> & Hp)%list_elem_of_fmap. by destruct (Hr p Hp).
  - intros [Hd Hm] p Hp. split; [|by apply Hm]. intros Hx. apply (Hd _ Hx). by apply list_elem_of_fmap_2.
Qed.

Lemma name_category s c : is_capability c = false → name_of s c = lastPathSegment (he_Path c) ∧ view_of s c = ChildCategory ∧ child_tools s c = [].
Proof. intros Hc. unfold name_of, view_of, child_tools. by rewrite Hc. Qed.

Lemma browse_children_spec s0 path children : r_closed (g_reg s0) = false → ∀ s b,
  quiet s0 s → (∀ c, c ∈ children → is_capability c = true → ready s0 (he_CapabilityID c)) →
  ∃ s' r, browse_children path children s b = (s', r) ∧ quiet s0 s' ∧ ∀ b', r = Ok b' ↔
    names_free s0 (dom (bw_children b)) children ∧ NoDup (flat_map (child_tools s0) children).*1 ∧
    Forall (λ p, bw_aggregatedTools b !! p.1 = None) (flat_map (child_tools s0) children) ∧
    b' = mkBrowsing (listed_children s0 children (bw_children b)) (list_to_map (flat_map (child_tools s0) children) ∪ bw_aggregatedTools b)
           (bw_allLeaves b && forallb is_capability children).
Proof.
  intros Hopen. induction children as [|c children IH]; intros s b Hq Hready; cbn [browse_children flat_map names_free forallb].
  { exists s, (Ok b). split; [done|]. split; [done|]. intros b'. rewrite list_to_map_nil, (left_id_L ∅ (∪)), andb_true_r.
    destruct b as [bc ba bl]. split; [intros [= <-]; split_and!; constructor|by intros (_ & _ & _ & ->)]. }
  assert (∀ c, c ∈ children → is_capability c = true → ready s0 (he_CapabilityID c)) as Hrest by (intros x Hx; apply Hready; by right).
  destruct (is_capability c) eqn:Hc.
  - pose proof Hc as Hid. unfold is_capability in Hid. apply negb_true_iff in Hid. rewrite Hid.
    destruct (Hready c ltac:(by left) Hc) as (a & g & Hl & Hr).
    assert (record_of s0 (he_CapabilityID c) = Some (gen_record g)) as Hrec by (unfold record_of; by rewrite Hl).
    destruct (with_record_quiet s (he_CapabilityID c) a g (λ record, add_capability path c record b)) as (s1 & Hw & Hq1).
    { by rewrite (qu_reg _ _ Hq). } { by rewrite (quiet_live _ _ _ Hq). } { done. }
    rewrite Hw. cbn [fst snd]. pose proof (quiet_trans _ _ _ Hq Hq1) as Hq'. pose proof (λ b', add_capability_iff s0 path c b b' Hc _ Hrec) as Hadd.
    destruct (add_capability path c (gen_record g) b) as [b1|e].
    + destruct (proj1 (Hadd b1) eq_refl) as (Hn & Hnd & Hfree & E).
      destruct (IH s1 b1 Hq' Hrest) as (s' & r & -> & Hq2 & Hb). exists s', r. split; [done|]. split; [done|]. intros b'. rewrite Hb, E.
      cbn [bw_children bw_aggregatedTools bw_allLeaves listed_children foldl andb]. rewrite dom_insert_L, fmap_app, list_to_map_app, NoDup_app, Forall_app, union_fresh.
      fold (listed_children s0 children (<[name_of s0 c := view_of s0 c]> (bw_children b))). split.
      * intros (? & ? & (Hd & ?) & ->). split_and!; [done..|]. f_equal. rewrite (assoc_L (∪)). f_equal. symmetry. apply map_union_comm.
        apply map_disjoint_list_to_map_l, Forall_forall. intros p Hp. apply not_elem_of_list_to_map_1. by apply Hd, list_elem_of_fmap_2.
      * intros ((? & ?) & (_ & Hd & ?) & (? & ?) & ->). split_and!; [done..|]. f_equal. rewrite (assoc_L (∪)). f_equal. apply map_union_comm.
        apply map_disjoint_list_to_map_l, Forall_forall. intros p Hp. apply not_elem_of_list_to_map_1. by apply Hd, list_elem_of_fmap_2.
    + exists s1, (Err e). split; [done|]. split; [done|]. intros b'. split; [done|]. intros ([Hn _] & Hnd & Hfree & _).
      rewrite fmap_app, NoDup_app in Hnd. apply Forall_app in Hfree as [Hfree _]. pose proof (proj2 (Hadd _) (conj (Hn eq_refl) (conj (proj1 Hnd) (conj Hfree eq_refl)))) as E. discriminate E.
  - pose proof Hc as Hid. unfold is_capability in Hid. apply negb_false_iff in Hid. rewrite Hid. destruct (name_category s0 c Hc) as (Hn & Hv & Ht).
    destruct (IH s (mkBrowsing (<[lastPathSegment (he_Path c) := ChildCategory]> (bw_children b)) (bw_aggregatedTools b) false) Hq Hrest)
      as (s' & r & E & Hq' & Hb). exists s', r. split; [done|]. split; [done|]. intros b'. rewrite Hb. cbn [bw_children bw_aggregatedTools bw_allLeaves andb listed_children foldl].
    rewrite Hn, Hv, Ht, dom_insert_L, andb_false_r. cbn [app]. naive_solver.
Qed.
End spec.

Section properties.
Context {W : Type} `{SnapshotOps W} `{!SnapshotLaws W}.
Implicit Types s : RState W.

Lemma installed_ready s id a : reg_inv s → r_entries (g_reg s) !! id = Some a → ready s id.
Proof.
  intros Hs Ha. destruct (rv_heap _ Hs) as (E & Hi & He). destruct (entries_live _ _ _ _ Hi He Ha) as (_ & g & Hg & Hr & _).
  exists a, g. split; [unfold live_entry; by rewrite Ha, Hg, Hr|]. rewrite (hi_refs _ _ Hi _ _ Hg). pose proof (pins_nonneg s a). case_bool_decide; lia.
Qed.

Lemma node_ready s k n : reg_inv s → r_closed (g_reg s) = false → r_nodes (g_reg s) !! k = Some n → hn_capabilityID n ≠ "" → ready s (hn_capabilityID n).
Proof.
  intros Hs Hc Hn Hid. rewrite (rv_nodes _ Hs Hc) in Hn. destruct (rebuildHierarchy_correct (installed_records s)) as [_ Hcap _ _ _].
  rewrite (Hcap _ _ Hn) in Hid |- *. case_bool_decide as Hin; [|done]. apply list_elem_of_fmap in Hin as ([id r] & -> & Hr).
  apply list_elem_of_omap in Hr as ([id' a] & Ha & Hg). apply elem_of_map_to_list in Ha. destruct (g_heap s !! a); [|done]. injection Hg as <- _.
  by eapply installed_ready.
Qed.

Lemma browse_view s path view : reg_inv s → Browse s path = Ok view →
  r_closed (g_reg s) = false ∧ (∀ c, c ∈ hv_Children view → is_capability c = true → ready s (he_CapabilityID c)) ∧
  (hv_CapabilityID view ≠ "" → ready s (hv_CapabilityID view)).
Proof.
  intros Hs. unfold Browse. destruct (r_closed (g_reg s)) eqn:Hc; [done|]. unfold browseLocked. destruct (r_nodes (g_reg s) !! _) as [n|] eqn:Hn; [|done].
  intros [= <-]. cbn [hv_Children hv_CapabilityID]. split; [done|]. split; [|by eapply node_ready].
  intros c (p & -> & _)%list_elem_of_fmap Hcap. unfold is_capability in Hcap. apply negb_true_iff, String.eqb_neq in Hcap.
  assert (he_CapabilityID (browse_child s p) = hn_capabilityID (default zero_node (r_nodes (g_reg s) !! p))) as E by (unfold browse_child; by repeat case_match).
  rewrite E in Hcap |- *. destruct (r_nodes (g_reg s) !! p) as [m|] eqn:Hm; [|done]. by eapply node_ready.
Qed.

Lemma own_tools_spec id r : ∀ name tv, own_tools id r !! name = Some tv → ∃ o, o ∈ rec_operations r ∧ name = op_Target o ∧ tv = tool_view r id o.
Proof.
  intros name tv. unfold own_tools. assert (∀ m : gmap string toolView, foldl (λ tools o, <[op_Target o := tool_view r id o]> tools) m (rec_operations r) !! name = Some tv →
    m !! name = Some tv ∨ ∃ o, o ∈ rec_operations r ∧ name = op_Target o ∧ tv = tool_view r id o) as Hm; [|intros Hn; by destruct (Hm _ Hn)].
  induction (rec_operations r) as [|o ops IH]; intros m Hn; cbn [foldl] in Hn; [by left|]. apply IH in Hn as [Hn|(o' & Ho & ?)].
  - apply lookup_insert_Some in Hn as [[<- <-]|[_ Hn]]; [right; exists o; split; [by left|done]|by left].
  - right. exists o'. split; [by right|done].
Qed.

Lemma browse_spec s path view s' r : reg_reachable s → Browse s path = Ok view → capabilityBackend_Browse s path = (s', r) →
  quiet s s' ∧
  (is_Ok r ↔ names_free s ∅ (hv_Children view) ∧ NoDup (flat_map (child_tools s) (hv_Children view)).*1) ∧
  ∀ v, r = Ok v → bv_path v = hv_Path view ∧ bv_children v = listed_children s (hv_Children view) ∅ ∧
    bv_tools v =
      (if String.eqb (hv_CapabilityID view) "" then
         if forallb is_capability (hv_Children view) then list_to_map (flat_map (child_tools s) (hv_Children view)) else ∅
       else match record_of s (hv_CapabilityID view) with Some record => own_tools (hv_CapabilityID view) record | None => ∅ end).
Proof.
  intros Hs%reg_reachable_inv Hv. destruct (browse_view _ _ _ Hs Hv) as (Hc & Hready & Hown). unfold capabilityBackend_Browse. rewrite Hv.
  set (b0 := mkBrowsing ∅ ∅ _). destruct (browse_children_spec s (hv_Path view) (hv_Children view) Hc s b0 (quiet_refl s) Hready) as (s1 & r1 & -> & Hq & Hb).
  assert (dom (bw_children b0) = ∅) as Hd by apply dom_empty_L. rewrite Hd in Hb.
  assert (Forall (λ p : string * toolView, bw_aggregatedTools b0 !! p.1 = None) (flat_map (child_tools s) (hv_Children view))) as Hfree by by apply Forall_forall.
  assert (is_Ok r1 ↔ names_free s ∅ (hv_Children view) ∧ NoDup (flat_map (child_tools s) (hv_Children view)).*1) as Hok.
  { split; [intros [b Hr]; by apply Hb in Hr as (Hn & Hnd & _)|]. intros [Hn Hnd]. eexists. apply Hb. by split_and!. }
  rewrite <- Hok. clear Hok. destruct r1 as [b|e]; [|intros [= <- <-]; split; [done|]; split; [split; by intros []|done]].
  destruct (proj1 (Hb b) eq_refl) as (_ & _ & _ & ->). cbn [bw_children bw_aggregatedTools bw_allLeaves b0]. rewrite (right_id_L ∅ (∪)).
  destruct (String.eqb_spec (hv_CapabilityID view) "") as [Hid|Hid]; cbn [negb].
  - intros [= <- <-]. split; [done|]. split; [split; by eexists|]. intros v [= <-]. cbn. split_and!; [done..|].
    destruct (hv_Children view); [done|]. done.
  - destruct (Hown Hid) as (a & g & Hl & Hr). destruct (with_record_quiet s1 (hv_CapabilityID view) a g (λ record, Ok (own_tools (hv_CapabilityID view) record)))
      as (s2 & -> & Hq2); [by rewrite (qu_reg _ _ Hq)|by rewrite (quiet_live _ _ _ Hq)|done|].
    intros [= <- <-]. split; [by eapply quiet_trans|]. split; [split; by eexists|]. intros v [= <-]. cbn. split_and!; [done..|].
    unfold record_of. by rewrite Hl.
Qed.

(** The tools listed are operations of installed capabilities. *)
Lemma listed_tool s path view s' v name tv : reg_reachable s → Browse s path = Ok view → capabilityBackend_Browse s path = (s', Ok v) →
  bv_tools v !! name = Some tv →
  ∃ id a g o, id ≠ "" ∧ live_entry s id = Some (a, g) ∧ o ∈ rec_operations (gen_record g) ∧ name = op_Target o ∧ tv = tool_view (gen_record g) id o.
Proof.
  intros Hs Hv Hb Htv. destruct (browse_spec _ _ _ _ _ Hs Hv Hb) as (_ & _ & Hr). destruct (Hr v eq_refl) as (_ & _ & Ht). rewrite Ht in Htv.
  destruct (String.eqb_spec (hv_CapabilityID view) "") as [Hid|Hid].
  - destruct (forallb _ _); [|done]. apply elem_of_list_to_map_2, list_elem_of_In, in_flat_map in Htv as (c & _ & Hin).
    unfold child_tools in Hin. destruct (is_capability c) eqn:Hc; [|done]. unfold tools_of, record_of in Hin.
    destruct (live_entry s (he_CapabilityID c)) as [[a g]|] eqn:Hl; [|done]. apply in_map_iff in Hin as (o & [= <- <-] & Ho). apply list_elem_of_In in Ho.
    exists (he_CapabilityID c), a, g, o. split_and!; [|done..]. unfold is_capability in Hc. by apply negb_true_iff, String.eqb_neq in Hc.
  - unfold record_of in Htv. destruct (live_entry s (hv_CapabilityID view)) as [[a g]|] eqn:Hl; [|done].
    apply own_tools_spec in Htv as (o & Ho & -> & ->). by exists (hv_CapabilityID view), a, g, o.
Qed.

Lemma legacyMatch_quiet s s' path e : quiet s s' → legacyMatch s' path e = legacyMatch s path e.
Proof. intros [_ Hh _ _ _ _]. unfold legacyMatch. by rewrite Hh. Qed.
Lemma legacy_claims_quiet s s' path id o : quiet s s' → legacy_claims s' path id o ↔ legacy_claims s path id o.
Proof. intros Hq. unfold legacy_claims. rewrite (qu_reg _ _ Hq). by setoid_rewrite (legacyMatch_quiet _ _ _ _ Hq). Qed.

(** The path a tool is listed with leads to its operation. *)
Lemma listed_plan s order id a g o : reg_inv s → order ≡ₚ map_to_list (r_entries (g_reg s)) → id ≠ "" →
  live_entry s id = Some (a, g) → o ∈ rec_operations (gen_record g) → operations_ok (gen_record g) →
  (∀ id' o', legacy_claims s (legacyToolPath (gen_record g) o) id' o' → id' = id) →
  (rec_operations (gen_record g) ≠ [o] → ¬ offered_at_id s (legacyToolPath (gen_record g) o)) →
  tool_plan order s (legacyToolPath (gen_record g) o) = Ok (id, op_ID o).
Proof.
  intros Hs Hord Hid Hl Ho Hok Hclaims Hoff. pose proof (live_entry_Some _ _ _ _ Hl) as (Ha & Hg & Hret).
  assert (gen_capability g = id) as Hcap.
  { destruct (rv_heap _ Hs) as (E & Hi & He). destruct (entries_live _ _ _ _ Hi He Ha) as (_ & h & Hh & _ & ?). congruence. }
  unfold legacyToolPath in *. destruct (rec_operations (gen_record g)) as [|o1 [|o2 ops]] eqn:Hops; [by apply elem_of_nil in Ho| |].
  - apply list_elem_of_singleton in Ho as ->. apply tool_plan_legacy; [done| |done]. exists a. split; [done|].
    unfold legacyMatch. cbn [fst snd]. by rewrite Hg, Hret, Hops, String.eqb_refl.
  - rewrite <- Hops in Ho. destruct (oo_names _ Hok _ Ho) as [Hne Hdot]. unfold gen_capability in Hcap. rewrite Hcap in *.
    rewrite tool_plan_no_legacy; [by apply tool_plan_dotted, Hoff|done|].
    intros id' o' Hc. pose proof (Hclaims _ _ Hc) as ->. destruct Hc as (b & Hb & Hm). assert (b = a) as -> by congruence.
    unfold legacyMatch in Hm. cbn [fst snd] in Hm. by rewrite Hg, Hret, Hops in Hm.
Qed.

(** And to its provider. *)
Lemma listed_executes s path view s' v name tv order : reg_reachable s → Browse s path = Ok view →
  capabilityBackend_Browse s path = (s', Ok v) → bv_tools v !! name = Some tv → order ≡ₚ map_to_list (r_entries (g_reg s')) →
  ∃ a g o, live_entry s (tv_capability_id tv) = Some (a, g) ∧ o ∈ rec_operations (gen_record g) ∧
    op_ID o = tv_operation_id tv ∧ op_Target o = name ∧ op_Description o = tv_description tv ∧
    (operations_ok (gen_record g) →
     (∀ id o, legacy_claims s (tv_tool_path tv) id o → id = tv_capability_id tv) →
     (rec_operations (gen_record g) ≠ [o] → ¬ offered_at_id s (tv_tool_path tv)) →
     ∃ b l s2, b ∈ rec_providers (gen_record g) ∧ pb_ID b = op_Provider o ∧ g_leases s' !! l = None ∧
       lease_record s2 l = Some (gen_record g) ∧ (∃ x, g_leases s2 !! l = Some x ∧ ls_once x = false) ∧
       ∀ R (run : RState W → mappedCall → RState W * result error R),
         capabilityBackend_Execute run order s' (tv_tool_path tv) =
           let '(s3, r) := if String.eqb (pb_Type b) "mcp"
                           then run s2 (mkCall (tv_capability_id tv +:+ "/" +:+ op_ID o) (pb_ServerRef b) name)
                           else (s2, Err not_executable) in
           (lease_Release s3 l, r)).
Proof.
  intros Hs Hv Hb Htv Hord. destruct (listed_tool _ _ _ _ _ _ _ Hs Hv Hb Htv) as (id & a & g & o & Hid & Hl & Ho & -> & ->).
  destruct (browse_spec _ _ _ _ _ Hs Hv Hb) as (Hq & _). apply reg_reachable_inv in Hs. destruct (browse_view _ _ _ Hs Hv) as (Hc & _).
  exists a, g, o. cbn [tool_view tv_capability_id tv_operation_id tv_description tv_tool_path]. split_and!; [done..|].
  intros Hok Hclaims Hoff. pose proof (live_entry_Some _ _ _ _ Hl) as (_ & Hg & _).
  assert (tool_plan order s' (legacyToolPath (gen_record g) o) = Ok (id, op_ID o)) as Hplan.
  { rewrite (qu_reg _ _ Hq) in Hord. rewrite <- (listed_plan s order id a g o) by done. unfold tool_plan. rewrite (quiet_live _ _ _ Hq).
    assert (omap (legacyMatch s' (legacyToolPath (gen_record g) o)) order = omap (legacyMatch s (legacyToolPath (gen_record g) o)) order) as ->; [|done].
    clear -Hq. induction order as [|e order IH]; [done|]. cbn. by rewrite (legacyMatch_quiet _ _ _ _ Hq), IH. }
  assert (resolved s' a g id o (ResolveToolPath order s' (legacyToolPath (gen_record g) o))) as (l & b & Hf & Hbin & Hbid & E).
  { rewrite (ResolveToolPath_plan _ _ _ _ _ Hplan). apply ResolveOperation_resolved; [by rewrite (qu_reg _ _ Hq)|by rewrite (quiet_live _ _ _ Hq)|done|done]. }
  eexists b, l, _. split_and!; [done|done|done|..]; cycle 2.
  { intros R run. unfold capabilityBackend_Execute. rewrite E. cbn [g_leases mbind option_bind]. rewrite lookup_insert_eq. cbn [ls_target mbind option_bind it_binding it_operation it_capabilityID].
    by destruct (String.eqb (pb_Type b) "mcp"). }
  - unfold lease_record. cbn. rewrite lookup_insert_eq. cbn. by rewrite lookup_insert_eq.
  - eexists. cbn. by rewrite lookup_insert_eq.
Qed.

(** ** Properties *)


(** What is listed can be executed. A tool that browsing lists, executed by
    the path it is listed with, calls its provider with the operation's target
    on the server its binding names, while a lease pins the record it was
    listed from, and releases that lease when the call returns, whatever
    happened; unless another capability's legacy path is the same or the path
    of a capability of one operation hides it. A binding of another type is
    refused without a call. *)
Theorem browsed_tool_executes s path view s' v name tv order : reg_reachable s → Browse s path = Ok view →
  capabilityBackend_Browse s path = (s', Ok v) → bv_tools v !! name = Some tv → order ≡ₚ map_to_list (r_entries (g_reg s')) →
  ∃ a g o, live_entry s (tv_capability_id tv) = Some (a, g) ∧ o ∈ rec_operations (gen_record g) ∧
    op_ID o = tv_operation_id tv ∧ op_Target o = name ∧ op_Description o = tv_description tv ∧
    (operations_ok (gen_record g) →
     (∀ id o, legacy_claims s (tv_tool_path tv) id o → id = tv_capability_id tv) →
     (rec_operations (gen_record g) ≠ [o] → ¬ offered_at_id s (tv_tool_path tv)) →
     ∃ b l s2, b ∈ rec_providers (gen_record g) ∧ pb_ID b = op_Provider o ∧ g_leases s' !! l = None ∧
       lease_record s2 l = Some (gen_record g) ∧ (∃ x, g_leases s2 !! l = Some x ∧ ls_once x = false) ∧
       ∀ R (run : RState W → mappedCall → RState W * result error R),
         capabilityBackend_Execute run order s' (tv_tool_path tv) =
           let '(s3, r) := if String.eqb (pb_Type b) "mcp"
                           then run s2 (mkCall (tv_capability_id tv +:+ "/" +:+ op_ID o) (pb_ServerRef b) name)
                           else (s2, Err not_executable) in
           (lease_Release s3 l, r)).
Proof. apply listed_executes. Qed.
End properties.

(** ** Concrete runs *)

Section examples.
#[local] Existing Instance no_store_ops.

(** Two capabilities of one category that both offer an operation of the same
    target: the category cannot be browsed, and neither can be found below it. *)
Definition clashing : RState no_store :=
  (NewRegistry mkNoStore
     [Some (ex_record "dev.git" "" [ex_operation "log" "log"; ex_operation "find" "search"]);
      Some (ex_record "dev.web" "" [ex_operation "get" "get"; ex_operation "look" "search"])]).1.
Example clashing_targets : (capabilityBackend_Browse clashing "dev").2 = Err (Errorf "duplicate operation target %q under %s" [FStr "search"; FStr "dev"]).
Proof. vm_compute. reflexivity. Qed.

(** A capability listed under its operation's target, replaced by the category
    of that name; with the names the other way round the category cannot be
    browsed. *)
Definition hidden (id : string) : RState no_store :=
  (NewRegistry mkNoStore [Some (ex_record id "" [ex_operation "run" "mid"]); Some (ex_record "x.mid.deep" "" [ex_operation "a" "b"])]).1.
Example category_hides_capability :
  ((λ v, map_to_list (bv_children v)) <$> match (capabilityBackend_Browse (hidden "x.first") "x").2 with Ok v => Some v | Err _ => None end) = Some [("mid", ChildCategory)] ∧
  (capabilityBackend_Browse (hidden "x.second") "x").2 = Err (Errorf "duplicate hierarchy child name %q under %s" [FStr "mid"; FStr "x"]).
Proof. vm_compute. split; reflexivity. Qed.
End examples.

Definition demo_browse := capabilityBackend_Browse demo_s1 "everything".
Definition demo_view : browseView := match demo_browse.2 with Ok v => v | Err _ => mkBrowseView "" ∅ ∅ end.
Definition demo_hview : HierarchyView := match Browse demo_s1 "everything" with Ok v => v | Err _ => mkHView "" "" [] end.
Definition demo_tool : toolView := mkToolView "Echo a message" "everything.echo_message" "everything.echo" "echo".


Lemma browsed_tool_executes_witness :
  ∃ b l s2, g_leases demo_browse.1 !! l = None ∧ pb_Type b = "mcp" ∧
    capabilityBackend_Execute (λ s c, (s, Ok c)) (map_to_list (r_entries (g_reg demo_browse.1))) demo_browse.1 "everything.echo_message" =
      (lease_Release s2 l, Ok (mkCall "everything.echo/echo" "everything" "echo_message")).
Proof.
  assert (Browse demo_s1 "everything" = Ok demo_hview) as Hv by (vm_compute; reflexivity).
  assert (demo_browse = (demo_browse.1, Ok demo_view)) as Hb by (vm_compute; reflexivity).
  assert (bv_tools demo_view !! "echo_message" = Some demo_tool) as Ht by (vm_compute; reflexivity).
  destruct (browsed_tool_executes demo_s1 "everything" demo_hview demo_browse.1 demo_view "echo_message" demo_tool
    (map_to_list (r_entries (g_reg demo_browse.1))) demo_s1_reachable Hv Hb Ht (Permutation_refl _)) as (a & g & o & Hl & Ho & Hid & _ & _ & Hx).
  assert (live_entry demo_s1 "everything.echo" = Some (0%nat, mkGen 1 demo_record 1 false)) as E by (vm_compute; reflexivity).
  change (tv_capability_id demo_tool) with "everything.echo" in Hl. rewrite E in Hl. injection Hl as <- <-.
  apply list_elem_of_singleton in Ho. subst o.
  destruct Hx as (b & l & s2 & Hbin & _ & Hf & _ & _ & Hrun).
  - split; [apply NoDup_singleton|apply NoDup_singleton| |]; intros o Ho%list_elem_of_singleton; subst o; [split; [discriminate|reflexivity]|].
    exists demo_binding. split; [by left|reflexivity].
  - intros id o (a & Ha & _). change (r_entries (g_reg demo_s1)) with ({["everything.echo" := 0%nat]} : gmap string nat) in Ha.
    apply lookup_singleton_Some in Ha as [<- _]. reflexivity.
  - intros Hne. destruct Hne. reflexivity.
  - apply list_elem_of_singleton in Hbin. subst b. exists demo_binding, l, s2. split; [exact Hf|]. split; [reflexivity|].
    exact (Hrun mappedCall (λ s c, (s, Ok c))).
Defined.
