(* ===== verification/ProviderCall.v ===== *)
(** * Calling a provider

    Models the rest of [internal/hierarchy/hierarchy.go]: the mutex that
    serialises the calls of a provider and the waits for it, the context that
    a provider is started under, the start itself as the calls it makes in
    order, and [ExecuteMappedTool] with the results it answers. Clocks, the
    transports and mcp-go's client are arguments. *)
From stdpp Require Import relations.
From Stdlib Require Import Ascii String.
From S2P Require Import Prelude GoStrings Limits Sha256 Utf8 Json JsonScan JsonStruct JsonRound Snapshot Yaml ResponseLimit ProviderRegistry Hierarchy Generated Protocol.
Local Open Scope string_scope.
Local Open Scope list_scope.
Local Open Scope Z_scope.

(** ** [ClientMutex] *)

(** A call of [LockContext] or [Lock] and what follows it: waiting for the
    token, having taken it but not looked at its context yet, holding the
    mutex, refused, or done with it. *)
Inductive phase := Waiting (patient : bool) | Taken | Holding | Refused | Returned.
Global Instance phase_eq_dec : EqDecision phase.
Proof. solve_decision. Defined.

(** The tokens in the channel, the calls, and those whose context is done. *)
Record ClientMutex := mkMutex { mx_token : Z; mx_calls : gmap nat phase; mx_done : gset nat }.
Definition NewClientMutex : ClientMutex := mkMutex 1 ∅ ∅.

Definition with_call (m : ClientMutex) (tokens : Z) (i : nat) (p : phase) : ClientMutex :=
  mkMutex tokens (<[i := p]> (mx_calls m)) (mx_done m).

Inductive mutex_action :=
| MLock (i : nat)        (* a call of [Lock], which waits whatever its context *)
| MLockContext (i : nat) (* a call of [LockContext] *)
| MDone (i : nat)        (* its context is done *)
| MRefuse (i : nat)      (* the [select] takes the context's branch *)
| MTake (i : nat)        (* the [select] takes the token *)
| MChecked (i : nat)     (* [ctx.Err()] after the token is taken *)
| MUnlock (i : nat).

(** One step, where it is possible; a send blocks while the channel is full. *)
Definition mutex_exec (m : ClientMutex) (a : mutex_action) : option ClientMutex :=
  match a with
  | MLock i => match mx_calls m !! i with None => Some (with_call m (mx_token m) i (Waiting true)) | Some _ => None end
  | MLockContext i => match mx_calls m !! i with None => Some (with_call m (mx_token m) i (Waiting false)) | Some _ => None end
  | MDone i => Some (mkMutex (mx_token m) (mx_calls m) ({[i]} ∪ mx_done m))
  | MRefuse i =>
      match mx_calls m !! i with
      | Some (Waiting false) => if bool_decide (i ∈ mx_done m) then Some (with_call m (mx_token m) i Refused) else None
      | _ => None
      end
  | MTake i =>
      if mx_token m <? 1 then None
      else match mx_calls m !! i with
           | Some (Waiting true) => Some (with_call m (mx_token m - 1) i Holding)
           | Some (Waiting false) => Some (with_call m (mx_token m - 1) i Taken)
           | _ => None
           end
  | MChecked i =>
      match mx_calls m !! i with
      | Some Taken =>
          if bool_decide (i ∈ mx_done m)
          then if mx_token m <? 1 then Some (with_call m (mx_token m + 1) i Refused) else None
          else Some (with_call m (mx_token m) i Holding)
      | _ => None
      end
  | MUnlock i =>
      match mx_calls m !! i with
      | Some Holding => if mx_token m <? 1 then Some (with_call m (mx_token m + 1) i Returned) else None
      | _ => None
      end
  end.
Definition mutex_step (m m' : ClientMutex) : Prop := ∃ a, mutex_exec m a = Some m'.
Definition mutex_reachable (m : ClientMutex) : Prop := rtc mutex_step NewClientMutex m.

Definition has_token (p : phase) : Z := match p with Taken | Holding => 1 | _ => 0 end.

(** ** [GetClientMutex] *)

(** The mutexes of a registry, by server. *)
Definition GetClientMutex (mutexes : gmap string ClientMutex) (serverName : string) : gmap string ClientMutex * ClientMutex :=
  match mutexes !! serverName with
  | Some m => (mutexes, m)
  | None => (<[serverName := NewClientMutex]> mutexes, NewClientMutex)
  end.

(** *** Invariant *)

Definition mutex_inv (m : ClientMutex) : Prop := 0 ≤ mx_token m ∧ mx_token m + map_sum has_token (mx_calls m) = 1.

Lemma has_token_nonneg p : 0 ≤ has_token p.
Proof. by destruct p. Qed.

Lemma mutex_step_inv m m' : mutex_inv m → mutex_step m m' → mutex_inv m'.
Proof.
  intros [H0 Hs] [a Ha]. unfold mutex_inv.
  destruct a as [i|i|i|i|i|i|i]; cbn [mutex_exec] in Ha; [destruct (mx_calls m !! i) as [p|] eqn:E; [done|]..| | | | |].
  1,2: injection Ha as <-; cbn; rewrite map_sum_insert by done; cbn; lia.
  { injection Ha as <-. done. }
  all: destruct (mx_calls m !! i) as [p|] eqn:E; [|by repeat case_match].
  all: repeat case_match; try done; injection Ha as <-; cbn; rewrite (map_sum_update _ _ _ _ _ E); cbn in *; bool_hyps; lia.
Qed.

Lemma mutex_reachable_inv m : mutex_reachable m → mutex_inv m.
Proof.
  unfold mutex_reachable. generalize NewClientMutex (conj (Z.le_0_1) eq_refl : mutex_inv NewClientMutex).
  intros m0 H0 Hr. revert H0. induction Hr as [|m0 m1 m2 Hstep _ IH]; [done|]. intros H0. by eapply IH, mutex_step_inv.
Qed.

Lemma token_held m : mutex_inv m → mx_token m = 0 → ∃ j p, mx_calls m !! j = Some p ∧ has_token p = 1.
Proof.
  intros [_ Hs] H0. destruct (decide (map_Exists (λ _ p, has_token p = 1) (mx_calls m))) as [(j & p & Hj & Hp)|Hn]; [by exists j, p|].
  exfalso. rewrite map_not_Exists in Hn. rewrite (map_sum_ext _ (λ _, 0)), map_sum_const in Hs; [lia|].
  intros j p Hj. pose proof (Hn j p Hj) as Hp. cbn in Hp. destruct p; cbn in *; done.
Qed.

Lemma token_unique m i j p q : mutex_inv m →
  mx_calls m !! i = Some p → mx_calls m !! j = Some q → has_token p = 1 → has_token q = 1 → i = j.
Proof.
  intros [H0 Hs] Hi Hj Hp Hq. destruct (decide (i = j)) as [|Hne]; [done|]. exfalso.
  assert (map_sum has_token (mx_calls m) = 1 + map_sum has_token (delete i (mx_calls m))) as E.
  { rewrite <- Hp. rewrite <- (insert_delete_id _ _ _ Hi) at 1. by rewrite map_sum_insert by apply lookup_delete_eq. }
  assert (has_token q ≤ map_sum has_token (delete i (mx_calls m))) as Hle.
  { apply (map_sum_lookup_le _ _ j); [intros; apply has_token_nonneg|]. by rewrite lookup_delete_ne. }
  lia.
Qed.

(** A holder can always let the mutex go. *)
Lemma holder_releases m j p : mutex_inv m → mx_calls m !! j = Some p → has_token p = 1 →
  ∃ m', rtc mutex_step m m' ∧ mx_token m' = 1 ∧ ∀ i, i ≠ j → mx_calls m' !! i = mx_calls m !! i.
Proof.
  intros Hinv Hj Hp. assert (mx_token m = 0) as H0.
  { destruct Hinv as [? Hs]. pose proof (map_sum_lookup_le has_token (mx_calls m) j p ltac:(intros; apply has_token_nonneg) Hj). lia. }
  assert (∀ m, mx_calls m !! j = Some Holding → mx_token m = 0 → mutex_exec m (MUnlock j) = Some (with_call m 1 j Returned)) as Hunlock.
  { intros n Hn Hz. cbn. by rewrite Hn, Hz. }
  destruct p; try done; cbn in Hp.
  - destruct (decide (j ∈ mx_done m)) as [Hd|Hd].
    + exists (with_call m 1 j Refused). split; [apply rtc_once; exists (MChecked j); cbn; by rewrite Hj, bool_decide_true, H0|].
      split; [done|]. intros i Hne. cbn. by rewrite lookup_insert_ne.
    + exists (with_call (with_call m 0 j Holding) 1 j Returned). split.
      * eapply rtc_l; [exists (MChecked j); cbn; rewrite Hj, bool_decide_false, H0 by done; done|]. apply rtc_once. exists (MUnlock j).
        apply Hunlock; [apply lookup_insert_eq|done].
      * split; [done|]. intros i Hne. cbn. by rewrite !lookup_insert_ne.
  - exists (with_call m 1 j Returned). split; [apply rtc_once; exists (MUnlock j); by apply Hunlock|]. split; [done|].
    intros i Hne. cbn. by rewrite lookup_insert_ne.
Qed.

(** C23. Calls of a provider are serialised, and waiting for one never blocks
    the others. However calls, expiring contexts and releases interleave, at
    most one call has the mutex; its holder's release never blocks; a call
    that gives up keeps nothing; and whatever has happened, a call that waits
    can get the mutex as soon as the one that has it is done with it. *)
Theorem calls_serialised m : mutex_reachable m →
  (∀ i j p q, mx_calls m !! i = Some p → mx_calls m !! j = Some q → has_token p = 1 → has_token q = 1 → i = j) ∧
  (∀ i, mx_calls m !! i = Some Holding → is_Some (mutex_exec m (MUnlock i))) ∧
  (∀ i b, mx_calls m !! i = Some (Waiting b) → ∃ m', rtc mutex_step m m' ∧ is_Some (mutex_exec m' (MTake i)) ∧
     ∀ j p, mx_calls m !! j = Some p → has_token p = 0 → mx_calls m' !! j = Some p).
Proof.
  intros Hr%mutex_reachable_inv. split; [intros i j p q; by apply token_unique|]. split.
  - intros i Hi. cbn. rewrite Hi. destruct Hr as [H0 Hs].
    pose proof (map_sum_lookup_le has_token (mx_calls m) i Holding ltac:(intros; apply has_token_nonneg) Hi) as Hle. cbn in Hle.
    replace (mx_token m <? 1) with true by (symmetry; apply Z.ltb_lt; lia). by eexists.
  - intros i b Hi. assert (∀ m', mx_token m' = 1 → mx_calls m' !! i = Some (Waiting b) → is_Some (mutex_exec m' (MTake i))) as Htake.
    { intros m' H1 Hm. cbn. rewrite H1, Hm. destruct b; by eexists. }
    destruct (decide (mx_token m = 0)) as [H0|H0].
    + destruct (token_held _ Hr H0) as (j & p & Hj & Hp). destruct (holder_releases _ _ _ Hr Hj Hp) as (m' & Hm & H1 & Hsame).
      assert (∀ k q, mx_calls m !! k = Some q → has_token q = 0 → mx_calls m' !! k = Some q) as Hkept.
      { intros k q Hk Hq. rewrite Hsame; [done|]. intros ->. rewrite Hj in Hk. injection Hk as ->. lia. }
      exists m'. split; [done|]. split; [apply Htake; [done|by apply Hkept]|done].
    + exists m. split; [done|]. split; [|done]. apply Htake; [|done]. destruct Hr as [? Hs].
      pose proof (map_sum_nonneg has_token (mx_calls m) ltac:(intros; apply has_token_nonneg)). lia.
Qed.

(** ** [providerStartContext] *)

Inductive contextError := Canceled | DeadlineExceeded.
Definition context_error (c : contextError) : error :=
  match c with Canceled => Sentinel "context canceled" | DeadlineExceeded => Sentinel "context deadline exceeded" end.

(** A function registered with [context.AfterFunc]: not called yet, stopped,
    called in a goroutine of its own that has not run yet, or run. *)
Inductive watch := Armed | Stopped | Fired (err : error) | Ran.

(** [sx_closes] counts the calls of [close(c.done)], of which a second panics. *)
Record providerStartContext := mkStart {
  sx_err : option error; sx_detached : bool; sx_stopStartup : watch; sx_stopLifecycle : watch; sx_closes : Z }.
Definition newProviderStartContext : providerStartContext := mkStart None false Armed Armed 0.

Definition cancel (c : providerStartContext) (err : error) : providerStartContext :=
  match sx_err c with
  | Some _ => c
  | None => mkStart (Some err) (sx_detached c) (sx_stopStartup c) (sx_stopLifecycle c) (sx_closes c + 1)
  end.
Definition cancelStartup (c : providerStartContext) (err : error) : providerStartContext :=
  if sx_detached c then c else cancel c err.

Definition fire (w : watch) (err : error) : watch := match w with Armed => Fired err | _ => w end.
Definition stop (w : watch) : watch := match w with Armed => Stopped | _ => w end.
Definition with_startup (c : providerStartContext) (w : watch) : providerStartContext :=
  mkStart (sx_err c) (sx_detached c) w (sx_stopLifecycle c) (sx_closes c).
Definition with_lifecycle (c : providerStartContext) (w : watch) : providerStartContext :=
  mkStart (sx_err c) (sx_detached c) (sx_stopStartup c) w (sx_closes c).
Definition mark_detached (c : providerStartContext) : providerStartContext :=
  mkStart (sx_err c) true (sx_stopStartup c) (sx_stopLifecycle c) (sx_closes c).

(** The critical sections, each atomic. *)
Inductive start_action :=
| StartupDone (err : error)   (* the invocation's context is done *)
| LifecycleDone (err : error) (* the registry is closed *)
| RunStartup | RunLifecycle   (* the goroutines they start *)
| MarkDetached | StopStartup | StopLifecycle | Cancel (err : error).
Definition start_exec (c : providerStartContext) (a : start_action) : providerStartContext :=
  match a with
  | StartupDone e => with_startup c (fire (sx_stopStartup c) e)
  | LifecycleDone e => with_lifecycle c (fire (sx_stopLifecycle c) e)
  | RunStartup => match sx_stopStartup c with Fired e => cancelStartup (with_startup c Ran) e | _ => c end
  | RunLifecycle => match sx_stopLifecycle c with Fired e => cancel (with_lifecycle c Ran) e | _ => c end
  | MarkDetached => mark_detached c
  | StopStartup => with_startup c (stop (sx_stopStartup c))
  | StopLifecycle => with_lifecycle c (stop (sx_stopLifecycle c))
  | Cancel e => cancel c e
  end.
Definition detach : list start_action := [MarkDetached; StopStartup].
Definition abort_start : list start_action := [StopStartup; StopLifecycle; Cancel (context_error Canceled)].

(** Which context answers for the deadline and the values. *)
Definition observed {A} (c : providerStartContext) (startup lifecycle : A) : A := if sx_detached c then lifecycle else startup.

Lemma start_step c a : let c' := start_exec c a in
  (sx_closes c = (match sx_err c with Some _ => 1 | None => 0 end) → sx_closes c' = match sx_err c' with Some _ => 1 | None => 0 end) ∧
  (∀ e, sx_err c = Some e → sx_err c' = Some e) ∧ (sx_detached c = true → sx_detached c' = true) ∧
  (∀ e, sx_detached c = true → sx_err c = None → sx_err c' = Some e → (a = RunLifecycle ∧ sx_stopLifecycle c = Fired e) ∨ a = Cancel e).
Proof.
  destruct c as [err det w1 w2 n], a; cbn; unfold cancelStartup, cancel; cbn; repeat case_match; cbn in *; simplify_eq; split_and!; naive_solver lia.
Qed.

Lemma lifecycle_fired c a e : sx_stopLifecycle (start_exec c a) = Fired e → sx_stopLifecycle c = Fired e ∨ a = LifecycleDone e.
Proof.
  assert (∀ c err, sx_stopLifecycle (cancel c err) = sx_stopLifecycle c) as Hc by (intros [[] ????] ?; done).
  destruct a; cbn; try (by left).
  - destruct (sx_stopLifecycle c); cbn; intros [= ->]; auto.
  - unfold cancelStartup. repeat case_match; rewrite ?Hc; cbn; by left.
  - destruct (sx_stopLifecycle c) as [| |e'|] eqn:E; rewrite ?Hc; cbn; congruence.
  - destruct (sx_stopLifecycle c); cbn; first [by left|congruence].
  - rewrite Hc. by left.
Qed.

Lemma start_run actions : ∀ c, let c' := foldl start_exec c actions in
  (sx_closes c = (match sx_err c with Some _ => 1 | None => 0 end) → sx_closes c' = match sx_err c' with Some _ => 1 | None => 0 end) ∧
  (∀ e, sx_err c = Some e → sx_err c' = Some e) ∧
  (∀ e, sx_stopLifecycle c' = Fired e → sx_stopLifecycle c = Fired e ∨ LifecycleDone e ∈ actions).
Proof.
  induction actions as [|a actions IH]; intros c; cbn [foldl]; [by split_and!; auto|].
  destruct (start_step c a) as (Hn & He & _ & _), (IH (start_exec c a)) as (IHn & IHe & IHf). split_and!.
  - intros Hc. by apply IHn, Hn.
  - intros e Hc. by apply IHe, He.
  - intros e Hf. rewrite elem_of_cons. destruct (IHf e Hf) as [Hl|]; [destruct (lifecycle_fired _ _ _ Hl) as [?| ->]|]; auto.
Qed.

Lemma detached_ends actions : ∀ c e, sx_detached c = true → sx_err c = None → sx_err (foldl start_exec c actions) = Some e →
  Cancel e ∈ actions ∨ (RunLifecycle ∈ actions ∧ (sx_stopLifecycle c = Fired e ∨ LifecycleDone e ∈ actions)).
Proof.
  induction actions as [|a actions IH]; intros c e Hd Hn He; cbn [foldl] in He; [congruence|]. rewrite !elem_of_cons.
  destruct (start_step c a) as (_ & _ & Hdet & Hend). destruct (sx_err (start_exec c a)) as [e'|] eqn:E.
  - assert (e' = e) as ->.
    { destruct (start_run actions (start_exec c a)) as (_ & Hk & _). specialize (Hk _ E). congruence. }
    destruct (Hend e Hd Hn eq_refl) as [[-> ?]| ->]; auto.
  - destruct (IH _ e (Hdet Hd) E He) as [|[Hr [Hf|]]]; [by auto| |by auto]. destruct (lifecycle_fired _ _ _ Hf) as [?| ->]; auto.
Qed.

(** The context a provider is started under ends once, and lasts as long as
    it should. Whatever the order in which the invocation and the registry end
    and the provider is detached or aborted, its channel is closed exactly when
    its error is set, never twice, and the error never changes; and once it is
    detached, only the registry's end or an abort can end it, so that a stream
    outlives the request that opened it. *)
Theorem start_context_lasts actions1 actions2 :
  let c1 := foldl start_exec newProviderStartContext actions1 in
  let c2 := foldl start_exec c1 actions2 in
  sx_closes c2 = (match sx_err c2 with Some _ => 1 | None => 0 end) ∧
  (∀ e, sx_err c1 = Some e → sx_err c2 = Some e) ∧
  (∀ e, sx_detached c1 = true → sx_err c1 = None → sx_err c2 = Some e →
     Cancel e ∈ actions2 ∨ (RunLifecycle ∈ actions2 ∧ LifecycleDone e ∈ actions1 ++ actions2)).
Proof.
  intros c1 c2. destruct (start_run actions1 newProviderStartContext) as (Hn1 & _ & Hf1), (start_run actions2 c1) as (Hn2 & He2 & _).
  split; [by apply Hn2, Hn1|]. split; [done|]. intros e Hd Hn He. rewrite elem_of_app.
  destruct (detached_ends _ _ _ Hd Hn He) as [|[Hr [Hf|]]]; auto. destruct (Hf1 e Hf); [done|]. auto.
Qed.


(** ** [newProviderClient] *)

(** A reading of an invocation's context: its error, its deadline and the time. *)
Record reading := mkReading { rd_Err : option contextError; rd_Deadline : option Time; rd_Now : Time }.

Definition elapsedContextError (ctx : reading) : option contextError :=
  match rd_Err ctx with
  | Some err => Some err
  | None =>
      match rd_Deadline ctx with
      | Some deadline => if negb (Before (rd_Now ctx) deadline) then Some DeadlineExceeded else None
      | None => None
      end
  end.

(** What the attempt meets: the errors of mcp-go's client and the context when
    it is looked at, after [Start] has failed, after it has succeeded, and
    after [Initialize] has failed. *)
Record attempt := mkAttempt {
  at_create : option error; at_NeedManualStart : bool; at_NeedPing : bool;
  at_start : option error; at_start_failed : reading; at_started : option contextError;
  at_initialize : option error; at_initialize_failed : option contextError }.

(** The calls it makes. *)
Inductive start_call := NewStartContext | Start | Abort | Detach | Initialize | CloseFailed | StartPingTask.
Global Instance start_call_eq_dec : EqDecision start_call.
Proof. solve_decision. Defined.

Definition start_failed (err : error) : error := Wrapf "failed to start MCP client: %w" [] err.
Definition initialize_failed (err : error) : error := Wrapf "failed to initialize MCP client: %w" [] err.
Definition marked (err : contextError) : error := markProviderLoadCanceledByInitiator (context_error err).

(** [closeFailedProvider] only logs the error of [CloseFailed]. *)
Definition closeFailedProvider : list start_call := [CloseFailed].

Definition initialize (a : attempt) (startCtx : bool) (calls : list start_call) : list start_call * result error unit :=
  let calls := calls ++ [Initialize] in
  match at_initialize a with
  | Some err =>
      (calls ++ (if startCtx then [Abort] else []) ++ closeFailedProvider,
       Err (initialize_failed
              (match at_initialize_failed a with
               | Some c => if errors_Is err (match c with Canceled => "context canceled" | DeadlineExceeded => "context deadline exceeded" end) then marked c else err
               | None => err
               end)))
  | None => (calls ++ (if at_NeedPing a then [StartPingTask] else []), Ok ())
  end.

Definition newProviderClient (a : attempt) : list start_call * result error unit :=
  match at_create a with
  | Some err => ([], Err (Wrapf "failed to create MCP client: %w" [] err))
  | None =>
      if at_NeedManualStart a then
        let calls := [NewStartContext; Start] in
        match at_start a with
        | Some err =>
            (calls ++ [Abort] ++ closeFailedProvider,
             Err (start_failed (match elapsedContextError (at_start_failed a) with Some c => marked c | None => err end)))
        | None =>
            match at_started a with
            | Some c => (calls ++ [Abort] ++ closeFailedProvider, Err (start_failed (marked c)))
            | None => initialize a true (calls ++ [Detach])
            end
        end
      else initialize a false []
  end.

(** What the calls do to the start context, when there is one. *)
Definition start_effects (calls : list start_call) : list start_action :=
  mjoin (map (λ c, match c with Abort => abort_start | Detach => detach | _ => [] end) calls).

(** *** Specification *)

(** Whether the caller's context is why the attempt failed. *)
Definition caller_ended (a : attempt) : bool :=
  match at_create a with
  | Some _ => false
  | None =>
      match (if at_NeedManualStart a then at_start a else None), (if at_NeedManualStart a then at_started a else None), at_initialize a with
      | Some _, _, _ => bool_decide (is_Some (elapsedContextError (at_start_failed a)))
      | None, Some _, _ => true
      | None, None, Some err =>
          match at_initialize_failed a with
          | Some Canceled => errors_Is err "context canceled"
          | Some DeadlineExceeded => errors_Is err "context deadline exceeded"
          | None => false
          end
      | None, None, None => false
      end
  end.

Definition initiator : string := "provider load canceled by initiating caller".
(** mcp-go knows nothing of the registry's mark. *)
Definition foreign (err : option error) : Prop := ∀ e, err = Some e → errors_Is e initiator = false.

Lemma bool_decide_is_Some {A} (x : option A) : bool_decide (is_Some x) = match x with Some _ => true | None => false end.
Proof. destruct x; [by apply bool_decide_true|]. by apply bool_decide_false; intros [??]. Qed.

Ltac by_listing := apply (bool_decide_unpack _); vm_compute; exact I.
(** A failure with the calls before [CloseFailed]. *)
Ltac start_failure before Hld Hf :=
  split_and!;
  [by intros [??]|intros _; exists before; split; [done|by_listing]|
   intros Hnew; first [by split; [eexists|]|exfalso; revert Hnew; by_listing]|first [done|exact Hf]|
   intros *; apply Hld; first [done|exact Hf]].
Ltac start_success := split_and!; [by_listing|by_listing|done|split; [first [done|intros Hnew; exfalso; revert Hnew; by_listing]|first [done|intros _; by_listing]]].


(** ** [ExecuteMappedTool] *)

Section execute.
(** The members of mcp-go's results that the code leaves alone: those of a
    text, other kinds of content, and the [Result] they embed; those of
    [NewTextContent] and of a complete result. *)
Context {X : Type} (plain_text complete : X).

Inductive Content := TextContent (text : string) (rest : X) | OtherContent (content : X).
Record CallToolResult := mkResult {
  cr_Result : X; cr_Content : list Content; cr_StructuredContent : option json; cr_RawStructuredContent : bytes; cr_IsError : bool }.

(** [json.MarshalIndent(inputSchema, '', '  ')], which cannot fail. *)
Definition schemaJSON (inputSchema : gmap string json) : string := of_bytes (print indent_ws (to_bytes " ") 0 (object_json inputSchema)).
Definition schema_note (inputSchema : gmap string json) : string :=
  of_bytes [NL; NL] +:+ "Expected inputSchema:" +:+ of_bytes [NL] +:+ schemaJSON inputSchema.
Definition with_note (text : string) (inputSchema : option (gmap string json)) : string :=
  match inputSchema with Some m => text +:+ schema_note m | None => text end.

(** [ProviderRPCError.Error] *)
Definition rpc_error_message (e : ProviderRPCError) : string :=
  "provider JSON-RPC error " +:+ FormatInt (pe_Code e) +:+ ": " +:+ pe_Message e.
(** [json.Marshal] of the payload; of an invalid [Data] it fails, and the
    bytes are empty. *)
Definition providerRPCErrorPayload (e : ProviderRPCError) : bytes :=
  let members := [("code", to_bytes (FormatInt (pe_Code e))); ("message", render_string (pe_Message e))] in
  match pe_Data e with
  | [] => object_text [("provider_error", object_text members)]
  | data =>
      match parse data with
      | Some _ => object_text [("provider_error", object_text (members ++ [("data", raw_text data)]))]
      | None => []
      end
  end.

Definition providerRPCErrorResult (rpcErr : ProviderRPCError) (inputSchema : option (gmap string json)) : CallToolResult :=
  let raw := providerRPCErrorPayload rpcErr in
  mkResult complete [TextContent (with_note (rpc_error_message rpcErr) inputSchema) plain_text] (parse raw) raw true.

(** What [CallTool] gives: a result, which may be nil, an error that
    [errors.As] finds a [ProviderRPCError] in, or another error. *)
Inductive call_outcome := CallResult (r : option CallToolResult) | CallRPCError (e : ProviderRPCError) | CallFailed (err : error).

Inductive tool_call := GetOrLoad (server : string) | LockProvider (server : string) | CallProvider (tool : string) | UnlockProvider (server : string).

Definition schema_appended (result : CallToolResult) (inputSchema : option (gmap string json)) : CallToolResult :=
  match inputSchema, cr_Content result with
  | Some m, TextContent text rest :: content =>
      if cr_IsError result
      then mkResult (cr_Result result) (TextContent (text +:+ schema_note m) rest :: content) (cr_StructuredContent result)
             (cr_RawStructuredContent result) (cr_IsError result)
      else result
  | _, _ => result
  end.

(** [load], [lock] and [call] are the outcomes of getting the client, of
    [LockContext], and of the call. *)
Definition ExecuteMappedTool (load : result error unit) (lock : option contextError) (call : call_outcome)
    (serverName actualToolName : string) (inputSchema : option (gmap string json)) :
    list tool_call * result error (option CallToolResult) :=
  match load with
  | Err err => ([GetOrLoad serverName], Err (Wrapf "failed to get MCP client: %w" [] err))
  | Ok _ =>
      match lock with
      | Some c =>
          ([GetOrLoad serverName; LockProvider serverName],
           Err (Wrapf "failed to wait for provider %s: %w" [FStr serverName] (context_error c)))
      | None =>
          ([GetOrLoad serverName; LockProvider serverName; CallProvider actualToolName; UnlockProvider serverName],
           match call with
           | CallRPCError rpcErr => Ok (Some (providerRPCErrorResult rpcErr inputSchema))
           | CallFailed err =>
               Err (match inputSchema with
                    | Some m =>
                        Wrapf ("failed to call tool %s: %w" +:+ of_bytes [NL; NL] +:+ "Expected inputSchema:" +:+ of_bytes [NL] +:+ "%s")
                          [FStr actualToolName; FStr (schemaJSON m)] err
                    | None => Wrapf "failed to call tool %s: %w" [FStr actualToolName] err
                    end)
           | CallResult None => Ok None
           | CallResult (Some result) => Ok (Some (schema_appended result inputSchema))
           end)
      end
  end.

(** [HandleExecuteTool], with the outcomes for the server and the tool that
    the path leads to. *)
Definition execute_path (h : Hierarchy) (load : string → result error unit) (lock : string → option contextError)
    (call : string → string → call_outcome) (toolPath : string) : list tool_call * result error (option CallToolResult) :=
  match HandleExecuteTool h toolPath with
  | Err err => ([], Err err)
  | Ok (serverName, actualToolName, inputSchema) =>
      ExecuteMappedTool (load serverName) (lock serverName) (call serverName actualToolName) serverName actualToolName inputSchema
  end.

(** *** Properties *)

(** The object that a provider's error is told as. *)
Definition told (e : ProviderRPCError) (data : option json) : json :=
  JObj [("provider_error",
    JObj ([("code", JInt (pe_Code e)); ("message", JStr (pe_Message e))] ++ match data with Some v => [("data", v)] | None => [] end))].
(** The data of an error and the JSON that it is, when it has any; its text,
    without white space and escaped as Go does, is that of the JSON. *)
Definition data_of (e : ProviderRPCError) (data : option json) : Prop :=
  match data with
  | None => pe_Data e = []
  | Some v => is_Some (parse (pe_Data e)) ∧ raw_text (pe_Data e) = render v
  end.

Lemma object_text_render l : object_text (map (λ f, (f.1, render f.2)) l) = render (JObj l).
Proof. unfold object_text. cbn [render]. rewrite map_map. reflexivity. Qed.

Lemma payload_text e data : data_of e data → providerRPCErrorPayload e = Marshal (told e data).
Proof.
  unfold providerRPCErrorPayload, told, Marshal. destruct data as [v|]; cbn [data_of].
  - intros [[w Hw] Hr]. destruct (pe_Data e) as [|c l] eqn:E; [done|]. rewrite <- E in *. clear E. rewrite Hw, Hr.
    rewrite <- object_text_render. cbn [map fst snd]. rewrite <- object_text_render. reflexivity.
  - intros ->. rewrite <- object_text_render. cbn [map fst snd]. rewrite <- object_text_render. reflexivity.
Qed.

Lemma told_valid e data : ValidString (pe_Message e) = true → (∀ v, data = Some v → valid_json v ∧ json_depth v ≤ max_depth - 2) →
  valid_json (told e data) ∧ json_depth (told e data) ≤ max_depth.
Proof.
  intros Hm Hd. pose proof (FormatInt_number (pe_Code e)) as Hn. unfold told, JInt. destruct data as [v|].
  - destruct (Hd v eq_refl) as [Hv Hdep]. split.
    + cbn [valid_json foldr app fst snd]. by split_and!.
    + cbn [json_depth foldr app fst snd]. pose proof (scan_value_depth v). unfold max_depth in *. lia.
  - split; [cbn [valid_json foldr app fst snd]; by split_and!|]. cbn [json_depth foldr app fst snd]. unfold max_depth. lia.
Qed.


End execute.

(** ** Witnesses *)

(** One call holds the mutex, another waits for it and a third has given up. *)
Definition busy_mutex : ClientMutex :=
  foldl (λ m a, default m (mutex_exec m a)) NewClientMutex
    [MLockContext 0; MLockContext 1; MLockContext 2; MTake 0; MChecked 0; MDone 2; MRefuse 2].
Lemma calls_serialised_witness :
  mutex_reachable busy_mutex ∧ mx_calls busy_mutex !! 0%nat = Some Holding ∧
  ∃ m', rtc mutex_step busy_mutex m' ∧ is_Some (mutex_exec m' (MTake 1%nat)) ∧ mx_calls m' !! 2%nat = Some Refused.
Proof.
  assert (mutex_reachable busy_mutex) as Hr by (apply (exec_reaches mutex_exec), rtc_refl).
  split; [exact Hr|]. split; [vm_compute; reflexivity|].
  destruct (calls_serialised busy_mutex Hr) as (_ & _ & Hw). destruct (Hw 1%nat false) as (m' & Hm & Ht & Hk); [vm_compute; reflexivity|].
  exists m'. split; [exact Hm|]. split; [exact Ht|]. apply Hk; vm_compute; reflexivity.
Defined.

(** The caller's deadline passes during [Initialize]. *)
Definition late_attempt : attempt :=
  mkAttempt None true true None (mkReading None None 0) None
    (Some (Wrapf "transport error: %w" [] (context_error DeadlineExceeded))) (Some DeadlineExceeded).

