(* ===== verification/Stdio.v ===== *)
(** * Child processes of stdio providers

    Models the [limitedStdioTransport] of [internal/client/response_limit.go]:
    starting a provider's command, the limit that kills it, and the two ways
    of closing it, as steps that any number of callers interleave with the
    child's own exit. mcp-go's [Stdio] transport and the operating system are
    the outcomes of the steps. *)
From stdpp Require Import relations.
From Stdlib Require Import Ascii String.
From S2P Require Import Prelude GoStrings Limits Json ResponseLimit ProviderEvents.
Local Open Scope string_scope.
Local Open Scope list_scope.
Local Open Scope Z_scope.

Section stdio.
(** Notification handlers and request handlers. *)
Context {N R : Type}.

(** ** State *)

(** A child process: running, ended, or ended and waited for. *)
Inductive child := Running | Exited | Reaped.
#[local] Instance child_eq_dec : EqDecision child.
Proof. solve_decision. Defined.

(** [transport.Stdio]: its handlers. *)
Record innerTransport := mkInner { in_notification : option N; in_request : option R }.

(** A call of [Close] or [CloseFailed] after its critical section: about to
    close the inner transport, to wait for the child, to kill it, to wait for
    it after trying to; or returned with errors, given up because its context
    was done, or returned because the transport was closed already. *)
Inductive closer :=
| ClosingInner (p : option nat)
| ClosingWait (p : option nat) (closeErr : option error)
| Killing (p : nat)
| KillingWait (p : nat) (killErr : option error)
| CloseReturned (errs : list error)
| CloseGivenUp (err : error)
| CloseAgain.

(** The transport, the children it has started, and the calls that close it.
    [lt_killing] is a [signalLimit] between closing its channel and killing. *)
Record limitedStdioTransport := mkStdio {
  lt_started : bool; lt_closed : bool; lt_inner : option innerTransport; lt_commandIO : option nat;
  lt_limit : bool; lt_killing : bool; lt_notificationHandler : option N; lt_requestHandler : option R;
  lt_children : gmap nat child; lt_closers : gmap nat closer }.

Definition newLimitedStdioTransport : limitedStdioTransport := mkStdio false false None None false false None None ∅ ∅.

Definition with_children (t : limitedStdioTransport) (c : gmap nat child) : limitedStdioTransport :=
  mkStdio (lt_started t) (lt_closed t) (lt_inner t) (lt_commandIO t) (lt_limit t) (lt_killing t) (lt_notificationHandler t) (lt_requestHandler t)
    c (lt_closers t).
Definition with_closer (t : limitedStdioTransport) (i : nat) (c : closer) : limitedStdioTransport :=
  mkStdio (lt_started t) (lt_closed t) (lt_inner t) (lt_commandIO t) (lt_limit t) (lt_killing t) (lt_notificationHandler t) (lt_requestHandler t)
    (lt_children t) (<[i := c]> (lt_closers t)).

(** ** [Start] *)

(** How starting goes: a pipe or the command fails, the inner transport does
    after the command has started, or nothing does. *)
Inductive start_outcome := CommandFails (err : error) | InnerFails (err : error) | Starts.

Definition transport_closed : error := ErrorNew "stdio transport is closed".

(** The child and the inner transport of a start, with the handlers that
    [installInboundHandlers] sets. *)
Definition spawned (t : limitedStdioTransport) (started : bool) (c : child) : limitedStdioTransport :=
  let p := fresh (dom (lt_children t)) in
  mkStdio started (lt_closed t) (Some (mkInner (lt_notificationHandler t) (lt_requestHandler t))) (Some p) (lt_limit t) (lt_killing t)
    (lt_notificationHandler t) (lt_requestHandler t) (<[p := c]> (lt_children t)) (lt_closers t).

Definition transport_Start (t : limitedStdioTransport) (o : start_outcome) : limitedStdioTransport * option error :=
  if lt_started t then (t, None)
  else if lt_closed t then (t, Some transport_closed)
  else match o with
       | CommandFails err => (t, Some err)
       | InnerFails err => (spawned t false Reaped, Some err)
       | Starts => (spawned t true Running, None)
       end.

(** ** Sending *)

Definition not_started : error := ErrorNew "stdio transport is not started".

(** What [SendRequest] and [SendNotification] look at first. *)
Definition send_refused (t : limitedStdioTransport) : option error :=
  match lt_inner t with
  | None => Some not_started
  | Some _ => if lt_limit t then Some ErrResponseLimitExceeded else None
  end.
Definition transport_SendRequest {A} (t : limitedStdioTransport) (b : branch) (first again : bool) (answer : result error A) (ctxErr : error) : result error A :=
  match send_refused t with
  | Some err => Err err
  | None => awaitLimitedStdioResponse b first again answer ctxErr
  end.

Definition transport_SendNotification (t : limitedStdioTransport) (inner : option error) : option error :=
  match send_refused t with
  | Some err => Some err
  | None => inner
  end.

(** ** Handlers *)

Definition SetNotificationHandler (t : limitedStdioTransport) (handler : option N) : limitedStdioTransport :=
  mkStdio (lt_started t) (lt_closed t) ((λ x, mkInner handler (in_request x)) <$> lt_inner t) (lt_commandIO t) (lt_limit t) (lt_killing t)
    handler (lt_requestHandler t) (lt_children t) (lt_closers t).
Definition SetRequestHandler (t : limitedStdioTransport) (handler : option R) : limitedStdioTransport :=
  mkStdio (lt_started t) (lt_closed t) ((λ x, mkInner (in_notification x) handler) <$> lt_inner t) (lt_commandIO t) (lt_limit t) (lt_killing t)
    (lt_notificationHandler t) handler (lt_children t) (lt_closers t).

(** ** [signalLimit], [Close] and [CloseFailed] *)

Definition ErrProcessDone : error := Sentinel "os: process already finished".
Definition process_done : string := "os: process already finished".

(** [Process.Kill] with the error it gives; of a running child that is never
    [ErrProcessDone]. *)
Definition Kill (t : limitedStdioTransport) (p : nat) (err : option error) : option limitedStdioTransport :=
  match lt_children t !! p, err with
  | Some Running, None => Some (with_children t (<[p := Exited]> (lt_children t)))
  | Some Running, Some e => if errors_Is e process_done then None else Some t
  | _, _ => Some t
  end.

(** [Cmd.Wait] returns when the child has ended. *)
Definition Wait (t : limitedStdioTransport) (p : nat) : option limitedStdioTransport :=
  match lt_children t !! p with
  | Some Running => None
  | Some Exited => Some (with_children t (<[p := Reaped]> (lt_children t)))
  | _ => Some t
  end.

(** The critical section of either. *)
Definition marked_closed (t : limitedStdioTransport) : limitedStdioTransport :=
  mkStdio (lt_started t) true (lt_inner t) (lt_commandIO t) (lt_limit t) (lt_killing t) (lt_notificationHandler t) (lt_requestHandler t)
    (lt_children t) (lt_closers t).
Definition with_limit (t : limitedStdioTransport) (killing : bool) : limitedStdioTransport :=
  mkStdio (lt_started t) (lt_closed t) (lt_inner t) (lt_commandIO t) true killing (lt_notificationHandler t) (lt_requestHandler t)
    (lt_children t) (lt_closers t).

Definition errors_of (e : option error) : list error := match e with Some e => [e] | None => [] end.

Inductive stdio_action :=
| DoStart (o : start_outcome)
| DoSetNotificationHandler (h : option N) | DoSetRequestHandler (h : option R)
| ChildExits (p : nat)                            (* the child ends, or its context does *)
| LimitReached | LimitKills (err : option error)  (* [signalLimit] *)
| CallClose (i : nat) | CloseInner (i : nat) (err : option error) | CloseWaits (i : nat) (err : option error)
| CallCloseFailed (i : nat) (ctxErr : option error) | FailedKills (i : nat) (err : option error) | FailedWaits (i : nat) (err : option error).

(** One step, where it is possible. *)
Definition stdio_exec (t : limitedStdioTransport) (a : stdio_action) : option limitedStdioTransport :=
  match a with
  | DoStart o => Some (transport_Start t o).1
  | DoSetNotificationHandler h => Some (SetNotificationHandler t h)
  | DoSetRequestHandler h => Some (SetRequestHandler t h)
  | ChildExits p => match lt_children t !! p with Some Running => Some (with_children t (<[p := Exited]> (lt_children t))) | _ => None end
  | LimitReached => if lt_limit t then None else Some (with_limit t true)
  | LimitKills err =>
      if lt_killing t then
        match lt_commandIO t with
        | Some p => t ← Kill t p err; Some (with_limit t false)
        | None => Some (with_limit t false)
        end
      else None
  | CallClose i =>
      match lt_closers t !! i with
      | Some _ => None
      | None => Some (if lt_closed t then with_closer t i CloseAgain else with_closer (marked_closed t) i (ClosingInner (lt_commandIO t)))
      end
  | CloseInner i err =>
      match lt_closers t !! i with
      | Some (ClosingInner p) => Some (with_closer t i (ClosingWait p (match lt_inner t with Some _ => err | None => None end)))
      | _ => None
      end
  | CloseWaits i err =>
      match lt_closers t !! i with
      | Some (ClosingWait p closeErr) =>
          let returned := λ t waitErr, with_closer t i (CloseReturned (errors_of closeErr ++ (if lt_limit t then [] else errors_of waitErr))) in
          match p with
          | Some p => t ← Wait t p; Some (returned t err)
          | None => Some (returned t None)
          end
      | _ => None
      end
  | CallCloseFailed i ctxErr =>
      match lt_closers t !! i with
      | Some _ => None
      | None =>
          let t := marked_closed t in
          Some (with_closer t i
            (match lt_commandIO t, ctxErr with
             | None, _ => CloseReturned []
             | Some _, Some err => CloseGivenUp err
             | Some p, None => Killing p
             end))
      end
  | FailedKills i err =>
      match lt_closers t !! i with
      | Some (Killing p) => t ← Kill t p err; Some (with_closer t i (KillingWait p err))
      | _ => None
      end
  | FailedWaits i err =>
      match lt_closers t !! i with
      | Some (KillingWait p killErr) =>
          t ← Wait t p;
          Some (with_closer t i (CloseReturned
            (match killErr with
             | None => []
             | Some e => if errors_Is e process_done then [] else e :: errors_of err
             end)))
      | _ => None
      end
  end.
Definition stdio_step (t t' : limitedStdioTransport) : Prop := ∃ a, stdio_exec t a = Some t'.
Definition stdio_reachable (t : limitedStdioTransport) : Prop := rtc stdio_step newLimitedStdioTransport t.

(** ** Invariant *)

(** A call that closes the transport for the child [p]. *)
Definition closes (c : closer) (p : option nat) : Prop :=
  match c with
  | ClosingInner q | ClosingWait q _ => p = q
  | Killing q | KillingWait q _ => p = Some q
  | _ => False
  end.

Record stdio_inv (t : limitedStdioTransport) : Prop := {
  si_current p c : lt_children t !! p = Some c → c ≠ Reaped → lt_commandIO t = Some p;
  si_command p : lt_commandIO t = Some p → is_Some (lt_children t !! p) ∧ is_Some (lt_inner t);
  si_unstarted p : lt_started t = false → lt_commandIO t = Some p → lt_children t !! p = Some Reaped;
  si_inner x : lt_inner t = Some x → in_notification x = lt_notificationHandler t ∧ in_request x = lt_requestHandler t;
  si_closer i c : lt_closers t !! i = Some c → lt_closed t = true;
  si_closes i c p : lt_closers t !! i = Some c → closes c p → lt_commandIO t = p;
  si_returned i errs p : lt_closers t !! i = Some (CloseReturned errs) → lt_commandIO t = Some p → lt_children t !! p = Some Reaped;
}.

Lemma stdio_inv_init : stdio_inv newLimitedStdioTransport.
Proof. split; cbn; intros *; rewrite ?lookup_empty; done. Qed.

(** A child that ends, or is waited for, leaves the rest as it is. *)
Definition later (c d : child) : Prop := c = d ∨ (c = Running ∧ d = Exited) ∨ (c = Exited ∧ d = Reaped).
Lemma with_child_inv t p c d : stdio_inv t → lt_children t !! p = Some c → later c d →
  stdio_inv (with_children t (<[p := d]> (lt_children t))).
Proof.
  intros [Hcur Hcom Hun Hin Hcl Hcs Hret] Hp Hl.
  assert (∀ q, lt_children t !! q = Some Reaped → <[p := d]> (lt_children t) !! q = Some Reaped) as Hrp.
  { intros q Hq. destruct (decide (p = q)) as [<-|Hne]; [|by rewrite lookup_insert_ne]. rewrite lookup_insert_eq.
    rewrite Hp in Hq. injection Hq as ->. destruct Hl as [<-|[[? ?]|[? ?]]]; congruence. }
  split; cbn; try done; eauto.
  - intros q e. destruct (decide (p = q)) as [<-|Hne]; rewrite ?lookup_insert_eq, ?lookup_insert_ne by done; [|by eauto].
    intros [= <-] Hd. apply (Hcur p c Hp). intros ->. destruct Hl as [<-|[[? ?]|[? ?]]]; congruence.
  - intros q Hq. destruct (Hcom q Hq) as [? ?]. split; [|done]. rewrite lookup_insert_is_Some. destruct (decide (p = q)); auto.
Qed.

Lemma kill_inv t p err t' : stdio_inv t → Kill t p err = Some t' →
  stdio_inv t' ∧ lt_commandIO t' = lt_commandIO t ∧ lt_closers t' = lt_closers t ∧ lt_closed t' = lt_closed t.
Proof.
  unfold Kill. intros Hinv Ht. destruct (lt_children t !! p) as [[]|] eqn:E; [|by destruct err; injection Ht as <-..].
  destruct err as [e|]; [destruct (errors_Is e process_done); [done|]; by injection Ht as <-|].
  injection Ht as <-. split; [|done]. eapply with_child_inv; [done|exact E|]. right. by left.
Qed.

Lemma wait_inv t p t' : stdio_inv t → Wait t p = Some t' →
  stdio_inv t' ∧ (is_Some (lt_children t !! p) → lt_children t' !! p = Some Reaped) ∧
  lt_commandIO t' = lt_commandIO t ∧ lt_closers t' = lt_closers t ∧ lt_closed t' = lt_closed t.
Proof.
  unfold Wait. intros Hinv Ht. destruct (lt_children t !! p) as [[]|] eqn:E; [done|..]; injection Ht as <-; split_and!; try done.
  - eapply with_child_inv; [done|exact E|]. right. by right.
  - intros _. cbn. apply lookup_insert_eq.
Qed.

(** What a call may become. *)
Record closer_ok (t : limitedStdioTransport) (c : closer) : Prop := {
  ck_closed : lt_closed t = true;
  ck_closes p : closes c p → lt_commandIO t = p;
  ck_returned errs p : c = CloseReturned errs → lt_commandIO t = Some p → lt_children t !! p = Some Reaped;
}.
Lemma with_closer_inv t i c : stdio_inv t → closer_ok t c → stdio_inv (with_closer t i c).
Proof.
  intros [Hcur Hcom Hun Hin Hcl Hcs Hret] [Kcl Kcs Kret].
  split; cbn; try done; eauto; intros j; destruct (decide (i = j)) as [<-|Hne]; intros *; rewrite ?lookup_insert_eq, ?lookup_insert_ne by done; eauto.
  - intros [= <-]. apply Kcs.
  - intros [= ->]. by eapply Kret.
Qed.

Lemma marked_closed_inv t : stdio_inv t → stdio_inv (marked_closed t).
Proof. intros []. split; cbn; eauto. Qed.
Lemma with_limit_inv t b : stdio_inv t → stdio_inv (with_limit t b).
Proof. intros []. split; cbn; eauto. Qed.

(** A start while nothing runs and nobody closes. *)
Lemma spawned_inv t started c : stdio_inv t → lt_closed t = false → lt_started t = false →
  (started = false → c = Reaped) → stdio_inv (spawned t started c).
Proof.
  intros [Hcur Hcom Hun Hin Hcl Hcs Hret] Hopen Hns Hc. unfold spawned.
  assert (lt_children t !! fresh (dom (lt_children t)) = None) as Hf by apply not_elem_of_dom, is_fresh.
  set (q := fresh _) in *. clearbody q.
  assert (∀ i x, lt_closers t !! i ≠ Some x) as Hnone by (intros i x Hi; specialize (Hcl _ _ Hi); congruence).
  split; cbn; try (intros i; intros; exfalso; by eapply Hnone).
  - intros p d. destruct (decide (q = p)) as [<-|Hne]; [done|]. rewrite lookup_insert_ne by done. intros Hp Hd.
    specialize (Hun p Hns (Hcur p d Hp Hd)). congruence.
  - intros p [= <-]. rewrite lookup_insert_eq. split; by eexists.
  - intros p -> [= <-]. by rewrite lookup_insert_eq, Hc.
  - by intros x [= <-].
Qed.

Lemma stdio_step_inv t t' : stdio_inv t → stdio_step t t' → stdio_inv t'.
Proof.
  intros Hinv [a Ha]. destruct a as [o|h|h|p| |err|i|i err|i err|i ctxErr|i err|i err]; cbn [stdio_exec] in Ha.
  - injection Ha as <-. unfold transport_Start. destruct (lt_started t) eqn:Hs; [done|]. destruct (lt_closed t) eqn:Hc; [done|].
    destruct o; [done|by apply spawned_inv..].
  - injection Ha as <-. destruct Hinv. split; cbn; try done; eauto.
    + intros p Hp. destruct (si_command0 p Hp) as [? [x ->]]. split; [done|by eexists].
    + intros x Hx. destruct (lt_inner t) as [y|] eqn:E; [|done]. injection Hx as <-. by destruct (si_inner0 y eq_refl).
  - injection Ha as <-. destruct Hinv. split; cbn; try done; eauto.
    + intros p Hp. destruct (si_command0 p Hp) as [? [x ->]]. split; [done|by eexists].
    + intros x Hx. destruct (lt_inner t) as [y|] eqn:E; [|done]. injection Hx as <-. by destruct (si_inner0 y eq_refl).
  - destruct (lt_children t !! p) as [[]|] eqn:E; try done. injection Ha as <-. eapply with_child_inv; [done|exact E|]. right. by left.
  - destruct (lt_limit t); [done|]. injection Ha as <-. by apply with_limit_inv.
  - destruct (lt_killing t); [|done]. destruct (lt_commandIO t) as [p|]; [|injection Ha as <-; by apply with_limit_inv].
    apply bind_Some in Ha as (t1 & Hk & [= <-]). apply with_limit_inv. by eapply kill_inv.
  - destruct (lt_closers t !! i); [done|]. injection Ha as <-. destruct (lt_closed t) eqn:Hc.
    + apply with_closer_inv; [done|]. by split.
    + apply with_closer_inv; [by apply marked_closed_inv|]. by split.
  - destruct (lt_closers t !! i) as [[]|] eqn:E; try done. injection Ha as <-. apply with_closer_inv; [done|].
    split; cbn; try done; [by eapply si_closer|]. intros q ->. by eapply (si_closes _ Hinv i _ _ E).
  - destruct (lt_closers t !! i) as [[|p closeErr| | | | |]|] eqn:E; try done. pose proof (si_closer _ Hinv _ _ E) as Hcl.
    pose proof (si_closes _ Hinv i _ p E eq_refl) as Hp. destruct p as [p|].
    + apply bind_Some in Ha as (t1 & Hw & [= <-]). destruct (wait_inv _ _ _ Hinv Hw) as (Hinv1 & Hr & Hcom & _ & Hcl1).
      destruct (si_command _ Hinv _ Hp) as [Hsome _]. apply with_closer_inv; [done|]. split; try done; [congruence|].
      intros errs q _ Hq. rewrite Hcom, Hp in Hq. injection Hq as <-. by apply Hr.
    + injection Ha as <-. apply with_closer_inv; [done|]. split; try done. intros errs q _ Hq. congruence.
  - destruct (lt_closers t !! i); [done|]. injection Ha as <-. apply with_closer_inv; [by apply marked_closed_inv|].
    destruct (lt_commandIO t) as [p|] eqn:E; [destruct ctxErr|]; split; cbn; try done; congruence.
  - destruct (lt_closers t !! i) as [[]|] eqn:E; try done. apply bind_Some in Ha as (t1 & Hk & [= <-]).
    pose proof (si_closer _ Hinv _ _ E) as Hcl. pose proof (si_closes _ Hinv i _ (Some p) E eq_refl) as Hp.
    destruct (kill_inv _ _ _ _ Hinv Hk) as (Hinv1 & Hcom & _ & Hcl1).
    apply with_closer_inv; [done|]. split; try done; [congruence|intros q; cbn; congruence].
  - destruct (lt_closers t !! i) as [[| | |p killErr| | |]|] eqn:E; try done. apply bind_Some in Ha as (t1 & Hw & [= <-]).
    pose proof (si_closer _ Hinv _ _ E) as Hcl. pose proof (si_closes _ Hinv i _ (Some p) E eq_refl) as Hp.
    destruct (si_command _ Hinv _ Hp) as [Hsome _]. destruct (wait_inv _ _ _ Hinv Hw) as (Hinv1 & Hr & Hcom & _ & Hcl1).
    apply with_closer_inv; [done|]. split; try done; [congruence|].
    intros errs q _ Hq. rewrite Hcom, Hp in Hq. injection Hq as <-. by apply Hr.
Qed.

Lemma stdio_reachable_inv t : stdio_reachable t → stdio_inv t.
Proof.
  unfold stdio_reachable. generalize newLimitedStdioTransport stdio_inv_init. intros t0 H0 Hr. revert H0.
  induction Hr as [|t0 t1 t2 Hs _ IH]; [done|]. intros H0. by eapply IH, stdio_step_inv.
Qed.

Lemma returned_stays t t' i errs : rtc stdio_step t t' → lt_closers t !! i = Some (CloseReturned errs) → lt_closers t' !! i = Some (CloseReturned errs).
Proof.
  induction 1 as [|t t1 t' [a Ha] _ IH]; [done|]. intros Hi. apply IH. clear IH.
  assert (∀ t0 j c, lt_closers t0 !! i = Some (CloseReturned errs) → j ≠ i → lt_closers (with_closer t0 j c) !! i = Some (CloseReturned errs)) as Hne.
  { intros t0 j c H0 Hji. cbn. by rewrite lookup_insert_ne. }
  assert (∀ p err t0, Kill t p err = Some t0 → lt_closers t0 = lt_closers t) as Hkill.
  { intros p err t0. unfold Kill. repeat case_match; intros [= <-]; done. }
  assert (∀ p t0, Wait t p = Some t0 → lt_closers t0 = lt_closers t) as Hwait.
  { intros p t0. unfold Wait. repeat case_match; intros [= <-]; done. }
  destruct a as [o|h|h|p| |err|j|j err|j err|j ctxErr|j err|j err]; cbn [stdio_exec] in Ha.
  - injection Ha as <-. unfold transport_Start. by repeat case_match.
  - by injection Ha as <-.
  - by injection Ha as <-.
  - repeat case_match; try done; by injection Ha as <-.
  - repeat case_match; try done; by injection Ha as <-.
  - destruct (lt_killing t); [|done]. destruct (lt_commandIO t) as [p|]; [|by injection Ha as <-].
    apply bind_Some in Ha as (t0 & Hk & [= <-]). cbn. by rewrite (Hkill _ _ _ Hk).
  - destruct (lt_closers t !! j) eqn:Ej; [done|]. injection Ha as <-. destruct (lt_closed t); refine (Hne _ _ _ _ _); first [exact Hi|congruence].
  - destruct (lt_closers t !! j) as [[]|] eqn:Ej; try done. injection Ha as <-. apply Hne; congruence.
  - destruct (lt_closers t !! j) as [[|[p|] closeErr| | | | |]|] eqn:Ej; try done.
    + apply bind_Some in Ha as (t0 & Hw & [= <-]). apply Hne; [by rewrite (Hwait _ _ Hw)|congruence].
    + injection Ha as <-. apply Hne; congruence.
  - destruct (lt_closers t !! j) eqn:Ej; [done|]. injection Ha as <-. apply Hne; [done|congruence].
  - destruct (lt_closers t !! j) as [[]|] eqn:Ej; try done. apply bind_Some in Ha as (t0 & Hk & [= <-]).
    apply Hne; [by rewrite (Hkill _ _ _ Hk)|congruence].
  - destruct (lt_closers t !! j) as [[]|] eqn:Ej; try done. apply bind_Some in Ha as (t0 & Hw & [= <-]).
    apply Hne; [by rewrite (Hwait _ _ Hw)|congruence].
Qed.

Lemma limit_stays t t' : rtc stdio_step t t' → lt_limit t = true → lt_limit t' = true.
Proof.
  induction 1 as [|t t1 t' [a Ha] _ IH]; [done|]. intros Hi. apply IH. clear IH.
  assert (∀ p err t0, Kill t p err = Some t0 → lt_limit t0 = lt_limit t) as Hkill.
  { intros p err t0. unfold Kill. repeat case_match; intros [= <-]; done. }
  assert (∀ p t0, Wait t p = Some t0 → lt_limit t0 = lt_limit t) as Hwait.
  { intros p t0. unfold Wait. repeat case_match; intros [= <-]; done. }
  destruct a; cbn [stdio_exec] in Ha.
  1: injection Ha as <-; unfold transport_Start; by repeat case_match.
  all: repeat case_match; try done; try (apply bind_Some in Ha as (t0 & Hk & Ha)); injection Ha as <-; cbn; rewrite ?Hi; try done.
  all: by rewrite ?(Hkill _ _ _ Hk), ?(Hwait _ _ Hk).
Qed.

(** C35. Closing a stdio provider leaves no process behind. However starts,
    the limit, the child's own end and any number of closing calls interleave,
    at most one child has not been waited for; once any call of [Close] or
    [CloseFailed] has gone through, whatever errors it returns, every child has
    been, and no later step starts another; [CloseFailed] needs nothing from a
    child it can kill; and once the byte limit has been exceeded every further
    message is refused. Whenever there is an inner transport, it has the
    handlers that were set last. *)
Theorem no_child_left t : stdio_reachable t →
  (∀ p q c d, lt_children t !! p = Some c → lt_children t !! q = Some d → c ≠ Reaped → d ≠ Reaped → p = q) ∧
  (∀ i errs t', lt_closers t !! i = Some (CloseReturned errs) → rtc stdio_step t t' → ∀ p c, lt_children t' !! p = Some c → c = Reaped) ∧
  (∀ i p, lt_closers t !! i = Some (Killing p) →
     ∃ t1 t2, stdio_exec t (FailedKills i None) = Some t1 ∧ stdio_exec t1 (FailedWaits i None) = Some t2 ∧
       lt_closers t2 !! i = Some (CloseReturned [])) ∧
  (lt_limit t = true → ∀ t', rtc stdio_step t t' →
     (∀ inner, is_Some (transport_SendNotification t' inner)) ∧
     ∀ A b first again (answer : result error A) ctxErr, ¬ is_Ok (transport_SendRequest t' b first again answer ctxErr)) ∧
  (∀ x, lt_inner t = Some x → in_notification x = lt_notificationHandler t ∧ in_request x = lt_requestHandler t).
Proof.
  intros Hr. pose proof (stdio_reachable_inv t Hr) as Hinv. split_and!.
  - intros p q c d Hp Hq Hc Hd. pose proof (si_current _ Hinv _ _ Hp Hc). pose proof (si_current _ Hinv _ _ Hq Hd). congruence.
  - intros i errs t' Hi Ht p c Hp. assert (stdio_inv t') as Hinv' by (apply stdio_reachable_inv; unfold stdio_reachable in *; by etrans).
    destruct (decide (c = Reaped)) as [|Hc]; [done|]. pose proof (si_current _ Hinv' _ _ Hp Hc) as Hcom.
    pose proof (si_returned _ Hinv' _ _ _ (returned_stays _ _ _ _ Ht Hi) Hcom). congruence.
  - intros i p Hi. pose proof (si_closes _ Hinv _ _ (Some p) Hi eq_refl) as Hcom.
    destruct (si_command _ Hinv _ Hcom) as [[c Hc] _]. cbn [stdio_exec]. rewrite Hi. unfold Kill. rewrite Hc.
    destruct c; cbn [mbind option_bind]; eexists _, _; (split; [done|]); cbn; rewrite lookup_insert_eq; unfold Wait; cbn;
      rewrite ?lookup_insert_eq, ?Hc; cbn; (split; [done|]); cbn; by rewrite lookup_insert_eq.
  - intros Hl t' Ht. unfold transport_SendNotification, transport_SendRequest, send_refused. rewrite (limit_stays _ _ Ht Hl).
    split; [destruct (lt_inner t'); by eexists|]. intros *. by destruct (lt_inner t') as [?|]; intros [? ?].
  - intros x. apply (si_inner _ Hinv).
Qed.
End stdio.

(** ** Witness *)

(** A provider whose inner transport fails, started again, which sends too
    much and is closed while the limit kills it. *)
Definition demo_actions : list (@stdio_action unit unit) :=
  [DoSetNotificationHandler (Some ()); DoStart (InnerFails (Sentinel "EOF")); DoStart Starts; CallClose 0; CloseInner 0 None; LimitReached;
   CallCloseFailed 1 None; LimitKills None; FailedKills 1 (Some ErrProcessDone); FailedWaits 1 None].
Definition run_stdio (actions : list (@stdio_action unit unit)) : limitedStdioTransport :=
  foldl (λ t a, default t (stdio_exec t a)) newLimitedStdioTransport actions.
Lemma run_stdio_reachable actions : stdio_reachable (run_stdio actions).
Proof. apply (exec_reaches stdio_exec), rtc_refl. Qed.
Definition demo_transport := run_stdio demo_actions.

Lemma no_child_left_witness :
  lt_closers demo_transport !! 1%nat = Some (CloseReturned []) ∧ lt_limit demo_transport = true ∧
  lt_children demo_transport !! 1%nat = Some Reaped ∧ is_Some (transport_SendNotification demo_transport None) ∧
  (∀ p c, lt_children demo_transport !! p = Some c → c = Reaped).
Proof.
  assert (stdio_reachable demo_transport) as Hr by apply run_stdio_reachable.
  destruct (no_child_left demo_transport Hr) as (_ & Hall & _ & Hlimit & _).
  split; [vm_compute; reflexivity|]. split; [vm_compute; reflexivity|]. split; [vm_compute; reflexivity|].
  split; [apply Hlimit; [vm_compute; reflexivity|apply rtc_refl]|].
  apply (Hall 1%nat []); [vm_compute; reflexivity|apply rtc_refl].
Defined.
