(* ===== verification/Client.v ===== *)
(** * Provider clients

    Models [internal/client/client.go]: the transport a configuration gets,
    the calls and listings that keep tools with invalid annotations out, the
    keepalive task, and the two ways of closing. mcp-go's constructors, tools
    and calls are arguments. *)
From Stdlib Require Import Ascii String.
From S2P Require Import Prelude GoStrings Limits Json Config.
Local Open Scope string_scope.
Local Open Scope list_scope.
Local Open Scope Z_scope.

(** ** Construction *)

(** A transport and what it is given: the child's command and environment, or
    the address with the client's timeout. Each has the byte limit. *)
Inductive providerTransport :=
| StdioTransport (command : string) (envs args : list string) (maxResponseBytes : Z)
| SSETransport (url : string) (headers : gmap string string) (timeout maxResponseBytes : Z)
| StreamableTransport (url : string) (headers : gmap string string) (timeout maxResponseBytes : Z).

Record Client := mkProviderClient {
  cl_name : string; cl_needPing : bool; cl_needManualStart : bool; cl_transport : providerTransport; cl_invalidTools : gmap string error }.

Definition maxProviderMessageBytes : Z := Z.shiftl 16 20.

(** [env] is the order in which the loop visits the environment; [newTransport]
    is the error of mcp-go's constructors of HTTP transports. *)
Definition newMCPClient (newTransport : providerTransport → option error) (env : list (string * string)) (name : string)
    (conf : MCPClientConfigV2) (maxResponseBytes : Z) : result error Client :=
  let! info := ParseMCPClientConfigV2 conf in
  let http := λ t,
    match newTransport t with
    | Some err => Err (Wrapf "failed to create SSE transport: %w" [] err)
    | None => Ok (mkProviderClient name true true t ∅)
    end in
  match info with
  | InfoStdio value =>
      Ok (mkProviderClient name false true
            (StdioTransport (sc_Command value) (map (λ kv, kv.1 +:+ "=" +:+ kv.2) env) (sc_Args value) maxResponseBytes) ∅)
  | InfoSSE value => http (SSETransport (ec_URL value) (ec_Headers value) 0 maxResponseBytes)
  | InfoStreamable value => http (StreamableTransport (hc_URL value) (hc_Headers value) (hc_Timeout value) maxResponseBytes)
  end.
Definition NewMCPClient newTransport env name conf : result error Client := newMCPClient newTransport env name conf maxProviderMessageBytes.
Definition NewMCPClientWithResponseLimit newTransport env name conf (maxResponseBytes : Z) : result error Client :=
  fail_if maxResponseBytes <=? 0 with ErrorNew "maximum response bytes must be positive" else
  newMCPClient newTransport env name conf maxResponseBytes.

(** ** Closing *)

Inductive close_call := StopEvents | CloseStdioFailed | CloseMCPClient.
Definition closeFailed (t : providerTransport) : list close_call :=
  match t with
  | StdioTransport _ _ _ _ => [StopEvents; CloseStdioFailed]
  | _ => [CloseMCPClient]
  end.
Definition client_Close (c : Client) : list close_call := [CloseMCPClient].
(** The calls, and the error when its context is done before any. *)
Definition client_CloseFailed (c : Client) (ctxErr : option error) : list close_call * option error :=
  match ctxErr with
  | Some err => ([], Some err)
  | None => (closeFailed (cl_transport c), None)
  end.

(** ** Tools *)

Section tools.
(** mcp-go's tools, and the validation of their annotations. *)
Context {T : Type} (tool_Name : T → string) (ValidateParamHeaderAnnotations : T → option error).

(** The tool is called, or refused. *)
Definition client_CallTool {A} (c : Client) (name : string) (call : result error A) : result error A :=
  match cl_invalidTools c !! name with
  | Some invalid => Err (Wrapf "provider tool %q has invalid x-mcp-header annotations: %w" [FStr name] invalid)
  | None => call
  end.

(** The loop of [ListTools]: [valid] is a slice of the array it reads from,
    so that keeping a tool writes over the array. *)
Fixpoint list_loop (count i : nat) (tools : list T) (valid : nat) (invalid : gmap string error) : list T * gmap string error :=
  match count with
  | O => (take valid tools, invalid)
  | S count =>
      match tools !! i with
      | None => (take valid tools, invalid)
      | Some tool =>
          match ValidateParamHeaderAnnotations tool with
          | Some err => list_loop count (S i) tools valid (<[tool_Name tool := err]> invalid)
          | None => list_loop count (S i) (<[valid := tool]> tools) (S valid) invalid
          end
      end
  end.
Definition with_invalid (c : Client) (invalid : gmap string error) : Client :=
  mkProviderClient (cl_name c) (cl_needPing c) (cl_needManualStart c) (cl_transport c) invalid.
Definition client_ListTools (c : Client) (listed : result error (list T)) : Client * result error (list T) :=
  match listed with
  | Err err => (c, Err err)
  | Ok tools =>
      let '(valid, invalid) := list_loop (length tools) 0 tools 0 ∅ in
      (with_invalid c invalid, Ok valid)
  end.

(** ** Keepalive *)

(** What the task wakes up for: its context, or a tick with the ping's error
    and whether the context was done after it. What it logs. *)
Inductive ping_event := PingDone | PingTick (err : option error) (done : bool).
Inductive ping_log := PingStopped | PingFailed (count : Z) | PingRecovered (count : Z).

Fixpoint ping_loop (events : list ping_event) (failCount : Z) : list ping_log :=
  match events with
  | [] => []
  | PingDone :: _ | PingTick _ true :: _ => [PingStopped]
  | PingTick (Some _) false :: events => PingFailed (failCount + 1) :: ping_loop events (failCount + 1)
  | PingTick None false :: events =>
      if 0 <? failCount then PingRecovered failCount :: ping_loop events 0 else ping_loop events failCount
  end.
Definition runPingTask (events : list ping_event) : list ping_log := ping_loop events 0.

(** ** Properties *)

Definition valid_tool (t : T) : bool := match ValidateParamHeaderAnnotations t with None => true | Some _ => false end.
Definition record_invalid (m : gmap string error) (t : T) : gmap string error :=
  match ValidateParamHeaderAnnotations t with Some err => <[tool_Name t := err]> m | None => m end.

(** Filtering in place is filtering. *)
Lemma list_loop_spec ts : ∀ pre kept invalid, (length kept ≤ length pre)%nat →
  list_loop (length ts) (length pre) ((kept ++ drop (length kept) pre) ++ ts) (length kept) invalid =
    (kept ++ List.filter valid_tool ts, foldl record_invalid invalid ts).
Proof.
  induction ts as [|t ts IH]; intros pre kept invalid Hlen; cbn [length list_loop].
  - rewrite app_nil_r, take_app_length. by rewrite app_nil_r.
  - assert (length (kept ++ drop (length kept) pre) = length pre) as Hl by (rewrite length_app, length_drop; lia).
    rewrite lookup_app_r, Hl, Nat.sub_diag by lia. cbn [lookup list_lookup].
    cbn [foldl List.filter]. unfold valid_tool at 1, record_invalid at 2. destruct (ValidateParamHeaderAnnotations t) as [err|].
    + specialize (IH (pre ++ [t]) kept (<[tool_Name t := err]> invalid)). rewrite length_app, Nat.add_1_r in IH. rewrite <- IH by lia.
      f_equal. rewrite drop_app_le by lia. by rewrite <- !app_assoc.
    + specialize (IH (pre ++ [t]) (kept ++ [t]) invalid). rewrite !length_app, !Nat.add_1_r in IH.
      rewrite <- (app_assoc kept [t] (List.filter valid_tool ts)) in IH. cbn [app] in IH. rewrite <- IH by lia. f_equal. clear IH.
      rewrite <- !app_assoc. rewrite insert_app_r_alt, Nat.sub_diag by lia. cbn [app]. f_equal.
      destruct (drop (length kept) pre) as [|x l] eqn:Ed.
      * assert (length kept = length pre) as Hk by (apply (f_equal length) in Ed; rewrite length_drop in Ed; cbn in Ed; lia).
        cbn. rewrite drop_ge; [done|]. rewrite length_app. cbn. lia.
      * cbn. f_equal. assert (length kept < length pre)%nat as Hk by (apply (f_equal length) in Ed; rewrite length_drop in Ed; cbn in Ed; lia).
        rewrite drop_app_le by lia. rewrite <- app_assoc. cbn. f_equal.
        replace (S (length kept)) with (length kept + 1)%nat by lia. rewrite <- drop_drop, Ed. done.
Qed.

Lemma list_tools_filter tools :
  list_loop (length tools) 0 tools 0 ∅ = (List.filter valid_tool tools, foldl record_invalid ∅ tools).
Proof. exact (list_loop_spec tools [] [] ∅ (Nat.le_refl _)). Qed.

Lemma recorded tools : ∀ m name,
  (∀ err, foldl record_invalid m tools !! name = Some err →
     m !! name = Some err ∨ ∃ t, t ∈ tools ∧ tool_Name t = name ∧ ValidateParamHeaderAnnotations t = Some err) ∧
  (foldl record_invalid m tools !! name = None ↔ m !! name = None ∧ ∀ t, t ∈ tools → tool_Name t = name → valid_tool t = true).
Proof.
  induction tools as [|t tools IH]; intros m name; cbn [foldl].
  - split; [auto|]. split; [|by intros [? _]]. intros ?. split; [done|]. intros t Ht. by apply elem_of_nil in Ht.
  - destruct (IH (record_invalid m t) name) as [IH1 IH2]. unfold valid_tool in *.
    setoid_rewrite elem_of_cons. split.
    + intros err Herr. destruct (IH1 err Herr) as [Hm|(t' & ? & ? & ?)]; [|eauto 6]. revert Hm. unfold record_invalid.
      destruct (ValidateParamHeaderAnnotations t) as [e|] eqn:E; [|auto]. destruct (decide (tool_Name t = name)) as [<-|Hne].
      * rewrite lookup_insert_eq. intros [= ->]. eauto 6.
      * rewrite lookup_insert_ne by done. auto.
    + rewrite IH2. unfold record_invalid. destruct (ValidateParamHeaderAnnotations t) as [e|] eqn:E.
      * destruct (decide (tool_Name t = name)) as [<-|Hne]; [rewrite lookup_insert_eq|rewrite lookup_insert_ne by done].
        -- split; [by intros [? _]|]. intros [_ Ha]. specialize (Ha t (or_introl eq_refl) eq_refl). by rewrite E in Ha.
        -- split; intros [Hm Ha]; (split; [done|]); [intros t' [->|Ht]|]; naive_solver.
      * split; intros [Hm Ha]; (split; [done|]); [intros t' [->|Ht]; [by rewrite E|auto]|auto].
Qed.

(** C36. A tool with invalid annotations is neither listed nor called. A listing
    passes on exactly the tools whose annotations are valid, in the provider's
    order, although it is made in the array it reads; after it, a call of a
    name is refused, without reaching the provider and with the reason, exactly
    when some definition of that name in the listing was invalid, even if
    another was valid, and otherwise it is the provider's; and a listing that
    fails changes nothing. Before the first listing nothing is refused. *)
Theorem invalid_tools_kept_out (c : Client) listed :
  let '(c', r) := client_ListTools c listed in
  match listed with
  | Err e => c' = c ∧ r = Err e
  | Ok tools =>
      r = Ok (List.filter valid_tool tools) ∧ c' = with_invalid c (cl_invalidTools c') ∧
      ∀ name,
        (∀ t err, t ∈ tools → tool_Name t = name → ValidateParamHeaderAnnotations t = Some err →
           ∃ t' err', t' ∈ tools ∧ tool_Name t' = name ∧ ValidateParamHeaderAnnotations t' = Some err' ∧
             ∀ A (call : result error A), client_CallTool c' name call =
               Err (Wrapf "provider tool %q has invalid x-mcp-header annotations: %w" [FStr name] err')) ∧
        ((∀ t, t ∈ tools → tool_Name t = name → valid_tool t = true) →
           ∀ A (call : result error A), client_CallTool c' name call = call)
  end ∧
  ∀ newTransport env name conf limit fresh, newMCPClient newTransport env name conf limit = Ok fresh →
    ∀ tool A (call : result error A), client_CallTool fresh tool call = call.
Proof.
  assert (∀ newTransport env name conf limit fresh, newMCPClient newTransport env name conf limit = Ok fresh →
    ∀ tool A (call : result error A), client_CallTool fresh tool call = call) as Hfresh.
  { intros newTransport env name conf limit fresh. unfold newMCPClient, client_CallTool.
    destruct (ParseMCPClientConfigV2 conf) as [[v|v|v]|]; cbn [rbind]; [|destruct (newTransport _)..|]; intros [= <-] *; done. }
  unfold client_ListTools. destruct listed as [tools|e]; [|done]. rewrite list_tools_filter. split; [|done]. split; [done|]. split; [done|].
  intros name. unfold client_CallTool. cbn [cl_invalidTools with_invalid]. destruct (recorded tools ∅ name) as [Hr1 Hr2]. split.
  - intros t err Ht Hn He. destruct (foldl record_invalid ∅ tools !! name) as [err'|] eqn:E.
    + destruct (Hr1 err' eq_refl) as [H|(t' & ? & ? & ?)]; [by rewrite lookup_empty in H|]. exists t', err'. by split_and!.
    + destruct (proj1 Hr2 eq_refl) as [_ Ha]. specialize (Ha t Ht Hn). unfold valid_tool in Ha. by rewrite He in Ha.
  - intros Ha A call. by rewrite (proj2 Hr2 (conj (lookup_empty name) Ha)).
Qed.
End tools.

(** The child's environment, and what an accepted configuration connects to:
    every client is started explicitly, those over HTTP are pinged, and the
    limit is positive and reaches the transport. *)
Theorem client_configured newTransport env name conf limit c :
  env ≡ₚ map_to_list (cc_Env conf) → NewMCPClientWithResponseLimit newTransport env name conf limit = Ok c →
  0 < limit ∧ cl_name c = name ∧ cl_needManualStart c = true ∧
  match cl_transport c with
  | StdioTransport command envs args n =>
      cl_needPing c = false ∧ command = cc_Command conf ∧ command ≠ "" ∧ args = cc_Args conf ∧ n = limit ∧
      ∀ s, s ∈ envs ↔ ∃ k v, cc_Env conf !! k = Some v ∧ s = k +:+ "=" +:+ v
  | SSETransport url headers timeout n =>
      cl_needPing c = true ∧ cc_Command conf = "" ∧ url = cc_URL conf ∧ url ≠ "" ∧ headers = cc_Headers conf ∧ timeout = 0 ∧ n = limit ∧
      cc_TransportType conf ≠ MCPClientTypeStreamable
  | StreamableTransport url headers timeout n =>
      cl_needPing c = true ∧ cc_Command conf = "" ∧ url = cc_URL conf ∧ url ≠ "" ∧ headers = cc_Headers conf ∧ timeout = cc_Timeout conf ∧ n = limit ∧
      cc_TransportType conf = MCPClientTypeStreamable
  end.
Proof.
  intros Henv. unfold NewMCPClientWithResponseLimit, newMCPClient, guardE. destruct (Z.leb_spec limit 0); [done|].
  unfold ParseMCPClientConfigV2. destruct (String.eqb_spec (cc_Command conf) "") as [Hc|Hc]; cbn [negb orb].
  - destruct (String.eqb_spec (cc_TransportType conf) MCPClientTypeStdio); cbn [rbind]; [done|].
    destruct (String.eqb_spec (cc_URL conf) "") as [|Hu]; cbn [negb rbind]; [done|].
    destruct (String.eqb_spec (cc_TransportType conf) MCPClientTypeStreamable) as [Ht|Ht]; cbn [rbind];
      (destruct (newTransport _); [done|]); intros [= <-]; by cbn.
  - cbn [rbind]. intros [= <-]. cbn. do 3 (split; [done|]). do 5 (split; [done|]). intros s. rewrite list_elem_of_In, in_map_iff.
    setoid_rewrite <- list_elem_of_In. setoid_rewrite Henv. split.
    + intros ([k v] & <- & Hin%elem_of_map_to_list). by exists k, v.
    + intros (k & v & Hkv & ->). exists (k, v). split; [done|]. by apply elem_of_map_to_list.
Qed.

(** *** Keepalive *)

Definition awake (e : ping_event) : Prop := match e with PingTick _ done => done = false | PingDone => False end.
Definition ping_failures (k : nat) : list ping_event := replicate k (PingTick (Some (Sentinel "ping")) false).

Lemma ping_fails k : ∀ n rest, ping_loop (ping_failures k ++ rest) n = map (λ i, PingFailed (n + Z.of_nat i)) (seq 1 k) ++ ping_loop rest (n + Z.of_nat k).
Proof.
  induction k as [|k IH]; intros n rest; [cbn; by rewrite Z.add_0_r|]. cbn [ping_failures replicate app ping_loop seq map].
  change (replicate k _) with (ping_failures k). rewrite IH, <- (seq_shift k 1), map_map. f_equal. f_equal; [|f_equal; lia].
  apply map_ext. intros i. f_equal. lia.
Qed.

Lemma ping_loop_app pre : Forall awake pre → ∀ n, 0 ≤ n → ∃ m, 0 ≤ m ∧
  ∀ rest, ping_loop (pre ++ rest) n = ping_loop pre n ++ ping_loop rest m.
Proof.
  induction 1 as [|e pre He _ IH]; intros n Hn; [by exists n|]. destruct e as [|[err|] b]; [done|..]; cbn in He; subst b.
  - destruct (IH (n + 1)) as (m & Hm & Heq); [lia|]. exists m. split; [done|]. intros r. cbn. by rewrite Heq.
  - cbn [app ping_loop]. destruct (Z.ltb_spec 0 n).
    + destruct (IH 0) as (m & Hm & Heq); [done|]. exists m. split; [done|]. intros r. by rewrite Heq.
    + by apply IH.
Qed.

(** The keepalive task reports every failed ping with the number of failures
    since the last success, and the first success after failures with their
    number; it ends when its context does. *)
Theorem ping_reports pre k rest : Forall awake pre →
  runPingTask (pre ++ PingTick None false :: ping_failures k ++ rest) =
    runPingTask (pre ++ [PingTick None false]) ++ map (λ i, PingFailed (Z.of_nat i)) (seq 1 k) ++ ping_loop rest (Z.of_nat k) ∧
  (∀ events, (0 < k)%nat → ping_loop (PingTick None false :: events) (Z.of_nat k) = PingRecovered (Z.of_nat k) :: ping_loop events 0) ∧
  (∀ events err, ping_loop (PingDone :: events) (Z.of_nat k) = [PingStopped] ∧ ping_loop (PingTick err true :: events) (Z.of_nat k) = [PingStopped]).
Proof.
  intros Hpre. split; [|split; [intros events Hk|by intros events []]].
  - unfold runPingTask. destruct (ping_loop_app pre Hpre 0) as (m & Hm & Heq); [done|]. rewrite !Heq, <- app_assoc. f_equal.
    cbn [ping_loop]. destruct (Z.ltb_spec 0 m) as [|Hle]; [|replace m with 0 by lia]; cbn [app]; [f_equal|]; by rewrite ping_fails.
  - cbn [ping_loop]. destruct (Z.ltb_spec 0 (Z.of_nat k)); [done|lia].
Qed.
