(* ===== verification/CatalogClient.v ===== *)
(** * The client an inventory is taken with

    Models [transportCatalogClient] and [newCatalogConnection] of
    [structure_generator/cmd/main.go]: the [tools/list] requests built for a
    modern or an earlier protocol, their identifiers, the decoding of what is
    answered, and the connection to a configured provider. mcp-go's client, its
    metadata and the encoding of parameters are arguments. *)
From Stdlib Require Import Ascii String.
From S2P Require Import Prelude GoStrings Limits Json Loader Config ResponseLimit Hierarchy Generator Inventory Read Client.
Local Open Scope string_scope.
Local Open Scope list_scope.
Local Open Scope Z_scope.

(** ** mcp-go *)

(** The fields of [mcp.Implementation] that are set. *)
Record Implementation := mkImplementation { im_Name : string; im_Version : string }.

(** [mcp]'s protocol: metadata and its setters, [json.Marshal] of parameters,
    and the functions and constants that the client uses. *)
Class McpProtocol := {
  ClientCapabilities : Type; no_capabilities : ClientCapabilities;
  Meta : Type; empty_Meta : Meta;
  SetProtocolVersion : string → Meta → Meta;
  SetClientCapabilities : ClientCapabilities → Meta → Meta;
  SetClientInfo : Implementation → Meta → Meta;
  encode_params : string → option Meta → result error bytes;
  LATEST_PROTOCOL_VERSION : string; JSONRPC_VERSION : string; MethodToolsList : string;
  IsModernProtocol : string → bool;
  StandardHeaders : string → string → bytes → list (string * string);
  NewError : error → error;
  JSONRPCErrorDetails : Type; AsError : JSONRPCErrorDetails → error;
}.

Section protocol.
Context {protocol : McpProtocol}.

Record InitializeRequest := mkInitialize { ir_ProtocolVersion : string; ir_ClientInfo : Implementation; ir_Capabilities : ClientCapabilities }.
Record ListToolsRequest := mkListTools { lr_Cursor : string; lr_Meta : option Meta; lr_Header : option Header }.
Record JSONRPCRequest := mkRequest {
  jr_JSONRPC : string; jr_ID : string; jr_Method : string; jr_Cursor : string; jr_Meta : option Meta; jr_Header : option Header }.
Record JSONRPCResponse := mkResponse { js_Result : bytes; js_Error : option JSONRPCErrorDetails }.

(** [mcpclient.Client] with the transport of [GetTransport]. *)
Class McpClient (C : Type) := {
  mc_Start : C → C * option error;
  mc_Initialize : C → InitializeRequest → C * option error;
  mc_ProtocolVersion : C → string;
  mc_SendRequest : C → JSONRPCRequest → C * result error JSONRPCResponse;
  mc_Close : C → C;
}.

(** ** [transportCatalogClient] *)

Record transportCatalogClient (C : Type) := mkTransportClient {
  tc_client : C; tc_requestID : Z; tc_clientInfo : Implementation; tc_clientCapabilities : ClientCapabilities }.
#[global] Arguments mkTransportClient {C}.
#[global] Arguments tc_client {C}.
#[global] Arguments tc_requestID {C}.
#[global] Arguments tc_clientInfo {C}.
#[global] Arguments tc_clientCapabilities {C}.

Section client.
Context {C : Type} {client : McpClient C}.

Definition with_client (c : transportCatalogClient C) (client : C) : transportCatalogClient C :=
  mkTransportClient client (tc_requestID c) (tc_clientInfo c) (tc_clientCapabilities c).

Definition catalog_Start (c : transportCatalogClient C) : transportCatalogClient C * option error :=
  let '(client, err) := mc_Start (tc_client c) in (with_client c client, err).

Definition catalog_Initialize (c : transportCatalogClient C) (request : InitializeRequest) : transportCatalogClient C * option error :=
  let '(client, err) := mc_Initialize (tc_client c) request in
  match err with
  | Some err => (with_client c client, Some err)
  | None => (mkTransportClient client (tc_requestID c) (ir_ClientInfo request) (ir_Capabilities request), None)
  end.

(** The metadata and headers of a request. *)
Definition modern_meta (c : transportCatalogClient C) (protocolVersion : string) (meta : option Meta) : Meta :=
  let meta := default empty_Meta meta in
  let meta := SetProtocolVersion protocolVersion meta in
  let meta := SetClientCapabilities (tc_clientCapabilities c) meta in
  if negb (String.eqb (im_Name (tc_clientInfo c)) "") then SetClientInfo (tc_clientInfo c) meta else meta.
Definition catalog_params (c : transportCatalogClient C) (request : ListToolsRequest) : result error (option Meta * option Header) :=
  let protocolVersion := mc_ProtocolVersion (tc_client c) in
  if IsModernProtocol protocolVersion then
    let meta := modern_meta c protocolVersion (lr_Meta request) in
    let! encodedParams := wrapping "failed to encode tools/list parameters: %w" [] (encode_params (lr_Cursor request) (Some meta)) in
    let header := foldl (λ h f, header_Set h f.1 f.2) (default ∅ (lr_Header request))
                    (StandardHeaders protocolVersion MethodToolsList encodedParams) in
    Ok (Some meta, Some header)
  else Ok (lr_Meta request, lr_Header request).

(** [json.Unmarshal] checks the text before it calls [UnmarshalJSON]. *)
Definition decode_page (result_ : bytes) : result error catalogToolsPage :=
  match parse result_ with None => Err unmarshal_error | Some _ => UnmarshalJSON result_ end.

(** The metadata of the request is changed through its pointer where it has
    one; those of an inventory have none. The counter is a [uint64]. *)
Definition catalog_ListToolsByPage (c : transportCatalogClient C) (request : ListToolsRequest) :
    transportCatalogClient C * result error (option catalogToolsPage) :=
  match catalog_params c request with
  | Err e => (c, Err e)
  | Ok (meta, header) =>
      let requestID := wrapU64 (tc_requestID c + 1) in
      let '(client, response) := mc_SendRequest (tc_client c)
        (mkRequest JSONRPC_VERSION ("tappet-inventory-" +:+ FormatInt requestID) "tools/list" (lr_Cursor request) meta header) in
      let c := mkTransportClient client requestID (tc_clientInfo c) (tc_clientCapabilities c) in
      (c, match response with
          | Err err => Err (NewError err)
          | Ok response =>
              match js_Error response with
              | Some details => Err (AsError details)
              | None => rmap Some (wrapping "failed to decode lossless tools/list result: %w" [] (decode_page (js_Result response)))
              end
          end)
  end.

Definition catalog_Close (c : transportCatalogClient C) : transportCatalogClient C := with_client c (mc_Close (tc_client c)).

(** The requests of an inventory. *)
Definition initRequest : InitializeRequest :=
  mkInitialize LATEST_PROTOCOL_VERSION (mkImplementation "tappet-structure-generator" "0.1.0") no_capabilities.

#[export] Instance transport_catalog : CatalogClient (transportCatalogClient C) := {|
  cat_Start := catalog_Start;
  cat_Initialize c := catalog_Initialize c initRequest;
  cat_ListToolsByPage c cursor := catalog_ListToolsByPage c (mkListTools cursor None None);
  cat_Close := catalog_Close |}.

(** ** [newCatalogConnection] *)

(** [newTransport] is as in [Client.v], [range] the order in which the
    environment is visited, and [GetClient] mcp-go's client over a transport. *)
Definition newCatalogConnection (newTransport : providerTransport → option error) (range : gmap string string → list (string * string))
    (GetClient : Client → C) (name : string) (providerConfig : MCPClientConfigV2) : result error (catalogConnection (transportCatalogClient C)) :=
  let! mcpClient := NewMCPClientWithResponseLimit newTransport (range (cc_Env providerConfig)) name providerConfig maxInventoryPageBytes in
  Ok (mkConnection (mkTransportClient (GetClient mcpClient) 0 (mkImplementation "" "") no_capabilities) (cl_needManualStart mcpClient)).
End client.

(** ** Specification *)

(** A client that keeps the requests it has sent with what was answered. *)
Definition exchange : Type := JSONRPCRequest * result error JSONRPCResponse.
Definition recording {C} `{McpClient C} : McpClient (C * list exchange) := {|
  mc_Start c := let '(c1, err) := mc_Start c.1 in ((c1, c.2), err);
  mc_Initialize c request := let '(c1, err) := mc_Initialize c.1 request in ((c1, c.2), err);
  mc_ProtocolVersion c := mc_ProtocolVersion c.1;
  mc_SendRequest c request := let '(c1, response) := mc_SendRequest c.1 request in ((c1, c.2 ++ [(request, response)]), response);
  mc_Close c := (mc_Close c.1, c.2) |}.

(** The metadata that says who asks, under a modern protocol. *)
Definition inventory_meta (version : string) : option Meta :=
  if IsModernProtocol version
  then Some (SetClientInfo (ir_ClientInfo initRequest) (SetClientCapabilities no_capabilities (SetProtocolVersion version empty_Meta)))
  else None.

(** The request for the page at a cursor, the [id]-th of its connection. *)
Record page_request (version : string) (id : Z) (cursor : string) (r : JSONRPCRequest) : Prop := {
  rq_id : jr_ID r = "tappet-inventory-" +:+ FormatInt id;
  rq_method : jr_JSONRPC r = JSONRPC_VERSION ∧ jr_Method r = "tools/list";
  rq_cursor : jr_Cursor r = cursor;
  rq_meta : jr_Meta r = inventory_meta version;
  rq_header : if IsModernProtocol version
    then ∃ params, encode_params cursor (jr_Meta r) = Ok params ∧
      jr_Header r = Some (foldl (λ h f, header_Set h f.1 f.2) ∅ (StandardHeaders version MethodToolsList params))
    else jr_Header r = None;
}.
(** The page is what the answer to its request decodes to. *)
Definition page_exchange (version : string) (id : Z) (cursor : string) (page : catalogToolsPage) (x : exchange) : Prop :=
  page_request version id cursor x.1 ∧ ∃ response, x.2 = Ok response ∧ js_Error response = None ∧ decode_page (js_Result response) = Ok page.
Inductive page_exchanges (version : string) : Z → string → list catalogToolsPage → list exchange → Prop :=
| exchanges_last id cursor page x :
    page_exchange version id cursor page x → pg_NextCursor page = "" → page_exchanges version id cursor [page] [x]
| exchanges_more id cursor page x pages xs :
    page_exchange version id cursor page x → pg_NextCursor page ≠ "" →
    page_exchanges version (id + 1) (pg_NextCursor page) pages xs → page_exchanges version id cursor (page :: pages) (x :: xs).

(** ** Lemmas *)

Lemma exchange_ids version id cursor pages xs : page_exchanges version id cursor pages xs →
  NoDup (map (λ x, jr_ID x.1) xs) ∧ Forall (λ s, ∃ k, id ≤ k ∧ s = "tappet-inventory-" +:+ FormatInt k) (map (λ x, jr_ID x.1) xs).
Proof.
  induction 1 as [id cursor page x [Hr _] _|id cursor page x pages xs [Hr _] _ _ [Hnd Hids]]; cbn [map]; rewrite (rq_id _ _ _ _ Hr).
  - split; [apply NoDup_singleton|]. apply Forall_singleton. by exists id.
  - rewrite Forall_forall in Hids. split.
    + apply NoDup_cons. split; [|done]. intros (k & Hk & E)%Hids. apply (inj _) in E. apply FormatInt_inj in E. lia.
    + constructor; [by exists id|]. apply Forall_forall. intros s (k & Hk & ->)%Hids. exists k. by split; [lia|].
Qed.

Section requests.
Context {C : Type} {client : McpClient C}.
#[local] Existing Instance recording.
Implicit Types c : transportCatalogClient (C * list exchange).
Context (stable : ∀ (c : C) r, mc_ProtocolVersion (mc_SendRequest c r).1 = mc_ProtocolVersion c).

(** What stays the same while the pages are listed. *)
Definition introduced (version : string) c : Prop :=
  mc_ProtocolVersion (tc_client c) = version ∧ tc_clientInfo c = ir_ClientInfo initRequest ∧ tc_clientCapabilities c = no_capabilities.

Lemma page_asked version c cursor c' page : introduced version c → 0 ≤ tc_requestID c < 2 ^ 64 - 1 →
  cat_ListToolsByPage c cursor = (c', Ok (Some page)) →
  introduced version c' ∧ tc_requestID c' = tc_requestID c + 1 ∧
  ∃ x, (tc_client c').2 = (tc_client c).2 ++ [x] ∧ page_exchange version (tc_requestID c + 1) cursor page x.
Proof using stable.
  intros (Hv & Hi & Hc) Hid. cbn [cat_ListToolsByPage transport_catalog]. unfold catalog_ListToolsByPage.
  destruct (catalog_params c _) as [[meta header]|] eqn:Hp; [|done].
  assert (wrapU64 (tc_requestID c + 1) = tc_requestID c + 1) as -> by (unfold wrapU64; apply Z.mod_small; lia).
  cbn [mc_SendRequest recording]. destruct (mc_SendRequest _ _) as [c1 response] eqn:Hs.
  assert (mc_ProtocolVersion c1 = mc_ProtocolVersion (tc_client c).1) as Hst by (change c1 with (c1, response).1; rewrite <- Hs; apply stable).
  intros [= <- Hpage]. cbn [tc_client tc_requestID tc_clientInfo tc_clientCapabilities snd]. split; [|split; [done|]].
  { split; [|done]. cbn [mc_ProtocolVersion recording fst tc_client] in *. by rewrite Hst. }
  eexists. split; [done|]. split; cbn [fst snd].
  - unfold catalog_params in Hp. rewrite Hv in Hp. cbn [lr_Cursor lr_Meta lr_Header] in Hp. destruct (IsModernProtocol version) eqn:Em.
    + apply rbind_Ok in Hp as (params & Hpar & [= <- <-]). destruct (encode_params _ _) as [ps|] eqn:Ee; [|done]. injection Hpar as <-.
      unfold modern_meta in *. rewrite Hi, Hc in *. split; cbn; [done..|by unfold inventory_meta; rewrite Em|rewrite Em; by exists ps].
    + injection Hp as <- <-. split; cbn; [done..|by unfold inventory_meta; rewrite Em|by rewrite Em].
  - destruct response as [response|]; [|done]. exists response. split; [done|]. destruct (js_Error response); [done|].
    destruct (decode_page _); [|done]. cbn in Hpage. by injection Hpage as ->.
Qed.

Lemma listing_asked version c cursor pages c' : listing c cursor pages c' → introduced version c →
  0 ≤ tc_requestID c → tc_requestID c + zlen pages < 2 ^ 64 →
  ∃ xs, (tc_client c').2 = (tc_client c).2 ++ xs ∧ page_exchanges version (tc_requestID c + 1) cursor pages xs.
Proof using stable.
  induction 1 as [c cursor page c' Hl Hlast|c cursor page c1 pages c' Hl Hmore _ IH]; unfold zlen in *; cbn [length]; intros Hin Hid Hn;
    destruct (page_asked version _ _ _ _ Hin ltac:(lia) Hl) as (Hin' & Hid' & x & Hs & Hx).
  - exists [x]. split; [done|]. by constructor.
  - destruct (IH Hin' ltac:(lia) ltac:(lia)) as (xs & Hxs & Hall). rewrite Hid' in Hall.
    exists (x :: xs). rewrite Hxs, Hs, <- app_assoc. split; [done|]. by econstructor.
Qed.
End requests.

(** ** Properties *)

(** C39. An inventory is what the provider answers to a chain of requests. When
    it succeeds the connection has sent one [tools/list] request for each page
    and nothing else between its start and its close: each with an identifier
    no other has, with the cursor of the page before, and under a modern
    protocol with the metadata of the command and the headers that go with its
    parameters; each page is what its answer decodes to, and the tools are
    those of the pages, converted. The protocol's version is assumed to stay
    what the handshake settled. *)
Theorem inventory_requests {mcp : McpTools} {C} `{McpClient C} newTransport range GetClient name cfg c' st :
  (∀ (c : C) r, mc_ProtocolVersion (mc_SendRequest c r).1 = mc_ProtocolVersion c) →
  fetchToolsFromServer (catalog := transport_catalog (client := recording)) name cfg
    (newCatalogConnection newTransport range (λ c, (GetClient c, []))) = (Some c', Ok st) →
  ∃ version pages tss, let sent := (tc_client c').2 in
    page_exchanges version 1 "" pages sent ∧ NoDup (map (λ x, jr_ID x.1) sent) ∧ zlen pages ≤ maxInventoryPages ∧
    Forall2 converted pages tss ∧ st = mkServerTools name (concat tss).
Proof.
  intros Hstable (connection & c0 & c1 & c2 & pages & tss & Hf & Hs & Hi & Hl & -> & Hn & _ & Hall & _ & _ & ->)%inventory_spec; [|by split; vm_compute; split_and?; discriminate].
  apply rbind_Ok in Hf as (m & _ & [= <-]). cbn [cn_client cn_needStart] in Hs.
  assert ((tc_client c0).2 = [] ∧ tc_requestID c0 = 0) as [Hlog Hid].
  { destruct (cl_needManualStart m); [|by injection Hs as <-]. cbn [cat_Start transport_catalog] in Hs. unfold catalog_Start in Hs.
    cbn [mc_Start recording tc_client fst snd] in Hs. destruct (mc_Start _) as [x err]. by injection Hs as <- _. }
  cbn [cat_Initialize transport_catalog] in Hi. unfold catalog_Initialize in Hi. cbn [mc_Initialize recording] in Hi.
  destruct (mc_Initialize _ _) as [x [err|]]; [done|]. injection Hi as <-. change (il_pages defaultInventoryLimits) with 128 in Hn.
  destruct (listing_asked Hstable _ _ _ _ _ Hl (conj eq_refl (conj eq_refl eq_refl))) as (xs & Hxs & Hex); [cbn [tc_requestID]; lia..|].
  cbn [tc_requestID tc_client snd] in Hxs, Hex.
  unfold exchange in *. rewrite Hlog, app_nil_l in Hxs. rewrite Hid in Hex.
  eexists _, pages, tss. cbn [cat_Close transport_catalog catalog_Close with_client tc_client mc_Close recording snd]. rewrite Hxs.
  split_and!; [exact Hex|by eapply exchange_ids|exact Hn| |done]. eapply Forall2_impl; [exact Hall|]. by intros ? ? [].
Qed.
End protocol.

(** ** Witnesses *)

(** A protocol whose metadata is the list of what was set. *)
Definition demo_protocol : McpProtocol := {|
  ClientCapabilities := unit; no_capabilities := tt;
  Meta := list string; empty_Meta := [];
  SetProtocolVersion v m := m ++ [v]; SetClientCapabilities _ m := m ++ ["capabilities"]; SetClientInfo i m := m ++ [im_Name i];
  encode_params cursor m := Ok (to_bytes (Join (cursor :: default [] m) ","));
  LATEST_PROTOCOL_VERSION := "2"; JSONRPC_VERSION := "2.0"; MethodToolsList := "tools/list";
  IsModernProtocol v := String.eqb v "2"; StandardHeaders v method _ := [("mcp-method", method)];
  NewError e := e; JSONRPCErrorDetails := unit; AsError _ := ErrorNew "refused" |}.

(** A provider of two pages. *)
Definition demo_page (cursor : string) : bytes :=
  if String.eqb cursor "" then requote "{'tools':[{'name':'a','inputSchema':{'type':'object'}}],'nextCursor':'n'}"
  else requote "{'tools':[{'name':'b','inputSchema':{'type':'object'}}]}".
Definition demo_client : @McpClient demo_protocol unit := {|
  mc_Start c := (c, None); mc_Initialize c _ := (c, None); mc_ProtocolVersion _ := "2";
  mc_SendRequest c r := (c, Ok (mkResponse (protocol := demo_protocol) (demo_page (jr_Cursor r)) None)); mc_Close c := c |}.

Definition demo_inventory : option (transportCatalogClient (protocol := demo_protocol) (unit * list exchange)) * result error ServerTools :=
  fetchToolsFromServer (mcp := demo_tools) (catalog := transport_catalog (client := @recording demo_protocol _ demo_client)) "notes" demo_config
    (newCatalogConnection (λ _, None) map_to_list (λ _, (tt, []))).

Lemma inventory_requests_witness :
  ∃ c, demo_inventory.1 = Some c ∧
    map (λ x, (jr_ID x.1, jr_Cursor x.1, jr_Header x.1)) (tc_client c).2 =
      [("tappet-inventory-1", "", Some {["Mcp-Method" := ["tools/list"]]}); ("tappet-inventory-2", "n", Some {["Mcp-Method" := ["tools/list"]]})] ∧
    ∃ version pages, page_exchanges (protocol := demo_protocol) version 1 "" pages (tc_client c).2.
Proof.
  destruct demo_inventory as [[c|] [st|e]] eqn:E; [|vm_compute in E; discriminate E..]. exists c. split; [done|].
  pose proof (@inventory_requests demo_protocol demo_tools unit demo_client (λ _, None) map_to_list (λ _, tt) "notes" demo_config c st (λ _ _, eq_refl) E) as Hi.
  split; [|destruct Hi as (version & pages & tss & Hx & _); by exists version, pages].
  vm_compute in E. injection E as <- _. vm_compute. reflexivity.
Defined.
