(* ===== verification/Conformance.v ===== *)
(** * The conformance client

    Models [conformance/client/main.go], the program that drives a provider
    client through the scenarios of MCP's conformance suite: what it connects,
    which requests each scenario makes, and when it closes. mcp-go's client with
    the server behind it is the class [TestServer]. *)
From Stdlib Require Import Ascii String.
From S2P Require Import Prelude GoStrings Limits Json JsonStruct Config Hierarchy Inventory Client CatalogClient.
Local Open Scope string_scope.
Local Open Scope list_scope.
Local Open Scope Z_scope.

(** ** Sessions *)

Section conformance.
Context {protocol : McpProtocol} {mcp : McpTools}.

(** mcp-go's client, whose state has the server's, and what it answers. Of
    resources, prompts and results only what the scenarios use. *)
Class TestServer (W : Type) := {
  ts_Start : W → W * option error;
  ts_Initialize : W → InitializeRequest → W * option error;
  ts_ListTools : W → W * result error (list mcpTool);
  ts_CallTool : W → string → gmap string json → W * result error unit;
  ts_ListResources : W → W * result error (list string);
  ts_ReadResource : W → string → W;
  ts_ListPrompts : W → W * result error (list string);
  ts_GetPrompt : W → string → W;
  ts_Close : W → W;
}.
Context {W : Type} {server : TestServer W}.

(** What reaches mcp-go's client, with the answer of a listing. *)
Inductive request :=
| Started | Initialized (r : InitializeRequest) | Listed (tools : result error (list mcpTool))
| Called (name : string) (arguments : gmap string json)
| ListedResources | ReadResource (uri : string) | ListedPrompts | GotPrompt (name : string) | Closed.

Record session := mkSession { ss_client : Client; ss_server : W; ss_sent : list request }.
Definition sends (s : session) (c : Client) (w : W) (r : request) : session := mkSession c w (ss_sent s ++ [r]).

Definition ListTools (s : session) : session * result error (list mcpTool) :=
  let '(w, listed) := ts_ListTools (ss_server s) in
  let '(c, r) := client_ListTools mcpTool_Name ValidateParamHeaderAnnotations (ss_client s) listed in
  (sends s c w (Listed listed), r).
Definition CallTool (s : session) (name : string) (arguments : gmap string json) : session * result error unit :=
  match client_CallTool (ss_client s) name (Ok tt) with
  | Err refused => (s, Err refused)
  | Ok _ =>
      let '(w, answer) := ts_CallTool (ss_server s) name arguments in
      (sends s (ss_client s) w (Called name arguments), answer)
  end.
Definition ListResources (s : session) : session * result error (list string) :=
  let '(w, r) := ts_ListResources (ss_server s) in (sends s (ss_client s) w ListedResources, r).
Definition ListPrompts (s : session) : session * result error (list string) :=
  let '(w, r) := ts_ListPrompts (ss_server s) in (sends s (ss_client s) w ListedPrompts, r).
Definition session_Close (s : session) : session := sends s (ss_client s) (ts_Close (ss_server s)) Closed.

(** ** Scenarios *)

Definition scenarioHandler : Type := session → gmap string json → session * option error.
Definition err_of {A} (r : result error A) : option error := match r with Ok _ => None | Err e => Some e end.

Definition noOp : scenarioHandler := λ s _, (s, None).
Definition listTools : scenarioHandler := λ s _, let '(s, r) := ListTools s in (s, err_of r).
Definition callAddNumbers : scenarioHandler := λ s _,
  let '(s, listed) := ListTools s in
  match listed with
  | Err err => (s, Some err)
  | Ok tools =>
      if existsb (λ tool, String.eqb (mcpTool_Name tool) "add_numbers") tools
      then let '(s, r) := CallTool s "add_numbers" {["a" := JInt 5; "b" := JInt 3]} in (s, err_of r)
      else (s, Some (ErrorNew "tool add_numbers not found"))
  end.
Definition reconnectTool : scenarioHandler := λ s _, let '(s, r) := CallTool s "test_reconnection" ∅ in (s, err_of r).

(** Calls whose outcome is ignored. *)
Definition call_all (calls : list (string * gmap string json)) (s : session) : session :=
  foldl (λ s call, (CallTool s call.1 call.2).1) s calls.
Definition mrtr_tools : list string := ["test_mrtr_echo_state"; "test_mrtr_no_state"; "test_mrtr_unrelated"; "test_mrtr_no_result_type"].
Definition exerciseUnsupportedMRTR : scenarioHandler := λ s _, (call_all (map (λ name, (name, ∅)) mrtr_tools) s, None).

(** What is done with the first of a list, when there is one. *)
Definition with_first {A} (r : session * result error (list A)) (use : session → A → session) : session :=
  match r with (s, Ok (x :: _)) => use s x | (s, _) => s end.
Definition exerciseStandardHeaders : scenarioHandler := λ s _,
  let s := with_first (ListTools s) (λ s tool, (CallTool s (mcpTool_Name tool) ∅).1) in
  let s := with_first (ListResources s) (λ s uri, sends s (ss_client s) (ts_ReadResource (ss_server s) uri) (ReadResource uri)) in
  let s := with_first (ListPrompts s) (λ s name, sends s (ss_client s) (ts_GetPrompt (ss_server s) name) (GotPrompt name)) in
  (s, None).

(** The calls that the suite's context asks for; what is not of the expected
    type is the zero value. *)
Definition toolCall_of (item : json) : string * gmap string json :=
  let object := match item with JObj members => members | _ => [] end in
  (match entry object "name" with Some (JStr name) => name | _ => "" end,
   match entry object "arguments" with Some (JObj members) => default ∅ (into_entries Some ∅ members) | _ => ∅ end).
Definition toolCalls (values : gmap string json) : list (string * gmap string json) :=
  match values !! "toolCalls" with Some (JArr raw) => map toolCall_of raw | _ => [] end.
Definition exerciseCustomHeaders : scenarioHandler := λ s values,
  match ListTools s with
  | (s, Err err) => (s, Some err)
  | (s, Ok _) => (call_all (toolCalls values) s, None)
  end.
Definition exerciseInvalidHeaderTools : scenarioHandler := λ s _,
  match ListTools s with
  | (s, Err err) => (s, Some err)
  | (s, Ok tools) => (call_all (map (λ tool, (mcpTool_Name tool, {["region" := JStr "us-west1"]})) tools) s, None)
  end.

Definition scenarios (name : string) : option scenarioHandler :=
  (list_to_map
    [("initialize", listTools); ("tools_call", callAddNumbers); ("request-metadata", noOp); ("sse-retry", reconnectTool);
     ("sep-2322-client-request-state", exerciseUnsupportedMRTR); ("http-standard-headers", exerciseStandardHeaders);
     ("http-custom-headers", exerciseCustomHeaders); ("http-invalid-tool-headers", exerciseInvalidHeaderTools);
     ("json-schema-ref-no-deref", listTools); ("json-schema-2020-12-preservation", listTools)] : gmap string scenarioHandler) !! name.

(** [json.Unmarshal] into a map, whose error is ignored: nothing is stored of a
    text that is not JSON, or not an object. *)
Definition conformanceContext (env : string) : gmap string json :=
  default ∅ (v ← parse (to_bytes env); into_map Some ∅ v).

(** ** Running *)

(** [newTransport] and [GetClient] are as in [CatalogClient.v]. *)
Context (newTransport : providerTransport → option error) (GetClient : Client → W).

Definition conformance_config (endpoint : string) : MCPClientConfigV2 :=
  mkClientConfig MCPClientTypeStreamable "" [] ∅ endpoint ∅ 0 None.
Definition conformance_request : InitializeRequest :=
  mkInitialize LATEST_PROTOCOL_VERSION (mkImplementation "tappet-conformance" "1") no_capabilities.

(** The client with what it has sent, also when it is closed again. *)
Definition connect (endpoint : string) : option session * result error session :=
  match NewMCPClient newTransport [] "conformance" (conformance_config endpoint) with
  | Err err => (None, Err err)
  | Ok c =>
      let '(w, err) := ts_Start (GetClient c) in
      let s := mkSession c w [Started] in
      match err with
      | Some err => (Some (session_Close s), Err err)
      | None =>
          let '(w, err) := ts_Initialize w conformance_request in
          let s := sends s c w (Initialized conformance_request) in
          match err with Some err => (Some (session_Close s), Err err) | None => (Some s, Ok s) end
      end
  end.

(** [program] and [args] are [os.Args]. [log.Fatal] exits at once: what is
    deferred is not run. *)
Definition conformance_main (program : string) (args : list string) (getenv : string → string) : option session * result error unit :=
  match args with
  | [url] =>
      let scenario := getenv "MCP_CONFORMANCE_SCENARIO" in
      match scenarios scenario with
      | None => (None, Err (Errorf "scenario %q is outside Tappet's downstream provider scope" [FStr scenario]))
      | Some handler =>
          match connect url with
          | (s, Err err) => (s, Err err)
          | (_, Ok s) =>
              match handler s (conformanceContext (getenv "MCP_CONFORMANCE_CONTEXT")) with
              | (s, Some err) => (Some s, Err (Wrapf "scenario %q: %v" [FStr scenario] err))
              | (s, None) => (Some (session_Close s), Ok tt)
              end
          end
      end
  | _ => (None, Err (Errorf "usage: %s <server-url>" [FStr program]))
  end.

(** ** Specification *)

(** The definitions that the last listing gave. *)
Definition offered (sent : list request) : list mcpTool :=
  foldl (λ tools r, match r with Listed (Ok tools) => tools | _ => tools end) [] sent.

(** A call is allowed when no definition of its name was invalid. *)
Definition allowed (tools : list mcpTool) (name : string) : Prop :=
  ∀ t, t ∈ tools → mcpTool_Name t = name → valid_tool ValidateParamHeaderAnnotations t = true.
Definition careful (sent : list request) : Prop :=
  ∀ before name arguments after, sent = before ++ Called name arguments :: after → allowed (offered before) name.

(** A session's client refuses what the last listing made invalid. *)
Record session_ok (s : session) : Prop := {
  so_invalid : cl_invalidTools (ss_client s) = foldl (record_invalid mcpTool_Name ValidateParamHeaderAnnotations) ∅ (offered (ss_sent s));
  so_careful : careful (ss_sent s);
  so_open : Closed ∉ ss_sent s }.

(** What the calls of a client that has listed [tools] send. *)
Definition sent_calls (tools : list mcpTool) (calls : list (string * gmap string json)) : list request :=
  map (λ call, Called call.1 call.2)
    (List.filter (λ call, forallb (λ t, negb (String.eqb (mcpTool_Name t) call.1) || valid_tool ValidateParamHeaderAnnotations t) tools) calls).

Lemma offered_snoc sent r : offered (sent ++ [r]) = match r with Listed (Ok tools) => tools | _ => offered sent end.
Proof. unfold offered. rewrite foldl_app. cbn. by destruct r as [| |[]| | | | | |]. Qed.

Lemma careful_nil : careful [].
Proof. intros [|? ?] ? ? ? ?; done. Qed.

Lemma careful_snoc sent r :
  careful sent → (∀ name arguments, r = Called name arguments → allowed (offered sent) name) → careful (sent ++ [r]).
Proof.
  intros Hs Hr before name arguments after He. destruct after as [|x after _] using rev_ind.
  - apply app_inj_tail in He as [-> ->]. by apply (Hr name arguments).
  - rewrite app_comm_cons, app_assoc in He. apply app_inj_tail in He as [-> ->]. by apply (Hs before name arguments after).
Qed.

Lemma sends_ok s w r :
  session_ok s → r ≠ Closed → (∀ tools, r ≠ Listed tools) →
  (∀ name arguments, r = Called name arguments → allowed (offered (ss_sent s)) name) → session_ok (sends s (ss_client s) w r).
Proof.
  intros [Hi Hc Ho] Hr Hl Hn. split; cbn [ss_client ss_sent sends].
  - rewrite offered_snoc, Hi. destruct r as [| |tools| | | | | |]; try done. by destruct (Hl tools).
  - by apply careful_snoc.
  - rewrite elem_of_app, list_elem_of_singleton. naive_solver.
Qed.

Lemma list_tools_ok s s' r : session_ok s → ListTools s = (s', r) → session_ok s' ∧ ∃ w listed,
  ts_ListTools (ss_server s) = (w, listed) ∧ ss_sent s' = ss_sent s ++ [Listed listed] ∧
  r = match listed with Ok tools => Ok (List.filter (valid_tool ValidateParamHeaderAnnotations) tools) | Err e => Err e end.
Proof.
  intros [Hi Hc Ho]. unfold ListTools, client_ListTools. destruct (ts_ListTools (ss_server s)) as [w listed].
  destruct listed as [tools|e].
  - rewrite list_tools_filter. intros [= <- <-]. split; [|by exists w, (Ok tools)]. split; cbn [ss_client ss_sent sends with_invalid cl_invalidTools].
    + by rewrite offered_snoc.
    + by apply careful_snoc.
    + rewrite elem_of_app, list_elem_of_singleton. naive_solver.
  - intros [= <- <-]. split; [|by exists w, (Err e)]. split; cbn [ss_client ss_sent sends].
    + by rewrite offered_snoc.
    + by apply careful_snoc.
    + rewrite elem_of_app, list_elem_of_singleton. naive_solver.
Qed.

Lemma allowed_spec tools name :
  allowed tools name ↔ forallb (λ t, negb (String.eqb (mcpTool_Name t) name) || valid_tool ValidateParamHeaderAnnotations t) tools = true.
Proof.
  rewrite forallb_forall. unfold allowed. setoid_rewrite list_elem_of_In. split; intros H t Ht.
  - destruct (String.eqb_spec (mcpTool_Name t) name); cbn; [by apply H|done].
  - intros Hn. specialize (H t Ht). by rewrite Hn, String.eqb_refl in H.
Qed.

(** A call is sent exactly when it is allowed. *)
Lemma call_tool_ok s name arguments : session_ok s →
  session_ok (CallTool s name arguments).1 ∧
  ss_sent (CallTool s name arguments).1 = ss_sent s ++ sent_calls (offered (ss_sent s)) [(name, arguments)].
Proof.
  intros Hs. pose proof Hs as [Hi Hc Ho].
  destruct (recorded mcpTool_Name ValidateParamHeaderAnnotations (offered (ss_sent s)) ∅ name) as [_ Hn]. rewrite <- Hi in Hn.
  unfold CallTool, client_CallTool, sent_calls. cbn [List.filter fst].
  destruct (cl_invalidTools (ss_client s) !! name) as [invalid|].
  - destruct (forallb _ _) eqn:Ha; cbn; [|by rewrite app_nil_r].
    rewrite <- allowed_spec in Ha. by specialize (proj2 Hn (conj (lookup_empty name) Ha)).
  - destruct (proj1 Hn eq_refl) as [_ Ha]. destruct (ts_CallTool _ _ _) as [w answer]. cbn [fst].
    rewrite (proj1 (allowed_spec _ _) Ha). split; [|done]. apply sends_ok; [done..|]. by intros ? ? [= <- _].
Qed.

Lemma offered_calls tools calls : ∀ sent, offered (sent ++ sent_calls tools calls) = offered sent.
Proof.
  unfold sent_calls. induction (List.filter _ calls) as [|c l IH] using rev_ind; intros sent; [by rewrite app_nil_r|].
  rewrite map_app, app_assoc. cbn [map]. by rewrite offered_snoc.
Qed.

Lemma call_all_ok calls : ∀ s, session_ok s →
  session_ok (call_all calls s) ∧ ss_sent (call_all calls s) = ss_sent s ++ sent_calls (offered (ss_sent s)) calls.
Proof.
  induction calls as [|[name arguments] calls IH]; intros s Hs; [by rewrite app_nil_r|].
  cbn [call_all foldl fst snd]. destruct (call_tool_ok s name arguments Hs) as [H1 H2]. destruct (IH _ H1) as [H3 H4].
  split; [done|]. fold (call_all calls (CallTool s name arguments).1). rewrite H4, H2, offered_calls, <- app_assoc. f_equal.
  unfold sent_calls. rewrite <- map_app. f_equal. cbn [List.filter]. by destruct (forallb _ _).
Qed.

(** Every scenario keeps a session in order. *)
Lemma with_first_ok {A} (r : session * result error (list A)) use :
  session_ok r.1 → (∀ s x, session_ok s → session_ok (use s x)) → session_ok (with_first r use).
Proof. destruct r as [s [[|x l]|e]]; cbn; auto. Qed.

Lemma list_resources_ok s : session_ok s → session_ok (ListResources s).1.
Proof. intros Hs. unfold ListResources. destruct (ts_ListResources _). by apply sends_ok. Qed.
Lemma list_prompts_ok s : session_ok s → session_ok (ListPrompts s).1.
Proof. intros Hs. unfold ListPrompts. destruct (ts_ListPrompts _). by apply sends_ok. Qed.
Lemma listed_ok s : session_ok s → session_ok (ListTools s).1.
Proof. intros Hs. destruct (ListTools s) as [s' r] eqn:E. by destruct (list_tools_ok _ _ _ Hs E). Qed.

Lemma scenario_ok name handler s values : scenarios name = Some handler → session_ok s → session_ok (handler s values).1.
Proof.
  intros Hn Hs. unfold scenarios in Hn. apply elem_of_list_to_map_2 in Hn.
  assert (∀ s name arguments, session_ok s → session_ok (CallTool s name arguments).1) as Hcall by (intros; by apply call_tool_ok).
  assert (∀ calls s, session_ok s → session_ok (call_all calls s)) as Hcalls by (intros; by apply call_all_ok).
  pose proof (listed_ok s Hs) as Hl.
  assert (session_ok (listTools s values).1) as Hlist by (unfold listTools; by destruct (ListTools s)).
  rewrite !elem_of_cons, elem_of_nil in Hn. destruct_or! Hn; try done; injection Hn as -> ->; try done.
  - unfold callAddNumbers. destruct (ListTools s) as [s1 [tools|e]]; [|done]. destruct (existsb _ _); [|done].
    specialize (Hcall s1 "add_numbers" {["a" := JInt 5; "b" := JInt 3]} Hl). by destruct (CallTool s1 _ _).
  - unfold reconnectTool. specialize (Hcall s "test_reconnection" ∅ Hs). by destruct (CallTool s _ _).
  - by apply Hcalls.
  - unfold exerciseStandardHeaders. cbn [fst]. repeat (apply with_first_ok; [|intros; by (apply Hcall || apply sends_ok)]).
    apply list_prompts_ok, with_first_ok; [apply list_resources_ok, with_first_ok|]; [done|intros; by apply Hcall|intros; by apply sends_ok].
  - unfold exerciseCustomHeaders. destruct (ListTools s) as [s1 [tools|e]]; [|done]. by apply Hcalls.
  - unfold exerciseInvalidHeaderTools. destruct (ListTools s) as [s1 [tools|e]]; [|done]. by apply Hcalls.
Qed.

(** What a run has sent, and how it ends. *)
Definition run_ok (outcome : option session * result error unit) : Prop :=
  match outcome with
  | (None, r) => r ≠ Ok tt
  | (Some s, r) =>
      careful (ss_sent s) ∧
      ∃ sent, (Closed ∉ sent) ∧
        match r with
        | Ok _ => ss_sent s = sent ++ [Closed]
        | Err _ => ss_sent s = sent ∨ (ss_sent s = sent ++ [Closed] ∧ sent `prefix_of` [Started; Initialized conformance_request])
        end
  end.

Lemma closing s : session_ok s → careful (ss_sent (session_Close s)).
Proof. intros [_ Hc _]. by apply careful_snoc. Qed.

Lemma connect_ok url :
  match connect url with
  | (s, Ok s') => s = Some s' ∧ session_ok s' ∧ ss_sent s' = [Started; Initialized conformance_request]
  | (Some s, Err _) => ∃ s', s = session_Close s' ∧ session_ok s' ∧ (ss_sent s') `prefix_of` [Started; Initialized conformance_request]
  | (None, Err _) => True
  end.
Proof.
  unfold connect. destruct (NewMCPClient _ _ _ _) as [c|e] eqn:Hnew; [|done].
  assert (cl_invalidTools c = ∅) as Hc.
  { unfold NewMCPClient, newMCPClient in Hnew. cbn in Hnew. destruct (String.eqb url ""); cbn in Hnew; [done|].
    destruct (newTransport _); [done|]. by injection Hnew as <-. }
  destruct (ts_Start _) as [w [e|]].
  - eexists. split; [reflexivity|]. split; [|by exists [Initialized conformance_request]].
    split; cbn [ss_client ss_sent]; [done| |by rewrite list_elem_of_singleton]. by apply (careful_snoc []); [apply careful_nil|].
  - assert (session_ok (mkSession c w [Started])) as Hs.
    { split; cbn [ss_client ss_sent]; [done| |by rewrite list_elem_of_singleton]. by apply (careful_snoc []); [apply careful_nil|]. }
    destruct (ts_Initialize w _) as [w' err]. apply (sends_ok _ w' (Initialized conformance_request)) in Hs; [|done..].
    destruct err as [e|]; [|done]. eexists. split; [reflexivity|]. by split.
Qed.

(** In every scenario and whatever the server answers, a tool is called only if
    the last listing had no invalid definition of its name; nothing is sent
    after closing; and a run that succeeds has closed its session, while one
    that fails has closed it only if it could not connect. *)
Theorem conformance_careful program args getenv : run_ok (conformance_main program args getenv).
Proof.
  unfold conformance_main. destruct args as [|url []]; [done| |done]. destruct (scenarios _) as [handler|] eqn:Hn; [|done].
  pose proof (connect_ok url) as Hconn. destruct (connect url) as [o [s|e]].
  - assert (o = Some s ∧ session_ok s) as [-> Hs] by (destruct o; tauto). clear Hconn. pose proof (scenario_ok _ _ s (conformanceContext (getenv "MCP_CONFORMANCE_CONTEXT")) Hn Hs) as Hs'.
    destruct (handler s _) as [s' [err|]]; cbn [fst run_ok] in *.
    + split; [by apply Hs'|]. exists (ss_sent s'). split; [by apply Hs'|]. by left.
    + split; [by apply closing|]. exists (ss_sent s'). split; [by apply Hs'|]. done.
  - destruct o as [s|]; [|done]. destruct Hconn as (s' & -> & Hs' & Hp). split; [by apply closing|].
    exists (ss_sent s'). split; [by apply Hs'|]. by right.
Qed.

(** The scenario of invalid tools calls, once and in the order listed, every
    tool that is valid and whose name has no invalid definition, and no other;
    that of custom headers makes of the calls it is told those that are allowed. *)
Theorem header_scenarios s values : session_ok s →
  match (ts_ListTools (ss_server s)).2 with
  | Err e =>
      (exerciseInvalidHeaderTools s values).2 = Some e ∧ (exerciseCustomHeaders s values).2 = Some e
  | Ok tools =>
      let region := λ t, (mcpTool_Name t, {["region" := JStr "us-west1"]} : gmap string json) in
      (∃ s', exerciseInvalidHeaderTools s values = (s', None) ∧
        ss_sent s' = ss_sent s ++ Listed (Ok tools) :: sent_calls tools (map region (List.filter (valid_tool ValidateParamHeaderAnnotations) tools))) ∧
      (∃ s', exerciseCustomHeaders s values = (s', None) ∧
        ss_sent s' = ss_sent s ++ Listed (Ok tools) :: sent_calls tools (toolCalls values))
  end.
Proof.
  intros Hs. unfold exerciseInvalidHeaderTools, exerciseCustomHeaders.
  destruct (ListTools s) as [s1 r] eqn:E. destruct (list_tools_ok _ _ _ Hs E) as (Hs1 & w & listed & -> & Hsent & ->). cbn [snd].
  destruct listed as [tools|e]; [|done]. cbn zeta.
  split; eexists; (split; [reflexivity|]); destruct (call_all_ok) with (s := s1) (calls := toolCalls values) as [_ Hc]; [done| |done|].
  - destruct (call_all_ok (map (λ tool, (mcpTool_Name tool, {["region" := JStr "us-west1"]})) (List.filter (valid_tool ValidateParamHeaderAnnotations) tools)) s1 Hs1) as [_ ->].
    by rewrite Hsent, offered_snoc, <- app_assoc.
  - by rewrite Hc, Hsent, offered_snoc, <- app_assoc.
Qed.
End conformance.

(** ** A run *)

(** A server that lists [echo], a valid and an invalid [sum], and [spy]. *)
Definition header_tools : McpTools := {|
  mcpTool := string * bool; mcpTool_Name := fst; UnmarshalTool _ := None;
  ValidateParamHeaderAnnotations t := if t.2 then None else Some (ErrorNew "invalid annotation") |}.
Definition header_server : @TestServer demo_protocol header_tools unit := {|
  ts_Start _ := (tt, None); ts_Initialize _ _ := (tt, None);
  ts_ListTools _ := (tt, Ok [("echo", true); ("sum", true); ("sum", false); ("spy", false)] : result error (list (@mcpTool header_tools)));
  ts_CallTool _ _ _ := (tt, Ok tt); ts_ListResources _ := (tt, Ok []); ts_ReadResource _ _ := tt;
  ts_ListPrompts _ := (tt, Ok []); ts_GetPrompt _ _ := tt; ts_Close _ := tt |}.
Definition header_run (scenario context : string) : option (@session demo_protocol header_tools unit) * result error unit :=
  @conformance_main demo_protocol header_tools unit header_server (λ _, None) (λ _, tt) "client" ["http://localhost"]
    (λ name, if String.eqb name "MCP_CONFORMANCE_SCENARIO" then scenario else context).
Definition sent_names (r : option (@session demo_protocol header_tools unit) * result error unit) : list string :=
  match r.1 with Some s => omap (λ r, match r with Called name _ => Some name | Closed => Some "close" | _ => None end) (ss_sent s) | None => [] end.

(** Only [echo] is called; a failed scenario leaves its session open. *)
Example header_runs :
  sent_names (header_run "http-invalid-tool-headers" "") = ["echo"; "close"] ∧
  sent_names (header_run "http-custom-headers" (of_bytes (requote "{'toolCalls':[{'name':'spy'},{'name':'echo'},{},{'name':'other','arguments':{'x':1}}]}"))) =
    ["echo"; ""; "other"; "close"] ∧
  sent_names (header_run "tools_call" "") = [] ∧ (header_run "unknown" "").1 = None.
Proof. vm_compute. repeat split. Qed.
