(* ===== verification/Server.v ===== *)
(** * The broker's server

    Models [internal/server/server.go]: the middlewares of the HTTP server and
    their order, the two backends behind one interface, the handlers of the
    meta-tools with the text they answer, and the loading of a server, which
    composes the loader, the registry and the tool hierarchy. mcp-go's server
    and [net/http] are arguments. *)
From stdpp Require Import relations.
From Stdlib Require Import Ascii String.
From S2P Require Import Prelude GoStrings Limits Sha256 Regex Utf8 Text Json JsonScan JsonStruct JsonRound Snapshot SnapshotService Records Registry RegistrySteps Yaml Manifest Skill Loader LoaderSteps ResponseLimit ProviderRegistry Hierarchy Generator Generated Config Protocol Backend ProviderCall.
Local Open Scope string_scope.
Local Open Scope list_scope.
Local Open Scope Z_scope.

(** ** Middlewares *)

(** What serving a request does: the lines it logs, what it has written of a
    response, and whether it ends in a panic. *)
Record serving := mkServing { sv_log : list string; sv_response : option (Z * bytes); sv_panic : bool }.
Definition handler : Type := httpRequest → serving.
Definition MiddlewareFunc : Type := handler → handler.

Definition chainMiddleware (h : handler) (middlewares : list MiddlewareFunc) : handler := foldl (λ h mw, mw h) h middlewares.

(** [http.Error]: a header that has been written stays. *)
Definition http_error (s : serving) (message : string) (status : Z) : serving :=
  let body := to_bytes message ++ [NL] in
  mkServing (sv_log s) (Some (match sv_response s with None => (status, body) | Some (st, b) => (st, b ++ body) end)) false.

Definition bearer (r : httpRequest) : string := TrimSpace (TrimPrefix (rq_Header r "Authorization") "Bearer ").
Definition newAuthMiddleware (tokens : list string) : MiddlewareFunc := λ next r,
  if negb (Nat.eqb (length tokens) 0) then
    let token := bearer r in
    if String.eqb token "" then http_error (mkServing [] None false) "Unauthorized" 401
    else if negb (bool_decide (token ∈ (list_to_set tokens : gset string))) then http_error (mkServing [] None false) "Unauthorized" 401
    else next r
  else next r.

(** The path is not part of the modelled request. *)
Definition loggerMiddleware (prefix path : string) : MiddlewareFunc := λ next r,
  let s := next r in
  mkServing (("<" +:+ prefix +:+ "> Request [" +:+ rq_Method r +:+ "] " +:+ path) :: sv_log s) (sv_response s) (sv_panic s).

Definition recoverMiddleware (prefix : string) : MiddlewareFunc := λ next r,
  let s := next r in
  if sv_panic s
  then http_error (mkServing (sv_log s ++ ["<" +:+ prefix +:+ "> Recovered from panic"]) (sv_response s) false) "Internal Server Error" 500
  else s.

Section http.
Context `{Mcp}.

(** [modernMetadataValidationMiddleware(handler)] *)
Definition validated (next : handler) : handler := λ r,
  match modernMetadataValidationMiddleware r with
  | Answered status _ body => mkServing [] (Some (status, body)) false
  | Passed r => next r
  end.

Definition log_enabled (options : option OptionsV2) : bool := default false (o ← options; ov_LogEnabled o).
Definition auth_tokens (options : option OptionsV2) : list string := default [] (o ← options; ov_AuthTokens o).

(** The handler that [StartHTTPServer] serves. *)
Definition http_handler (options : option OptionsV2) (path : string) (inner : handler) : handler :=
  chainMiddleware (validated inner)
    ([recoverMiddleware "tappet"]
     ++ (if log_enabled options then [loggerMiddleware "tappet" path] else [])
     ++ (match auth_tokens options with [] => [] | tokens => [newAuthMiddleware tokens] end)).

End http.

(** ** Backends *)

(** [brokerBackend]: what the server asks of either; [S] is the backend's
    state and [R] what executing a tool gives. *)
Class brokerBackend (S R : Type) := {
  RootOverview : S → string;
  backend_Browse : S → string → S * result error json;
  backend_Execute : S → string → gmap string json → S * result error R;
}.

Definition JStrs (l : list (string * string)) : json := JObj (map (λ f, (f.1, JStr f.2)) l).

(** *** Of the capability registry *)

Definition child_json (c : childView) : json :=
  match c with
  | ChildCategory => JObj []
  | ChildCapability tool_count capability => JObj [("capability", JStr capability); ("is_leaf", JBool true); ("tool_count", JInt tool_count)]
  end.
Definition tool_view_json (t : toolView) : json := JStrs
  [("capability_id", tv_capability_id t); ("description", tv_description t); ("operation_id", tv_operation_id t); ("tool_path", tv_tool_path t)].
Definition view_json (v : browseView) : json := JObj
  (omit_object "children" (child_json <$> bv_children v) ++ [("path", JStr (bv_path v)); ("tools", object_json (tool_view_json <$> bv_tools v))]).

Section capability.
Context {W : Type} `{SnapshotOps W} {R : Type}.
(** The call of a provider with the tool's arguments, and the order in which
    [range] visits the entries when a path is resolved. *)
Context (run : gmap string json → RState W → mappedCall → RState W * result error R).
Context (order : RState W → list (string * nat)).

Definition capabilityBackend : brokerBackend (RState W) R := {|
  RootOverview _ := "Tappet capability registry. Browse categories to find validated capability operations.";
  backend_Browse s path := let '(s, r) := capabilityBackend_Browse s path in (s, rmap view_json r);
  backend_Execute s toolPath arguments := capabilityBackend_Execute (run arguments) (order s) s toolPath;
|}.
End capability.

(** *** Of the tool hierarchy *)

Definition hierarchy_child_json (c : childInfo) : json :=
  match c with
  | ChildLeaf tool_count => JObj [("is_leaf", JBool true); ("tool_count", JInt tool_count)]
  | ChildBranch overview => JObj (omit_string "overview" overview)
  end.
Definition hierarchy_tool_json (t : toolInfo) : json := JStrs [("description", ti_description t); ("tool_path", ti_tool_path t)].
Definition category_json (c : category) : json := JObj
  (omit_object "children" (hierarchy_child_json <$> ct_children c) ++ omit_string "overview" (ct_overview c) ++
   [("path", JStr (ct_path c)); ("tools", object_json (hierarchy_tool_json <$> ct_tools c))]).

Section hierarchy.
Context {R : Type} (order : list (string * HierarchyNode)).
Context (run : string → string → option (gmap string json) → gmap string json → result error R).

Definition hierarchyBackend : brokerBackend Hierarchy R := {|
  RootOverview h := match GetRootNode h with Some root => hy_Overview root | None => "" end;
  backend_Browse h path := (h, rmap category_json (HandleGetToolsInCategory order h path));
  backend_Execute h toolPath arguments :=
    (h, let! '(serverName, actualToolName, inputSchema) := HandleExecuteTool h toolPath in run serverName actualToolName inputSchema arguments);
|}.
End hierarchy.

(** ** The meta-tools *)

Definition get_tools_description : string :=
  "You have MCP tools hidden within categories. You MUST use get_tools_in_category to learn more about what available tools you have within these categories. Returns children categories, and tools at the specified path. Call initially with an empty string to get root categories.".

Section handlers.
Context {S R : Type} `{!brokerBackend S R}.

Definition described (b : S) : string :=
  get_tools_description +:+ (if String.eqb (RootOverview b) "" then "" else of_bytes [NL; NL] +:+ RootOverview b).

(** A member of the arguments, when they are an object. *)
Definition argument (arguments : option json) (name : string) : option json :=
  match arguments with Some (JObj l) => entry l name | _ => None end.
Definition string_argument (arguments : option json) (name : string) : string :=
  match argument arguments name with Some (JStr s) => s | _ => "" end.

(** [json.MarshalIndent(response, '', '  ')] *)
Definition MarshalIndent (v : json) : bytes := print indent_ws (to_bytes " ") 0 v.

Definition get_tools_in_category (b : S) (arguments : option json) : S * result error string :=
  let '(b, response) := backend_Browse b (string_argument arguments "path") in
  (b, rmap (λ response, of_bytes (MarshalIndent response)) response).

Definition execute_tool (b : S) (arguments : option json) : S * result error R :=
  let toolPath := string_argument arguments "tool_path" in
  let inner := match argument arguments "arguments" with Some (JObj l) => default ∅ (into_entries Some ∅ l) | _ => ∅ end in
  if String.eqb toolPath "" then (b, Err (ErrorNew "tool_path is required"))
  else backend_Execute b toolPath inner.
End handlers.

(** *** What an agent reads *)

(** The path of a tool in the text of a category. *)
Definition member (v : json) (name : string) : option json := match v with JObj l => entry l name | _ => None end.
Definition told_tool_path (text : string) (name : string) : option string :=
  v ← parse (to_bytes text); tools ← member v "tools"; tool ← member tools name; p ← member tool "tool_path";
  match p with JStr s => Some s | _ => None end.
Definition execute_request (tool_path : string) (arguments : list (string * json)) : json :=
  JObj [("tool_path", JStr tool_path); ("arguments", JObj arguments)].

Lemma member_object (m : gmap string json) name : member (object_json m) name = m !! name.
Proof. unfold member, object_json. destruct (sorted_members m) as [Hm Hnd]. by rewrite entry_members, Hm. Qed.

Lemma carried_strs l : Forall (λ f, ValidString f.1 = true ∧ ValidString f.2 = true) l → carried 1 (JStrs l).
Proof.
  intros Hl. apply (carried_members 0); [done|]. rewrite Forall_forall in Hl. apply Forall_forall. intros f (x & <- & Hx)%list_elem_of_In%in_map_iff.
  apply list_elem_of_In in Hx. destruct (Hl x Hx) as [? ?]. split; [done|]. by split.
Qed.

Lemma marshal_indent_parses v : carried max_depth v → parse (MarshalIndent v) = Some v.
Proof.
  intros [[Hn E]%valid_json_clean Hd]. rewrite <- (app_nil_r (MarshalIndent v)). transitivity (Some (clean_json v)); [|by rewrite E]. apply parse_print; [apply indent_white|by repeat constructor|done|done|constructor].
Qed.

Record valid_view (v : browseView) : Prop := {
  vv_path : ValidString (bv_path v) = true;
  vv_children : map_Forall (λ k c, ValidString k = true ∧ match c with ChildCapability _ id => ValidString id = true | ChildCategory => True end) (bv_children v);
  vv_tools : map_Forall (λ k t, Forall (λ s, ValidString s = true) [k; tv_capability_id t; tv_description t; tv_operation_id t; tv_tool_path t]) (bv_tools v);
}.

Lemma child_carried c : match c with ChildCapability _ id => ValidString id = true | ChildCategory => True end → carried 1 (child_json c).
Proof.
  destruct c as [|n id]; cbn [child_json]; intros Hc; [split; [exact I|cbn; lia]|]. apply (carried_members 0); [done|].
  pose proof (FormatInt_number n). repeat constructor; cbn; done.
Qed.

Lemma view_carried v : valid_view v → carried max_depth (view_json v).
Proof.
  intros [Hp Hc Ht].
  assert (carried (2 + 1) (view_json v)) as [Hv Hd]; [|split; [done|unfold max_depth; lia]].
  apply carried_members; [done|]. apply Forall_app. split.
  - unfold omit_object. case_decide; [constructor|]. apply Forall_singleton. split; [done|]. apply (carried_object_json 1); [done|].
    intros k w (c & <- & Hk)%lookup_fmap_Some. destruct (Hc k c Hk). split; [done|by apply child_carried].
  - apply Forall_cons. split; [split; [done|by split]|]. apply Forall_singleton. split; [done|]. apply (carried_object_json 1); [done|].
    intros k w (t & <- & Hk)%lookup_fmap_Some. pose proof (Ht k t Hk) as Hf. rewrite !Forall_cons in Hf. destruct Hf as (? & ? & ? & ? & ? & _).
    split; [done|]. apply carried_strs. repeat constructor; done.
Qed.

(** The text of an object tells the paths of the tools among its members. *)
Lemma told_tools l (tools : gmap string json) name : carried max_depth (JObj l) → NoDup l.*1 → members_of l !! "tools" = Some (object_json tools) →
  told_tool_path (of_bytes (MarshalIndent (JObj l))) name = tool ← tools !! name; p ← member tool "tool_path"; match p with JStr s => Some s | _ => None end.
Proof.
  intros Hc Hnd Ht. unfold told_tool_path. rewrite to_of_bytes, marshal_indent_parses by done. cbn [mbind option_bind].
  assert (member (JObj l) "tools" = Some (object_json tools)) as -> by (unfold member; by rewrite entry_members). cbn [mbind option_bind]. by rewrite member_object.
Qed.
Lemma told_view v name : valid_view v → told_tool_path (of_bytes (MarshalIndent (view_json v))) name = tv_tool_path <$> bv_tools v !! name.
Proof.
  intros Hv. unfold view_json. rewrite (told_tools _ (tool_view_json <$> bv_tools v)).
  - rewrite lookup_fmap. by destruct (bv_tools v !! name).
  - by apply view_carried.
  - apply (sublist_NoDup _ ["children"; "path"; "tools"]); [by apply (bool_decide_unpack _); vm_compute|].
    rewrite fmap_app. apply (sublist_app _ ["children"] _ ["path"; "tools"]); [apply omit_object_keys|done].
  - rewrite members_of_app, omit_object_lookup. cbn [String.eqb Ascii.eqb Bool.eqb]. reflexivity.
Qed.

(** The same of a category of a hierarchy. *)
Lemma category_carried c : valid_category c → carried max_depth (category_json c).
Proof.
  intros [Hp Ho Hc Ht]. assert (carried (2 + 1) (category_json c)) as [Hv Hd]; [|split; [done|unfold max_depth; lia]].
  apply carried_members; [done|]. apply Forall_app. split; [|apply Forall_app; split].
  - unfold omit_object. case_decide; [constructor|]. apply Forall_singleton. split; [done|]. apply (carried_object_json 1); [done|].
    intros k w (i & <- & Hk)%lookup_fmap_Some. destruct (Hc k i Hk) as [Hvk Hi]. split; [done|]. destruct i as [n|o]; cbn [hierarchy_child_json].
    + apply (carried_members 0); [done|]. pose proof (FormatInt_number n). repeat constructor; cbn; done.
    + apply (carried_members 0); [done|]. by apply omit_string_carried.
  - by apply omit_string_carried.
  - apply Forall_cons. split; [split; [done|by split]|]. apply Forall_singleton. split; [done|]. apply (carried_object_json 1); [done|].
    intros k w (i & <- & Hk)%lookup_fmap_Some. pose proof (Ht k i Hk) as Hf. rewrite !Forall_cons in Hf. destruct Hf as (? & ? & ? & _).
    split; [done|]. apply carried_strs. repeat constructor; done.
Qed.
Lemma told_category c name : valid_category c → told_tool_path (of_bytes (MarshalIndent (category_json c))) name = ti_tool_path <$> ct_tools c !! name.
Proof.
  intros Hv. unfold category_json. rewrite (told_tools _ (hierarchy_tool_json <$> ct_tools c)).
  - rewrite lookup_fmap. by destruct (ct_tools c !! name).
  - by apply category_carried.
  - apply (sublist_NoDup _ ["children"; "overview"; "path"; "tools"]); [by apply (bool_decide_unpack _); vm_compute|].
    rewrite !fmap_app. apply (sublist_app _ ["children"] _ ["overview"; "path"; "tools"]); [apply omit_object_keys|].
    apply (sublist_app _ ["overview"] _ ["path"; "tools"]); [apply omit_string_keys|done].
  - rewrite !members_of_app, omit_object_lookup, omit_string_lookup. cbn [String.eqb Ascii.eqb Bool.eqb]. reflexivity.
Qed.

(** An agent that browses a hierarchy reads the category's paths, and executing
    one calls what it resolves to. *)
Lemma hierarchy_told {R} order run (h : Hierarchy) path c : order ≡ₚ map_to_list h → valid_hierarchy h → HandleGetToolsInCategory order h path = Ok c →
  ∃ text, get_tools_in_category (R := R) (brokerBackend0 := hierarchyBackend order run) h (Some (JObj [("path", JStr path)])) = (h, Ok text) ∧
    ∀ name, told_tool_path text name = ti_tool_path <$> ct_tools c !! name.
Proof.
  intros Ho Hv Hc. exists (of_bytes (MarshalIndent (category_json c))). split; [|intros name; apply told_category; by eapply category_valid].
  unfold get_tools_in_category. change (string_argument (Some (JObj [("path", JStr path)])) "path") with path.
  cbn [backend_Browse hierarchyBackend]. by rewrite Hc.
Qed.
Lemma hierarchy_executes {R} order run (h : Hierarchy) p arguments server name schema : p ≠ "" → HandleExecuteTool h p = Ok (server, name, schema) →
  execute_tool (R := R) (brokerBackend0 := hierarchyBackend order run) h (Some (execute_request p arguments)) =
    (h, run server name schema (default ∅ (into_entries Some ∅ arguments))).
Proof.
  intros Hp He. unfold execute_tool. assert (string_argument (Some (execute_request p arguments)) "tool_path" = p ∧
    argument (Some (execute_request p arguments)) "arguments" = Some (JObj arguments)) as [-> ->] by (split; reflexivity).
  apply String.eqb_neq in Hp. rewrite Hp. cbn [backend_Execute hierarchyBackend]. by rewrite He.
Qed.

Section told.
Context {W : Type} `{SnapshotOps W} `{!SnapshotLaws W} {R : Type}.
Context (run : gmap string json → RState W → mappedCall → RState W * result error R).
Context (order : RState W → list (string * nat)).

End told.

(** ** [loadServer] *)

Section load.
Context `{TextOps} `{UnicodeTables} `{LowerCase} `{YamlDecoder} `{MimeTable} `{UnixFiles}.
(** The order in which a commit visits its artifacts, and the files of a
    hierarchy's root node and directory. *)
Context (range : gmap string stagedArtifact → list (string * stagedArtifact)).
Context (hierarchyFiles : string → result error bytes * tree).

Inductive loadedBackend := LoadedCapabilities (s : RState World) | LoadedHierarchy (h : Hierarchy).

Definition NewLoader (rootPath : string) : result error string :=
  fail_if String.eqb rootPath "" with ErrorNew "capability package root is required" else Ok rootPath.

Definition load_capabilities (path : string) : result error (RState World) :=
  let! store := wrapping "create capability snapshot store: %w" [] (NewSnapshotStore DefaultStoreLimits) in
  let! rootPath := wrapping "create capability loader: %w" [] (NewLoader path) in
  let '(w, records) := LoadAll range rootPath (openPackageRoot rootPath) (mkWorld store ∅ ∅ ∅) in
  let! records := wrapping "load capability packages: %w" [] records in
  let '(s, err) := NewRegistry w (Some <$> records) in
  match err with
  | Some e => Err (Wrapf "create capability registry: %w" [] e)
  | None => Ok s
  end.

Definition load_backend (proxy : MCPProxyConfigV2) : result error loadedBackend :=
  if negb (String.eqb (px_CapabilityPath proxy) "")
  then rmap LoadedCapabilities (load_capabilities (px_CapabilityPath proxy))
  else rmap LoadedHierarchy
         (wrapping "failed to load hierarchy: %w" []
            (LoadHierarchy (px_HierarchyPath proxy) (hierarchyFiles (px_HierarchyPath proxy)).1 (hierarchyFiles (px_HierarchyPath proxy)).2)).

(** The connections to the providers are closed again when it fails. *)
Definition loadServer (cfg : Config) : ServerRegistry * result error loadedBackend :=
  let providers := newServerRegistry (dom (cf_McpServers cfg)) in
  match load_backend (cf_McpProxy cfg) with
  | Err e => (registry_Close providers, Err e)
  | Ok b => (providers, Ok b)
  end.

(** [serverRuntime.Close]; [order] is that of the registry's entries. *)
Definition runtime_Close (order : list (string * nat)) (providers : ServerRegistry) (b : loadedBackend) : ServerRegistry * loadedBackend :=
  (registry_Close providers, match b with LoadedCapabilities s => LoadedCapabilities (closeLocked order s) | _ => b end).
End load.

(** What a load hands over can be registered. *)
Lemma loaded_fresh w0 w records :
  extended w0 w (snapshots records) → Z.of_nat (length records) < 2 ^ 64 → records_fresh (empty_state w) records.
Proof.
  intros Hex Hlen. split; [done|by apply (ex_distinct _ _ _ Hex)|].
  intros r sn Hr Hsn. assert (sn ∈ snapshots records) as Hin by (apply list_elem_of_omap; by exists r).
  destruct (ex_live _ _ _ Hex sn Hin) as [Hold [x Hx]]. pose proof (ex_new _ _ _ Hex sn x Hx Hold) as Hnew.
  rewrite bool_decide_true in Hnew by done. split.
  - cbn. unfold snap_live. rewrite Hx. by rewrite Hnew.
  - intros (a & g & Hg & _). cbn in Hg. by rewrite lookup_empty in Hg.
Qed.

Lemma default_limits : limits_ok DefaultStoreLimits.
Proof. done. Qed.

(** The registry that is made of the packages of a root. *)
Lemma capabilities_loaded `{TextLaws} `{UnicodeTables} `{LowerCase} `{YamlDecoder} `{MimeTable} `{UnixFiles} range path root names :
  (∀ m, range m ≡ₚ map_to_list m) → path ≠ "" → openPackageRoot path = Ok root → root_ok root → pr_PackageNames root = Ok names →
  Z.of_nat (length names) < 2 ^ 64 →
  match LoadAll range path (Ok root) (initial_world DefaultStoreLimits) with
  | (_, Err e) => load_capabilities range path = Err (Wrapf "load capability packages: %w" [] e)
  | (w, Ok records) =>
      ∃ s, load_capabilities range path = Ok s ∧ extended (initial_world DefaultStoreLimits) w (snapshots records) ∧
        map record_id records ≡ₚ names ∧ Forall (λ r, is_Some (rec_snapshot r) ∧ operations_ok r) records ∧
        reg_initial s ∧ registered (empty_state w) s ∧ (∀ id, is_Some (r_entries (g_reg s) !! id) ↔ id ∈ names) ∧
        Forall (λ r, ∃ a g, live_entry s (record_id r) = Some (a, g) ∧ gen_record g = r) records
  end.
Proof.
  intros Hrange Hpath Hopen Hroot Hnames Hlen. unfold load_capabilities, NewLoader, guardE. apply String.eqb_neq in Hpath as ->. cbn [wrapping rbind].
  change (NewSnapshotStore DefaultStoreLimits) with (Ok (E := error) (w_store (initial_world DefaultStoreLimits))). cbn [wrapping rbind].
  change (mkWorld (w_store (initial_world DefaultStoreLimits)) ∅ ∅ ∅) with (initial_world DefaultStoreLimits). rewrite Hopen.
  assert (inv DefaultStoreLimits (initial_world DefaultStoreLimits)) as Hinv by (apply inv_reachable; [done|apply rtc_refl]).
  destruct (LoadAll range path (Ok root) (initial_world DefaultStoreLimits)) as [w r] eqn:Hl.
  pose proof (LoadAll_spec range DefaultStoreLimits root path names _ w r Hrange default_limits Hinv Hroot Hnames Hl) as Hspec.
  destruct r as [records|e]; cbn [wrapping rbind]; [|done]. destruct Hspec as (Hex & Hids & Hnd & _ & Hrec).
  assert (svc_ok w) as Hw by (exists DefaultStoreLimits; split; [done|by eapply steps_inv; [| |apply (ex_steps _ _ _ Hex)]]).
  assert (Z.of_nat (length records) < 2 ^ 64) as Hcount by (rewrite <- (length_map record_id records), Hids; done).
  pose proof (loaded_fresh _ _ _ Hex Hcount) as Hfresh. destruct (heap_inv_empty w Hw) as [Hi He].
  destruct (register_spec records ∅ _ Hi He eq_refl Hfresh) as [Hsome Hok].
  destruct Hok as [s Hs]; [|by rewrite Hids|].
  { eapply Forall_impl; [exact Hrec|]. intros x [? _]. split; [done|]. cbn. apply lookup_empty. }
  unfold NewRegistry. rewrite Hs. exists s. destruct (Hsome s Hs) as (Hv & Hreg & Hdom & Hall).
  split_and!; [done..|by exists w, records|done| |done]. intros id. rewrite Hdom. cbn. rewrite lookup_empty, Hids. split; [by intros [[? ?]|]|by right].
Qed.

(** C32. A server starts exactly when its packages load. When the packages of
    the configured root do, the registry takes every one of their records,
    whatever they are: it is then in a state the registry's theorems speak of,
    it has exactly the packages of the root, and every operation of every one
    resolves; otherwise the error says why and no connection is left open. *)
Theorem server_starts `{TextLaws} `{UnicodeTables} `{LowerCase} `{YamlDecoder} `{MimeTable} `{UnixFiles}
    range hierarchyFiles cfg root names :
  let path := px_CapabilityPath (cf_McpProxy cfg) in
  (∀ m, range m ≡ₚ map_to_list m) → path ≠ "" → openPackageRoot path = Ok root → root_ok root → pr_PackageNames root = Ok names →
  Z.of_nat (length names) < 2 ^ 64 →
  let '(providers, r) := loadServer range hierarchyFiles cfg in
  match (LoadAll range path (Ok root) (initial_world DefaultStoreLimits)).2 with
  | Err e => r = Err (Wrapf "load capability packages: %w" [] e) ∧ sr_closed providers = true
  | Ok records =>
      ∃ s, r = Ok (LoadedCapabilities s) ∧ sr_closed providers = false ∧ reg_reachable s ∧ map record_id records ≡ₚ names ∧
        (∀ id, is_Some (r_entries (g_reg s) !! id) ↔ id ∈ names) ∧
        ∀ record, record ∈ records → ∃ a g, live_entry s (record_id record) = Some (a, g) ∧ gen_record g = record ∧
          ∀ o, o ∈ rec_operations record → resolved s a g (record_id record) o (ResolveOperation s (record_id record) (op_ID o))
  end.
Proof.
  intros path Hrange Hpath Hopen Hroot Hnames Hlen. unfold loadServer, load_backend. fold path.
  pose proof (capabilities_loaded range path root names Hrange Hpath Hopen Hroot Hnames Hlen) as Hload. apply String.eqb_neq in Hpath as ->. cbn [negb].
  destruct (LoadAll range path (Ok root) (initial_world DefaultStoreLimits)) as [w [records|e]]; cbn [snd]; [|by rewrite Hload].
  destruct Hload as (s & -> & _ & Hids & Hrec & Hinit & Hreg & Hdom & Hall). exists s.
  split_and!; [done|done|by exists s; split; [|apply rtc_refl]|done..|].
  intros record Hr. rewrite Forall_forall in Hall, Hrec. destruct (Hall record Hr) as (a & g & Hlive & Hg). destruct (Hrec record Hr) as [_ Hops].
  exists a, g. split_and!; [done..|]. intros o Ho. apply ResolveOperation_resolved; [by rewrite (rg_closed _ _ Hreg)|done|by rewrite Hg..].
Qed.

(** ** Witnesses *)

Definition capability_run (arguments : gmap string json) (s : RState World) (c : mappedCall) :
    RState World * result error (mappedCall * gmap string json) := (s, Ok (c, arguments)).
Definition entries_order {W} (s : RState W) : list (string * nat) := map_to_list (r_entries (g_reg s)).
Definition demo_broker := capabilityBackend capability_run entries_order.
Definition told_text : RState World * result error string :=
  get_tools_in_category (brokerBackend0 := demo_broker) demo_s1 (Some (JObj [("path", JStr "everything")])).

Definition told_string : string := match told_text.2 with Ok t => t | Err _ => "" end.


(** A file system with the one package of [echo_files], its descriptors paths
    below the root. *)
Definition echo_file (path : string) : bytes :=
  match List.find (λ f, String.eqb ("everything.echo/" +:+ f.1) path) echo_files with Some f => f.2 | None => [] end.
Definition below (d c : string) : string := if String.eqb d "" then c else d +:+ "/" +:+ c.
Definition echo_unix : UnixFiles := {|
  fd := string; filepath_Abs := Ok; EvalSymlinks := Ok; open_directory _ := Ok ""; Dup := Ok; ReadDir _ := Ok ["."; ".."; "everything.echo"];
  openat_directory d c := Ok (below d c); openat_file d c := Ok (below d c); fstat_regular f := Ok (true, zlen (echo_file f));
  fd_reader f := mkReader (echo_file f) None; fd_close _ := None;
|}.
#[local] Existing Instance package_decoder.
#[local] Existing Instance ascii_text.
#[local] Existing Instance ascii_text_laws.
#[local] Existing Instance ascii_tables.
#[local] Existing Instance ascii_lowercase.
#[local] Existing Instance markdown_mime.
#[local] Existing Instance echo_unix.

Definition demo_config : Config := mkConfig (mkProxy "" ":8080" "tappet" "1" MCPServerTypeSSE "" "/packages" None) ∅.
Definition unix_root : packageRoot := match openPackageRoot "/packages" with Ok root => root | Err _ => echo_root end.
Definition no_files (_ : string) : result error bytes * tree := (Err (Sentinel "no such file"), TDir []).

Lemma unix_root_ok : root_ok unix_root.
Proof.
  intros name directory Hd path f Hf. cbn in Hd. unfold OpenPackage in Hd. destruct (validatePackageComponent name); [|done]. injection Hd as <-.
  cbn in Hf. unfold OpenRegularFile in Hf. destruct (splitSafePath path) as [parts|]; [|done]. cbn [rbind wrapping Dup echo_unix] in Hf.
  destruct (open_directories _ _) as [d|]; [|done]. injection Hf as <-. apply zlen_nonneg.
Qed.

Lemma server_starts_witness :
  ∃ s, (loadServer map_to_list no_files demo_config).2 = Ok (LoadedCapabilities s) ∧ reg_reachable s ∧
    is_Some (r_entries (g_reg s) !! "everything.echo").
Proof.
  pose proof (server_starts map_to_list no_files demo_config unix_root ["everything.echo"]) as Hclaim.
  assert (match (LoadAll map_to_list "/packages" (Ok unix_root) (initial_world DefaultStoreLimits)).2 with Ok _ => True | Err _ => False end) as Hload
    by (vm_compute; exact I).
  specialize (Hclaim (λ m, Permutation_refl _) ltac:(discriminate) eq_refl unix_root_ok eq_refl eq_refl).
  change (px_CapabilityPath (cf_McpProxy demo_config)) with "/packages" in Hclaim.
  destruct (loadServer map_to_list no_files demo_config) as [providers r].
  destruct (LoadAll map_to_list "/packages" (Ok unix_root) (initial_world DefaultStoreLimits)).2 as [records|e]; [|destruct Hload].
  destruct Hclaim as (s & -> & _ & Hs & _ & Hdom & _). exists s. split; [reflexivity|]. split; [exact Hs|]. apply Hdom. by left.
Defined.
