(* ===== verification/Migration.v ===== *)
(** * From a hierarchy to a server

    Follows a tool of a hierarchy through the migration to packages: the
    candidate written for it by [structure_generator/capability_candidates.go],
    the YAML that [yaml.Marshal] makes of its structs, the directory that is
    published, the load of that directory by [internal/capability/loader.go]
    and the registry of the server that serves it. *)
From stdpp Require Import relations.
From Stdlib Require Import Ascii String.
From S2P Require Import Prelude GoStrings Limits Sha256 Regex Utf8 Text Json Snapshot SnapshotService Records Registry RegistrySteps Yaml Manifest Skill Loader LoaderSteps Candidates Publish Backend Server.
Local Open Scope string_scope.
Local Open Scope list_scope.
Local Open Scope Z_scope.

(** ** The YAML of a candidate *)

Section yaml.
(** yaml.v3's base64 of a string that is not valid UTF-8. *)
Context (encodeBase64 : string → string).

(** The nodes of [yaml.Marshal]'s output, as the structs' tags say: a string
    that is not UTF-8 is a binary scalar, [omitempty] leaves a field out. *)
Definition text_node (s : string) : Node :=
  if ValidString s then str_node s else mkNode ScalarNode "!!binary" (encodeBase64 s) "" [].
Definition candidateMetadata (d : Metadata) : list (string * Node) :=
  [("id", text_node (md_ID d)); ("name", text_node (md_Name d)); ("version", text_node (md_Version d));
   ("description", text_node (md_Description d))] ++
  match md_Tags d with [] => [] | tags => [("tags", seq_node (map text_node tags))] end.
Definition candidateOperation (o : Operation) : list (string * Node) :=
  [("id", text_node (op_ID o)); ("description", text_node (op_Description o)); ("provider", text_node (op_Provider o));
   ("target", text_node (op_Target o))].
Definition candidateProvider (p : ProviderBinding) : list (string * Node) :=
  [("id", text_node (pb_ID p)); ("type", text_node (pb_Type p)); ("serverRef", text_node (pb_ServerRef p))].
Definition candidateSpec (s : Spec) : list (string * Node) :=
  (if String.eqb (sp_Parent s) "" then [] else [("parent", text_node (sp_Parent s))]) ++
  [("operations", seq_node (map (λ o, map_node (candidateOperation o)) (sp_Operations s)));
   ("providers", seq_node (map (λ p, map_node (candidateProvider p)) (sp_Providers s)))].
Definition candidateManifest (m : Manifest) : Node := map_node
  [("apiVersion", text_node (mf_APIVersion m)); ("kind", text_node (mf_Kind m));
   ("metadata", map_node (candidateMetadata (mf_Metadata m))); ("spec", map_node (candidateSpec (mf_Spec m)))].

Section parse.
Context `{TextLaws} `{UnicodeTables} `{RuneLower}.

Lemma scalar_text s path x : scalarString (Some (text_node s)) path = Ok x → x = s.
Proof. unfold text_node. destruct (ValidString s); [|done]. by intros [= <-]. Qed.

Lemma required_text l name path s x : get name l = Some (text_node s) → requiredString (fields_of l) name path = Ok x → x = s.
Proof. intros Hg. unfold requiredString. rewrite (requiredField_get _ _ _ _ Hg). apply scalar_text. Qed.

Lemma required_id l name path s max x : get name l = Some (text_node s) → requiredNormalizedID (fields_of l) name path max = Ok x → x = NFC s.
Proof.
  intros Hg. unfold requiredNormalizedID. intros (y & Hy & Hx)%rbind_Ok. apply (required_text _ _ _ _ _ Hg) in Hy as ->. by inv_binds Hx; simplify_eq.
Qed.

Lemma metadata_parsed d d' : md_Tags d ≠ [] → parseMetadata (map_node (candidateMetadata d)) = Ok d' →
  md_ID d' = NFC (md_ID d) ∧ md_Name d' = NFC (md_Name d) ∧ md_Description d' = NFC (md_Description d).
Proof.
  intros Ht. unfold parseMetadata. cbv zeta. unfold candidateMetadata. destruct (md_Tags d) as [|t tags]; [done|].
  rewrite mapping_rendered by reflexivity. cbn [rbind].
  intros (id & Hi & H')%rbind_Ok. apply (required_text _ _ _ (md_ID d)) in Hi as ->; [|reflexivity]. revert H'.
  intros (name & Hn & H')%rbind_Ok. apply (required_text _ _ _ (md_Name d)) in Hn as ->; [|reflexivity]. revert H'.
  intros (version & Hv & H')%rbind_Ok. apply (required_text _ _ _ (md_Version d)) in Hv as ->; [|reflexivity]. revert H'.
  intros (description & Hd & H')%rbind_Ok. apply (required_text _ _ _ (md_Description d)) in Hd as ->; [|reflexivity].
  inv_binds H'. by simplify_eq.
Qed.

Lemma provider_parsed l p ps : get "providers" l = Some (seq_node [map_node (candidateProvider p)]) →
  parseProviders (fields_of l !! "providers") = Ok ps → ps = [mkProviderBinding (NFC (pb_ID p)) (pb_Type p) (NFC (pb_ServerRef p))].
Proof.
  intros Hg. unfold parseProviders. rewrite (sequence_get _ _ _ _ Hg). cbn [rbind rmap]. change (zlen [map_node (candidateProvider p)] >? MaxProviders) with false.
  cbn [guardE rfoldi]. unfold provider_step. cbn beta iota zeta. rewrite mapping_rendered by reflexivity. cbn [rbind]. intros H'. unfold rmap in H'.
  apply rbind_Ok in H' as ([ps' seen] & H' & [= <-]). apply rbind_Ok in H' as (x & H' & [= ->]). revert H'.
  intros (id & Hi & H')%rbind_Ok. apply (required_id _ _ _ (pb_ID p)) in Hi as ->; [|reflexivity]. revert H'.
  intros [_ (ty & Ht & H')%rbind_Ok]%guardE_Ok. apply (required_text _ _ _ (pb_Type p)) in Ht as ->; [|reflexivity]. revert H'.
  intros (? & _ & [_ (ref & Hr & H')%rbind_Ok]%guardE_Ok)%rbind_Ok. apply (required_text _ _ _ (pb_ServerRef p)) in Hr as ->; [|reflexivity].
  inv_binds H'. by simplify_eq.
Qed.

Lemma operation_parsed l o providers os : get "operations" l = Some (seq_node [map_node (candidateOperation o)]) →
  parseOperations (fields_of l !! "operations") providers = Ok os →
  os = [mkOperation (NFC (op_ID o)) (NFC (op_Description o)) (NFC (op_Provider o)) (NFC (op_Target o))].
Proof.
  intros Hg. unfold parseOperations. rewrite (sequence_get _ _ _ _ Hg). cbn [rbind rmap]. change (zlen [map_node (candidateOperation o)] >? MaxOperations) with false.
  cbn [guardE rfoldi]. unfold operation_step. cbn beta iota zeta. rewrite mapping_rendered by reflexivity. cbn [rbind]. intros H'. unfold rmap in H'.
  apply rbind_Ok in H' as ([os' seen] & H' & [= <-]). apply rbind_Ok in H' as (x & H' & [= ->]). revert H'.
  intros (id & Hi & H')%rbind_Ok. apply (required_id _ _ _ (op_ID o)) in Hi as ->; [|reflexivity]. revert H'.
  intros [_ (d & Hd & H')%rbind_Ok]%guardE_Ok. apply (required_text _ _ _ (op_Description o)) in Hd as ->; [|reflexivity]. revert H'.
  intros (? & _ & (p & Hp & H')%rbind_Ok)%rbind_Ok. apply (required_id _ _ _ (op_Provider o)) in Hp as ->; [|reflexivity]. revert H'.
  intros [_ (t & Ht & H')%rbind_Ok]%guardE_Ok. apply (required_text _ _ _ (op_Target o)) in Ht as ->; [|reflexivity].
  inv_binds H'. by simplify_eq.
Qed.

Lemma parent_parsed fs id parent x : get "parent" fs = (if String.eqb parent "" then None else Some (text_node parent)) →
  parse_parent (fields_of fs) id = Ok x → x = NFC parent.
Proof.
  intros Hg. unfold parse_parent, optionalString. rewrite fields_of_get, Hg. intros (p & Hp & H')%rbind_Ok.
  assert (p = parent) as ->.
  { destruct (String.eqb_spec parent "") as [->|]; [by injection Hp as <-|]. revert Hp. unfold text_node. destruct (ValidString parent); [by intros [= <-]|done]. }
  destruct (String.eqb (NFC parent) ""); [by injection H' as <-|]. inv_binds H'. by simplify_eq.
Qed.

(** What a manifest of one operation and one provider is read back as: every
    text in NFC. *)
Lemma spec_parsed parent o p id s : parseSpec (map_node (candidateSpec (mkSpec parent [] [o] [] [p]))) id = Ok s →
  s = mkSpec (NFC parent) [] [mkOperation (NFC (op_ID o)) (NFC (op_Description o)) (NFC (op_Provider o)) (NFC (op_Target o))] []
        [mkProviderBinding (NFC (pb_ID p)) (pb_Type p) (NFC (pb_ServerRef p))].
Proof.
  unfold parseSpec, candidateSpec. cbn [sp_Parent sp_Operations sp_Providers map].
  assert (∀ path : string, mapping (map_node ((if String.eqb parent "" then [] else [("parent", text_node parent)]) ++
    [("operations", seq_node [map_node (candidateOperation o)]); ("providers", seq_node [map_node (candidateProvider p)])])) path
    ["parent"; "skills"; "operations"; "context"; "providers"] =
    Ok (fields_of ((if String.eqb parent "" then [] else [("parent", text_node parent)]) ++
    [("operations", seq_node [map_node (candidateOperation o)]); ("providers", seq_node [map_node (candidateProvider p)])]))) as ->.
  { intros path. by destruct (String.eqb parent ""); rewrite mapping_rendered. }
  set (fs := _ ++ _). cbn [rbind]. intros (x & Hx & H')%rbind_Ok.
  apply (parent_parsed _ _ parent) in Hx as ->; [|unfold fs; by destruct (String.eqb parent "")].
  apply rbind_Ok in H' as (ps & Hps & H'). apply (provider_parsed _ p) in Hps as ->; [|unfold fs; by destruct (String.eqb parent "")].
  apply rbind_Ok in H' as (os & Hos & H'). apply (operation_parsed _ o) in Hos as ->; [|unfold fs; by destruct (String.eqb parent "")].
  rewrite !fields_of_get in H'. assert (get "skills" fs = None ∧ get "context" fs = None) as [E1 E2] by (unfold fs; by destruct (String.eqb parent "")).
  rewrite E1, E2 in H'. by injection H' as <-.
Qed.

(** What the package of a candidate is to be: its texts are normalised. *)
Definition candidate_target (c : candidateSource) : string := if String.eqb (ca_MapsTo (cs_tool c)) "" then cs_toolName c else ca_MapsTo (cs_tool c).
Record migrated_manifest (c : candidateSource) (m : Manifest) : Prop := {
  mm_id : md_ID (mf_Metadata m) = cs_capabilityID c;
  mm_spec : ∃ provider description, mf_Spec m = mkSpec (split_id (cs_capabilityID c)).1 []
    [mkOperation (split_id (cs_capabilityID c)).2 description provider (NFC (candidate_target c))] []
    [mkProviderBinding provider "mcp" (NFC (ca_Server (cs_tool c)))] }.

Lemma candidate_read c m m' : MatchString capabilityIDPattern (cs_capabilityID c) = true →
  candidate_manifest c = Ok m → manifest_of_root (candidateManifest m) = Ok m' → migrated_manifest c m'.
Proof.
  intros Hid%capabilityIDPattern_spec Hm Hp. unfold candidate_manifest in Hm. fold (candidate_target c) in Hm.
  pose proof (capability_id_ascii _ Hid) as Hascii. destruct (split_id_spec _ Hid) as (Hop & _ & Hparent).
  assert (ascii_string (split_id (cs_capabilityID c)).1) as Hpar.
  { destruct Hparent as [->|[_ Hp']]; [constructor|by apply capability_id_ascii]. }
  assert (NFC (normalizeCandidateIdentifier (ca_Server (cs_tool c))) = normalizeCandidateIdentifier (ca_Server (cs_tool c))) as Hprov.
  { apply NFC_ascii. destruct (normalized_local (ca_Server (cs_tool c))) as [->|]; [constructor|by apply local_id_ascii]. }
  apply NFC_ascii in Hascii, Hpar. apply local_id_ascii, NFC_ascii in Hop.
  destruct (split_id (cs_capabilityID c)) as [parent op] eqn:Esplit. cbn [fst snd] in Hpar, Hop. apply guardE_Ok in Hm as [_ Hm]. cbv zeta in Hm.
  set (target := candidate_target c) in *. set (provider := normalizeCandidateIdentifier _) in *.
  set (name := if String.eqb (TrimSpace (ca_Title _)) _ then _ else _) in Hm.
  set (description := if String.eqb (TrimSpace _) _ then _ else _) in Hm.
  injection Hm as <-. unfold manifest_of_root, candidateManifest in Hp. rewrite mapping_rendered in Hp by reflexivity. cbn [rbind] in Hp.
  erewrite requiredField_get in Hp by reflexivity. cbn [rbind] in Hp. apply rbind_Ok in Hp as (api & _ & [_ Hp]%guardE_Ok).
  erewrite requiredField_get in Hp by reflexivity. cbn [rbind] in Hp. apply rbind_Ok in Hp as (kind & _ & [_ Hp]%guardE_Ok).
  erewrite requiredField_get in Hp by reflexivity. cbn [rbind] in Hp. apply rbind_Ok in Hp as (d & Hd & Hp).
  erewrite requiredField_get in Hp by reflexivity. cbn [rbind] in Hp. apply rbind_Ok in Hp as (s & Hs & Hp).
  apply metadata_parsed in Hd as (Hd & _ & _); [|done]. apply spec_parsed in Hs as ->. inv_binds Hp. injection Hp as <-.
  cbn in Hd. split; cbn [mf_Metadata mf_Spec]; [by rewrite Hd|].
  exists provider, (NFC description). cbn [op_ID op_Description op_Provider op_Target pb_ID pb_Type pb_ServerRef]. rewrite Esplit. by rewrite Hpar, Hop, Hprov.
Qed.
End parse.
End yaml.

(** ** Loading a directory of manifests *)

(** What the operating system shows of a directory with these contents. *)
Definition directory_files (t : sourceTree) : UnixFiles := {|
  fd := sourceTree;
  filepath_Abs path := Ok path;
  EvalSymlinks path := Ok path;
  open_directory _ := Ok t;
  Dup d := Ok d;
  ReadDir d := match d with SDir entries => Ok entries.*1 | _ => Err (Sentinel "ENOTDIR") end;
  openat_directory d name :=
    match d with
    | SDir entries => match source_entry name entries with Some (SDir sub) => Ok (SDir sub) | _ => Err (Sentinel "ENOENT") end
    | _ => Err (Sentinel "ENOTDIR")
    end;
  openat_file d name :=
    match d with
    | SDir entries => match source_entry name entries with Some (SFile info data) => Ok (SFile info data) | _ => Err (Sentinel "ENOENT") end
    | _ => Err (Sentinel "ENOTDIR")
    end;
  fstat_regular f := match f with SFile info _ => let! info := info in Ok (fi_regular info, fi_size info) | _ => Ok (false, 0) end;
  fd_reader f := match f with SFile _ (Ok data) => mkReader data None | _ => mkReader [] (Some (Sentinel "EIO")) end;
  fd_close _ := None |}.

Definition package_tree (data : bytes) : sourceTree := SDir [(manifestFileName, SFile (Ok (mkInfo true (zlen data))) (Ok data))].
Definition package_entry (p : string * bytes) : string * sourceTree := (p.1, package_tree p.2).
Definition packages_bytes (packages : list (string * bytes)) : Z := foldr (λ p n, zlen p.2 + n) 0 packages.

(** A store between two loads, with room for [room] bytes. *)
Record idle (w : World) (room : Z) : Prop := {
  id_limits : ss_limits (w_store w) = DefaultStoreLimits;
  id_reserved : ss_stagingReserved (w_store w) = 0 ∧ ss_snapshotReserved (w_store w) = 0;
  id_used : 0 ≤ ss_snapshotUsed (w_store w) ∧ ss_snapshotUsed (w_store w) + room ≤ SnapshotBytes DefaultStoreLimits }.

(** Staging one file through the one transaction of a store. *)
Lemma reserve_first st n : ss_limits st = DefaultStoreLimits → ss_stagingReserved st = 0 → ss_snapshotReserved st = 0 →
  0 ≤ n ≤ ManifestMaxBytes → 0 ≤ ss_snapshotUsed st → ss_snapshotUsed st + n ≤ SnapshotBytes DefaultStoreLimits →
  reserve st begin n = Ok (mkStore DefaultStoreLimits n n (ss_snapshotUsed st) (ss_objects st), mkTx n ∅ false n).
Proof.
  intros Hl H1 H2 Hn H3 H4. unfold reserve. rewrite Hl, H1, H2. cbn [tx_packageSize tx_reserved tx_artifacts tx_closed begin]. rewrite !Z.add_0_l, !Z.add_0_r.
  change (SnapshotBytes DefaultStoreLimits) with 1073741824 in *. change (StagingBytes DefaultStoreLimits) with 268435456.
  change ManifestMaxBytes with 1048576 in Hn. change PackageArtifactMax with 67108864.
  rewrite !wrap64_id by (unfold int64_ok, MinInt64, MaxInt64; rewrite ?wrap64_id; unfold int64_ok, MinInt64, MaxInt64; lia).
  rewrite !Z.gtb_ltb, (proj2 (Z.ltb_ge n 0)), !(proj2 (Z.ltb_ge _ _)) by lia. done.
Qed.

Lemma reserve_nothing n used objects artifacts : 0 ≤ n ≤ ManifestMaxBytes → 0 ≤ used → used + n ≤ SnapshotBytes DefaultStoreLimits →
  let st := mkStore DefaultStoreLimits n n used objects in let t := mkTx n artifacts false n in reserve st t 0 = Ok (st, t).
Proof.
  intros Hn H3 H4 st t. unfold reserve, st, t. cbn [tx_packageSize tx_reserved tx_artifacts tx_closed ss_limits ss_stagingReserved ss_snapshotReserved ss_snapshotUsed ss_objects].
  change (SnapshotBytes DefaultStoreLimits) with 1073741824 in *. change (StagingBytes DefaultStoreLimits) with 268435456.
  change ManifestMaxBytes with 1048576 in Hn. change PackageArtifactMax with 67108864. rewrite !Z.add_0_r.
  rewrite !wrap64_id by (unfold int64_ok, MinInt64, MaxInt64; rewrite ?wrap64_id; unfold int64_ok, MinInt64, MaxInt64; lia).
  rewrite !Z.gtb_ltb, !(proj2 (Z.ltb_ge _ _)) by lia. done.
Qed.

Lemma stage_first name data : zlen data ≤ ManifestMaxBytes →
  stageReserved (mkTx (zlen data) ∅ false (zlen data)) name (mkReader data None) (zlen data) ManifestMaxBytes =
    Ok (mkTx (zlen data) {[name := mkStaged data (sha256 data)]} false (zlen data)).
Proof.
  intros Hn. pose proof (zlen_nonneg data). unfold stageReserved. cbn [tx_closed tx_artifacts tx_reserved tx_packageSize guardE].
  rewrite Z.gtb_ltb, !(proj2 (Z.ltb_ge _ _)) by lia. cbn [orb guardE]. rewrite lookup_empty, bool_decide_eq_false_2 by (by intros [? ?]). cbn [guardE].
  change ManifestMaxBytes with 1048576 in *. rewrite wrap64_id by (unfold int64_ok, MinInt64, MaxInt64; lia).
  unfold read_limited. cbn [rd_content rd_err]. rewrite !(proj2 (Z.leb_gt _ _)) by lia.
  rewrite !Z.gtb_ltb, !(proj2 (Z.ltb_ge _ _)), Z.eqb_refl by lia. done.
Qed.

Lemma commit_first name a st t : tx_closed t = false → 0 ≤ ss_snapshotUsed st → ss_snapshotUsed st + zlen (sa_data a) ≤ SnapshotBytes (ss_limits st) →
  ∃ used objects artifacts, commit [(name, a)] st t =
    (mkStore (ss_limits st) (ss_stagingReserved st - tx_reserved t) (ss_snapshotReserved st - tx_reserved t) used objects,
     mkTx (tx_reserved t) artifacts true (tx_packageSize t), Ok (mkSnapshot (sa_digest <$> tx_artifacts t) false)) ∧
    ss_snapshotUsed st ≤ used ≤ ss_snapshotUsed st + zlen (sa_data a).
Proof.
  intros Hc Hu Hn. pose proof (zlen_nonneg (sa_data a)). unfold commit. rewrite Hc. cbn [commit_newBytes foldl]. unfold commit_step, commit_one. cbn [fst snd].
  destruct (ss_objects st !! sa_digest a) as [o|]; rewrite Z.gtb_ltb, (proj2 (Z.ltb_ge _ _)) by lia; do 3 eexists; (split; [reflexivity|]); cbn; lia.
Qed.

(** One call on the open transaction [tid]. *)
Section steps.
Context (st : SnapshotStore) (tid : nat) (t : stagingTransaction) (txs : gmap nat stagingTransaction)
  (snaps : gmap nat Snapshot) (leases : gmap nat artifactLease).
Local Abbreviation world := (mkWorld st (<[tid := t]> txs) snaps leases).
Lemma tx_reserve_step n st' t' : reserve st t n = Ok (st', t') → tx_reserve tid n world = (mkWorld st' (<[tid := t']> txs) snaps leases, Ok tt).
Proof. intros E. unfold tx_reserve. cbn [w_txs w_store w_snaps w_leases]. by rewrite lookup_insert_eq, E, insert_insert_eq. Qed.
Lemma tx_stage_step name rd n max t' : stageReserved t name rd n max = Ok t' → tx_stage tid name rd n max world = (mkWorld st (<[tid := t']> txs) snaps leases, Ok tt).
Proof. intros E. unfold tx_stage. cbn [w_txs w_store w_snaps w_leases]. by rewrite lookup_insert_eq, E, insert_insert_eq. Qed.
Lemma tx_staged_step : tx_staged tid world = (world, Ok (tx_artifacts t)).
Proof. unfold tx_staged. cbn [w_txs]. by rewrite lookup_insert_eq. Qed.
End steps.

Section load.
Context `{TextLaws} `{UnicodeTables} `{LowerCase} `{YamlDecoder} `{MimeTable}.
Context (range : gmap string stagedArtifact → list (string * stagedArtifact)) (Hrange : ∀ m, range m ≡ₚ map_to_list m).

(** What a record has of a manifest without files. *)
Record plain_record (m : Manifest) (r : CapRecord) : Prop := {
  pr_metadata : rec_metadata r = mf_Metadata m;
  pr_parent : rec_parent r = sp_Parent (mf_Spec m);
  pr_operations : rec_operations r = sort_by op_ID (sp_Operations (mf_Spec m));
  pr_providers : rec_providers r = sort_by pb_ID (sp_Providers (mf_Spec m)) }.

(** A package that is only a manifest loads, if there is room for it. *)
Lemma load_small w name data m root directory room :
  idle w (zlen data + room) → 0 ≤ room → validatePackageComponent name = Ok tt → pr_OpenPackage root name = Ok directory →
  pd_OpenRegularFile directory manifestFileName = Ok (mkFile (mkReader data None) (zlen data) None) → zlen data ≤ ManifestMaxBytes →
  ParseManifest data = Ok m → md_ID (mf_Metadata m) = name → sp_Skills (mf_Spec m) = [] → sp_Context (mf_Spec m) = [] →
  ∃ w' r, loadFromRoot range root name w = (w', Ok r) ∧ idle w' room ∧ plain_record m r.
Proof.
  intros [Hlim [Hr1 Hr2] [Hu1 Hu2]] Hroom Hname Hopen Hfile Hsize Hparse Hid Hsk Hcx. pose proof (zlen_nonneg data) as Hpos.
  unfold loadFromRoot. rewrite Hname, Hopen. cbn [exec]. cbv zeta. set (tid := fresh (dom (w_txs w))).
  unfold load_package, stage_manifest. unfold bind, wrap, lift, ret. rewrite Hfile. cbn [fl_size fl_reader]. rewrite Z.gtb_ltb, (proj2 (Z.ltb_ge _ _)) by done. cbn [guardE].
  rewrite (tx_reserve_step _ _ _ _ _ _ _ _ _ (reserve_first _ (zlen data) Hlim Hr1 Hr2 ltac:(done) Hu1 ltac:(lia))).
  rewrite (tx_stage_step _ _ _ _ _ _ _ _ _ _ _ (stage_first manifestFileName data Hsize)). unfold close_file, ret. cbn [fl_close].
  rewrite tx_staged_step. cbn [tx_artifacts]. set (a := mkStaged data (sha256 data)).
  assert (staged_at {[manifestFileName := a]} manifestFileName = a) as Ha by (unfold staged_at; by rewrite lookup_singleton_eq).
  rewrite Ha. cbn [sa_data a]. rewrite Hparse, Hid, String.eqb_refl. cbn [negb guardE].
  unfold artifactSpecs. rewrite Hsk, Hcx. cbn [flat_map map app rfold rmap rbind fst snd].
  rewrite (tx_reserve_step _ _ _ _ _ _ _ _ _ (reserve_nothing (zlen data) _ _ _ ltac:(done) Hu1 ltac:(lia))). cbn [stage_sources]. unfold ret.
  rewrite tx_staged_step. cbn [tx_artifacts]. unfold normalizeStagedPackage. rewrite Hsk, Hcx. cbn [rfold rbind].
  unfold commit_record, bind, wrap, ret. rewrite tx_staged_step. cbn [tx_artifacts].
  assert (range {[manifestFileName := a]} = [(manifestFileName, a)]) as ->.
  { apply Permutation_singleton_r. rewrite Hrange, map_to_list_singleton. done. }
  unfold world_commit. cbn [w_txs w_store w_snaps w_leases]. rewrite lookup_insert_eq.
  destruct (commit_first manifestFileName a (mkStore DefaultStoreLimits (zlen data) (zlen data) (ss_snapshotUsed (w_store w)) (ss_objects (w_store w)))
    (mkTx (zlen data) {[manifestFileName := a]} false (zlen data))) as (used & objects & artifacts & -> & Hused); [done|done|cbn [ss_snapshotUsed ss_limits sa_data a]; lia|].
  cbn [ss_snapshotUsed sa_data a tx_reserved ss_stagingReserved ss_snapshotReserved ss_limits] in *. eexists _, _. split; [reflexivity|]. split.
  - split; cbn [w_store ss_limits ss_stagingReserved ss_snapshotReserved ss_snapshotUsed]; [done|split; lia|split; lia].
  - done.
Qed.

(** A package of a root that is only an accepted manifest, under its name. *)
Record small_package (root : packageRoot) (p : string * bytes) (m : Manifest) : Prop := {
  sp_name : validatePackageComponent p.1 = Ok tt;
  sp_file : ∃ directory, pr_OpenPackage root p.1 = Ok directory ∧
    pd_OpenRegularFile directory manifestFileName = Ok (mkFile (mkReader p.2 None) (zlen p.2) None);
  sp_size : zlen p.2 ≤ ManifestMaxBytes;
  sp_manifest : ParseManifest p.2 = Ok m ∧ md_ID (mf_Metadata m) = p.1;
  sp_plain : sp_Skills (mf_Spec m) = [] ∧ sp_Context (mf_Spec m) = [] }.
Definition small_record (p : string * bytes) (r : CapRecord) : Prop := ∃ m, ParseManifest p.2 = Ok m ∧ plain_record m r ∧ record_id r = p.1.

Lemma packages_bytes_nonneg packages : 0 ≤ packages_bytes packages.
Proof. induction packages as [|p l IH]; cbn; [done|]. pose proof (zlen_nonneg p.2). unfold packages_bytes in IH. lia. Qed.

Lemma packages_bytes_perm l l' : l ≡ₚ l' → packages_bytes l = packages_bytes l'.
Proof. induction 1; cbn in *; unfold packages_bytes in *; lia. Qed.

Lemma load_small_names root packages : Forall (λ p, ∃ m, small_package root p m) packages → NoDup packages.*1 →
  ∀ w records seen, idle w (packages_bytes packages) → (∀ name, name ∈ packages.*1 → name ∉ seen) →
  ∃ w' rs, load_names range root packages.*1 records seen w = (w', Ok (records ++ rs)) ∧ Forall2 small_record packages rs.
Proof.
  induction 1 as [|[name data] packages (m & [Hn (directory & Ho & Hf) Hs [Hp Hid] [Hsk Hcx]]) _ IH]; intros Hnd w records seen Hidle Hseen.
  { exists w, []. cbn. by rewrite app_nil_r. }
  cbn [fmap list_fmap fst snd] in *. apply NoDup_cons in Hnd as [Hnew Hnd].
  destruct (load_small w name data m root directory (packages_bytes packages)) as (w1 & r & Hl & Hidle1 & Hr); try done; [apply packages_bytes_nonneg|].
  cbn [load_names]. rewrite Hl, (pr_metadata _ _ Hr), Hid. cbv zeta. rewrite bool_decide_eq_false_2 by (apply Hseen; by left).
  destruct (IH Hnd w1 (records ++ [r]) ({[name]} ∪ seen)) as (w' & rs & -> & Hrs); [done|intros n Hin; specialize (Hseen n); set_solver|].
  exists w', (r :: rs). split; [by rewrite <- app_assoc|]. constructor; [|done]. exists m. split_and!; [done..|]. unfold record_id. by rewrite (pr_metadata _ _ Hr), Hid.
Qed.

(** Such a root loads whole when the store has room for it. *)
Lemma load_small_root path root packages names : Forall (λ p, ∃ m, small_package root p m) packages → NoDup packages.*1 →
  pr_PackageNames root = Ok names → names ≡ₚ packages.*1 → packages_bytes packages ≤ SnapshotBytes DefaultStoreLimits →
  ∃ w' rs, LoadAll range path (Ok root) (initial_world DefaultStoreLimits) = (w', Ok rs) ∧
    ∀ p, p ∈ packages → ∃ r, r ∈ rs ∧ small_record p r.
Proof.
  intros Hall Hnd Hnames (packages' & -> & Hperm)%Permutation_map_inv Hroom. pose proof (packages_bytes_perm _ _ Hperm) as Hb.
  destruct (load_small_names root packages') with (w := initial_world DefaultStoreLimits) (records := @nil CapRecord) (seen := (∅ : gset string)) as (w' & rs & Hl & Hrs).
  - by rewrite <- Hperm.
  - by rewrite <- Hperm.
  - split; cbn; [done..|]. rewrite <- Hb. by split.
  - intros name _. set_solver.
  - exists w', (sort_by (λ r, md_ID (rec_metadata r)) rs). split.
    + unfold LoadAll, bind, wrap, lift, ret. rewrite Hnames. cbn [app] in Hl. change (map fst packages') with packages'.*1. by rewrite Hl.
    + intros p Hp. rewrite Hperm in Hp. apply list_elem_of_lookup in Hp as [i Hi]. destruct (Forall2_lookup_l _ _ _ _ _ Hrs Hi) as (r & Hr & Hpr).
      exists r. split; [|done]. rewrite sort_by_perm. by eapply list_elem_of_lookup_2.
Qed.
End load.

(** ** The output directory as a root *)

Section output.
Context (packages : list (string * bytes)).
Definition output_tree : sourceTree := SDir (map package_entry packages).
#[local] Instance output_files : UnixFiles := directory_files output_tree.
Definition output_root : packageRoot := mkRoot (PackageNames output_tree) (OpenPackage output_tree).

Lemma output_opened path : openPackageRoot path = Ok output_root.
Proof. done. Qed.

Lemma source_entry_package name data : NoDup packages.*1 → (name, data) ∈ packages →
  source_entry name (map package_entry packages) = Some (package_tree data).
Proof.
  induction packages as [|[n d] l IH]; [by intros _ ?%elem_of_nil|]. cbn [fmap list_fmap fst map source_entry package_entry snd].
  intros [Hn Hnd]%NoDup_cons [[= <- <-]|Hin]%elem_of_cons; [by rewrite String.eqb_refl|].
  destruct (String.eqb_spec n name) as [->|]; [|by apply IH]. destruct Hn. by apply (list_elem_of_fmap_2 fst) in Hin.
Qed.

Lemma source_entry_any name t : source_entry name (map package_entry packages) = Some t → ∃ data, t = package_tree data.
Proof.
  induction packages as [|[n d] l IH]; [done|]. cbn [map source_entry package_entry fst snd]. destruct (String.eqb n name); [intros [= <-]; by exists d|done].
Qed.

Lemma output_directory name data : NoDup packages.*1 → (name, data) ∈ packages → validatePackageComponent name = Ok tt →
  ∃ directory, pr_OpenPackage output_root name = Ok directory ∧
    pd_OpenRegularFile directory manifestFileName = Ok (mkFile (mkReader data None) (zlen data) None).
Proof.
  intros Hnd Hin Hname. cbn [output_root pr_OpenPackage]. unfold OpenPackage. rewrite Hname. cbn [rbind openat_directory output_files directory_files output_tree].
  rewrite (source_entry_package _ _ Hnd Hin). cbn [package_tree wrapping rbind]. eexists. split; reflexivity.
Qed.

Lemma output_names : Forall safe_component packages.*1 → pr_PackageNames output_root = Ok (merge_sort str_le packages.*1).
Proof.
  intros Hs. cbn [output_root pr_PackageNames]. unfold PackageNames. cbn [Dup ReadDir output_files directory_files output_tree wrapping rbind].
  assert ((map package_entry packages).*1 = packages.*1) as -> by (clear; induction packages as [|[n d] l IH]; [done|]; cbn; by f_equal).
  assert (List.filter (λ name, negb (String.eqb name "." || String.eqb name "..")) packages.*1 = packages.*1) as ->.
  { clear -Hs. induction Hs as [|n l [_ [Hd Hdd] _ _] _ IH]; [done|]. cbn [List.filter]. apply String.eqb_neq in Hd, Hdd. rewrite Hd, Hdd. cbn. by f_equal. }
  unfold sortedPackageNames. apply check_components in Hs. by rewrite Hs.
Qed.

Lemma package_file data path f : @OpenRegularFile output_files (package_tree data) path = Ok f → fl_size f = zlen data.
Proof.
  unfold OpenRegularFile. intros (parts & _ & H)%rbind_Ok. cbn [Dup output_files directory_files wrapping rbind] in H.
  apply rbind_Ok in H as (parent & Hp & H). assert (parent = package_tree data) as ->.
  { destruct (removelast parts) as [|c l]; [by injection Hp|]. cbn [open_directories openat_directory output_files directory_files package_tree source_entry] in Hp.
    by destruct (String.eqb manifestFileName c). }
  cbn [openat_file output_files directory_files package_tree source_entry] in H. destruct (String.eqb _ _); [|done]. cbn in H. by injection H as <-.
Qed.

Lemma output_root_ok : root_ok output_root.
Proof.
  intros name directory Hd path f Hf. cbn [output_root pr_OpenPackage] in Hd. unfold OpenPackage in Hd. apply rbind_Ok in Hd as (? & _ & Hd).
  cbn [openat_directory output_files directory_files output_tree] in Hd. destruct (source_entry name _) as [t|] eqn:Ht; [|done].
  apply source_entry_any in Ht as [data ->]. cbn in Hd. injection Hd as <-. cbn in Hf. apply package_file in Hf as ->. apply zlen_nonneg.
Qed.
End output.

(** ** Executing under a capability's identifier *)

Section execute.
Context {W : Type} `{SnapshotOps W}.
Implicit Types s : RState W.

(** A path at which the backend calls [target] of [server], whatever the call
    does, and returns what it returns. *)
Definition executes s (order : list (string * nat)) (path server target : string) : Prop :=
  ∃ logical l s1, ∀ R (run : RState W → mappedCall → RState W * result error R),
    capabilityBackend_Execute run order s path = let '(s2, r) := run s1 (mkCall logical server target) in (lease_Release s2 l, r).

Lemma resolved_executes s order path a g id o server : resolved s a g id o (ResolveToolPath order s path) →
  (∀ b, b ∈ rec_providers (gen_record g) → pb_Type b = "mcp" ∧ pb_ServerRef b = server) → executes s order path server (op_Target o).
Proof.
  intros (l & b & _ & Hb & _ & E) Hall. destruct (Hall b Hb) as [Ht <-]. eexists (id +:+ "/" +:+ op_ID o), l, _. intros R run.
  unfold capabilityBackend_Execute. rewrite E. cbn [g_leases mbind option_bind]. rewrite lookup_insert_eq.
  cbn [ls_target mbind option_bind it_binding it_operation it_capabilityID]. rewrite Ht. reflexivity.
Qed.

(** A capability whose only operation has the name of its last segment is
    executed under its identifier, unless that is the legacy path of another. *)
Lemma executes_at_id s order id a g o server : order ≡ₚ map_to_list (r_entries (g_reg s)) → r_closed (g_reg s) = false → id ≠ "" →
  live_entry s id = Some (a, g) → operations_ok (gen_record g) → rec_operations (gen_record g) = [o] → op_ID o = last_segment id →
  (∀ id' o', legacy_claims s id id' o' → id' = id) →
  (∀ b, b ∈ rec_providers (gen_record g) → pb_Type b = "mcp" ∧ pb_ServerRef b = server) → executes s order id server (op_Target o).
Proof.
  intros Hord Hc Hid Hl Hok Hops Hlast Hclaims Hprov. assert (o ∈ rec_operations (gen_record g)) as Ho by (rewrite Hops; by left).
  apply (resolved_executes s order id a g id o server); [|done].
  destruct (omap (legacyMatch s id) (map_to_list (r_entries (g_reg s)))) as [|[id' o'] ms] eqn:Hm.
  - apply (offered_operation_resolves order s id a g o); try done. intros i' o' Hx%legacy_matches_elem. rewrite Hm in Hx. by apply elem_of_nil in Hx.
  - assert (legacy_claims s id id' o') as Hclaim by (apply legacy_matches_elem; rewrite Hm; by left).
    pose proof (Hclaims _ _ Hclaim) as ->. rewrite (ResolveToolPath_plan _ _ _ _ _ (tool_plan_legacy order s id id o' Hord Hclaim Hclaims)).
    destruct Hclaim as (a' & Ha' & Hmatch). apply live_entry_Some in Hl as (Ha & Hg & Hret). rewrite Ha in Ha'. injection Ha' as <-.
    unfold legacyMatch in Hmatch. cbn [snd fst] in Hmatch. rewrite Hg, Hret, Hops in Hmatch. destruct (_ || _); [|done]. injection Hmatch as <-.
    apply ResolveOperation_resolved; [done| |done|done]. unfold live_entry. by rewrite Ha, Hg, Hret.
Qed.
End execute.

(** ** The whole migration *)

(** What yaml.v3 takes as the rest of a comment: printable, no line break. *)
Definition yaml_inline (r : Z) : bool :=
  ((32 <=? r) && (r <=? 126)) || ((160 <=? r) && (r <=? 55295) && negb (r =? 8232) && negb (r =? 8233)) ||
  ((57344 <=? r) && (r <=? 65533) && negb (r =? 65279)) || (65536 <=? r).
Definition yaml_comment (path : string) : bool := ValidString path && forallb (λ c, yaml_inline (ch_rune c)) (decode (to_bytes path)).

Section migration.
Context `{TextLaws} `{UnicodeTables} `{RuneLower} `{LowerCase} `{YamlDecoder} `{MimeTable}.
Context (encode : Manifest → result error bytes) (encodeBase64 : string → string).
(** yaml.v3: what it encodes decodes, below a comment, to the nodes of the
    structs it encoded. *)
Context (Hyaml : ∀ m path encoded, yaml_comment path = true → encode m = Ok encoded →
  decode_first (to_bytes (candidateHeader +:+ "# Source hierarchy node: " +:+ path +:+ String NL "") ++ encoded) =
    Ok (mkNode DocumentNode "" "" "" [candidateManifest encodeBase64 m])).
Context (range : gmap string stagedArtifact → list (string * stagedArtifact)) (Hrange : ∀ m, range m ≡ₚ map_to_list m).

Lemma candidate_package root c f : MatchString capabilityIDPattern (cs_capabilityID c) = true → yaml_comment (cs_sourcePath c) = true →
  candidate_file encode root c = Ok f →
  0 < zlen f.2 ≤ ManifestMaxBytes ∧ ∃ m, ParseManifest f.2 = Ok m ∧ migrated_manifest c m.
Proof.
  intros Hid Hpath. unfold candidate_file. intros (m & Hm & Hf)%rbind_Ok. destruct (encode m) as [encoded|] eqn:He; [|done].
  pose proof (Hyaml m _ _ Hpath He) as Hdecode. set (complete := to_bytes _ ++ encoded) in *.
  destruct (ParseManifest complete) as [m'|] eqn:Hp; [|done]. apply rbind_Ok in Hf as (? & _ & (? & _ & [= <-])%rbind_Ok). cbn [snd].
  pose proof Hp as Hp'. unfold ParseManifest in Hp'. destruct (parseBoundedYAML complete manifestLimits) as [root'|] eqn:Hb; [|done].
  unfold parseBoundedYAML in Hb. apply guardE_Ok in Hb as [Hsize Hb]. split.
  { rewrite Z.gtb_ltb, Z.ltb_ge in Hsize. split; [|done]. unfold complete. rewrite zlen_app, to_bytes_app, zlen_app.
    pose proof (zlen_nonneg encoded). pose proof (zlen_nonneg (to_bytes ("# Source hierarchy node: " +:+ cs_sourcePath c +:+ String NL ""))).
    assert (0 < zlen (to_bytes candidateHeader)) by (vm_compute; done). lia. }
  exists m'. split; [done|]. apply guardE_Ok in Hb as [_ [_ (? & _ & Hb)%rbind_Ok]%guardE_Ok]. rewrite Hdecode in Hb. apply guardE_Ok in Hb as [_ Hb].
  cbn [nd_Content] in Hb. apply rbind_Ok in Hb as (? & _ & [= <-]). by apply (candidate_read encodeBase64 c m).
Qed.

(** A package of the output, for its candidate. *)
Definition package_of (c : candidateSource) (p : string * bytes) : Prop :=
  p.1 = cs_capabilityID c ∧ 0 < zlen p.2 ≤ ManifestMaxBytes ∧ ∃ m, ParseManifest p.2 = Ok m ∧ migrated_manifest c m.

Lemma candidates_written env hierarchy outputDir p p' : pl_backup p = None →
  (∀ name t c, (name, t) ∈ hierarchy → found [] name t c → yaml_comment (cs_sourcePath c) = true) →
  GenerateCapabilityCandidates encode env (SDir hierarchy) outputDir p = (p', None) →
  ∃ candidates packages, readHierarchyCandidates (SDir hierarchy) = Ok candidates ∧
    p' = mkPlaces (Some (output_tree packages)) None None ∧ Forall2 package_of candidates packages.
Proof.
  intros Hb Hpaths. unfold GenerateCapabilityCandidates. destruct (let! _ := validateOutputLocation _ _ _ _ in _) as [candidates|] eqn:Hc; [|done].
  apply rbind_Ok in Hc as (? & _ & (? & _ & (candidates' & Hread & (? & _ & [= ->])%rbind_Ok)%rbind_Ok)%rbind_Ok).
  destruct (hierarchy_candidates hierarchy candidates Hread) as (Hfound & _ & _ & Hids).
  destruct (ev_staging env) as [stagingDir|]; [|done]. intros Hgen.
  destruct (let! _ := failed (ev_chmod env) _ in _) as [entries|] eqn:Hw; [|done].
  apply publish_published in Hgen as [-> _]; [|done]. apply rbind_Ok in Hw as (? & _ & (entries' & Hw & (? & _ & [= ->])%rbind_Ok)%rbind_Ok).
  apply (rfold_collect (λ c e, ∃ f, candidate_file encode stagingDir c = Ok f ∧ e = package_entry (cs_capabilityID c, f.2))) in Hw as (new & -> & Hnew).
  2:{ intros ys c r. unfold writeCapabilityCandidate. rewrite rbind_Ok. split.
      - intros (f & Hf & [= <-]). eexists. split; [reflexivity|]. by exists f.
      - intros (e & -> & f & Hf & ->). by exists f. }
  cbn [app]. assert (∃ packages, new = map package_entry packages ∧ Forall2 package_of candidates packages) as (packages & -> & Hall).
  { assert (Forall (λ c, yaml_comment (cs_sourcePath c) = true) candidates) as Hcomments.
    { apply Forall_forall. intros c (name & t & Hin & Hf)%Hfound. by apply (Hpaths name t). }
    clear - Hnew Hids Hcomments Hyaml H0. induction Hnew as [|c e l es (f & Hf & ->) _ IH]; [by exists []|].
    apply Forall_cons in Hids as [Hid Hids]. apply Forall_cons in Hcomments as [Hcom Hcomments]. destruct (IH Hids Hcomments) as (packages & -> & Hall).
    exists ((cs_capabilityID c, f.2) :: packages). split; [done|]. constructor; [|done]. split; [done|]. by apply (candidate_package stagingDir c f). }
  by exists candidates, packages.
Qed.

Lemma ContainsByte_joined l a : ContainsByte "." a = false → Forall (λ x, ContainsByte x a = false) l → ContainsByte (Join l ".") a = false.
Proof.
  intros Ha. induction 1 as [|x l Hx _ IH]; [done|]. destruct l as [|y l]; [done|]. rewrite Join_cons by done. by rewrite !ContainsByte_app, Hx, Ha, IH.
Qed.

Lemma capability_safe id : MatchString capabilityIDPattern id = true → safe_component id.
Proof.
  intros Hs%capabilityIDPattern_spec. assert (id ≠ "") as Hne by (intros ->; by apply Forall_cons in Hs as [(_ & (? & [=] & _) & _) _]).
  assert (∀ a, ContainsByte "." a = false → (∀ b, id_char b = true → b ≠ a) → ContainsByte id a = false) as Hno.
  { intros a Ha Hb. rewrite <- (Join_Split id "."). apply ContainsByte_joined; [done|].
    eapply Forall_impl; [exact Hs|]. intros p (Hp & _). cbn beta in Hp. apply not_true_iff_false. intros Hin%ContainsByte_elem.
    rewrite Forall_forall in Hp. exact (Hb a (Hp a Hin) eq_refl). }
  split; [done| |by apply Hno; [|intros b Hb ->]..]. split; intros ->; by apply Forall_cons in Hs as [(_ & (? & [=] & _) & _) _].
Qed.

Lemma packages_count packages : Forall (λ p : string * bytes, 0 < zlen p.2) packages → Z.of_nat (length packages) ≤ packages_bytes packages.
Proof. induction 1 as [|p l Hp _ IH]; cbn; [done|]. unfold packages_bytes in IH. lia. Qed.

Lemma packages_named candidates packages : Forall2 package_of candidates packages → packages.*1 = map cs_capabilityID candidates.
Proof. induction 1 as [|c p ? ? [Hp _] _ IH]; [done|]. cbn. by rewrite Hp, IH. Qed.

Lemma packages_small candidates packages : Forall2 package_of candidates packages → NoDup packages.*1 →
  Forall (λ c, MatchString capabilityIDPattern (cs_capabilityID c) = true) candidates →
  Forall (λ p, ∃ m, small_package (output_root packages) p m) packages.
Proof.
  intros Hall Hnd Hids. apply Forall_forall. intros [name data] Hin. apply list_elem_of_lookup in Hin as [i Hi].
  destruct (Forall2_lookup_r _ _ _ _ _ Hall Hi) as (c & Hc & Hname & Hsize & m & Hm & [Hid (provider & description & Hspec)]). cbn [fst snd] in *. subst name.
  exists m. rewrite Forall_lookup in Hids. pose proof (capability_safe _ (Hids _ _ Hc)) as Hsafe. apply validatePackageComponent_spec in Hsafe.
  split; cbn [fst snd]; [done| |lia|by split|by rewrite Hspec].
  apply output_directory; [done|by eapply list_elem_of_lookup_2|done].
Qed.

(** The record that is made of a candidate. *)
Lemma candidate_record c p r : package_of c p → small_record p r → record_id r = cs_capabilityID c ∧
  ∃ o, rec_operations r = [o] ∧ op_ID o = last_segment (cs_capabilityID c) ∧ op_Target o = NFC (candidate_target c) ∧
    ∀ b, b ∈ rec_providers r → pb_Type b = "mcp" ∧ pb_ServerRef b = NFC (ca_Server (cs_tool c)).
Proof.
  intros (Hp & _ & m & Hm & [_ (provider & description & Hspec)]) (m' & Hm' & [_ _ Ho Hb] & Hid). rewrite Hm in Hm'. injection Hm' as <-.
  split; [by rewrite Hid|]. rewrite Hspec in Ho, Hb. eexists. split; [exact Ho|]. cbn [op_ID op_Target]. split; [|split; [done|]].
  - unfold split_id, last_segment. by destruct (0 <=? _).
  - intros b. rewrite Hb. by intros ->%list_elem_of_singleton.
Qed.

(** What a server makes of a migrated hierarchy: its capabilities are those of
    the tools, and each is executed under its identifier, on its server and
    under the name it maps to, both in NFC. *)
Definition serves_migrated (hierarchy : list (string * sourceTree)) (s : RState World) : Prop :=
  let tool c := ∃ name t, (name, t) ∈ hierarchy ∧ found [] name t c in
  (∀ id, is_Some (r_entries (g_reg s) !! id) ↔ ∃ c, tool c ∧ cs_capabilityID c = id) ∧
  ∀ c order, tool c → order ≡ₚ map_to_list (r_entries (g_reg s)) →
    (∀ id o, legacy_claims s (cs_capabilityID c) id o → id = cs_capabilityID c) →
    executes s order (cs_capabilityID c) (NFC (ca_Server (cs_tool c))) (NFC (candidate_target c)).

Lemma candidates_loaded hierarchy candidates packages path : readHierarchyCandidates (SDir hierarchy) = Ok candidates →
  Forall2 package_of candidates packages → packages_bytes packages ≤ SnapshotBytes DefaultStoreLimits → path ≠ "" →
  ∃ s, @load_capabilities _ _ _ _ _ (output_files packages) range path = Ok s ∧ reg_reachable s ∧ serves_migrated hierarchy s.
Proof.
  intros Hread Hall Hroom Hpath. destruct (hierarchy_candidates hierarchy candidates Hread) as (Hfound & Hnd & _ & Hids).
  pose proof (packages_named _ _ Hall) as Hnames. rewrite <- Hnames in Hnd. pose proof (packages_small _ _ Hall Hnd Hids) as Hsmall.
  assert (Forall safe_component packages.*1) as Hsafe.
  { rewrite Hnames. apply Forall_map. eapply Forall_impl; [exact Hids|]. intros c. apply capability_safe. }
  pose proof (output_names packages Hsafe) as Hroot.
  destruct (load_small_root range Hrange path _ packages _ Hsmall Hnd Hroot (merge_sort_Permutation _ _) Hroom) as (w & rs & Hl & Hrs).
  assert (Z.of_nat (length (merge_sort str_le packages.*1)) < 2 ^ 64) as Hlen.
  { rewrite (Permutation_length (merge_sort_Permutation _ _)), length_fmap.
    eapply Z.le_lt_trans; [apply packages_count|eapply Z.le_lt_trans; [exact Hroom|done]].
    apply Forall_forall. intros p [i Hi]%list_elem_of_lookup. by destruct (Forall2_lookup_r _ _ _ _ _ Hall Hi) as (c & _ & _ & [? _] & _). }
  pose proof (@capabilities_loaded _ _ _ _ _ _ (output_files packages) range path (output_root packages) _ Hrange Hpath (output_opened packages path)
    (output_root_ok packages) Hroot Hlen) as Hload. rewrite Hl in Hload.
  destruct Hload as (s & Hs & _ & _ & Hrec & Hinit & Hreg & Hdom & Hlive). exists s. split; [exact Hs|]. split; [by exists s; split; [|apply rtc_refl]|].
  assert (∀ c, (∃ name t, (name, t) ∈ hierarchy ∧ found [] name t c) ↔ c ∈ candidates) as Htool by (intros c; by rewrite Hfound).
  split.
  - intros id. rewrite Hdom, merge_sort_Permutation, Hnames. rewrite list_elem_of_fmap. setoid_rewrite Htool. naive_solver.
  - intros c order Hc Hord Hclaims. apply Htool in Hc. apply list_elem_of_lookup in Hc as [i Hi].
    destruct (Forall2_lookup_l _ _ _ _ _ Hall Hi) as (p & Hp & Hpc). destruct (Hrs p (list_elem_of_lookup_2 _ _ _ Hp)) as (r & Hr & Hpr).
    destruct (candidate_record c p r Hpc Hpr) as (Hid & o & Hops & Hlast & <- & Hprov).
    rewrite Forall_forall in Hrec, Hlive. destruct (Hrec r Hr) as [_ Hok]. destruct (Hlive r Hr) as (a & g & Hg & <-). rewrite Hid in Hg.
    eapply (executes_at_id s order _ a g); try done; [by rewrite (rg_closed _ _ Hreg)|].
    rewrite Forall_lookup in Hids. by destruct (capability_safe _ (Hids _ _ Hi)).
Qed.

(** C40. A hierarchy that is migrated can be served. When the generation of
    candidates succeeds, nothing but the output is left; and if the packages
    fit in a snapshot store, a server that is given the output directory
    starts: its capabilities are exactly the tools of the hierarchy, under the
    identifiers their paths normalise to, and a tool path that is such an
    identifier executes the tool on its server under the name it maps to,
    both normalised to NFC, unless it is the legacy path of another tool.
    Assumed are that no file of the hierarchy has a name that cannot be
    in a YAML comment, and that yaml.v3 decodes what it has encoded. *)
Theorem migration_served env hierarchy outputDir p p' : pl_backup p = None →
  (∀ name t c, (name, t) ∈ hierarchy → found [] name t c → yaml_comment (cs_sourcePath c) = true) →
  GenerateCapabilityCandidates encode env (SDir hierarchy) outputDir p = (p', None) →
  ∃ packages, p' = mkPlaces (Some (output_tree packages)) None None ∧
    ∀ path, path ≠ "" → packages_bytes packages ≤ SnapshotBytes DefaultStoreLimits →
    ∃ s, @load_capabilities _ _ _ _ _ (directory_files (output_tree packages)) range path = Ok s ∧ reg_reachable s ∧ serves_migrated hierarchy s.
Proof.
  intros Hb Hpaths Hgen. destruct (candidates_written env hierarchy outputDir p p' Hb Hpaths Hgen) as (candidates & packages & Hread & -> & Hall).
  exists packages. split; [done|]. intros path Hpath Hroom. by apply (candidates_loaded hierarchy candidates).
Qed.
End migration.

(** ** Witness *)

#[local] Existing Instance ascii_text.
#[local] Existing Instance ascii_text_laws.
#[local] Existing Instance ascii_tables.
#[local] Existing Instance ascii_rune_lower.
#[local] Existing Instance ascii_lowercase.
#[local] Instance plain_mime : MimeTable := λ _, "text/plain".

#[local] Instance manifest_eq_dec : EqDecision Manifest.
Proof.
  assert (EqDecision SkillDeclaration) by (assert (EqDecision SkillResource) by solve_decision; solve_decision).
  assert (EqDecision ContextReference) by solve_decision.
  assert (EqDecision ProviderBinding) by solve_decision. assert (EqDecision Spec) by solve_decision. solve_decision.
Defined.

(** An encoder of one manifest, and a decoder that knows its text wherever it
    ends a document. *)
Definition echo_text : bytes := yaml_lines
  ["apiVersion: tappet.gearboxlogic.dev/v1alpha1"; "kind: Capability"; "metadata:"; "    id: every-thing.echo"; "    name: Echo";
   "    version: 0.1.0"; "    description: Echoes a message"; "    tags:"; "        - mcp"; "        - every"; "spec:"; "    parent: every-thing";
   "    operations:"; "        - id: echo"; "          description: Echoes a message"; "          provider: every"; "          target: echo";
   "    providers:"; "        - id: every"; "          type: mcp"; "          serverRef: Every"; ""].
Definition echo_encode (m : Manifest) : result error bytes :=
  if bool_decide (m = echo_package) then Ok echo_text else Err (ErrorNew "unknown manifest").
Definition no_base64 (s : string) : string := s.
#[local] Instance ending_decoder : YamlDecoder := {|
  decode_first data :=
    if bool_decide (drop (length data - length echo_text) data = echo_text) then Ok (mkNode DocumentNode "" "" "" [candidateManifest no_base64 echo_package])
    else Err (ErrorNew "yaml: unknown document");
  decode_second _ := Err (Sentinel "EOF");
|}.

Lemma ending_decodes m path encoded : yaml_comment path = true → echo_encode m = Ok encoded →
  decode_first (to_bytes (candidateHeader +:+ "# Source hierarchy node: " +:+ path +:+ String NL "") ++ encoded) =
    Ok (mkNode DocumentNode "" "" "" [candidateManifest no_base64 m]).
Proof.
  intros _. unfold echo_encode. case_bool_decide as Hm; [|done]. subst m. intros [= <-]. cbn [decode_first ending_decoder].
  rewrite length_app, Nat.add_sub, drop_app_length. by rewrite bool_decide_eq_true_2.
Qed.

Definition demo_migration : places * option error :=
  GenerateCapabilityCandidates echo_encode (demo_environment all_well) (SDir demo_entries) "/work/out" nowhere.

(** A directory of one small package. *)
Definition small_output (t : option sourceTree) : bool :=
  match t with Some (SDir [(_, SDir [(_, SFile _ (Ok data))])]) => zlen data <=? 1000000 | _ => false end.
Lemma small_output_fits packages : small_output (Some (output_tree packages)) = true → packages_bytes packages ≤ SnapshotBytes DefaultStoreLimits.
Proof.
  destruct packages as [|[n data] [|]]; [done| |done]. unfold small_output, packages_bytes. cbn [output_tree map package_entry package_tree fst snd foldr].
  change (SnapshotBytes DefaultStoreLimits) with 1073741824. intros H%Z.leb_le. lia.
Qed.

Lemma migration_served_witness : ∃ packages s, demo_migration.1 = mkPlaces (Some (output_tree packages)) None None ∧
  @load_capabilities _ _ _ _ _ (directory_files (output_tree packages)) map_to_list "/work/out" = Ok s ∧
  executes s (map_to_list (r_entries (g_reg s))) "every-thing.echo" "Every" "echo".
Proof.
  assert (readHierarchyCandidates (SDir demo_entries) = Ok [echo_candidate]) as Hread by (vm_compute; reflexivity).
  destruct (hierarchy_candidates demo_entries [echo_candidate] Hread) as (Hfound & _).
  assert (∀ name t c, (name, t) ∈ demo_entries → found [] name t c → c = echo_candidate) as Honly.
  { intros name t c Hin Hf. apply list_elem_of_singleton, Hfound. exists name, t. split; assumption. }
  destruct (migration_served echo_encode no_base64 ending_decodes map_to_list (λ m, Permutation_refl _) (demo_environment all_well) demo_entries "/work/out" nowhere demo_migration.1)
    as (packages & Hp & Hserved).
  - reflexivity.
  - intros name t c Hin Hf. rewrite (Honly _ _ _ Hin Hf). vm_compute. reflexivity.
  - change (demo_migration = (demo_migration.1, None)). assert (demo_migration.2 = None) as Herr by (vm_compute; reflexivity).
    revert Herr. generalize demo_migration. by intros [? ?] [= ->].
  - assert (small_output (pl_output demo_migration.1) = true) as Hroom by (vm_compute; reflexivity). rewrite Hp in Hroom. apply small_output_fits in Hroom.
    destruct (Hserved "/work/out" ltac:(discriminate) Hroom) as (s & Hs & _ & Hids & Hexec). exists packages, s. split; [exact Hp|]. split; [exact Hs|].
    apply (Hexec echo_candidate); [apply Hfound; left|reflexivity|]. intros id o (a & Ha & _).
    destruct (proj1 (Hids id)) as (c & (name & t & Hin & Hf) & <-); [exists a; exact Ha|]. rewrite (Honly _ _ _ Hin Hf). reflexivity.
Defined.

(** ** Swapped tools *)

(** A node whose tools are named after each other's targets is migrated to two
    capabilities whose legacy paths are each other's identifiers: the path that
    executed [b] in the hierarchy executes [a] once it is migrated. *)
Definition swapped_entries : list (string * sourceTree) :=
  [("n.json", node_file "{'tools':{'a':{'description':'A','maps_to':'b','server':'srv'},'b':{'description':'B','maps_to':'a','server':'srv'}}}")].
#[local] Existing Instance Registry.no_store_ops.
Definition swapped_state : RState no_store :=
  (NewRegistry mkNoStore [Some (ex_record "n.a" "n" [ex_operation "a" "b"]); Some (ex_record "n.b" "n" [ex_operation "b" "a"])]).1.

Example swapped_tools :
  rmap (map (λ c, (cs_capabilityID c, candidate_target c))) (readHierarchyCandidates (SDir swapped_entries)) = Ok [("n.a", "b"); ("n.b", "a")] ∧
  ResolveToolPath (map_to_list (r_entries (g_reg swapped_state))) swapped_state "n.a" = ResolveOperation swapped_state "n.b" "b".
Proof. split; vm_compute; reflexivity. Qed.
