(* ===== verification/Serving.v ===== *)
(** * Starting and stopping the broker

    Models the rest of [internal/server/server.go]: what [NewTappetServer]
    registers, and [StartStdioServer] and [StartHTTPServer] from loading to the
    deferred close of the runtime. mcp-go's server and transports, the
    listeners and the signals are arguments: what they do to the registry is
    what the handlers of the meta-tools do, any number of times. *)
From stdpp Require Import relations.
From Stdlib Require Import Ascii String.
From S2P Require Import Prelude GoStrings Limits Sha256 Regex Utf8 Text Json JsonScan JsonStruct JsonRound Snapshot SnapshotService Records Registry RegistrySteps Yaml Manifest Skill Loader LoaderSteps ResponseLimit ProviderRegistry Hierarchy Generator Generated Config Protocol Backend ProviderCall Server.
Local Open Scope string_scope.
Local Open Scope list_scope.
Local Open Scope Z_scope.

(** ** [NewTappetServer] *)

(** A tool with the fields of its schema that are set. *)
Record registeredTool := mkRegistered {
  rt_Name : string; rt_Description : string; rt_Type : string; rt_Properties : gmap string json; rt_Required : list string }.
(** What [server.NewMCPServer] is given, and the tools added to it. *)
Record tappetServer := mkTappetServer { ts_Name : string; ts_Version : string; ts_Logging : bool; ts_Tools : list registeredTool }.

Record ServerDependencies := mkDependencies {
  sd_Hierarchy : option Hierarchy; sd_Capabilities : option (RState World); sd_Registry : option ServerRegistry;
  sd_Name : string; sd_Version : string; sd_LogEnabled : bool }.

Definition getToolsInCategoryTool (description : string) : registeredTool :=
  mkRegistered "get_tools_in_category" description "object"
    {["path" := JStrs [("type", "string");
       ("description", "Category path using dot notation (e.g., 'coding_tools' or 'coding_tools.serena.search'). Use empty string or '/' for root.")]]}
    ["path"].
Definition executeToolTool : registeredTool :=
  mkRegistered "execute_tool" "Execute a tool by its full path. Automatically proxies the request to the appropriate MCP server." "object"
    (<["tool_path" := JStrs [("type", "string");
       ("description", "Full tool path using dot notation (e.g., 'coding_tools.serena.search.search_symbol') or just tool name if unique")]]>
     {["arguments" := JObj [("type", JStr "object"); ("description", JStr "Arguments to pass to the tool"); ("additionalProperties", JBool true)]]})
    ["tool_path"; "arguments"].

Section broker.
Context {R : Type}.
(** The calls of providers and the orders of maps, as in [Server.v]. *)
Context (runCapability : gmap string json → RState World → mappedCall → RState World * result error R) (order : RState World → list (string * nat)).
Context (runHierarchy : string → string → option (gmap string json) → gmap string json → result error R) (nodes : Hierarchy → list (string * HierarchyNode)).

(** The interface of whichever backend was loaded. *)
#[export] Instance loaded_broker : brokerBackend loadedBackend R := {|
  RootOverview b :=
    match b with
    | LoadedCapabilities s => RootOverview (brokerBackend := capabilityBackend runCapability order) s
    | LoadedHierarchy h => RootOverview (brokerBackend := hierarchyBackend (nodes h) runHierarchy) h
    end;
  backend_Browse b path :=
    match b with
    | LoadedCapabilities s => let '(s, r) := backend_Browse (brokerBackend := capabilityBackend runCapability order) s path in (LoadedCapabilities s, r)
    | LoadedHierarchy h => let '(h, r) := backend_Browse (brokerBackend := hierarchyBackend (nodes h) runHierarchy) h path in (LoadedHierarchy h, r)
    end;
  backend_Execute b path arguments :=
    match b with
    | LoadedCapabilities s =>
        let '(s, r) := backend_Execute (brokerBackend := capabilityBackend runCapability order) s path arguments in (LoadedCapabilities s, r)
    | LoadedHierarchy h =>
        let '(h, r) := backend_Execute (brokerBackend := hierarchyBackend (nodes h) runHierarchy) h path arguments in (LoadedHierarchy h, r)
    end;
|}.

Definition NewTappetServer (deps : ServerDependencies) : result error (tappetServer * loadedBackend) :=
  match sd_Registry deps with
  | None => Err (ErrorNew "server registry is required")
  | Some _ =>
      let! backend := match sd_Capabilities deps, sd_Hierarchy deps with
                      | Some s, _ => Ok (LoadedCapabilities s)
                      | None, Some h => Ok (LoadedHierarchy h)
                      | None, None => Err (ErrorNew "capability registry or hierarchy is required")
                      end in
      Ok (mkTappetServer (sd_Name deps) (sd_Version deps) (sd_LogEnabled deps) [getToolsInCategoryTool (described backend); executeToolTool], backend)
  end.

(** ** Starting *)

Context `{TextOps} `{UnicodeTables} `{LowerCase} `{YamlDecoder} `{MimeTable} `{UnixFiles}.
Context (range : gmap string stagedArtifact → list (string * stagedArtifact)) (hierarchyFiles : string → result error bytes * tree).

Definition dependencies (proxy : MCPProxyConfigV2) (providers : ServerRegistry) (b : loadedBackend) : ServerDependencies :=
  mkDependencies (match b with LoadedHierarchy h => Some h | _ => None end) (match b with LoadedCapabilities s => Some s | _ => None end)
    (Some providers) (px_Name proxy) (px_Version proxy) (log_enabled (px_Options proxy)).
Definition load_server (cfg : Config) : ServerRegistry * result error (tappetServer * loadedBackend) :=
  let '(providers, b) := loadServer range hierarchyFiles cfg in
  match let! b := b in NewTappetServer (dependencies (cf_McpProxy cfg) providers b) with
  | Err e => (registry_Close providers, Err e)
  | Ok server => (providers, Ok server)
  end.

(** What a server runs with, and how its run ends: with an error before it
    serves, returning once its runtime is closed, or with the process. *)
Definition runtime : Type := ServerRegistry * loadedBackend.
Inductive started :=
| NotStarted (providers : ServerRegistry) (err : error)
| Stopped (providers : ServerRegistry) (backend : loadedBackend) (err : option error)
| Exited (message : error).

Definition backend_order (b : loadedBackend) : list (string * nat) := match b with LoadedCapabilities s => order s | _ => [] end.
Definition stop_runtime (r : runtime) (err : option error) : started :=
  let '(providers, b) := runtime_Close (backend_order r.2) r.1 r.2 in Stopped providers b err.

(** [Listen] on standard input and output, until it returns. *)
Definition StartStdioServer (listen : tappetServer → runtime → runtime * option error) (cfg : Config) : started :=
  match load_server cfg with
  | (providers, Err e) => NotStarted providers e
  | (providers, Ok (server, b)) => let '(r, err) := listen server (providers, b) in stop_runtime r err
  end.

Inductive httpTransport := SSEServer (staticBasePath baseURL : string) | StreamableHTTPServer (stateLess : bool).
Definition http_transport (proxy : MCPProxyConfigV2) : option httpTransport :=
  if String.eqb (px_Type proxy) MCPServerTypeSSE then Some (SSEServer "" (px_BaseURL proxy))
  else if String.eqb (px_Type proxy) MCPServerTypeStreamable then Some (StreamableHTTPServer true)
  else None.

Definition ErrServerClosed : string := "http: Server closed".
Definition unclosed (err : option error) : option error :=
  match err with Some e => if errors_Is e ErrServerClosed then None else Some e | None => None end.

(** What has become of the runtime when a signal has come and [Shutdown] has
    returned, its error, and that of [ListenAndServe] if it did not wait for a
    signal. The handler is the modelled chain around mcp-go's, for each path. *)
Record httpEnd := mkHTTPEnd { sh_runtime : runtime; sh_listen : option error; sh_shutdown : option error }.
Definition StartHTTPServer `{Mcp} (mount : httpTransport → tappetServer → handler) (serve : string → (string → handler) → tappetServer → runtime → httpEnd)
    (cfg : Config) : started :=
  match load_server cfg with
  | (providers, Err e) => NotStarted providers e
  | (providers, Ok (server, b)) =>
      let proxy := cf_McpProxy cfg in
      match http_transport proxy with
      | None => stop_runtime (providers, b) (Some (Errorf "unknown server type: %s" [FStr (px_Type proxy)]))
      | Some transport =>
          let e := serve (px_Addr proxy) (λ path, http_handler (px_Options proxy) path (mount transport server)) server (providers, b) in
          match unclosed (sh_listen e) with
          | Some err => Exited (Wrapf "Failed to start server: %v" [] err)
          | None => stop_runtime (sh_runtime e) (unclosed (sh_shutdown e))
          end
      end
  end.
End broker.

(** ** What the handlers do to the registry *)

Section steps.
Context {W : Type} `{SnapshotOps W} `{!SnapshotLaws W}.
Implicit Types s : RState W.

(** The calls of a registry that browsing and executing are made of. *)
Inductive broker_step s : RState W → Prop :=
| broker_lookup id : broker_step s (Lookup s id).1
| broker_resolve order path : broker_step s (Registry.ResolveToolPath order s path).1
| broker_release l : broker_step s (lease_Release s l).

Lemma broker_reg_step s s' : broker_step s s' → reg_step s s'.
Proof. intros []; [by exists (RLookup id)|by exists (RResolveToolPath order path)|by exists (RRelease l)]. Qed.
Lemma broker_reg_steps s s' : rtc broker_step s s' → rtc reg_step s s'.
Proof. induction 1; [done|]. eapply rtc_l; [by apply broker_reg_step|done]. Qed.

(** Browsing is such calls, and executing is where the provider's call is. *)
Lemma with_record_steps {A} s id (use : CapRecord → result error A) : rtc broker_step s (with_record s id use).1.
Proof.
  unfold with_record. pose proof (broker_lookup s id) as Hl. destruct (Lookup s id) as [s1 [l|e]]; cbn [fst] in *; [|by apply rtc_once].
  destruct (lease_record s1 l); cbn [fst]; [|by apply rtc_once]. eapply rtc_l; [exact Hl|]. apply rtc_once. constructor.
Qed.
Lemma browse_children_steps path children : ∀ s b, rtc broker_step s (browse_children path children s b).1.
Proof.
  induction children as [|child children IH]; intros s b; cbn [browse_children]; [done|]. destruct (String.eqb _ _); [apply IH|].
  pose proof (with_record_steps s (he_CapabilityID child) (λ record, add_capability path child record b)) as Hw.
  destruct (with_record _ _ _) as [s1 [b1|e]]; cbn [fst] in *; [|done]. etrans; [exact Hw|apply IH].
Qed.
Lemma browse_steps s path : rtc broker_step s (capabilityBackend_Browse s path).1.
Proof.
  unfold capabilityBackend_Browse. destruct (Browse s path) as [view|]; [|done].
  pose proof (browse_children_steps (hv_Path view) (hv_Children view) s (mkBrowsing ∅ ∅ (negb (Nat.eqb (length (hv_Children view)) 0)))) as Hc.
  destruct (browse_children _ _ _ _) as [s1 [b|e]]; cbn [fst] in *; [|done]. destruct (negb _); [|done].
  pose proof (with_record_steps s1 (hv_CapabilityID view) (λ record, Ok (own_tools (hv_CapabilityID view) record))) as Hw.
  destruct (with_record _ _ _) as [s2 r]. cbn [fst] in *. by etrans.
Qed.
Lemma execute_steps {R} (run : RState W → mappedCall → RState W * result error R) order s path :
  (∀ s c, rtc broker_step s (run s c).1) → rtc broker_step s (capabilityBackend_Execute run order s path).1.
Proof.
  intros Hrun. unfold capabilityBackend_Execute. pose proof (broker_resolve s order path) as Hr.
  destruct (Registry.ResolveToolPath order s path) as [s1 [l|e]]; cbn [fst] in *; [|by apply rtc_once].
  destruct (x ← g_leases s1 !! l; ls_target x) as [target|]; cbn [fst]; [|by apply rtc_once]. eapply rtc_l; [exact Hr|].
  destruct (negb _); cbn [fst]; [apply rtc_once; constructor|]. set (c := mkCall _ _ _). specialize (Hrun s1 c). destruct (run s1 c) as [s2 r]. cbn [fst] in *.
  etrans; [exact Hrun|]. apply rtc_once. constructor.
Qed.

(** *** Every live snapshot is a generation's *)

Definition all_owned s : Prop := ∀ sn, svc_snap_live (g_world s) sn = true → owns s sn.
(** The store is only asked to release. *)
Definition releases : W → W → Prop := rtc (λ w w', ∃ sn, w' = svc_release w sn).

Lemma record_releases w r : releases w (record_release w r).
Proof. unfold record_release. destruct (rec_snapshot r) as [sn|]; [|done]. apply rtc_once. by exists sn. Qed.

(** One generation changes: it keeps an owner's count or its record's snapshot
    is released. *)
Lemma owned_update s s' a g g' :
  all_owned s → g_heap s !! a = Some g → g_heap s' = <[a := g']> (g_heap s) → gen_record g' = gen_record g →
  (g_world s' = g_world s ∧ (0 < gen_refs g → 0 < gen_refs g')) ∨ g_world s' = record_release (g_world s) (gen_record g) →
  all_owned s' ∧ releases (g_world s) (g_world s').
Proof.
  intros Ho Ha Hh Hr Hw. split; [|destruct Hw as [[-> _]| ->]; [done|apply record_releases]].
  intros sn Hsn. assert (svc_snap_live (g_world s) sn = true ∧ (rec_snapshot (gen_record g) = Some sn → 0 < gen_refs g → 0 < gen_refs g')) as [Hlive Hkeep].
  { destruct Hw as [[Ew Hk]|Ew]; rewrite Ew in Hsn; [by split; [|intros _]|]. unfold record_release in Hsn.
    destruct (rec_snapshot (gen_record g)) as [sn'|]; [|done]. rewrite svc_release_snap_live in Hsn. apply andb_true_iff in Hsn as [Hsn Hne].
    split; [done|]. intros [= ->]. by rewrite Nat.eqb_refl in Hne. }
  destruct (Ho sn Hlive) as (b & h & Hb & Hrefs & Hs). destruct (decide (a = b)) as [<-|Hne].
  - rewrite Ha in Hb. injection Hb as <-. exists a, g'. rewrite Hh, lookup_insert_eq, Hr. split_and!; [done|by apply Hkeep|done].
  - exists b, h. by rewrite Hh, lookup_insert_ne by done.
Qed.

Lemma owned_retire s a : all_owned s → all_owned (retireLocked s a) ∧ releases (g_world s) (g_world (retireLocked s a)).
Proof.
  intros Ho. unfold retireLocked. destruct (g_heap s !! a) as [g|] eqn:Ha; [|done]. cbn [gen_refs]. destruct (Z.eqb_spec (gen_refs g - 1) 0);
    (eapply owned_update; [done|exact Ha|reflexivity|done|]); [by right|left]. split; [done|]. cbn. lia.
Qed.
Lemma owned_new_lease s a g t : all_owned s → g_heap s !! a = Some g →
  all_owned (new_lease s a g t).1 ∧ releases (g_world s) (g_world (new_lease s a g t).1).
Proof. intros Ho Ha. eapply owned_update; [done|exact Ha|reflexivity|done|left]. split; [done|]. cbn. lia. Qed.

Lemma held_generation s l x E : heap_inv E s → g_leases s !! l = Some x → ls_once x = false →
  ∃ g, g_heap s !! ls_generation x = Some g ∧ 0 < gen_refs g ∧ (gen_refs g - 1 = 0 → gen_retired g = true).
Proof.
  intros Hi Hl Hx. destruct (hi_leases _ _ Hi _ _ Hl) as [g Hg]. exists g. split; [done|].
  rewrite (hi_refs _ _ Hi _ _ Hg), (hi_retired _ _ Hi _ _ Hg).
  pose proof (pins_release s l x (ls_generation x) Hl Hx) as Hp. rewrite bool_decide_true in Hp by done.
  assert (0 ≤ map_sum (lease_pins (ls_generation x)) (<[l := mkRegLease (ls_generation x) true (ls_target x)]> (g_leases s))) by (apply map_sum_nonneg; intros; apply lease_pins_nonneg).
  destruct (bool_decide _); cbn [negb]; split; try lia; try done.
Qed.

Lemma owned_release s l : reg_inv s → all_owned s → all_owned (lease_Release s l) ∧ releases (g_world s) (g_world (lease_Release s l)).
Proof.
  intros [(E & Hi & _) _ _] Ho. unfold lease_Release. destruct (g_leases s !! l) as [x|] eqn:Hl; [|done]. destruct (ls_once x) eqn:Hx; [done|].
  destruct (held_generation _ _ _ _ Hi Hl Hx) as (g & Hg & Hrefs & Hret). unfold release. cbn [g_heap with_lease]. rewrite Hg.
  destruct (Z.leb_spec (gen_refs g) 0); [lia|]. cbn [gen_refs gen_retired].
  destruct (Z.eqb_spec (gen_refs g - 1) 0) as [Hz|Hz]; [rewrite Hret by done|]; cbn [andb];
    (eapply owned_update; [done|exact Hg|reflexivity|done|]); [by right|left]. split; [done|]. cbn. lia.
Qed.

Lemma owned_step s s' : reg_inv s → broker_step s s' → all_owned s → all_owned s' ∧ releases (g_world s) (g_world s').
Proof.
  intros Hv [id|order path|l] Ho; [| |by apply owned_release].
  - unfold Lookup. destruct (r_closed _); [done|]. destruct (live_entry s id) as [[a g]|] eqn:Hl; [|done].
    apply live_entry_Some in Hl as (_ & Hg & _). by apply owned_new_lease.
  - unfold Registry.ResolveToolPath, ResolveOperation. destruct (tool_plan _ _ _) as [[id o]|]; [|done]. destruct (r_closed _); [done|].
    destruct (live_entry s id) as [[a g]|] eqn:Hl; [|done]. destruct (find_target _ _ _); [|done].
    apply live_entry_Some in Hl as (_ & Hg & _). by apply owned_new_lease.
Qed.
Lemma owned_steps s s' : rtc broker_step s s' → reg_inv s → all_owned s → reg_inv s' ∧ all_owned s' ∧ releases (g_world s) (g_world s').
Proof.
  induction 1 as [|s s1 s' Hstep _ IH]; intros Hv Ho; [by split_and!|]. destruct (owned_step _ _ Hv Hstep Ho) as [Ho1 Hr].
  destruct IH as (? & ? & ?); [by eapply reg_step_inv, broker_reg_step|done|]. split_and!; [done..|]. by etrans.
Qed.
Lemma owned_close s order : all_owned s → all_owned (closeLocked order s) ∧ releases (g_world s) (g_world (closeLocked order s)).
Proof.
  intros Ho. unfold closeLocked. destruct (r_closed _); [done|].
  assert (∀ s, all_owned s → all_owned (foldl (λ s e, retireLocked s e.2) s order) ∧ releases (g_world s) (g_world (foldl (λ s e, retireLocked s e.2) s order))) as Hall.
  { clear s Ho. induction order as [|e order IH]; intros s Ho; [done|]. destruct (owned_retire s e.2 Ho) as [Ho1 Hr]. destruct (IH _ Ho1) as [Ho2 Hr2]. split; [done|]. cbn [foldl]. by etrans. }
  exact (Hall (with_reg s _) Ho).
Qed.

(** A closed registry without leases owns nothing. *)
Lemma closed_owns_nothing s : reg_inv s → r_closed (g_reg s) = true → map_Forall (λ _ x, ls_once x = true) (g_leases s) → ∀ sn, ¬ owns s sn.
Proof.
  intros [(E & Hi & He) Hc _] Hclosed Hleases sn (a & g & Ha & Hrefs & _). destruct (Hc Hclosed) as [Hempty _].
  rewrite (hi_refs _ _ Hi _ _ Ha) in Hrefs. assert (pins s a = 0) as Hp.
  { unfold pins. rewrite (map_sum_ext _ (λ _, 0)), map_sum_const; [lia|]. intros l x Hx. unfold lease_pins. by rewrite (Hleases l x). }
  destruct (bool_decide_reflect (a ∈ E)) as [Hin|]; [|lia].
  assert (r_entries (g_reg s) !! gen_capability g = Some a) as Hx by (apply He; split; [done|by exists g]). by rewrite Hempty, lookup_empty in Hx.
Qed.
End steps.

(** ** Lemmas: the store under a registry *)

Lemma releases_world (w w' : World) : releases w w' → rtc step w w' ∧ w_txs w' = w_txs w ∧ w_leases w' = w_leases w.
Proof.
  induction 1 as [|w w1 w' [sn ->] _ (Hr & Ht & Hl)]; [done|]. split; [etrans; [exact (svc_release_evolves w sn)|done]|].
  rewrite Ht, Hl. cbn [svc_release world_ops]. unfold world_release_snapshot. destruct (w_snaps w !! sn); [|done].
  destruct (Snapshot_release _ _). done.
Qed.

(** What a load hands over is owned once it is registered. *)
Lemma loaded_owned limits w records s :
  extended (initial_world limits) w (snapshots records) → registered (empty_state w) s → reg_inv s →
  Forall (λ r, ∃ a g, live_entry s (record_id r) = Some (a, g) ∧ gen_record g = r) records → all_owned s.
Proof.
  intros Hex Hreg [(E & Hi & He) _ _] Hall sn Hsn. rewrite (rg_world _ _ Hreg) in Hsn. cbn [g_world empty_state] in Hsn.
  apply snap_live_Some in Hsn as (x & Hx & Honce). pose proof (ex_new _ _ _ Hex sn x Hx (lookup_empty _)) as Hnew.
  rewrite Honce in Hnew. symmetry in Hnew. apply negb_false_iff, bool_decide_eq_true in Hnew. apply list_elem_of_omap in Hnew as (r & Hr & Hs).
  rewrite Forall_forall in Hall. destruct (Hall r Hr) as (a & g & (Hent & Ha & _)%live_entry_Some & Hg). exists a, g. split; [done|].
  rewrite Hg. split; [|done]. apply He in Hent as [Hin _]. rewrite (hi_refs _ _ Hi _ _ Ha), bool_decide_true by done. pose proof (pins_nonneg s a). lia.
Qed.

(** ** Properties *)

Section stops.
Context {R : Type} (runCapability : gmap string json → RState World → mappedCall → RState World * result error R) (order : RState World → list (string * nat)).
Context (runHierarchy : string → string → option (gmap string json) → gmap string json → result error R) (nodes : Hierarchy → list (string * HierarchyNode)).
Context `{TextLaws} `{UnicodeTables} `{LowerCase} `{YamlDecoder} `{MimeTable} `{UnixFiles} `{Mcp}.
Context (range : gmap string stagedArtifact → list (string * stagedArtifact)) (hierarchyFiles : string → result error bytes * tree).

(** A listener only calls the handlers. *)
Definition serves_by_steps (r r' : runtime) : Prop :=
  ∀ s, r.2 = LoadedCapabilities s → ∃ s', r'.2 = LoadedCapabilities s' ∧ rtc broker_step s s'.

(** The ways to start a server. *)
Definition start (stdio : bool) (listen : tappetServer → runtime → runtime * option error) (mount : httpTransport → tappetServer → handler)
    (serve : string → (string → handler) → tappetServer → runtime → httpEnd) (cfg : Config) : started :=
  if stdio then StartStdioServer runCapability order runHierarchy nodes range hierarchyFiles listen cfg
  else StartHTTPServer runCapability order runHierarchy nodes range hierarchyFiles mount serve cfg.

Lemma started_runtime stdio listen mount serve cfg providers b err :
  (∀ server r, serves_by_steps r (listen server r).1) → (∀ addr h server r, serves_by_steps r (sh_runtime (serve addr h server r))) →
  start stdio listen mount serve cfg = Stopped providers b err →
  ∃ b0 r, load_backend range hierarchyFiles (cf_McpProxy cfg) = Ok b0 ∧ serves_by_steps (newServerRegistry (dom (cf_McpServers cfg)), b0) r ∧
    (providers, b) = runtime_Close (backend_order order r.2) r.1 r.2.
Proof.
  intros Hlisten Hserve. assert (∀ server b0 c, load_server runCapability order runHierarchy nodes range hierarchyFiles cfg = (c, Ok (server, b0)) →
    load_backend range hierarchyFiles (cf_McpProxy cfg) = Ok b0 ∧ c = newServerRegistry (dom (cf_McpServers cfg))) as Hload.
  { intros server b0 c. unfold load_server, loadServer. destruct (load_backend _ _ _) as [b1|]; [|done]. cbn [rbind].
    unfold NewTappetServer, dependencies. cbn [sd_Registry sd_Capabilities sd_Hierarchy]. destruct b1; cbn [rbind]; intros [= <- _ <-]; done. }
  assert (∀ r e, stop_runtime order r e = Stopped providers b err → (providers, b) = runtime_Close (backend_order order r.2) r.1 r.2) as Hs.
  { intros r e. unfold stop_runtime. destruct (runtime_Close _ _ _). by intros [= <- <- _]. }
  unfold start. destruct stdio; [unfold StartStdioServer|unfold StartHTTPServer];
    destruct (load_server _ _ _ _ _ _ _) as [c [[server b0]|e]]; try done; destruct (Hload _ _ _ eq_refl) as [Hb ->].
  - specialize (Hlisten server (newServerRegistry (dom (cf_McpServers cfg)), b0)). destruct (listen _ _) as [r e]. intros Hst%Hs. by exists b0, r.
  - destruct (http_transport _).
    + destruct (unclosed _); [done|]. intros Hst%Hs. eexists b0, _. split; [done|]. split; [|exact Hst]. apply Hserve.
    + intros Hst%Hs. eexists b0, _. split; [done|]. split; [|exact Hst]. intros s Hx. by exists s.
Qed.

(** C38. A server that stops leaves nothing. Whichever way a server of
    capability packages is started and whatever ends it, be it a type that is
    not known, when the start function returns the connections to providers
    are closed and so is the registry; and once the calls that were still
    running have released their leases, every snapshot of every package has
    been released and the store holds no object, no byte and no reservation.
    Assumed is that the listener only browses and executes, at any time and in
    any number of calls at once. *)
Theorem stopped_drained stdio listen mount serve cfg root names providers b err :
  let path := px_CapabilityPath (cf_McpProxy cfg) in
  (∀ m, range m ≡ₚ map_to_list m) → (∀ s, order s ≡ₚ map_to_list (r_entries (g_reg s))) →
  path ≠ "" → openPackageRoot path = Ok root → root_ok root → pr_PackageNames root = Ok names → Z.of_nat (length names) < 2 ^ 64 →
  (∀ server r, serves_by_steps r (listen server r).1) → (∀ addr h server r, serves_by_steps r (sh_runtime (serve addr h server r))) →
  start stdio listen mount serve cfg = Stopped providers b err →
  sr_closed providers = true ∧ ∃ s, b = LoadedCapabilities s ∧ r_closed (g_reg s) = true ∧
    ∀ s', rtc broker_step s s' → map_Forall (λ _ x, ls_once x = true) (g_leases s') →
      SnapshotStore_Stats (w_store (g_world s')) = mkStoreStats 0 0 0 0.
Proof.
  intros path Hrange Horder Hpath Hopen Hroot Hnames Hlen Hlisten Hserve Hstart.
  destruct (started_runtime _ _ _ _ _ _ _ _ Hlisten Hserve Hstart) as (b0 & r & Hload & Hsteps & Hclose). unfold runtime_Close in Hclose. injection Hclose as -> ->.
  split; [unfold registry_Close; by destruct (sr_closed r.1) eqn:E|].
  pose proof (capabilities_loaded range path root names Hrange Hpath Hopen Hroot Hnames Hlen) as Hspec.
  unfold load_backend in Hload. fold path in Hload. apply String.eqb_neq in Hpath. rewrite Hpath in Hload. cbn [negb] in Hload.
  destruct (LoadAll range path (Ok root) (initial_world DefaultStoreLimits)) as [w [records|e]]; [|by rewrite Hspec in Hload].
  destruct Hspec as (s0 & Hs0 & Hex & _ & _ & Hinit & Hreg & _ & Hall). rewrite Hs0 in Hload. injection Hload as <-.
  destruct (Hsteps s0 eq_refl) as (s1 & Er & Hs1). rewrite Er. cbn [backend_order].
  pose proof (reg_initial_inv _ Hinit) as Hv0. pose proof (loaded_owned _ _ _ _ Hex Hreg Hv0 Hall) as Ho0.
  destruct (owned_steps _ _ Hs1 Hv0 Ho0) as (Hv1 & Ho1 & Hr1). pose proof (closeLocked_inv _ _ Hv1 (Horder s1)) as Hv2.
  destruct (owned_close s1 (order s1) Ho1) as [Ho2 Hr2]. eexists. split; [done|].
  assert (r_closed (g_reg (closeLocked (order s1) s1)) = true) as Hc2 by (unfold closeLocked; by destruct (r_closed (g_reg s1)) eqn:E).
  split; [done|]. intros s' Hs' Hleases. destruct (owned_steps _ _ Hs' Hv2 Ho2) as (Hv3 & Ho3 & Hr3).
  assert (r_closed (g_reg s') = true) as Hc3.
  { clear -Hs' Hc2. induction Hs' as [|x y z Hstep _ IH]; [done|]. apply IH. destruct Hstep; [| |].
    - unfold Lookup. by rewrite Hc2.
    - unfold Registry.ResolveToolPath, ResolveOperation. rewrite Hc2. by destruct (tool_plan _ _ _) as [[? ?]|].
    - unfold lease_Release, release, reclaimLocked. by repeat (case_match; simplify_eq/=). }
  assert (releases w (g_world s')) as (Hst & Htx & Hle)%releases_world.
  { replace w with (g_world s0) by apply Hreg. do 2 (etrans; [eassumption|]). done. }
  apply (store_drains DefaultStoreLimits); [done| | | |].
  - unfold reachable. etrans; [apply (ex_steps _ _ _ Hex)|done].
  - intros tid t. rewrite Htx. intros [?|Hn]%(ex_txs _ _ _ Hex); [done|]. cbn in Hn. by rewrite lookup_empty in Hn.
  - intros sn x Hx. destruct (snap_once x) eqn:E; [done|]. destruct (closed_owns_nothing _ Hv3 Hc3 Hleases sn).
    apply Ho3. cbn. unfold snap_live. by rewrite Hx, E.
  - intros l x. rewrite Hle, (ex_leases _ _ _ Hex). cbn. by rewrite lookup_empty.
Qed.
End stops.

(** ** Witnesses *)

#[local] Existing Instance package_decoder.
#[local] Existing Instance ascii_text.
#[local] Existing Instance ascii_text_laws.
#[local] Existing Instance ascii_tables.
#[local] Existing Instance ascii_lowercase.
#[local] Existing Instance markdown_mime.
#[local] Existing Instance echo_unix.

(** A listener that browses once, and a provider that is not there. *)
Definition browse_once (_ : tappetServer) (r : runtime) : runtime * option error :=
  ((r.1, match r.2 with LoadedCapabilities s => LoadedCapabilities (capabilityBackend_Browse s "everything").1 | b => b end), None).
Definition no_provider (_ _ : string) (_ : option (gmap string json)) (_ : gmap string json) : result error (mappedCall * gmap string json) :=
  Err (Sentinel "no provider").
Definition demo_start (cfg : Config) (stdio : bool) : started :=
  start (H6 := Protocol.demo_mcp) capability_run entries_order no_provider map_to_list map_to_list no_files stdio browse_once
    (λ _ _ _, mkServing [] None false) (λ _ _ server r, mkHTTPEnd (browse_once server r).1 None (Some (Sentinel ErrServerClosed))) cfg.

Lemma browse_once_steps server r : serves_by_steps r (browse_once server r).1.
Proof. intros s Hs. destruct r as [providers b]. cbn in *. subst b. eexists. split; [reflexivity|]. apply browse_steps. Qed.

(** What is left: the error, the generations, the leases, whether all are
    released, and whether all is closed. *)
Definition left_over (r : started) : option (option error * nat * nat * bool * bool) :=
  match r with
  | Stopped providers (LoadedCapabilities s) err =>
      Some (err, size (g_heap s), size (g_leases s), bool_decide (map_Forall (λ _ x, ls_once x = true) (g_leases s)), sr_closed providers && r_closed (g_reg s))
  | _ => None
  end.

Lemma stopped_drained_witness :
  ∃ providers s, demo_start demo_config true = Stopped providers (LoadedCapabilities s) None ∧ sr_closed providers = true ∧
    size (g_heap s) = 1%nat ∧ size (g_leases s) = 1%nat ∧ SnapshotStore_Stats (w_store (g_world s)) = mkStoreStats 0 0 0 0.
Proof.
  assert (left_over (demo_start demo_config true) = Some (None, 1%nat, 1%nat, true, true)) as Hleft by (vm_compute; reflexivity).
  destruct (demo_start demo_config true) as [| providers b err|] eqn:E; [discriminate Hleft| |discriminate Hleft].
  destruct (stopped_drained (H6 := Protocol.demo_mcp) capability_run entries_order no_provider map_to_list map_to_list no_files true browse_once
    (λ _ _ _, mkServing [] None false) (λ _ _ server r, mkHTTPEnd (browse_once server r).1 None (Some (Sentinel ErrServerClosed))) demo_config
    unix_root ["everything.echo"] providers b err (λ m, Permutation_refl _) (λ s, Permutation_refl _) ltac:(discriminate) eq_refl unix_root_ok eq_refl eq_refl
    browse_once_steps (λ _ _, browse_once_steps) E) as (Hp & s & -> & _ & Hs).
  injection Hleft as -> Hheap Hl Hd _. apply bool_decide_eq_true in Hd.
  exists providers, s. split; [reflexivity|]. split_and!; [exact Hp|exact Hheap|exact Hl|]. apply Hs; [apply rtc_refl|exact Hd].
Defined.

(** A type that is not known is refused after the packages are loaded, and
    nothing stays open. *)
Example unknown_type :
  left_over (demo_start (mkConfig (mkProxy "" ":8080" "tappet" "1" "grpc" "" "/packages" None) ∅) false) =
  Some (Some (Errorf "unknown server type: %s" [FStr "grpc"]), 1%nat, 0%nat, true, true).
Proof. vm_compute. reflexivity. Qed.
