(* ===== verification/Commands.v ===== *)
(** * The commands

    Models the [main] functions: [structure_generator/cmd/main.go], which takes
    the inventories of the configured providers or reads them from files and
    generates a structure, regenerates one, or writes capability candidates;
    and [cmd/tappet/main.go], which loads a configuration and starts a server.
    It composes [Inventory.v], [Publish.v], [Pipeline.v], [Config.v] and
    [Serving.v]. The [flag] package, the reading of files and configurations
    and the listeners are arguments. *)
From stdpp Require Import relations.
From Stdlib Require Import Ascii String.
From S2P Require Import Prelude GoStrings Limits Sha256 Regex Utf8 Text Json JsonScan JsonStruct JsonRound Snapshot SnapshotService Records Registry RegistrySteps Yaml Manifest Skill Loader ResponseLimit ProviderRegistry Hierarchy Config Generator Generated Candidates Inventory Regenerate Publish Pipeline Protocol Backend ProviderCall Server Serving.
Local Open Scope string_scope.
Local Open Scope list_scope.
Local Open Scope Z_scope.

(** ** The generator's command *)

(** [arrayFlags] *)
Definition arrayFlags : Type := list string.
Definition arrayFlags_String (i : arrayFlags) : string := Join i ", ".
Definition arrayFlags_Set (i : arrayFlags) (value : string) : arrayFlags := i ++ [value].

Record generatorFlags := mkGenFlags {
  gf_inputFiles : arrayFlags; gf_outputDir : string; gf_configPath : string; gf_regenerateRoot : bool; gf_candidateSource : string }.
Definition default_output : string := "./structure".
Definition no_flags : generatorFlags := mkGenFlags [] default_output "" false "".

(** [Config]: the servers and the output directory. *)
Record generatorConfig := mkGenConfig { gc_MCPServers : gmap string (option MCPClientConfigV2); gc_OutputDir : string }.

(** What is to be generated, and where. *)
Inductive job :=
| CandidatesJob (candidateSource outputDir : string)
| RegenerateJob (outputDir : string)
| StructureJob (servers : list ServerTools) (outputDir : string).

Definition usage : string :=
  "Usage:" +:+ String NL "" +:+
  "  Mode 1 (fetch from live servers):  go run cmd/main.go -config <config.json>" +:+ String NL "" +:+
  "  Mode 2 (use pre-fetched data):     go run cmd/main.go -input <file1.json> -input <file2.json>" +:+ String NL "" +:+
  "  Mode 3 (regenerate hierarchy):     go run cmd/main.go -regenerate -output <structure_dir>" +:+ String NL "" +:+
  "  Mode 4 (capability candidates):    go run cmd/main.go -capability-candidates-from <hierarchy_dir> -output <candidate_dir>" +:+ String NL (String NL "") +:+
  "Examples:" +:+ String NL "" +:+
  "  go run cmd/main.go -config tests/test_data/test_config.json" +:+ String NL "" +:+
  "  go run cmd/main.go -input tests/test_data/github_tools.json -input tests/test_data/everything_tools.json" +:+ String NL "" +:+
  "  go run cmd/main.go -regenerate -output ./structure".

Section generator.
Context `{TextOps} `{UpperCase} `{UnicodeTables} `{RuneLower} `{YamlDecoder} {mcp : McpTools}.
Context {C : Type} {catalog : CatalogClient C}.
(** The environment, the files, [json.Unmarshal] into [Config], and the
    connections to providers. An error is what [log.Fatal] says, whose [%v] is
    the error's text. *)
Context (Getenv : string → string) (readFile : string → result error bytes) (decode : bytes → result error generatorConfig).
Context (factory : string → MCPClientConfigV2 → result error (catalogConnection C)).

Definition fetchFromConfig (configPath : string) : result error (list ServerTools) :=
  fetchFromConfigWithFactory Getenv (λ data, rmap gc_MCPServers (decode data)) (readFile configPath) factory.

(** An output directory that is not given is the configuration's; what cannot
    be read is empty. *)
Definition config_output (configPath outputDir : string) : string :=
  if String.eqb outputDir default_output then
    let configData := match readFile configPath with Ok data => data | Err _ => [] end in
    match decode configData with
    | Ok config => if negb (String.eqb (gc_OutputDir config) "") then gc_OutputDir config else outputDir
    | Err _ => outputDir
    end
  else outputDir.

Definition load_input (servers : list ServerTools) (inputFile : string) : result error (list ServerTools) :=
  let! data := wrapping "Failed to read %s: %v" [FStr inputFile] (readFile inputFile) in
  let! serverTools := wrapping "Failed to parse %s: %v" [FStr inputFile] (decodeServerTools data) in
  Ok (servers ++ [serverTools]).

Definition select_job (flags : generatorFlags) : result error job :=
  if negb (String.eqb (gf_candidateSource flags) "") then Ok (CandidatesJob (gf_candidateSource flags) (gf_outputDir flags))
  else if gf_regenerateRoot flags then Ok (RegenerateJob (gf_outputDir flags))
  else
    let! '(servers, outputDir) :=
      if negb (String.eqb (gf_configPath flags) "") then
        let! servers := wrapping "Failed to fetch from config: %v" [] (fetchFromConfig (gf_configPath flags)) in
        Ok (servers, config_output (gf_configPath flags) (gf_outputDir flags))
      else if negb (Nat.eqb (length (gf_inputFiles flags)) 0) then
        let! servers := rfold load_input [] (gf_inputFiles flags) in Ok (servers, gf_outputDir flags)
      else Err (ErrorNew usage) in
    fail_if Nat.eqb (length servers) 0 with ErrorNew "No servers loaded" else
    Ok (StructureJob servers outputDir).

(** *** What is printed *)

Definition line (parts : list string) : string := Join parts "" +:+ String NL "".
Definition tool_count (s : ServerTools) : string := FormatInt (zlen (se_Tools s)).
Fixpoint server_lines (servers : list ServerTools) : string :=
  match servers with
  | [] => ""
  | [s] => line ["└── "; se_ServerName s; "/"] +:+ line ["    └── "; se_ServerName s; ".json ("; tool_count s; " tools)"]
  | s :: servers =>
      line ["├── "; se_ServerName s; "/"] +:+ line ["│   └── "; se_ServerName s; ".json ("; tool_count s; " tools)"] +:+ server_lines servers
  end.
Definition total_tools (servers : list ServerTools) : Z := foldl (λ n s, wrap64 (n + zlen (se_Tools s))) 0 servers.
Definition structure_summary (servers : list ServerTools) (outputDir : string) : string :=
  line [] +:+ line ["✓ Successfully generated structure!"] +:+ line ["  Location: "; outputDir] +:+
  line ["  Servers: "; FormatInt (zlen servers)] +:+ line ["  Total tools: "; FormatInt (total_tools servers)] +:+ line [] +:+
  line ["Generated structure:"] +:+ line [outputDir; "/"] +:+ line ["├── root.json"] +:+ server_lines servers.

(** *** [main] *)

(** The directories that a run touches: the candidates' source, the output as
    [Regenerate] walks it, and the output and what is made beside it. *)
Record disk := mkDisk { dk_source : sourceTree; dk_tree : tree; dk_places : places }.

Context (first : gmap string NodeTool → option NodeTool) (encode : Manifest → result error bytes) (env : environment).

Definition done_or {A} (what : string) (err : option error) (a : A) : result error A :=
  match err with Some e => Err (Wrapf what [] e) | None => Ok a end.

Definition generator_main (flags : generatorFlags) (d : disk) : disk * result error string :=
  match select_job flags with
  | Err e => (d, Err e)
  | Ok (CandidatesJob _ outputDir) =>
      let '(p, err) := GenerateCapabilityCandidates encode env (dk_source d) outputDir (dk_places d) in
      (mkDisk (dk_source d) (dk_tree d) p,
       done_or "Failed to generate capability candidates: %v" err (line ["Generated capability candidates in "; outputDir]))
  | Ok (RegenerateJob outputDir) =>
      let '(t, _, err) := Regenerate first (ev_create env) (dk_tree d) in
      (mkDisk (dk_source d) t (dk_places d),
       done_or "Failed to regenerate: %v" err (line [] +:+ line ["✓ Successfully regenerated hierarchy!"] +:+ line ["  Location: "; outputDir]))
  | Ok (StructureJob servers outputDir) =>
      let '(p, err) := GenerateStructure first env servers outputDir (dk_places d) in
      (mkDisk (dk_source d) (dk_tree d) p,
       done_or "Failed to generate structure: %v" err (structure_summary servers outputDir))
  end.
End generator.

(** ** What a generated structure serves *)

(** What the broker makes of a directory for an agent: it loads, in whatever
    order it is listed, and browsing a server gives a text that tells for each
    of its tools a path under which [execute_tool] calls that tool on that
    server, with its schema and the arguments given. *)
Definition tells (servers : list ServerTools) (entries : list (string * tree)) : Prop :=
  ∃ root, entry_of "root.json" entries = Some (TFile (Ok root)) ∧
  ∀ path entries', entries' ≡ₚ entries → ∃ h, LoadHierarchy path (Ok root) (TDir entries') = Ok h ∧
    ∀ (R : Type) (run : string → string → option (gmap string json) → gmap string json → result error R) order s t arguments,
      order ≡ₚ map_to_list h → s ∈ servers → t ∈ se_Tools s →
      ∃ text tool_path,
        get_tools_in_category (brokerBackend0 := hierarchyBackend order run) h (Some (JObj [("path", JStr (se_ServerName s))])) = (h, Ok text) ∧
        told_tool_path text (tl_Name t) = Some tool_path ∧
        execute_tool (brokerBackend0 := hierarchyBackend order run) h (Some (execute_request tool_path arguments)) =
          (h, run (se_ServerName s) (tl_Name t) (if decide (tl_InputSchema t = ∅) then None else Some (tl_InputSchema t)) (default ∅ (into_entries Some ∅ arguments))).

Lemma serves_tells servers entries : serves servers entries → tells servers entries.
Proof.
  intros (root & Hr & Hall). exists root. split; [done|]. intros path entries' Hp. destruct (Hall path entries' Hp) as (h & Hh & _ & Hv & Htools).
  exists h. split; [done|]. intros R run order s t arguments Ho Hs Ht. destruct (Htools s t Hs Ht) as [He Hb]. destruct (Hb order Ho) as (c & Hc & Hi).
  destruct (hierarchy_told order run h _ _ Ho Hv Hc) as (text & Htext & Htold). exists text, (tool_key s t). split; [done|]. split; [by rewrite Htold, Hi|].
  apply hierarchy_executes; [|done]. unfold tool_key. by destruct (se_ServerName s).
Qed.

Section served.
Context `{TextOps} `{UpperCase} `{UnicodeTables} `{RuneLower} `{YamlDecoder} {mcp : McpTools}.
Context {C : Type} {catalog : CatalogClient C}.
Context (Getenv : string → string) (readFile : string → result error bytes) (decode : bytes → result error generatorConfig).
Context (factory : string → MCPClientConfigV2 → result error (catalogConnection C)).

(** The pages that a provider lists when it is connected to, to the last. *)
Definition lists_pages (name : string) (cfg : MCPClientConfigV2) (pages : list catalogToolsPage) : Prop :=
  ∃ connection c0 c1 c2, factory name cfg = Ok connection ∧
    (if cn_needStart connection then cat_Start (cn_client connection) else (cn_client connection, None)) = (c0, None) ∧
    cat_Initialize c0 = (c1, None) ∧ listing c1 "" pages c2.

(** All that a configured provider lists, converted. *)
Definition complete_inventory (config : generatorConfig) (name : string) (s : ServerTools) : Prop :=
  ∃ cfg pages tss, gc_MCPServers config !! name = Some (Some cfg) ∧ lists_pages name (expandProviderConfig Getenv cfg) pages ∧
    Forall2 converted pages tss ∧ s = mkServerTools name (concat tss).
Definition decoded_file (inputFile : string) (s : ServerTools) : Prop :=
  ∃ data, readFile inputFile = Ok data ∧ decodeServerTools data = Ok s.

(** Where the servers of a run come from. *)
Definition gathered (flags : generatorFlags) (servers : list ServerTools) : Prop :=
  if String.eqb (gf_configPath flags) "" then Forall2 decoded_file (gf_inputFiles flags) servers
  else ∃ data config names, readFile (gf_configPath flags) = Ok data ∧ decode data = Ok config ∧
    names ≡ₚ (map_to_list (gc_MCPServers config)).*1 ∧ Forall2 (complete_inventory config) names servers.

Lemma inputs_loaded inputFiles servers : rfold (load_input readFile) [] inputFiles = Ok servers ↔ Forall2 decoded_file inputFiles servers.
Proof.
  rewrite (rfold_collect decoded_file); [split; [by intros (? & -> & ?)|by eauto]|].
  intros ys f r. unfold load_input, decoded_file. destruct (readFile f) as [data|e]; [|naive_solver]. cbn [wrapping rbind].
  split.
  - intros (s & Hs & [= <-])%rbind_Ok. exists s. split; [done|]. exists data. split; [done|]. destruct (decodeServerTools data); [|done]. by injection Hs as ->.
  - intros (s & -> & data' & [= <-] & Hs). by rewrite Hs.
Qed.

Lemma fetched_inventories configPath servers : fetchFromConfig Getenv readFile decode factory configPath = Ok servers →
  ∃ data config, readFile configPath = Ok data ∧ decode data = Ok config ∧
    Forall2 (complete_inventory config) (merge_sort str_le (map_to_list (gc_MCPServers config)).*1) servers.
Proof.
  unfold fetchFromConfig, fetchFromConfigWithFactory. destruct (readFile configPath) as [data|]; [|done].
  destruct (decode data) as [config|] eqn:E; [|done]. cbn [rmap]. intros (fetched & -> & Hall)%fetched_all. exists data, config. split_and!; [done..|].
  eapply Forall2_impl; [exact Hall|]. intros name s (cfg & c & Hcfg & (connection & c0 & c1 & c2 & pages & tss & Hf & Hs & Hi & Hl & _ & _ & _ & Hts & _ & _ & ->)%inventory_spec); [|by split; vm_compute; split_and?; discriminate].
  exists cfg, pages, tss. split_and!; [done|by exists connection, c0, c1, c2| |done]. eapply Forall2_impl; [exact Hts|]. by intros ? ? [].
Qed.

Lemma selected flags servers outputDir :
  gf_candidateSource flags = "" → gf_regenerateRoot flags = false →
  select_job Getenv readFile decode factory flags = Ok (StructureJob servers outputDir) → servers ≠ [] ∧ gathered flags servers.
Proof.
  intros Hc Hr. unfold select_job. rewrite Hc, Hr. cbn [String.eqb negb]. unfold gathered.
  intros ([servers' output'] & Hs & Hj)%rbind_Ok. apply guardE_Ok in Hj as [Hne [= -> ->]]. split; [by destruct servers|].
  destruct (String.eqb_spec (gf_configPath flags) ""); cbn [negb] in Hs.
  - destruct (negb _); [|done]. apply rbind_Ok in Hs as (l & Hl & [= -> _]). by apply inputs_loaded.
  - apply rbind_Ok in Hs as (l & Hl & [= -> _]). destruct (fetchFromConfig _ _ _ _ _) as [l'|] eqn:E; [|done]. injection Hl as ->.
    apply fetched_inventories in E as (data & config & Hread & Hd & Hall). exists data, config, (merge_sort str_le (map_to_list (gc_MCPServers config)).*1).
    split_and!; [done..|apply merge_sort_Permutation|done].
Qed.

(** Whatever was gathered can be written. *)
Lemma gathered_carried flags servers :
  (∀ data config name, decode data = Ok config → is_Some (gc_MCPServers config !! name) → ValidString name = true) →
  gathered flags servers → Forall carried_server servers.
Proof.
  intros Hvalid. unfold gathered. destruct (String.eqb _ _).
  - intros Hall. eapply Forall2_Forall_r; [exact Hall|]. apply Forall_true. intros f s (data & _ & Hd). by eapply decoded_carried.
  - intros (data & config & names & _ & Hd & _ & Hall). eapply Forall2_Forall_r; [exact Hall|]. apply Forall_true.
    intros name s (cfg & pages & tss & Hcfg & _ & Hts & ->). split; [by apply (Hvalid data config name)|]. cbn [se_ServerName se_Tools]. apply Forall_concat.
    eapply Forall2_Forall_r; [exact Hts|]. apply Forall_true. intros page ts Hp. eapply Forall2_Forall_r; [exact Hp|]. apply Forall_true.
    intros raw t Hraw. eapply converted_carried; [exact Hraw|]. by apply (Hvalid data config name).
Qed.

Context (first : gmap string NodeTool → option NodeTool) (encode : Manifest → result error bytes) (env : environment).

End served.

(** ** The broker's command *)

Record tappetFlags := mkTappetFlags {
  tf_conf : string; tf_port : string; tf_hierarchyPath : string; tf_capabilityPath : string; tf_insecure : bool; tf_expandEnv : bool;
  tf_httpHeaders : string; tf_httpTimeout : Z; tf_version : bool; tf_help : bool }.
Definition tappet_defaults : tappetFlags := mkTappetFlags "config.json" "" "" "" false true "" 10 false false.
Definition BuildVersion : string := "dev".

Section tappet.
(** confstore: which paths it knows, and reading and decoding from a provider;
    the orders of the two maps [Load] visits; the default HTTP client's timeout. *)
Context (isRemote isLocal : string → bool) (load : confProvider → result error FullConfig) (defaultTimeout : Z).
Context (rangeV1 : gmap string (option MCPClientConfigV1) → list (string * option MCPClientConfigV1))
  (rangeV2 : gmap string (option MCPClientConfigV2) → list (string * option MCPClientConfigV2)).

(** [config.Load] from its path on; the second loop visits the adapted servers. *)
Definition config_Load (path : string) (insecure expandEnv : bool) (httpHeaders : string) (httpTimeout : Z) : Z * result error Config :=
  let '(timeout, pro) := newConfProvider isRemote isLocal defaultTimeout path insecure expandEnv httpHeaders httpTimeout in
  (timeout,
   let! pro := pro in
   let! conf := load pro in
   let clients := rangeV1 (fc_ClientsV1 conf) in
   let servers := match adaptMCPClientConfigV1ToV2 clients conf with Ok adapted => rangeV2 (fc_McpServers adapted) | Err _ => [] end in
   Load clients servers (Ok conf)).

(** How a run of the command ends: with what it prints, with what [log.Fatal]
    says before a server is started, or as the server does. *)
Inductive tappetRun := ShowUsage | ShowVersion (version : string) | NotLoaded (message : error) | Ran (s : started) (fatal : option error).

(** What the start functions return; a process that has exited returns nothing. *)
Definition started_error (s : started) : option error :=
  match s with NotStarted _ err => Some err | Stopped _ _ err => err | Exited _ => None end.

Context (StartStdio StartHTTP : Config → started).
Definition overridden (flags : tappetFlags) (cfg : Config) : Config :=
  mkConfig (applyOverrides (cf_McpProxy cfg) (tf_port flags) (tf_hierarchyPath flags) (tf_capabilityPath flags)) (cf_McpServers cfg).
Definition tappet_main (flags : tappetFlags) : tappetRun :=
  if tf_help flags then ShowUsage
  else if tf_version flags then ShowVersion BuildVersion
  else
    match (config_Load (tf_conf flags) (tf_insecure flags) (tf_expandEnv flags) (tf_httpHeaders flags) (tf_httpTimeout flags)).2 with
    | Err err => NotLoaded (Wrapf "Failed to load config: %v" [] err)
    | Ok cfg =>
        let cfg := overridden flags cfg in
        let s := if String.eqb (px_Type (cf_McpProxy cfg)) MCPServerTypeStdio then StartStdio cfg else StartHTTP cfg in
        Ran s (Wrapf "Failed to start server: %v" [] <$> started_error s)
    end.
End tappet.

(** What is served is what the command line says, or else the configuration. *)
Lemma overridden_backend `{TextOps} `{UnicodeTables} `{LowerCase} `{YamlDecoder} `{MimeTable} `{UnixFiles} range hierarchyFiles flags cfg :
  load_backend range hierarchyFiles (cf_McpProxy (overridden flags cfg)) =
    if negb (String.eqb (tf_capabilityPath flags) "") then rmap LoadedCapabilities (load_capabilities range (tf_capabilityPath flags))
    else if negb (String.eqb (tf_hierarchyPath flags) "")
    then rmap LoadedHierarchy (wrapping "failed to load hierarchy: %w" []
           (LoadHierarchy (tf_hierarchyPath flags) (hierarchyFiles (tf_hierarchyPath flags)).1 (hierarchyFiles (tf_hierarchyPath flags)).2))
    else load_backend range hierarchyFiles (cf_McpProxy cfg).
Proof.
  unfold overridden, applyOverrides, load_backend. cbn [cf_McpProxy]. destruct (String.eqb (tf_capabilityPath flags) "") eqn:Hc; cbn [negb].
  - by destruct (String.eqb (tf_hierarchyPath flags) "") eqn:Hh; cbn [negb px_CapabilityPath px_HierarchyPath String.eqb].
  - cbn [px_CapabilityPath]. by rewrite Hc.
Qed.

(** ** Witnesses *)

#[local] Existing Instance ascii_text.
#[local] Existing Instance ascii_upper.
#[local] Existing Instance ascii_tables.
#[local] Existing Instance ascii_rune_lower.
#[local] Existing Instance demo_decoder.

(** A configuration of one provider, read from [servers.json]. *)
Definition demo_flags : generatorFlags := mkGenFlags [] "./structure" "servers.json" false "".
Definition demo_servers : generatorConfig := mkGenConfig {["notes" := Some Inventory.demo_config]} "/work/out".
Definition demo_command (flags : generatorFlags) : disk * result error string :=
  generator_main (mcp := demo_tools) (catalog := demo_catalog) (λ _, "") (λ _, Ok []) (λ _, Ok demo_servers)
    demo_factory any_tool (λ _, Ok []) (demo_environment all_well) flags (mkDisk (SDir []) (TDir []) nowhere).


Example nothing_to_generate :
  map (λ flags, rmap (λ _, tt) (demo_command flags).2) [no_flags; mkGenFlags ["a.json"] "./structure" "" false ""; mkGenFlags [] "./structure" "c" true ""] =
  [Err (ErrorNew usage); Err (Wrapf "Failed to parse %s: %v" [FStr "a.json"] (Wrapf "invalid pre-fetched server metadata: %w" [] (Sentinel "EOF"))); Ok tt].
Proof. vm_compute. reflexivity. Qed.

(** The command with a configuration in the deprecated form, whose server is
    loaded from the packages the command line names. *)
Example command_run :
  let conf := mkFull (Some (mkProxyV1 "" ":1" "old" "1" None)) ∅ None ∅ in
  let main flags := tappet_main (λ _, false) (λ _, true) (λ _, Ok conf) 0 map_to_list map_to_list
    (λ _, Exited (Sentinel "stdio")) (λ cfg, Exited (ErrorNew (px_Addr (cf_McpProxy cfg) +:+ " " +:+ px_Type (cf_McpProxy cfg) +:+ " " +:+ px_CapabilityPath (cf_McpProxy cfg)))) flags in
  main (mkTappetFlags "c.json" "8080" "/h" "/packages" false true "" 10 false false) = Ran (Exited (ErrorNew ":8080 sse /packages")) None ∧
  main (mkTappetFlags "c.json" "" "" "" false true "" 10 true true) = ShowUsage.
Proof. vm_compute. split; reflexivity. Qed.
